(* ===== verification/_CoqProject ===== *)
-Q . S2P
Prelude.v
Rollout.v
Prog.v
GoStrings.v
GoSort.v
Types.v
Boundary.v
NodeOps.v
Instances.v
PodUtil.v
Identity.v
Claims.v
RefManager.v
Defaults.v
History.v
FakeHistory.v
Revision.v
PodControl.v
Control.v
ControlProps.v
Arrange.v
RollingUpdate.v
Monotonic.v
Burst.v
Progress.v
Convergence.v
Parallel.v
Sync.v
Quiescence.v
Controller.v
ControllerProps.v
Total.v
System.v
Launch.v
Rest.v
Valid.v
Expectations.v
PodRank.v
PodOps.v
Certs.v
Startup.v
CertProps.v
Informers.v
Scheme.v
DeepCopy.v
ApplyConfig.v
ApplyConfigProps.v
Pool.v
Wiring.v
Clientset.v
Witnesses.v
WitnessesAround.v
WitnessesParallel.v
WitnessesSystem.v
WitnessesPool.v
WitnessesApi.v
