(* ===== verification/Prelude.v ===== *)
(** * xstatefulset: a model of the controller and its correctness

    The repository is a Kubernetes controller for [XStatefulSet], a set of pods
    with stable identities and storage.  The informers call handlers, which put
    the keys of sets on a work queue; workers take a key and synchronise its set:
    they adopt or release pods and revisions, compute the current and the update
    revision, create, update and delete pods one by one (or in parallel batches),
    and record the status.  This library models that path in full, together with
    the helpers it rests on, and what surrounds it: the workers and their queue, the
    set-up of the process, the certificates and the start of the webhook server, the
    informer factory, the generated clients, the in-memory test doubles, the apply
    configurations, the registration of the API types and the deep copies.

    ** How the code is modelled

    A function that only computes is a Rocq function; a run-time panic (nil
    dereference, index out of range, failed type assertion) is [None] or [Panic].
    A function that calls the API server, a cache, the clock, the event recorder,
    the work queue or starts goroutines is a program [go A] ([Prog], [Boundary]):
    a finite tree of calls, each with the answers it may get.  Nothing is assumed
    about the answers unless a theorem says so (its argument [Adm]): caches may be
    stale, writes may fail, the clock may stop.  [wp Adm I p Phi tr] says that
    every call satisfies [I] at the point where it is made and every outcome
    satisfies [Phi]; [wp_runs] relates it to executions.  [safe] and [calls] are
    its two common special cases, with a rule for each construct.  A program is finite;
    loops of the source that only the environment bounds take a fuel (below).
    Goroutines are interleaved by a scheduler ([par]), call by call.

    Code that is imported is a parameter: [K8s] (functions of the Kubernetes
    libraries), [K8sLaws] (what their documentation says and the proofs use),
    [GoRuntime] and [GoLaws] (map iteration order, [sort.Sort]), [ClientGo]
    ([retry.RetryOnConflict]), [CacheStore] ([cache.Store]).  [Instances] gives one
    concrete boundary, with its laws proved, which [Witnesses] uses to apply the
    theorems to a concrete set; its decoder follows the patch it is given, also into
    sets that are not valid.  What an API server fills in when it stores an object (the
    namespace, the UID, the resource version, the generation and the creation time)
    is left open ([populated], [stores]).  [HistoryInterface] is the interface of the revision
    history, which the control loop uses; [realHistory] and [fakeHistory] implement
    it.  Components with an environment of their own (certificates, generic pod
    operations, nodes, the set-up of the process, apply configurations) have their own
    type of calls over the same programs, and parameters for what they import
    ([Crypto], [NodeCodec], [WorkQueue], [RuntimeScheme], [LeaderElection],
    [ImportedConfigs], [RestLibrary]), each with its documented laws where a proof
    needs them.

    [int32] and [int64] are [Z] with their wrap-around ([wrap32], [wrap64]); a Go
    map that may be nil is an [option (gmap string string)]; times are nanoseconds.

    ** Files, and the source they model

    - [Prelude], [Prog], [GoStrings], [GoSort]: integers, programs, and the parts of
      the Go library the source uses ([strconv], [regexp], [sort.Stable]).
    - [Types] ([api/apps/v1/types.go]), [Boundary], [Instances].
    - [PodUtil] ([pkg/controller/utils/pod.go]), [Identity] and [Claims]
      ([xstateful_set_utils.go]: names, ordinals, volumes, claim owners).
    - [RefManager] ([controller_ref_manager.go]), [Defaults] ([defaults.go],
      [zz_generated.defaults.go], the webhook), [History] ([controller_history.go]).
    - [Revision] ([xstateful_set_utils.go]: new pods, patches, revisions, status).
    - [PodControl] ([xstateful_pod_control.go], [xstateful_set_status_updater.go]);
      [Valid]: the objects it writes are valid for the API server.
    - [Control] ([xstateful_set_control.go], the whole file); its properties are in
      [ControlProps] (batches, counters, history), [Arrange] (the partition of the
      pods), [RollingUpdate], [Monotonic], [Burst], [Progress], [Sync] and [Quiescence]
      (the fixed point).  [Rollout] is an abstract specification of a rollout, on
      ordinals and revision names only; [Convergence] shows that a synchronisation
      refines it, and [Parallel] that one under the [Parallel] policy refines its
      parallel steps.
    - [Controller] ([xstateful_set.go], the lister's expansion, the pod index) and
      [ControllerProps].  [Total] follows a whole [sync] through every answer.
      [System] puts the parts together: rounds of a whole [sync] on a world of pods,
      revisions and the recorded set, which keeps the effects of its calls; [Launch] is
      about the first round after the template was changed, and [Rest] about the rounds
      after the rollout.
    - [Pool] ([xstateful_set.go]: [Run] and the workers, as a machine over the work
      queue, whose steps interleave) and [Wiring] ([cmd/main.go], [controller.go] and
      [NewStatefulSetController]: flags, clients, factories, handlers, leader election).
    - [Expectations], [PodRank], [PodOps] (creation, deletion and patches of pods, and
      their test double) and [NodeOps] ([controller_utils.go]).
    - [FakeHistory] ([controller_history.go]: the in-memory history).
    - [Certs] ([pkg/webhook/cert]), [Startup] ([cmd/main.go], [cmd/config], [pkg/utils]:
      the set-up of the webhook server and of the leader election lock) and [CertProps].
    - [Informers] ([client-go/informers/externalversions]): the informer factory, its
      goroutines and its shutdown, as a state machine.
    - [Clientset] ([client-go/clientset/versioned], [client-go/listers], the accessors of
      the informers): how clients are made and the requests they add to [gentype]'s,
      with their test doubles.
    - [Scheme] ([register.go] of the API and of the clients, [pkg/feature]): what is
      registered where.
    - [DeepCopy] ([zz_generated.deepcopy.go]): copies in a heap with pointers.
    - [ApplyConfig] ([client-go/applyconfiguration]): the builders, which share and
      allocate pointers; [ApplyConfigProps] gives them a specification by values.
    - [Witnesses], [WitnessesAround], [WitnessesParallel], [WitnessesSystem],
      [WitnessesPool], [WitnessesApi]: the theorems with hypotheses, at a concrete input.

    Definitions have the names of the Go functions; loops and closures have a name
    of their own, given in the comment or by their place after the function.

    ** What is proved

    - Ordering and safety of a synchronisation: [monotonic_order] is the guarantee
      of the [OrderedReady] policy, [sync_scope] what may happen under either
      policy and any interleaving, both with absence of panics as long as the set is
      defaulted and the two revisions restore to valid sets ([syncable]: a stored revision
      that removes the replicas or the partition would panic), which [sync_never_panics]
      extends to a whole [sync] with any answers and errors;
      [rolling_update_budget] and [rolling_update_one_at_a_time] bound the pods an
      update takes down; [deleting_set_untouched] is about sets being deleted.
    - Progress: [scale_up_progress] says that the next pod is created as soon as the
      order allows it, [converged_untouched] that a set as specified is left alone,
      and [UpdateStatefulSet_quiescent] that the whole controller then comes to rest.
      [updateStatefulSet_refines_rollout] says that a synchronisation of healthy pods
      is one step of the abstract rollout, and [rollout_converges] that rounds of
      synchronisation end in a set that is rolled out, after a number of rounds that
      is computed from the pods.  [updateStatefulSet_refines_parallel] and
      [parallel_converges] say the same of the [Parallel] policy, whatever the order of
      its goroutines: scaling takes one round, and the update goes pod by pod.
      [sync_refines_rollout] and [sync_rolls_out] say it of a whole [sync], from the
      listing of the caches to the truncated history, under either policy: the adoption,
      the claiming and the revisions leave the pods alone, the status and the history
      are written without spoiling the next round.  The life of a change of the template
      has three parts: the first [sync] publishes its revision, new, renumbered or known,
      and the rounds that follow roll it out ([template_rolls_out]); and two rounds after
      the last pod is updated the controller has recorded that, has trimmed the history,
      and writes nothing any more ([sync_comes_to_rest]).
    - Pods and claims: a pod is created after its claims, written only with its
      identity and storage, and claims reach the owners the retention policy asks;
      everything written is valid ([written_objects_valid]).
    - Revisions: when one is created, reused or renumbered, that creation ends, what
      history truncation may delete, and how revisions are ordered.
    - Status: counters, completion of a rolling update, and that a synchronisation
      without error has its status recorded.
    - Adoption: what [ClaimPods] may patch, and that adoption follows an uncached
      read of the set, over a whole [sync].
    - Queue: which events enqueue which sets, that a key is settled exactly once,
      and that it is the key [sync] understands.  With the pool of workers: no set is
      synchronised by two workers at once ([sync_never_concurrent]), a key stays known
      to the queue until it has been synchronised after its last event
      ([no_key_lost]), an event leads to a key that a worker can take
      ([event_reaches_worker]), and the queue, the workers, the broadcaster and [Run] end
      in that order when the context is cancelled, without a deadlock ([Run_shuts_down]).
    - Set-up: the controller that [setupController] starts is built from the listers of
      the informers that are started, waits for the caches it reads, and has its
      handlers and its index before the factories start ([setupController_wired]);
      [legacyscheme_defaults] says that every scheme of the program knows the types of the
      group and applies their defaults.
      [rate_needs_burst] follows a flag into the generated clientset, which refuses a rate
      without a burst.
    - Around the controller: replicas that start together agree on one certificate,
      the webhook is served only with its files and its bundle in place, the informer
      factory starts each informer once and leaves none behind, the test doubles do
      what the real components do where they should (and [histories_differ] where they
      do not), a deep copy shares no memory with its original, and the builders of apply
      configurations do what their values say, whatever a client shares between them
      ([builders_refine]).
    - Helpers: defaults, conditions, availability, expectations, orders of pods,
      labels of nodes.

    ** Fuel

    [slowStart_loop] runs on the number of items left, which suffices because no
    batch is empty ([slowStartBatch_complete]).  [create_loop], the unbounded retry
    of revision creation, has a length that depends on the environment: it takes an
    explicit fuel, returns [None] when it is used up, and
    [CreateControllerRevision_store] gives the fuel that suffices for a given store; with
    any answers a [sync] runs out of it only after as many collisions
    ([sync_never_panics]).
    [worker] is the first [n] iterations of an endless loop.  [wait_loop], which polls
    the certificate files, needs 62 iterations for its time-out of 30 seconds
    ([waitForCertsReady_polls]); [fake_create_loop] needs one more than there are
    colliding names ([histories_agree]).

    ** What is not modelled

    Logging, contexts and deadlines; the transform of the informers, which trims a
    field the model does not have; the parsing of flags, which is one call; what the
    clients and listers embed from [gentype] and [listers], whose effects are calls;
    [ResyncPeriod], which is floating point (the logarithm in [logarithmicRankDiff] is a
    parameter); the [Len] and [Swap] of the sorted slices, as a sort is a function on lists
    here, and constant helpers that nothing calls.  Cryptography, PEM and JSON are
    parameters.  The pods given to a synchronisation are distinct objects, so that a
    pointer to one is its place in its slice ([pod_ref]).  A panic ends the process:
    deferred calls of the panicking worker are not run. *)
From Stdlib Require Export ZArith Lia ZifyBool Ascii Sorting.Sorted.
From stdpp Require Export base tactics list gmap strings sorting numbers.

#[global] Open Scope Z_scope.

Declare Scope go_scope.
Delimit Scope go_scope with go.

(** ** Machine integers *)

(** Two's-complement wrap-around of Go's [int32] and [int64]. *)
Definition wrap (bits : Z) (z : Z) : Z := (z + 2 ^ (bits - 1)) mod 2 ^ bits - 2 ^ (bits - 1).
Definition wrap32 : Z → Z := wrap 32.
Definition wrap64 : Z → Z := wrap 64.

Definition in_int32 (z : Z) : Prop := -2147483648 ≤ z < 2147483648.
Definition in_int64 (z : Z) : Prop := -9223372036854775808 ≤ z < 9223372036854775808.

Lemma wrap_small bits z :
  0 < bits → - 2 ^ (bits - 1) ≤ z < 2 ^ (bits - 1) → wrap bits z = z.
Proof.
  intros Hb Hz. unfold wrap.
  assert (2 ^ bits = 2 * 2 ^ (bits - 1)) as ->.
  { rewrite <- Z.pow_succ_r by lia. f_equal. lia. }
  rewrite Z.mod_small; lia.
Qed.

Lemma wrap32_small z : in_int32 z → wrap32 z = z.
Proof. intros Hz. apply wrap_small; [lia|]. exact Hz. Qed.

Lemma wrap64_small z : in_int64 z → wrap64 z = z.
Proof. intros Hz. apply wrap_small; [lia|]. exact Hz. Qed.

Lemma wrap32_range z : in_int32 (wrap32 z).
Proof.
  unfold in_int32, wrap32, wrap. change (2 ^ (32 - 1)) with 2147483648.
  pose proof (Z.mod_pos_bound (z + 2147483648) (2 ^ 32) eq_refl). lia.
Qed.

(** Wrapping is a congruence for addition: intermediate wraps do not matter. *)
Lemma wrap_add_l bits a b : wrap bits (wrap bits a + b) = wrap bits (a + b).
Proof.
  unfold wrap. f_equal.
  replace ((a + 2 ^ (bits - 1)) mod 2 ^ bits - 2 ^ (bits - 1) + b + 2 ^ (bits - 1))
    with ((a + 2 ^ (bits - 1)) mod 2 ^ bits + b) by lia.
  rewrite Zplus_mod_idemp_l. f_equal. lia.
Qed.

Lemma wrap_add_r bits a b : wrap bits (a + wrap bits b) = wrap bits (a + b).
Proof. rewrite Z.add_comm, wrap_add_l. f_equal. lia. Qed.

Lemma wrap32_add_l a b : wrap32 (wrap32 a + b) = wrap32 (a + b).
Proof. apply wrap_add_l. Qed.
Lemma wrap32_add_r a b : wrap32 (a + wrap32 b) = wrap32 (a + b).
Proof. apply wrap_add_r. Qed.

Create HintDb go.
#[export] Hint Resolve wrap32_range : go.
Create Rewrite HintDb go.
#[export] Hint Rewrite wrap32_add_l wrap32_add_r : go.

(** ** Booleans and options *)

Lemma bool_ext (b c : bool) : (b = true ↔ c = true) → b = c.
Proof. destruct b, c; intuition congruence. Qed.

Lemma if_bool (b : bool) : (if b then true else false) = b.
Proof. by destruct b. Qed.

(** The [int] value of a possibly nil pointer, and the comparison of a pointer's
    target with a constant, occur throughout: [o ≠ nil && *o]. *)
Definition ptr_true (o : option bool) : bool := match o with Some b => b | None => false end.

Lemma StronglySorted_filter {A} (R : A → A → Prop) (P : A → Prop) `{∀ x, Decision (P x)} l :
  StronglySorted R l → StronglySorted R (filter P l).
Proof.
  induction 1 as [|x l _ IH Hx]; [constructor|]. rewrite filter_cons. case_decide; [|done].
  constructor; [done|]. rewrite list.Forall_forall in Hx |- *. intros y [_ Hy]%list_elem_of_filter. by apply Hx.
Qed.

Lemma StronglySorted_weaken {A} (R S : A → A → Prop) l :
  (∀ x y, R x y → S x y) → StronglySorted R l → StronglySorted S l.
Proof.
  intros HRS. induction 1 as [|x l Hl IH Hx]; constructor; [done|].
  eapply List.Forall_impl; [|exact Hx]. auto.
Qed.

Lemma filter_ext_in {A} (P Q : A → Prop) `{∀ x, Decision (P x)} `{∀ x, Decision (Q x)} (l : list A) :
  (∀ x, x ∈ l → P x ↔ Q x) → filter P l = filter Q l.
Proof.
  induction l as [|x l IH]; intros HPQ; [done|]. rewrite !filter_cons, IH by (intros; apply HPQ; by right).
  apply decide_ext, HPQ. left.
Qed.

Lemma filter_all {A} (P : A → Prop) `{∀ x, Decision (P x)} (l : list A) :
  (∀ x, x ∈ l → P x) → filter P l = l.
Proof.
  induction l as [|x l IH]; intros HP; [done|].
  rewrite filter_cons_True by (apply HP; left). f_equal. apply IH. intros; apply HP; by right.
Qed.

(** [p != nil] *)
Definition not_nil {A} (o : option A) : bool := match o with Some _ => true | None => false end.

(** Case analysis on every [match] and [if] of the goal. *)
Ltac cases :=
  repeat first [ progress simplify_eq/= | case_match | case_decide | case_bool_decide ].

(** Case analysis on one decidable proposition tested in the goal. *)
Tactic Notation "dec" constr(P) "as" ident(H) :=
  destruct (decide P) as [H|H];
  [ rewrite ?(bool_decide_eq_true_2 P H) | rewrite ?(bool_decide_eq_false_2 P H) ].

Ltac destruct_bool :=
  repeat match goal with
         | H : _ && _ = true |- _ => apply andb_true_iff in H as [? ?]
         | H : _ || _ = false |- _ => apply orb_false_iff in H as [? ?]
         | H : negb _ = true |- _ => apply negb_true_iff in H
         | H : negb _ = false |- _ => apply negb_false_iff in H
         | H : bool_decide _ = true |- _ => apply bool_decide_eq_true in H
         | H : bool_decide _ = false |- _ => apply bool_decide_eq_false in H
         end.
