(* ===== verification/Rollout.v ===== *)
(** * What a rollout promises

    The contract of [updateStatefulSet] under the default pod management policy,
    without pods, API server or caches: a state maps the ordinals that have a pod
    to the revision of that pod, and a step is what one synchronisation does when
    every pod is healthy.  [Convergence] proves that the code takes these steps;
    here, the steps lead to a set that is rolled out.  Under the parallel policy
    ([Parallel]) a step creates and scales down everything at once. *)
From S2P Require Import Prelude.

Section rollout.
(** The first ordinal, the number of replicas, the partition of the rolling
    update, how many pods an update may take down, and the two revisions. *)
Context (start replicas partition budget : Z) (cur upd : string).
Implicit Types (m : gmap Z string) (o : Z).

Definition within o : Prop := start ≤ o < start + replicas.

(** The revision of a new pod. *)
Definition born o : string := if o <? start + partition then cur else upd.

Definition complete m : Prop := ∀ o, within o → is_Some (m !! o).
Definition confined m : Prop := ∀ o, is_Some (m !! o) → within o.

(** The ordinals to update, the highest first. *)
Definition stale m : list Z :=
  filter (λ o, m !! o ≠ Some upd) (reverse (seqZ (start + partition) (replicas - partition))).

Definition delete_all (os : list Z) m : gmap Z string := foldr delete m os.

Inductive rollout_step m : gmap Z string → Prop :=
| step_create o :                        (** the first ordinal without a pod *)
    within o → m !! o = None → (∀ o', start ≤ o' < o → is_Some (m !! o')) →
    rollout_step m (<[o := born o]> m)
| step_scale_down o :                    (** the highest ordinal to scale down *)
    complete m → is_Some (m !! o) → ¬ within o →
    (∀ o', is_Some (m !! o') → ¬ within o' → o' ≤ o) →
    rollout_step m (delete o m)
| step_update :                          (** the highest outdated ordinals, if any *)
    complete m → confined m →
    rollout_step m (delete_all (take (Z.to_nat budget) (stale m)) m).

Definition rolled_out m : Prop :=
  complete m ∧ confined m ∧ ∀ o, within o → start + partition ≤ o → m !! o = Some upd.

(** ** Progress *)

(** The steps an ordinal of the range still needs. *)
Definition cost m o : nat :=
  match m !! o with
  | None => 1
  | Some r => if decide (start + partition ≤ o ∧ r ≠ upd) then 2 else 0
  end.

(** The ordinals outside the range. *)
Definition surplus m : gmap Z string := filter (λ x : Z * string, ¬ (start ≤ x.1 < start + replicas)) m.

Definition work m : nat := sum_list_with (cost m) (seqZ start replicas) + size (surplus m).

Lemma elem_of_range o : o ∈ seqZ start replicas ↔ within o.
Proof. rewrite elem_of_seqZ. unfold within. lia. Qed.

Lemma elem_of_stale m o :
  0 ≤ partition → o ∈ stale m ↔ m !! o ≠ Some upd ∧ within o ∧ start + partition ≤ o.
Proof.
  intros Hp. unfold stale, within. rewrite list_elem_of_filter, elem_of_reverse, elem_of_seqZ.
  intuition lia.
Qed.

Lemma NoDup_stale m : NoDup (stale m).
Proof. apply list.NoDup_filter. rewrite reverse_Permutation. apply NoDup_seqZ. Qed.

(** Changing the cost of one element of a list changes the sum by as much. *)
Lemma sum_list_with_change {A} (f g : A → nat) l x :
  NoDup l → x ∈ l → (∀ y, y ∈ l → y ≠ x → f y = g y) →
  (sum_list_with f l + g x = sum_list_with g l + f x)%nat.
Proof.
  induction 1 as [|y l Hy _ IH]; intros Hx Heq; [by apply not_elem_of_nil in Hx|].
  cbn [sum_list_with]. apply elem_of_cons in Hx as [<-|Hx].
  - assert (sum_list_with f l = sum_list_with g l) as ->; [|lia].
    clear IH. induction l as [|z l IHl]; [done|]. apply not_elem_of_cons in Hy as [Hne Hy].
    cbn [sum_list_with]. rewrite IHl; [|done|].
    + rewrite Heq; [done|right; left|done].
    + intros w Hw Hwx. apply Heq; [|done]. apply elem_of_cons in Hw as [->|Hw]; [left|right; by right].
  - assert (y ≠ x) as Hne by congruence.
    rewrite (Heq y) by (by left || done).
    assert (sum_list_with f l + g x = sum_list_with g l + f x)%nat; [|lia].
    apply IH; [done|]. intros; apply Heq; [by right|done].
Qed.

Lemma cost_insert_ne m o o' r : o ≠ o' → cost (<[o := r]> m) o' = cost m o'.
Proof. intros Hne. unfold cost. by rewrite lookup_insert_ne. Qed.
Lemma cost_delete_ne m o o' : o ≠ o' → cost (delete o m) o' = cost m o'.
Proof. intros Hne. unfold cost. by rewrite lookup_delete_ne. Qed.

(** What a change of one ordinal of the range does to the work. *)
Lemma work_insert m o r :
  within o → (work (<[o := r]> m) + cost m o = work m + cost (<[o := r]> m) o)%nat.
Proof.
  intros Ho. unfold work.
  assert (surplus (<[o := r]> m) = surplus m) as ->.
  { unfold surplus. rewrite map_filter_insert_False by (simpl; unfold within in Ho; tauto).
    by rewrite map_filter_delete_not by (simpl; unfold within in Ho; tauto). }
  pose proof (sum_list_with_change (cost (<[o := r]> m)) (cost m) (seqZ start replicas) o) as Hs.
  assert (∀ y, y ∈ seqZ start replicas → y ≠ o → cost (<[o := r]> m) y = cost m y) as Hne.
  { intros y _ Hy. by apply cost_insert_ne. }
  specialize (Hs (NoDup_seqZ _ _) (proj2 (elem_of_range o) Ho) Hne). lia.
Qed.

Lemma work_delete m o :
  within o → (work (delete o m) + cost m o = work m + 1)%nat.
Proof.
  intros Ho. unfold work.
  assert (surplus (delete o m) = surplus m) as ->.
  { unfold surplus. apply map_filter_delete_not. simpl. unfold within in Ho. tauto. }
  pose proof (sum_list_with_change (cost (delete o m)) (cost m) (seqZ start replicas) o) as Hs.
  assert (cost (delete o m) o = 1%nat) as Hone by (unfold cost; by rewrite lookup_delete_eq).
  assert (∀ y, y ∈ seqZ start replicas → y ≠ o → cost (delete o m) y = cost m y) as Hne.
  { intros y _ Hy. by apply cost_delete_ne. }
  specialize (Hs (NoDup_seqZ _ _) (proj2 (elem_of_range o) Ho) Hne). lia.
Qed.

Lemma sum_list_with_zero {A} (f : A → nat) l : sum_list_with f l = 0%nat ↔ ∀ x, x ∈ l → f x = 0%nat.
Proof.
  induction l as [|y l IH]; cbn [sum_list_with]; [split; [by intros _ ? ?%not_elem_of_nil|done]|].
  rewrite Nat.eq_add_0, IH. split.
  - intros [Hy Hl] x [->|Hx]%elem_of_cons; auto.
  - intros Hl. split; [apply Hl; left|intros; apply Hl; by right].
Qed.

Lemma elem_of_surplus m o : is_Some (surplus m !! o) ↔ is_Some (m !! o) ∧ ¬ within o.
Proof.
  unfold surplus, within. split.
  - intros [r Hr]. apply map_lookup_filter_Some in Hr as [Hr Ho]. split; [by eexists|done].
  - intros [[r Hr] Ho]. exists r. by apply map_lookup_filter_Some.
Qed.

(** There is no work left exactly when the set is rolled out. *)
Lemma work_zero m : work m = 0%nat ↔ rolled_out m.
Proof.
  unfold work. rewrite Nat.eq_add_0, sum_list_with_zero, map_size_empty_iff. split.
  - intros [Hcost Hsur]. assert (∀ o, within o → cost m o = 0%nat) as Hc.
    { intros o Ho. by apply Hcost, elem_of_range. }
    split_and!.
    + intros o Ho. specialize (Hc o Ho). unfold cost in Hc. destruct (m !! o); [by eexists|done].
    + intros o Ho. destruct (decide (start ≤ o < start + replicas)) as [?|Hn]; [done|].
      assert (is_Some (surplus m !! o)) as [r Hr] by (by apply elem_of_surplus).
      by rewrite Hsur, lookup_empty in Hr.
    + intros o Ho Hpart. specialize (Hc o Ho). unfold cost in Hc.
      destruct (m !! o) as [r|]; [|done]. destruct (decide _) as [|Hn]; [done|].
      f_equal. destruct (decide (r = upd)); [done|]. by destruct Hn.
  - intros (Hcomp & Hconf & Hupd). split.
    + intros o Ho%elem_of_range. unfold cost. destruct (Hcomp o Ho) as [r Hr]. rewrite Hr.
      destruct (decide _) as [[Hp Hne]|]; [|done]. specialize (Hupd o Ho Hp). congruence.
    + apply map_empty. intros o. apply eq_None_not_Some. intros Hs%elem_of_surplus.
      destruct Hs as [Hs Hn]. by apply Hn, Hconf.
Qed.

Lemma delete_all_lookup os m o :
  delete_all os m !! o = if decide (o ∈ os) then None else m !! o.
Proof.
  induction os as [|o' os IH]; cbn [delete_all foldr].
  { by rewrite decide_False by apply not_elem_of_nil. }
  fold (delete_all os m). destruct (decide (o' = o)) as [->|Hne].
  - rewrite lookup_delete_eq. by rewrite decide_True by left.
  - rewrite lookup_delete_ne, IH by done. apply decide_ext.
    rewrite elem_of_cons. intuition congruence.
Qed.

Hypothesis Hpart : 0 ≤ partition.

(** Deleting outdated pods: one step of work each. *)
Lemma work_delete_stale os m :
  NoDup os → (∀ o, o ∈ os → o ∈ stale m ∧ is_Some (m !! o)) →
  (work (delete_all os m) + length os = work m)%nat.
Proof.
  induction 1 as [|o os Ho _ IH]; intros Hst; cbn [delete_all foldr length]; [lia|].
  fold (delete_all os m). destruct (Hst o) as [Hs [r Hr]]; [left|].
  apply elem_of_stale in Hs as (Hne & Hin & Hp); [|done].
  pose proof (work_delete (delete_all os m) o Hin) as Hw.
  assert (cost (delete_all os m) o = 2%nat) as Hc.
  { unfold cost. rewrite delete_all_lookup, decide_False, Hr by done.
    rewrite decide_True; [done|]. split; [done|congruence]. }
  rewrite Hc in Hw. rewrite <- IH; [lia|]. intros; apply Hst; by right.
Qed.

Hypothesis Hbudget : 1 ≤ budget.

(** Every step of a set that is not rolled out gets closer to it, and a set that
    is rolled out stays as it is. *)
Lemma rollout_step_work m m' :
  rollout_step m m' → (work m' < work m)%nat ∨ rolled_out m ∧ m' = m.
Proof.
  intros [o Ho Hfree _|o Hcomp Ho Hout _|Hcomp Hconf].
  - left. pose proof (work_insert m o (born o) Ho) as Hw.
    assert (cost m o = 1%nat) as Hc by (unfold cost; by rewrite Hfree).
    assert (cost (<[o:=born o]> m) o = 0%nat) as Hc'.
    { unfold cost. rewrite lookup_insert_eq. unfold born. destruct (decide _) as [[? Hne]|]; [|done].
      destruct (o <? _) eqn:?; [lia|done]. }
    lia.
  - left. unfold work.
    assert (is_Some (surplus m !! o)) as Hs by (by apply elem_of_surplus).
    assert (surplus (delete o m) = delete o (surplus m)) as -> by apply map_filter_delete.
    rewrite map_size_delete_Some by done.
    assert (size (surplus m) ≠ 0%nat).
    { intros Hz%map_size_empty_inv. rewrite Hz, lookup_empty in Hs. by destruct Hs. }
    assert (sum_list_with (cost (delete o m)) (seqZ start replicas) =
            sum_list_with (cost m) (seqZ start replicas)) as ->; [|lia].
    assert (∀ l, (∀ o', o' ∈ l → within o') →
      sum_list_with (cost (delete o m)) l = sum_list_with (cost m) l) as Hsum.
    { induction l as [|o' l IH]; intros Hl; [done|]. cbn [sum_list_with].
      rewrite cost_delete_ne by (intros ->; apply Hout, Hl; left).
      rewrite IH; [done|]. intros; apply Hl; by right. }
    apply Hsum. intros o'. apply elem_of_range.
  - pose proof (work_delete_stale (take (Z.to_nat budget) (stale m)) m) as Hw.
    assert (NoDup (take (Z.to_nat budget) (stale m))) as Hnd.
    { eapply sublist_NoDup; [apply NoDup_stale|apply sublist_take]. }
    rewrite <- Hw; [|exact Hnd|].
    + destruct (stale m) as [|o os] eqn:Hst.
      * right. rewrite take_nil. split; [|done]. split_and!; [done|done|].
        intros o Ho Hp. destruct (decide (m !! o = Some upd)) as [|Hne]; [done|].
        assert (o ∈ stale m) as Hin by (by apply elem_of_stale). rewrite Hst in Hin.
        by apply not_elem_of_nil in Hin.
      * left. rewrite length_take. simpl length. lia.
    + intros o Ho. assert (o ∈ stale m) as Hin.
      { eapply elem_of_sublist; [exact Ho|apply sublist_take]. }
      split; [done|]. apply Hcomp. apply elem_of_stale in Hin; tauto.
Qed.

Lemma rolled_out_step m m' : rolled_out m → rollout_step m m' → m' = m.
Proof.
  intros Hm%work_zero Hs. destruct (rollout_step_work _ _ Hs) as [?|[_ ?]]; [lia|done].
Qed.

(** As many steps as there is work are enough, and more do no harm. *)
Lemma rollout_steps n m m' :
  nsteps rollout_step n m m' → (work m ≤ n)%nat → rolled_out m'.
Proof.
  induction 1 as [m|n m m1 m' Hs _ IH]; intros Hn; [apply work_zero; lia|].
  apply IH. destruct (rollout_step_work _ _ Hs) as [?|[Hm%work_zero ->]]; lia.
Qed.

(** ** The parallel policy *)

(** Every ordinal of the range has a pod, and no other one. *)
Definition fill m : gmap Z string :=
  list_to_map ((λ o, (o, default (born o) (m !! o))) <$> seqZ start replicas).

(** All missing ordinals are created and all surplus ones deleted; then the highest
    outdated ordinals are deleted, fewer than the budget while pods were missing. *)
Inductive parallel_step m : gmap Z string → Prop :=
| step_parallel k :
    (k ≤ Z.to_nat budget)%nat → (complete m → k = Z.to_nat budget) →
    parallel_step m (delete_all (take k (stale (fill m))) (fill m)).

Lemma fill_lookup m o r :
  fill m !! o = Some r ↔ within o ∧ r = default (born o) (m !! o).
Proof.
  unfold fill. rewrite <- elem_of_list_to_map.
  - rewrite list_elem_of_fmap. setoid_rewrite elem_of_range. split.
    + intros (o' & [= -> ->] & Ho). done.
    + intros [Ho ->]. by exists o.
  - rewrite <- list_fmap_compose. apply NoDup_fmap; [by intros ?? [= ->]|]. apply NoDup_seqZ.
Qed.

Lemma fill_complete m : complete (fill m).
Proof. intros o Ho. eexists. by apply fill_lookup. Qed.
Lemma fill_confined m : confined (fill m).
Proof. intros o [r [Ho _]%fill_lookup]. done. Qed.
Lemma fill_same m : complete m → confined m → fill m = m.
Proof.
  intros Hcomp Hconf. apply map_eq. intros o. apply option_eq. intros r. rewrite fill_lookup. split.
  - intros [[r' Hr']%Hcomp ->]. by rewrite Hr'.
  - intros Hr. split; [apply Hconf; by eexists|]. by rewrite Hr.
Qed.

(** Rounds that are left: two for each outdated pod, and one for everything else. *)
Definition parallel_work m : nat :=
  2 * length (stale (fill m)) + (if decide (fill m = m) then 0 else 1).

Lemma filter_not_taken k (l : list Z) : NoDup l → filter (λ o, o ∉ take k l) l = drop k l.
Proof.
  revert k. induction l as [|o l IH]; intros k Hnd; [by destruct k|].
  apply list.NoDup_cons in Hnd as [Ho Hnd]. destruct k as [|k]; cbn [take drop].
  - apply filter_all. intros ??. apply not_elem_of_nil.
  - rewrite filter_cons_False by (intros Hn; apply Hn; left). rewrite <- (IH k Hnd).
    apply filter_ext_in. intros o' Ho'. rewrite not_elem_of_cons.
    split; [by intros [_ ?]|]. intros ?. split; [by intros ->|done].
Qed.

(** Deleted outdated pods come back up to date. *)
Lemma stale_refilled k m :
  stale (fill (delete_all (take k (stale (fill m))) (fill m))) = drop k (stale (fill m)).
Proof.
  set (os := take k (stale (fill m))).
  assert (∀ o, o ∈ os → start + partition ≤ o) as Hos.
  { intros o Ho. assert (o ∈ stale (fill m)) as Hin by (eapply elem_of_sublist; [exact Ho|apply sublist_take]).
    apply elem_of_stale in Hin; tauto. }
  rewrite <- filter_not_taken by apply NoDup_stale. fold os. unfold stale at 1 2.
  rewrite list_filter_filter. apply filter_ext_in. intros o Ho.
  rewrite elem_of_reverse, elem_of_seqZ in Ho.
  assert (within o) as Hin by (unfold within; lia).
  destruct (fill_complete m o Hin) as [r Hr].
  assert (fill (delete_all os (fill m)) !! o = Some (if decide (o ∈ os) then born o else r)) as ->.
  { apply fill_lookup. split; [done|]. rewrite delete_all_lookup. destruct (decide (o ∈ os)); [done|]. by rewrite Hr. }
  rewrite Hr. destruct (decide (o ∈ os)) as [Hoo|Hoo]; [|tauto].
  split; [|tauto]. intros Hne. destruct Hne. unfold born. specialize (Hos o Hoo).
  by destruct (o <? start + partition) eqn:?; [lia|].
Qed.

Lemma parallel_work_zero m : parallel_work m = 0%nat ↔ rolled_out m.
Proof.
  unfold parallel_work. split.
  - intros Hw. destruct (decide (fill m = m)) as [Hf|]; [|lia].
    assert (stale m = []) as Hs by (apply nil_length_inv; rewrite Hf in Hw; lia).
    split_and!; [rewrite <- Hf; apply fill_complete|rewrite <- Hf; apply fill_confined|].
    intros o Ho Hp. destruct (decide (m !! o = Some upd)) as [|Hne]; [done|].
    assert (o ∈ stale m) as Hin by (by apply elem_of_stale). rewrite Hs in Hin. by apply not_elem_of_nil in Hin.
  - intros (Hcomp & Hconf & Hupd). rewrite fill_same, decide_True by done.
    destruct (stale m) as [|o l] eqn:Hs; [done|].
    assert (o ∈ stale m) as Hin by (rewrite Hs; left).
    apply elem_of_stale in Hin as (Hne & Ho & Hp); [|done]. by destruct Hne; apply Hupd.
Qed.

Lemma parallel_step_work m m' :
  parallel_step m m' → (parallel_work m' < parallel_work m)%nat ∨ rolled_out m ∧ m' = m.
Proof.
  intros [k Hk Hall]. unfold parallel_work. rewrite stale_refilled, length_drop.
  destruct (take k (stale (fill m))) as [|o os] eqn:Hos.
  - cbn [delete_all foldr]. rewrite (fill_same (fill m)) by (apply fill_complete || apply fill_confined).
    rewrite decide_True by done. destruct (decide (fill m = m)) as [Hf|]; [right|left; lia].
    split; [|done]. apply parallel_work_zero. unfold parallel_work. rewrite decide_True by done.
    rewrite Hall in Hos by (rewrite <- Hf; apply fill_complete).
    destruct (stale (fill m)); [done|]. destruct (Z.to_nat budget) eqn:?; [lia|done].
  - left. assert (length (take k (stale (fill m))) ≠ 0%nat) as Hlen by by rewrite Hos.
    rewrite length_take in Hlen. destruct (decide _), (decide (fill m = m)); lia.
Qed.

Lemma parallel_steps n m m' :
  nsteps parallel_step n m m' → (parallel_work m ≤ n)%nat → rolled_out m'.
Proof.
  induction 1 as [m|n m m1 m' Hs _ IH]; intros Hn; [apply parallel_work_zero; lia|].
  apply IH. destruct (parallel_step_work _ _ Hs) as [?|[Hm%parallel_work_zero ->]]; lia.
Qed.
End rollout.

(** ** Either policy

    The current revision only matters for new pods below the partition: it may
    change from one step to the next. *)
Section policy.
Context (start replicas partition budget : Z) (upd : string) (parallel : bool).
Implicit Types (m : gmap Z string) (cur : string).

Definition policy_step cur m m' : Prop :=
  if parallel then parallel_step start replicas partition budget cur upd m m'
  else rollout_step start replicas partition budget cur upd m m'.

(** The rounds that are left. *)
Definition policy_work m : nat :=
  if parallel then parallel_work start replicas partition upd upd m
  else work start replicas partition upd m.

Lemma parallel_work_current cur cur' m :
  parallel_work start replicas partition cur upd m = parallel_work start replicas partition cur' upd m.
Proof.
  unfold parallel_work. f_equal.
  - f_equal. f_equal. unfold stale. apply filter_ext_in. intros o Ho.
    rewrite elem_of_reverse, elem_of_seqZ in Ho.
    assert (∀ c, within start replicas o → fill start replicas partition c upd m !! o = Some (default upd (m !! o))) as Hin.
    { intros c Hw. apply fill_lookup. split; [done|]. unfold born. by destruct (o <? _) eqn:?; [lia|]. }
    destruct (decide (within start replicas o)) as [Hw|Hw]; [by rewrite !Hin|].
    assert (∀ c, fill start replicas partition c upd m !! o = None) as Hno; [|by rewrite !Hno].
    intros c. apply eq_None_not_Some. intros Hs. by apply Hw, (fill_confined start replicas partition c upd m).
  - assert (∀ c, fill start replicas partition c upd m = m ↔ complete start replicas m ∧ confined start replicas m) as Hf.
    { intros c. split; [|intros []; by apply fill_same]. intros <-. split; [apply fill_complete|apply fill_confined]. }
    apply decide_ext. by rewrite !Hf.
Qed.

Hypothesis Hpart : 0 ≤ partition.
Hypothesis Hbudget : 1 ≤ budget.

Lemma policy_work_zero m : policy_work m = 0%nat ↔ rolled_out start replicas partition upd m.
Proof. unfold policy_work. destruct parallel; [by apply parallel_work_zero|apply work_zero]. Qed.

Lemma policy_step_work cur m m' :
  policy_step cur m m' → (policy_work m' < policy_work m)%nat ∨ rolled_out start replicas partition upd m ∧ m' = m.
Proof.
  unfold policy_step, policy_work. destruct parallel; [|by apply rollout_step_work].
  rewrite !(parallel_work_current upd cur). by apply parallel_step_work.
Qed.

(** What is left after a step from what is left before it. *)
Lemma policy_step_left n cur m m' :
  policy_step cur m m' → (policy_work m ≤ S n)%nat → (policy_work m' ≤ n)%nat.
Proof. intros Hs. destruct (policy_step_work _ _ _ Hs) as [?|[Hm%policy_work_zero ->]]; lia. Qed.
End policy.
