(* ===== verification/Prog.v ===== *)
(** * Programs that call an environment

    The controller is modelled as a tree of calls to its environment (the API
    server, the informers' caches, the clock, the event recorder, the work
    queue, the goroutine scheduler).  A tree is finite: a loop that only the
    environment bounds takes a fuel. *)
From Stdlib Require Import Eqdep.
From S2P Require Import Prelude.

Inductive prog {E : Type} (R : E → Type) (A : Type) : Type :=
| Ret (a : A)                         (** the function returns *)
| Panic                               (** run-time panic: nil dereference, index out of range *)
| Vis (e : E) (k : R e → prog R A).   (** a call [e]; [k] continues with its answer *)
Arguments Ret {E R A} a.
Arguments Panic {E R A}.
Arguments Vis {E R A} e k.

Section monad.
Context {E : Type} {R : E → Type}.

Fixpoint prog_bind {A B} (f : A → prog R B) (p : prog R A) : prog R B :=
  match p with
  | Ret a => f a
  | Panic => Panic
  | Vis e k => Vis e (λ r, prog_bind f (k r))
  end.

#[export] Instance prog_mret : MRet (prog R) := @Ret E R.
#[export] Instance prog_mbind : MBind (prog R) := @prog_bind.
#[export] Instance prog_fmap : FMap (prog R) := λ A B f p, prog_bind (λ a, Ret (f a)) p.

(** One call, and the answer it gets. *)
Definition call (e : E) : prog R (R e) := Vis e Ret.

(** A pure computation that may panic. *)
Definition deref {A} (o : option A) : prog R A :=
  match o with Some a => Ret a | None => Panic end.

(** *** Executions *)

(** An observation is a call with the answer it got. *)
Definition obs : Type := {e : E & R e}.

(** [runs p tr o]: with the answers recorded in [tr], [p] makes exactly the
    calls of [tr] and ends in [o] ([None] is a panic). *)
Fixpoint runs {A} (p : prog R A) (tr : list obs) (o : option A) : Prop :=
  match p with
  | Ret a => tr = [] ∧ o = Some a
  | Panic => tr = [] ∧ o = None
  | Vis e k => ∃ r tr', tr = existT e r :: tr' ∧ runs (k r) tr' o
  end.

(** Running against a concrete environment with state [W]. *)
Fixpoint run {A W} (h : ∀ e, W → R e * W) (p : prog R A) (w : W) : option A * W :=
  match p with
  | Ret a => (Some a, w)
  | Panic => (None, w)
  | Vis e k => let '(r, w') := h e w in run h (k r) w'
  end.

(** *** Weakest preconditions

    [wp Adm I p Φ tr]: whatever answers the environment gives, as long as
    every observation satisfies [Adm], each call [e] that [p] makes after the
    trace [tr'] satisfies [I tr' e], and the outcome satisfies [Φ]. *)
Section wp.
Context (Adm : obs → Prop) (I : list obs → E → Prop).

Fixpoint wp {A} (p : prog R A) (Φ : list obs → option A → Prop) (tr : list obs) : Prop :=
  match p with
  | Ret a => Φ tr (Some a)
  | Panic => Φ tr None
  | Vis e k => I tr e ∧ ∀ r, Adm (existT e r) → wp (k r) Φ (tr ++ [existT e r])
  end.

Lemma wp_mono {A} (p : prog R A) (Φ Ψ : list obs → option A → Prop) tr :
  (∀ tr o, Φ tr o → Ψ tr o) → wp p Φ tr → wp p Ψ tr.
Proof.
  intros HΦ. revert tr. induction p as [a| |e k IH]; intros tr; simpl; [auto..|].
  intros [Hi Hk]. split; [done|]. intros r Hr. apply IH, Hk, Hr.
Qed.

Lemma wp_bind {A B} (p : prog R A) (f : A → prog R B) Φ tr :
  wp (p ≫= f) Φ tr ↔
  wp p (λ tr' o, match o with Some a => wp (f a) Φ tr' | None => Φ tr' None end) tr.
Proof.
  revert tr. induction p as [a| |e k IH]; intros tr; simpl; [done..|].
  split; intros [Hi Hk]; (split; [done|]); intros r Hr; apply IH, Hk, Hr.
Qed.

Lemma wp_bind_2 {A B} (p : prog R A) (f : A → prog R B) Φ tr :
  wp p (λ tr' o, match o with Some a => wp (f a) Φ tr' | None => Φ tr' None end) tr →
  wp (p ≫= f) Φ tr.
Proof. apply wp_bind. Qed.

Lemma wp_call_bind {B} e (f : R e → prog R B) Φ tr :
  I tr e → (∀ r, Adm (existT e r) → wp (f r) Φ (tr ++ [existT e r])) →
  wp (call e ≫= f) Φ tr.
Proof. intros. by split. Qed.

(** Composition: [p] always returns, with a result in [Q]. *)
Lemma wp_seq {A B} (p : prog R A) (f : A → prog R B) (Q : list obs → A → Prop) Φ tr :
  wp p (λ tr' o, ∃ a, o = Some a ∧ Q tr' a) tr →
  (∀ tr' a, Q tr' a → wp (f a) Φ tr') →
  wp (p ≫= f) Φ tr.
Proof.
  intros Hp Hf. apply wp_bind. eapply wp_mono; [|exact Hp].
  intros tr' o (a & -> & Ha). by apply Hf.
Qed.

Lemma wp_fmap {A B} (p : prog R A) (f : A → B) Φ tr :
  wp (f <$> p) Φ tr ↔ wp p (λ tr' o, Φ tr' (f <$> o)) tr.
Proof.
  unfold fmap at 1, prog_fmap. etrans; [apply (wp_bind p (λ a, Ret (f a)))|].
  split; apply wp_mono; by intros ? [].
Qed.

Lemma wp_call e Φ tr :
  I tr e → (∀ r, Adm (existT e r) → Φ (tr ++ [existT e r]) (Some r)) → wp (call e) Φ tr.
Proof. intros. by split. Qed.

Lemma wp_ret {A} (a : A) Φ tr : Φ tr (Some a) → wp (mret a) Φ tr.
Proof. done. Qed.

Lemma wp_deref {A} (o : option A) (Φ : list obs → option A → Prop) tr :
  Φ tr o → wp (deref o) Φ tr.
Proof. by destruct o. Qed.
End wp.

(** Weakening of what is required at each call. *)
Lemma wp_weaken {A} (Adm Adm' : obs → Prop) (I J : list obs → E → Prop) (p : prog R A) Φ tr :
  (∀ o, Adm' o → Adm o) → (∀ tr e, I tr e → J tr e) → wp Adm I p Φ tr → wp Adm' J p Φ tr.
Proof.
  intros HA HI. revert tr. induction p as [a| |e k IH]; intros tr; simpl; [done..|].
  intros [Hi Hk]. split; [by apply HI|]. intros r Hr. by apply IH, Hk, HA.
Qed.

Lemma wp_and {A} Adm I (p : prog R A) Φ Ψ tr :
  wp Adm I p Φ tr → wp Adm I p Ψ tr → wp Adm I p (λ tr o, Φ tr o ∧ Ψ tr o) tr.
Proof.
  revert tr. induction p as [a| |e k IH]; intros tr; simpl; [done..|].
  intros [Hi Hk] [_ Hk']. split; [done|]. intros r Hr. apply IH; [by apply Hk|by apply Hk'].
Qed.

(** The calls of a program, recorded in its final trace. *)
Lemma wp_trace {A} Adm (P : E → Prop) (p : prog R A) Φ tr :
  wp Adm (λ _, P) p Φ tr →
  wp Adm (λ _, P) p (λ tr' o, Φ tr' o ∧ ∃ new, tr' = tr ++ new ∧
                       Forall (λ x, P (projT1 x) ∧ Adm x) new) tr.
Proof.
  revert tr. induction p as [a| |e k IH]; intros tr; simpl.
  1,2: intros HΦ; split; [done|]; exists []; by rewrite app_nil_r.
  intros [He Hk]. split; [done|]. intros r Hr.
  eapply wp_mono; [|by apply IH, Hk].
  intros tr' o [HΦ (new & -> & Hnew)]. split; [done|].
  exists (existT e r :: new). rewrite <- (assoc_L (++)). split; [done|by constructor].
Qed.

(** The same program, started later. *)
Lemma wp_shift {A} Adm I (p : prog R A) Φ tr0 tr :
  wp Adm I p Φ tr →
  wp Adm (λ tr' e, ∃ tr1, tr' = tr0 ++ tr1 ∧ I tr1 e) p
    (λ tr' o, ∃ tr1, tr' = tr0 ++ tr1 ∧ Φ tr1 o) (tr0 ++ tr).
Proof.
  revert tr. induction p as [a| |e k IH]; intros tr; simpl; [by exists tr..|].
  intros [Hi Hk]. split; [by exists tr|]. intros r Hr. rewrite <- (assoc_L (++)). by apply IH, Hk.
Qed.

(** A requirement on calls alone does not depend on what was called before. *)
Lemma wp_relocate {A} Adm (P : E → Prop) (p : prog R A) Φ t tr :
  wp Adm (λ _, P) p Φ t →
  wp Adm (λ _, P) p (λ tr' o, ∃ new, tr' = tr ++ new ∧ Φ (t ++ new) o) tr.
Proof.
  revert t tr. induction p as [a| |e k IH]; intros t tr; simpl.
  1,2: intros HΦ; exists []; by rewrite !app_nil_r.
  intros [He Hk]. split; [done|]. intros r Hr.
  eapply wp_mono; [|by apply IH, Hk]. intros tr' o (new & -> & HΦ).
  exists (existT e r :: new). by rewrite <- !(assoc_L (++)) in *.
Qed.

(** A postcondition that survives other calls: what a concurrent program needs. *)
Definition stable {A} (Φ : list obs → A → Prop) : Prop :=
  ∀ tr tr' a, tr `sublist_of` tr' → Φ tr a → Φ tr' a.

Lemma wp_extend {A} Adm (P : E → Prop) (p : prog R A) Φ tr tr2 :
  stable Φ → tr `sublist_of` tr2 → wp Adm (λ _, P) p Φ tr → wp Adm (λ _, P) p Φ tr2.
Proof.
  intros Hst. revert tr tr2. induction p as [a| |e k IH]; intros tr tr2 Hsub; simpl.
  1,2: by apply Hst.
  intros [He Hk]. split; [done|]. intros r Hr. eapply IH; [|by apply Hk].
  by apply sublist_app.
Qed.

(** The calls of [tr] satisfy [I], each at the point where it is made. *)
Definition trace_ok (I : list obs → E → Prop) (tr0 tr : list obs) : Prop :=
  ∀ tr1 e r tr2, tr = tr1 ++ existT e r :: tr2 → I (tr0 ++ tr1) e.

(** Adequacy: [wp] speaks about every execution. *)
Lemma wp_runs {A} Adm I (p : prog R A) Φ tr0 tr o :
  wp Adm I p Φ tr0 → runs p tr o → Forall Adm tr →
  trace_ok I tr0 tr ∧ Φ (tr0 ++ tr) o.
Proof.
  revert tr0 tr. induction p as [a| |e k IH]; intros tr0 tr; simpl.
  - intros HΦ [-> ->] _. rewrite app_nil_r. split; [|done].
    intros tr1 e r tr2 Hnil. by destruct tr1.
  - intros HΦ [-> ->] _. rewrite app_nil_r. split; [|done].
    intros tr1 e r tr2 Hnil. by destruct tr1.
  - intros [Hi Hk] (r & tr' & -> & Hrun) Hall.
    inversion_clear Hall as [|? ? Hr Htr].
    destruct (IH r _ _ (Hk r Hr) Hrun Htr) as [Hok HΦ].
    rewrite <- app_assoc in HΦ. split; [|exact HΦ].
    intros [|o1 tr1] e' r' tr2 Heq; simpl in Heq.
    + rewrite app_nil_r. assert (e' = e) as -> by (by inversion Heq). exact Hi.
    + assert (o1 = existT e r ∧ tr' = tr1 ++ existT e' r' :: tr2) as [-> ->]
        by (split; congruence).
      specialize (Hok tr1 e' r' tr2 eq_refl). by rewrite <- app_assoc in Hok.
Qed.

(** An execution of a sequence: one of its first part, then one of the rest. *)
Lemma runs_split {A B} (p : prog R A) (f : A → prog R B) tr o :
  runs (p ≫= f) tr o →
  ∃ o1 tr1 tr2, tr = tr1 ++ tr2 ∧ runs p tr1 o1 ∧
    match o1 with Some a => runs (f a) tr2 o | None => tr2 = [] ∧ o = None end.
Proof.
  revert tr. induction p as [a| |e k IH]; intros tr; simpl.
  - intros Hf. by exists (Some a), [], tr.
  - intros [-> ->]. by exists None, [], [].
  - intros (r & tr' & -> & Hr). destruct (IH r tr' Hr) as (o1 & tr1 & tr2 & -> & Hk & Hf).
    exists o1, (existT e r :: tr1), tr2. split_and!; [done| |done]. by exists r, tr1.
Qed.

Lemma runs_bind {A B} (p : prog R A) (f : A → prog R B) tr b :
  runs (p ≫= f) tr (Some b) →
  ∃ a tr1 tr2, tr = tr1 ++ tr2 ∧ runs p tr1 (Some a) ∧ runs (f a) tr2 (Some b).
Proof. intros ([a|] & tr1 & tr2 & -> & Hp & Hf)%runs_split; [by exists a, tr1, tr2|by destruct Hf]. Qed.

Lemma runs_seq {A B} (p : prog R A) (f : A → prog R B) tr1 tr2 tr a o :
  tr = tr1 ++ tr2 → runs p tr1 (Some a) → runs (f a) tr2 o → runs (p ≫= f) tr o.
Proof.
  intros ->. revert tr1. induction p as [a'| |e k IH]; intros tr1; simpl.
  - by intros [-> [= ->]].
  - by intros [_ ?].
  - intros (r & tr' & -> & Hr) Hf. exists r, (tr' ++ tr2). split; [done|]. by apply IH.
Qed.

(** When every call has an admissible answer, there is an execution. *)
Lemma runs_exists {A} (Adm : obs → Prop) (p : prog R A) :
  (∀ e, ∃ r, Adm (existT e r)) → ∃ tr o, runs p tr o ∧ Forall Adm tr.
Proof.
  intros Hadm. induction p as [a| |e k IH].
  - by exists [], (Some a).
  - by exists [], None.
  - destruct (Hadm e) as [r Hr]. destruct (IH r) as (tr & o & Hk & Htr).
    exists (existT e r :: tr), o. split; [by exists r, tr|by constructor].
Qed.

(** [leads p tr p']: after the observations [tr], [p'] is what is left of [p]. *)
Inductive leads {A} (p : prog R A) : list obs → prog R A → Prop :=
| leads_nil : leads p [] p
| leads_snoc tr e (k : R e → prog R A) r :
    leads p tr (Vis e k) → leads p (tr ++ [existT e r]) (k r).

(** Adequacy for executions that have not ended. *)
Lemma leads_wp {A} Adm I (p p' : prog R A) Φ tr :
  leads p tr p' → wp Adm I p Φ [] → Forall Adm tr → wp Adm I p' Φ tr.
Proof.
  intros Hl Hp. induction Hl as [|tr e k r Hl IH]; [done|].
  intros [Htr Hr]%Forall_app. inversion_clear Hr as [|? ? Hr' _]. by apply (IH Htr).
Qed.

(** Each call of a partial execution is allowed at the point where it was made. *)
Lemma leads_ok {A} Adm I (p p' : prog R A) Φ tr :
  leads p tr p' → wp Adm I p Φ [] → Forall Adm tr → trace_ok I [] tr.
Proof.
  intros Hl Hp. induction Hl as [|tr e k r Hl IH]; intros Hall tr1 e' r' tr2 Heq; [by destruct tr1|].
  apply Forall_app in Hall as [Htr _]. destruct tr2 as [|o tr2 _] using rev_ind.
  - apply app_inj_tail in Heq as [<- Heq]. assert (e = e') as <- by (by inversion Heq).
    by destruct (leads_wp _ _ _ _ _ _ Hl Hp Htr).
  - rewrite app_comm_cons, (assoc_L (++)) in Heq. apply app_inj_tail in Heq as [-> _]. by eapply IH.
Qed.

Lemma leads_nil_inv {A} (p p' : prog R A) : leads p [] p' → p' = p.
Proof.
  intros Hl. remember ([] : list obs) as tr eqn:Htr. destruct Hl as [|tr e k r Hl]; [done|]. by destruct tr.
Qed.

Lemma leads_cons {A} e (k : R e → prog R A) o tr p' :
  leads (Vis e k) (o :: tr) p' → ∃ r, o = existT e r ∧ leads (k r) tr p'.
Proof.
  intros Hl. remember (o :: tr) as tr0 eqn:Htr. revert tr Htr.
  induction Hl as [|tr0 e' k' r Hl IH]; intros tr Htr; [done|].
  destruct tr as [|o' tr _] using rev_ind.
  - apply (app_inj_tail tr0 []) in Htr as [-> <-]. apply leads_nil_inv in Hl. injection Hl as -> Hk.
    apply inj_pair2 in Hk. subst k'. exists r. split; [done|constructor].
  - rewrite app_comm_cons in Htr. apply app_inj_tail in Htr as [-> <-].
    destruct (IH tr eq_refl) as (r' & -> & Hl'). exists r'. split; [done|]. by constructor.
Qed.

(** What follows a complete execution of the first part is one of the rest. *)
Lemma leads_after {A B} (p : prog R A) (f : A → prog R B) tr post rest a :
  runs p tr (Some a) → leads (p ≫= f) (tr ++ post) rest → leads (f a) post rest.
Proof.
  revert tr. induction p as [a'| |e k IH]; intros tr; simpl.
  - by intros [-> [= ->]].
  - by intros [_ ?].
  - intros (r & tr' & -> & Hr) Hl. apply (leads_cons e (λ r, k r ≫= f)) in Hl as (r' & Heq & Hl).
    apply inj_pair2 in Heq. subst r'. by eapply IH.
Qed.

Lemma leads_runs {A} (p p' : prog R A) tr tr' o : leads p tr p' → runs p' tr' o → runs p (tr ++ tr') o.
Proof.
  intros Hl. revert tr'. induction Hl as [|tr e k r Hl IH]; intros tr' Hr; [done|].
  rewrite <- (assoc_L (++)). apply IH. by exists r, tr'.
Qed.

Lemma leads_ret {A} (p : prog R A) tr a : leads p tr (Ret a) → runs p tr (Some a).
Proof. intros Hl. rewrite <- (app_nil_r tr). by eapply leads_runs. Qed.

Lemma leads_calls {A} (Adm : obs → Prop) (P : E → Prop) (p p' : prog R A) tr :
  leads p tr p' → wp Adm (λ _, P) p (λ _ _, True) [] → Forall Adm tr → Forall (λ x, P (projT1 x)) tr.
Proof.
  intros Hl Hp. induction Hl as [|tr e k r Hl IH]; [done|]. intros [Htr Hr]%Forall_app.
  apply Forall_app. split; [by apply IH|]. constructor; [|constructor].
  apply (leads_wp _ _ _ _ _ _ Hl Hp Htr).
Qed.

(** Programs that only make calls satisfying [P]. *)
Definition only {A} (P : E → Prop) (p : prog R A) : Prop :=
  wp (λ _, True) (λ _, P) p (λ _ _, True) [].
End monad.

Arguments obs {E} R.
#[global] Instance: Params (@wp) 5 := {}.

#[global] Arguments wp : simpl never.

(** Symbolic execution: one bind, call or return at a time. *)
Ltac wp_step :=
  lazymatch goal with
  | |- wp _ _ (mret _) _ _ => apply wp_ret
  | |- wp _ _ (Ret _) _ _ => apply (wp_ret _ _ _ _ _)
  | |- wp _ _ (call _ ≫= _) _ _ => apply wp_call_bind; [|intros ? ?]
  | |- wp _ _ (call _) _ _ => apply wp_call; [|intros ? ?]
  | |- wp _ _ (mret ?a ≫= ?f) _ _ => change (mret a ≫= f) with (f a); cbv beta iota
  | |- wp _ _ (_ ≫= _ ≫= _) _ _ => apply wp_bind_2
  | |- wp _ _ (_ ≫= _) _ _ => apply wp_bind_2
  end.
Ltac wp_steps := repeat (wp_step; cbv beta iota).
