(* ===== verification/GoStrings.v ===== *)
(** * Strings and numerals of the Go standard library

    What the source uses of [strconv], [fmt] and [regexp]: decimal printing of an
    [int], [strconv.ParseInt(s, 10, 32)] on a run of digits, and the submatches
    of [statefulPodRegex].  A Go string is a sequence of
    bytes, here a [string] of [ascii]. *)
From S2P Require Export Prelude.

Definition chars (s : string) : list ascii := String.list_ascii_of_string s.
Definition of_chars (l : list ascii) : string := String.string_of_list_ascii l.

Lemma of_chars_chars s : of_chars (chars s) = s.
Proof. apply String.string_of_list_ascii_of_string. Qed.
Lemma chars_of_chars l : chars (of_chars l) = l.
Proof. apply String.list_ascii_of_string_of_list_ascii. Qed.
Lemma chars_app s1 s2 : chars (s1 +:+ s2) = chars s1 ++ chars s2.
Proof. induction s1 as [|c s1 IH]; [done|]. change (c :: chars (s1 +:+ s2) = c :: (chars s1 ++ chars s2)). by rewrite IH. Qed.
Lemma chars_inj s1 s2 : chars s1 = chars s2 → s1 = s2.
Proof. intros Heq. by rewrite <- (of_chars_chars s1), Heq, of_chars_chars. Qed.
#[export] Hint Rewrite chars_app chars_of_chars of_chars_chars : go.

(** [len(s)] *)
Definition len (s : string) : Z := Z.of_nat (String.length s).
(** [s1 < s2]: lexicographic order of the bytes. *)
Definition str_lt (s1 s2 : string) : bool := String.ltb s1 s2.

Lemma str_lt_cons a s b t :
  str_lt (String.String a s) (String.String b t) =
  match (N_of_ascii a ?= N_of_ascii b)%N with Eq => str_lt s t | Lt => true | Gt => false end.
Proof. unfold str_lt, String.ltb. simpl. unfold Ascii.compare. by destruct (_ ?= _)%N. Qed.

Lemma str_lt_asym s t : str_lt s t = true → str_lt t s = false.
Proof.
  unfold str_lt, String.ltb. rewrite (String.compare_antisym s t).
  by destruct (String.compare t s).
Qed.

Lemma str_le_trans s t u : str_lt t s = false → str_lt u t = false → str_lt u s = false.
Proof.
  revert t u. induction s as [|a s IH]; intros [|b t] [|c u]; try done.
  rewrite !str_lt_cons.
  destruct (N.compare_spec (N_of_ascii b) (N_of_ascii a)), (N.compare_spec (N_of_ascii c) (N_of_ascii b)),
    (N.compare_spec (N_of_ascii c) (N_of_ascii a)); try done; try lia. apply IH.
Qed.

(** Names are totally ordered. *)
Lemma str_lt_total s t : str_lt s t = false → str_lt t s = false → s = t.
Proof.
  unfold str_lt, String.ltb. rewrite (String.compare_antisym s t).
  destruct (String.compare t s) eqn:Ht; try done. intros _ _. symmetry. by apply String.compare_eq_iff.
Qed.

(** ** Decimal numerals *)

Definition is_digit (c : ascii) : bool :=
  (48 <=? Z.of_N (N_of_ascii c)) && (Z.of_N (N_of_ascii c) <=? 57).
Definition digit_val (c : ascii) : Z := Z.of_N (N_of_ascii c) - 48.
Definition digit_char (d : Z) : ascii := ascii_of_N (Z.to_N (48 + d)).

Lemma digit_char_val d : 0 ≤ d < 10 → digit_val (digit_char d) = d.
Proof.
  intros Hd. unfold digit_val, digit_char. rewrite N_ascii_embedding by lia. lia.
Qed.
Lemma digit_char_is_digit d : 0 ≤ d < 10 → is_digit (digit_char d) = true.
Proof.
  intros Hd. unfold is_digit, digit_char. rewrite N_ascii_embedding by lia. lia.
Qed.
Lemma digit_val_range c : is_digit c = true → 0 ≤ digit_val c < 10.
Proof. unfold is_digit, digit_val. lia. Qed.

(** The digits of [n], least significant first. *)
Fixpoint digits_rev (fuel : nat) (n : Z) : list ascii :=
  match fuel with
  | O => []
  | S fuel =>
      if n <? 10 then [digit_char n]
      else digit_char (n mod 10) :: digits_rev fuel (n / 10)
  end.

(** A number has at most one digit per bit. *)
Definition digits_fuel (n : Z) : nat := S (Z.to_nat (Z.log2 n)).

(** [strconv.Itoa], also the [%d] verb of [fmt.Sprintf]. *)
Definition Itoa (n : Z) : string :=
  if n <? 0 then "-" +:+ of_chars (reverse (digits_rev (digits_fuel (- n)) (- n)))
  else of_chars (reverse (digits_rev (digits_fuel n) n)).

(** The value of a run of digits. *)
Definition digits_value (ds : list ascii) : Z :=
  foldl (λ acc c, acc * 10 + digit_val c) 0 ds.

(** [strconv.ParseInt(s, 10, 32)] on a non-empty run of digits: the only error
    left is a value out of range. *)
Definition ParseInt32 (ds : list ascii) : option Z :=
  let v := digits_value ds in if v <=? 2147483647 then Some v else None.

Lemma digits_value_snoc ds c : digits_value (ds ++ [c]) = digits_value ds * 10 + digit_val c.
Proof. unfold digits_value. by rewrite foldl_app. Qed.

Lemma digits_value_nonneg ds : Forall (λ c, is_digit c = true) ds → 0 ≤ digits_value ds.
Proof.
  induction ds as [|c ds IH] using rev_ind; intros Hds; [done|].
  rewrite digits_value_snoc. apply Forall_app in Hds as [Hds Hc].
  apply Forall_singleton, digit_val_range in Hc. specialize (IH Hds). lia.
Qed.

Lemma digits_rev_spec fuel n :
  0 ≤ n → n < 2 ^ Z.of_nat fuel →
  digits_value (reverse (digits_rev fuel n)) = n ∧
  Forall (λ c, is_digit c = true) (digits_rev fuel n) ∧ (fuel ≠ 0%nat → digits_rev fuel n ≠ []).
Proof.
  revert n. induction fuel as [|fuel IH]; intros n Hn Hlt; simpl.
  { simpl in Hlt. assert (n = 0) as -> by lia. done. }
  destruct (n <? 10) eqn:Hten.
  - split; [|split; [|done]].
    + rewrite reverse_singleton. unfold digits_value. simpl. apply digit_char_val. lia.
    + repeat constructor. apply digit_char_is_digit. lia.
  - rewrite Nat2Z.inj_succ, Z.pow_succ_r in Hlt by lia.
    assert (n / 10 < 2 ^ Z.of_nat fuel) as Hdiv by (apply Z.div_lt_upper_bound; lia).
    destruct (IH (n / 10)) as (Hv & Hall & _); [apply Z.div_pos; lia|done|].
    pose proof (Z.mod_pos_bound n 10 eq_refl) as Hmod.
    split; [|split; [|done]].
    + rewrite reverse_cons, digits_value_snoc, Hv, digit_char_val by lia.
      rewrite Z.mul_comm. symmetry. apply Z.div_mod. lia.
    + constructor; [by apply digit_char_is_digit|done].
Qed.

Lemma digits_fuel_enough n : 0 ≤ n → n < 2 ^ Z.of_nat (digits_fuel n).
Proof.
  intros Hn. unfold digits_fuel. rewrite Nat2Z.inj_succ, Z2Nat.id by apply Z.log2_nonneg.
  destruct (decide (n = 0)) as [->|]; [done|]. apply Z.log2_spec. lia.
Qed.

(** The digits [Itoa] prints for a non-negative number. *)
Lemma Itoa_digits n :
  0 ≤ n →
  digits_value (chars (Itoa n)) = n ∧
  Forall (λ c, is_digit c = true) (chars (Itoa n)) ∧ chars (Itoa n) ≠ [].
Proof.
  intros Hn. unfold Itoa. destruct (n <? 0) eqn:?; [lia|]. rewrite chars_of_chars.
  destruct (digits_rev_spec (digits_fuel n) n) as (Hv & Hall & Hne); [done|by apply digits_fuel_enough|].
  split; [done|]. split; [by apply Forall_reverse|].
  intros Hnil. apply Hne; [done|]. apply (inj reverse). by rewrite Hnil, reverse_nil.
Qed.

(** ** The regular expression [statefulPodRegex]

    Two groups separated by a dash: any characters but a newline, then one or
    more digits up to the end of the text. *)

Definition newline : ascii := "010"%char.
Definition dash : ascii := "-"%char.

Fixpoint span {A} (f : A → bool) (l : list A) : list A * list A :=
  match l with
  | [] => ([], [])
  | x :: l' => if f x then let '(a, b) := span f l' in (x :: a, b) else ([], l)
  end.

Lemma span_spec {A} (f : A → bool) l a b :
  span f l = (a, b) →
  l = a ++ b ∧ Forall (λ x, f x = true) a ∧
  match b with [] => True | x :: _ => f x = false end.
Proof.
  revert a b. induction l as [|x l IH]; intros a b; simpl; [by intros [= <- <-]|].
  destruct (f x) eqn:Hx.
  - destruct (span f l) as [a' b'] eqn:Hs. intros [= <- <-].
    destruct (IH _ _ eq_refl) as (-> & Ha & Hb). split; [done|]. split; [by constructor|done].
  - intros [= <- <-]. by split.
Qed.

Lemma span_app {A} (f : A → bool) a b :
  Forall (λ x, f x = true) a → match b with [] => True | x :: _ => f x = false end →
  span f (a ++ b) = (a, b).
Proof.
  intros Ha Hb. induction Ha as [|x a Hx Ha IH]; simpl.
  - destruct b as [|y b]; [done|]. simpl. by rewrite Hb.
  - by rewrite Hx, IH.
Qed.

(** [FindStringSubmatch]: the two groups of the leftmost match.  The second
    group is the maximal run of digits that ends the string; a dash precedes it;
    the first group is what stands between the last newline (which [.] does not
    match) and that dash. *)
Definition FindStringSubmatch (s : string) : option (list ascii * list ascii) :=
  let '(ds, rest) := span is_digit (reverse (chars s)) in
  match ds, rest with
  | _ :: _, c :: pre =>
      if bool_decide (c = dash)
      then Some (reverse (span (λ c, bool_decide (c ≠ newline)) pre).1, reverse ds)
      else None
  | _, _ => None
  end.

(** Reference semantics of the expression: a match leaves [x] before it. *)
Definition regex_match (s : string) (x p ds : list ascii) : Prop :=
  chars s = x ++ p ++ dash :: ds ∧
  (newline ∉ p) ∧ ds ≠ [] ∧ Forall (λ c, is_digit c = true) ds.

Lemma dash_not_digit : is_digit dash = false.
Proof. reflexivity. Qed.

Lemma Forall_not_newline p : (newline ∉ p) ↔ Forall (λ c, bool_decide (c ≠ newline) = true) p.
Proof.
  rewrite list.Forall_forall. split.
  - intros Hn c Hc. apply bool_decide_eq_true. by intros ->.
  - intros Hall Hn. specialize (Hall _ Hn). by apply bool_decide_eq_true in Hall.
Qed.

Lemma regex_match_span s x p ds :
  regex_match s x p ds →
  span is_digit (reverse (chars s)) = (reverse ds, dash :: reverse (x ++ p)).
Proof.
  intros (Hs & _ & _ & Hds). rewrite Hs.
  rewrite (assoc_L (++)), reverse_app, reverse_cons, <- (assoc_L (++)). simpl.
  apply span_app; [by apply Forall_reverse|apply dash_not_digit].
Qed.

Lemma reverse_cons_nil {A} (l : list A) : l ≠ [] → ∃ x l', reverse l = x :: l'.
Proof.
  intros Hl. destruct (reverse l) eqn:Hr; [|eauto].
  destruct Hl. apply (inj reverse). by rewrite Hr.
Qed.

Lemma FindStringSubmatch_match s p ds :
  FindStringSubmatch s = Some (p, ds) →
  ∃ x, regex_match s x p ds ∧ (x = [] ∨ list.last x = Some newline).
Proof.
  unfold FindStringSubmatch. destruct (span is_digit _) as [ds' rest] eqn:Hsp.
  destruct (span_spec _ _ _ _ Hsp) as (Heq & Hds & _).
  destruct ds' as [|d ds']; [done|]. destruct rest as [|c pre]; [done|].
  case_bool_decide as Hc; [|done]. subst c. intros [= <- <-].
  destruct (span _ pre) as [a b] eqn:Hsp'. simpl.
  destruct (span_spec _ _ _ _ Hsp') as (-> & Ha & Hb).
  exists (reverse b). split.
  - split; [|split; [|split]].
    + rewrite <- (reverse_involutive (chars s)), Heq.
      rewrite reverse_app, (reverse_cons _ dash), reverse_app, <- !(assoc_L (++)). done.
    + by apply Forall_not_newline, Forall_reverse.
    + intros Hnil. apply (f_equal reverse) in Hnil. by rewrite reverse_involutive in Hnil.
    + by apply Forall_reverse.
  - destruct b as [|y b]; [by left|]. right. rewrite reverse_cons, last_snoc.
    apply bool_decide_eq_false, dec_stable in Hb. by rewrite Hb.
Qed.

(** [FindStringSubmatch] returns the leftmost match of [statefulPodRegex]
    when there is one, and no match otherwise. *)
Lemma FindStringSubmatch_leftmost s :
  match FindStringSubmatch s with
  | Some (p, ds) =>
      ∃ x, regex_match s x p ds ∧
           ∀ x' p' ds', regex_match s x' p' ds' → ds' = ds ∧ (length x ≤ length x')%nat
  | None => ∀ x p ds, ¬ regex_match s x p ds
  end.
Proof.
  destruct (FindStringSubmatch s) as [[p ds]|] eqn:Hf.
  - destruct (FindStringSubmatch_match _ _ _ Hf) as (x & Hm & Hx). exists x. split; [done|].
    intros x' p' ds' Hm'. pose proof (regex_match_span _ _ _ _ Hm) as H1.
    rewrite (regex_match_span _ _ _ _ Hm') in H1. injection H1 as Hds Hpre.
    apply (inj reverse) in Hds, Hpre. split; [done|]. destruct Hx as [->|Hx]; [simpl; lia|].
    destruct (decide (length x ≤ length x')%nat) as [|Hlt]; [done|]. exfalso.
    apply last_Some in Hx as [x0 ->]. rewrite length_app in Hlt. simpl in Hlt.
    destruct Hm' as (_ & Hnl & _). apply Hnl.
    rewrite <- (assoc_L (++)) in Hpre.
    apply (f_equal (drop (length x'))) in Hpre. rewrite drop_app_length in Hpre.
    rewrite Hpre, drop_app_le by lia. set_solver.
  - intros x p ds Hm. pose proof (regex_match_span _ _ _ _ Hm) as Hsp.
    destruct Hm as (_ & _ & Hne & _). destruct (reverse_cons_nil _ Hne) as (d & ds' & Hr).
    unfold FindStringSubmatch in Hf. rewrite Hsp, Hr in Hf.
    by rewrite bool_decide_eq_true_2 in Hf.
Qed.

(** A string built as [name-digits] has exactly these submatches. *)
Lemma FindStringSubmatch_app p ds :
  newline ∉ chars p → ds ≠ [] → Forall (λ c, is_digit c = true) ds →
  FindStringSubmatch (p +:+ "-" +:+ of_chars ds) = Some (chars p, ds).
Proof.
  intros Hp Hne Hds.
  assert (regex_match (p +:+ "-" +:+ of_chars ds) [] (chars p) ds) as Hm.
  { split; [|done]. by rewrite !chars_app, chars_of_chars. }
  pose proof (FindStringSubmatch_leftmost (p +:+ "-" +:+ of_chars ds)) as Hl.
  destruct (FindStringSubmatch _) as [[p' ds']|]; [|by destruct (Hl _ _ _ Hm)].
  destruct Hl as (x & Hm' & Hmin). destruct (Hmin _ _ _ Hm) as [<- Hx].
  assert (x = []) as -> by (destruct x; [done|simpl in Hx; lia]).
  destruct Hm as (Hs & _), Hm' as (Hs' & _). rewrite Hs in Hs'. simpl in Hs'.
  apply (app_inv_tail (dash :: ds)) in Hs'. by rewrite Hs'.
Qed.
