(* ===== verification/GoSort.v ===== *)
(** * [sort.Stable] of the Go standard library

    A stable sort for a strict weak order is determined by its specification; it
    is modelled by insertion from left to right. *)
From S2P Require Export Prelude.

Section sort.
Context {A : Type} (less : A → A → bool).

Fixpoint sort_insert (x : A) (l : list A) : list A :=
  match l with
  | [] => [x]
  | y :: l' => if less x y then x :: l else y :: sort_insert x l'
  end.

Definition sort_Stable (l : list A) : list A := foldl (λ acc x, sort_insert x acc) [] l.

Lemma sort_Stable_snoc l x : sort_Stable (l ++ [x]) = sort_insert x (sort_Stable l).
Proof. unfold sort_Stable. by rewrite foldl_app. Qed.

Lemma sort_insert_perm x l : sort_insert x l ≡ₚ x :: l.
Proof.
  induction l as [|y l IH]; simpl; [done|]. destruct (less x y); [done|].
  rewrite IH. apply Permutation_swap.
Qed.

Lemma sort_Stable_perm l : sort_Stable l ≡ₚ l.
Proof.
  induction l as [|x l IH] using rev_ind; [done|].
  rewrite sort_Stable_snoc, sort_insert_perm, IH. by rewrite (comm (++)).
Qed.

(** [y] may stand after [x]. *)
Definition not_after (x y : A) : Prop := less y x = false.

(** [less] is a strict weak order: [not_after] is a total preorder. *)
Class WeakOrder : Prop := {
  less_asym x y : less x y = true → less y x = false;
  not_after_trans x y z : not_after x y → not_after y z → not_after x z }.

Context `{!WeakOrder}.

Lemma sort_insert_sorted x l :
  StronglySorted not_after l → StronglySorted not_after (sort_insert x l).
Proof.
  induction 1 as [|y l Hl IH Hy]; simpl; [by repeat constructor|].
  destruct (less x y) eqn:Hxy.
  - constructor; [by constructor|]. constructor; [by apply less_asym|].
    eapply List.Forall_impl; [|exact Hy]. intros z Hz. eapply not_after_trans; [|exact Hz].
    by apply less_asym.
  - constructor; [done|]. apply List.Forall_forall. intros z Hz.
    apply (Permutation_in _ (sort_insert_perm x l)) in Hz as [->|Hz]; [done|].
    rewrite List.Forall_forall in Hy. by apply Hy.
Qed.

Lemma sort_Stable_sorted l : StronglySorted not_after (sort_Stable l).
Proof.
  induction l as [|x l IH] using rev_ind; [constructor|].
  rewrite sort_Stable_snoc. by apply sort_insert_sorted.
Qed.

(** Elements that compare equal keep their relative order. *)
Definition same (x y : A) : bool := negb (less x y) && negb (less y x).

Lemma less_same_l x y z : same x y = true → less y z = less x z.
Proof.
  unfold same. intros [Hxy Hyx]%andb_true_iff. apply negb_true_iff in Hxy, Hyx.
  apply bool_ext. rewrite <- !not_false_iff_true. split; intros Hn Hc; apply Hn.
  - exact (not_after_trans z x y Hc Hyx).
  - exact (not_after_trans z y x Hc Hxy).
Qed.

Lemma sort_insert_stable z x l :
  StronglySorted not_after l →
  List.filter (same z) (sort_insert x l) = List.filter (same z) l ++ List.filter (same z) [x].
Proof.
  induction 1 as [|y l Hl IH Hy]; simpl; [done|].
  destruct (less x y) eqn:Hxy; simpl.
  - destruct (same z x) eqn:Hzx; [|by rewrite app_nil_r].
    assert (∀ w, w ∈ y :: l → same z w = false) as Hno.
    { intros w Hw. apply andb_false_iff. left. apply negb_false_iff.
      rewrite <- (less_same_l _ _ _ Hzx). apply elem_of_cons in Hw as [->|Hw]; [done|].
      rewrite List.Forall_forall in Hy. apply list_elem_of_In, Hy in Hw.
      destruct (less x w) eqn:Hxw; [done|]. exfalso.
      assert (less x y = false) by exact (not_after_trans y w x Hw Hxw). congruence. }
    rewrite (Hno y) by set_solver.
    assert (List.filter (same z) l = []) as ->; [|done].
    destruct (List.filter (same z) l) as [|w f] eqn:Hf; [done|].
    assert (List.In w (List.filter (same z) l)) as [Hw Hs]%filter_In by (rewrite Hf; by left).
    rewrite Hno in Hs; [done|]. apply elem_of_cons. right. by apply list_elem_of_In.
  - rewrite IH. simpl. by destruct (same z y).
Qed.

Lemma sort_Stable_stable z l : List.filter (same z) (sort_Stable l) = List.filter (same z) l.
Proof.
  induction l as [|x l IH] using rev_ind; [done|].
  rewrite sort_Stable_snoc, sort_insert_stable by apply sort_Stable_sorted.
  by rewrite IH, List.filter_app.
Qed.
End sort.

(** Sorting a sorted list changes nothing. *)
Lemma sort_Stable_id {A} (less : A → A → bool) `{!WeakOrder less} l :
  StronglySorted (not_after less) l → sort_Stable less l = l.
Proof.
  induction l as [|x l IH] using rev_ind; intros Hs; [done|].
  rewrite sort_Stable_snoc. apply StronglySorted_app in Hs as (Hx & Hl & _).
  rewrite IH by done. clear IH Hl.
  assert (∀ y, y ∈ l → less x y = false) as Hall.
  { intros y Hy. apply Hx; [done|set_solver]. }
  clear Hx. induction l as [|y l IH]; simpl; [done|].
  rewrite Hall by set_solver. f_equal. apply IH. intros; apply Hall. set_solver.
Qed.
