(* ===== verification/Types.v ===== *)
(** * API objects

    The records of [api/apps/v1/types.go] and the Kubernetes API objects the
    controller reads and writes.  A Go pointer that may be nil is an [option], a
    Go map that may be nil an [option (gmap string string)], a string-typed enum
    a [string].  A field that no modelled function reads or writes is omitted;
    a deep copy is the identity on these values ([DeepCopy] has the copies themselves,
    with their pointers). *)
From S2P Require Import Prelude.

(** [metav1.Time]: nanoseconds since the zero instant of [time.Time]. *)
Abbreviation Time := Z (only parsing).
Definition IsZero (t : Time) : bool := t =? 0.

(** Maps that may be nil: reading a nil map yields the zero value. *)
Abbreviation labels := (option (gmap string string)) (only parsing).
Definition map_get (m : labels) (k : string) : string := default "" (default ∅ m !! k).
Definition map_set (m : labels) (k v : string) : labels := Some (<[k := v]> (default ∅ m)).

Lemma map_get_set_eq m k v : map_get (map_set m k v) k = v.
Proof. unfold map_get, map_set. simpl. by rewrite lookup_insert_eq. Qed.

Lemma map_get_set_ne m k k' v : k ≠ k' → map_get (map_set m k v) k' = map_get m k'.
Proof. intros. unfold map_get, map_set. simpl. by rewrite lookup_insert_ne. Qed.

Record GroupVersionKind := { gvk_Group : string; gvk_Version : string; gvk_Kind : string }.

Record OwnerReference := {
  or_APIVersion : string;
  or_Kind : string;
  or_Name : string;
  or_UID : string;
  or_Controller : option bool;
  or_BlockOwnerDeletion : option bool }.
#[export] Instance OwnerReference_eq_dec : EqDecision OwnerReference.
Proof. solve_decision. Defined.

Record ObjectMeta := {
  Name : string;
  GenerateName : string;
  Namespace : string;
  UID : string;
  ResourceVersion : string;
  Generation : Z;
  CreationTimestamp : Time;
  DeletionTimestamp : option Time;
  Labels : labels;
  Annotations : labels;
  OwnerReferences : list OwnerReference;
  Finalizers : list string }.
#[export] Instance ObjectMeta_eq_dec : EqDecision ObjectMeta.
Proof. solve_decision. Defined.

Definition zero_meta : ObjectMeta :=
  {| Name := ""; GenerateName := ""; Namespace := ""; UID := ""; ResourceVersion := "";
     Generation := 0; CreationTimestamp := 0; DeletionTimestamp := None; Labels := None;
     Annotations := None; OwnerReferences := []; Finalizers := [] |}.

Definition with_Name (n : string) (m : ObjectMeta) : ObjectMeta :=
  {| Name := n; GenerateName := GenerateName m; Namespace := Namespace m; UID := UID m;
     ResourceVersion := ResourceVersion m; Generation := Generation m;
     CreationTimestamp := CreationTimestamp m; DeletionTimestamp := DeletionTimestamp m;
     Labels := Labels m; Annotations := Annotations m;
     OwnerReferences := OwnerReferences m; Finalizers := Finalizers m |}.
Definition with_Namespace (n : string) (m : ObjectMeta) : ObjectMeta :=
  {| Name := Name m; GenerateName := GenerateName m; Namespace := n; UID := UID m;
     ResourceVersion := ResourceVersion m; Generation := Generation m;
     CreationTimestamp := CreationTimestamp m; DeletionTimestamp := DeletionTimestamp m;
     Labels := Labels m; Annotations := Annotations m;
     OwnerReferences := OwnerReferences m; Finalizers := Finalizers m |}.
Definition with_Labels (l : labels) (m : ObjectMeta) : ObjectMeta :=
  {| Name := Name m; GenerateName := GenerateName m; Namespace := Namespace m; UID := UID m;
     ResourceVersion := ResourceVersion m; Generation := Generation m;
     CreationTimestamp := CreationTimestamp m; DeletionTimestamp := DeletionTimestamp m;
     Labels := l; Annotations := Annotations m;
     OwnerReferences := OwnerReferences m; Finalizers := Finalizers m |}.
Definition with_Annotations (a : labels) (m : ObjectMeta) : ObjectMeta :=
  {| Name := Name m; GenerateName := GenerateName m; Namespace := Namespace m; UID := UID m;
     ResourceVersion := ResourceVersion m; Generation := Generation m;
     CreationTimestamp := CreationTimestamp m; DeletionTimestamp := DeletionTimestamp m;
     Labels := Labels m; Annotations := a;
     OwnerReferences := OwnerReferences m; Finalizers := Finalizers m |}.
Definition with_OwnerReferences (r : list OwnerReference) (m : ObjectMeta) : ObjectMeta :=
  {| Name := Name m; GenerateName := GenerateName m; Namespace := Namespace m; UID := UID m;
     ResourceVersion := ResourceVersion m; Generation := Generation m;
     CreationTimestamp := CreationTimestamp m; DeletionTimestamp := DeletionTimestamp m;
     Labels := Labels m; Annotations := Annotations m;
     OwnerReferences := r; Finalizers := Finalizers m |}.

Definition with_ResourceVersion (v : string) (m : ObjectMeta) : ObjectMeta :=
  {| Name := Name m; GenerateName := GenerateName m; Namespace := Namespace m; UID := UID m;
     ResourceVersion := v; Generation := Generation m;
     CreationTimestamp := CreationTimestamp m; DeletionTimestamp := DeletionTimestamp m;
     Labels := Labels m; Annotations := Annotations m;
     OwnerReferences := OwnerReferences m; Finalizers := Finalizers m |}.

(** [metav1.Object]: what every API object offers. *)
Class Object (A : Type) := {
  meta : A → ObjectMeta;
  with_meta : (ObjectMeta → ObjectMeta) → A → A;
  meta_with : ∀ f x, meta (with_meta f x) = f (meta x) }.

(** ** Pods *)

Record PodCondition := {
  cond_Type : string;
  cond_Status : string;
  cond_LastProbeTime : Time;
  cond_LastTransitionTime : Time;
  cond_Reason : string;
  cond_Message : string }.
#[export] Instance PodCondition_eq_dec : EqDecision PodCondition.
Proof. solve_decision. Defined.

Record ContainerStatus := { cs_Name : string; cs_RestartCount : Z }.
#[export] Instance ContainerStatus_eq_dec : EqDecision ContainerStatus.
Proof. solve_decision. Defined.

Record PodStatus := {
  Phase : string;
  pod_Conditions : list PodCondition;
  ContainerStatuses : list ContainerStatus;
  InitContainerStatuses : list ContainerStatus }.
#[export] Instance PodStatus_eq_dec : EqDecision PodStatus.
Proof. solve_decision. Defined.

Record ContainerPort := { port_Name : string; port_Number : Z; Protocol : string }.
#[export] Instance ContainerPort_eq_dec : EqDecision ContainerPort.
Proof. solve_decision. Defined.
Record FileKeySelector := { fk_Key : string; fk_Optional : option bool }.
#[export] Instance FileKeySelector_eq_dec : EqDecision FileKeySelector.
Proof. solve_decision. Defined.
Record EnvVarSource := { FileKeyRef : option FileKeySelector; evs_Other : string (** other sources *) }.
#[export] Instance EnvVarSource_eq_dec : EqDecision EnvVarSource.
Proof. solve_decision. Defined.
Record EnvVar := { env_Name : string; env_Value : string; ValueFrom : option EnvVarSource }.
#[export] Instance EnvVar_eq_dec : EqDecision EnvVar.
Proof. solve_decision. Defined.
Record GRPCAction := { grpc_Port : Z; grpc_Service : option string }.
#[export] Instance GRPCAction_eq_dec : EqDecision GRPCAction.
Proof. solve_decision. Defined.
Record Probe := { probe_GRPC : option GRPCAction; probe_Other : string (** other handlers, timings *) }.
#[export] Instance Probe_eq_dec : EqDecision Probe.
Proof. solve_decision. Defined.

(** A container, an init container or the common part of an ephemeral container. *)
Record Container := {
  c_Name : string;
  c_RestartPolicy : option string;
  c_RestartPolicyRules : list string (** the actions of the rules *);
  c_Ports : list ContainerPort;
  c_Env : list EnvVar;
  LivenessProbe : option Probe;
  ReadinessProbe : option Probe;
  StartupProbe : option Probe }.
#[export] Instance Container_eq_dec : EqDecision Container.
Proof. solve_decision. Defined.

Record PersistentVolumeClaimVolumeSource := { ClaimName : string; ReadOnly : bool }.
#[export] Instance PVCVolumeSource_eq_dec : EqDecision PersistentVolumeClaimVolumeSource.
Proof. solve_decision. Defined.

Record ISCSIVolumeSource := { ISCSIInterface : string; iscsi_Other : string }.
#[export] Instance ISCSIVolumeSource_eq_dec : EqDecision ISCSIVolumeSource.
Proof. solve_decision. Defined.
Record RBDVolumeSource := {
  RBDPool : string; RadosUser : string; Keyring : string; rbd_Other : string }.
#[export] Instance RBDVolumeSource_eq_dec : EqDecision RBDVolumeSource.
Proof. solve_decision. Defined.
Record AzureDiskVolumeSource := {
  CachingMode : option string; ad_FSType : option string; ad_ReadOnly : option bool;
  ad_Kind : option string; ad_Other : string }.
#[export] Instance AzureDiskVolumeSource_eq_dec : EqDecision AzureDiskVolumeSource.
Proof. solve_decision. Defined.
Record ScaleIOVolumeSource := { StorageMode : string; sio_FSType : string; sio_Other : string }.
#[export] Instance ScaleIOVolumeSource_eq_dec : EqDecision ScaleIOVolumeSource.
Proof. solve_decision. Defined.

Record Volume := {
  vol_Name : string;
  vol_PersistentVolumeClaim : option PersistentVolumeClaimVolumeSource;
  vol_ISCSI : option ISCSIVolumeSource;
  vol_RBD : option RBDVolumeSource;
  vol_AzureDisk : option AzureDiskVolumeSource;
  vol_ScaleIO : option ScaleIOVolumeSource;
  vol_Other : string (** the other volume sources *) }.
#[export] Instance Volume_eq_dec : EqDecision Volume.
Proof. solve_decision. Defined.

Record PodSpec := {
  Volumes : list Volume;
  Hostname : string;
  Subdomain : string;
  NodeName : string;
  pod_RestartPolicy : string;
  InitContainers : list Container;
  Containers : list Container;
  EphemeralContainers : list Container }.
#[export] Instance PodSpec_eq_dec : EqDecision PodSpec.
Proof. solve_decision. Defined.

Record Pod := { pod_meta : ObjectMeta; pod_Spec : PodSpec; pod_Status : PodStatus }.
#[export] Instance Pod_eq_dec : EqDecision Pod.
Proof. solve_decision. Defined.

Definition zero_PodStatus : PodStatus :=
  {| Phase := ""; pod_Conditions := []; ContainerStatuses := []; InitContainerStatuses := [] |}.

Definition set_pod_meta (f : ObjectMeta → ObjectMeta) (p : Pod) : Pod :=
  {| pod_meta := f (pod_meta p); pod_Spec := pod_Spec p; pod_Status := pod_Status p |}.
Definition set_Volumes (v : list Volume) (s : PodSpec) : PodSpec :=
  {| Volumes := v; Hostname := Hostname s; Subdomain := Subdomain s; NodeName := NodeName s;
     pod_RestartPolicy := pod_RestartPolicy s; InitContainers := InitContainers s;
     Containers := Containers s; EphemeralContainers := EphemeralContainers s |}.
Definition set_Hostname_Subdomain (h d : string) (s : PodSpec) : PodSpec :=
  {| Volumes := Volumes s; Hostname := h; Subdomain := d; NodeName := NodeName s;
     pod_RestartPolicy := pod_RestartPolicy s; InitContainers := InitContainers s;
     Containers := Containers s; EphemeralContainers := EphemeralContainers s |}.
Definition set_pod_Spec (f : PodSpec → PodSpec) (p : Pod) : Pod :=
  {| pod_meta := pod_meta p; pod_Spec := f (pod_Spec p); pod_Status := pod_Status p |}.

#[export] Instance Pod_Object : Object Pod :=
  {| meta := pod_meta; with_meta := set_pod_meta; meta_with _ _ := eq_refl |}.

(** ** Claims *)

Record PersistentVolumeClaim := {
  pvc_meta : ObjectMeta;
  pvc_Spec : string (** the specification, never inspected *) }.
#[export] Instance PersistentVolumeClaim_eq_dec : EqDecision PersistentVolumeClaim.
Proof. solve_decision. Defined.
#[export] Instance PVC_Object : Object PersistentVolumeClaim :=
  {| meta := pvc_meta;
     with_meta f c := {| pvc_meta := f (pvc_meta c); pvc_Spec := pvc_Spec c |};
     meta_with _ _ := eq_refl |}.

Record PersistentVolumeClaimRetentionPolicy := { WhenDeleted : string; WhenScaled : string }.
#[export] Instance RetentionPolicy_eq_dec : EqDecision PersistentVolumeClaimRetentionPolicy.
Proof. solve_decision. Defined.

(** ** Controller revisions *)

Record RawExtension (object : Type) := {
  Raw : string (** bytes *);
  RObject : option object }.
Arguments Raw {object}. Arguments RObject {object}. Arguments Build_RawExtension {object}.

Record ControllerRevision (object : Type) := {
  cr_meta : ObjectMeta;
  Data : RawExtension object;
  Revision : Z (** int64 *) }.
Arguments cr_meta {object}. Arguments Data {object}. Arguments Revision {object}.
Arguments Build_ControllerRevision {object}.
Definition set_cr_meta {O} (f : ObjectMeta → ObjectMeta) (r : ControllerRevision O) : ControllerRevision O :=
  {| cr_meta := f (cr_meta r); Data := Data r; Revision := Revision r |}.
Definition set_Revision {O} (n : Z) (r : ControllerRevision O) : ControllerRevision O :=
  {| cr_meta := cr_meta r; Data := Data r; Revision := n |}.
#[export] Instance CR_Object O : Object (ControllerRevision O) :=
  {| meta := cr_meta; with_meta := set_cr_meta; meta_with _ _ := eq_refl |}.

(** [apps.ReplicaSet], for the helpers shared with other controllers. *)
Record ReplicaSet := { rs_meta : ObjectMeta; rs_Replicas : option Z (** *int32 *) }.
#[export] Instance ReplicaSet_Object : Object ReplicaSet :=
  {| meta := rs_meta;
     with_meta f r := {| rs_meta := f (rs_meta r); rs_Replicas := rs_Replicas r |};
     meta_with _ _ := eq_refl |}.

(** ** XStatefulSet *)

Record LabelSelectorRequirement := { req_Key : string; req_Operator : string; req_Values : list string }.
#[export] Instance LabelSelectorRequirement_eq_dec : EqDecision LabelSelectorRequirement.
Proof. solve_decision. Defined.
Record LabelSelector := {
  MatchLabels : labels;
  MatchExpressions : list LabelSelectorRequirement }.
#[export] Instance LabelSelector_eq_dec : EqDecision LabelSelector.
Proof. solve_decision. Defined.

Inductive IntOrString := IntVal (n : Z) | StrVal (s : string).
#[export] Instance IntOrString_eq_dec : EqDecision IntOrString.
Proof. solve_decision. Defined.

Record RollingUpdateStatefulSetStrategy := {
  Partition : option Z (** *int32 *);
  MaxUnavailable : option IntOrString }.
#[export] Instance RollingUpdate_eq_dec : EqDecision RollingUpdateStatefulSetStrategy.
Proof. solve_decision. Defined.
Record StatefulSetUpdateStrategy := {
  us_Type : string;
  RollingUpdate : option RollingUpdateStatefulSetStrategy }.
#[export] Instance UpdateStrategy_eq_dec : EqDecision StatefulSetUpdateStrategy.
Proof. solve_decision. Defined.

Record PodTemplateSpec := { tmpl_meta : ObjectMeta; tmpl_Spec : PodSpec }.
#[export] Instance PodTemplateSpec_eq_dec : EqDecision PodTemplateSpec.
Proof. solve_decision. Defined.

Record StatefulSetOrdinals := { Start : Z (** int32 *) }.
#[export] Instance StatefulSetOrdinals_eq_dec : EqDecision StatefulSetOrdinals.
Proof. solve_decision. Defined.

Record XStatefulSetSpec := {
  Replicas : option Z (** *int32 *);
  Selector : option LabelSelector;
  Template : PodTemplateSpec;
  VolumeClaimTemplates : list PersistentVolumeClaim;
  ServiceName : string;
  PodManagementPolicy : string;
  UpdateStrategy : StatefulSetUpdateStrategy;
  RevisionHistoryLimit : option Z (** *int32 *);
  MinReadySeconds : Z (** int32 *);
  RetentionPolicy : option PersistentVolumeClaimRetentionPolicy;
  Ordinals : option StatefulSetOrdinals }.
#[export] Instance XStatefulSetSpec_eq_dec : EqDecision XStatefulSetSpec.
Proof. solve_decision. Defined.

Record StatefulSetCondition := {
  sc_Type : string; sc_Status : string; sc_LastTransitionTime : Time;
  sc_Reason : string; sc_Message : string }.
#[export] Instance StatefulSetCondition_eq_dec : EqDecision StatefulSetCondition.
Proof. solve_decision. Defined.

Record XStatefulSetStatus := {
  ObservedGeneration : Z (** int64 *);
  st_Replicas : Z (** int32, as are the other counters *);
  ReadyReplicas : Z;
  CurrentReplicas : Z;
  UpdatedReplicas : Z;
  CurrentRevision : string;
  UpdateRevision : string;
  CollisionCount : option Z (** *int32 *);
  st_Conditions : list StatefulSetCondition;
  AvailableReplicas : Z;
  st_Selector : string }.
#[export] Instance XStatefulSetStatus_eq_dec : EqDecision XStatefulSetStatus.
Proof. solve_decision. Defined.

Definition zero_Status : XStatefulSetStatus :=
  {| ObservedGeneration := 0; st_Replicas := 0; ReadyReplicas := 0; CurrentReplicas := 0;
     UpdatedReplicas := 0; CurrentRevision := ""; UpdateRevision := ""; CollisionCount := None;
     st_Conditions := []; AvailableReplicas := 0; st_Selector := "" |}.

Record XStatefulSet := {
  set_meta : ObjectMeta;
  Spec : XStatefulSetSpec;
  Status : XStatefulSetStatus }.
#[export] Instance XStatefulSet_eq_dec : EqDecision XStatefulSet.
Proof. solve_decision. Defined.
#[export] Instance XStatefulSet_Object : Object XStatefulSet :=
  {| meta := set_meta;
     with_meta f s := {| set_meta := f (set_meta s); Spec := Spec s; Status := Status s |};
     meta_with _ _ := eq_refl |}.

Definition set_Status (st : XStatefulSetStatus) (s : XStatefulSet) : XStatefulSet :=
  {| set_meta := set_meta s; Spec := Spec s; Status := st |}.
Definition set_Spec (f : XStatefulSetSpec → XStatefulSetSpec) (s : XStatefulSet) : XStatefulSet :=
  {| set_meta := set_meta s; Spec := f (Spec s); Status := Status s |}.

(** [GetName], [GetUID], ... of [metav1.Object]. *)
Definition GetName `{Object A} (x : A) : string := Name (meta x).
Definition GetNamespace `{Object A} (x : A) : string := Namespace (meta x).
Definition GetUID `{Object A} (x : A) : string := UID (meta x).
Definition GetOwnerReferences `{Object A} (x : A) : list OwnerReference := OwnerReferences (meta x).
Definition SetOwnerReferences `{Object A} (r : list OwnerReference) (x : A) : A :=
  with_meta (with_OwnerReferences r) x.

(** ** Constants *)

Definition PodPending : string := "Pending".
Definition PodRunning : string := "Running".
Definition PodSucceeded : string := "Succeeded".
Definition PodFailed : string := "Failed".
Definition PodUnknown : string := "Unknown".
Definition PodReady : string := "Ready".
Definition ContainersReady : string := "ContainersReady".
Definition ConditionTrue : string := "True".
Definition ContainerRestartPolicyAlways : string := "Always".
Definition ContainerRestartPolicyNever : string := "Never".
Definition ContainerRestartRuleActionRestart : string := "Restart".
Definition RestartPolicyNever : string := "Never".
Definition RetainPolicyType : string := "Retain".
Definition DeletePolicyType : string := "Delete".
Definition OrderedReadyPodManagement : string := "OrderedReady".
Definition ParallelPodManagement : string := "Parallel".
Definition RollingUpdateStrategyType : string := "RollingUpdate".
Definition OnDeleteStrategyType : string := "OnDelete".

Definition StatefulSetRevisionLabel : string := "controller-revision-hash".
Definition StatefulSetPodNameLabel : string := "xstatefulset.x-k8s.io/pod-name".
Definition PodIndexLabel : string := "apps.x-k8s.io/pod-index".

Definition controllerKind : GroupVersionKind :=
  {| gvk_Group := "apps.x-k8s.io"; gvk_Version := "v1"; gvk_Kind := "XStatefulSet" |}.
Definition podKind : GroupVersionKind :=
  {| gvk_Group := ""; gvk_Version := "v1"; gvk_Kind := "Pod" |}.
