(* ===== verification/Boundary.v ===== *)
(** * The boundary of the model

    Code the repository imports and does not contain is a parameter here: the
    functions of the Kubernetes libraries ([K8s]), the parts of the Go runtime
    that are free to choose an order ([GoRuntime]), and the answers of the API
    server, the caches and the clock ([call] and [reply]).  The documented
    behaviour a theorem relies on is a law of [K8sLaws] or [GoLaws], or a
    hypothesis of that theorem. *)
From S2P Require Export Prelude Prog Types.
#[export] Set Warnings "-register-all".

(** ** Errors *)

(** A Go [error]: one made by the API machinery, or one made by [fmt.Errorf]
    with the error it wraps ([%w]), if any. *)
Inductive goerror (A : Type) :=
| ErrApi (e : A)
| Errorf (msg : string) (wrapped : option (goerror A)).
Arguments ErrApi {A} e.
Arguments Errorf {A} msg wrapped.

(** ** JSON documents, as [encoding/json] decodes them into [interface{}] *)
Inductive json :=
| JNull
| JBool (b : bool)
| JNum (literal : string)
| JStr (s : string)
| JArr (l : list json)
| JObj (fields : list (string * json)).

(** ** Objects the informers deliver ([interface{}]) *)
Inductive event_object :=
| ObjPod (pod : Pod)                                  (** [*v1.Pod] *)
| ObjSet (set : XStatefulSet)                         (** [*xstsappv1.XStatefulSet] *)
| Tombstone (key : string) (obj : event_object)       (** [cache.DeletedFinalStateUnknown] *)
| ObjOther (type : string).

(** [cache.MetaNamespaceKeyFunc], as documented. *)
Definition meta_key (o : ObjectMeta) : string :=
  if bool_decide (Namespace o = "") then Name o else Namespace o +:+ "/" +:+ Name o.

(** No ["/"] in a name: names and namespaces of API objects are DNS labels or subdomains. *)
Definition slash_free (s : string) : Prop := "/"%char ∉ String.list_ascii_of_string s.

(** What an API server makes of the metadata of an object written to a namespace: it fills
    in the namespace; the UID, the resource version, the generation and the creation time
    are its own. *)
Definition populated (ns : string) (sent stored : ObjectMeta) : Prop :=
  Name stored = Name sent ∧ GenerateName stored = GenerateName sent ∧ Namespace stored = ns ∧
  DeletionTimestamp stored = DeletionTimestamp sent ∧ Labels stored = Labels sent ∧
  Annotations stored = Annotations sent ∧ OwnerReferences stored = OwnerReferences sent ∧
  Finalizers stored = Finalizers sent.

Lemma populated_refl m : populated (Namespace m) m m.
Proof. by split_and!. Qed.

(** ** Imported functions *)

Class K8s := {
  (** [k8s.io/apimachinery/pkg/api/errors] *)
  api_error : Type;
  IsNotFound : goerror api_error → bool;
  IsAlreadyExists : goerror api_error → bool;
  IsConflict : goerror api_error → bool;
  IsInvalid : goerror api_error → bool;
  Error : goerror api_error → string;
  (** [k8s.io/apimachinery/pkg/util/errors] *)
  NewAggregate : list (option (goerror api_error)) → option (goerror api_error);
  Aggregate_Errors : goerror api_error → option (list (goerror api_error));
  (** [metav1]: selectors and owner references *)
  selector : Type;
  LabelSelectorAsSelector : option LabelSelector → selector + goerror api_error;
  Matches : selector → labels → bool;
  SelectorEmpty : selector → bool;
  SelectorString : selector → string;
  GetControllerOf : list OwnerReference → option OwnerReference;
  IsControlledBy : list OwnerReference → ObjectMeta → bool;
  NewControllerRef : ObjectMeta → GroupVersionKind → OwnerReference;
  GroupVersionString : GroupVersionKind → string;
  OwnerReferenceString : OwnerReference → string;  (** the [%v] verb *)
  (** [cache.DeletionHandlingMetaNamespaceKeyFunc] and [cache.SplitMetaNamespaceKey] *)
  KeyFunc : event_object → string + goerror api_error;
  SplitMetaNamespaceKey : string → (string * string) + goerror api_error;
  (** [intstr.GetScaledValueFromIntOrPercent] *)
  GetScaledValueFromIntOrPercent : IntOrString → Z → bool → Z + goerror api_error;
  (** [apimachineryvalidation.NameIsDNSSubdomain]: the list of violations *)
  NameIsDNSSubdomain : string → bool → list string;
  (** [rand.SafeEncodeString], [dump.ForHash], [equality.Semantic.DeepEqual] *)
  SafeEncodeString : string → string;
  object : Type;
  ForHash : object → string;
  TemplateObject : PodTemplateSpec → object;  (** a template as an [interface{}] *)
  SemanticDeepEqual : option object → option object → bool;
  (** [cases.Title(language.English).String] *)
  TitleEnglish : string → string;
  (** feature gates *)
  FeatureEnabled : string → bool;
  (** codecs: [runtime.Encode(patchCodec, set)], [json.Unmarshal] into a map and
      into a set, [json.Marshal] and [strategicpatch.StrategicMergePatch] *)
  EncodeSet : XStatefulSet → string + goerror api_error;
  UnmarshalMap : string → list (string * json) + goerror api_error;
  UnmarshalSet : string → XStatefulSet + goerror api_error;
  Marshal : json → string + goerror api_error;
  StrategicMergePatch : string → string → string + goerror api_error
}.

Abbreviation error := (goerror api_error) (only parsing).
Abbreviation Rev := (ControllerRevision object) (only parsing).

(** Documented behaviour of the imported functions. *)
Class K8sLaws `{K8s} := {
  NewAggregate_None es : NewAggregate es = None ↔ Forall (λ o, o = None) es;
  GetControllerOf_Some refs r :
    GetControllerOf refs = Some r → r ∈ refs ∧ ptr_true (or_Controller r) = true;
  GetControllerOf_None refs :
    GetControllerOf refs = None ↔ Forall (λ r, ptr_true (or_Controller r) = false) refs;
  NewControllerRef_fields o k :
    NewControllerRef o k =
      {| or_APIVersion := GroupVersionString k; or_Kind := gvk_Kind k; or_Name := Name o;
         or_UID := UID o; or_Controller := Some true; or_BlockOwnerDeletion := Some true |};
  KeyFunc_set s : KeyFunc (ObjSet s) = inl (meta_key (set_meta s));
  SplitMetaNamespaceKey_key ns name :
    ns ≠ "" → slash_free ns → slash_free name →
    SplitMetaNamespaceKey (ns +:+ "/" +:+ name) = inl (ns, name);
  Aggregate_Errors_nonempty e : Aggregate_Errors e ≠ Some [];
  SemanticDeepEqual_refl o : SemanticDeepEqual o o = true
}.

(** ** Orders the Go runtime chooses *)

Class GoRuntime := {
  (** the order in which [range] visits a map *)
  map_range : ∀ {V}, gmap string V → list (string * V);
  (** [sort.Sort], which is not stable *)
  sort_Sort : ∀ {A}, (A → A → bool) → list A → list A
}.

Class GoLaws `{GoRuntime} := {
  map_range_perm {V} (m : gmap string V) : map_range m ≡ₚ map_to_list m;
  sort_Sort_perm {A} (less : A → A → bool) l : sort_Sort less l ≡ₚ l;
  sort_Sort_sorted {A} (less : A → A → bool) l :
    (∀ x y z, less x y = false → less y z = false → less x z = false) →
    (∀ x y, less x y = true → less y x = false) →
    StronglySorted (λ x y, less y x = false) (sort_Sort less l)
}.

(** ** Calls to the environment *)

Section calls.
Context `{K8s}.

(** Patches sent to the API server, before [json.Marshal]
    ([objectForAddOwnerRefPatch], [objectForDeleteOwnerRefStrategicMergePatch]). *)
Inductive patch :=
| AddOwnerRefPatch (uid : string) (ownerReferences : list OwnerReference) (finalizers : list string)
| DeleteOwnerRefPatch (uid : string) (ownerReferences : list (gmap string string)) (finalizers : list string).

Inductive api_call :=
| Now                                                  (** [metav1.Now()] *)
| PodsCreate (ns : string) (pod : Pod)
| PodsUpdate (ns : string) (pod : Pod)
| PodsDelete (ns name : string)
| PodsPatch (ns name : string) (p : patch)
| PodListerGet (ns name : string)
| PodIndexerByIndex (key : string)                     (** index [podController] *)
| ClaimsCreate (ns : string) (claim : PersistentVolumeClaim)
| ClaimsUpdate (ns : string) (claim : PersistentVolumeClaim)
| ClaimListerGet (ns name : string)
| RevisionsCreate (ns : string) (r : Rev)
| RevisionsGet (ns name : string)
| RevisionsUpdate (ns : string) (r : Rev)
| RevisionsDelete (ns name : string)
| RevisionsPatch (ns name : string) (p : patch)
| ReplicaSetsPatch (ns name : string) (p : patch)
| RevisionListerList (ns : string) (sel : selector)
| RevisionListerGet (ns name : string)
| RevisionIndexerGetByKey (key : string)               (** the indexer of [fakeHistory] *)
| RevisionIndexerUpdate (r : Rev)
| RevisionIndexerDelete (r : Rev)
| SetsUpdateStatus (ns : string) (set : XStatefulSet)
| SetsGet (ns name : string)
| SetListerGet (ns name : string)
| SetListerList (ns : string)
| RecordEvent (obj : ObjectMeta) (eventtype reason message : string)
| LruGet (key : string * Z * string)
| LruAdd (key : string * Z * string)
| MetricSet (metric : string) (lbls : list string) (value : Z)
| QueueGet
| QueueAdd (key : string)
| QueueAddAfter (key : string) (nanoseconds : Z)
| QueueAddRateLimited (key : string)
| QueueForget (key : string)
| QueueDone (key : string)
| Choose.                                              (** the goroutine scheduler *)

Definition reply (c : api_call) : Type :=
  match c with
  | Now => Time
  | PodsCreate _ _ | PodsUpdate _ _ | PodsDelete _ _ | PodsPatch _ _ _ => option error
  | PodListerGet _ _ => Pod + error
  | PodIndexerByIndex _ => list Pod + error
  | ClaimsCreate _ _ | ClaimsUpdate _ _ => option error
  | ClaimListerGet _ _ => PersistentVolumeClaim + error
  | RevisionsCreate _ _ | RevisionsGet _ _ | RevisionListerGet _ _ => Rev + error
  | RevisionsPatch _ _ _ => Rev + error
  | RevisionsUpdate _ _ => option Rev * option error
  | RevisionsDelete _ _ | ReplicaSetsPatch _ _ _ => option error
  | RevisionListerList _ _ => list Rev + error
  | RevisionIndexerGetByKey _ => option Rev + error
  | RevisionIndexerUpdate _ | RevisionIndexerDelete _ => option error
  | SetsUpdateStatus _ _ => option error
  | SetsGet _ _ | SetListerGet _ _ => XStatefulSet + error
  | SetListerList _ => list XStatefulSet + error
  | LruGet _ => bool
  | QueueGet => option string
  | Choose => bool
  | RecordEvent _ _ _ _ | LruAdd _ | MetricSet _ _ _ | QueueAdd _ | QueueAddAfter _ _
  | QueueAddRateLimited _ | QueueForget _ | QueueDone _ => unit
  end%type.

(** A modelled Go function that calls the environment. *)
Abbreviation go := (prog reply).

(** *** Goroutines

    [par2 p q] runs [p] and [q] concurrently: before each call the scheduler
    chooses which of the two proceeds.  The results are listed in the order in
    which the two finish, as a channel would deliver them.  A panic of one
    goroutine ends the process. *)
Fixpoint par2 {A} (p : go (list A)) : go (list A) → go (list A) :=
  fix par2_p (q : go (list A)) : go (list A) :=
    match p, q with
    | Panic, _ => Panic
    | _, Panic => Panic
    | Ret l1, _ => (λ l2, l1 ++ l2) <$> q
    | _, Ret l2 => (λ l1, l2 ++ l1) <$> p
    | Vis e k, Vis e' k' =>
        Vis Choose (λ b : bool,
          if b then Vis e (λ r, par2 (k r) q) else Vis e' (λ r, par2_p (k' r)))
    end.

(** [go p] for each program of the list, and the wait for all of them. *)
Fixpoint par {A} (ps : list (go A)) : go (list A) :=
  match ps with
  | [] => Ret []
  | p :: ps => par2 ((λ a, [a]) <$> p) (par ps)
  end.
End calls.

Abbreviation go := (prog reply).

(** *** Concurrent composition

    Each goroutine keeps what it promises, provided the promise survives the
    calls of the others; the results come in some order. *)
Section par.
Context `{K8s} (Adm : obs reply → Prop) (P : api_call → Prop) (HChoose : P Choose).

Definition returns {A} (Φ : list (obs reply) → A → Prop) (tr : list (obs reply)) (o : option A) : Prop :=
  ∃ a, o = Some a ∧ Φ tr a.

Lemma returns_stable {A} (Φ : list (obs reply) → A → Prop) : stable Φ → stable (returns Φ).
Proof. intros Hst tr tr' o Hsub (a & -> & HΦ). exists a. eauto. Qed.

Definition joined {A} (Φ Ψ : list (obs reply) → list A → Prop) (tr : list (obs reply)) (l : list A) : Prop :=
  ∃ l1 l2, Φ tr l1 ∧ Ψ tr l2 ∧ l ≡ₚ l1 ++ l2.

Lemma wp_par2 {A} (p q : go (list A)) (Φ Ψ : list (obs reply) → list A → Prop) tr :
  stable Φ → stable Ψ →
  wp Adm (λ _, P) p (returns Φ) tr → wp Adm (λ _, P) q (returns Ψ) tr →
  wp Adm (λ _, P) (par2 p q) (returns (joined Φ Ψ)) tr.
Proof.
  intros HΦ HΨ. revert q tr. induction p as [l1| |e k IHp]; intros q tr Hp Hq.
  - destruct Hp as (? & [= <-] & Hl1). assert (
      wp Adm (λ _, P) ((λ l2, l1 ++ l2) <$> q) (returns (joined Φ Ψ)) tr); [|by destruct q].
    apply wp_fmap. 
    assert (stable (λ tr o, returns Ψ tr o ∧ Φ tr l1)) as Hst.
    { intros t t' o Hs [? ?]. split; [by eapply (returns_stable Ψ)|by eapply HΦ]. }
    assert (wp Adm (λ _, P) q (λ tr o, returns Ψ tr o ∧ Φ tr l1) tr) as Hq'.
    { eapply wp_mono; [|by apply wp_trace]. intros tr' o [Ho (new & -> & _)]. split; [done|].
      eapply HΦ; [|done]. by apply sublist_inserts_r. }
    eapply wp_mono; [|exact Hq']. intros tr' o [(l2 & -> & Hl2) Hl1']. exists (l1 ++ l2).
    split; [done|]. by exists l1, l2.
  - by destruct Hp as (? & ? & ?).
  - revert tr Hp Hq. induction q as [l2| |e' k' IHq]; intros tr Hp Hq.
    + destruct Hq as (? & [= <-] & Hl2). simpl. apply (wp_fmap _ _ (Vis e k)).
      eapply wp_mono; [|by apply wp_trace].
      intros tr' o [(l1 & -> & Hl1) (new & -> & _)]. exists (l2 ++ l1). split; [done|].
      exists l1, l2. split_and!; [done| |by rewrite (comm (++))].
      eapply HΨ; [|done]. by apply sublist_inserts_r.
    + by destruct Hq as (? & ? & ?).
    + split; [done|]. intros b _.
      assert (wp Adm (λ _, P) (Vis e k) (returns Φ) (tr ++ [existT Choose b])) as [He Hk].
      { eapply wp_extend; [by apply returns_stable|by apply sublist_inserts_r|done]. }
      assert (wp Adm (λ _, P) (Vis e' k') (returns Ψ) (tr ++ [existT Choose b])) as [He' Hk'].
      { eapply wp_extend; [by apply returns_stable|by apply sublist_inserts_r|done]. }
      destruct b; (split; [done|]); intros r Hr.
      * apply IHp; [by apply Hk|]. eapply wp_extend; [by apply returns_stable| |done].
        rewrite <- (assoc_L (++)). by apply sublist_inserts_r.
      * apply (IHq r); [|by apply Hk']. eapply wp_extend; [by apply returns_stable| |done].
        rewrite <- (assoc_L (++)). by apply sublist_inserts_r.
Qed.

(** All programs of a list: every one ran to its end. *)
Lemma wp_par {A I} (Φ : I → list (obs reply) → A → Prop) (f : I → go A) (js : list I) tr :
  (∀ j, j ∈ js → stable (Φ j)) →
  (∀ j tr, j ∈ js → wp Adm (λ _, P) (f j) (returns (Φ j)) tr) →
  wp Adm (λ _, P) (par (f <$> js))
    (returns (λ tr' l, ∃ rs, l ≡ₚ rs ∧ Forall2 (λ j a, Φ j tr' a) js rs)) tr.
Proof.
  revert tr. induction js as [|j js IH]; intros tr Hst Hf; simpl.
  { exists []. split; [done|]. by exists []. }
  eapply wp_mono; [|apply (wp_par2 _ _ (λ tr l, ∃ a, l = [a] ∧ Φ j tr a)
    (λ tr' l, ∃ rs, l ≡ₚ rs ∧ Forall2 (λ j a, Φ j tr' a) js rs))].
  - intros tr' o (l & -> & l1 & l2 & (a & -> & Ha) & (rs & Hl2 & Hrs) & Hl).
    exists l. split; [done|]. exists (a :: rs). split; [by rewrite Hl, Hl2|]. by constructor.
  - intros t t' l Hs (a & -> & Ha). exists a. split; [done|].
    eapply Hst; [by left|done|done].
  - intros t t' l Hs (rs & Hl & Hrs). exists rs. split; [done|].
    assert (∀ j, j ∈ js → stable (Φ j)) as Hst' by (intros; apply Hst; by right).
    clear -Hs Hrs Hst'. induction Hrs as [|i a js rs Ha Hrs IH]; constructor.
    + eapply Hst'; [by left|done|done].
    + apply IH. intros; apply Hst'. by right.
  - apply wp_fmap. eapply wp_mono; [|by apply Hf; left].
    intros tr' o (a & -> & Ha). exists [a]. split; [done|]. by exists a.
  - apply IH; intros; [apply Hst|apply Hf]; by right.
Qed.

(** *** Concurrent composition, exactly

    The calls of goroutines that ran together are those of an execution of each,
    in some order, and the choices of the scheduler. *)
Definition merges (new n1 n2 : list (obs reply)) : Prop :=
  ∃ cs, Forall (λ x, projT1 x = Choose) cs ∧ new ≡ₚ n1 ++ n2 ++ cs.

Lemma wp_par2_split {A} (p q : go (list A)) (Φ Ψ : list (obs reply) → list A → Prop) t1 t2 tr :
  wp Adm (λ _, P) p (returns Φ) t1 → wp Adm (λ _, P) q (returns Ψ) t2 →
  wp Adm (λ _, P) (par2 p q) (returns (λ tr' l, ∃ new n1 n2 l1 l2,
    tr' = tr ++ new ∧ merges new n1 n2 ∧ Φ (t1 ++ n1) l1 ∧ Ψ (t2 ++ n2) l2 ∧ l ≡ₚ l1 ++ l2)) tr.
Proof.
  revert q t1 t2 tr. induction p as [l1| |e k IHp]; intros q t1 t2 tr Hp Hq.
  - destruct Hp as (? & [= <-] & Hl1).
    assert (wp Adm (λ _, P) ((λ l2, l1 ++ l2) <$> q) (returns (λ tr' l, ∃ new n1 n2 l1 l2,
      tr' = tr ++ new ∧ merges new n1 n2 ∧ Φ (t1 ++ n1) l1 ∧ Ψ (t2 ++ n2) l2 ∧ l ≡ₚ l1 ++ l2)) tr); [|by destruct q].
    apply wp_fmap. eapply wp_mono; [|by apply (wp_relocate _ _ _ (returns Ψ) t2)].
    intros tr' o (n2 & -> & l2 & -> & Hl2). eexists. split; [done|]. exists n2, [], n2, l1, l2.
    rewrite app_nil_r. split_and!; try done. exists []. by rewrite app_nil_r.
  - by destruct Hp as (? & ? & ?).
  - revert t1 t2 tr Hp Hq. induction q as [l2| |e' k' IHq]; intros t1 t2 tr Hp Hq.
    + destruct Hq as (? & [= <-] & Hl2). simpl. apply (wp_fmap _ _ (Vis e k)).
      eapply wp_mono; [|by apply (wp_relocate _ _ _ (returns Φ) t1)].
      intros tr' o (n1 & -> & l1 & -> & Hl1). eexists. split; [done|]. exists n1, n1, [], l1, l2.
      rewrite (app_nil_r t2). split_and!; try done; [|by rewrite (comm (++))]. exists []. by rewrite !app_nil_r.
    + by destruct Hq as (? & ? & ?).
    + destruct Hp as [He Hk], Hq as [He' Hk']. split; [done|]. intros b Hb.
      destruct b; (split; [done|]); intros r Hr.
      * eapply wp_mono; [|apply (IHp r _ (t1 ++ [existT e r]) t2); [by apply Hk|by split]].
        intros tr' o (l & -> & new & n1 & n2 & l1 & l2 & -> & (cs & Hcs & Hnew) & H1' & H2' & Hl).
        eexists. split; [done|]. exists (existT Choose true :: existT e r :: new), (existT e r :: n1), n2, l1, l2.
        rewrite <- !(assoc_L (++)) in *. split_and!; try done.
        exists (existT Choose true :: cs). split; [by constructor|]. rewrite Hnew. solve_Permutation.
      * eapply wp_mono; [|apply (IHq r t1 (t2 ++ [existT e' r])); [by split|by apply Hk']].
        intros tr' o (l & -> & new & n1 & n2 & l1 & l2 & -> & (cs & Hcs & Hnew) & H1' & H2' & Hl).
        eexists. split; [done|]. exists (existT Choose false :: existT e' r :: new), n1, (existT e' r :: n2), l1, l2.
        rewrite <- !(assoc_L (++)) in *. split_and!; try done.
        exists (existT Choose false :: cs). split; [by constructor|]. rewrite Hnew. solve_Permutation.
Qed.

Lemma wp_par_split {A I} (Φ : I → list (obs reply) → A → Prop) (f : I → go A) (js : list I) tr :
  (∀ j, j ∈ js → wp Adm (λ _, P) (f j) (returns (Φ j)) []) →
  wp Adm (λ _, P) (par (f <$> js)) (returns (λ tr' l, ∃ new ts rs cs,
    tr' = tr ++ new ∧ Forall (λ x, projT1 x = Choose) cs ∧ new ≡ₚ concat ts ++ cs ∧
    l ≡ₚ rs ∧ Forall3 Φ js ts rs)) tr.
Proof.
  revert tr. induction js as [|j js IH]; intros tr Hf; simpl.
  { eexists. split; [done|]. exists [], [], [], []. rewrite app_nil_r. by split_and!; repeat constructor. }
  eapply wp_mono; [|apply (wp_par2_split _ _ (λ t l, ∃ a, l = [a] ∧ Φ j t a) (λ t l, ∃ ts rs cs,
    Forall (λ x, projT1 x = Choose) cs ∧ t ≡ₚ concat ts ++ cs ∧ l ≡ₚ rs ∧ Forall3 Φ js ts rs) [] [])].
  - intros tr' o (l & -> & new & n1 & n2 & l1 & l2 & -> & (cs & Hcs & Hnew) & (a & -> & Ha) &
      (ts & rs & cs' & Hcs' & Hn2 & Hl2 & Hall) & Hl).
    eexists. split; [done|]. exists new, (n1 :: ts), (a :: rs), (cs' ++ cs). split_and!; [done|by apply Forall_app| | |by constructor].
    + rewrite Hnew. simpl in Hn2. rewrite Hn2. simpl. solve_Permutation.
    + by rewrite Hl, Hl2.
  - apply wp_fmap. eapply wp_mono; [|by apply Hf; left].
    intros tr' o (a & -> & Ha). eexists. split; [done|]. by exists a.
  - eapply wp_mono; [|apply IH; intros; apply Hf; by right].
    intros tr' o (l & -> & new & ts & rs & cs & -> & ?). eexists. split; [done|]. exists ts, rs, cs. done.
Qed.
End par.

(** The [err] of a pair [(result, err)]. *)
Definition err_of {A E} (r : A + E) : option E :=
  match r with inl _ => None | inr err => Some err end.

(** The classification of a possibly nil error. *)
Definition is_err `{K8s} (p : error → bool) (err : option error) : bool :=
  match err with Some e => p e | None => false end.

(** [if err != nil { return ..., err }] *)
Definition or_return `{K8s} {A B} (r : A + error) (ret : error → go B) (k : A → go B) : go B :=
  match r with inl a => k a | inr err => ret err end.

(** ** [retry.RetryOnConflict]

    Documented behaviour: the function is run until it returns no error or an
    error other than a conflict, or the attempts of the backoff are used up; the
    last error is returned.  The function's free variables are its state. *)
Inductive backoff := DefaultBackoff | DefaultRetry | Backoff (steps : Z).

Fixpoint retry_loop `{K8s} {E} {R : E → Type} {T} (retries : nat)
    (fn : T → prog R (option error * T)) (s : T) : prog R (option error * T) :=
  '(err, s) ← fn s;
  match err with
  | Some e =>
      if IsConflict e
      then match retries with O => mret (err, s) | S retries => retry_loop retries fn s end
      else mret (err, s)
  | None => mret (err, s)
  end.

Class ClientGo `{K8s} := {
  RetryOnConflict : ∀ {E} {R : E → Type} {T},
    backoff → (T → prog R (option error * T)) → T → prog R (option error * T);
  retries : backoff → nat;
  RetryOnConflict_spec {E} {R : E → Type} T b (fn : T → prog R (option error * T)) s :
    RetryOnConflict b fn s = retry_loop (retries b) fn s
}.

(** Every attempt preserves [J] and its outcome satisfies [Q]: so does the last one. *)
Lemma retry_loop_wp `{K8s} {T} Adm I (J : list (obs reply) → T → Prop)
    (Q : list (obs reply) → option error → T → Prop) n (fn : T → go (option error * T)) s tr :
  (∀ s tr, J tr s →
     wp Adm I (fn s) (λ tr' o, ∃ err s', o = Some (err, s') ∧ J tr' s' ∧ Q tr' err s') tr) →
  J tr s →
  wp Adm I (retry_loop n fn s) (λ tr' o, ∃ err s', o = Some (err, s') ∧ J tr' s' ∧ Q tr' err s') tr.
Proof.
  intros Hfn. revert s tr. induction n as [|n IH]; intros s tr HJ; simpl;
    (eapply (wp_seq _ _ _ _ (λ tr' r, J tr' r.2 ∧ Q tr' r.1 r.2));
     [eapply wp_mono; [|by apply Hfn]; intros tr' o (err & s' & -> & ?); by eexists
     |intros tr' [[err|] s'] [HJ' HQ]; simpl in *]);
    try destruct (IsConflict err); try (apply wp_ret; eauto; fail).
  by apply IH.
Qed.

Lemma RetryOnConflict_wp `{ClientGo} {T} Adm I (J : list (obs reply) → T → Prop)
    (Q : list (obs reply) → option error → T → Prop) b (fn : T → go (option error * T)) s tr :
  (∀ s tr, J tr s →
     wp Adm I (fn s) (λ tr' o, ∃ err s', o = Some (err, s') ∧ J tr' s' ∧ Q tr' err s') tr) →
  J tr s →
  wp Adm I (RetryOnConflict b fn s)
    (λ tr' o, ∃ err s', o = Some (err, s') ∧ J tr' s' ∧ Q tr' err s') tr.
Proof. intros. rewrite RetryOnConflict_spec. by apply retry_loop_wp. Qed.

(** ** Programs described by the calls they may make and the values they return

    [safe Adm P p Φ]: whatever the environment answers within [Adm], [p] makes
    only calls in [P], does not panic, and returns a value in [Φ]. *)
Section safe.
Context `{K8s} (Adm : obs reply → Prop) (P : api_call → Prop).

Definition safe {A} (p : go A) (Φ : A → Prop) : Prop :=
  ∀ tr, wp Adm (λ _, P) p (returns (λ _, Φ)) tr.

Lemma safe_ret {A} (a : A) (Φ : A → Prop) : Φ a → safe (mret a) Φ.
Proof. intros HΦ tr. apply wp_ret. by exists a. Qed.
Lemma safe_call e (Φ : reply e → Prop) :
  P e → (∀ r, Adm (existT e r) → Φ r) → safe (call e) Φ.
Proof. intros He HΦ tr. apply wp_call; [done|]. intros r Hr. exists r. eauto. Qed.
Lemma safe_deref {A} (o : option A) a (Φ : A → Prop) : o = Some a → Φ a → safe (deref o) Φ.
Proof. intros -> HΦ tr. by exists a. Qed.
Lemma safe_bind {A B} (p : go A) (f : A → go B) (Ψ : A → Prop) (Φ : B → Prop) :
  safe p Ψ → (∀ a, Ψ a → safe (f a) Φ) → safe (p ≫= f) Φ.
Proof.
  intros Hp Hf tr. eapply wp_seq; [apply Hp|]. intros tr' a Ha. by apply Hf.
Qed.
Lemma safe_seq {A B} (p : go A) (f : A → go B) (Φ : B → Prop) :
  safe p (λ _, True) → (∀ a, safe (f a) Φ) → safe (p ≫= f) Φ.
Proof. intros Hp Hf. by eapply safe_bind. Qed.
Lemma safe_fmap {A B} (p : go A) (f : A → B) (Φ : B → Prop) :
  safe p (λ a, Φ (f a)) → safe (f <$> p) Φ.
Proof.
  intros Hp tr. apply wp_fmap. eapply wp_mono; [|apply Hp].
  intros tr' o (a & -> & Ha). by exists (f a).
Qed.
Lemma safe_mono {A} (p : go A) (Φ Ψ : A → Prop) : (∀ a, Φ a → Ψ a) → safe p Φ → safe p Ψ.
Proof.
  intros HΦ Hp tr. eapply wp_mono; [|apply Hp]. intros tr' o (a & -> & ?). exists a. eauto.
Qed.
Lemma safe_retry `{!ClientGo} {T} b (fn : T → go (option error * T)) (J : T → Prop)
    (Q : option error → T → Prop) s :
  (∀ s, J s → safe (fn s) (λ r, J r.2 ∧ Q r.1 r.2)) → J s →
  safe (RetryOnConflict b fn s) (λ r, J r.2 ∧ Q r.1 r.2).
Proof.
  intros Hfn HJ tr. eapply wp_mono; [|apply (RetryOnConflict_wp _ _ (λ _, J) (λ _, Q)); [|done]].
  - intros tr' o (err & s' & -> & ? & ?). by exists (err, s').
  - intros s' tr' HJ'. eapply wp_mono; [|by apply Hfn].
    intros tr'' o ([err s''] & -> & ? & ?). by exists err, s''.
Qed.

(** In a trace: nothing outside [P] is added. *)
Lemma safe_trace {A} (p : go A) (Φ : A → Prop) tr :
  safe p Φ →
  wp Adm (λ _, P) p (returns (λ tr' a, Φ a ∧ ∃ new, tr' = tr ++ new ∧
                                Forall (λ x, P (projT1 x) ∧ Adm x) new)) tr.
Proof.
  intros Hp. eapply wp_mono; [|by apply wp_trace, Hp].
  intros tr' o [(a & -> & Ha) Hnew]. by exists a.
Qed.
End safe.

Lemma safe_weaken `{K8s} (Adm Adm' : obs reply → Prop) (P P' : api_call → Prop) {A} (p : go A) Φ :
  (∀ o, Adm' o → Adm o) → (∀ e, P e → P' e) → safe Adm P p Φ → safe Adm' P' p Φ.
Proof. intros HA HP Hp tr. eapply wp_weaken; [done| |apply Hp]. auto. Qed.

(** Apply [safe_call] at a call whose type of answers is already computed. *)
Ltac safe_call :=
  lazymatch goal with
  | |- safe ?Adm ?P (call ?e) ?Φ => refine (safe_call Adm P e Φ _ _)
  end.

(** ** Programs described by their calls only

    [calls P p]: [p] makes only calls in [P]; it may return anything, or panic. *)
Section calls_only.
Context `{K8s} (P : api_call → Prop).

Definition calls {A} (p : go A) : Prop := ∀ tr, wp (λ _, True) (λ _, P) p (λ _ _, True) tr.

Lemma calls_ret {A} (a : A) : calls (mret a).
Proof. by intros tr. Qed.
Lemma calls_panic {A} : calls (Panic : go A).
Proof. by intros tr. Qed.
Lemma calls_deref {A} (o : option A) : calls (deref o).
Proof. by destruct o; intros tr. Qed.
Lemma calls_call e : P e → calls (call e).
Proof. intros He tr. by apply wp_call. Qed.
Lemma calls_bind {A B} (p : go A) (f : A → go B) :
  calls p → (∀ a, calls (f a)) → calls (p ≫= f).
Proof.
  intros Hp Hf tr. apply wp_bind_2. eapply wp_mono; [|apply Hp].
  intros tr' [a|] _; [apply Hf|done].
Qed.
Lemma calls_fmap {A B} (p : go A) (f : A → B) : calls p → calls (f <$> p).
Proof. intros Hp tr. apply wp_fmap. eapply wp_mono; [|apply Hp]. done. Qed.

Lemma calls_any {A} (p : go A) tr :
  wp (λ _, True) (λ _, P) p (λ _ _, True) tr → calls p.
Proof.
  intros Hp tr'. revert tr tr' Hp. induction p as [a| |e k IH]; intros tr tr' Hp; [done..|].
  destruct Hp as [He Hk]. split; [done|]. intros r _. by eapply IH, Hk.
Qed.

Lemma calls_vis {A} e (k : reply e → go A) : calls (Vis e k) → P e ∧ ∀ r, calls (k r).
Proof.
  intros Hp. destruct (Hp []) as [He Hk]. split; [done|]. intros r. by eapply calls_any, Hk.
Qed.

(** Concurrent programs: the calls of each, and the scheduler's. *)
Lemma calls_par2 {A} (p q : go (list A)) : P Choose → calls p → calls q → calls (par2 p q).
Proof.
  intros HC. revert q. induction p as [l1| |e k IHp]; intros q Hp Hq.
  - assert (calls ((λ l2, l1 ++ l2) <$> q)) as Hc by by apply calls_fmap. by destruct q.
  - intros tr. by destruct q.
  - induction q as [l2| |e' k' IHq].
    + apply (calls_fmap (Vis e k) (λ l1, l2 ++ l1)), Hp.
    + by intros tr.
    + destruct (calls_vis _ _ Hp) as [He Hk], (calls_vis _ _ Hq) as [He' Hk'].
      intros tr. split; [done|]. intros [] _; (split; [done|]); intros r _.
      * apply IHp; [apply Hk|done].
      * apply IHq, Hk'.
Qed.

Lemma calls_par {A} (ps : list (go A)) :
  P Choose → (∀ p, p ∈ ps → calls p) → calls (par ps).
Proof.
  intros HC. induction ps as [|p ps IH]; intros Hps; cbn [par]; [apply calls_ret|].
  apply calls_par2; [done| |].
  - apply calls_fmap, Hps. left.
  - apply IH. intros. apply Hps. by right.
Qed.

Lemma calls_retry `{!ClientGo} {T} b (fn : T → go (option error * T)) s :
  (∀ s, calls (fn s)) → calls (RetryOnConflict b fn s).
Proof.
  intros Hfn. rewrite RetryOnConflict_spec. revert s.
  induction (retries b) as [|n IH]; intros s; cbn [retry_loop];
    (apply calls_bind; [apply Hfn|]); intros [[err|] s'];
    try destruct (IsConflict err); first [apply calls_ret|apply IH].
Qed.

Lemma calls_runs {A} (p : go A) tr o :
  calls p → runs p tr o → Forall (λ x, P (projT1 x)) tr.
Proof.
  intros Hp Hr. destruct (wp_runs _ _ _ _ [] tr o (wp_trace _ _ _ _ _ (Hp [])) Hr) as [_ [_ (new & Heq & Hall)]].
  { by apply Forall_true. }
  simpl in Heq. subst new. eapply List.Forall_impl; [|exact Hall]. by intros x [? _].
Qed.
End calls_only.

Lemma calls_weaken `{K8s} (P Q : api_call → Prop) {A} (p : go A) :
  (∀ e, P e → Q e) → calls P p → calls Q p.
Proof. intros HPQ Hp tr. eapply (wp_weaken (λ _, True) _ (λ _, P)); [done|intros ?; apply HPQ|apply Hp]. Qed.

(** What is known of the calls of a program, added to what is known of its outcome. *)
Lemma wp_calls `{K8s} Adm (P Q : api_call → Prop) {A} (p : go A) Φ tr :
  calls P p → wp Adm (λ _, Q) p Φ tr →
  wp Adm (λ _, P) p (λ tr' o, Φ tr' o ∧ ∃ new, tr' = tr ++ new ∧ Forall (λ x, P (projT1 x) ∧ Adm x) new) tr.
Proof.
  intros Hp Hw. apply wp_trace. revert tr Hw.
  induction p as [a| |e k IH]; intros tr Hw; [done..|]. destruct Hw as [_ Hk].
  destruct (calls_vis _ _ _ Hp) as [He Hc]. split; [done|]. intros r Hr. by apply IH, Hk.
Qed.

(** Walk through a program; what is left are the calls of other functions. *)
Ltac calls_step :=
  lazymatch goal with
  | |- calls _ (mret _) => apply calls_ret
  | |- calls _ Panic => apply calls_panic
  | |- calls _ (deref _) => apply calls_deref
  | |- calls ?P (call ?e) => refine (calls_call P e _)
  | |- calls _ (RetryOnConflict _ _ _) => apply calls_retry; intros ?
  | |- calls _ (_ ≫= _) => apply calls_bind; [|intros ?]
  | |- calls _ (match ?x with _ => _ end) => destruct x
  | |- calls _ (if ?b then _ else _) => destruct b
  end.
Ltac calls := repeat (cbv beta iota zeta; calls_step).
