(* ===== verification/NodeOps.v ===== *)
(** * Labels and taints of nodes ([pkg/controller/controller_utils.go])

    [AddOrUpdateLabelsOnNode], which reads a node and patches its labels in a retry
    loop, and [PatchNodeTaints], which patches the taints of a node it is given. *)
From S2P Require Export Boundary.

(** ** Nodes, and the calls about them *)

Record Taint := { taint_Key : string; taint_Value : string; taint_Effect : string }.
(** [v1.Node]; the fields the code only carries along are in [node_Rest]. *)
Record Node := { node_meta : ObjectMeta; Taints : list Taint; node_Rest : string }.

Definition with_ResourceVersion (rv : string) (m : ObjectMeta) : ObjectMeta :=
  {| Name := Name m; GenerateName := GenerateName m; Namespace := Namespace m; UID := UID m;
     ResourceVersion := rv; Generation := Generation m; CreationTimestamp := CreationTimestamp m;
     DeletionTimestamp := DeletionTimestamp m; Labels := Labels m; Annotations := Annotations m;
     OwnerReferences := OwnerReferences m; Finalizers := Finalizers m |}.
Definition set_node_meta (f : ObjectMeta → ObjectMeta) (n : Node) : Node :=
  {| node_meta := f (node_meta n); Taints := Taints n; node_Rest := node_Rest n |}.
Definition set_Taints (ts : list Taint) (n : Node) : Node :=
  {| node_meta := node_meta n; Taints := ts; node_Rest := node_Rest n |}.

(** [json.Marshal] of a node, [strategicpatch.CreateTwoWayMergePatch] for nodes, and
    the verbs [%#v] (of a node) and [%q]. *)
Class NodeCodec `{K8s} := {
  MarshalNode : Node → string + error;
  GoSyntax : Node → string;
  Quoted : string → string;
  CreateTwoWayMergePatch : string → string → string + error
}.

Section calls.
Context `{K8s}.

Inductive node_call :=
| NodesGet (name resourceVersion : string)
| NodesPatch (name data : string).
Definition node_reply (c : node_call) : Type :=
  match c with
  | NodesGet _ _ => Node + error
  | NodesPatch _ _ => option error
  end%type.
End calls.

Section ops.
Context `{NodeCodec}.
Notation nodeM := (prog node_reply).

Definition UpdateLabelBackoff : backoff := Backoff 5.

(** A copy of the node with the labels updated. *)
Definition labelled (labelsToUpdate : labels) (node : Node) : Node :=
  set_node_meta (λ m, with_Labels (Some (default ∅ labelsToUpdate ∪ default ∅ (Labels m))) m) node.

(** The patch from one version of a node to another; [%v] keeps the text of an error only. *)
Definition label_patch (labelsToUpdate : labels) (node : Node) : string + error :=
  match MarshalNode node with
  | inr err =>
      inr (Errorf ("failed to marshal the existing node " +:+ GoSyntax node +:+ ": " +:+ Error err) None)
  | inl oldData =>
      let newNode := labelled labelsToUpdate node in
      match MarshalNode newNode with
      | inr err =>
          inr (Errorf ("failed to marshal the new node " +:+ GoSyntax newNode +:+ ": " +:+ Error err) None)
      | inl newData =>
          match CreateTwoWayMergePatch oldData newData with
          | inr err => inr (Errorf ("failed to create a two-way merge patch: " +:+ Error err) None)
          | inl patchBytes => inl patchBytes
          end
      end
  end.

(** The closure passed to [RetryOnConflict]; it captures [firstTry]. *)
Definition label_attempt (nodeName : string) (labelsToUpdate : labels) (firstTry : bool)
    : nodeM (option error * bool) :=
  let resourceVersion := if firstTry then "0" else "" in
  r ← call (NodesGet nodeName resourceVersion);
  match r with
  | inr err => mret (Some err, false)
  | inl node =>
      match label_patch labelsToUpdate node with
      | inr err => mret (Some err, false)
      | inl patchBytes =>
          err ← call (NodesPatch (Name (node_meta node)) patchBytes);
          mret (match err with
                | Some err => Some (Errorf ("failed to patch the node: " +:+ Error err) None)
                | None => None
                end, false)
      end
  end.

Definition AddOrUpdateLabelsOnNode `{!ClientGo} (nodeName : string) (labelsToUpdate : labels)
    : nodeM (option error) :=
  '(err, _) ← RetryOnConflict UpdateLabelBackoff (label_attempt nodeName labelsToUpdate) true;
  mret err.

Definition PatchNodeTaints (nodeName : string) (oldNode newNode : Node) : nodeM (option error) :=
  let oldNodeNoRV := set_node_meta (with_ResourceVersion "") oldNode in
  match MarshalNode oldNodeNoRV with
  | inr err =>
      mret (Some (Errorf ("failed to marshal old node " +:+ GoSyntax oldNodeNoRV +:+ " for node "
                         +:+ Quoted nodeName +:+ ": " +:+ Error err) None))
  | inl oldDataNoRV =>
      let newNodeClone := set_Taints (Taints newNode) oldNode in
      match MarshalNode newNodeClone with
      | inr err =>
          mret (Some (Errorf ("failed to marshal new node " +:+ GoSyntax newNodeClone +:+ " for node "
                             +:+ Quoted nodeName +:+ ": " +:+ Error err) None))
      | inl newData =>
          match CreateTwoWayMergePatch oldDataNoRV newData with
          | inr err =>
              mret (Some (Errorf ("failed to create patch for node " +:+ Quoted nodeName +:+ ": " +:+ Error err) None))
          | inl patchBytes => call (NodesPatch nodeName patchBytes)
          end
      end
  end.
End ops.

(** ** Properties *)

Section props.
Context `{NodeCodec} `{!ClientGo}.
(** A conflict is an error of the API server: an error that only has a text is none. *)
Context (IsConflict_text : ∀ msg, IsConflict (Errorf msg None) = false).
Implicit Types (r : Node + error).

(** The version of the node that the [i]-th read asks for: any, then the newest. *)
Definition version (i : nat) : string := if bool_decide (i = 0%nat) then "0" else "".

(** What follows the last read, and the error of the whole. *)
Definition concluded (labelsToUpdate : labels) r (rest : list (obs node_reply)) (err : option error) : Prop :=
  match r with
  | inr e => rest = [] ∧ err = Some e
  | inl node =>
      match label_patch labelsToUpdate node with
      | inr e => rest = [] ∧ err = Some e
      | inl data => ∃ answer, rest = [existT (NodesPatch (Name (node_meta node)) data) answer] ∧
                      (err = None ↔ answer = None)
      end
  end.

Lemma label_patch_no_conflict labelsToUpdate node e :
  label_patch labelsToUpdate node = inr e → IsConflict e = false.
Proof.
  unfold label_patch. destruct (MarshalNode node); [|by intros [= <-]].
  cbv zeta. destruct (MarshalNode _); [|by intros [= <-]].
  destruct (CreateTwoWayMergePatch _ _); [done|by intros [= <-]].
Qed.

(** One attempt: it reads once; only the read can end in a conflict. *)
Lemma label_attempt_runs nodeName labelsToUpdate (firstTry : bool) tr o :
  runs (label_attempt nodeName labelsToUpdate firstTry) tr o →
  ∃ r rest err, tr = existT (NodesGet nodeName (if firstTry then "0" else "")) r :: rest ∧
    o = Some (err, false) ∧ concluded labelsToUpdate r rest err ∧
    (∀ e, err = Some e → IsConflict e = true → r = inr e).
Proof.
  unfold label_attempt, concluded. intros (r & tr' & -> & Hrun). exists r, tr'.
  destruct r as [node|e]; cbn in Hrun.
  2:{ destruct Hrun as [-> ->]. exists (Some e). split_and!; try done. by intros ? [= ->]. }
  destruct (label_patch labelsToUpdate node) as [data|e] eqn:Hp.
  - destruct Hrun as (answer & tr2 & -> & [-> ->]). eexists. split_and!; [done|done| |].
    + exists answer. split; [done|]. by destruct answer.
    + intros e He Hc. destruct answer; [|done]. injection He as <-. by rewrite IsConflict_text in Hc.
  - destruct Hrun as [-> ->]. exists (Some e). split_and!; try done.
    intros ? [= <-] Hc. by rewrite (label_patch_no_conflict _ _ _ Hp) in Hc.
Qed.

(** The loop, from its second attempt on. *)
Lemma label_retry_runs nodeName labelsToUpdate n (firstTry : bool) tr o :
  runs (retry_loop n (label_attempt nodeName labelsToUpdate) firstTry) tr o →
  ∃ reads r rest err,
    tr = reads ++ existT (NodesGet nodeName
           (if firstTry && bool_decide (length reads = 0%nat) then "0" else "")) r :: rest ∧
    (length reads ≤ n)%nat ∧
    (∀ i x, reads !! i = Some x → ∃ e,
       x = existT (NodesGet nodeName (if firstTry && bool_decide (i = 0%nat) then "0" else "")) (inr e) ∧
       IsConflict e = true) ∧
    o = Some (err, false) ∧ concluded labelsToUpdate r rest err.
Proof.
  revert firstTry tr o. induction n as [|n IH]; intros firstTry tr o Hrun;
    apply runs_split in Hrun as (o1 & tr1 & tr2 & -> & Hfirst & Hrest);
    destruct (label_attempt_runs _ _ _ _ _ Hfirst) as (r & rest & err & -> & -> & Hend & Hconf);
    cbv beta iota in Hrest.
  { assert (tr2 = [] ∧ o = Some (err, false)) as [-> ->].
    { destruct err as [e|]; [destruct (IsConflict e)|]; by destruct Hrest. }
    exists [], r, rest, err. rewrite app_nil_r, andb_true_r. split_and!; done || (simpl; lia). }
  destruct (is_err IsConflict err) eqn:Hc.
  - destruct err as [e|]; [|done]. simpl in Hc. rewrite (Hconf e eq_refl Hc) in *. destruct Hend as [-> _]. rewrite Hc in Hrest.
    destruct (IH false tr2 o Hrest) as (reads & r' & rest' & err' & -> & Hlen & Hreads & -> & Hend').
    exists (existT (NodesGet nodeName (if firstTry then "0" else "")) (inr e) :: reads), r', rest', err'.
    split_and!; [|simpl; lia| |done|done].
    + simpl. by rewrite andb_false_r.
    + intros [|i] x Hx; simpl in Hx.
      * injection Hx as <-. exists e. by rewrite andb_true_r.
      * destruct (Hreads i x Hx) as (e' & -> & He'). exists e'. by rewrite andb_false_r.
  - assert (tr2 = [] ∧ o = Some (err, false)) as [-> ->].
    { destruct err as [e|]; simpl in Hc; [rewrite Hc in Hrest|]; by destruct Hrest. }
    exists [], r, rest, err. rewrite app_nil_r, andb_true_r. split_and!; done || (simpl; lia).
Qed.

(** Every outcome of updating the labels of a node.  The node is read, the
    first time in any version and again in the newest one after each conflict
    reported by a read, at most as often as the backoff allows.  A failed read or a
    failed encoding is returned as an error and nothing is patched; otherwise one
    patch is sent to the node that was read, for the difference between that node
    and its copy with the new labels, and the error is nil exactly when the patch
    was accepted.  A conflict reported by the patch ends the loop. *)
Theorem AddOrUpdateLabelsOnNode_outcome nodeName labelsToUpdate tr o :
  runs (AddOrUpdateLabelsOnNode nodeName labelsToUpdate) tr o →
  ∃ reads r rest err,
    tr = reads ++ existT (NodesGet nodeName (version (length reads))) r :: rest ∧
    (length reads ≤ retries UpdateLabelBackoff)%nat ∧
    (∀ i x, reads !! i = Some x → ∃ e,
       x = existT (NodesGet nodeName (version i)) (inr e) ∧ IsConflict e = true) ∧
    o = Some err ∧ concluded labelsToUpdate r rest err.
Proof.
  unfold AddOrUpdateLabelsOnNode. rewrite RetryOnConflict_spec.
  intros (o1 & tr1 & tr2 & -> & Hloop & Hrest)%runs_split.
  destruct (label_retry_runs _ _ _ _ _ _ Hloop) as (reads & r & rest & err & -> & Hlen & Hreads & -> & Hend).
  destruct Hrest as [-> ->]. exists reads, r, rest, err. by rewrite app_nil_r.
Qed.

(** Against an API server that keeps the node and applies patches as documented, the
    update succeeds at the first attempt, changes the labels it is given and nothing
    else. *)
Definition node_handler (ApplyPatch : Node → string → Node) (e : node_call) (node : Node)
    : node_reply e * Node :=
  match e with
  | NodesGet _ _ => (inl node, node)
  | NodesPatch _ data => (None, ApplyPatch node data)
  end.

Lemma AddOrUpdateLabelsOnNode_store ApplyPatch nodeName labelsToUpdate node data :
  (∀ old new oldData newData patch, MarshalNode old = inl oldData → MarshalNode new = inl newData →
     CreateTwoWayMergePatch oldData newData = inl patch → ApplyPatch old patch = new) →
  label_patch labelsToUpdate node = inl data →
  run (node_handler ApplyPatch) (AddOrUpdateLabelsOnNode nodeName labelsToUpdate) node =
    (Some None, labelled labelsToUpdate node) ∧
  ∀ k, default ∅ (Labels (node_meta (labelled labelsToUpdate node))) !! k =
    match default ∅ labelsToUpdate !! k with
    | Some v => Some v
    | None => default ∅ (Labels (node_meta node)) !! k
    end.
Proof.
  intros Hpatch Hdata. split.
  - unfold AddOrUpdateLabelsOnNode. rewrite RetryOnConflict_spec. unfold label_attempt.
    assert (ApplyPatch node data = labelled labelsToUpdate node) as Happ.
    { revert Hdata. unfold label_patch. destruct (MarshalNode node) eqn:Hold; [|done]. cbv zeta.
      destruct (MarshalNode (labelled _ _)) eqn:Hnew; [|done].
      destruct (CreateTwoWayMergePatch _ _) eqn:Hp; [|done]. intros [= <-]. by eapply Hpatch. }
    destruct (retries UpdateLabelBackoff); cbn; rewrite Hdata; cbn; by rewrite Happ.
  - intros k. cbn. rewrite lookup_union. by destruct (default ∅ labelsToUpdate !! k), (default ∅ _ !! k).
Qed.

(** [PatchNodeTaints] changes the taints only, and makes the patch carry the resource
    version, so that the API server can see a conflict. *)
Lemma PatchNodeTaints_runs nodeName oldNode newNode tr o :
  runs (PatchNodeTaints nodeName oldNode newNode) tr o →
  ∃ err, o = Some err ∧
    (tr = [] ∧ err ≠ None ∨
     ∃ old new data, MarshalNode (set_node_meta (with_ResourceVersion "") oldNode) = inl old ∧
       MarshalNode (set_Taints (Taints newNode) oldNode) = inl new ∧
       CreateTwoWayMergePatch old new = inl data ∧ tr = [existT (NodesPatch nodeName data) err]).
Proof.
  unfold PatchNodeTaints. cbv zeta.
  destruct (MarshalNode _) as [old|e] eqn:Hold; [|intros [-> ->]; eexists; split; [done|by left]].
  destruct (MarshalNode (set_Taints _ _)) as [new|e] eqn:Hnew; [|intros [-> ->]; eexists; split; [done|by left]].
  destruct (CreateTwoWayMergePatch old new) as [data|e] eqn:Hp; [|intros [-> ->]; eexists; split; [done|by left]].
  intros (err & tr' & -> & [-> ->]). exists err. split; [done|]. right. by exists old, new, data.
Qed.
End props.
