(* ===== verification/Instances.v ===== *)
(** * A concrete boundary

    One instance of every class of [Boundary], used by the witnesses to evaluate
    the model: error values are their reason, a selector is its label map, maps
    are visited in key order, and [sort.Sort] happens to be stable. *)
From S2P Require Export Boundary GoStrings GoSort.

Inductive demo_error :=
| Reason (s : string)
| AggregateOf (es : list (goerror demo_error)).

Fixpoint has_reason (s : string) (e : goerror demo_error) : bool :=
  match e with
  | ErrApi (Reason s') => bool_decide (s = s')
  | ErrApi (AggregateOf _) => false
  | Errorf _ (Some e) => has_reason s e
  | Errorf _ None => false
  end.

Definition demo_aggregate (es : list (option (goerror demo_error))) : option (goerror demo_error) :=
  match omap id es with [] => None | es => Some (ErrApi (AggregateOf es)) end.

Definition demo_scale (v : IntOrString) (total : Z) : Z + goerror demo_error :=
  match v with
  | IntVal n => inl n
  | StrVal s =>
      match reverse (chars s) with
      | c :: ds =>
          if bool_decide (c = "%"%char) && forallb is_digit ds
          then inl (digits_value (reverse ds) * total / 100)
          else inr (Errorf "invalid value for IntOrString" None)
      | [] => inr (Errorf "invalid value for IntOrString" None)
      end
  end.

(** Split at the first ["/"]. *)
Fixpoint split_slash (acc : list ascii) (l : list ascii) : option (list ascii * list ascii) :=
  match l with
  | [] => None
  | c :: l => if bool_decide (c = "/"%char) then Some (reverse acc, l) else split_slash (c :: acc) l
  end.

Definition demo_split (key : string) : (string * string) + goerror demo_error :=
  match split_slash [] (chars key) with
  | None => inl ("", key)
  | Some (ns, name) =>
      if bool_decide ("/"%char ∈ name) then inr (Errorf "unexpected key format" None)
      else inl (of_chars ns, of_chars name)
  end.

Definition demo_key (o : event_object) : string + goerror demo_error :=
  match o with
  | ObjPod pod => inl (meta_key (pod_meta pod))
  | ObjSet set => inl (meta_key (set_meta set))
  | Tombstone key _ => inl key
  | ObjOther _ => inr (Errorf "object has no meta" None)
  end.

(** The patches of the examples: ["patch"] and ["new"] carry the template of the set,
    ["old"] one with another annotation, and ["null"] deletes the replicas and the
    partition, as [null] does in a strategic merge patch. *)
Definition with_template (t : PodTemplateSpec) (s : XStatefulSet) : XStatefulSet :=
  {| set_meta := set_meta s; Status := Status s;
     Spec := {| Replicas := Replicas (Spec s); Selector := Selector (Spec s); Template := t;
                VolumeClaimTemplates := VolumeClaimTemplates (Spec s); ServiceName := ServiceName (Spec s);
                PodManagementPolicy := PodManagementPolicy (Spec s); UpdateStrategy := UpdateStrategy (Spec s);
                RevisionHistoryLimit := RevisionHistoryLimit (Spec s); MinReadySeconds := MinReadySeconds (Spec s);
                RetentionPolicy := RetentionPolicy (Spec s); Ordinals := Ordinals (Spec s) |} |}.
Definition old_template (s : XStatefulSet) : XStatefulSet :=
  let t := Template (Spec s) in
  with_template {| tmpl_meta := with_Annotations (Some {["template" := "old"]}) (tmpl_meta t); tmpl_Spec := tmpl_Spec t |} s.
Definition nulled (s : XStatefulSet) : XStatefulSet :=
  {| set_meta := set_meta s; Status := Status s;
     Spec := {| Replicas := None; Selector := Selector (Spec s); Template := Template (Spec s);
                VolumeClaimTemplates := VolumeClaimTemplates (Spec s); ServiceName := ServiceName (Spec s);
                PodManagementPolicy := PodManagementPolicy (Spec s);
                UpdateStrategy := {| us_Type := us_Type (UpdateStrategy (Spec s));
                  RollingUpdate := (λ ru, {| Partition := None; MaxUnavailable := MaxUnavailable ru |}) <$>
                                     RollingUpdate (UpdateStrategy (Spec s)) |};
                RevisionHistoryLimit := RevisionHistoryLimit (Spec s); MinReadySeconds := MinReadySeconds (Spec s);
                RetentionPolicy := RetentionPolicy (Spec s); Ordinals := Ordinals (Spec s) |} |}.
Definition demo_patched (patch : string) (s : XStatefulSet) : XStatefulSet + goerror demo_error :=
  if bool_decide (patch ∈ ["patch"; "new"]) then inl s
  else if bool_decide (patch = "old") then inl (old_template s)
  else if bool_decide (patch = "null") then inl (nulled s)
  else inr (Errorf "invalid patch" None).

(** A patched text is the patch and the original. *)
Definition demo_merge (original patch : string) : string := patch +:+ "/" +:+ original.
Definition demo_unmerge (s : string) : string * string :=
  match split_slash [] (chars s) with Some (p, o) => (of_chars p, of_chars o) | None => ("patch", s) end.

(** The text of a set is its name: [decoded] stands for the set it decodes to, before its
    patch is applied. *)
#[local] Instance demo_K8s (decoded : XStatefulSet) : K8s := {|
  api_error := demo_error;
  IsNotFound := has_reason "NotFound";
  IsAlreadyExists := has_reason "AlreadyExists";
  IsConflict := has_reason "Conflict";
  IsInvalid := has_reason "Invalid";
  Error _ := "error";
  NewAggregate := demo_aggregate;
  Aggregate_Errors e := match e with ErrApi (AggregateOf (e :: es)) => Some (e :: es) | _ => None end;
  selector := gmap string string;
  LabelSelectorAsSelector o :=
    inl (default ∅ (o ≫= MatchLabels));
  Matches sel ls := bool_decide (sel ⊆ default ∅ ls);
  SelectorEmpty sel := bool_decide (sel = ∅);
  SelectorString sel := "selector";
  GetControllerOf refs := List.find (λ r, ptr_true (or_Controller r)) refs;
  IsControlledBy refs o :=
    match List.find (λ r, ptr_true (or_Controller r)) refs with
    | Some r => bool_decide (or_UID r = UID o)
    | None => false
    end;
  NewControllerRef o k :=
    {| or_APIVersion := gvk_Group k +:+ "/" +:+ gvk_Version k; or_Kind := gvk_Kind k;
       or_Name := Name o; or_UID := UID o; or_Controller := Some true;
       or_BlockOwnerDeletion := Some true |};
  GroupVersionString k := gvk_Group k +:+ "/" +:+ gvk_Version k;
  OwnerReferenceString r := or_Kind r +:+ "/" +:+ or_Name r;
  KeyFunc := demo_key;
  SplitMetaNamespaceKey := demo_split;
  GetScaledValueFromIntOrPercent v total _ := demo_scale v total;
  NameIsDNSSubdomain _ _ := [];
  SafeEncodeString s := s;
  object := unit;
  ForHash _ := "{}";
  TemplateObject _ := tt;
  SemanticDeepEqual a b := bool_decide (a = b);
  TitleEnglish s := s;
  FeatureEnabled _ := true;
  EncodeSet s := inl (Name (set_meta s));
  UnmarshalMap s := inl [("spec", JObj [("template", JObj [("name", JStr s)])])];
  UnmarshalSet s := demo_patched (demo_unmerge s).1 decoded;
  Marshal _ := inl "patch";
  StrategicMergePatch original p := inl (demo_merge original p)
|}.

Lemma demo_aggregate_None es : demo_aggregate es = None ↔ Forall (λ o, o = None) es.
Proof.
  unfold demo_aggregate. split.
  - intros Hes. induction es as [|[e|] es IH]; simpl in *; [constructor|done|].
    constructor; [done|]. by apply IH.
  - intros Hes. assert (omap id es = []) as ->; [|done].
    induction Hes as [|o es -> Hes IH]; [done|]. by simpl.
Qed.

Lemma split_slash_app acc l l' :
  "/"%char ∉ l → split_slash acc (l ++ "/"%char :: l') = Some (reverse acc ++ l, l').
Proof.
  revert acc. induction l as [|c l IH]; intros acc Hl; simpl.
  { by rewrite app_nil_r. }
  apply not_elem_of_cons in Hl as [Hc Hl]. rewrite bool_decide_eq_false_2 by auto.
  rewrite IH, reverse_cons by done. by rewrite <- (assoc_L (++)).
Qed.

Lemma demo_unmerge_merge original patch :
  slash_free patch → demo_unmerge (demo_merge original patch) = (patch, original).
Proof.
  intros Hp. unfold demo_unmerge, demo_merge. rewrite !chars_app. change (chars "/") with ["/"%char]. simpl app.
  rewrite split_slash_app by done. change (reverse ([] : list ascii) ++ chars patch) with (chars patch).
  by rewrite !of_chars_chars.
Qed.

#[local] Instance demo_K8sLaws decoded : @K8sLaws (demo_K8s decoded).
Proof.
  split.
  - exact demo_aggregate_None.
  - intros refs r Hf. apply find_some in Hf as [Hin Hr]. by rewrite list_elem_of_In.
  - intros refs. cbn [GetControllerOf demo_K8s]. split.
    + intros Hf. apply List.Forall_forall. intros r Hr. by apply (find_none _ _ Hf).
    + intros Hall. destruct (List.find _ _) as [r|] eqn:Hf; [|done].
      apply find_some in Hf as [Hin Hr]. rewrite List.Forall_forall in Hall.
      by rewrite (Hall r Hin) in Hr.
  - done.
  - done.
  - intros ns name _ Hns Hname. simpl. unfold demo_split.
    rewrite !chars_app. change (chars "/") with ["/"%char]. simpl app.
    rewrite split_slash_app by done. rewrite bool_decide_eq_false_2 by done.
    change (reverse ([] : list ascii) ++ chars ns) with (chars ns). by rewrite !of_chars_chars.
  - by intros [[|[|??]]|].
  - intros o. by apply bool_decide_eq_true.
Qed.

#[local] Instance demo_runtime : GoRuntime := {|
  map_range V m := map_to_list m;
  sort_Sort A less l := sort_Stable less l
|}.

#[local] Instance demo_GoLaws : @GoLaws demo_runtime.
Proof.
  split.
  - done.
  - intros A less l. apply sort_Stable_perm.
  - intros A less l Htr Has. apply (@sort_Stable_sorted A less {|
      less_asym := Has;
      not_after_trans := λ x y z (H1 : not_after less x y) (H2 : not_after less y z), Htr z y x H2 H1 |}).
Qed.

#[local] Instance demo_ClientGo decoded : @ClientGo (demo_K8s decoded) := {|
  RetryOnConflict E R T b fn s := retry_loop 4 fn s;
  retries _ := 4%nat;
  RetryOnConflict_spec E R T b fn s := eq_refl
|}.
