(* ===== verification/PodUtil.v ===== *)
(** * Pod conditions and availability ([pkg/controller/utils/pod.go]) *)
From S2P Require Import Boundary.

Definition second : Z := 1000000000.

(** [time.Time.Sub] saturates. *)
Definition Sub (t u : Time) : Z := Z.max (- 2 ^ 63) (Z.min (2 ^ 63 - 1) (t - u)).

(** [for i := range conditions { if conditions[i].Type == conditionType { ... } }] *)
Fixpoint find_condition (i : Z) (conditions : list PodCondition) (conditionType : string)
    : Z * option PodCondition :=
  match conditions with
  | [] => (-1, None)
  | c :: rest =>
      if bool_decide (cond_Type c = conditionType) then (i, Some c)
      else find_condition (i + 1) rest conditionType
  end.

Definition GetPodConditionFromList (conditions : list PodCondition) (conditionType : string)
    : Z * option PodCondition :=
  find_condition 0 conditions conditionType.

Definition GetPodCondition (status : option PodStatus) (conditionType : string)
    : Z * option PodCondition :=
  match status with
  | None => (-1, None)
  | Some st => GetPodConditionFromList (pod_Conditions st) conditionType
  end.

Definition GetPodReadyCondition (status : PodStatus) : option PodCondition :=
  (GetPodCondition (Some status) PodReady).2.

Definition GetContainersReadyCondition (status : PodStatus) : option PodCondition :=
  (GetPodCondition (Some status) ContainersReady).2.

Definition IsPodReadyConditionTrue (status : PodStatus) : bool :=
  match GetPodReadyCondition status with
  | Some condition => bool_decide (cond_Status condition = ConditionTrue)
  | None => false
  end.

Definition IsContainersReadyConditionTrue (status : PodStatus) : bool :=
  match GetContainersReadyCondition status with
  | Some condition => bool_decide (cond_Status condition = ConditionTrue)
  | None => false
  end.

Definition IsPodReady (pod : Pod) : bool := IsPodReadyConditionTrue (pod_Status pod).

Definition IsPodPhaseTerminal (phase : string) : bool :=
  bool_decide (phase = PodFailed) || bool_decide (phase = PodSucceeded).

Definition IsPodTerminal (pod : Pod) : bool := IsPodPhaseTerminal (Phase (pod_Status pod)).

(** The condition is present when the pod is ready, so the [None] case is not
    reached ([IsPodReady_condition]). *)
Definition IsPodAvailable (pod : Pod) (minReadySeconds : Z) (now : Time) : bool :=
  if negb (IsPodReady pod) then false
  else
    match GetPodReadyCondition (pod_Status pod) with
    | None => false
    | Some c =>
        let minReadySecondsDuration := wrap64 (minReadySeconds * second) in
        if (minReadySeconds =? 0)
           || (negb (IsZero (cond_LastTransitionTime c))
               && (cond_LastTransitionTime c + minReadySecondsDuration <=? now))
        then true else false
    end.

Definition set_LastTransitionTime (t : Time) (c : PodCondition) : PodCondition :=
  {| cond_Type := cond_Type c; cond_Status := cond_Status c;
     cond_LastProbeTime := cond_LastProbeTime c; cond_LastTransitionTime := t;
     cond_Reason := cond_Reason c; cond_Message := cond_Message c |}.
Definition set_Conditions (l : list PodCondition) (st : PodStatus) : PodStatus :=
  {| Phase := Phase st; pod_Conditions := l; ContainerStatuses := ContainerStatuses st;
     InitContainerStatuses := InitContainerStatuses st |}.

(** The body of [UpdatePodCondition] once the clock is read: the new status, the
    caller's condition (both arguments are pointers) and the result. *)
Definition UpdatePodCondition_at (now : Time) (status : PodStatus) (condition : PodCondition)
    : PodStatus * PodCondition * bool :=
  let condition := set_LastTransitionTime now condition in
  match GetPodCondition (Some status) (cond_Type condition) with
  | (_, None) =>
      (set_Conditions (pod_Conditions status ++ [condition]) status, condition, true)
  | (conditionIndex, Some oldCondition) =>
      let condition :=
        if bool_decide (cond_Status condition = cond_Status oldCondition)
        then set_LastTransitionTime (cond_LastTransitionTime oldCondition) condition
        else condition in
      let isEqual :=
        bool_decide (cond_Status condition = cond_Status oldCondition)
        && bool_decide (cond_Reason condition = cond_Reason oldCondition)
        && bool_decide (cond_Message condition = cond_Message oldCondition)
        && (cond_LastProbeTime condition =? cond_LastProbeTime oldCondition)
        && (cond_LastTransitionTime condition =? cond_LastTransitionTime oldCondition) in
      (set_Conditions (<[Z.to_nat conditionIndex := condition]> (pod_Conditions status)) status,
       condition, negb isEqual)
  end.

Definition UpdatePodCondition `{K8s} (status : PodStatus) (condition : PodCondition)
    : go (PodStatus * PodCondition * bool) :=
  now ← call Now;
  mret (UpdatePodCondition_at now status condition).

Definition IsRestartableInitContainer (initContainer : option Container) : bool :=
  match initContainer with
  | None => false
  | Some c =>
      match c_RestartPolicy c with
      | None => false
      | Some p => bool_decide (p = ContainerRestartPolicyAlways)
      end
  end.

Definition IsContainerRestartable (pod : PodSpec) (container : Container) : bool :=
  match c_RestartPolicy container with
  | Some policy =>
      if existsb (λ action, bool_decide (action = ContainerRestartRuleActionRestart))
                 (c_RestartPolicyRules container)
      then true
      else bool_decide (policy ≠ ContainerRestartPolicyNever)
  | None => bool_decide (pod_RestartPolicy pod ≠ RestartPolicyNever)
  end.

(** ** Lookup of a condition *)

#[local] Arguments GetPodCondition : simpl never.

Lemma find_condition_Some i l ty j c :
  find_condition i l ty = (j, Some c) →
  i ≤ j ∧ l !! Z.to_nat (j - i) = Some c ∧ cond_Type c = ty ∧
  Forall (λ c', cond_Type c' ≠ ty) (take (Z.to_nat (j - i)) l).
Proof.
  revert i. induction l as [|c0 l IH]; intros i; simpl; [by intros|].
  case_bool_decide as Hty.
  - intros [= <- <-]. rewrite Z.sub_diag. simpl. repeat split; [lia|done|constructor].
  - intros (Hij & Hl & Hc & Hall)%IH. split; [lia|].
    replace (Z.to_nat (j - i)) with (S (Z.to_nat (j - (i + 1)))) by lia.
    simpl. repeat split; [done..|]. by constructor.
Qed.

Lemma find_condition_None i l ty j :
  find_condition i l ty = (j, None) ↔ j = -1 ∧ Forall (λ c, cond_Type c ≠ ty) l.
Proof.
  revert i. induction l as [|c0 l IH]; intros i; simpl.
  { split; [intros [= <-]; by split|by intros [-> _]]. }
  case_bool_decide as Hty.
  - split; [done|]. intros [_ Hall]. by inversion Hall.
  - rewrite IH. rewrite list.Forall_cons. tauto.
Qed.

Lemma find_condition_snd i i' l ty : (find_condition i l ty).2 = (find_condition i' l ty).2.
Proof.
  revert i i'. induction l as [|c l IH]; intros i i'; simpl; [done|].
  case_bool_decide; [done|]. apply IH.
Qed.

Lemma IsPodReady_condition pod :
  IsPodReady pod = true →
  ∃ c, GetPodReadyCondition (pod_Status pod) = Some c ∧ cond_Status c = ConditionTrue.
Proof.
  unfold IsPodReady, IsPodReadyConditionTrue. intros Hr. destruct GetPodReadyCondition as [c|]; [|done].
  apply bool_decide_eq_true in Hr. eauto.
Qed.

Lemma seconds_no_overflow n : in_int32 n → wrap64 (n * second) = n * second.
Proof. unfold in_int32, second. intros. apply wrap64_small. unfold in_int64. lia. Qed.

(** ** Properties *)

(** A pod is available exactly when it is ready and either no minimum is
    required or the Ready condition has held since a set transition time for the
    whole minimum; the duration does not overflow for an [int32] minimum. *)
Theorem IsPodAvailable_spec pod minReadySeconds now :
  in_int32 minReadySeconds →
  IsPodAvailable pod minReadySeconds now = true ↔
  ∃ c, GetPodReadyCondition (pod_Status pod) = Some c ∧ cond_Status c = ConditionTrue ∧
       (minReadySeconds = 0 ∨
        cond_LastTransitionTime c ≠ 0 ∧
        cond_LastTransitionTime c + minReadySeconds * 1000000000 ≤ now).
Proof.
  intros Hn. unfold IsPodAvailable. rewrite seconds_no_overflow by done. unfold IsZero, second.
  destruct (IsPodReady pod) eqn:Hr; simpl.
  - destruct (IsPodReady_condition _ Hr) as (c & Hc & Hs). rewrite Hc.
    rewrite if_bool. split.
    + intros Ht. exists c. repeat split; [done..|]. lia.
    + intros (c' & [= <-] & _ & Hor). lia.
  - split; [done|]. intros (c & Hc & Hs & _).
    unfold IsPodReady, IsPodReadyConditionTrue in Hr. rewrite Hc in Hr.
    by rewrite bool_decide_eq_true_2 in Hr.
Qed.

Lemma IsPodAvailable_ready pod n now : IsPodAvailable pod n now = true → IsPodReady pod = true.
Proof. unfold IsPodAvailable. by destruct (IsPodReady pod). Qed.

Lemma IsPodAvailable_mono pod n now now' :
  now ≤ now' → IsPodAvailable pod n now = true → IsPodAvailable pod n now' = true.
Proof.
  unfold IsPodAvailable. intros Hle. destruct (IsPodReady pod); [|done]. simpl.
  destruct GetPodReadyCondition; [|done].
  rewrite !if_bool. lia.
Qed.

Lemma find_condition_update i l ty j c c' ty' :
  find_condition i l ty = (j, Some c) → cond_Type c' = ty →
  (find_condition i (<[Z.to_nat (j - i) := c']> l) ty').2 =
    if bool_decide (ty' = ty) then Some c' else (find_condition i l ty').2.
Proof.
  revert i. induction l as [|c0 l IH]; intros i; simpl; [done|].
  destruct (bool_decide (cond_Type c0 = ty)) eqn:Hty; intros Hf Hc'.
  - injection Hf as <- <-. rewrite Z.sub_diag. simpl. rewrite Hc'.
    apply bool_decide_eq_true in Hty. rewrite Hty, (bool_decide_ext (ty = ty') (ty' = ty)) by naive_solver.
    by case_match.
  - destruct (find_condition_Some _ _ _ _ _ Hf) as (Hij & _).
    replace (Z.to_nat (j - i)) with (S (Z.to_nat (j - (i + 1)))) by lia. simpl.
    apply bool_decide_eq_false in Hty. dec (cond_Type c0 = ty') as Hc0.
    + rewrite bool_decide_eq_false_2; naive_solver.
    + by apply IH.
Qed.

Lemma find_condition_app i l c ty :
  (find_condition i (l ++ [c]) ty).2 =
    match (find_condition i l ty).2 with
    | Some c0 => Some c0
    | None => if bool_decide (cond_Type c = ty) then Some c else None
    end.
Proof.
  revert i. induction l as [|c0 l IH]; intros i; simpl; [by case_bool_decide|].
  dec (cond_Type c0 = ty) as Hc; [done|]. apply IH.
Qed.

Lemma UpdatePodCondition_facts now status condition status' condition' changed :
  UpdatePodCondition_at now status condition = (status', condition', changed) →
  (∀ ty, (GetPodCondition (Some status') ty).2 =
         if bool_decide (ty = cond_Type condition) then Some condition'
         else (GetPodCondition (Some status) ty).2) ∧
  cond_Status condition' = cond_Status condition ∧
  cond_LastTransitionTime condition' =
    match (GetPodCondition (Some status) (cond_Type condition)).2 with
    | Some old => if bool_decide (cond_Status condition = cond_Status old)
                  then cond_LastTransitionTime old else now
    | None => now
    end.
Proof.
  unfold UpdatePodCondition_at, GetPodCondition, GetPodConditionFromList. simpl.
  destruct (find_condition _ _ _) as [j [old|]] eqn:Hf; intros [= <- <- <-]; simpl.
  - split.
    + intros ty. replace j with (j - 0) by lia.
      rewrite (find_condition_update _ _ _ _ _ _ ty Hf); by case_match.
    + by case_bool_decide.
  - apply find_condition_None in Hf as [_ Hall]. repeat split.
    intros ty. rewrite find_condition_app. simpl.
    dec (ty = cond_Type condition) as Hty; subst.
    + rewrite (proj2 (find_condition_None _ _ _ (-1)) (conj eq_refl Hall)). simpl.
      by rewrite bool_decide_eq_true_2.
    + rewrite bool_decide_eq_false_2 by done. by case_match.
Qed.

(** After [UpdatePodCondition] a lookup of the condition's type finds the
    condition as the caller now sees it, every other type is found as before, and
    the transition time moves to the clock's reading exactly when the status
    changed (or the condition is new). *)
Theorem UpdatePodCondition_lookup now status condition status' condition' changed :
  UpdatePodCondition_at now status condition = (status', condition', changed) →
  (∀ ty, (GetPodCondition (Some status') ty).2 =
         if bool_decide (ty = cond_Type condition) then Some condition'
         else (GetPodCondition (Some status) ty).2) ∧
  cond_Status condition' = cond_Status condition ∧
  cond_LastTransitionTime condition' =
    match (GetPodCondition (Some status) (cond_Type condition)).2 with
    | Some old => if bool_decide (cond_Status condition = cond_Status old)
                  then cond_LastTransitionTime old else now
    | None => now
    end.
Proof. apply UpdatePodCondition_facts. Qed.

(** Applying the same condition again at any later time changes nothing and
    reports no change. *)
Lemma UpdatePodCondition_idempotent now now' status condition status' condition' changed :
  UpdatePodCondition_at now status condition = (status', condition', changed) →
  UpdatePodCondition_at now' status' condition = (status', condition', false).
Proof.
  intros Hu. destruct (UpdatePodCondition_facts _ _ _ _ _ _ Hu) as (Hl & _).
  specialize (Hl (cond_Type condition)). rewrite bool_decide_eq_true_2 in Hl by done.
  assert (condition' = set_LastTransitionTime (cond_LastTransitionTime condition') condition) as Hc.
  { revert Hu. unfold UpdatePodCondition_at. simpl.
    destruct (GetPodCondition _ _) as [? [|]]; intros ?; repeat case_match; by simplify_eq. }
  unfold UpdatePodCondition_at. simpl.
  destruct (GetPodCondition (Some status') _) as [j o] eqn:Hg. simpl in Hl. subst o.
  apply find_condition_Some in Hg as (_ & Hj & _). rewrite Z.sub_0_r in Hj. clear Hu.
  revert Hc Hj. generalize (cond_LastTransitionTime condition') as t. intros t -> Hj. simpl.
  rewrite !bool_decide_eq_true_2 by done. simpl. rewrite !Z.eqb_refl. simpl.
  change (set_LastTransitionTime t (set_LastTransitionTime now' condition))
    with (set_LastTransitionTime t condition).
  rewrite list_insert_id by done. by destruct status'.
Qed.
