(* ===== verification/Identity.v ===== *)
(** * Pod identity ([pkg/controller/xstatefulset/xstateful_set_utils.go])

    Ordinals and names of the pods of a set, the identity labels, and the
    predicates on the state of a pod. *)
From S2P Require Export Boundary PodUtil GoStrings.

(** ** Parent and ordinal *)

Definition getParentNameAndOrdinal (pod : Pod) : string * Z :=
  match FindStringSubmatch (Name (pod_meta pod)) with
  | None => ("", -1)
  | Some (parent, digits) =>
      (of_chars parent, match ParseInt32 digits with Some i => i | None => -1 end)
  end.

Definition getParentName (pod : Pod) : string := (getParentNameAndOrdinal pod).1.
Definition getOrdinal (pod : Pod) : Z := (getParentNameAndOrdinal pod).2.

Definition getStartOrdinal (set : XStatefulSet) : Z :=
  match Ordinals (Spec set) with Some o => Start o | None => 0 end.

(** [None]: the dereference of a nil [Replicas] panics. *)
Definition getEndOrdinal (set : XStatefulSet) : option Z :=
  replicas ← Replicas (Spec set);
  Some (getStartOrdinal set + replicas - 1).

Definition podInOrdinalRange (pod : Pod) (set : XStatefulSet) : option bool :=
  let ordinal := getOrdinal pod in
  if getStartOrdinal set <=? ordinal
  then e ← getEndOrdinal set; Some (ordinal <=? e)
  else Some false.

Definition getPodName (set : XStatefulSet) (ordinal : Z) : string :=
  Name (set_meta set) +:+ "-" +:+ Itoa ordinal.

Definition getPersistentVolumeClaimName (set : XStatefulSet) (claim : PersistentVolumeClaim)
    (ordinal : Z) : string :=
  Name (pvc_meta claim) +:+ "-" +:+ Name (set_meta set) +:+ "-" +:+ Itoa ordinal.

Definition isMemberOf (set : XStatefulSet) (pod : Pod) : bool :=
  bool_decide (getParentName pod = Name (set_meta set)).

Definition identityMatches (set : XStatefulSet) (pod : Pod) : bool :=
  let '(parent, ordinal) := getParentNameAndOrdinal pod in
  (0 <=? ordinal)
  && bool_decide (Name (set_meta set) = parent)
  && bool_decide (Name (pod_meta pod) = getPodName set ordinal)
  && bool_decide (Namespace (pod_meta pod) = Namespace (set_meta set))
  && bool_decide (map_get (Labels (pod_meta pod)) StatefulSetPodNameLabel = Name (pod_meta pod)).

Definition updateIdentity (set : XStatefulSet) (pod : Pod) : Pod :=
  let ordinal := getOrdinal pod in
  let pod := set_pod_meta (with_Name (getPodName set ordinal)) pod in
  let pod := set_pod_meta (with_Namespace (Namespace (set_meta set))) pod in
  let lbls := map_set (Labels (pod_meta pod)) StatefulSetPodNameLabel (Name (pod_meta pod)) in
  set_pod_meta (with_Labels (map_set lbls PodIndexLabel (Itoa ordinal))) pod.

Definition initIdentity (set : XStatefulSet) (pod : Pod) : Pod :=
  let pod := updateIdentity set pod in
  set_pod_Spec (set_Hostname_Subdomain (Name (pod_meta pod)) (ServiceName (Spec set))) pod.

(** ** Predicates on a pod

    [isRunningAndAvailable] and [isUnavailable] read the clock; [now] is the
    reading. *)

Definition isRunningAndReady (pod : Pod) : bool :=
  bool_decide (Phase (pod_Status pod) = PodRunning) && IsPodReady pod.

Definition isRunningAndAvailable (now : Time) (pod : Pod) (minReadySeconds : Z) : bool :=
  IsPodAvailable pod minReadySeconds now.

Definition isCreated (pod : Pod) : bool := bool_decide (Phase (pod_Status pod) ≠ "").
Definition isPending (pod : Pod) : bool := bool_decide (Phase (pod_Status pod) = PodPending).
Definition isFailed (pod : Pod) : bool := bool_decide (Phase (pod_Status pod) = PodFailed).
Definition isSucceeded (pod : Pod) : bool := bool_decide (Phase (pod_Status pod) = PodSucceeded).
Definition isTerminating (pod : Pod) : bool :=
  bool_decide (DeletionTimestamp (pod_meta pod) ≠ None).

Definition isUnavailable (now : Time) (pod : Pod) (minReadySeconds : Z) : bool :=
  negb (isRunningAndAvailable now pod minReadySeconds) || isTerminating pod.

Definition allowsBurst (set : XStatefulSet) : bool :=
  bool_decide (PodManagementPolicy (Spec set) = ParallelPodManagement).

Definition setPodRevision (pod : Pod) (revision : string) : Pod :=
  set_pod_meta
    (with_Labels (map_set (Labels (pod_meta pod)) StatefulSetRevisionLabel revision)) pod.

Definition getPodRevision (pod : Pod) : string :=
  match Labels (pod_meta pod) with
  | None => ""
  | Some _ => map_get (Labels (pod_meta pod)) StatefulSetRevisionLabel
  end.

(** [ascendingOrdinal] and [descendingOrdinal] *)
Definition ascendingOrdinal_Less (p q : Pod) : bool := getOrdinal p <? getOrdinal q.
Definition descendingOrdinal_Less (p q : Pod) : bool := getOrdinal q <? getOrdinal p.

(** [overlappingStatefulSets.Less] *)
Definition overlappingStatefulSets_Less (x y : ObjectMeta) : bool :=
  if CreationTimestamp x =? CreationTimestamp y then str_lt (Name x) (Name y)
  else CreationTimestamp x <? CreationTimestamp y.

(** ** Lemmas *)

Lemma getOrdinal_range pod : -1 ≤ getOrdinal pod < 2147483648.
Proof.
  unfold getOrdinal, getParentNameAndOrdinal.
  destruct (FindStringSubmatch _) as [[p ds]|] eqn:Hf; simpl; [|lia].
  destruct (FindStringSubmatch_match _ _ _ Hf) as (x & (_ & _ & _ & Hds) & _).
  unfold ParseInt32. pose proof (digits_value_nonneg _ Hds).
  destruct (digits_value ds <=? _) eqn:?; lia.
Qed.

(** The name of a set has no newline: it is a DNS label. *)
Definition plain_name (set : XStatefulSet) : Prop := newline ∉ chars (Name (set_meta set)).

Lemma getParentNameAndOrdinal_getPodName set pod ordinal :
  plain_name set → 0 ≤ ordinal < 2147483648 →
  Name (pod_meta pod) = getPodName set ordinal →
  getParentNameAndOrdinal pod = (Name (set_meta set), ordinal).
Proof.
  intros Hpl Ho Hn. unfold getParentNameAndOrdinal. rewrite Hn. unfold getPodName.
  destruct (Itoa_digits ordinal) as (Hv & Hall & Hne); [lia|].
  rewrite <- (of_chars_chars (Itoa ordinal)), FindStringSubmatch_app by done.
  rewrite of_chars_chars. unfold ParseInt32. rewrite Hv. destruct (ordinal <=? _) eqn:?; [done|lia].
Qed.

(** C31: round trip of names: the pod named after an ordinal of a set has that set
    as parent and that ordinal, and so is a member of the set. *)
Theorem getPodName_roundtrip set pod ordinal :
  plain_name set → 0 ≤ ordinal < 2147483648 →
  Name (pod_meta pod) = getPodName set ordinal →
  getParentName pod = Name (set_meta set) ∧ getOrdinal pod = ordinal ∧ isMemberOf set pod = true.
Proof.
  intros Hpl Ho Hn. unfold isMemberOf, getParentName, getOrdinal.
  rewrite (getParentNameAndOrdinal_getPodName set pod ordinal) by done.
  by rewrite bool_decide_eq_true_2.
Qed.

(** Names of distinct ordinals differ. *)
Lemma getPodName_inj set i j :
  plain_name set → 0 ≤ i < 2147483648 → 0 ≤ j < 2147483648 →
  getPodName set i = getPodName set j → i = j.
Proof.
  intros Hpl Hi Hj Heq.
  pose (pod := {| pod_meta := with_Name (getPodName set i) zero_meta;
                  pod_Spec := tmpl_Spec (Template (Spec set)); pod_Status := zero_PodStatus |}).
  pose proof (getParentNameAndOrdinal_getPodName set pod i Hpl Hi eq_refl) as H1.
  pose proof (getParentNameAndOrdinal_getPodName set pod j Hpl Hj Heq) as H2. congruence.
Qed.

Lemma updateIdentity_parent set pod :
  plain_name set → 0 ≤ getOrdinal pod →
  getParentNameAndOrdinal (updateIdentity set pod) = (Name (set_meta set), getOrdinal pod).
Proof.
  intros Hpl Ho. apply getParentNameAndOrdinal_getPodName; [done| |done].
  pose proof (getOrdinal_range pod). lia.
Qed.

(** [updateIdentity] establishes the identity of any pod whose ordinal can be
    read from its name, and keeps that ordinal; a pod without ordinal never has a
    valid identity, before or after the update. *)
Lemma updateIdentity_matches set pod :
  plain_name set →
  identityMatches set (updateIdentity set pod) = bool_decide (0 ≤ getOrdinal pod) ∧
  (getOrdinal pod < 0 → identityMatches set pod = false) ∧
  (0 ≤ getOrdinal pod → getOrdinal (updateIdentity set pod) = getOrdinal pod).
Proof.
  intros Hpl. split; [|split].
  - dec (0 ≤ getOrdinal pod) as Ho.
    + unfold identityMatches. rewrite updateIdentity_parent by done. simpl.
      rewrite map_get_set_ne, map_get_set_eq, !bool_decide_eq_true_2 by done. simpl. lia.
    + assert (getOrdinal pod = -1) as Hm by (pose proof (getOrdinal_range pod); lia).
      unfold identityMatches.
      assert (getOrdinal (updateIdentity set pod) = -1 ∨ 0 ≤ getOrdinal (updateIdentity set pod)) as [Hn|Hn]
        by (pose proof (getOrdinal_range (updateIdentity set pod)); lia).
      * unfold getOrdinal in Hn. destruct (getParentNameAndOrdinal _) as [p o]. simpl in Hn. subst o. done.
      * (* the name [set--1] parses with ordinal 1 and another parent *)
        destruct (getParentNameAndOrdinal (updateIdentity set pod)) as [p o] eqn:Hp.
        assert (Name (pod_meta (updateIdentity set pod)) = getPodName set (-1)) as Hname.
        { simpl. by rewrite Hm. }
        rewrite !andb_false_iff. left. left. right. apply bool_decide_eq_false. rewrite Hname.
        unfold getOrdinal in Hn. rewrite Hp in Hn. simpl in Hn. intros Hc.
        unfold getPodName in Hc. do 2 apply (inj (String.append _)) in Hc.
        destruct (Itoa_digits o Hn) as (_ & Hd & _). rewrite <- Hc in Hd.
        change (chars (Itoa (-1))) with [dash; "1"%char] in Hd. by inversion Hd.
  - intros Ho. unfold identityMatches, getOrdinal in *.
    destruct (getParentNameAndOrdinal pod) as [p o]. simpl in Ho.
    assert ((0 <=? o) = false) as -> by lia. done.
  - intros Ho. unfold getOrdinal at 1. by rewrite updateIdentity_parent.
Qed.

Lemma identityMatches_fields set pod :
  identityMatches set pod = true ↔
  0 ≤ getOrdinal pod ∧ getParentName pod = Name (set_meta set) ∧
  Name (pod_meta pod) = getPodName set (getOrdinal pod) ∧
  Namespace (pod_meta pod) = Namespace (set_meta set) ∧
  map_get (Labels (pod_meta pod)) StatefulSetPodNameLabel = Name (pod_meta pod).
Proof.
  unfold identityMatches, getOrdinal, getParentName.
  destruct (getParentNameAndOrdinal pod) as [p o]; simpl.
  rewrite !andb_true_iff, !bool_decide_eq_true, Z.leb_le. intuition congruence.
Qed.

Lemma podInOrdinalRange_spec set pod r :
  Replicas (Spec set) = Some r →
  podInOrdinalRange pod set =
    Some (bool_decide (getStartOrdinal set ≤ getOrdinal pod < getStartOrdinal set + r)).
Proof.
  intros Hr. unfold podInOrdinalRange, getEndOrdinal. rewrite Hr. simpl.
  destruct (_ <=? getOrdinal pod) eqn:?; simpl; f_equal; apply bool_ext; rewrite bool_decide_eq_true; lia.
Qed.

Lemma getPodRevision_set pod r : getPodRevision (setPodRevision pod r) = r.
Proof. unfold getPodRevision, setPodRevision. simpl. apply map_get_set_eq. Qed.

Lemma isUnavailable_false now pod n :
  isUnavailable now pod n = false ↔
  isRunningAndAvailable now pod n = true ∧ isTerminating pod = false.
Proof. unfold isUnavailable. rewrite orb_false_iff, negb_false_iff. done. Qed.
