(* ===== verification/Claims.v ===== *)
(** * Persistent volume claims ([pkg/controller/xstatefulset/xstateful_set_utils.go])

    The claims of a pod, the volumes that mount them, and the owner references a
    claim must carry under the set's retention policy. *)
From S2P Require Export Identity.

(** ** Storage *)

Section storage.
Context `{GoRuntime}.

Definition volume_map (vs : list Volume) : gmap string Volume :=
  foldl (λ volumes volume, <[vol_Name volume := volume]> volumes) ∅ vs.

Definition storageMatches (set : XStatefulSet) (pod : Pod) : bool :=
  let ordinal := getOrdinal pod in
  if ordinal <? 0 then false
  else
    let volumes := volume_map (Volumes (pod_Spec pod)) in
    forallb
      (λ claim,
         match volumes !! Name (pvc_meta claim) with
         | None => false
         | Some volume =>
             match vol_PersistentVolumeClaim volume with
             | None => false
             | Some source =>
                 bool_decide (ClaimName source = getPersistentVolumeClaimName set claim ordinal)
             end
         end)
      (VolumeClaimTemplates (Spec set)).

(** One iteration of the loop: the claim made from a template.  [None] is the
    dereference of a nil [Selector]. *)
Definition claim_of_template (set : XStatefulSet) (ordinal : Z) (template : PersistentVolumeClaim)
    : option PersistentVolumeClaim :=
  let claim := with_meta (with_Name (getPersistentVolumeClaimName set template ordinal)) template in
  let claim := with_meta (with_Namespace (Namespace (set_meta set))) claim in
  selector ← Selector (Spec set);
  Some
    (match Labels (pvc_meta claim) with
     | Some ls => with_meta (with_Labels (Some (default ∅ (MatchLabels selector) ∪ ls))) claim
     | None => with_meta (with_Labels (MatchLabels selector)) claim
     end).

Definition getPersistentVolumeClaims (set : XStatefulSet) (pod : Pod)
    : option (gmap string PersistentVolumeClaim) :=
  let ordinal := getOrdinal pod in
  foldl
    (λ claims template,
       claims ← claims;
       claim ← claim_of_template set ordinal template;
       Some (<[Name (pvc_meta template) := claim]> claims))
    (Some ∅) (VolumeClaimTemplates (Spec set)).

Definition claim_volume (entry : string * PersistentVolumeClaim) : Volume :=
  {| vol_Name := entry.1;
     vol_PersistentVolumeClaim :=
       Some {| ClaimName := Name (pvc_meta entry.2); ReadOnly := false |};
     vol_ISCSI := None; vol_RBD := None; vol_AzureDisk := None; vol_ScaleIO := None;
     vol_Other := "" |}.

Definition updateStorage (set : XStatefulSet) (pod : Pod) : option Pod :=
  let currentVolumes := Volumes (pod_Spec pod) in
  claims ← getPersistentVolumeClaims set pod;
  let newVolumes := map claim_volume (map_range claims) in
  let kept := filter (λ v, claims !! vol_Name v = None) currentVolumes in
  Some (set_pod_Spec (set_Volumes (newVolumes ++ kept)) pod).
End storage.

(** ** Retention policy and owner references *)

Definition getPersistentVolumeClaimRetentionPolicy (set : XStatefulSet)
    : PersistentVolumeClaimRetentionPolicy :=
  match RetentionPolicy (Spec set) with
  | Some policy => policy
  | None => {| WhenDeleted := RetainPolicyType; WhenScaled := RetainPolicyType |}
  end.

Section owners.
Context `{K8s}.

Definition matchesRef `{Object A} (ref : OwnerReference) (obj : A) (gvk : GroupVersionKind) : bool :=
  bool_decide (GroupVersionString gvk = or_APIVersion ref)
  && bool_decide (gvk_Kind gvk = or_Kind ref) && bool_decide (or_Name ref = GetName obj).

(** The body of the loop of [hasUnexpectedController], recursively. *)
Fixpoint unexpected_in (refs : list OwnerReference) (set : XStatefulSet) (pod : Pod) : bool :=
  match refs with
  | [] => false
  | ownerRef :: refs =>
      if matchesRef ownerRef set controllerKind then
        if bool_decide (or_UID ownerRef ≠ GetUID set) then true else unexpected_in refs set pod
      else if matchesRef ownerRef pod podKind then
        if bool_decide (or_UID ownerRef ≠ GetUID pod) then true else unexpected_in refs set pod
      else if ptr_true (or_Controller ownerRef) then true
      else unexpected_in refs set pod
  end.

Definition hasUnexpectedController (claim : PersistentVolumeClaim) (set : XStatefulSet) (pod : Pod) : bool :=
  let policy := getPersistentVolumeClaimRetentionPolicy set in
  if bool_decide (WhenScaled policy = RetainPolicyType) && bool_decide (WhenDeleted policy = RetainPolicyType)
  then false
  else unexpected_in (GetOwnerReferences claim) set pod.

Definition hasNonControllerOwner (claim : PersistentVolumeClaim) (set : XStatefulSet) (pod : Pod) : bool :=
  existsb
    (λ ownerRef,
       (bool_decide (or_UID ownerRef = GetUID set) || bool_decide (or_UID ownerRef = GetUID pod))
       && negb (ptr_true (or_Controller ownerRef)))
    (GetOwnerReferences claim).

Definition removeRefs (refs : list OwnerReference) (predicate : OwnerReference → bool)
    : list OwnerReference :=
  foldl (λ newRefs ownerRef,
           if negb (predicate ownerRef) then newRefs ++ [ownerRef] else newRefs) [] refs.

Definition hasOwnerRef `{Object A, Object B} (target : A) (owner : B) : bool :=
  existsb (λ ownerRef, bool_decide (or_UID ownerRef = GetUID owner)) (GetOwnerReferences target).

Definition hasStaleOwnerRef `{Object A} (target : PersistentVolumeClaim) (obj : A)
    (gvk : GroupVersionKind) : bool :=
  match List.find (λ ownerRef, matchesRef ownerRef obj gvk) (GetOwnerReferences target) with
  | Some ownerRef => bool_decide (or_UID ownerRef ≠ GetUID obj)
  | None => false
  end.

Definition addControllerRef `{Object A} (refs : list OwnerReference) (owner : A)
    (gvk : GroupVersionKind) : list OwnerReference :=
  if existsb (λ ref, bool_decide (or_UID ref = GetUID owner)) refs then refs
  else refs ++ [NewControllerRef (meta owner) gvk].

(** The cases of the two [switch] statements over the policy. *)
Inductive policy_case := RetainRetain | RetainDelete | DeleteRetain | DeleteDelete | UnknownPolicy.
#[export] Instance policy_case_eq_dec : EqDecision policy_case.
Proof. solve_decision. Defined.
Definition classify (policy : PersistentVolumeClaimRetentionPolicy) : policy_case :=
  if bool_decide (WhenScaled policy = RetainPolicyType) && bool_decide (WhenDeleted policy = RetainPolicyType)
  then RetainRetain
  else if bool_decide (WhenScaled policy = RetainPolicyType) && bool_decide (WhenDeleted policy = DeletePolicyType)
  then RetainDelete
  else if bool_decide (WhenScaled policy = DeletePolicyType) && bool_decide (WhenDeleted policy = RetainPolicyType)
  then DeleteRetain
  else if bool_decide (WhenScaled policy = DeletePolicyType) && bool_decide (WhenDeleted policy = DeletePolicyType)
  then DeleteDelete
  else UnknownPolicy.

Definition isClaimOwnerUpToDate (claim : PersistentVolumeClaim) (set : XStatefulSet) (pod : Pod)
    : option bool :=
  if hasStaleOwnerRef claim set controllerKind || hasStaleOwnerRef claim pod podKind then Some true
  else if hasUnexpectedController claim set pod then
    if hasOwnerRef claim set || hasOwnerRef claim pod then Some false else Some true
  else if hasNonControllerOwner claim set pod then Some false
  else
    match classify (getPersistentVolumeClaimRetentionPolicy set) with
    | UnknownPolicy | RetainRetain =>
        Some (negb (hasOwnerRef claim set || hasOwnerRef claim pod))
    | RetainDelete =>
        Some (negb (negb (hasOwnerRef claim set) || hasOwnerRef claim pod))
    | DeleteRetain =>
        if hasOwnerRef claim set then Some false
        else
          inRange ← podInOrdinalRange pod set;
          let podScaledDown := negb inRange in
          Some (negb (xorb podScaledDown (hasOwnerRef claim pod)))
    | DeleteDelete =>
        inRange ← podInOrdinalRange pod set;
        let podScaledDown := negb inRange in
        if Bool.eqb podScaledDown (hasOwnerRef claim set) then Some false
        else if xorb podScaledDown (hasOwnerRef claim pod) then Some false
        else Some true
    end.

Definition updateClaimOwnerRefForSetAndPod (claim : PersistentVolumeClaim) (set : XStatefulSet)
    (pod : Pod) : option PersistentVolumeClaim :=
  let refs := GetOwnerReferences claim in
  let unexpectedController := hasUnexpectedController claim set pod in
  let refs :=
    removeRefs refs (λ ref, matchesRef ref set controllerKind || matchesRef ref pod podKind) in
  if unexpectedController then Some (SetOwnerReferences refs claim)
  else
    refs ←
      match classify (getPersistentVolumeClaimRetentionPolicy set) with
      | UnknownPolicy | RetainRetain => Some refs
      | RetainDelete => Some (addControllerRef refs set controllerKind)
      | DeleteRetain =>
          inRange ← podInOrdinalRange pod set;
          Some (if negb inRange then addControllerRef refs pod podKind else refs)
      | DeleteDelete =>
          inRange ← podInOrdinalRange pod set;
          Some (if negb inRange then addControllerRef refs pod podKind
                else addControllerRef refs set controllerKind)
      end;
    Some (SetOwnerReferences refs claim).
End owners.

(** ** Properties of the storage *)

Section storage_lemmas.
Lemma volume_map_snoc vs v : volume_map (vs ++ [v]) = <[vol_Name v := v]> (volume_map vs).
Proof. unfold volume_map. by rewrite foldl_app. Qed.

Lemma volume_map_lookup_app vs vs' n :
  (∀ v, v ∈ vs' → vol_Name v ≠ n) → volume_map (vs ++ vs') !! n = volume_map vs !! n.
Proof.
  induction vs' as [|v vs' IH] using rev_ind; intros Hn; [by rewrite app_nil_r|].
  rewrite (assoc_L (++)), volume_map_snoc, lookup_insert_ne by (apply Hn; set_solver).
  apply IH. set_solver.
Qed.

(** A volume whose name is unique in the list is found. *)
(** More volumes do no harm. *)
Lemma storageMatches_more set pod pod' :
  Name (pod_meta pod') = Name (pod_meta pod) →
  volume_map (Volumes (pod_Spec pod)) ⊆ volume_map (Volumes (pod_Spec pod')) →
  storageMatches set pod = true → storageMatches set pod' = true.
Proof.
  intros Hn Hsub. unfold storageMatches, getOrdinal, getParentNameAndOrdinal. rewrite Hn.
  destruct (_ <? 0); [done|]. rewrite !forallb_forall. intros Hall claim Hc. specialize (Hall claim Hc).
  destruct (volume_map (Volumes (pod_Spec pod)) !! _) as [v|] eqn:Hv; [|done].
  by rewrite (lookup_weaken _ _ _ _ Hv Hsub).
Qed.

Lemma volume_map_lookup vs v :
  v ∈ vs → (∀ v', v' ∈ vs → vol_Name v' = vol_Name v → v' = v) →
  volume_map vs !! vol_Name v = Some v.
Proof.
  induction vs as [|v0 vs IH] using rev_ind; intros Hin Hu; [by apply not_elem_of_nil in Hin|].
  rewrite volume_map_snoc. destruct (decide (vol_Name v0 = vol_Name v)) as [Heq|Hne].
  - rewrite Heq, lookup_insert_eq. f_equal. apply Hu; [set_solver|done].
  - rewrite lookup_insert_ne by done. apply IH; [|set_solver].
    apply elem_of_app in Hin as [|Hin]; [done|]. apply list_elem_of_singleton in Hin. congruence.
Qed.

(** Every template has its claim under its name, and every claim comes from a
    template of that name. *)
Lemma getPersistentVolumeClaims_lookup set pod claims n :
  getPersistentVolumeClaims set pod = Some claims →
  (n ∈ (λ t, Name (pvc_meta t)) <$> VolumeClaimTemplates (Spec set) → is_Some (claims !! n)) ∧
  (∀ claim, claims !! n = Some claim →
     ∃ t, t ∈ VolumeClaimTemplates (Spec set) ∧ Name (pvc_meta t) = n ∧
          claim_of_template set (getOrdinal pod) t = Some claim).
Proof.
  unfold getPersistentVolumeClaims. generalize (VolumeClaimTemplates (Spec set)) as ts.
  intros ts. revert claims. induction ts as [|t ts IH] using rev_ind; intros claims.
  { intros [= <-]. split; [by intros ?%not_elem_of_nil|]. intros ?. by rewrite lookup_empty. }
  rewrite foldl_app. simpl. destruct (foldl _ _ ts) as [claims0|] eqn:Hf; [|done]. simpl.
  destruct (claim_of_template _ _ t) as [c|] eqn:Hc; [|done]. intros [= <-].
  destruct (IH _ eq_refl) as [IH1 IH2].
  destruct (decide (Name (pvc_meta t) = n)) as [<-|Hne].
  - rewrite lookup_insert_eq. split; [eauto|]. intros ? [= <-]. exists t. set_solver.
  - rewrite lookup_insert_ne by done. split.
    + rewrite fmap_app, elem_of_app. intros [|Hin]; [auto|]. set_solver.
    + intros claim Hl. destruct (IH2 _ Hl) as (t' & ? & ? & ?). exists t'. set_solver.
Qed.

Lemma claim_of_template_meta set o t claim :
  claim_of_template set o t = Some claim →
  Name (pvc_meta claim) = getPersistentVolumeClaimName set t o ∧
  Namespace (pvc_meta claim) = Namespace (set_meta set).
Proof.
  unfold claim_of_template. destruct (Selector _); [|done]. simpl. intros [= <-].
  by destruct (Labels _).
Qed.

(** The name of a claim depends on the template's name alone. *)
Lemma getPersistentVolumeClaimName_ext set t t' o :
  Name (pvc_meta t) = Name (pvc_meta t') →
  getPersistentVolumeClaimName set t o = getPersistentVolumeClaimName set t' o.
Proof. unfold getPersistentVolumeClaimName. by intros ->. Qed.

End storage_lemmas.

Section storage_props.
Context `{GoLaws}.

Lemma elem_of_claim_volumes (claims : gmap string PersistentVolumeClaim) v :
  v ∈ map claim_volume (map_range claims) ↔
  ∃ n c, claims !! n = Some c ∧ v = claim_volume (n, c).
Proof.
  rewrite list_elem_of_In, in_map_iff. split.
  - intros ([n c] & <- & Hin). exists n, c. split; [|done].
    apply elem_of_map_to_list. rewrite <- map_range_perm. by apply list_elem_of_In.
  - intros (n & c & Hl & ->). exists (n, c). split; [done|]. apply list_elem_of_In.
    rewrite map_range_perm. by apply elem_of_map_to_list.
Qed.

(** [updateStorage] makes the volumes of a pod cover every claim template,
    whatever volumes the pod had and whatever order the claims are visited in,
    and it keeps every volume whose name is not that of a template. *)
Lemma updateStorage_matches set pod pod' :
  0 ≤ getOrdinal pod → updateStorage set pod = Some pod' →
  storageMatches set pod' = true ∧
  (∀ v, v ∈ Volumes (pod_Spec pod) →
     vol_Name v ∉ ((λ t, Name (pvc_meta t)) <$> VolumeClaimTemplates (Spec set)) →
     v ∈ Volumes (pod_Spec pod')) ∧
  pod_meta pod' = pod_meta pod.
Proof.
  intros Ho. unfold updateStorage.
  destruct (getPersistentVolumeClaims set pod) as [claims|] eqn:Hc; [|done]. simpl.
  intros [= <-]. split; [|split; [|done]].
  - unfold storageMatches. change (getOrdinal _) with (getOrdinal pod).
    destruct (_ <? 0) eqn:?; [lia|]. apply forallb_forall. intros t Ht. simpl.
    destruct (getPersistentVolumeClaims_lookup _ _ _ (Name (pvc_meta t)) Hc) as [Hsome Hfrom].
    destruct Hsome as [c Hl]. { apply list_elem_of_fmap. exists t. by rewrite list_elem_of_In. }
    destruct (Hfrom _ Hl) as (t' & _ & Hn & Hct).
    rewrite volume_map_lookup_app.
    + rewrite (volume_map_lookup _ (claim_volume (Name (pvc_meta t), c))); simpl.
      * destruct (claim_of_template_meta _ _ _ _ Hct) as [-> _].
        apply bool_decide_eq_true. by apply getPersistentVolumeClaimName_ext.
      * apply elem_of_claim_volumes. eauto.
      * intros v' (n' & c' & Hl' & ->)%elem_of_claim_volumes Hn'. simpl in Hn'. congruence.
    + intros v [Hv _]%list_elem_of_filter Heq. rewrite Heq, Hl in Hv. done.
  - intros v Hv Hn. simpl. apply elem_of_app. right. apply list_elem_of_filter. split; [|done].
    destruct (claims !! vol_Name v) as [c|] eqn:Hl; [|done]. destruct Hn.
    destruct (getPersistentVolumeClaims_lookup _ _ _ (vol_Name v) Hc) as [_ Hfrom].
    destruct (Hfrom _ Hl) as (t & Ht & <- & _). apply list_elem_of_fmap. by exists t.
Qed.
End storage_props.

(** ** Properties of the owner references *)

Section owner_props.
Context `{K8sLaws}.
Implicit Types (claim : PersistentVolumeClaim) (set : XStatefulSet) (pod : Pod).

(** The references of a claim that name the set or the pod are those that carry
    their UID: neither object was deleted and recreated under the same name. *)
Definition coherent claim set pod : Prop :=
  GetUID set ≠ GetUID pod ∧
  Forall (λ r, matchesRef r set controllerKind = bool_decide (or_UID r = GetUID set) ∧
               matchesRef r pod podKind = bool_decide (or_UID r = GetUID pod))
         (GetOwnerReferences claim).

(** A reference to neither. *)
Definition foreign set pod (r : OwnerReference) : bool :=
  negb (matchesRef r set controllerKind || matchesRef r pod podKind).

(** The owners the retention policy asks for. *)
Definition wanted_owners set pod : option (list OwnerReference) :=
  match classify (getPersistentVolumeClaimRetentionPolicy set) with
  | UnknownPolicy | RetainRetain => Some []
  | RetainDelete => Some [NewControllerRef (meta set) controllerKind]
  | DeleteRetain =>
      inRange ← podInOrdinalRange pod set;
      Some (if negb inRange then [NewControllerRef (meta pod) podKind] else [])
  | DeleteDelete =>
      inRange ← podInOrdinalRange pod set;
      Some [if negb inRange then NewControllerRef (meta pod) podKind
            else NewControllerRef (meta set) controllerKind]
  end.

Lemma removeRefs_filter refs f : removeRefs refs f = List.filter (λ r, negb (f r)) refs.
Proof.
  unfold removeRefs. induction refs as [|r refs IH] using rev_ind; [done|].
  rewrite foldl_app, List.filter_app. simpl. rewrite IH.
  destruct (f r); simpl; [by rewrite app_nil_r|done].
Qed.

Lemma matchesRef_NewControllerRef `{Object A} (x : A) k :
  matchesRef (NewControllerRef (meta x) k) x k = true.
Proof.
  rewrite NewControllerRef_fields. unfold matchesRef. simpl. by rewrite !bool_decide_eq_true_2.
Qed.

Lemma matchesRef_kind `{Object A, Object B} (x : A) (y : B) k k' :
  gvk_Kind k ≠ gvk_Kind k' → matchesRef (NewControllerRef (meta y) k) x k' = false.
Proof.
  intros Hk. rewrite NewControllerRef_fields. unfold matchesRef. simpl.
  rewrite (bool_decide_eq_false_2 (gvk_Kind k' = _)) by congruence. by rewrite andb_false_r.
Qed.

Lemma NewControllerRef_UID m k : or_UID (NewControllerRef m k) = UID m.
Proof. by rewrite NewControllerRef_fields. Qed.
Lemma NewControllerRef_Controller m k : ptr_true (or_Controller (NewControllerRef m k)) = true.
Proof. by rewrite NewControllerRef_fields. Qed.

(** A claim none of whose references name the set or the pod. *)
Definition clean set pod (refs : list OwnerReference) : Prop :=
  Forall (λ r, matchesRef r set controllerKind = false ∧ matchesRef r pod podKind = false ∧
               or_UID r ≠ GetUID set ∧ or_UID r ≠ GetUID pod) refs.

Lemma clean_scrubbed claim set pod :
  coherent claim set pod → clean set pod (List.filter (foreign set pod) (GetOwnerReferences claim)).
Proof.
  intros [_ Hc]. apply List.Forall_forall. intros r [Hin Hf]%filter_In.
  rewrite List.Forall_forall in Hc. destruct (Hc r Hin) as [Hs Hp]. unfold foreign in Hf.
  apply negb_true_iff, orb_false_iff in Hf as [Hf1 Hf2]. rewrite Hf1 in Hs. rewrite Hf2 in Hp.
  symmetry in Hs, Hp. by apply bool_decide_eq_false in Hs, Hp.
Qed.

Lemma unexpected_clean set pod refs extra :
  clean set pod refs →
  unexpected_in (refs ++ extra) set pod =
    existsb (λ r, ptr_true (or_Controller r)) refs || unexpected_in extra set pod.
Proof.
  induction 1 as [|r refs (Hs & Hp & _) Hrefs IH]; simpl; [done|].
  rewrite Hs, Hp, IH. by destruct (ptr_true _).
Qed.

Lemma unexpected_coherent set pod refs :
  Forall (λ r, matchesRef r set controllerKind = bool_decide (or_UID r = GetUID set) ∧
               matchesRef r pod podKind = bool_decide (or_UID r = GetUID pod)) refs →
  unexpected_in refs set pod =
    existsb (λ r, ptr_true (or_Controller r)) (List.filter (foreign set pod) refs).
Proof.
  induction 1 as [|r refs [Hs Hp] Hrefs IH]; simpl; [done|]. unfold foreign at 1.
  rewrite IH, Hs, Hp.
  dec (or_UID r = GetUID set) as Hus; simpl.
  { by rewrite bool_decide_eq_false_2 by (intros ?; congruence). }
  dec (or_UID r = GetUID pod) as Hup; simpl.
  { by rewrite bool_decide_eq_false_2 by (intros ?; congruence). }
  by destruct (ptr_true _).
Qed.

(** The tests of [isClaimOwnerUpToDate] on a clean claim with extra owners. *)
Lemma hasOwnerRef_clean `{Object B} claim set pod refs extra (owner : B) :
  clean set pod refs → GetUID owner = GetUID set ∨ GetUID owner = GetUID pod →
  hasOwnerRef (SetOwnerReferences (refs ++ extra) claim) owner =
    existsb (λ r, bool_decide (or_UID r = GetUID owner)) extra.
Proof.
  intros Hc Ho. unfold hasOwnerRef, GetOwnerReferences. simpl. rewrite existsb_app.
  replace (existsb _ refs) with false; [done|]. symmetry. apply not_true_iff_false.
  intros (r & Hin & Hr)%existsb_exists. apply bool_decide_eq_true in Hr.
  unfold clean in Hc. rewrite List.Forall_forall in Hc.
  destruct (Hc r Hin) as (_ & _ & Hns & Hnp). destruct Ho; congruence.
Qed.

Lemma hasStaleOwnerRef_clean `{Object B} claim refs extra (owner : B) k :
  Forall (λ r, matchesRef r owner k = false) refs →
  Forall (λ r, matchesRef r owner k = true → or_UID r = GetUID owner) extra →
  hasStaleOwnerRef (SetOwnerReferences (refs ++ extra) claim) owner k = false.
Proof.
  intros Hr He. unfold hasStaleOwnerRef, GetOwnerReferences. simpl.
  assert (Forall (λ r, matchesRef r owner k = true → or_UID r = GetUID owner) (refs ++ extra)) as Hall.
  { apply Forall_app. split; [|done]. eapply List.Forall_impl; [|exact Hr]. by intros ? ->. }
  destruct (List.find _ _) as [r|] eqn:Hf; [|done].
  apply find_some in Hf as [Hin Hm]. rewrite List.Forall_forall in Hall.
  apply bool_decide_eq_false. intros Hn. apply Hn, (Hall r Hin Hm).
Qed.

Lemma hasNonControllerOwner_clean claim set pod refs extra :
  clean set pod refs → Forall (λ r, ptr_true (or_Controller r) = true) extra →
  hasNonControllerOwner (SetOwnerReferences (refs ++ extra) claim) set pod = false.
Proof.
  intros Hc He. unfold hasNonControllerOwner, GetOwnerReferences. simpl.
  apply not_true_iff_false. intros (r & [Hin|Hin]%in_app_or & Hr)%existsb_exists.
  - unfold clean in Hc. rewrite List.Forall_forall in Hc. destruct (Hc r Hin) as (_ & _ & Hns & Hnp).
    by rewrite !bool_decide_eq_false_2 in Hr.
  - rewrite List.Forall_forall in He. rewrite (He r Hin), andb_false_r in Hr. done.
Qed.

Definition scrubbed claim set pod : list OwnerReference :=
  List.filter (foreign set pod) (GetOwnerReferences claim).

Lemma scrub_filter claim set pod :
  removeRefs (GetOwnerReferences claim)
    (λ ref, matchesRef ref set controllerKind || matchesRef ref pod podKind) =
  scrubbed claim set pod.
Proof. apply removeRefs_filter. Qed.

Lemma addControllerRef_clean `{Object B} set pod refs (owner : B) k :
  clean set pod refs → GetUID owner = GetUID set ∨ GetUID owner = GetUID pod →
  addControllerRef refs owner k = refs ++ [NewControllerRef (meta owner) k].
Proof.
  intros Hc Ho. unfold addControllerRef.
  destruct (existsb _ _) eqn:He; [|done]. exfalso.
  apply existsb_exists in He as (r & Hin & Hr). apply bool_decide_eq_true in Hr.
  unfold clean in Hc. rewrite List.Forall_forall in Hc.
  destruct (Hc r Hin) as (_ & _ & Hns & Hnp). destruct Ho; congruence.
Qed.

(** What [updateClaimOwnerRefForSetAndPod] writes.  References to other
    objects are all kept, in their order; the references to the set and the pod
    are replaced by those the retention policy asks for, or by none when another
    controller manages the claim. *)
Lemma updateClaimOwnerRef_refs claim set pod :
  coherent claim set pod →
  updateClaimOwnerRefForSetAndPod claim set pod =
    (if hasUnexpectedController claim set pod
     then Some (SetOwnerReferences (scrubbed claim set pod) claim)
     else wanted ← wanted_owners set pod;
          Some (SetOwnerReferences (scrubbed claim set pod ++ wanted) claim)).
Proof.
  intros Hc. pose proof (clean_scrubbed _ _ _ Hc) as Hclean.
  unfold updateClaimOwnerRefForSetAndPod. rewrite scrub_filter.
  destruct (hasUnexpectedController _ _ _); [done|].
  unfold wanted_owners. destruct (classify _); simpl.
  - by rewrite app_nil_r.
  - by rewrite (addControllerRef_clean set pod) by auto.
  - destruct (podInOrdinalRange pod set) as [[]|]; simpl; [by rewrite app_nil_r| |done].
    by rewrite (addControllerRef_clean set pod) by auto.
  - destruct (podInOrdinalRange pod set) as [[]|]; simpl; [| |done];
      by rewrite (addControllerRef_clean set pod) by auto.
  - by rewrite app_nil_r.
Qed.

(** The references the policy asks for are controller references to the set or
    to the pod. *)
Lemma wanted_owners_refs set pod w :
  wanted_owners set pod = Some w →
  Forall (λ r, r = NewControllerRef (meta set) controllerKind ∨
               r = NewControllerRef (meta pod) podKind) w.
Proof.
  unfold wanted_owners. destruct (classify _); simpl; try (intros [= <-]; by auto).
  - destruct (podInOrdinalRange _ _) as [[]|]; simpl; try done; intros [= <-]; auto.
  - destruct (podInOrdinalRange _ _) as [[]|]; simpl; try done; intros [= <-]; auto.
Qed.

Lemma wanted_not_stale set pod w :
  wanted_owners set pod = Some w →
  Forall (λ r, matchesRef r set controllerKind = true → or_UID r = GetUID set) w ∧
  Forall (λ r, matchesRef r pod podKind = true → or_UID r = GetUID pod) w ∧
  Forall (λ r, ptr_true (or_Controller r) = true) w ∧
  unexpected_in w set pod = false.
Proof.
  intros Hw%wanted_owners_refs. induction Hw as [|r w Hr Hw (IH1 & IH2 & IH3 & IH4)]; [done|].
  repeat split; try constructor; try done; simpl; destruct Hr as [-> | ->];
    rewrite ?matchesRef_NewControllerRef, ?matchesRef_kind, ?NewControllerRef_UID,
      ?NewControllerRef_Controller by done; simpl; try done;
    by rewrite bool_decide_eq_false_2 by auto.
Qed.

Lemma hasUnexpectedController_set claim set pod refs :
  hasUnexpectedController (SetOwnerReferences refs claim) set pod =
    negb (bool_decide (classify (getPersistentVolumeClaimRetentionPolicy set) = RetainRetain))
    && unexpected_in refs set pod.
Proof.
  unfold hasUnexpectedController, classify. destruct (_ && _); [done|].
  rewrite bool_decide_eq_false_2; [done|]. by repeat case_match.
Qed.

Lemma hasUnexpectedController_coherent claim set pod :
  coherent claim set pod →
  hasUnexpectedController claim set pod =
    negb (bool_decide (classify (getPersistentVolumeClaimRetentionPolicy set) = RetainRetain))
    && existsb (λ r, ptr_true (or_Controller r)) (scrubbed claim set pod).
Proof.
  intros [_ Hc]. unfold scrubbed. rewrite <- unexpected_coherent by done.
  replace claim with (SetOwnerReferences (GetOwnerReferences claim) claim) at 1
    by (by destruct claim as [[] ?]).
  apply hasUnexpectedController_set.
Qed.

(** The policy's test holds of the owners it asks for. *)
Lemma wanted_owners_policy claim set pod refs w :
  GetUID set ≠ GetUID pod → clean set pod refs → wanted_owners set pod = Some w →
  hasUnexpectedController (SetOwnerReferences (refs ++ w) claim) set pod = false →
  isClaimOwnerUpToDate (SetOwnerReferences (refs ++ w) claim) set pod = Some true.
Proof.
  intros Hne Hc Hw Hun. unfold isClaimOwnerUpToDate.
  destruct (wanted_not_stale _ _ _ Hw) as (Hs1 & Hs2 & Hs3 & Hs4).
  rewrite Hun, !hasStaleOwnerRef_clean, hasNonControllerOwner_clean; try done;
    try (eapply List.Forall_impl; [|exact Hc]; simpl; tauto).
  cbn [orb]. rewrite !(hasOwnerRef_clean _ set pod) by auto.
  clear Hs1 Hs2 Hs3 Hs4 Hun. revert Hw Hne. unfold wanted_owners, GetUID. simpl.
  destruct (classify _); simpl; try (intros [= <-]; simpl);
    try (destruct (podInOrdinalRange _ _) as [[]|]; simpl; [| |done]; intros [= <-]; simpl);
    intros Hne; rewrite ?NewControllerRef_UID;
    rewrite ?(bool_decide_eq_false_2 (UID (pod_meta pod) = UID (set_meta set))),
      ?(bool_decide_eq_false_2 (UID (set_meta set) = UID (pod_meta pod))),
      ?bool_decide_eq_true_2 by congruence; done.
Qed.

(** Repair converges in one step: after [updateClaimOwnerRefForSetAndPod]
    the claim is up to date, under every retention policy, also when another
    controller manages the claim. *)
Lemma updateClaimOwnerRef_uptodate claim set pod claim' :
  coherent claim set pod →
  updateClaimOwnerRefForSetAndPod claim set pod = Some claim' →
  isClaimOwnerUpToDate claim' set pod = Some true.
Proof.
  intros Hc. pose proof (clean_scrubbed _ _ _ Hc) as Hclean. fold (scrubbed claim set pod) in Hclean.
  rewrite updateClaimOwnerRef_refs, hasUnexpectedController_coherent by done.
  destruct (negb _ && _) eqn:Hun.
  - intros <-%(inj Some). rewrite <- (app_nil_r (scrubbed _ _ _)). unfold isClaimOwnerUpToDate.
    rewrite hasUnexpectedController_set, unexpected_clean, orb_false_r, Hun by done.
    rewrite !hasStaleOwnerRef_clean, !(hasOwnerRef_clean _ set pod); auto; try done;
      eapply List.Forall_impl; try exact Hclean; simpl; tauto.
  - destruct (wanted_owners _ _) as [w|] eqn:Hw; [|done]. intros <-%(inj Some).
    apply wanted_owners_policy; auto. { apply Hc. }
    rewrite hasUnexpectedController_set, unexpected_clean by done.
    destruct (wanted_not_stale _ _ _ Hw) as (_ & _ & _ & ->). by rewrite orb_false_r.
Qed.
End owner_props.
