(* ===== verification/RefManager.v ===== *)
(** * Adoption and release of objects ([pkg/controller/controller_ref_manager.go]) *)
From S2P Require Export Boundary.

(** ** Patches *)

Definition ownerReference (uid patchType : string) : gmap string string :=
  <["uid" := uid]> {["$patch" := patchType]}.

Section patches.
Context `{K8s}.

Definition ownerRefControllerPatch (controller : ObjectMeta) (controllerKind : GroupVersionKind)
    (uid : string) (finalizers : list string) : patch :=
  AddOwnerRefPatch uid
    [{| or_APIVersion := GroupVersionString controllerKind; or_Kind := gvk_Kind controllerKind;
        or_Name := Name controller; or_UID := UID controller; or_Controller := Some true;
        or_BlockOwnerDeletion := Some true |}]
    finalizers.

Definition GenerateDeleteOwnerRefStrategicMergeBytes (dependentUID : string)
    (ownerUIDs finalizers : list string) : patch :=
  DeleteOwnerRefPatch dependentUID (map (λ ownerUID, ownerReference ownerUID "delete") ownerUIDs)
    finalizers.
End patches.

(** ** The base manager *)

Section base.
Context `{K8s}.

(** [BaseControllerRefManager]: its constant fields. *)
Record BaseControllerRefManager := {
  Controller : ObjectMeta;
  m_Selector : selector;
  CanAdoptFunc : option (go (option error)) }.

(** [canAdoptOnce] and [canAdoptErr]: [None] before the first call. *)
Definition canAdoptOnce : Type := option (option error).

Definition CanAdopt (m : BaseControllerRefManager) (once : canAdoptOnce)
    : go (option error * canAdoptOnce) :=
  match once with
  | Some canAdoptErr => mret (canAdoptErr, once)
  | None =>
      canAdoptErr ← match CanAdoptFunc m with Some f => f | None => mret None end;
      mret (canAdoptErr, Some canAdoptErr)
  end.

(** [adopt] and [release] thread the state of [canAdoptOnce]. *)
Definition ClaimObject `{Object A} (m : BaseControllerRefManager) (obj : A) (matches : A → bool)
    (adopt release : A → canAdoptOnce → go (option error * canAdoptOnce)) (once : canAdoptOnce)
    : go ((bool * option error) * canAdoptOnce) :=
  match GetControllerOf (GetOwnerReferences obj) with
  | Some controllerRef =>
      if bool_decide (or_UID controllerRef ≠ UID (Controller m)) then mret ((false, None), once)
      else if matches obj then mret ((true, None), once)
      else if bool_decide (DeletionTimestamp (Controller m) ≠ None) then mret ((false, None), once)
      else
        '(err, once) ← release obj once;
        match err with
        | Some err => if IsNotFound err then mret ((false, None), once)
                      else mret ((false, Some err), once)
        | None => mret ((false, None), once)
        end
  | None =>
      if bool_decide (DeletionTimestamp (Controller m) ≠ None) || negb (matches obj)
      then mret ((false, None), once)
      else if bool_decide (DeletionTimestamp (meta obj) ≠ None) then mret ((false, None), once)
      else if (0 <? Z.of_nat (String.length (Namespace (Controller m))))
              && bool_decide (Namespace (Controller m) ≠ GetNamespace obj)
      then mret ((false, None), once)
      else
        '(err, once) ← adopt obj once;
        match err with
        | Some err => if IsNotFound err then mret ((false, None), once)
                      else mret ((false, Some err), once)
        | None => mret ((true, None), once)
        end
  end.

(** The loop shared by the three [Claim...] methods. *)
Fixpoint claim_loop `{Object A} (m : BaseControllerRefManager) (matches : A → bool)
    (adopt release : A → canAdoptOnce → go (option error * canAdoptOnce))
    (objs : list A) (once : canAdoptOnce) (claimed : list A) (errlist : list (option error))
    : go (list A * option error) :=
  match objs with
  | [] => mret (claimed, NewAggregate errlist)
  | obj :: objs =>
      '(r, once) ← ClaimObject m obj matches adopt release once;
      match r with
      | (_, Some err) => claim_loop m matches adopt release objs once claimed (errlist ++ [Some err])
      | (ok, None) =>
          claim_loop m matches adopt release objs once
            (if ok : bool then claimed ++ [obj] else claimed) errlist
      end
  end.
End base.

(** ** Managers of pods, replica sets and revisions *)

Section managers.
Context `{K8s}.

Definition cant_adopt (kind : string) (o : ObjectMeta) (err : error) : error :=
  Errorf ("can't adopt " +:+ kind +:+ " " +:+ Namespace o +:+ "/" +:+ Name o +:+ " ("
          +:+ UID o +:+ "): " +:+ Error err) None.

(** [if errors.IsNotFound(err) || errors.IsInvalid(err) { return nil }] *)
Definition ignore_gone (err : option error) : option error :=
  match err with
  | Some e => if IsNotFound e then None else if IsInvalid e then None else err
  | None => None
  end.

(** The constructors of the three managers: the base manager they embed; the kind of
    the controller and the finalizers are arguments of the methods, and the control is
    the environment. *)
Definition NewPodControllerRefManager (controller : ObjectMeta) (sel : selector)
    (canAdopt : option (go (option error))) : BaseControllerRefManager :=
  {| Controller := controller; m_Selector := sel; CanAdoptFunc := canAdopt |}.
Definition NewReplicaSetControllerRefManager (controller : ObjectMeta) (sel : selector)
    (canAdopt : option (go (option error))) : BaseControllerRefManager :=
  {| Controller := controller; m_Selector := sel; CanAdoptFunc := canAdopt |}.
Definition NewControllerRevisionControllerRefManager (controller : ObjectMeta) (sel : selector)
    (canAdopt : option (go (option error))) : BaseControllerRefManager :=
  {| Controller := controller; m_Selector := sel; CanAdoptFunc := canAdopt |}.

(** *** Pods *)

Definition AdoptPod (m : BaseControllerRefManager) (kind : GroupVersionKind)
    (finalizers : list string) (pod : Pod) (once : canAdoptOnce)
    : go (option error * canAdoptOnce) :=
  '(err, once) ← CanAdopt m once;
  match err with
  | Some err => mret (Some (cant_adopt "Pod" (pod_meta pod) err), once)
  | None =>
      err ← call (PodsPatch (Namespace (pod_meta pod)) (Name (pod_meta pod))
                    (ownerRefControllerPatch (Controller m) kind (UID (pod_meta pod)) finalizers));
      mret (err, once)
  end.

Definition ReleasePod (m : BaseControllerRefManager) (finalizers : list string) (pod : Pod)
    (once : canAdoptOnce) : go (option error * canAdoptOnce) :=
  err ← call (PodsPatch (Namespace (pod_meta pod)) (Name (pod_meta pod))
                (GenerateDeleteOwnerRefStrategicMergeBytes (UID (pod_meta pod))
                   [UID (Controller m)] finalizers));
  mret (ignore_gone err, once).

(** [match] of [ClaimPods]: the selector first, then every filter. *)
Definition pod_match (m : BaseControllerRefManager) (filters : list (Pod → bool)) (pod : Pod) : bool :=
  if negb (Matches (m_Selector m) (Labels (pod_meta pod))) then false
  else forallb (λ filter, filter pod) filters.

Definition ClaimPods (m : BaseControllerRefManager) (kind : GroupVersionKind)
    (finalizers : list string) (pods : list Pod) (filters : list (Pod → bool))
    : go (list Pod * option error) :=
  claim_loop m (pod_match m filters) (AdoptPod m kind finalizers) (ReleasePod m finalizers)
    pods None [] [].

(** *** Replica sets *)

Definition AdoptReplicaSet (m : BaseControllerRefManager) (kind : GroupVersionKind)
    (rs : ReplicaSet) (once : canAdoptOnce) : go (option error * canAdoptOnce) :=
  '(err, once) ← CanAdopt m once;
  match err with
  | Some err => mret (Some (cant_adopt "ReplicaSet" (rs_meta rs) err), once)
  | None =>
      err ← call (ReplicaSetsPatch (Namespace (rs_meta rs)) (Name (rs_meta rs))
                    (ownerRefControllerPatch (Controller m) kind (UID (rs_meta rs)) []));
      mret (err, once)
  end.

Definition ReleaseReplicaSet (m : BaseControllerRefManager) (rs : ReplicaSet)
    (once : canAdoptOnce) : go (option error * canAdoptOnce) :=
  err ← call (ReplicaSetsPatch (Namespace (rs_meta rs)) (Name (rs_meta rs))
                (GenerateDeleteOwnerRefStrategicMergeBytes (UID (rs_meta rs))
                   [UID (Controller m)] []));
  mret (ignore_gone err, once).

Definition ClaimReplicaSets (m : BaseControllerRefManager) (kind : GroupVersionKind)
    (sets : list ReplicaSet) : go (list ReplicaSet * option error) :=
  claim_loop m (λ rs, Matches (m_Selector m) (Labels (rs_meta rs)))
    (AdoptReplicaSet m kind) (ReleaseReplicaSet m) sets None [] [].

(** *** Controller revisions *)

Definition AdoptRevision (m : BaseControllerRefManager) (kind : GroupVersionKind)
    (history : Rev) (once : canAdoptOnce) : go (option error * canAdoptOnce) :=
  '(err, once) ← CanAdopt m once;
  match err with
  | Some err => mret (Some (cant_adopt "ControllerRevision" (cr_meta history) err), once)
  | None =>
      r ← call (RevisionsPatch (Namespace (cr_meta history)) (Name (cr_meta history))
                  (ownerRefControllerPatch (Controller m) kind (UID (cr_meta history)) []));
      mret (err_of r, once)
  end.

Definition ReleaseRevision (m : BaseControllerRefManager) (history : Rev)
    (once : canAdoptOnce) : go (option error * canAdoptOnce) :=
  r ← call (RevisionsPatch (Namespace (cr_meta history)) (Name (cr_meta history))
              (GenerateDeleteOwnerRefStrategicMergeBytes (UID (cr_meta history))
                 [UID (Controller m)] []));
  mret (ignore_gone (err_of r), once).

Definition ClaimControllerRevisions (m : BaseControllerRefManager) (kind : GroupVersionKind)
    (histories : list Rev) : go (list Rev * option error) :=
  claim_loop m (λ h, Matches (m_Selector m) (Labels (cr_meta h)))
    (AdoptRevision m kind) (ReleaseRevision m) histories None [] [].

(** [RecheckDeletionTimestamp]; the message omits the time. *)
Definition RecheckDeletionTimestamp (getObject : go (ObjectMeta + error)) : go (option error) :=
  r ← getObject;
  match r with
  | inr err => mret (Some (Errorf ("can't recheck DeletionTimestamp: " +:+ Error err) None))
  | inl obj =>
      if bool_decide (DeletionTimestamp obj ≠ None)
      then mret (Some (Errorf (Namespace obj +:+ "/" +:+ Name obj +:+ " has just been deleted") None))
      else mret None
  end.
End managers.

(** ** Properties *)

Section props.
Context `{K8s}.

Section generic.
Context `{Object A} (m : BaseControllerRefManager) (matches : A → bool).

(** The object's controller is this manager's. *)
Definition owned (obj : A) : bool :=
  match GetControllerOf (GetOwnerReferences obj) with
  | Some ref => bool_decide (or_UID ref = UID (Controller m))
  | None => false
  end.

(** The only objects the manager may adopt, and the only ones it may release. *)
Definition adoptable (obj : A) : Prop :=
  GetControllerOf (GetOwnerReferences obj) = None ∧
  matches obj = true ∧ DeletionTimestamp (Controller m) = None ∧
  DeletionTimestamp (meta obj) = None ∧
  (Namespace (Controller m) = "" ∨ Namespace (Controller m) = GetNamespace obj).
Definition releasable (obj : A) : Prop :=
  owned obj = true ∧ matches obj = false ∧ DeletionTimestamp (Controller m) = None.

Lemma length_zero_string s : (0 <? Z.of_nat (String.length s)) = false → s = "".
Proof. destruct s; [done|]. simpl. lia. Qed.

Context (Adm : obs reply → Prop) (I : list (obs reply) → api_call → Prop) (J : canAdoptOnce → list (obs reply) → Prop).
Context (adopt release : A → canAdoptOnce → go (option error * canAdoptOnce)).
Context (objs : list A).
Hypothesis Hadopt : ∀ obj once tr, obj ∈ objs → adoptable obj → J once tr →
  wp Adm I (adopt obj once) (λ tr' o, ∃ r, o = Some r ∧ J r.2 tr') tr.
Hypothesis Hrelease : ∀ obj once tr, obj ∈ objs → releasable obj → J once tr →
  wp Adm I (release obj once) (λ tr' o, ∃ r, o = Some r ∧ J r.2 tr') tr.

Ltac ret_claim :=
  apply wp_ret; eexists; split; [reflexivity|]; simpl;
  repeat split; try done; auto; intros; exfalso; congruence.

(** One object: what is claimed, and that nothing else is patched. *)
Lemma ClaimObject_wp obj once tr :
  obj ∈ objs → J once tr →
  wp Adm I (ClaimObject m obj matches adopt release once)
    (λ tr' o, ∃ r, o = Some r ∧ J r.2 tr' ∧
       (r.1.1 = true → matches obj = true ∧ (owned obj = true ∨ adoptable obj)) ∧
       (owned obj = true → matches obj = true → r.1 = (true, None))) tr.
Proof.
  intros Hin HJ. unfold ClaimObject, owned.
  destruct (GetControllerOf _) as [ref|] eqn:Href.
  - dec (or_UID ref = UID (Controller m)) as Hu;
      [rewrite bool_decide_eq_false_2 by auto|rewrite bool_decide_eq_true_2 by done; ret_claim].
    destruct (matches obj) eqn:Hm; [ret_claim|].
    dec (DeletionTimestamp (Controller m) = None) as Hd;
      [rewrite bool_decide_eq_false_2 by auto|rewrite bool_decide_eq_true_2 by done; ret_claim].
    eapply wp_seq.
    + apply Hrelease; [done| |done]. split; [|done].
      unfold owned. rewrite Href. by apply bool_decide_eq_true.
    + intros tr' [[err|] once'] HJ'; [destruct (IsNotFound err)|]; ret_claim.
  - dec (DeletionTimestamp (Controller m) = None) as Hd;
      [rewrite bool_decide_eq_false_2 by auto|rewrite bool_decide_eq_true_2 by done; ret_claim].
    destruct (matches obj) eqn:Hm; simpl; [|ret_claim].
    dec (DeletionTimestamp (meta obj) = None) as Ho;
      [rewrite bool_decide_eq_false_2 by auto|rewrite bool_decide_eq_true_2 by done; ret_claim].
    destruct (_ && _) eqn:Hns; [ret_claim|].
    assert (adoptable obj) as Had.
    { repeat split; try done.
      apply andb_false_iff in Hns as [Hns|Hns]; [left; by apply length_zero_string|right].
      apply bool_decide_eq_false in Hns. by apply dec_stable. }
    eapply wp_seq; [by apply Hadopt|].
    intros tr' [[err|] once'] HJ'; [destruct (IsNotFound err)|]; ret_claim.
Qed.
Lemma claim_loop_wp objs' once claimed errs tr :
  (∀ x, x ∈ objs' → x ∈ objs) → J once tr →
  wp Adm I (claim_loop m matches adopt release objs' once claimed errs)
    (λ tr' o, ∃ res err once', o = Some (claimed ++ res, err) ∧ J once' tr' ∧
       res `sublist_of` objs' ∧
       Forall (λ x, matches x = true ∧ (owned x = true ∨ adoptable x)) res ∧
       (∀ x, x ∈ objs' → owned x = true → matches x = true → x ∈ res)) tr.
Proof.
  revert once claimed errs tr. induction objs' as [|x objs' IH]; intros once claimed errs tr Hin HJ.
  { apply wp_ret. exists [], (NewAggregate errs), once. rewrite app_nil_r.
    split_and!; [done|done|constructor|constructor|]. by intros ? ?%not_elem_of_nil. }
  simpl. eapply wp_seq; [apply ClaimObject_wp; [apply Hin; left|done]|].
  intros tr' [[ok oerr] once'] (HJ' & Hok & Hown). simpl in *.
  assert (∀ claimed' errs' res0,
    claimed' = claimed ++ res0 → (res0 = [] ∧ (owned x = true → matches x = true → False)) ∨
    (res0 = [x] ∧ matches x = true ∧ (owned x = true ∨ adoptable x)) →
    wp Adm I (claim_loop m matches adopt release objs' once' claimed' errs')
    (λ tr' o, ∃ res err once', o = Some (claimed ++ res, err) ∧ J once' tr' ∧
       res `sublist_of` x :: objs' ∧
       Forall (λ x, matches x = true ∧ (owned x = true ∨ adoptable x)) res ∧
       (∀ y, y ∈ x :: objs' → owned y = true → matches y = true → y ∈ res)) tr') as Hgo.
  { intros claimed' errs' res0 -> Hres0.
    eapply wp_mono; [|apply IH; [intros; apply Hin; by right|done]].
    intros tr'' o (res & err & once'' & -> & HJ'' & Hsub & Hall & Hcomp).
    exists (res0 ++ res), err, once''. rewrite (assoc_L (++)).
    split_and!; [done|done| | |].
    - destruct Hres0 as [[-> _]|[-> _]]; [by constructor|by apply sublist_skip].
    - apply Forall_app. split; [|done]. destruct Hres0 as [[-> _]|[-> ?]]; auto.
    - intros y [->|Hy]%elem_of_cons Ho Hm; apply elem_of_app; [left|right; by apply Hcomp].
      destruct Hres0 as [[-> Hno]|[-> _]]; [exfalso; eauto|set_solver]. }
  destruct oerr as [err|].
  - apply (Hgo _ _ []); [by rewrite app_nil_r|]. left. split; [done|].
    intros Ho Hm. by specialize (Hown Ho Hm).
  - destruct ok; [apply (Hgo _ _ [x]); [done|]; right; by auto|].
    apply (Hgo _ _ []); [by rewrite app_nil_r|]. left. split; [done|].
    intros Ho Hm. by specialize (Hown Ho Hm).
Qed.
End generic.

(** A manager that is being deleted only sorts its objects: no call at all. *)
Lemma claim_loop_deleted `{Object A} m (matches : A → bool) adopt release objs once claimed errs :
  DeletionTimestamp (Controller m) ≠ None →
  claim_loop m matches adopt release objs once claimed errs =
    Ret (claimed ++ List.filter (λ x, owned m x && matches x) objs, NewAggregate errs).
Proof.
  intros Hd. revert claimed. induction objs as [|x objs IH]; intros claimed; simpl.
  { by rewrite app_nil_r. }
  unfold ClaimObject, owned at 1. rewrite !(bool_decide_eq_true_2 (DeletionTimestamp _ ≠ None)) by done.
  destruct (GetControllerOf _) as [ref|]; simpl; [|apply IH].
  dec (or_UID ref = UID (Controller m)) as Hu.
  - rewrite bool_decide_eq_false_2 by auto. destruct (matches x); simpl; rewrite IH; [|done].
    by rewrite <- (assoc_L (++)).
  - rewrite bool_decide_eq_true_2 by done. simpl. apply IH.
Qed.

(** While the set is being deleted [ClaimPods] makes no call: it neither
    adopts nor releases, and returns the pods the set controls that match. *)
Theorem ClaimPods_deleted `{!K8sLaws} m kind finalizers pods filters :
  DeletionTimestamp (Controller m) ≠ None →
  ClaimPods m kind finalizers pods filters =
    Ret (List.filter (λ p, owned m p && pod_match m filters p) pods, None).
Proof.
  intros Hd. unfold ClaimPods. rewrite claim_loop_deleted by done.
  by rewrite (proj2 (NewAggregate_None [])).
Qed.

(** *** What [ClaimPods] may do *)

Definition is_patch (e : api_call) : Prop :=
  match e with PodsPatch _ _ _ => True | _ => False end.

(** A pod is wanted when the selector accepts its labels and every filter accepts it. *)
Definition wanted (m : BaseControllerRefManager) (filters : list (Pod → bool)) (pod : Pod) : Prop :=
  Matches (m_Selector m) (Labels (pod_meta pod)) = true ∧ Forall (λ f : Pod → bool, f pod = true) filters.

(** The pod's controller is the manager's, or it has none. *)
Definition own_pod (m : BaseControllerRefManager) (pod : Pod) : Prop :=
  ∃ ref, GetControllerOf (OwnerReferences (pod_meta pod)) = Some ref ∧ or_UID ref = UID (Controller m).
Definition live_orphan (m : BaseControllerRefManager) (pod : Pod) : Prop :=
  GetControllerOf (OwnerReferences (pod_meta pod)) = None ∧ DeletionTimestamp (pod_meta pod) = None ∧
  (Namespace (Controller m) = "" ∨ Namespace (Controller m) = Namespace (pod_meta pod)).

(** The calls [ClaimPods] may make on [pods]: adoption adds the manager's
    controller reference to a live orphan it wants, release deletes it from a pod
    of its own that it does not want. *)
Definition claim_call (m : BaseControllerRefManager) (kind : GroupVersionKind)
    (finalizers : list string) (pods : list Pod) (filters : list (Pod → bool)) (e : api_call) : Prop :=
  match e with
  | PodsPatch ns name p =>
      DeletionTimestamp (Controller m) = None ∧
      ∃ pod, pod ∈ pods ∧ ns = Namespace (pod_meta pod) ∧ name = Name (pod_meta pod) ∧
        ((live_orphan m pod ∧ wanted m filters pod ∧
          p = AddOwnerRefPatch (UID (pod_meta pod))
                [{| or_APIVersion := GroupVersionString kind; or_Kind := gvk_Kind kind;
                    or_Name := Name (Controller m); or_UID := UID (Controller m);
                    or_Controller := Some true; or_BlockOwnerDeletion := Some true |}] finalizers) ∨
         (own_pod m pod ∧ ¬ wanted m filters pod ∧
          p = DeleteOwnerRefPatch (UID (pod_meta pod))
                [{["uid" := UID (Controller m); "$patch" := "delete"]}] finalizers))
  | _ => True
  end.

Lemma pod_match_wanted m filters pod : pod_match m filters pod = true ↔ wanted m filters pod.
Proof.
  unfold pod_match, wanted. destruct (Matches _ _); simpl; [|by split; [|intros []]].
  rewrite forallb_forall, list.Forall_forall.
  split; [intros Hall; split; [done|]|intros [_ Hall]]; intros f Hf; apply Hall, list_elem_of_In, Hf.
Qed.

Lemma owned_own_pod m pod : owned m pod = true ↔ own_pod m pod.
Proof.
  unfold owned, own_pod. change (GetOwnerReferences pod) with (OwnerReferences (pod_meta pod)).
  destruct (GetControllerOf _) as [ref|]; [rewrite bool_decide_eq_true|];
    (split; [|by intros (? & [= <-] & ?)]); [by exists ref|done].
Qed.

(** C29: whatever the API server answers, [ClaimPods] patches nothing while the
    controller is being deleted; otherwise it patches only live orphans of the
    controller's namespace whose labels the selector accepts and that pass every
    filter (to add its controller reference) and pods it controls for which that
    is no longer so (to delete it).  It claims a subsequence of the pods, all of
    which match and are its own or such orphans, and misses none of its own
    that match, whatever errors occur. *)
Theorem ClaimPods_safe m kind finalizers pods filters :
  (∀ f tr, CanAdoptFunc m = Some f →
     wp (λ _, True) (λ _ e, ¬ is_patch e) f (λ _ o, is_Some o) tr) →
  wp (λ _, True) (λ _, claim_call m kind finalizers pods filters)
    (ClaimPods m kind finalizers pods filters)
    (λ _ o, ∃ claimed err, o = Some (claimed, err) ∧ claimed `sublist_of` pods ∧
       Forall (λ p, wanted m filters p ∧ (own_pod m p ∨ live_orphan m p)) claimed ∧
       (∀ p, p ∈ pods → own_pod m p → wanted m filters p → p ∈ claimed)) [].
Proof.
  intros Hf. unfold ClaimPods.
  eapply wp_mono; [|apply (claim_loop_wp m (pod_match m filters) (λ _, True)
    (λ _, claim_call m kind finalizers pods filters) (λ _ _, True) _ _ pods); try done].
  - intros tr o (res & err & once & -> & _ & Hsub & Hall & Hown). exists res, err. split_and!; [done|done| |].
    + eapply List.Forall_impl; [|exact Hall]. intros p [Hm Hp]. split; [by apply pod_match_wanted|].
      destruct Hp as [Hp|Hp]; [left; by apply owned_own_pod|right]. by destruct Hp as (? & _ & _ & ? & ?).
    + intros p Hp Ho Hm. apply Hown; [done|by apply owned_own_pod|by apply pod_match_wanted].
  - intros pod once tr Hin Had _. unfold AdoptPod.
    eapply (wp_seq _ _ _ _ (λ _ _, True)).
    + unfold CanAdopt. destruct once as [e|]; [apply wp_ret; by eexists|].
      destruct (CanAdoptFunc m) as [f|] eqn:Hcf; [|apply wp_ret; by eexists].
      apply wp_bind_2. eapply wp_mono; [|eapply wp_weaken; [..|by apply (Hf f)]]; try done.
      * intros ? ? [a ->]. apply wp_ret. by eexists.
      * by intros ? [].
    + intros tr' [[err|] once'] _; [apply wp_ret; by eexists|].
      apply wp_call_bind; [|intros; apply wp_ret; by eexists].
      destruct Had as (? & Hm & ? & ? & ?). split; [done|]. exists pod. split_and!; [done..|left].
      split; [done|]. split; [by apply pod_match_wanted|done].
  - intros pod once tr Hin (Ho & Hm & Hd) _. unfold ReleasePod.
    apply wp_call_bind; [|intros; apply wp_ret; by eexists].
    split; [done|]. exists pod. split_and!; [done..|right]. split; [by apply owned_own_pod|].
    split; [|done]. rewrite <- pod_match_wanted. by rewrite Hm.
Qed.
End props.
