(* ===== verification/Defaults.v ===== *)
(** * Defaulting ([api/apps/v1/defaults.go], [zz_generated.defaults.go], the webhook)

    [legacyscheme.Scheme.Default] runs the registered defaulter of the object's
    type, [SetObjectDefaults_XStatefulSet].  It is what the mutating webhook and
    the controller apply to a set before they use it. *)
From S2P Require Export Boundary.

(** ** Hand-written defaults *)

Definition MaxUnavailableStatefulSet : string := "MaxUnavailableStatefulSet".
Definition StatefulSetSemanticRevisionComparison : string := "StatefulSetSemanticRevisionComparison".

(** [if len(s) == 0 { s = d }] and [if p == nil { p = d }] *)
Definition default_string (d s : string) : string := if bool_decide (s = "") then d else s.
Definition default_ptr {A} (d : A) (p : option A) : option A :=
  match p with None => Some d | Some _ => p end.

Section defaults.
Context `{K8s}.

Definition default_RollingUpdate (ru : RollingUpdateStatefulSetStrategy)
    : RollingUpdateStatefulSetStrategy :=
  {| Partition := default_ptr 0 (Partition ru);
     MaxUnavailable :=
       if FeatureEnabled MaxUnavailableStatefulSet
       then default_ptr (IntVal 1) (MaxUnavailable ru) else MaxUnavailable ru |}.

Definition default_UpdateStrategy (us : StatefulSetUpdateStrategy) : StatefulSetUpdateStrategy :=
  let us :=
    if bool_decide (us_Type us = "")
    then {| us_Type := RollingUpdateStrategyType;
            RollingUpdate :=
              default_ptr {| Partition := None; MaxUnavailable := None |} (RollingUpdate us) |}
    else us in
  if bool_decide (us_Type us = RollingUpdateStrategyType)
  then {| us_Type := us_Type us; RollingUpdate := default_RollingUpdate <$> RollingUpdate us |}
  else us.

Definition default_RetentionPolicy (p : option PersistentVolumeClaimRetentionPolicy)
    : option PersistentVolumeClaimRetentionPolicy :=
  let p := default {| WhenDeleted := ""; WhenScaled := "" |} p in
  Some {| WhenDeleted := default_string RetainPolicyType (WhenDeleted p);
          WhenScaled := default_string RetainPolicyType (WhenScaled p) |}.

Definition SetDefaults_XStatefulSet (obj : XStatefulSet) : XStatefulSet :=
  set_Spec (λ s,
    {| Replicas := default_ptr 1 (Replicas s); Selector := Selector s; Template := Template s;
       VolumeClaimTemplates := VolumeClaimTemplates s; ServiceName := ServiceName s;
       PodManagementPolicy := default_string OrderedReadyPodManagement (PodManagementPolicy s);
       UpdateStrategy := default_UpdateStrategy (UpdateStrategy s);
       RevisionHistoryLimit := default_ptr 10 (RevisionHistoryLimit s);
       MinReadySeconds := MinReadySeconds s;
       RetentionPolicy := default_RetentionPolicy (RetentionPolicy s);
       Ordinals := Ordinals s |}) obj.

(** ** Generated defaults of the pod template *)

Definition default_ISCSI (v : ISCSIVolumeSource) : ISCSIVolumeSource :=
  {| ISCSIInterface := default_string "default" (ISCSIInterface v); iscsi_Other := iscsi_Other v |}.
Definition default_RBD (v : RBDVolumeSource) : RBDVolumeSource :=
  {| RBDPool := default_string "rbd" (RBDPool v); RadosUser := default_string "admin" (RadosUser v);
     Keyring := default_string "/etc/ceph/keyring" (Keyring v); rbd_Other := rbd_Other v |}.
Definition default_AzureDisk (v : AzureDiskVolumeSource) : AzureDiskVolumeSource :=
  {| CachingMode := default_ptr "ReadWrite" (CachingMode v);
     ad_FSType := default_ptr "ext4" (ad_FSType v);
     ad_ReadOnly := default_ptr false (ad_ReadOnly v);
     ad_Kind := default_ptr "Shared" (ad_Kind v); ad_Other := ad_Other v |}.
Definition default_ScaleIO (v : ScaleIOVolumeSource) : ScaleIOVolumeSource :=
  {| StorageMode := default_string "ThinProvisioned" (StorageMode v);
     sio_FSType := default_string "xfs" (sio_FSType v); sio_Other := sio_Other v |}.
Definition default_Volume (v : Volume) : Volume :=
  {| vol_Name := vol_Name v; vol_PersistentVolumeClaim := vol_PersistentVolumeClaim v;
     vol_ISCSI := default_ISCSI <$> vol_ISCSI v; vol_RBD := default_RBD <$> vol_RBD v;
     vol_AzureDisk := default_AzureDisk <$> vol_AzureDisk v;
     vol_ScaleIO := default_ScaleIO <$> vol_ScaleIO v; vol_Other := vol_Other v |}.

Definition default_Port (p : ContainerPort) : ContainerPort :=
  {| port_Name := port_Name p; port_Number := port_Number p;
     Protocol := default_string "TCP" (Protocol p) |}.
Definition default_FileKeyRef (r : FileKeySelector) : FileKeySelector :=
  {| fk_Key := fk_Key r; fk_Optional := default_ptr false (fk_Optional r) |}.
Definition default_Env (e : EnvVar) : EnvVar :=
  {| env_Name := env_Name e; env_Value := env_Value e;
     ValueFrom :=
       (λ s, {| FileKeyRef := default_FileKeyRef <$> FileKeyRef s; evs_Other := evs_Other s |})
         <$> ValueFrom e |}.
Definition default_Probe (p : Probe) : Probe :=
  {| probe_GRPC :=
       (λ g, {| grpc_Port := grpc_Port g; grpc_Service := default_ptr "" (grpc_Service g) |})
         <$> probe_GRPC p;
     probe_Other := probe_Other p |}.
(** The body of the loops over [InitContainers], [Containers] and [EphemeralContainers]. *)
Definition default_Container (c : Container) : Container :=
  {| c_Name := c_Name c; c_RestartPolicy := c_RestartPolicy c;
     c_RestartPolicyRules := c_RestartPolicyRules c;
     c_Ports := default_Port <$> c_Ports c; c_Env := default_Env <$> c_Env c;
     LivenessProbe := default_Probe <$> LivenessProbe c;
     ReadinessProbe := default_Probe <$> ReadinessProbe c;
     StartupProbe := default_Probe <$> StartupProbe c |}.

Definition default_PodSpec (s : PodSpec) : PodSpec :=
  {| Volumes := default_Volume <$> Volumes s; Hostname := Hostname s; Subdomain := Subdomain s;
     NodeName := NodeName s; pod_RestartPolicy := pod_RestartPolicy s;
     InitContainers := default_Container <$> InitContainers s;
     Containers := default_Container <$> Containers s;
     EphemeralContainers := default_Container <$> EphemeralContainers s |}.

Definition SetObjectDefaults_XStatefulSet (obj : XStatefulSet) : XStatefulSet :=
  set_Spec (λ s,
    {| Replicas := Replicas s; Selector := Selector s;
       Template := {| tmpl_meta := tmpl_meta (Template s);
                      tmpl_Spec := default_PodSpec (tmpl_Spec (Template s)) |};
       VolumeClaimTemplates := VolumeClaimTemplates s; ServiceName := ServiceName s;
       PodManagementPolicy := PodManagementPolicy s; UpdateStrategy := UpdateStrategy s;
       RevisionHistoryLimit := RevisionHistoryLimit s; MinReadySeconds := MinReadySeconds s;
       RetentionPolicy := RetentionPolicy s; Ordinals := Ordinals s |})
    (SetDefaults_XStatefulSet obj).

Definition SetObjectDefaults_XStatefulSetList (items : list XStatefulSet) : list XStatefulSet :=
  SetObjectDefaults_XStatefulSet <$> items.

(** [legacyscheme.Scheme.Default(set)] *)
Definition Scheme_Default : XStatefulSet → XStatefulSet := SetObjectDefaults_XStatefulSet.

(** [XStatefulSetDefaulter.Default]: other objects are left alone, and no
    object is refused. *)
Inductive runtime_object := ASet (set : XStatefulSet) | AnotherObject.
Definition XStatefulSetDefaulter_Default (obj : runtime_object) : runtime_object * option error :=
  match obj with
  | ASet set => (ASet (Scheme_Default set), None)
  | AnotherObject => (obj, None)
  end.
End defaults.

(** ** Properties *)

Section props.
Context `{K8s}.

Lemma default_string_idemp d s : default_string d (default_string d s) = default_string d s.
Proof. unfold default_string. repeat case_bool_decide; congruence. Qed.
Lemma default_string_ne d s : d ≠ "" → default_string d s ≠ "".
Proof. unfold default_string. by case_bool_decide. Qed.
Lemma default_ptr_idemp {A} (d : A) p : default_ptr d (default_ptr d p) = default_ptr d p.
Proof. by destruct p. Qed.
Lemma fmap_idemp_option {A} (f : A → A) (o : option A) :
  (∀ a, f (f a) = f a) → f <$> (f <$> o) = f <$> o.
Proof. destruct o; simpl; congruence. Qed.
Lemma fmap_idemp_list {A} (f : A → A) (l : list A) :
  (∀ a, f (f a) = f a) → f <$> (f <$> l) = f <$> l.
Proof. intros Hf. rewrite <- list_fmap_compose. apply list_fmap_ext. intros. apply Hf. Qed.


Lemma default_Volume_idemp v : default_Volume (default_Volume v) = default_Volume v.
Proof. destruct v as [n pvc [[]|] [[]|] [[]|] [[]|] o]; unfold default_Volume, default_ISCSI,
  default_RBD, default_AzureDisk, default_ScaleIO; simpl;
  by rewrite ?default_string_idemp, ?default_ptr_idemp. Qed.

Lemma default_Probe_idemp p : default_Probe (default_Probe p) = default_Probe p.
Proof. destruct p as [[[? []]|] o]; done. Qed.
Lemma default_Env_idemp e : default_Env (default_Env e) = default_Env e.
Proof. destruct e as [? ? [[[[? []]|] ?]|]]; done. Qed.
Lemma default_Port_idemp p : default_Port (default_Port p) = default_Port p.
Proof. unfold default_Port; simpl. by rewrite default_string_idemp. Qed.
Lemma default_Container_idemp c : default_Container (default_Container c) = default_Container c.
Proof.
  unfold default_Container; simpl.
  by rewrite (fmap_idemp_list default_Port _ default_Port_idemp),
    (fmap_idemp_list default_Env _ default_Env_idemp),
    !(fmap_idemp_option default_Probe _ default_Probe_idemp).
Qed.
Lemma default_PodSpec_idemp s : default_PodSpec (default_PodSpec s) = default_PodSpec s.
Proof.
  unfold default_PodSpec; simpl.
  by rewrite (fmap_idemp_list default_Volume _ default_Volume_idemp),
    !(fmap_idemp_list default_Container _ default_Container_idemp).
Qed.

Lemma default_RollingUpdate_idemp ru :
  default_RollingUpdate (default_RollingUpdate ru) = default_RollingUpdate ru.
Proof.
  unfold default_RollingUpdate; simpl. rewrite default_ptr_idemp.
  destruct (FeatureEnabled _); by rewrite ?default_ptr_idemp.
Qed.

Lemma default_UpdateStrategy_type us : us_Type (default_UpdateStrategy us) ≠ "".
Proof.
  unfold default_UpdateStrategy. dec (us_Type us = "") as Hu; simpl; [done|].
  by dec (us_Type us = RollingUpdateStrategyType) as Hr.
Qed.

Lemma default_UpdateStrategy_idemp us :
  default_UpdateStrategy (default_UpdateStrategy us) = default_UpdateStrategy us.
Proof.
  pose proof (default_UpdateStrategy_type us) as Hne.
  unfold default_UpdateStrategy at 1.
  rewrite (bool_decide_eq_false_2 (us_Type (default_UpdateStrategy us) = "")) by done.
  dec (us_Type (default_UpdateStrategy us) = RollingUpdateStrategyType) as Ht; [|done].
  unfold default_UpdateStrategy in *.
  set (us' := if bool_decide (us_Type us = "") then _ else us) in *.
  dec (us_Type us' = RollingUpdateStrategyType) as Hr;
    [|by rewrite (bool_decide_eq_false_2 _ Hr) in Ht]. simpl.
  by rewrite (fmap_idemp_option _ _ default_RollingUpdate_idemp).
Qed.

(** Defaulting is idempotent, the whole of the pod template included: the
    webhook, the controller and the reconstruction of a revision may all apply it. *)
Lemma SetObjectDefaults_idempotent obj :
  SetObjectDefaults_XStatefulSet (SetObjectDefaults_XStatefulSet obj) =
  SetObjectDefaults_XStatefulSet obj.
Proof.
  unfold SetObjectDefaults_XStatefulSet, SetDefaults_XStatefulSet, set_Spec; simpl.
  do 2 f_equal; rewrite ?default_ptr_idemp, ?default_string_idemp, ?default_PodSpec_idemp,
    ?default_UpdateStrategy_idemp; try done.
  unfold default_RetentionPolicy; simpl. by rewrite !default_string_idemp.
Qed.

(** What the controller relies on when it dereferences the spec's pointers. *)
Definition defaulted (set : XStatefulSet) : Prop :=
  is_Some (Replicas (Spec set)) ∧ is_Some (RevisionHistoryLimit (Spec set)) ∧
  is_Some (RetentionPolicy (Spec set)) ∧
  PodManagementPolicy (Spec set) ≠ "" ∧ us_Type (UpdateStrategy (Spec set)) ≠ "" ∧
  (us_Type (UpdateStrategy (Spec set)) = RollingUpdateStrategyType →
   ∀ ru, RollingUpdate (UpdateStrategy (Spec set)) = Some ru → is_Some (Partition ru)).

(** *** What defaulting may change

    [filled d p p'] and [filled_string d s s']: a missing value becomes [d], a
    given one is kept.  The other relations say so of a record, field by field;
    a field that has no default is equal. *)
Inductive filled {A} (d : A) : option A → option A → Prop :=
| filled_missing : filled d None (Some d)
| filled_given a : filled d (Some a) (Some a).
Inductive filled_string (d : string) : string → string → Prop :=
| filled_empty : filled_string d "" d
| filled_nonempty s : s ≠ "" → filled_string d s s.

Definition ISCSI_filled (v v' : ISCSIVolumeSource) : Prop :=
  filled_string "default" (ISCSIInterface v) (ISCSIInterface v') ∧ iscsi_Other v' = iscsi_Other v.
Definition RBD_filled (v v' : RBDVolumeSource) : Prop :=
  filled_string "rbd" (RBDPool v) (RBDPool v') ∧ filled_string "admin" (RadosUser v) (RadosUser v') ∧
  filled_string "/etc/ceph/keyring" (Keyring v) (Keyring v') ∧ rbd_Other v' = rbd_Other v.
Definition AzureDisk_filled (v v' : AzureDiskVolumeSource) : Prop :=
  filled "ReadWrite" (CachingMode v) (CachingMode v') ∧ filled "ext4" (ad_FSType v) (ad_FSType v') ∧
  filled false (ad_ReadOnly v) (ad_ReadOnly v') ∧ filled "Shared" (ad_Kind v) (ad_Kind v') ∧
  ad_Other v' = ad_Other v.
Definition ScaleIO_filled (v v' : ScaleIOVolumeSource) : Prop :=
  filled_string "ThinProvisioned" (StorageMode v) (StorageMode v') ∧
  filled_string "xfs" (sio_FSType v) (sio_FSType v') ∧ sio_Other v' = sio_Other v.
Definition Volume_filled (v v' : Volume) : Prop :=
  vol_Name v' = vol_Name v ∧ vol_PersistentVolumeClaim v' = vol_PersistentVolumeClaim v ∧
  option_Forall2 ISCSI_filled (vol_ISCSI v) (vol_ISCSI v') ∧ option_Forall2 RBD_filled (vol_RBD v) (vol_RBD v') ∧
  option_Forall2 AzureDisk_filled (vol_AzureDisk v) (vol_AzureDisk v') ∧
  option_Forall2 ScaleIO_filled (vol_ScaleIO v) (vol_ScaleIO v') ∧ vol_Other v' = vol_Other v.

Definition Port_filled (p p' : ContainerPort) : Prop :=
  port_Name p' = port_Name p ∧ port_Number p' = port_Number p ∧ filled_string "TCP" (Protocol p) (Protocol p').
Definition FileKeyRef_filled (r r' : FileKeySelector) : Prop :=
  fk_Key r' = fk_Key r ∧ filled false (fk_Optional r) (fk_Optional r').
Definition Env_filled (e e' : EnvVar) : Prop :=
  env_Name e' = env_Name e ∧ env_Value e' = env_Value e ∧
  option_Forall2 (λ s s', option_Forall2 FileKeyRef_filled (FileKeyRef s) (FileKeyRef s') ∧ evs_Other s' = evs_Other s)
    (ValueFrom e) (ValueFrom e').
Definition Probe_filled (p p' : Probe) : Prop :=
  option_Forall2 (λ g g', grpc_Port g' = grpc_Port g ∧ filled "" (grpc_Service g) (grpc_Service g'))
    (probe_GRPC p) (probe_GRPC p') ∧
  probe_Other p' = probe_Other p.
Definition Container_filled (c c' : Container) : Prop :=
  c_Name c' = c_Name c ∧ c_RestartPolicy c' = c_RestartPolicy c ∧
  c_RestartPolicyRules c' = c_RestartPolicyRules c ∧
  Forall2 Port_filled (c_Ports c) (c_Ports c') ∧ Forall2 Env_filled (c_Env c) (c_Env c') ∧
  option_Forall2 Probe_filled (LivenessProbe c) (LivenessProbe c') ∧
  option_Forall2 Probe_filled (ReadinessProbe c) (ReadinessProbe c') ∧
  option_Forall2 Probe_filled (StartupProbe c) (StartupProbe c').
Definition PodSpec_filled (s s' : PodSpec) : Prop :=
  Forall2 Volume_filled (Volumes s) (Volumes s') ∧
  Hostname s' = Hostname s ∧ Subdomain s' = Subdomain s ∧ NodeName s' = NodeName s ∧
  pod_RestartPolicy s' = pod_RestartPolicy s ∧
  Forall2 Container_filled (InitContainers s) (InitContainers s') ∧
  Forall2 Container_filled (Containers s) (Containers s') ∧
  Forall2 Container_filled (EphemeralContainers s) (EphemeralContainers s').

(** The parameters of a rolling update; [MaxUnavailable] has a default only
    under its feature gate. *)
Definition RollingUpdate_filled (ru ru' : RollingUpdateStatefulSetStrategy) : Prop :=
  filled 0 (Partition ru) (Partition ru') ∧
  (if FeatureEnabled "MaxUnavailableStatefulSet"
   then filled (IntVal 1) (MaxUnavailable ru) (MaxUnavailable ru')
   else MaxUnavailable ru' = MaxUnavailable ru).
Inductive UpdateStrategy_filled : StatefulSetUpdateStrategy → StatefulSetUpdateStrategy → Prop :=
| no_strategy ru ru' :
    RollingUpdate_filled (default {| Partition := None; MaxUnavailable := None |} ru) ru' →
    UpdateStrategy_filled {| us_Type := ""; RollingUpdate := ru |}
      {| us_Type := "RollingUpdate"; RollingUpdate := Some ru' |}
| rolling_strategy ru ru' :
    option_Forall2 RollingUpdate_filled ru ru' →
    UpdateStrategy_filled {| us_Type := "RollingUpdate"; RollingUpdate := ru |}
      {| us_Type := "RollingUpdate"; RollingUpdate := ru' |}
| other_strategy us :
    us_Type us ≠ "" → us_Type us ≠ "RollingUpdate" → UpdateStrategy_filled us us.
Definition RetentionPolicy_filled (p : option PersistentVolumeClaimRetentionPolicy)
    (p' : option PersistentVolumeClaimRetentionPolicy) : Prop :=
  ∃ r, p' = Some r ∧
    match p with
    | None => WhenDeleted r = "Retain" ∧ WhenScaled r = "Retain"
    | Some q => filled_string "Retain" (WhenDeleted q) (WhenDeleted r) ∧
                filled_string "Retain" (WhenScaled q) (WhenScaled r)
    end.

Definition Spec_filled (s s' : XStatefulSetSpec) : Prop :=
  filled 1 (Replicas s) (Replicas s') ∧ Selector s' = Selector s ∧
  tmpl_meta (Template s') = tmpl_meta (Template s) ∧
  PodSpec_filled (tmpl_Spec (Template s)) (tmpl_Spec (Template s')) ∧
  VolumeClaimTemplates s' = VolumeClaimTemplates s ∧ ServiceName s' = ServiceName s ∧
  filled_string "OrderedReady" (PodManagementPolicy s) (PodManagementPolicy s') ∧
  UpdateStrategy_filled (UpdateStrategy s) (UpdateStrategy s') ∧
  filled 10 (RevisionHistoryLimit s) (RevisionHistoryLimit s') ∧
  MinReadySeconds s' = MinReadySeconds s ∧
  RetentionPolicy_filled (RetentionPolicy s) (RetentionPolicy s') ∧ Ordinals s' = Ordinals s.

Lemma default_ptr_filled {A} (d : A) p : filled d p (default_ptr d p).
Proof. destruct p; constructor. Qed.
Lemma default_string_filled d s : filled_string d s (default_string d s).
Proof. unfold default_string. case_bool_decide as Hs; [subst s|]; by constructor. Qed.
#[local] Hint Resolve default_ptr_filled default_string_filled : core.

Lemma fmap_filled_option {A} (R : A → A → Prop) (f : A → A) (o : option A) :
  (∀ a, R a (f a)) → option_Forall2 R o (f <$> o).
Proof. intros Hf. destruct o; constructor. apply Hf. Qed.
Lemma fmap_filled_list {A} (R : A → A → Prop) (f : A → A) (l : list A) :
  (∀ a, R a (f a)) → Forall2 R l (f <$> l).
Proof. intros Hf. induction l; constructor; auto. Qed.

Lemma default_Volume_filled v : Volume_filled v (default_Volume v).
Proof. repeat split; apply fmap_filled_option; intros; repeat split; simpl; auto. Qed.
Lemma default_Env_filled e : Env_filled e (default_Env e).
Proof.
  split_and!; [done..|]. apply fmap_filled_option. intros s. split; [|done].
  apply fmap_filled_option. intros. split; simpl; auto.
Qed.
Lemma default_Probe_filled p : Probe_filled p (default_Probe p).
Proof. split; [|done]. apply fmap_filled_option. intros. split; simpl; auto. Qed.
Lemma default_Container_filled c : Container_filled c (default_Container c).
Proof.
  split_and!; [done..| | | | |]; [apply fmap_filled_list|apply fmap_filled_list|apply fmap_filled_option..];
    intros; try apply default_Env_filled; try apply default_Probe_filled.
  repeat split; simpl; auto.
Qed.
Lemma default_PodSpec_filled s : PodSpec_filled s (default_PodSpec s).
Proof.
  split_and!; try done; apply fmap_filled_list; intros; apply default_Volume_filled || apply default_Container_filled.
Qed.

Lemma default_RollingUpdate_filled ru : RollingUpdate_filled ru (default_RollingUpdate ru).
Proof.
  split; [simpl; auto|]. unfold default_RollingUpdate, MaxUnavailableStatefulSet; simpl.
  destruct (FeatureEnabled _); auto.
Qed.
Lemma default_UpdateStrategy_filled us : UpdateStrategy_filled us (default_UpdateStrategy us).
Proof.
  destruct us as [ty ru]. unfold default_UpdateStrategy; simpl. dec (ty = "") as Hty; simpl.
  - subst ty. destruct ru as [ru|]; apply no_strategy; apply default_RollingUpdate_filled.
  - dec (ty = RollingUpdateStrategyType) as Hr; [subst ty; apply rolling_strategy|by apply other_strategy].
    apply fmap_filled_option. apply default_RollingUpdate_filled.
Qed.
Lemma default_RetentionPolicy_filled p : RetentionPolicy_filled p (default_RetentionPolicy p).
Proof. eexists. split; [done|]. destruct p as [q|]; simpl; auto. Qed.

(** C32: defaulting fills what is missing with the documented values and changes
    nothing else: every value the user gave in the spec and in the whole pod
    template is kept, as are metadata and status.  Afterwards the replica count,
    the history limit, the retention policy and the parameters of a rolling
    update are there ([Selector], which has no default, is left as it is), and
    defaulting a second time changes nothing. *)
Theorem SetObjectDefaults_complete obj :
  let obj' := SetObjectDefaults_XStatefulSet obj in
  Spec_filled (Spec obj) (Spec obj') ∧ set_meta obj' = set_meta obj ∧ Status obj' = Status obj ∧
  defaulted obj' ∧ SetObjectDefaults_XStatefulSet obj' = obj'.
Proof.
  intros obj'. split_and!; [|done|done| |apply SetObjectDefaults_idempotent];
    unfold obj', SetObjectDefaults_XStatefulSet, SetDefaults_XStatefulSet; simpl.
  - split_and!; simpl; auto using default_PodSpec_filled, default_UpdateStrategy_filled,
      default_RetentionPolicy_filled; try apply default_string_filled.
  - unfold defaulted; simpl. split_and!; try (by destruct (Replicas _) || destruct (RevisionHistoryLimit _); eexists).
    + by eexists.
    + by apply default_string_ne.
    + apply default_UpdateStrategy_type.
    + destruct (default_UpdateStrategy_filled (UpdateStrategy (Spec obj))) as [? ? Hru|? ? Hru|]; simpl; [..|done].
      * intros _ x [= <-]. destruct Hru as [Hp _]. by inversion Hp.
      * intros _ x ->. inversion Hru as [? ? [Hp _]|]. by inversion Hp.
Qed.
End props.
