(* ===== verification/History.v ===== *)
(** * Revision history ([pkg/controller/history], [pkg/controller/utils/hash])

    Names and hashes of controller revisions, their order and equality, and the
    operations of [realHistory] on the API server. *)
From S2P Require Export Boundary RefManager GoStrings GoSort.

(** ** [hash/fnv]: 32-bit FNV-1

    The state of a hasher is its 32-bit sum; a Go string is written byte by byte. *)

Definition offset32 : Z := 2166136261.
Definition prime32 : Z := 16777619.
Definition fnv_Write (sum : Z) (data : string) : Z :=
  foldl (λ h c, Z.lxor ((h * prime32) mod 2 ^ 32) (Z.of_N (N_of_ascii c))) sum (chars data).

Definition ControllerRevisionHashLabel : string := "controller.kubernetes.io/hash".

(** [fmt.Sprintf] of the prefix, a dash and the hash; longer prefixes are cut. *)
Definition ControllerRevisionName (prefix hash : string) : string :=
  let prefix := if 223 <? len prefix then String.substring 0 223 prefix else prefix in
  prefix +:+ "-" +:+ hash.

Section history.
Context `{K8s}.

(** [hasher.Reset()], then the dump of the object. *)
Definition DeepHashObject (hasher : Z) (objectToWrite : object) : Z :=
  fnv_Write offset32 (ForHash objectToWrite).

Definition HashControllerRevision (revision : Rev) (probe : option Z) : string :=
  let hf := offset32 in
  let hf := if 0 <? len (Raw (Data revision)) then fnv_Write hf (Raw (Data revision)) else hf in
  let hf := match RObject (Data revision) with Some o => DeepHashObject hf o | None => hf end in
  let hf := match probe with Some c => fnv_Write hf (Itoa c) | None => hf end in
  SafeEncodeString (Itoa hf).

Definition NewControllerRevision (parent : ObjectMeta) (parentKind : GroupVersionKind)
    (templateLabels : labels) (data : RawExtension object) (revision : Z)
    (collisionCount : option Z) : Rev :=
  let cr := {| cr_meta := with_OwnerReferences [NewControllerRef parent parentKind]
                            (with_Labels (Some (default ∅ templateLabels)) zero_meta);
               Data := data; Revision := revision |} in
  let hash := HashControllerRevision cr collisionCount in
  set_cr_meta (λ m, with_Labels (map_set (Labels m) ControllerRevisionHashLabel hash)
                      (with_Name (ControllerRevisionName (Name parent) hash) m)) cr.

(** [byRevision.Less] *)
Definition byRevision_Less (x y : Rev) : bool :=
  if Revision x =? Revision y then
    if CreationTimestamp (cr_meta y) =? CreationTimestamp (cr_meta x)
    then str_lt (Name (cr_meta x)) (Name (cr_meta y))
    else CreationTimestamp (cr_meta x) <? CreationTimestamp (cr_meta y)
  else Revision x <? Revision y.

Definition SortControllerRevisions : list Rev → list Rev := sort_Stable byRevision_Less.

Definition EqualRevision (lhs rhs : option Rev) : bool :=
  match lhs, rhs with
  | Some l, Some r =>
      bool_decide (Raw (Data l) = Raw (Data r)) && SemanticDeepEqual (RObject (Data l)) (RObject (Data r))
  | None, None => true
  | _, _ => false
  end.

Definition FindEqualRevisions (revisions : list Rev) (needle : Rev) : list Rev :=
  List.filter (λ r, EqualRevision (Some r) (Some needle)) revisions.

(** ** [history.Interface]

    [CreateControllerRevision] returns the collision count it leaves behind;
    its result is [None] when the fuel of its retry loop runs out. *)
Class HistoryInterface := {
  ListControllerRevisions : ObjectMeta → selector → go (list Rev + error);
  CreateControllerRevision :
    nat → ObjectMeta → Rev → option Z → go (option (Rev + error) * option Z);
  DeleteControllerRevision : Rev → go (option error);
  UpdateControllerRevision : Rev → Z → go (Rev * option error);
  AdoptControllerRevision : ObjectMeta → GroupVersionKind → Rev → go (Rev + error);
  ReleaseControllerRevision : ObjectMeta → Rev → go (option Rev + error) }.

(** ** [realHistory] *)

Definition real_ListControllerRevisions (parent : ObjectMeta) (sel : selector)
    : go (list Rev + error) :=
  r ← call (RevisionListerList (Namespace parent) sel);
  match r with
  | inr err => mret (inr err)
  | inl history =>
      mret (inl (List.filter (λ h,
        match GetControllerOf (OwnerReferences (cr_meta h)) with
        | None => true
        | Some ref => bool_decide (or_UID ref = UID parent)
        end) history))
  end.

(** The [for] loop; [collisionCount] is the target of the pointer. *)
Fixpoint create_loop (fuel : nat) (parent : ObjectMeta) (revision clone : Rev)
    (collisionCount : Z) : go (option (Rev + error) * Z) :=
  match fuel with
  | O => mret (None, collisionCount)
  | S fuel =>
      let hash := HashControllerRevision revision (Some collisionCount) in
      let clone := set_cr_meta (with_Name (ControllerRevisionName (Name parent) hash)) clone in
      let ns := Namespace parent in
      r ← call (RevisionsCreate ns clone);
      match r with
      | inr err =>
          if IsAlreadyExists err then
            exists_ ← call (RevisionsGet ns (Name (cr_meta clone)));
            match exists_ with
            | inr err => mret (Some (inr err), collisionCount)
            | inl exists_ =>
                if bool_decide (Raw (Data exists_) = Raw (Data clone))
                then mret (Some (inl exists_), collisionCount)
                else create_loop fuel parent revision clone (wrap32 (collisionCount + 1))
            end
          else mret (Some (inr err), collisionCount)
      | inl created => mret (Some (inl created), collisionCount)
      end
  end.

Definition real_CreateControllerRevision (fuel : nat) (parent : ObjectMeta) (revision : Rev)
    (collisionCount : option Z) : go (option (Rev + error) * option Z) :=
  match collisionCount with
  | None => mret (Some (inr (Errorf "collisionCount should not be nil" None)), None)
  | Some c =>
      '(r, c) ← create_loop fuel parent revision revision c;
      mret (r, Some c)
  end.

(** The closure passed to [RetryOnConflict]; its state is [clone]. *)
Definition update_attempt (newRevision : Z) (clone : Rev) : go (option error * Rev) :=
  if Revision clone =? newRevision then mret (None, clone)
  else
    let clone := set_Revision newRevision clone in
    '(updated, updateErr) ← call (RevisionsUpdate (Namespace (cr_meta clone)) clone);
    match updateErr with
    | None => mret (None, clone)
    | Some _ =>
        let clone := default clone updated in
        r ← call (RevisionListerGet (Namespace (cr_meta clone)) (Name (cr_meta clone)));
        mret (updateErr, match r with inl updated => updated | inr _ => clone end)
    end.

Definition real_UpdateControllerRevision `{!ClientGo} (revision : Rev) (newRevision : Z)
    : go (Rev * option error) :=
  '(err, clone) ← RetryOnConflict DefaultBackoff (update_attempt newRevision) revision;
  mret (clone, err).

Definition real_DeleteControllerRevision (revision : Rev) : go (option error) :=
  call (RevisionsDelete (Namespace (cr_meta revision)) (Name (cr_meta revision))).

Definition real_AdoptControllerRevision (parent : ObjectMeta) (parentKind : GroupVersionKind)
    (revision : Rev) : go (Rev + error) :=
  match GetControllerOf (OwnerReferences (cr_meta revision)) with
  | Some owner =>
      mret (inr (Errorf ("attempt to adopt revision owned by " +:+ OwnerReferenceString owner) None))
  | None =>
      call (RevisionsPatch (Namespace parent) (Name (cr_meta revision))
              (AddOwnerRefPatch (UID (cr_meta revision))
                 [{| or_APIVersion := GroupVersionString parentKind; or_Kind := gvk_Kind parentKind;
                     or_Name := Name parent; or_UID := UID parent; or_Controller := Some true;
                     or_BlockOwnerDeletion := Some true |}] []))
  end.

Definition real_ReleaseControllerRevision (parent : ObjectMeta) (revision : Rev)
    : go (option Rev + error) :=
  r ← call (RevisionsPatch (Namespace (cr_meta revision)) (Name (cr_meta revision))
              (GenerateDeleteOwnerRefStrategicMergeBytes (UID (cr_meta revision)) [UID parent] []));
  match r with
  | inr err => if IsNotFound err then mret (inl None)
               else if IsInvalid err then mret (inl None)
               else mret (inr err)
  | inl released => mret (inl (Some released))
  end.

Definition realHistory `{!ClientGo} : HistoryInterface := {|
  ListControllerRevisions := real_ListControllerRevisions;
  CreateControllerRevision := real_CreateControllerRevision;
  DeleteControllerRevision := real_DeleteControllerRevision;
  UpdateControllerRevision := real_UpdateControllerRevision;
  AdoptControllerRevision := real_AdoptControllerRevision;
  ReleaseControllerRevision := real_ReleaseControllerRevision |}.
End history.

(** ** Properties *)

Section props.
Context `{K8s}.

(** *** Order *)

#[export] Instance byRevision_WeakOrder : WeakOrder byRevision_Less.
Proof.
  split.
  - intros x y. unfold byRevision_Less. intros Hlt.
    destruct (Revision x =? Revision y) eqn:?, (Revision y =? Revision x) eqn:?; try lia.
    destruct (CreationTimestamp (cr_meta y) =? CreationTimestamp (cr_meta x)) eqn:?,
      (CreationTimestamp (cr_meta x) =? CreationTimestamp (cr_meta y)) eqn:?; try lia.
    by apply str_lt_asym.
  - intros x y z. unfold not_after, byRevision_Less. intros Hxy Hyz.
    destruct (Revision y =? Revision x) eqn:?, (Revision z =? Revision y) eqn:?,
      (Revision z =? Revision x) eqn:?; try lia.
    destruct (CreationTimestamp (cr_meta x) =? CreationTimestamp (cr_meta y)) eqn:?,
      (CreationTimestamp (cr_meta y) =? CreationTimestamp (cr_meta z)) eqn:?,
      (CreationTimestamp (cr_meta x) =? CreationTimestamp (cr_meta z)) eqn:?; try lia.
    by eapply str_le_trans.
Qed.

(** [SortControllerRevisions] orders the revisions by number, then by age,
    then by name; it loses none, the newest is last, equal ones keep their
    order, and sorting again changes nothing. *)
Theorem SortControllerRevisions_spec revisions :
  let sorted := SortControllerRevisions revisions in
  sorted ≡ₚ revisions ∧
  StronglySorted (λ x y, Revision x ≤ Revision y) sorted ∧
  (∀ z, List.filter (same byRevision_Less z) sorted = List.filter (same byRevision_Less z) revisions) ∧
  SortControllerRevisions sorted = sorted.
Proof.
  unfold SortControllerRevisions. split_and!.
  - apply sort_Stable_perm.
  - pose proof (sort_Stable_sorted byRevision_Less revisions) as Hs.
    induction Hs as [|x l Hl IH Hx]; constructor; [done|].
    eapply List.Forall_impl; [|exact Hx]. intros y Hy. unfold not_after, byRevision_Less in Hy.
    destruct (Revision y =? Revision x) eqn:?; lia.
  - intros z. apply sort_Stable_stable, _.
  - apply sort_Stable_id, sort_Stable_sorted, _. apply _.
Qed.

(** *** Creation *)

(** The counts the loop tries, and the names it gives the revision. *)
Fixpoint probe_count (k : nat) (c : Z) : Z :=
  match k with O => c | S k => probe_count k (wrap32 (c + 1)) end.
Definition probe_name (parent : ObjectMeta) (revision : Rev) (c : Z) : string :=
  ControllerRevisionName (Name parent) (HashControllerRevision revision (Some c)).
Definition probe (parent : ObjectMeta) (revision : Rev) (c : Z) : Rev :=
  set_cr_meta (with_Name (probe_name parent revision c)) revision.

(** The revision an API server stores when it is sent one: its own metadata, and the data
    and the number as they were sent. *)
Definition stores (ns : string) (sent stored : Rev) : Prop :=
  populated ns (cr_meta sent) (cr_meta stored) ∧ Data stored = Data sent ∧ Revision stored = Revision sent.

(** An API server that holds [store], by name: a creation fails with [AlreadyExists] if the
    name is taken, and otherwise answers what it has stored. *)
Definition store_obs (store : gmap string Rev) (o : obs reply) : Prop :=
  match o with
  | existT (RevisionsCreate ns r) a =>
      match store !! Name (cr_meta r) with
      | Some _ => ∃ err, a = inr err ∧ IsAlreadyExists err = true
      | None => ∃ stored, a = inl stored ∧ stores ns r stored
      end
  | existT (RevisionsGet _ n) a => ∀ r, store !! n = Some r → a = inl r
  | _ => True
  end.

Definition creates_probe parent revision (e : api_call) : Prop :=
  match e with
  | RevisionsCreate ns r => ns = Namespace parent ∧ ∃ c, r = probe parent revision c
  | RevisionsGet ns n => ns = Namespace parent ∧ ∃ c, n = probe_name parent revision c
  | _ => False
  end.

(** What the creation answers for a probed name: the revision that had it, or the new one,
    as it was stored. *)
Definition found_or_stored (store : gmap string Rev) (parent : ObjectMeta) (revision : Rev) (c : Z) (v : Rev) : Prop :=
  match store !! probe_name parent revision c with
  | Some old => v = old
  | None => stores (Namespace parent) (probe parent revision c) v
  end.

Lemma create_loop_store store fuel k parent revision clone c tr :
  (k < fuel)%nat → (∀ n, set_cr_meta (with_Name n) clone = set_cr_meta (with_Name n) revision) →
  (∀ j, (j < k)%nat → ∃ r, store !! probe_name parent revision (probe_count j c) = Some r ∧
                           Raw (Data r) ≠ Raw (Data revision)) →
  let n := probe_name parent revision (probe_count k c) in
  (∀ r, store !! n = Some r → Raw (Data r) = Raw (Data revision)) →
  wp (store_obs store) (λ _, creates_probe parent revision)
    (create_loop fuel parent revision clone c)
    (λ _ o, ∃ v, o = Some (Some (inl v), probe_count k c) ∧
       found_or_stored store parent revision (probe_count k c) v) tr.
Proof.
  revert k clone c tr. induction fuel as [|fuel IH]; intros k clone c tr Hk Hclone Htaken n Hn; [lia|].
  assert (Data clone = Data revision) as Hdata by exact (f_equal Data (Hclone "")).
  simpl. rewrite Hdata, (Hclone (ControllerRevisionName _ _)).
  fold (probe_name parent revision c). fold (probe parent revision c).
  apply wp_call_bind; [split; [done|by eexists]|]. intros r Hr.
  change (match store !! probe_name parent revision c with
          | Some _ => ∃ err, r = inr err ∧ IsAlreadyExists err = true
          | None => ∃ v, r = inl v ∧ stores (Namespace parent) (probe parent revision c) v end) in Hr.
  destruct k as [|k].
  - simpl in n, Hn |- *. subst n. destruct (store !! _) as [old|] eqn:Hold.
    + destruct Hr as (err & -> & Herr). rewrite Herr.
      apply wp_call_bind; [split; [done|by eexists]|]. intros [old'|err'] Hr'.
      * specialize (Hr' old Hold) as [= ->]. simpl.
        rewrite bool_decide_eq_true_2 by (by apply Hn). apply wp_ret. eexists. split; [done|].
        unfold found_or_stored. by rewrite Hold.
      * by specialize (Hr' old Hold).
    + destruct Hr as (v & -> & Hv). apply wp_ret. eexists. split; [done|]. unfold found_or_stored. by rewrite Hold.
  - destruct (Htaken 0%nat) as (old & Hold & Hne); [lia|]. simpl in Hold.
    rewrite Hold in Hr. destruct Hr as (err & -> & Herr). rewrite Herr.
    apply wp_call_bind; [split; [done|by eexists]|]. intros [old'|err'] Hr'.
    + specialize (Hr' old Hold) as [= ->]. simpl. rewrite bool_decide_eq_false_2 by done.
      apply (IH k); [lia|done| |done]. intros j Hj. apply (Htaken (S j)). lia.
    + by specialize (Hr' old Hold).
Qed.

(** C22: creating a revision terminates with a result: if the first [k] probed
    names hold other data and the next one is free or holds the same data, any
    fuel above [k] ends with the existing revision of that name, or with the one
    the API server has stored under it (with the name, labels, annotations, owner,
    data and number that were sent, in the namespace of the set), and with the
    collision count advanced [k] times; only probed names are created or read. *)
Theorem CreateControllerRevision_store store fuel k parent revision c :
  (k < fuel)%nat →
  (∀ j, (j < k)%nat → ∃ r, store !! probe_name parent revision (probe_count j c) = Some r ∧
                           Raw (Data r) ≠ Raw (Data revision)) →
  let n := probe_name parent revision (probe_count k c) in
  (∀ r, store !! n = Some r → Raw (Data r) = Raw (Data revision)) →
  wp (store_obs store) (λ _, creates_probe parent revision)
    (real_CreateControllerRevision fuel parent revision (Some c))
    (λ _ o, ∃ v, o = Some (Some (inl v), Some (probe_count k c)) ∧
       match store !! n with
       | Some old => v = old
       | None => stores (Namespace parent) (probe parent revision (probe_count k c)) v
       end) [].
Proof.
  intros Hk Htaken n Hn. unfold real_CreateControllerRevision.
  apply wp_bind_2. eapply wp_mono; [|by apply (create_loop_store store fuel k)].
  intros tr o (v & -> & Hv). apply wp_ret. by exists v.
Qed.

(** *** Renumbering *)

Definition renumbers (n : Z) (e : api_call) : Prop :=
  match e with
  | RevisionsUpdate _ r => Revision r = n
  | RevisionListerGet _ _ => True
  | _ => False
  end.

Lemma UpdateControllerRevision_wp `{!ClientGo} revision n tr :
  wp (λ _, True) (λ _, renumbers n) (real_UpdateControllerRevision revision n)
    (λ _ o, ∃ r err, o = Some (r, err) ∧ (err = None → Revision r = n)) tr.
Proof.
  unfold real_UpdateControllerRevision. apply wp_bind_2.
  eapply wp_mono; [|apply (RetryOnConflict_wp _ _ (λ _ _, True)
    (λ _ err clone, err = None → Revision clone = n)); [|done]].
  - intros tr' o (err & clone & -> & _ & HQ). apply wp_ret. by eauto.
  - intros clone tr' _. unfold update_attempt. destruct (Revision clone =? n) eqn:Hn.
    { apply wp_ret. eexists _, _. split_and!; [done|done|lia]. }
    apply wp_call_bind; [done|]. intros [updated [err|]] _; [|by apply wp_ret; eauto].
    apply wp_call_bind; [done|]. intros r _. apply wp_ret. by eexists _, _.
Qed.

(** [UpdateControllerRevision] only writes the new revision number, always
    returns, and when it reports no error the returned revision has that number. *)
Theorem UpdateControllerRevision_revision `{!ClientGo} revision n :
  wp (λ _, True) (λ _, renumbers n) (real_UpdateControllerRevision revision n)
    (λ _ o, ∃ r err, o = Some (r, err) ∧ (err = None → Revision r = n)) [].
Proof. apply UpdateControllerRevision_wp. Qed.
End props.
