(* ===== verification/FakeHistory.v ===== *)
(** * The fake history ([fakeHistory] of [pkg/controller/history/controller_history.go])

    The implementation of [history.Interface] the tests use: the revisions are
    kept in an indexer instead of the API server.  The operations are stated as
    programs like those of [realHistory]; what they do is proved by running them
    against a store, and compared with [realHistory] run against an API server
    that holds the same revisions. *)
From S2P Require Export History.

(** [cache.DeletionHandlingMetaNamespaceKeyFunc] at a revision, and the errors
    [errors.NewAlreadyExists] and [errors.NewNotFound]. *)
Class RevisionStore `{K8s} := {
  RevisionKey : Rev → string + error;
  NewAlreadyExists : string → string → error;
  NewNotFound : string → string → error
}.

(** Documented behaviour. *)
Class RevisionStoreLaws `{RevisionStore} := {
  RevisionKey_meta r : RevisionKey r = inl (meta_key (cr_meta r));
  IsAlreadyExists_New resource name : IsAlreadyExists (NewAlreadyExists resource name) = true;
  IsNotFound_New resource name : IsNotFound (NewNotFound resource name) = true
}.

Section fake.
Context `{RevisionStore}.

Definition fake_ListControllerRevisions (parent : ObjectMeta) (sel : selector)
    : go (list Rev + error) :=
  r ← call (RevisionListerList (Namespace parent) sel);
  match r with
  | inr err => mret (inr err)
  | inl history =>
      mret (inl (List.filter (λ h,
        match GetControllerOf (OwnerReferences (cr_meta h)) with
        | None => true
        | Some ref => bool_decide (or_UID ref = UID parent)
        end) history))
  end.

Definition addRevision (revision : Rev) : go (option Rev * option error) :=
  match RevisionKey revision with
  | inr err => mret (None, Some err)
  | inl key =>
      r ← call (RevisionIndexerGetByKey key);
      match r with
      | inr err => mret (None, Some err)
      | inl (Some foundRevision) =>
          mret (Some foundRevision,
                Some (NewAlreadyExists "controllerrevision" (Name (cr_meta revision))))
      | inl None =>
          err ← call (RevisionIndexerUpdate revision);
          mret (Some revision, err)
      end
  end.

(** The [for] loop; [collisionCount] is the target of the pointer.  It returns
    without error only with a created revision. *)
Fixpoint fake_create_loop (fuel : nat) (parent : ObjectMeta) (revision clone : Rev)
    (collisionCount : Z) : go (option (Rev + error) * Z) :=
  match fuel with
  | O => mret (None, collisionCount)
  | S fuel =>
      let hash := HashControllerRevision revision (Some collisionCount) in
      let clone := set_cr_meta (with_Name (ControllerRevisionName (Name parent) hash)) clone in
      '(created, err) ← addRevision clone;
      if is_err IsAlreadyExists err
      then fake_create_loop fuel parent revision clone (wrap32 (collisionCount + 1))
      else
        mret (Some (match err with
                    | Some err => inr err
                    | None => inl (default clone created)
                    end), collisionCount)
  end.

Definition fake_CreateControllerRevision (fuel : nat) (parent : ObjectMeta) (revision : Rev)
    (collisionCount : option Z) : go (option (Rev + error) * option Z) :=
  match collisionCount with
  | None => mret (Some (inr (Errorf "collisionCount should not be nil" None)), None)
  | Some c =>
      '(r, c) ← fake_create_loop fuel parent revision
                  (set_cr_meta (with_Namespace (Namespace parent)) revision) c;
      mret (r, Some c)
  end.

Definition fake_DeleteControllerRevision (revision : Rev) : go (option error) :=
  match RevisionKey revision with
  | inr err => mret (Some err)
  | inl key =>
      r ← call (RevisionIndexerGetByKey key);
      match r with
      | inr err => mret (Some err)
      | inl None => mret (Some (NewNotFound "controllerrevisions" (Name (cr_meta revision))))
      | inl (Some obj) => call (RevisionIndexerDelete obj)
      end
  end.

Definition fake_UpdateControllerRevision (revision : Rev) (newRevision : Z) : go (Rev * option error) :=
  let clone := set_Revision newRevision revision in
  err ← call (RevisionIndexerUpdate clone);
  mret (clone, err).

Definition fake_AdoptControllerRevision (parent : ObjectMeta) (parentKind : GroupVersionKind)
    (revision : Rev) : go (Rev + error) :=
  match GetControllerOf (OwnerReferences (cr_meta revision)) with
  | Some owner =>
      mret (inr (Errorf ("attempt to adopt revision owned by " +:+ OwnerReferenceString owner) None))
  | None =>
      match RevisionKey revision with
      | inr err => mret (inr err)
      | inl key =>
          r ← call (RevisionIndexerGetByKey key);
          match r with
          | inr err => mret (inr err)
          | inl None => mret (inr (NewNotFound "controllerrevisions" (Name (cr_meta revision))))
          | inl (Some _) =>
              let clone := set_cr_meta (λ m, with_OwnerReferences
                             (OwnerReferences m ++ [NewControllerRef parent parentKind]) m) revision in
              err ← call (RevisionIndexerUpdate clone);
              mret (match err with Some err => inr err | None => inl clone end)
          end
      end
  end.

Definition fake_ReleaseControllerRevision (parent : ObjectMeta) (revision : Rev)
    : go (option Rev + error) :=
  match RevisionKey revision with
  | inr err => mret (inr err)
  | inl key =>
      r ← call (RevisionIndexerGetByKey key);
      match r with
      | inr err => mret (inr err)
      | inl None => mret (inl None)
      | inl (Some _) =>
          let clone := set_cr_meta (λ m, with_OwnerReferences
                         (List.filter (λ ref, bool_decide (or_UID ref ≠ UID parent)) (OwnerReferences m)) m)
                         revision in
          err ← call (RevisionIndexerUpdate clone);
          mret (match err with Some err => inr err | None => inl (Some clone) end)
      end
  end.

Definition fakeHistory : HistoryInterface := {|
  ListControllerRevisions := fake_ListControllerRevisions;
  CreateControllerRevision := fake_CreateControllerRevision;
  DeleteControllerRevision := fake_DeleteControllerRevision;
  UpdateControllerRevision := fake_UpdateControllerRevision;
  AdoptControllerRevision := fake_AdoptControllerRevision;
  ReleaseControllerRevision := fake_ReleaseControllerRevision |}.
End fake.

(** ** Running against a store *)

Section store.
Context `{RevisionStoreLaws}.
Implicit Types (s : gmap string Rev) (parent : ObjectMeta) (revision : Rev).

Definition rev_key (ns name : string) : string :=
  if bool_decide (ns = "") then name else ns +:+ "/" +:+ name.

(** The revisions of a namespace that match a selector. *)
Definition matching (ns : string) (sel : selector) (s : gmap string Rev) : list Rev :=
  List.filter (λ r, bool_decide (Namespace (cr_meta r) = ns) && Matches sel (Labels (cr_meta r)))
    (map_to_list s).*2.

(** An indexer, and an API server, that hold the revisions [s] under their keys.
    [fill] is what the API server makes of a revision it is sent (it fills in
    fields of the metadata); the other calls are not made by the operations and get
    the answers [other]. *)
Definition store_handler (other : ∀ e, reply e) (fill : gmap string Rev → string → Rev → Rev)
    (e : api_call) (s : gmap string Rev) : reply e * gmap string Rev :=
  match e with
  | RevisionIndexerGetByKey key => (inl (s !! key), s)
  | RevisionIndexerUpdate r => (None, <[meta_key (cr_meta r) := r]> s)
  | RevisionIndexerDelete r => (None, delete (meta_key (cr_meta r)) s)
  | RevisionsCreate ns r =>
      let r := fill s ns r in
      match s !! meta_key (cr_meta r) with
      | Some _ => (inr (NewAlreadyExists "controllerrevisions" (Name (cr_meta r))), s)
      | None => (inl r, <[meta_key (cr_meta r) := r]> s)
      end
  | RevisionsGet ns name =>
      (match s !! rev_key ns name with
       | Some r => inl r
       | None => inr (NewNotFound "controllerrevisions" name)
       end, s)
  | RevisionListerList ns sel => (inl (matching ns sel s), s)
  | e => (other e, s)
  end.

Context (other : ∀ e, reply e) (fill : gmap string Rev → string → Rev → Rev).
Notation runs_on p s := (run (store_handler other fill) p s).

Lemma run_bind {A B W} (h : ∀ e, W → reply e * W) (p : go A) (f : A → go B) w :
  run h (p ≫= f) w =
  match run h p w with (Some a, w') => run h (f a) w' | (None, w') => (None, w') end.
Proof.
  revert w. induction p as [a| |e k IH]; intros w; cbn; [done..|]. destruct (h e w) as [r w']. apply IH.
Qed.

(** *** Creation *)

(** The name tried with a collision count, and what is stored under it. *)
Definition candidate parent revision (c : Z) : string :=
  ControllerRevisionName (Name parent) (HashControllerRevision revision (Some c)).
Definition created_as parent revision (c : Z) : Rev :=
  set_cr_meta (λ m, with_Name (candidate parent revision c) (with_Namespace (Namespace parent) m)) revision.
Definition candidate_key parent revision (c : Z) : string :=
  rev_key (Namespace parent) (candidate parent revision c).

(** The collision count after [n] collisions; it is an [int32]. *)
Definition bumped (n : nat) (c : Z) : Z := Nat.iter n (λ c, wrap32 (c + 1)) c.
#[local] Arguments bumped : simpl never.

Lemma bumped_S n c : bumped n (wrap32 (c + 1)) = bumped (S n) c.
Proof. unfold bumped. by rewrite Nat.iter_succ_r. Qed.

(** The first [n] names are taken and the next one is free. *)
Definition first_free s parent revision (n : nat) (c : Z) : Prop :=
  (∀ i, (i < n)%nat → is_Some (s !! candidate_key parent revision (bumped i c))) ∧
  s !! candidate_key parent revision (bumped n c) = None.

Lemma first_free_S s parent revision n c :
  first_free s parent revision (S n) c → first_free s parent revision n (wrap32 (c + 1)).
Proof.
  intros [Htaken Hfree]. split.
  - intros i Hi. rewrite bumped_S. apply Htaken. lia.
  - by rewrite bumped_S.
Qed.

(** Clones that differ in the name only give the same candidates. *)
Definition named_clone parent revision (clone : Rev) : Prop :=
  ∀ name, set_cr_meta (with_Name name) clone =
          set_cr_meta (λ m, with_Name name (with_Namespace (Namespace parent) m)) revision.

Lemma fake_loop_run n fuel parent revision clone c s :
  named_clone parent revision clone → first_free s parent revision n c → (n < fuel)%nat →
  runs_on (fake_create_loop fuel parent revision clone c) s =
    (Some (Some (inl (created_as parent revision (bumped n c))), bumped n c),
     <[candidate_key parent revision (bumped n c) := created_as parent revision (bumped n c)]> s).
Proof.
  revert fuel clone c. induction n as [|n IH]; intros [|fuel] clone c Hclone Hff Hfuel; try lia;
    cbn [fake_create_loop]; rewrite Hclone; fold (candidate parent revision c);
    fold (created_as parent revision c); rewrite run_bind; unfold addRevision; rewrite RevisionKey_meta;
    change (meta_key (cr_meta (created_as parent revision c))) with (candidate_key parent revision c);
    rewrite run_bind; cbn [run call store_handler].
  - destruct Hff as [_ Hfree]. change (bumped 0 c) with c in *. rewrite Hfree. cbn. done.
  - destruct Hff as [Htaken Hfree] eqn:Hff'. destruct (Htaken 0%nat) as [r Hr]; [lia|].
    change (bumped 0 c) with c in Hr. rewrite Hr. cbn. rewrite IsAlreadyExists_New.
    rewrite <- bumped_S. apply IH; [|by apply first_free_S|lia].
    intros name. by rewrite <- Hclone.
Qed.

(** [fakeHistory] creates a revision under the first free name: with [n]
    collisions the revision is stored under the name made from the collision count
    bumped [n] times, every other revision is left alone, the pointer holds that
    count, and no more than [n + 1] attempts are made. *)
Theorem fake_CreateControllerRevision_first_free n fuel parent revision c s :
  first_free s parent revision n c → (n < fuel)%nat →
  runs_on (fake_CreateControllerRevision fuel parent revision (Some c)) s =
    (Some (Some (inl (created_as parent revision (bumped n c))), Some (bumped n c)),
     <[candidate_key parent revision (bumped n c) := created_as parent revision (bumped n c)]> s).
Proof.
  intros Hff Hfuel. unfold fake_CreateControllerRevision. rewrite run_bind.
  by rewrite (fake_loop_run n) by done.
Qed.

(** *** The two histories *)

(** The same revision but for the fields an API server sets: UID, resource version,
    generation and creation time. *)
Definition alike (x y : Rev) : Prop := stores (Namespace (cr_meta x)) x y.
(** The same revisions under the same keys. *)
Definition same_revisions (s s' : gmap string Rev) : Prop := ∀ k, option_Forall2 alike (s !! k) (s' !! k).

#[local] Instance alike_equivalence : Equivalence alike.
Proof.
  unfold alike, stores, populated. split.
  - intros x. by split_and!.
  - intros x y ((? & ? & ? & ? & ? & ? & ? & ?) & ? & ?). by split_and!.
  - intros x y z ((? & ? & ? & ? & ? & ? & ? & ?) & ? & ?) ((? & ? & ? & ? & ? & ? & ? & ?) & ? & ?).
    split_and!; congruence.
Qed.

Lemma same_revisions_insert k s s' x y :
  same_revisions s s' → alike x y → same_revisions (<[k := x]> s) (<[k := y]> s').
Proof.
  intros Hs Hxy k'. destruct (decide (k = k')) as [<-|Hne]; [rewrite !lookup_insert_eq; by constructor|].
  by rewrite !lookup_insert_ne.
Qed.

Lemma same_revisions_free n parent revision c s s' :
  same_revisions s s' → first_free s parent revision n c → first_free s' parent revision n c.
Proof.
  intros Hs [Htaken Hfree]. split.
  - intros i Hi. specialize (Htaken i Hi). specialize (Hs (candidate_key parent revision (bumped i c))).
    destruct Hs; [by eexists|done].
  - specialize (Hs (candidate_key parent revision (bumped n c))). rewrite Hfree in Hs. by inversion Hs.
Qed.

Hypothesis Hfill : ∀ s ns v, stores ns v (fill s ns v).

Lemma fill_key s parent revision c :
  meta_key (cr_meta (fill s (Namespace parent) (set_cr_meta (with_Name (candidate parent revision c)) revision))) =
  candidate_key parent revision c.
Proof.
  destruct (Hfill s (Namespace parent) (set_cr_meta (with_Name (candidate parent revision c)) revision))
    as ((Hn & _ & Hns & _) & _). unfold meta_key. by rewrite Hn, Hns.
Qed.

Lemma fill_alike s parent revision c :
  alike (fill s (Namespace parent) (set_cr_meta (with_Name (candidate parent revision c)) revision))
        (created_as parent revision c).
Proof.
  destruct (Hfill s (Namespace parent) (set_cr_meta (with_Name (candidate parent revision c)) revision))
    as ((? & ? & ? & ? & ? & ? & ? & ?) & ? & ?). unfold alike, stores, populated. by split_and!.
Qed.

Lemma real_loop_run n fuel parent revision clone c s :
  (∀ name, set_cr_meta (with_Name name) clone = set_cr_meta (with_Name name) revision) →
  first_free s parent revision n c →
  (∀ i r, (i < n)%nat → s !! candidate_key parent revision (bumped i c) = Some r →
     Raw (Data r) ≠ Raw (Data revision)) →
  (n < fuel)%nat →
  ∃ created, alike created (created_as parent revision (bumped n c)) ∧
    runs_on (create_loop fuel parent revision clone c) s =
      (Some (Some (inl created), bumped n c), <[candidate_key parent revision (bumped n c) := created]> s).
Proof.
  revert fuel clone c. induction n as [|n IH]; intros [|fuel] clone c Hclone Hff Hdata Hfuel; try lia;
    cbn [create_loop]; rewrite Hclone; fold (candidate parent revision c); rewrite run_bind;
    cbn [run call store_handler]; rewrite !fill_key.
  - destruct Hff as [_ Hfree]. change (bumped 0 c) with c in *. rewrite Hfree.
    eexists. split; [apply fill_alike|done].
  - pose proof Hff as [Htaken Hfree]. destruct (Htaken 0%nat) as [r Hr]; [lia|].
    pose proof (Hdata 0%nat r ltac:(lia) Hr) as Hne. change (bumped 0 c) with c in Hr. rewrite Hr.
    cbn [run]. rewrite IsAlreadyExists_New, run_bind. cbn [run call store_handler].
    change (rev_key (Namespace parent) _) with (candidate_key parent revision c). rewrite Hr.
    cbn [run]. rewrite bool_decide_eq_false_2 by done. rewrite <- bumped_S. apply IH.
    + done.
    + by apply first_free_S.
    + intros i r' Hi. rewrite bumped_S. apply Hdata. lia.
    + lia.
Qed.

(** C39: the fake history is a double of the real one.  When the API server and the
    indexer hold the same revisions (up to the fields an API server sets: UID,
    resource version, generation, creation time; it may fill in any values) and no
    name that collides is used by a revision with the same data, creating a revision
    through [realHistory] and through [fakeHistory] both succeed, with the same
    revision up to these fields, under the first free name, and the same collision
    count, and leave the same revisions. *)
Theorem histories_agree n fuel parent revision c s s' :
  same_revisions s s' → first_free s parent revision n c →
  (∀ i r, (i < n)%nat → s !! candidate_key parent revision (bumped i c) = Some r →
     Raw (Data r) ≠ Raw (Data revision)) →
  (n < fuel)%nat →
  ∃ x y s1 s1',
    runs_on (real_CreateControllerRevision fuel parent revision (Some c)) s =
      (Some (Some (inl x), Some (bumped n c)), s1) ∧
    runs_on (fake_CreateControllerRevision fuel parent revision (Some c)) s' =
      (Some (Some (inl y), Some (bumped n c)), s1') ∧
    alike x y ∧ same_revisions s1 s1' ∧ Name (cr_meta x) = candidate parent revision (bumped n c).
Proof.
  intros Hs Hff Hdata Hfuel. unfold real_CreateControllerRevision, fake_CreateControllerRevision.
  rewrite !run_bind, (fake_loop_run n) by (done || by eapply same_revisions_free).
  destruct (real_loop_run n fuel parent revision revision c s) as (x & Hx & ->); try done.
  eexists _, _, _, _. split; [done|]. split; [done|]. split; [done|]. split; [by apply same_revisions_insert|].
  symmetry. apply Hx.
Qed.

Lemma fake_loop_clone fuel parent revision clone name c :
  fake_create_loop fuel parent revision (set_cr_meta (with_Name name) clone) c =
  fake_create_loop fuel parent revision clone c.
Proof. by destruct fuel. Qed.

(** Where they part: a revision with the same data under the first name is reused
    by [realHistory] and is a collision for [fakeHistory]. *)
Lemma histories_differ fuel parent revision c s r :
  s !! candidate_key parent revision c = Some r → Raw (Data r) = Raw (Data revision) →
  runs_on (real_CreateControllerRevision (S fuel) parent revision (Some c)) s =
    (Some (Some (inl r), Some c), s) ∧
  runs_on (fake_CreateControllerRevision (S fuel) parent revision (Some c)) s =
    runs_on (fake_CreateControllerRevision fuel parent revision (Some (wrap32 (c + 1)))) s.
Proof.
  intros Hr Hdata. split.
  - unfold real_CreateControllerRevision. rewrite run_bind. cbn [create_loop].
    fold (candidate parent revision c). rewrite run_bind. cbn [run call store_handler].
    rewrite !fill_key, Hr. cbn [run].
    rewrite IsAlreadyExists_New, run_bind. cbn [run call store_handler].
    change (rev_key (Namespace parent) _) with (candidate_key parent revision c). rewrite Hr.
    cbn [run]. by rewrite bool_decide_eq_true_2.
  - unfold fake_CreateControllerRevision. rewrite !run_bind. cbn [fake_create_loop].
    fold (candidate parent revision c). rewrite run_bind. unfold addRevision. rewrite RevisionKey_meta, run_bind.
    cbn [run call store_handler]. change (meta_key _) with (candidate_key parent revision c). rewrite Hr.
    cbn. by rewrite IsAlreadyExists_New, fake_loop_clone.
Qed.

(** *** The other operations *)

Lemma fake_Delete_run revision s :
  runs_on (fake_DeleteControllerRevision revision) s =
  match s !! meta_key (cr_meta revision) with
  | None => (Some (Some (NewNotFound "controllerrevisions" (Name (cr_meta revision)))), s)
  | Some r => (Some None, delete (meta_key (cr_meta r)) s)
  end.
Proof.
  unfold fake_DeleteControllerRevision. rewrite RevisionKey_meta, run_bind. cbn [run call store_handler].
  by destruct (s !! _).
Qed.

Lemma fake_Adopt_run parent kind revision s :
  runs_on (fake_AdoptControllerRevision parent kind revision) s =
  match GetControllerOf (OwnerReferences (cr_meta revision)), s !! meta_key (cr_meta revision) with
  | Some owner, _ => (Some (inr (Errorf ("attempt to adopt revision owned by " +:+ OwnerReferenceString owner) None)), s)
  | None, None => (Some (inr (NewNotFound "controllerrevisions" (Name (cr_meta revision)))), s)
  | None, Some _ =>
      let clone := set_cr_meta (λ m, with_OwnerReferences (OwnerReferences m ++ [NewControllerRef parent kind]) m)
                     revision in
      (Some (inl clone), <[meta_key (cr_meta revision) := clone]> s)
  end.
Proof.
  unfold fake_AdoptControllerRevision. destruct (GetControllerOf _); [done|].
  rewrite RevisionKey_meta, run_bind. cbn [run call store_handler]. by destruct (s !! _).
Qed.

Lemma fake_Release_run parent revision s :
  runs_on (fake_ReleaseControllerRevision parent revision) s =
  match s !! meta_key (cr_meta revision) with
  | None => (Some (inl None), s)
  | Some _ =>
      let clone := set_cr_meta (λ m, with_OwnerReferences
                     (List.filter (λ ref, bool_decide (or_UID ref ≠ UID parent)) (OwnerReferences m)) m) revision in
      (Some (inl (Some clone)), <[meta_key (cr_meta revision) := clone]> s)
  end.
Proof.
  unfold fake_ReleaseControllerRevision.
  rewrite RevisionKey_meta, run_bind. cbn [run call store_handler]. by destruct (s !! _).
Qed.

Lemma NewControllerRef_owner `{!K8sLaws} o k : or_UID (NewControllerRef o k) = UID o.
Proof. by rewrite NewControllerRef_fields. Qed.

(** Adopting an orphan revision and releasing it again gives back the revision
    and the store, and in between the revision is listed for its owner only. *)
Theorem fake_adopt_release `{!K8sLaws} parent kind revision s :
  s !! meta_key (cr_meta revision) = Some revision →
  GetControllerOf (OwnerReferences (cr_meta revision)) = None →
  (∀ ref, ref ∈ OwnerReferences (cr_meta revision) → or_UID ref ≠ UID parent) →
  ∃ adopted s1,
    runs_on (fake_AdoptControllerRevision parent kind revision) s = (Some (inl adopted), s1) ∧
    (∃ ref, GetControllerOf (OwnerReferences (cr_meta adopted)) = Some ref ∧ or_UID ref = UID parent) ∧
    runs_on (fake_ReleaseControllerRevision parent adopted) s1 = (Some (inl (Some revision)), s).
Proof.
  intros Hs Hctl Hfree. rewrite fake_Adopt_run, Hctl, Hs. cbv zeta. eexists _, _. split; [done|]. split.
  - set (refs := OwnerReferences _). cbn in refs.
    assert (NewControllerRef parent kind ∈ refs) as Hin by (apply elem_of_app; right; left).
    destruct (GetControllerOf refs) as [ref|] eqn:Href.
    + exists ref. split; [done|]. apply GetControllerOf_Some in Href as [Hr Htrue].
      apply elem_of_app in Hr as [Hr| ->%list_elem_of_singleton]; [|by apply NewControllerRef_owner].
      apply GetControllerOf_None in Hctl. rewrite List.Forall_forall in Hctl.
      specialize (Hctl ref (proj1 (list_elem_of_In _ _) Hr)). congruence.
    + apply GetControllerOf_None in Href. rewrite List.Forall_forall in Href.
      specialize (Href _ (proj1 (list_elem_of_In _ _) Hin)). by rewrite NewControllerRef_fields in Href.
  - rewrite fake_Release_run. cbn [cr_meta set_cr_meta].
    change (meta_key (with_OwnerReferences ?r ?m)) with (meta_key m). rewrite lookup_insert_eq. cbn.
    match goal with |- (Some (inl (Some ?r)), _) = _ => assert (r = revision) as -> end.
    { unfold set_cr_meta. cbn [cr_meta Data Revision OwnerReferences with_OwnerReferences].
      rewrite List.filter_app. cbn [List.filter]. rewrite NewControllerRef_owner, bool_decide_eq_false_2 by tauto.
      rewrite app_nil_r, forallb_filter_id; [by destruct revision as [[] ? ?]|].
      apply forallb_forall. intros ref Href%list_elem_of_In. apply bool_decide_eq_true. by apply Hfree. }
    rewrite insert_insert_eq. by rewrite insert_id.
Qed.
End store.
