(* ===== verification/Revision.v ===== *)
(** * Revisions of a set and the pods made from them

    The second half of [pkg/controller/xstatefulset/xstateful_set_utils.go], and
    [GetPodFromTemplate] of [pkg/controller/controller_utils.go]. *)
From S2P Require Export Claims History Defaults.

(** ** Pods made from a template *)

Section template.
Context `{K8s}.

Definition getPodsLabelSet (template : PodTemplateSpec) : gmap string string :=
  default ∅ (Labels (tmpl_meta template)).
Definition getPodsFinalizers (template : PodTemplateSpec) : list string :=
  Finalizers (tmpl_meta template).
Definition getPodsAnnotationSet (template : PodTemplateSpec) : gmap string string :=
  default ∅ (Annotations (tmpl_meta template)).

Definition getPodsPrefix (controllerName : string) : string :=
  let prefix := controllerName +:+ "-" in
  if bool_decide (length (NameIsDNSSubdomain prefix true) ≠ 0%nat) then controllerName else prefix.

(** The parent is an API object, so [meta.Accessor] finds its metadata. *)
Definition GetPodFromTemplate (template : PodTemplateSpec) (parentObject : ObjectMeta)
    (controllerRef : option OwnerReference) : Pod :=
  {| pod_meta :=
       {| Name := ""; GenerateName := getPodsPrefix (Name parentObject); Namespace := ""; UID := "";
          ResourceVersion := ""; Generation := 0; CreationTimestamp := 0; DeletionTimestamp := None;
          Labels := Some (getPodsLabelSet template);
          Annotations := Some (getPodsAnnotationSet template);
          OwnerReferences := match controllerRef with Some r => [r] | None => [] end;
          Finalizers := getPodsFinalizers template |};
     pod_Spec := tmpl_Spec template;
     pod_Status := zero_PodStatus |}.
End template.

Section pods.
Context `{K8s} `{GoRuntime}.

(** [None]: a nil dereference. *)
Definition newStatefulSetPod (set : XStatefulSet) (ordinal : Z) : option Pod :=
  let pod := GetPodFromTemplate (Template (Spec set)) (set_meta set)
               (Some (NewControllerRef (set_meta set) controllerKind)) in
  let pod := set_pod_meta (with_Name (getPodName set ordinal)) pod in
  let pod := initIdentity set pod in
  updateStorage set pod.

(** The condition of [newVersionedStatefulSetPod]: [&&] binds tighter than [||]. *)
Definition at_current_revision (currentSet : XStatefulSet) (ordinal : Z) : option bool :=
  let us := UpdateStrategy (Spec currentSet) in
  if bool_decide (us_Type us = RollingUpdateStrategyType)
     && (bool_decide (RollingUpdate us = None)
         && (ordinal <? getStartOrdinal currentSet + CurrentReplicas (Status currentSet)))
  then Some true
  else
    match RollingUpdate us with
    | Some ru => p ← Partition ru; Some (ordinal <? getStartOrdinal currentSet + p)
    | None => Some false
    end.

Definition newVersionedStatefulSetPod (currentSet updateSet : XStatefulSet)
    (currentRevision updateRevision : string) (ordinal : Z) : option Pod :=
  current ← at_current_revision currentSet ordinal;
  if current : bool then
    pod ← newStatefulSetPod currentSet ordinal;
    Some (setPodRevision pod currentRevision)
  else
    pod ← newStatefulSetPod updateSet ordinal;
    Some (setPodRevision pod updateRevision).
End pods.

(** ** Patches and revisions *)

(** JSON objects as Go maps: reading and writing a key. *)
Fixpoint json_get (m : list (string * json)) (k : string) : option json :=
  match m with
  | [] => None
  | (k', v) :: m => if bool_decide (k = k') then Some v else json_get m k
  end.
Fixpoint json_set (m : list (string * json)) (k : string) (v : json) : list (string * json) :=
  match m with
  | [] => [(k, v)]
  | (k', v') :: m => if bool_decide (k = k') then (k, v) :: m else (k', v') :: json_set m k v
  end.
(** [v.(map[string]interface{})]: panics unless [v] is an object. *)
Definition json_object (v : option json) : option (list (string * json)) :=
  match v with Some (JObj m) => Some m | _ => None end.

Section revisions.
Context `{K8s}.

(** [None]: a failed type assertion panics. *)
Definition getPatch (set : XStatefulSet) : option (string + error) :=
  match EncodeSet set with
  | inr err => Some (inr err)
  | inl data =>
      match UnmarshalMap data with
      | inr err => Some (inr err)
      | inl raw =>
          spec ← json_object (json_get raw "spec");
          template ← json_object (json_get spec "template");
          let template := json_set template "$patch" (JStr "replace") in
          Some (Marshal (JObj [("spec", JObj [("template", JObj template)])]))
      end
  end.

Definition newRevision (set : XStatefulSet) (revision : Z) (collisionCount : option Z)
    : option (Rev + error) :=
  patch ← getPatch set;
  Some
    match patch with
    | inr err => inr err
    | inl patch =>
        let cr := NewControllerRevision (set_meta set) controllerKind
                    (Labels (tmpl_meta (Template (Spec set))))
                    {| Raw := patch; RObject := None |} revision collisionCount in
        inl (set_cr_meta (λ m, with_Annotations
               (Some (default ∅ (Annotations (set_meta set)) ∪ default ∅ (Annotations m))) m) cr)
    end.

(** [EncodeOrDie] panics when the set cannot be encoded. *)
Definition ApplyRevision (set : XStatefulSet) (revision : Rev) : option (XStatefulSet + error) :=
  match EncodeSet set with
  | inr _ => None
  | inl original =>
      Some
        match StrategicMergePatch original (Raw (Data revision)) with
        | inr err => inr err
        | inl patched => UnmarshalSet patched
        end
  end.

Definition nextRevision (revisions : list Rev) : Z :=
  match list.last revisions with
  | None => 1
  | Some r => wrap64 (Revision r + 1)
  end.

Definition inconsistentStatus (set : XStatefulSet) (status : XStatefulSetStatus) : bool :=
  let s := Status set in
  (ObservedGeneration s <? ObservedGeneration status)
  || negb (st_Replicas status =? st_Replicas s)
  || negb (CurrentReplicas status =? CurrentReplicas s)
  || negb (ReadyReplicas status =? ReadyReplicas s)
  || negb (UpdatedReplicas status =? UpdatedReplicas s)
  || bool_decide (CurrentRevision status ≠ CurrentRevision s)
  || negb (AvailableReplicas status =? AvailableReplicas s)
  || bool_decide (UpdateRevision status ≠ UpdateRevision s).

(** [None]: [Replicas] is nil. *)
Definition completeRollingUpdate (set : XStatefulSet) (status : XStatefulSetStatus)
    : option XStatefulSetStatus :=
  if bool_decide (us_Type (UpdateStrategy (Spec set)) = RollingUpdateStrategyType) then
    replicas ← Replicas (Spec set);
    Some
      (if (UpdatedReplicas status =? replicas) && (ReadyReplicas status =? replicas)
          && (st_Replicas status =? replicas)
       then {| ObservedGeneration := ObservedGeneration status; st_Replicas := st_Replicas status;
               ReadyReplicas := ReadyReplicas status; CurrentReplicas := UpdatedReplicas status;
               UpdatedReplicas := UpdatedReplicas status;
               CurrentRevision := UpdateRevision status; UpdateRevision := UpdateRevision status;
               CollisionCount := CollisionCount status; st_Conditions := st_Conditions status;
               AvailableReplicas := AvailableReplicas status; st_Selector := st_Selector status |}
       else status)
  else Some status.

Definition getStatefulSetMaxUnavailable (maxUnavailable : option IntOrString) (replicaCount : Z)
    : Z + error :=
  match GetScaledValueFromIntOrPercent (default (IntVal 1) maxUnavailable) replicaCount false with
  | inr err => inr err
  | inl maxUnavailableNum => inl (if maxUnavailableNum <? 1 then 1 else maxUnavailableNum)
  end.
End revisions.

(** ** Properties *)

Section props.
Context `{K8s} `{GoLaws}.

Lemma getStatefulSetMaxUnavailable_pos o n m :
  getStatefulSetMaxUnavailable o n = inl m → 1 ≤ m.
Proof.
  unfold getStatefulSetMaxUnavailable. destruct (GetScaledValueFromIntOrPercent _ _ _) as [v|]; [|done].
  intros [= <-]. destruct (v <? 1) eqn:?; lia.
Qed.

(** What every pod made for an ordinal looks like. *)
Lemma newStatefulSetPod_spec set ordinal pod :
  plain_name set → 0 ≤ ordinal < 2147483648 → newStatefulSetPod set ordinal = Some pod →
  identityMatches set pod = true ∧ storageMatches set pod = true ∧ getOrdinal pod = ordinal ∧
  isCreated pod = false ∧ isTerminating pod = false ∧
  GetOwnerReferences pod = [NewControllerRef (set_meta set) controllerKind].
Proof.
  intros Hpl Ho. unfold newStatefulSetPod.
  set (tmpl := set_pod_meta _ (GetPodFromTemplate _ _ _)). intros Hst.
  assert (getOrdinal tmpl = ordinal) as Htmpl.
  { unfold getOrdinal. by rewrite (getParentNameAndOrdinal_getPodName set tmpl ordinal). }
  assert (getOrdinal (initIdentity set tmpl) = ordinal) as Hinit.
  { change (getOrdinal (initIdentity set tmpl)) with (getOrdinal (updateIdentity set tmpl)).
    rewrite <- Htmpl. unfold getOrdinal at 1. rewrite updateIdentity_parent by (done || lia). done. }
  destruct (updateStorage_matches set (initIdentity set tmpl) pod) as (Hs & _ & Hm); [lia|done|].
  assert (getParentNameAndOrdinal pod = getParentNameAndOrdinal (initIdentity set tmpl)) as Hp.
  { unfold getParentNameAndOrdinal. by rewrite Hm. }
  assert (getOrdinal pod = ordinal) as Hpo by (unfold getOrdinal; by rewrite Hp).
  split_and!; try done.
  - destruct (updateIdentity_matches set tmpl Hpl) as [Hid _].
    rewrite bool_decide_eq_true_2 in Hid by lia. rewrite <- Hid.
    unfold identityMatches. rewrite Hp, Hm. done.
  - unfold updateStorage in Hst. destruct (getPersistentVolumeClaims _ _); [|done].
    by simplify_eq/=.
  - unfold isTerminating. by rewrite Hm.
  - unfold GetOwnerReferences, meta, Pod_Object. by rewrite Hm.
Qed.

Lemma setPodRevision_identity set pod r :
  identityMatches set (setPodRevision pod r) = identityMatches set pod ∧
  storageMatches set (setPodRevision pod r) = storageMatches set pod.
Proof.
  split; [|done]. unfold identityMatches.
  change (getParentNameAndOrdinal (setPodRevision pod r)) with (getParentNameAndOrdinal pod).
  destruct (getParentNameAndOrdinal pod). simpl. by rewrite map_get_set_ne.
Qed.

Lemma newVersionedStatefulSetPod_facts currentSet updateSet cur upd ordinal pod :
  plain_name currentSet → plain_name updateSet → 0 ≤ ordinal < 2147483648 →
  newVersionedStatefulSetPod currentSet updateSet cur upd ordinal = Some pod →
  ∃ current : bool,
    let set := if current then currentSet else updateSet in
    getPodRevision pod = (if current then cur else upd) ∧
    identityMatches set pod = true ∧ storageMatches set pod = true ∧
    getOrdinal pod = ordinal ∧ isCreated pod = false ∧ isTerminating pod = false ∧
    GetOwnerReferences pod = [NewControllerRef (set_meta set) controllerKind] ∧
    (∀ ru p, RollingUpdate (UpdateStrategy (Spec currentSet)) = Some ru → Partition ru = Some p →
       current = (ordinal <? getStartOrdinal currentSet + p)).
Proof.
  intros Hc Hu Ho. unfold newVersionedStatefulSetPod.
  destruct (at_current_revision currentSet ordinal) as [current|] eqn:Hat; [|done]. simpl.
  assert (∀ ru p, RollingUpdate (UpdateStrategy (Spec currentSet)) = Some ru →
            Partition ru = Some p → current = (ordinal <? getStartOrdinal currentSet + p)) as Hpart.
  { intros ru p Hru Hp. unfold at_current_revision in Hat. rewrite Hru in Hat.
    rewrite (bool_decide_eq_false_2 (Some ru = None)) in Hat by done.
    rewrite andb_false_r, Hp in Hat. by simplify_eq/=. }
  intros Hpod. exists current.
  destruct current;
    destruct (newStatefulSetPod _ _) as [pod'|] eqn:Hnew; simplify_eq/=;
    pose proof (λ Hpl, newStatefulSetPod_spec _ _ _ Hpl Ho Hnew) as Hspec;
    destruct Hspec as (Hid & Hst & ? & ? & ? & ?); try done;
    match goal with |- context [setPodRevision _ ?r] =>
      destruct (setPodRevision_identity currentSet pod' r), (setPodRevision_identity updateSet pod' r) end;
    rewrite getPodRevision_set; split_and!; congruence || done.
Qed.

(** The labels the controller sets itself. *)
Definition controller_labels : list string := [StatefulSetPodNameLabel; PodIndexLabel; StatefulSetRevisionLabel].

(** A new pod is controlled by the set it is made from and has the other labels of
    its template. *)
Lemma newVersionedStatefulSetPod_labels currentSet updateSet cur upd ordinal pod :
  newVersionedStatefulSetPod currentSet updateSet cur upd ordinal = Some pod →
  ∃ set l, (set = currentSet ∨ set = updateSet) ∧
    OwnerReferences (pod_meta pod) = [NewControllerRef (set_meta set) controllerKind] ∧
    Labels (pod_meta pod) = Some l ∧
    ∀ k, k ∉ controller_labels → l !! k = getPodsLabelSet (Template (Spec set)) !! k.
Proof.
  assert (∀ set pod' rev, newStatefulSetPod set ordinal = Some pod' →
    OwnerReferences (pod_meta (setPodRevision pod' rev)) = [NewControllerRef (set_meta set) controllerKind] ∧
    ∃ l, Labels (pod_meta (setPodRevision pod' rev)) = Some l ∧
      ∀ k, k ∉ controller_labels → l !! k = getPodsLabelSet (Template (Spec set)) !! k) as Hnew.
  { intros set pod' rev. unfold newStatefulSetPod, updateStorage.
    destruct (getPersistentVolumeClaims _ _); [|done]. intros [= <-]. split; [done|].
    eexists. split; [reflexivity|]. intros k Hk. cbn.
    rewrite !lookup_insert_ne; [done|intros <-; apply Hk; set_solver..]. }
  unfold newVersionedStatefulSetPod. destruct (at_current_revision _ _) as [[]|]; [| |done]; simpl;
    destruct (newStatefulSetPod _ _) as [pod'|] eqn:Hp; try done; intros [= <-].
  - destruct (Hnew _ _ cur Hp) as [Hr (l & Hl & Hk)]. exists currentSet, l. auto.
  - destruct (Hnew _ _ upd Hp) as [Hr (l & Hl & Hk)]. exists updateSet, l. auto.
Qed.

(** C28: a pod made for a free ordinal has a valid identity and storage for the
    set it is made from, carries the ordinal and the name of the revision, is
    controlled by the set and not yet created.  Under a partition the ordinals
    below it are made at the current revision and the others at the update
    revision. *)
Theorem newVersionedStatefulSetPod_spec currentSet updateSet cur upd ordinal pod :
  plain_name currentSet → plain_name updateSet → 0 ≤ ordinal < 2147483648 →
  newVersionedStatefulSetPod currentSet updateSet cur upd ordinal = Some pod →
  ∃ current : bool,
    let set := if current then currentSet else updateSet in
    getPodRevision pod = (if current then cur else upd) ∧
    identityMatches set pod = true ∧ storageMatches set pod = true ∧
    getOrdinal pod = ordinal ∧ isCreated pod = false ∧ isTerminating pod = false ∧
    GetOwnerReferences pod = [NewControllerRef (set_meta set) controllerKind] ∧
    (∀ ru p, RollingUpdate (UpdateStrategy (Spec currentSet)) = Some ru → Partition ru = Some p →
       current = (ordinal <? getStartOrdinal currentSet + p)).
Proof. apply newVersionedStatefulSetPod_facts. Qed.

(** Recording a status converges: once a completed status has been written
    to the set, completing it again changes nothing and it is not inconsistent
    any more, so no further write follows. *)
Lemma completeRollingUpdate_converges set status status' :
  completeRollingUpdate set status = Some status' →
  completeRollingUpdate (set_Status status' set) status' = Some status' ∧
  inconsistentStatus (set_Status status' set) status' = false.
Proof.
  intros Hc. split.
  - unfold completeRollingUpdate in *; simpl.
    destruct (bool_decide (us_Type _ = _)); [|done].
    destruct (Replicas (Spec set)) as [r|]; [|done]. simpl in *.
    destruct (_ && _) eqn:Hall in Hc; apply (inj Some) in Hc; subst status'; simpl; by rewrite Hall.
  - unfold inconsistentStatus; simpl.
    rewrite Z.ltb_irrefl, !Z.eqb_refl, !bool_decide_eq_false_2; [done|by auto..].
Qed.
End props.

Section numbers.
Context `{K8s}.

(** The number given to a new revision is greater than that of every known
    one, as long as the counter has not reached the largest [int64]. *)
Theorem nextRevision_newest revisions r :
  let sorted := SortControllerRevisions revisions in
  (∀ x, x ∈ revisions → 0 ≤ Revision x < 9223372036854775807) → r ∈ revisions →
  Revision r < nextRevision sorted.
Proof.
  intros sorted Hrange Hr. unfold nextRevision.
  assert (sorted ≡ₚ revisions) as Hperm by apply sort_Stable_perm.
  assert (r ∈ sorted) as Hrs by (by rewrite Hperm).
  pose proof (sort_Stable_sorted byRevision_Less revisions) as Hs.
  change (sort_Stable byRevision_Less revisions) with sorted in Hs.
  destruct (list.last sorted) as [m|] eqn:Hm.
  2:{ apply last_None in Hm. rewrite Hm in Hrs. by apply not_elem_of_nil in Hrs. }
  apply last_Some in Hm as [l Hl]. rewrite Hl in Hs, Hrs.
  assert (Revision r ≤ Revision m) as Hle.
  { apply elem_of_app in Hrs as [Hrs| ->%list_elem_of_singleton]; [|done].
    apply StronglySorted_app in Hs as (Hlt & _ & _). specialize (Hlt r m Hrs (list_elem_of_here _ _)).
    unfold not_after, byRevision_Less in Hlt. destruct (Revision m =? Revision r) eqn:?; lia. }
  assert (m ∈ revisions) as Hin by (rewrite <- Hperm, Hl; set_solver).
  rewrite wrap64_small; [lia|]. specialize (Hrange m Hin). unfold in_int64. lia.
Qed.
End numbers.
