(* ===== verification/PodControl.v ===== *)
(** * Pod control ([pkg/controller/xstatefulset/xstateful_pod_control.go])

    Creation, update and deletion of a pod of a set, and of its claims.  The
    object manager is the one used in production: reads go to the listers' caches
    ([PodListerGet], [ClaimListerGet]), writes to the API server.  The status
    updater is in this file too. *)
From S2P Require Export Claims.

Section object_manager.
Context `{K8s}.

(** ** [realStatefulPodControlObjectManager] *)

Definition CreatePod (pod : Pod) : go (option error) :=
  call (PodsCreate (Namespace (pod_meta pod)) pod).
Definition GetPod (namespace podName : string) : go (Pod + error) :=
  call (PodListerGet namespace podName).
Definition UpdatePod (pod : Pod) : go (option error) :=
  call (PodsUpdate (Namespace (pod_meta pod)) pod).
Definition DeletePod (pod : Pod) : go (option error) :=
  call (PodsDelete (Namespace (pod_meta pod)) (Name (pod_meta pod))).
Definition CreateClaim (claim : PersistentVolumeClaim) : go (option error) :=
  call (ClaimsCreate (Namespace (pvc_meta claim)) claim).
Definition GetClaim (namespace claimName : string) : go (PersistentVolumeClaim + error) :=
  call (ClaimListerGet namespace claimName).
Definition UpdateClaim (claim : PersistentVolumeClaim) : go (option error) :=
  call (ClaimsUpdate (Namespace (pvc_meta claim)) claim).
End object_manager.

Section pod_control.
Context `{K8s} `{GoRuntime}.

(** ** Events *)

Definition recordPodEvent (verb : string) (set : XStatefulSet) (pod : Pod) (err : option error)
    : go unit :=
  match err with
  | None =>
      call (RecordEvent (set_meta set) "Normal" ("Successful" +:+ TitleEnglish verb)
              (TitleEnglish verb +:+ " Pod " +:+ Name (pod_meta pod) +:+ " in StatefulSet "
               +:+ Name (set_meta set) +:+ " successful"))
  | Some err =>
      call (RecordEvent (set_meta set) "Warning" ("Failed" +:+ TitleEnglish verb)
              (TitleEnglish verb +:+ " Pod " +:+ Name (pod_meta pod) +:+ " in StatefulSet "
               +:+ Name (set_meta set) +:+ " failed error: " +:+ Error err))
  end.

Definition recordClaimEvent (verb : string) (set : XStatefulSet) (pod : Pod)
    (claim : PersistentVolumeClaim) (err : option error) : go unit :=
  match err with
  | None =>
      call (RecordEvent (set_meta set) "Normal" ("Successful" +:+ TitleEnglish verb)
              (TitleEnglish verb +:+ " Claim " +:+ Name (pvc_meta claim) +:+ " Pod "
               +:+ Name (pod_meta pod) +:+ " in StatefulSet " +:+ Name (set_meta set)
               +:+ " success"))
  | Some err =>
      call (RecordEvent (set_meta set) "Warning" ("Failed" +:+ TitleEnglish verb)
              (TitleEnglish verb +:+ " Claim " +:+ Name (pvc_meta claim) +:+ " for Pod "
               +:+ Name (pod_meta pod) +:+ " in StatefulSet " +:+ Name (set_meta set)
               +:+ " failed error: " +:+ Error err))
  end.

(** ** Claims *)

(** One iteration of [createPersistentVolumeClaims]: what it appends to [errs]. *)
Definition createPersistentVolumeClaim (set : XStatefulSet) (pod : Pod)
    (claim : PersistentVolumeClaim) : go (list (option error)) :=
  r ← GetClaim (Namespace (pvc_meta claim)) (Name (pvc_meta claim));
  match r with
  | inr err =>
      if IsNotFound err then
        err ← CreateClaim claim;
        let errs :=
          match err with
          | Some e => [Some (Errorf ("failed to create PVC " +:+ Name (pvc_meta claim) +:+ ": "
                                     +:+ Error e) None)]
          | None => []
          end in
        if negb (is_err IsAlreadyExists err)
        then recordClaimEvent "create" set pod claim err;; mret errs
        else mret errs
      else
        recordClaimEvent "create" set pod claim (Some err);;
        mret [Some (Errorf ("failed to retrieve PVC " +:+ Name (pvc_meta claim) +:+ ": "
                            +:+ Error err) None)]
  | inl pvc =>
      if bool_decide (DeletionTimestamp (pvc_meta pvc) ≠ None)
      then mret [Some (Errorf ("pvc " +:+ Name (pvc_meta claim) +:+ " is being deleted") None)]
      else mret []
  end.

Fixpoint createClaims (set : XStatefulSet) (pod : Pod) (claims : list (string * PersistentVolumeClaim))
    (errs : list (option error)) : go (option error) :=
  match claims with
  | [] => mret (NewAggregate errs)
  | (_, claim) :: claims =>
      es ← createPersistentVolumeClaim set pod claim;
      createClaims set pod claims (errs ++ es)
  end.

Definition createPersistentVolumeClaims (set : XStatefulSet) (pod : Pod) : go (option error) :=
  claims ← deref (getPersistentVolumeClaims set pod);
  createClaims set pod (map_range claims) [].

Fixpoint claims_match (set : XStatefulSet) (pod : Pod) (templates : list PersistentVolumeClaim)
    : go (bool + error) :=
  match templates with
  | [] => mret (inl true)
  | template :: templates =>
      let claimName := getPersistentVolumeClaimName set template (getOrdinal pod) in
      r ← GetClaim (Namespace (set_meta set)) claimName;
      match r with
      | inr err =>
          if IsNotFound err then claims_match set pod templates
          else mret (inr (Errorf ("Could not retrieve claim " +:+ claimName +:+ " for "
                   +:+ Name (pod_meta pod) +:+ " when checking PVC deletion policy") None))
      | inl claim =>
          upToDate ← deref (isClaimOwnerUpToDate claim set pod);
          if negb upToDate then mret (inl false) else claims_match set pod templates
      end
  end.

Definition ClaimsMatchRetentionPolicy (set : XStatefulSet) (pod : Pod) : go (bool + error) :=
  claims_match set pod (VolumeClaimTemplates (Spec set)).

(** The [default] case of [UpdatePodClaimForRetentionPolicy]. *)
Definition update_claim (set : XStatefulSet) (pod : Pod) (claimName : string)
    (claim : PersistentVolumeClaim) : go (option error) :=
  (if hasUnexpectedController claim set pod
   then call (RecordEvent (set_meta set) "Warning" "ConflictingController"
          ("PersistentVolumeClaim " +:+ claimName +:+ " has a conflicting OwnerReference that acts as a manging controller, the retention policy is ignored for this claim"))
   else mret tt);;
  upToDate ← deref (isClaimOwnerUpToDate claim set pod);
  if negb upToDate then
    claim ← deref (updateClaimOwnerRefForSetAndPod claim set pod);
    err ← UpdateClaim claim;
    mret
      (match err with
       | Some e => Some (Errorf ("could not update claim " +:+ claimName
                     +:+ " for delete policy ownerRefs: " +:+ Error e) (Some e))
       | None => None
       end)
  else mret None.

Fixpoint update_claims (set : XStatefulSet) (pod : Pod) (templates : list PersistentVolumeClaim)
    : go (option error) :=
  match templates with
  | [] => mret None
  | template :: templates =>
      let claimName := getPersistentVolumeClaimName set template (getOrdinal pod) in
      r ← GetClaim (Namespace (set_meta set)) claimName;
      match r with
      | inr err =>
          if IsNotFound err then update_claims set pod templates
          else mret (Some (Errorf ("Could not retrieve claim " +:+ claimName +:+ " not found for "
                   +:+ Name (pod_meta pod) +:+ " when checking PVC deletion policy: "
                   +:+ Error err) (Some err)))
      | inl claim =>
          err ← update_claim set pod claimName claim;
          match err with
          | Some err => mret (Some err)
          | None => update_claims set pod templates
          end
      end
  end.

Definition UpdatePodClaimForRetentionPolicy (set : XStatefulSet) (pod : Pod) : go (option error) :=
  update_claims set pod (VolumeClaimTemplates (Spec set)).

Fixpoint stale_claim (pod : Pod) (claims : list (string * PersistentVolumeClaim)) : go (bool + error) :=
  match claims with
  | [] => mret (inl false)
  | (_, claim) :: claims =>
      r ← GetClaim (Namespace (pvc_meta claim)) (Name (pvc_meta claim));
      match r with
      | inr err => if IsNotFound err then stale_claim pod claims else mret (inr err)
      | inl pvc => if hasStaleOwnerRef pvc pod podKind then mret (inl true) else stale_claim pod claims
      end
  end.

Definition PodClaimIsStale (set : XStatefulSet) (pod : Pod) : go (bool + error) :=
  if bool_decide (WhenScaled (getPersistentVolumeClaimRetentionPolicy set) = RetainPolicyType)
  then mret (inl false)
  else
    claims ← deref (getPersistentVolumeClaims set pod);
    stale_claim pod (map_range claims).

Definition createMissingPersistentVolumeClaims (set : XStatefulSet) (pod : Pod) : go (option error) :=
  err ← createPersistentVolumeClaims set pod;
  match err with
  | Some err => mret (Some err)
  | None =>
      err ← UpdatePodClaimForRetentionPolicy set pod;
      match err with
      | Some err => recordPodEvent "update" set pod (Some err);; mret (Some err)
      | None => mret None
      end
  end.

(** ** Pods *)

Definition CreateStatefulPod (set : XStatefulSet) (pod : Pod) : go (option error) :=
  err ← createPersistentVolumeClaims set pod;
  match err with
  | Some err => recordPodEvent "create" set pod (Some err);; mret (Some err)
  | None =>
      err ← CreatePod pod;
      if is_err IsAlreadyExists err then mret err
      else
        policyErr ← UpdatePodClaimForRetentionPolicy set pod;
        match policyErr with
        | Some e => recordPodEvent "update" set pod (Some e);; mret (Some e)
        | None => recordPodEvent "create" set pod err;; mret err
        end
  end.

(** The end of the closure: commit a dirty pod. *)
Definition commit_pod (set : XStatefulSet) (pod : Pod) (consistent attemptedUpdate : bool)
    : go (option error * (Pod * bool)) :=
  if consistent then mret (None, (pod, attemptedUpdate))
  else
    updateErr ← UpdatePod pod;
    match updateErr with
    | None => mret (None, (pod, true))
    | Some _ =>
        r ← GetPod (Namespace (set_meta set)) (Name (pod_meta pod));
        mret (updateErr, (match r with inl updated => updated | inr _ => pod end, true))
    end.

(** The closure passed to [RetryOnConflict]; it captures [pod] and [attemptedUpdate]. *)
Definition update_pod_attempt (set : XStatefulSet) (state : Pod * bool)
    : go (option error * (Pod * bool)) :=
  let '(pod, attemptedUpdate) := state in
  let fail (pod : Pod) (err : error) :=
    recordPodEvent "update" set pod (Some err);; mret (Some err, (pod, attemptedUpdate)) in
  let consistent := identityMatches set pod in
  let pod := if consistent then pod else updateIdentity set pod in
  '(pod, consistent, err) ←
    (if storageMatches set pod then mret (pod, consistent, None)
     else
       pod ← deref (updateStorage set pod);
       err ← createPersistentVolumeClaims set pod;
       mret (pod, false, err));
  match err with
  | Some err => fail pod err
  | None =>
      match' ← ClaimsMatchRetentionPolicy set pod;
      match match' with
      | inr err => fail pod err
      | inl true => commit_pod set pod consistent attemptedUpdate
      | inl false =>
          err ← UpdatePodClaimForRetentionPolicy set pod;
          match err with
          | Some err => fail pod err
          | None => commit_pod set pod false attemptedUpdate
          end
      end
  end.

Definition UpdateStatefulPod `{!ClientGo} (set : XStatefulSet) (pod : Pod) : go (option error) :=
  '(err, (pod, attemptedUpdate)) ←
    RetryOnConflict DefaultBackoff (update_pod_attempt set) (pod, false);
  if attemptedUpdate : bool then recordPodEvent "update" set pod err;; mret err
  else mret err.

Definition DeleteStatefulPod (set : XStatefulSet) (pod : Pod) : go (option error) :=
  err ← DeletePod pod;
  recordPodEvent "delete" set pod err;;
  mret err.

(** ** Status updater ([xstateful_set_status_updater.go]) *)

Definition update_status_attempt (status : XStatefulSetStatus) (set : XStatefulSet)
    : go (option error * XStatefulSet) :=
  let set := set_Status status set in
  updateErr ← call (SetsUpdateStatus (Namespace (set_meta set)) set);
  match updateErr with
  | None => mret (None, set)
  | Some _ =>
      r ← call (SetListerGet (Namespace (set_meta set)) (Name (set_meta set)));
      mret (updateErr, match r with inl updated => updated | inr _ => set end)
  end.

Definition UpdateStatefulSetStatus `{!ClientGo} (set : XStatefulSet) (status : XStatefulSetStatus)
    : go (option error) :=
  '(err, _) ← RetryOnConflict DefaultRetry (update_status_attempt status) set;
  mret err.
End pod_control.

(** ** What the operations may call *)

Section calls.
Context `{K8s} `{GoLaws} (Adm : obs reply → Prop).

(** Reading and writing claims, and recording events. *)
Definition claim_io (e : api_call) : Prop :=
  match e with
  | ClaimListerGet _ _ | ClaimsCreate _ _ | ClaimsUpdate _ _ | RecordEvent _ _ _ _ => True
  | _ => False
  end.

(** The pointers dereferenced by these operations are set. *)
Definition well_formed (set : XStatefulSet) : Prop :=
  is_Some (Selector (Spec set)) ∧ is_Some (Replicas (Spec set)).

Lemma getPersistentVolumeClaims_total set pod :
  is_Some (Selector (Spec set)) → is_Some (getPersistentVolumeClaims set pod).
Proof.
  intros [sel Hsel]. unfold getPersistentVolumeClaims.
  generalize (∅ : gmap string PersistentVolumeClaim).
  induction (VolumeClaimTemplates (Spec set)) as [|t ts IH]; intros m; [by eexists|].
  cbn [foldl]. destruct (claim_of_template set (getOrdinal pod) t) as [c|] eqn:Hc; [apply IH|].
  exfalso. unfold claim_of_template in Hc. by rewrite Hsel in Hc.
Qed.

Lemma podInOrdinalRange_total set pod :
  is_Some (Replicas (Spec set)) → is_Some (podInOrdinalRange pod set).
Proof. intros [r Hr]. rewrite (podInOrdinalRange_spec _ _ _ Hr). by eexists. Qed.

Lemma isClaimOwnerUpToDate_total claim set pod :
  is_Some (Replicas (Spec set)) → is_Some (isClaimOwnerUpToDate claim set pod).
Proof.
  intros Hr. destruct (podInOrdinalRange_total set pod Hr) as [b Hb].
  unfold isClaimOwnerUpToDate. rewrite Hb. simpl.
  repeat first [by eexists | case_match].
Qed.

Lemma updateClaimOwnerRef_total claim set pod :
  is_Some (Replicas (Spec set)) → is_Some (updateClaimOwnerRefForSetAndPod claim set pod).
Proof.
  intros Hr. destruct (podInOrdinalRange_total set pod Hr) as [b Hb].
  unfold updateClaimOwnerRefForSetAndPod. rewrite Hb. simpl.
  repeat first [by eexists | case_match].
Qed.

Context (P : api_call → Prop) (HP : ∀ e, claim_io e → P e).
Notation safe := (safe Adm P).

(** Follow the program: calls are allowed, results arbitrary. *)
Ltac io_step :=
  lazymatch goal with
  | |- Boundary.safe _ _ (mret _) _ => by apply safe_ret
  | |- Boundary.safe _ _ (call _) _ => by (safe_call; [by apply HP|])
  | |- Boundary.safe _ _ (_ ≫= _) _ =>
      eapply (safe_bind _ _ _ _ (λ _, True)); [|intros ? _]
  | |- Boundary.safe _ _ (match ?x with _ => _ end) _ => destruct x
  | |- Boundary.safe _ _ (if ?b then _ else _) _ => destruct b
  end.
Ltac io := repeat (io_step; cbv beta iota zeta).

Lemma recordPodEvent_safe verb set pod err : safe (recordPodEvent verb set pod err) (λ _, True).
Proof. unfold recordPodEvent. io. Qed.
Lemma recordClaimEvent_safe verb set pod c err :
  safe (recordClaimEvent verb set pod c err) (λ _, True).
Proof. unfold recordClaimEvent. io. Qed.

Lemma createClaims_safe set pod claims errs : safe (createClaims set pod claims errs) (λ _, True).
Proof.
  revert errs. induction claims as [|[n c] claims IH]; intros errs; cbn [createClaims]; [io|].
  eapply (safe_bind _ _ _ _ (λ _, True)); [|intros es _; apply IH].
  unfold createPersistentVolumeClaim, GetClaim, CreateClaim. io; apply recordClaimEvent_safe.
Qed.
Lemma createPersistentVolumeClaims_safe set pod :
  well_formed set → safe (createPersistentVolumeClaims set pod) (λ _, True).
Proof.
  intros [Hsel _]. destruct (getPersistentVolumeClaims_total set pod Hsel) as [cs Hcs].
  unfold createPersistentVolumeClaims. eapply safe_bind; [by apply (safe_deref _ _ _ cs (λ _, True))|].
  intros. apply createClaims_safe.
Qed.

Lemma ClaimsMatchRetentionPolicy_safe set pod :
  well_formed set → safe (ClaimsMatchRetentionPolicy set pod) (λ _, True).
Proof.
  intros [_ Hr]. unfold ClaimsMatchRetentionPolicy.
  induction (VolumeClaimTemplates (Spec set)) as [|t ts IH]; cbn [claims_match]; [io|].
  unfold GetClaim. io_step; [io_step|]. destruct a as [claim|err].
  - destruct (isClaimOwnerUpToDate_total claim set pod Hr) as [b Hb].
    eapply safe_bind; [by apply (safe_deref _ _ _ b (λ _, True))|].
    intros b' _. destruct (negb b'); [io|apply IH].
  - destruct (IsNotFound err); [apply IH|io].
Qed.

Lemma update_claim_safe set pod n claim :
  well_formed set → safe (update_claim set pod n claim) (λ _, True).
Proof.
  intros [_ Hr]. unfold update_claim, UpdateClaim. io_step; [io|].
  destruct (isClaimOwnerUpToDate_total claim set pod Hr) as [b Hb].
  eapply safe_bind; [by apply (safe_deref _ _ _ b (λ _, True))|]. intros b' _.
  destruct (negb b'); [|io].
  destruct (updateClaimOwnerRef_total claim set pod Hr) as [c Hc].
  eapply safe_bind; [by apply (safe_deref _ _ _ c (λ _, True))|]. intros c' _. io.
Qed.
Lemma UpdatePodClaimForRetentionPolicy_safe set pod :
  well_formed set → safe (UpdatePodClaimForRetentionPolicy set pod) (λ _, True).
Proof.
  intros Hwf. unfold UpdatePodClaimForRetentionPolicy.
  induction (VolumeClaimTemplates (Spec set)) as [|t ts IH]; cbn [update_claims]; [io|].
  unfold GetClaim. io_step; [io_step|]. destruct a as [claim|err].
  - eapply safe_bind; [by apply update_claim_safe|]. intros [e|] _; [io|apply IH].
  - destruct (IsNotFound err); [apply IH|io].
Qed.

Lemma PodClaimIsStale_safe set pod : well_formed set → safe (PodClaimIsStale set pod) (λ _, True).
Proof.
  intros [Hsel _]. unfold PodClaimIsStale. destruct (bool_decide _); [io|].
  destruct (getPersistentVolumeClaims_total set pod Hsel) as [cs Hcs].
  eapply safe_bind; [by apply (safe_deref _ _ _ cs (λ _, True))|]. intros cs' _.
  induction (map_range cs') as [|[n c] l IH]; cbn [stale_claim]; [io|].
  unfold GetClaim. io_step; [io_step|]. destruct a as [pvc|err].
  - destruct (hasStaleOwnerRef _ _ _); [io|apply IH].
  - destruct (IsNotFound err); [apply IH|io].
Qed.

Lemma createMissingPersistentVolumeClaims_safe set pod :
  well_formed set → safe (createMissingPersistentVolumeClaims set pod) (λ _, True).
Proof.
  intros Hwf. unfold createMissingPersistentVolumeClaims.
  io_step; [by apply createPersistentVolumeClaims_safe|]. destruct a; [io|].
  io_step; [by apply UpdatePodClaimForRetentionPolicy_safe|]. io. apply recordPodEvent_safe.
Qed.
End calls.

(** ** Creations and deletions of pods in a trace *)

Section events.
Context `{K8s}.

Inductive pod_event := EvCreate (ns : string) (pod : Pod) | EvDelete (ns name : string).
Definition event_of (e : api_call) : option pod_event :=
  match e with
  | PodsCreate ns pod => Some (EvCreate ns pod)
  | PodsDelete ns name => Some (EvDelete ns name)
  | _ => None
  end.
Definition pod_events (tr : list (obs reply)) : list pod_event :=
  omap (λ x : obs reply, event_of (projT1 x)) tr.
(** Neither creates nor deletes a pod. *)
Definition quiet (e : api_call) : Prop := event_of e = None.

Lemma pod_events_app tr tr' : pod_events (tr ++ tr') = pod_events tr ++ pod_events tr'.
Proof. apply omap_app. Qed.
Lemma pod_events_cons (x : obs reply) tr :
  pod_events (x :: tr) =
  match event_of (projT1 x) with Some v => v :: pod_events tr | None => pod_events tr end.
Proof. done. Qed.
Lemma pod_events_quiet tr : Forall (λ x : obs reply, quiet (projT1 x)) tr → pod_events tr = [].
Proof. induction 1 as [|x tr Hx _ IH]; [done|]. unfold quiet in Hx. by rewrite pod_events_cons, Hx. Qed.
Lemma claim_io_quiet e : claim_io e → quiet e.
Proof. by destruct e. Qed.

Context (Adm : obs reply → Prop) (I : list (obs reply) → api_call → Prop).
Context (HI : ∀ tr e, quiet e → I tr e).

(** A program that creates and deletes nothing, then the rest. *)
Lemma wp_quiet {A} (p : go A) (Φ : A → Prop) (Ψ : list (obs reply) → option A → Prop) tr :
  safe Adm quiet p Φ →
  (∀ new a, Forall Adm new → pod_events new = [] → Φ a → Ψ (tr ++ new) (Some a)) →
  wp Adm I p Ψ tr.
Proof.
  intros Hp HΨ. eapply wp_weaken; [done|intros tr' e; apply HI|].
  eapply wp_mono; [|by apply (safe_trace _ _ p Φ)].
  intros tr' o (a & -> & Ha & new & -> & Hnew). apply HΨ; [|apply pod_events_quiet|done];
    (eapply List.Forall_impl; [|exact Hnew]); by intros x [? ?].
Qed.

Lemma wp_quiet_bind {A B} (p : go A) (f : A → go B) (Φ : A → Prop) Ψ tr :
  safe Adm quiet p Φ →
  (∀ new a, Forall Adm new → pod_events new = [] → Φ a → wp Adm I (f a) Ψ (tr ++ new)) →
  wp Adm I (p ≫= f) Ψ tr.
Proof. intros Hp Hf. apply wp_bind_2. by eapply (wp_quiet p Φ). Qed.
End events.

Section lifecycle.
Context `{K8s} `{GoLaws} (Adm : obs reply → Prop) (I : list (obs reply) → api_call → Prop).
Context (HI : ∀ tr e, quiet e → I tr e).

(** Exactly one deletion, of this pod. *)
Lemma DeleteStatefulPod_wp set pod Ψ tr :
  I tr (PodsDelete (Namespace (pod_meta pod)) (Name (pod_meta pod))) →
  (∀ new err, Forall Adm new →
     pod_events new = [EvDelete (Namespace (pod_meta pod)) (Name (pod_meta pod))] →
     Ψ (tr ++ new) (Some err)) →
  wp Adm I (DeleteStatefulPod set pod) Ψ tr.
Proof.
  intros Hd HΨ. unfold DeleteStatefulPod, DeletePod. apply wp_call_bind; [done|]. intros err Herr.
  eapply (wp_quiet_bind _ _ HI _ _ (λ _, True)).
  { apply (recordPodEvent_safe _ _ claim_io_quiet). }
  intros new [] Hall Hnew _. apply wp_ret. rewrite <- (assoc_L (++)). apply HΨ; [by constructor|].
  by rewrite pod_events_app, Hnew.
Qed.

(** At most one creation, of this pod, after its claims. *)
Lemma CreateStatefulPod_wp set pod Ψ tr :
  well_formed set →
  (∀ new, Forall Adm new → pod_events new = [] →
     I (tr ++ new) (PodsCreate (Namespace (pod_meta pod)) pod)) →
  (∀ new err, Forall Adm new → pod_events new = [] ∧ err ≠ None ∨
     pod_events new = [EvCreate (Namespace (pod_meta pod)) pod] →
     Ψ (tr ++ new) (Some err)) →
  wp Adm I (CreateStatefulPod set pod) Ψ tr.
Proof.
  intros Hwf Hc HΨ. unfold CreateStatefulPod, CreatePod.
  eapply (wp_quiet_bind _ _ HI _ _ (λ _, True)).
  { by apply (createPersistentVolumeClaims_safe _ _ claim_io_quiet). }
  intros new [err|] Hall Hnew _.
  { eapply (wp_quiet_bind _ _ HI _ _ (λ _, True)).
    { apply (recordPodEvent_safe _ _ claim_io_quiet). }
    intros new' [] Hall' Hnew' _. apply wp_ret. rewrite <- (assoc_L (++)).
    apply HΨ; [by apply Forall_app|]. left. by rewrite pod_events_app, Hnew, Hnew'. }
  apply wp_call_bind; [by apply Hc|]. intros err Herr.
  rewrite <- (assoc_L (++)). set (tr1 := new ++ _).
  assert (∀ new2 e, Forall Adm new2 → pod_events new2 = [] → Ψ ((tr ++ tr1) ++ new2) (Some e)) as Hdone.
  { intros new2 e Hall2 Hnew2. rewrite <- (assoc_L (++)). apply HΨ.
    - unfold tr1. apply Forall_app; split; [apply Forall_app; split; [done|by repeat constructor]|done].
    - right. unfold tr1. by rewrite !pod_events_app, Hnew, Hnew2. }
  destruct (is_err IsAlreadyExists err).
  { apply wp_ret. specialize (Hdone [] err). rewrite app_nil_r in Hdone. by apply Hdone. }
  eapply (wp_quiet_bind _ _ HI _ _ (λ _, True)).
  { by apply (UpdatePodClaimForRetentionPolicy_safe _ _ claim_io_quiet). }
  intros new2 [e|] Hall2 Hnew2 _;
    (eapply (wp_quiet_bind _ _ HI _ _ (λ _, True));
     [apply (recordPodEvent_safe _ _ claim_io_quiet)|]);
    intros new3 [] Hall3 Hnew3 _; apply wp_ret; rewrite <- (assoc_L (++)); apply Hdone;
    rewrite ?Forall_app, ?pod_events_app, ?Hnew2, ?Hnew3; done.
Qed.
End lifecycle.

(** ** Properties of the operations *)

Section props.
Context `{K8sLaws} `{GoLaws}.

(** *** Creation *)

(** The claim of that name is in the cache and not being deleted, or it was just
    created. *)
Definition claim_ready (tr : list (obs reply)) (ns name : string) : Prop :=
  (∃ pvc : PersistentVolumeClaim,
     existT (ClaimListerGet ns name) (inl pvc) ∈ tr ∧ DeletionTimestamp (pvc_meta pvc) = None) ∨
  (∃ claim, Name (pvc_meta claim) = name ∧ existT (ClaimsCreate ns claim) None ∈ tr).

Lemma claim_ready_app tr tr' ns name : claim_ready tr ns name → claim_ready (tr ++ tr') ns name.
Proof.
  intros [(pvc & Hin & Hd)|(c & Hc & Hin)].
  - left. exists pvc. split; [|done]. apply elem_of_app. by left.
  - right. exists c. split; [done|]. apply elem_of_app. by left.
Qed.

Definition claim_name (set : XStatefulSet) (template : PersistentVolumeClaim) (ordinal : Z) : string :=
  Name (pvc_meta template) +:+ "-" +:+ Name (set_meta set) +:+ "-" +:+ Itoa ordinal.

(** The claim of a template for an ordinal: the template in the namespace of the
    set, renamed, with the labels of the set's selector put over its own. *)
Definition instance_of (set : XStatefulSet) (ordinal : Z) (template claim : PersistentVolumeClaim) : Prop :=
  Name (pvc_meta claim) = claim_name set template ordinal ∧
  Namespace (pvc_meta claim) = Namespace (set_meta set) ∧
  pvc_Spec claim = pvc_Spec template ∧
  (∀ k, default ∅ (Labels (pvc_meta claim)) !! k =
        match (selector ← Selector (Spec set); labels ← MatchLabels selector; labels !! k) with
        | Some v => Some v
        | None => default ∅ (Labels (pvc_meta template)) !! k
        end) ∧
  with_Labels None (with_Name "" (with_Namespace "" (pvc_meta claim))) =
    with_Labels None (with_Name "" (with_Namespace "" (pvc_meta template))).

(** What the creation of a pod may call, given what was observed before. *)
Definition creates_only (set : XStatefulSet) (pod : Pod) (tr : list (obs reply)) (e : api_call) : Prop :=
  let ns := Namespace (set_meta set) in
  let templates := VolumeClaimTemplates (Spec set) in
  match e with
  | ClaimListerGet ns' _ => ns' = ns
  | RecordEvent obj _ _ _ => obj = set_meta set
  | ClaimsCreate ns' claim =>
      ns' = ns ∧
      (∃ template, template ∈ templates ∧ instance_of set (getOrdinal pod) template claim) ∧
      ∃ err : error, IsNotFound err = true ∧ existT (ClaimListerGet ns (Name (pvc_meta claim))) (inr err) ∈ tr
  | ClaimsUpdate ns' claim =>
      ∃ template old refs, template ∈ templates ∧
        existT (ClaimListerGet ns (claim_name set template (getOrdinal pod))) (inl old) ∈ tr ∧
        ns' = Namespace (pvc_meta old) ∧ claim = SetOwnerReferences refs old
  | PodsCreate ns' p =>
      ns' = Namespace (pod_meta pod) ∧ p = pod ∧ pod_events tr = [] ∧
      ∀ template, template ∈ templates → claim_ready tr ns (claim_name set template (getOrdinal pod))
  | _ => False
  end.

Lemma claim_of_template_instance set o template claim :
  claim_of_template set o template = Some claim → instance_of set o template claim.
Proof.
  unfold claim_of_template, instance_of. destruct (Selector (Spec set)) as [sel|]; [|done]. simpl.
  intros [= <-]. destruct template as [[] spec], Labels; simpl; (split_and!; [reflexivity..| |reflexivity]); intros k.
  - destruct (MatchLabels sel) as [m|]; simpl; [|by rewrite (left_id_L ∅ (∪))].
    rewrite lookup_union. destruct (m !! k), (g !! k); reflexivity.
  - destruct (MatchLabels sel) as [m|]; simpl; [|reflexivity]. destruct (m !! k); [reflexivity|].
    by rewrite lookup_empty.
Qed.

Lemma updateClaimOwnerRef_only_refs claim set pod claim' :
  updateClaimOwnerRefForSetAndPod claim set pod = Some claim' → ∃ refs, claim' = SetOwnerReferences refs claim.
Proof.
  unfold updateClaimOwnerRefForSetAndPod. destruct (hasUnexpectedController _ _ _); [intros [= <-]; by eexists|].
  destruct (classify _) ; [..|]; simpl; try (intros [= <-]; by eexists);
    (destruct (podInOrdinalRange _ _); simpl; [intros [= <-]; by eexists|done]).
Qed.

Notation creating set pod := (wp (λ _, True) (creates_only set pod)).

Lemma createPersistentVolumeClaim_ready set pod template claim tr :
  template ∈ VolumeClaimTemplates (Spec set) → instance_of set (getOrdinal pod) template claim →
  creating set pod (createPersistentVolumeClaim set pod claim)
    (returns (λ tr' es, ∃ new, tr' = tr ++ new ∧ pod_events new = [] ∧ Forall (λ o, o ≠ None) es ∧
       (es = [] → claim_ready tr' (Namespace (set_meta set)) (Name (pvc_meta claim))))) tr.
Proof.
  intros Ht Hinst. unfold createPersistentVolumeClaim, GetClaim, CreateClaim, recordClaimEvent.
  destruct (Hinst) as (_ & -> & _).
  apply wp_call_bind; [done|]. intros [pvc|err] _.
  - dec (DeletionTimestamp (pvc_meta pvc) = None) as Hd.
    + rewrite bool_decide_eq_false_2 by auto. apply wp_ret. exists []. split; [done|].
      eexists. split_and!; [done|done|constructor|]. intros _. left. exists pvc.
      split; [set_solver|done].
    + rewrite bool_decide_eq_true_2 by done. apply wp_ret. eexists. split; [done|].
      eexists. by split_and!; repeat constructor.
  - destruct (IsNotFound err) eqn:Hnf.
    + apply wp_call_bind.
      { split_and!; [done|by exists template|exists err; split; [done|set_solver]]. }
      intros [e|] _; simpl.
      * destruct (negb _); [apply wp_call_bind; [done|]; intros [] _|]; apply wp_ret;
          (eexists; split; [done|]; eexists; split_and!; [rewrite <- ?(assoc_L (++)); done|done|by repeat constructor|done]).
      * apply wp_call_bind; [done|]. intros [] _. apply wp_ret. eexists; split; [done|].
        eexists; split_and!; [by rewrite <- ?(assoc_L (++))|done|constructor|].
        intros _. right. exists claim. split; [done|]. set_solver.
    + apply wp_call_bind; [done|]. intros [] _. apply wp_ret. eexists; split; [done|].
      eexists; split_and!; [by rewrite <- ?(assoc_L (++))|done|by repeat constructor|done].
Qed.

(** The claims of a list are the instances of the set's templates. *)
Definition instances (set : XStatefulSet) (pod : Pod) (claims : list (string * PersistentVolumeClaim)) : Prop :=
  ∀ n claim, (n, claim) ∈ claims →
    ∃ template, template ∈ VolumeClaimTemplates (Spec set) ∧ instance_of set (getOrdinal pod) template claim.

Lemma createClaims_ready set pod claims errs tr :
  instances set pod claims → Forall (λ o, o ≠ None) errs →
  creating set pod (createClaims set pod claims errs)
    (returns (λ tr' err, ∃ new, tr' = tr ++ new ∧ pod_events new = [] ∧
       (err = None → errs = [] ∧ ∀ n claim, (n, claim) ∈ claims →
          claim_ready tr' (Namespace (set_meta set)) (Name (pvc_meta claim))))) tr.
Proof.
  intros Hins. revert errs tr. induction claims as [|[n c] claims IH]; intros errs tr Herrs; cbn [createClaims].
  { apply wp_ret. eexists; split; [done|]. exists []. rewrite app_nil_r. split_and!; [done..|].
    rewrite NewAggregate_None. intros Hn. split; [|by intros ? ? ?%not_elem_of_nil].
    destruct errs; [done|]. by inversion Hn; inversion Herrs. }
  destruct (Hins n c) as (t & Ht & Hc); [set_solver|].
  eapply wp_seq; [by apply (createPersistentVolumeClaim_ready _ _ t)|].
  intros tr' es (new & -> & Hnew & Hes & Hready).
  eapply wp_mono; [|apply IH; [intros n' c' Hin; apply (Hins n'); set_solver|by apply Forall_app]].
  intros tr'' o (err & -> & new' & -> & Hnew' & Herr). exists err. split; [done|].
  exists (new ++ new'). rewrite (assoc_L (++)), pod_events_app, Hnew, Hnew'.
  split_and!; [done..|]. intros He. destruct (Herr He) as [Hnil Hall].
  apply app_nil in Hnil as [-> ->]. split; [done|].
  intros n' c' [[= -> ->]|Hin]%elem_of_cons; [by apply claim_ready_app, Hready|by eapply Hall].
Qed.

Lemma recordPodEvent_creating set pod verb pod' err tr :
  creating set pod (recordPodEvent verb set pod' err) (returns (λ _ _, True)) tr.
Proof. unfold recordPodEvent. destruct err; (split; [reflexivity|]); intros [] _; by exists (). Qed.

Lemma update_claim_creating set pod template claim tr :
  well_formed set → template ∈ VolumeClaimTemplates (Spec set) →
  existT (ClaimListerGet (Namespace (set_meta set)) (claim_name set template (getOrdinal pod))) (inl claim) ∈ tr →
  creating set pod (update_claim set pod (claim_name set template (getOrdinal pod)) claim)
    (returns (λ _ _, True)) tr.
Proof.
  intros [_ Hr] Ht Hin. unfold update_claim, UpdateClaim.
  eapply (wp_seq _ _ _ _ (λ tr' _, ∃ new, tr' = tr ++ new)).
  { destruct (hasUnexpectedController _ _ _).
    - split; [reflexivity|]. intros [] _. exists (). split; [reflexivity|by eexists].
    - apply wp_ret. exists (). split; [done|]. exists []. by rewrite app_nil_r. }
  intros tr' [] [new ->]. destruct (isClaimOwnerUpToDate_total claim set pod Hr) as [b ->].
  change (deref (Some b) ≫= ?f) with (f b); cbv beta. destruct (negb b); [|by apply wp_ret; eexists].
  destruct (updateClaimOwnerRefForSetAndPod claim set pod) as [claim'|] eqn:Hup.
  2:{ destruct (updateClaimOwnerRef_total claim set pod Hr) as [c Hc]. congruence. }
  change (deref (Some claim') ≫= ?f) with (f claim'); cbv beta.
  destruct (updateClaimOwnerRef_only_refs _ _ _ _ Hup) as [refs ->].
  apply wp_call_bind; [|intros err _; apply wp_ret; by eexists].
  exists template, claim, refs. split_and!; [done|set_solver|done|done].
Qed.

Lemma UpdatePodClaimForRetentionPolicy_creating set pod tr :
  well_formed set →
  creating set pod (UpdatePodClaimForRetentionPolicy set pod) (returns (λ _ _, True)) tr.
Proof.
  intros Hwf. unfold UpdatePodClaimForRetentionPolicy.
  assert (∀ t, t ∈ VolumeClaimTemplates (Spec set) → t ∈ VolumeClaimTemplates (Spec set)) as Hsub by done.
  revert tr Hsub. generalize (VolumeClaimTemplates (Spec set)) at 1 3 as ts.
  induction ts as [|t ts IH]; intros tr Hsub; cbn [update_claims]; [by apply wp_ret; eexists|].
  unfold GetClaim. apply wp_call_bind; [done|]. intros [claim|err] _.
  - eapply wp_seq; [apply update_claim_creating; [done|apply Hsub; set_solver|set_solver]|].
    intros tr' [e|] _; [by apply wp_ret; eexists|]. apply IH. set_solver.
  - destruct (IsNotFound err); [apply IH; set_solver|by apply wp_ret; eexists].
Qed.

(** C17: a pod is created at most once, unchanged, and only after for each claim
    template of the set the claim [template-set-ordinal] was found alive in the
    cache, or created without error, in the same call.  A claim is created only
    if the cache did not have it, in the namespace of the set, as the template
    under that name with the labels of the set's selector put over its own; a
    claim is updated only if it was read under such a name, and then only its
    owner references change.  Nothing else is called but events about the set
    and the operation does not panic. *)
Theorem CreateStatefulPod_after_claims set pod :
  well_formed set →
  wp (λ _, True) (creates_only set pod) (CreateStatefulPod set pod) (returns (λ _ _, True)) [].
Proof.
  intros Hwf. destruct (getPersistentVolumeClaims_total set pod) as [claims Hclaims]; [apply Hwf|].
  unfold CreateStatefulPod, createPersistentVolumeClaims, CreatePod. rewrite Hclaims.
  change (deref (Some claims) ≫= _) with (createClaims set pod (map_range claims) []).
  eapply wp_seq; [apply createClaims_ready; [|done]|].
  { intros n c. rewrite map_range_perm, elem_of_map_to_list. intros Hc.
    destruct (getPersistentVolumeClaims_lookup _ _ _ n Hclaims) as [_ Hfrom].
    destruct (Hfrom _ Hc) as (t & Ht & _ & Hct). exists t. split; [done|]. by apply claim_of_template_instance. }
  intros tr [err|] (new & -> & Hnew & Hready).
  { eapply wp_seq; [apply recordPodEvent_creating|]. intros. apply wp_ret. by eexists. }
  apply wp_call_bind.
  { split_and!; [done..|]. intros t Ht.
    destruct (getPersistentVolumeClaims_lookup _ _ _ (Name (pvc_meta t)) Hclaims) as [Hsome Hfrom].
    destruct Hsome as [c Hc]; [by apply (list_elem_of_fmap_2 (λ t, Name (pvc_meta t)))|]. destruct (Hfrom _ Hc) as (t' & _ & Hn & Hct).
    assert (Name (pvc_meta c) = claim_name set t (getOrdinal pod)) as <-.
    { apply claim_of_template_instance in Hct as [-> _]. unfold claim_name. by rewrite Hn. }
    apply (proj2 (Hready eq_refl)) with (n := Name (pvc_meta t)). rewrite map_range_perm. by apply elem_of_map_to_list. }
  intros err _. destruct (is_err _ _); [by apply wp_ret; eexists|].
  eapply wp_seq; [by apply UpdatePodClaimForRetentionPolicy_creating|].
  intros tr [e|] _; (eapply wp_seq; [apply recordPodEvent_creating|]); intros; apply wp_ret; by eexists.
Qed.

(** *** Update *)

(** The pod cache answers a lookup with the pod of that name. *)
Definition honest_lister (o : obs reply) : Prop :=
  match o with
  | existT (PodListerGet _ name) r => ∀ pod, r = inl pod → Name (pod_meta pod) = name
  | _ => True
  end.

(** Writes of a pod: only one that conforms to the set. *)
Definition writes_conforming (set : XStatefulSet) (e : api_call) : Prop :=
  match e with
  | PodsUpdate ns pod =>
      ns = Namespace (set_meta set) ∧ identityMatches set pod = true ∧ storageMatches set pod = true
  | PodListerGet _ _ => True
  | _ => claim_io e
  end.

Lemma claim_io_conforming set e : claim_io e → writes_conforming set e.
Proof. by destruct e. Qed.

Definition conforms (set : XStatefulSet) (pod : Pod) : Prop :=
  identityMatches set pod = true ∧ storageMatches set pod = true ∧ 0 ≤ getOrdinal pod.

Lemma getOrdinal_name pod pod' :
  Name (pod_meta pod) = Name (pod_meta pod') → getOrdinal pod = getOrdinal pod'.
Proof. intros Hn. unfold getOrdinal, getParentNameAndOrdinal. by rewrite Hn. Qed.

Lemma commit_pod_safe set pod consistent attempted :
  conforms set pod →
  safe honest_lister (writes_conforming set) (commit_pod set pod consistent attempted)
    (λ r, 0 ≤ getOrdinal r.2.1).
Proof.
  intros (Hid & Hst & Ho). unfold commit_pod, UpdatePod, GetPod. destruct consistent; [by apply safe_ret|].
  eapply (safe_bind _ _ _ _ (λ _, True)).
  { safe_call; [|done]. split_and!; [|done..]. apply identityMatches_fields in Hid. tauto. }
  intros [err|] _; [|by apply safe_ret].
  eapply (safe_bind _ _ _ _ (λ r : Pod + error, ∀ p, r = inl p → Name (pod_meta p) = Name (pod_meta pod))).
  { safe_call; [done|]. intros r Hr p Hp. by apply Hr. }
  intros [p|e] Hp; apply safe_ret; simpl; [|done]. by rewrite (getOrdinal_name p pod) by auto.
Qed.

Lemma update_pod_attempt_safe set s :
  plain_name set → well_formed set → 0 ≤ getOrdinal s.1 →
  safe honest_lister (writes_conforming set) (update_pod_attempt set s) (λ r, 0 ≤ getOrdinal r.2.1).
Proof.
  destruct s as [pod attempted]. intros Hpl Hwf Ho. unfold update_pod_attempt.
  set (pod1 := if identityMatches set pod then pod else updateIdentity set pod).
  assert (identityMatches set pod1 = true ∧ 0 ≤ getOrdinal pod1) as [Hid1 Ho1].
  { subst pod1. destruct (identityMatches set pod) eqn:Hid; [done|].
    destruct (updateIdentity_matches set pod Hpl) as (-> & _ & ->); [|done].
    split; [|done]. by apply bool_decide_eq_true. }
  eapply (safe_bind _ _ _ _ (λ r : Pod * bool * option error, conforms set r.1.1)).
  - destruct (storageMatches set pod1) eqn:Hst; [by apply safe_ret|].
    destruct (updateStorage set pod1) as [pod2|] eqn:Hup.
    2:{ exfalso. unfold updateStorage in Hup.
        destruct (getPersistentVolumeClaims_total set pod1 (proj1 Hwf)) as [c Hc].
        by rewrite Hc in Hup. }
    destruct (updateStorage_matches set pod1 pod2 Ho1 Hup) as (Hst2 & _ & Hm).
    eapply safe_bind; [by apply (safe_deref _ _ _ pod2 (λ p, p = pod2))|]. intros ? ->.
    eapply (safe_bind _ _ _ _ (λ _, True));
      [by apply (createPersistentVolumeClaims_safe _ _ (claim_io_conforming set))|].
    intros err _. apply safe_ret. simpl.
    assert (getParentNameAndOrdinal pod2 = getParentNameAndOrdinal pod1) as Hp
      by (unfold getParentNameAndOrdinal; by rewrite Hm).
    split_and!; [|done|unfold getOrdinal in *; by rewrite Hp].
    rewrite <- Hid1. unfold identityMatches. by rewrite Hp, Hm.
  - intros [[pod2 consistent] err] Hc; simpl in Hc.
    assert (∀ err, safe honest_lister (writes_conforming set)
      (recordPodEvent "update" set pod2 (Some err);; mret (Some err, (pod2, attempted)))
      (λ r, 0 ≤ getOrdinal r.2.1)) as Hfail.
    { intros e. eapply (safe_bind _ _ _ _ (λ _, True));
        [apply (recordPodEvent_safe _ _ (claim_io_conforming set))|].
      intros _ _. apply safe_ret, Hc. }
    destruct err as [err|]; [apply Hfail|].
    eapply (safe_bind _ _ _ _ (λ _, True));
      [by apply (ClaimsMatchRetentionPolicy_safe _ _ (claim_io_conforming set))|].
    intros [[]|e] _; [by apply commit_pod_safe| |apply Hfail].
    eapply (safe_bind _ _ _ _ (λ _, True));
      [by apply (UpdatePodClaimForRetentionPolicy_safe _ _ (claim_io_conforming set))|].
    intros [e|] _; [apply Hfail|by apply commit_pod_safe].
Qed.

Lemma UpdateStatefulPod_safe `{!ClientGo} set pod :
  plain_name set → well_formed set → 0 ≤ getOrdinal pod →
  safe honest_lister (writes_conforming set) (UpdateStatefulPod set pod) (λ _, True).
Proof.
  intros Hpl Hwf Ho. unfold UpdateStatefulPod.
  eapply safe_bind; [apply (safe_retry _ _ _ _ (λ s : Pod * bool, 0 ≤ getOrdinal s.1) (λ _ _, True))|].
  - intros s Hs. eapply safe_mono; [|by apply update_pod_attempt_safe]. done.
  - done.
  - intros [err [pod' attempted]] _. destruct attempted; [|by apply safe_ret].
    eapply safe_bind; [apply (recordPodEvent_safe _ _ (claim_io_conforming set))|].
    intros. by apply safe_ret.
Qed.

(** C18: every version of a pod that [UpdateStatefulPod] sends to the API server,
    also after conflicts and re-reads from the cache, has a valid identity and
    storage for the set and is in its namespace; no pod is created or deleted,
    and the update ends with a result. *)
Theorem UpdateStatefulPod_writes `{!ClientGo} set pod :
  plain_name set → well_formed set → 0 ≤ getOrdinal pod →
  wp honest_lister (λ _, writes_conforming set) (UpdateStatefulPod set pod) (returns (λ _ _, True)) [].
Proof. intros. by apply UpdateStatefulPod_safe. Qed.

End props.

(** *** Status *)

Section status_props.
Context `{K8s}.

Definition writes_status (status : XStatefulSetStatus) (e : api_call) : Prop :=
  match e with
  | SetsUpdateStatus ns set => ns = Namespace (set_meta set) ∧ Status set = status
  | SetListerGet _ _ => True
  | _ => False
  end.

Definition accepted (status : XStatefulSetStatus) (tr : list (obs reply)) : Prop :=
  ∃ s, Status s = status ∧ existT (SetsUpdateStatus (Namespace (set_meta s)) s) None ∈ tr.

Lemma UpdateStatefulSetStatus_wp `{!ClientGo} set status tr :
  wp (λ _, True) (λ _, writes_status status) (UpdateStatefulSetStatus set status)
    (returns (λ tr' err, err = None → accepted status tr')) tr.
Proof.
  unfold UpdateStatefulSetStatus. apply wp_bind_2.
  eapply wp_mono; [|apply (RetryOnConflict_wp _ _ (λ _ _, True)
    (λ tr err _, err = None → accepted status tr)); [|done]].
  - intros tr' o (err & s & -> & _ & HQ). apply wp_ret. by exists err.
  - intros s tr' _. unfold update_status_attempt.
    apply wp_call_bind; [done|]. intros [err|] _.
    + apply wp_call_bind; [done|]. intros r _. apply wp_ret. by eexists _, _.
    + apply wp_ret. eexists _, _. split_and!; [done|done|]. intros _.
      exists (set_Status status s). split; [done|]. set_solver.
Qed.

(** The status updater only ever writes the status it was given, also onto
    the copies it re-reads after a conflict; when it reports no error some write
    of that status was accepted. *)
Theorem UpdateStatefulSetStatus_writes `{!ClientGo} set status :
  wp (λ _, True) (λ _, writes_status status) (UpdateStatefulSetStatus set status)
    (returns (λ tr err, err = None → accepted status tr)) [].
Proof. apply UpdateStatefulSetStatus_wp. Qed.
End status_props.
