(* ===== verification/Control.v ===== *)
(** * The control loop ([pkg/controller/xstatefulset/xstateful_set_control.go])

    [defaultStatefulSetControl]: one synchronisation of a set with its pods and
    its revision history.  The history is used through [HistoryInterface]; the
    pods through the operations of [PodControl]. *)
From S2P Require Export PodControl Revision.

(** ** Batches and loops over the pods *)

Section batches.
Context `{K8s}.

Definition MaxBatchSize : Z := 500.

(** The [for] loop of [slowStartBatch].  Each batch is non-empty, so [remaining]
    iterations are enough fuel (see [slowStartBatch_complete]). *)
Fixpoint slowStart_loop (fuel : nat) (batchSize remaining j successes : Z)
    (fn : Z → go (bool * option error)) : go (Z * option error) :=
  match fuel with
  | O => mret (successes, None)
  | S fuel =>
      if 0 <? batchSize then
        results ← par ((λ k, '(_, err) ← fn k; mret err) <$> seqZ j batchSize);
        let errs := omap id results in
        let successes := successes + (batchSize - Z.of_nat (length errs)) in
        if 0 <? Z.of_nat (length errs) then mret (successes, NewAggregate (Some <$> errs))
        else
          let remaining := remaining - batchSize in
          slowStart_loop fuel (Z.min (Z.min (2 * batchSize) remaining) MaxBatchSize)
            remaining (j + batchSize) successes fn
      else mret (successes, None)
  end.

Definition slowStartBatch (initialBatchSize remaining : Z) (fn : Z → go (bool * option error))
    : go (Z * option error) :=
  slowStart_loop (Z.to_nat remaining) (Z.min remaining initialBatchSize) remaining 0 0 fn.

Fixpoint for_all (indices : list Z) (fn : Z → go (bool * option error)) : go (bool * option error) :=
  match indices with
  | [] => mret (false, None)
  | i :: indices =>
      '(shouldExit, err) ← fn i;
      if (shouldExit : bool) || not_nil err then mret (true, err)
      else for_all indices fn
  end.
End batches.

Section control.
Context `{K8s} `{GoRuntime} `{!ClientGo} `{!HistoryInterface}.

Definition runForAll (pods : list Pod) (fn : Z → go (bool * option error)) (monotonic : bool)
    : go (bool * option error) :=
  if monotonic then for_all (seqZ 0 (Z.of_nat (length pods))) fn
  else
    '(_, err) ← slowStartBatch 1 (Z.of_nat (length pods)) fn;
    match err with
    | Some err => mret (true, Some err)
    | None => mret (false, None)
    end.

(** ** Status *)

Record replicaStatus := {
  replicas : Z; readyReplicas : Z; availableReplicas : Z; currentReplicas : Z; updatedReplicas : Z }.

(** [n++] on an [int32], when [b]. *)
Definition count (b : bool) (n : Z) : Z := if b then wrap32 (n + 1) else n.

(** One iteration: the clock is read only for a pod that is running and ready. *)
Definition count_pod (minReadySeconds : Z) (currentRevision updateRevision : Rev)
    (status : replicaStatus) (pod : Pod) : go replicaStatus :=
  available ←
    (if isRunningAndReady pod
     then now ← call Now; mret (isRunningAndAvailable now pod minReadySeconds)
     else mret false);
  let live := isCreated pod && negb (isTerminating pod) in
  mret
    {| replicas := count (isCreated pod) (replicas status);
       readyReplicas := count (isRunningAndReady pod) (readyReplicas status);
       availableReplicas := count available (availableReplicas status);
       currentReplicas :=
         count (live && bool_decide (getPodRevision pod = Name (cr_meta currentRevision)))
           (currentReplicas status);
       updatedReplicas :=
         count (live && bool_decide (getPodRevision pod = Name (cr_meta updateRevision)))
           (updatedReplicas status) |}.

Fixpoint count_pods (minReadySeconds : Z) (currentRevision updateRevision : Rev)
    (status : replicaStatus) (pods : list Pod) : go replicaStatus :=
  match pods with
  | [] => mret status
  | pod :: pods =>
      status ← count_pod minReadySeconds currentRevision updateRevision status pod;
      count_pods minReadySeconds currentRevision updateRevision status pods
  end.

Definition zero_replicaStatus : replicaStatus :=
  {| replicas := 0; readyReplicas := 0; availableReplicas := 0; currentReplicas := 0;
     updatedReplicas := 0 |}.

Definition computeReplicaStatus (pods : list Pod) (minReadySeconds : Z)
    (currentRevision updateRevision : Rev) : go replicaStatus :=
  count_pods minReadySeconds currentRevision updateRevision zero_replicaStatus pods.

Definition set_counters (r : replicaStatus) (st : XStatefulSetStatus) : XStatefulSetStatus :=
  {| ObservedGeneration := ObservedGeneration st; st_Replicas := replicas r;
     ReadyReplicas := readyReplicas r; CurrentReplicas := currentReplicas r;
     UpdatedReplicas := updatedReplicas r; CurrentRevision := CurrentRevision st;
     UpdateRevision := UpdateRevision st; CollisionCount := CollisionCount st;
     st_Conditions := st_Conditions st; AvailableReplicas := availableReplicas r;
     st_Selector := st_Selector st |}.

Definition add_replicaStatus (s r : replicaStatus) : replicaStatus :=
  {| replicas := wrap32 (replicas s + replicas r);
     readyReplicas := wrap32 (readyReplicas s + readyReplicas r);
     availableReplicas := wrap32 (availableReplicas s + availableReplicas r);
     currentReplicas := wrap32 (currentReplicas s + currentReplicas r);
     updatedReplicas := wrap32 (updatedReplicas s + updatedReplicas r) |}.

Fixpoint sum_statuses (minReadySeconds : Z) (currentRevision updateRevision : Rev)
    (acc : replicaStatus) (podLists : list (list Pod)) : go replicaStatus :=
  match podLists with
  | [] => mret acc
  | pods :: podLists =>
      r ← computeReplicaStatus pods minReadySeconds currentRevision updateRevision;
      sum_statuses minReadySeconds currentRevision updateRevision (add_replicaStatus acc r) podLists
  end.

Definition updateStatus (status : XStatefulSetStatus) (minReadySeconds : Z)
    (currentRevision updateRevision : Rev) (podLists : list (list Pod)) : go XStatefulSetStatus :=
  r ← sum_statuses minReadySeconds currentRevision updateRevision zero_replicaStatus podLists;
  mret (set_counters r status).

Definition decr_CurrentReplicas (st : XStatefulSetStatus) : XStatefulSetStatus :=
  {| ObservedGeneration := ObservedGeneration st; st_Replicas := st_Replicas st;
     ReadyReplicas := ReadyReplicas st; CurrentReplicas := wrap32 (CurrentReplicas st - 1);
     UpdatedReplicas := UpdatedReplicas st; CurrentRevision := CurrentRevision st;
     UpdateRevision := UpdateRevision st; CollisionCount := CollisionCount st;
     st_Conditions := st_Conditions st; AvailableReplicas := AvailableReplicas st;
     st_Selector := st_Selector st |}.

(** ** One replica, one condemned pod *)

(** [pods[i]]: out of range panics. *)
Definition index {A} (l : list A) (i : Z) : go A :=
  deref (if i <? 0 then None else l !! Z.to_nat i).

Definition processReplica (set updateSet : XStatefulSet) (monotonic : bool) (replicas : list Pod)
    (i : Z) : go (bool * option error) :=
  pod ← index replicas i;
  if isFailed pod || isSucceeded pod then
    if bool_decide (DeletionTimestamp (pod_meta pod) = None) then
      err ← DeleteStatefulPod set pod;
      mret (true, err)
    else mret (true, None)
  else
    r ← (if isCreated pod then mret None
         else
           isStale ← PodClaimIsStale set pod;
           match isStale with
           | inr err => mret (Some (true, Some err))
           | inl true => mret (Some (true, None))
           | inl false =>
               err ← CreateStatefulPod set pod;
               match err with
               | Some err => mret (Some (true, Some err))
               | None => mret (if monotonic then Some (true, None) else None)
               end
           end);
    match r with Some ret => mret ret | None =>
    r ← (if isPending pod then createMissingPersistentVolumeClaims set pod else mret None);
    match r with Some err => mret (true, Some err) | None =>
    if isTerminating pod && monotonic then mret (true, None)
    else if negb (isRunningAndReady pod) && monotonic then mret (true, None)
    else
      now ← call Now;
      if negb (isRunningAndAvailable now pod (MinReadySeconds (Spec set))) && monotonic
      then mret (true, None)
      else
        r ← ClaimsMatchRetentionPolicy updateSet pod;
        let retentionMatch := match r with inr _ => true | inl b => b end in
        if identityMatches set pod && storageMatches set pod && retentionMatch
        then mret (false, None)
        else
          err ← UpdateStatefulPod updateSet pod;
          match err with
          | Some err => mret (true, Some err)
          | None => mret (false, None)
          end
    end end.

(** A pointer to an element of [replicas] or of [condemned].  The pods of the
    slice the controller is given are distinct objects, so two such pointers
    are equal when they are the same element. *)
Inductive pod_ref := InReplicas (i : Z) | InCondemned (i : Z).
#[export] Instance pod_ref_eq_dec : EqDecision pod_ref.
Proof. solve_decision. Defined.

Definition processCondemned (set : XStatefulSet) (firstUnhealthyPod : option pod_ref)
    (monotonic : bool) (condemned : list Pod) (i : Z) : go (bool * option error) :=
  pod ← index condemned i;
  if isTerminating pod then mret (if monotonic then (true, None) else (false, None))
  else if negb (isRunningAndReady pod) && monotonic
          && bool_decide (Some (InCondemned i) ≠ firstUnhealthyPod)
  then mret (true, None)
  else
    now ← call Now;
    if negb (isRunningAndAvailable now pod (MinReadySeconds (Spec set))) && monotonic
       && bool_decide (Some (InCondemned i) ≠ firstUnhealthyPod)
    then mret (true, None)
    else
      err ← DeleteStatefulPod set pod;
      mret (true, err).

(** [fixPodClaim], the closure of [updateStatefulSet]. *)
Definition fixPodClaim (updateSet : XStatefulSet) (condemned : list Pod) (i : Z)
    : go (bool * option error) :=
  pod ← index condemned i;
  matchPolicy ← ClaimsMatchRetentionPolicy updateSet pod;
  match matchPolicy with
  | inr err => mret (true, Some err)
  | inl true => mret (false, None)
  | inl false =>
      err ← UpdatePodClaimForRetentionPolicy updateSet pod;
      match err with
      | Some err => mret (true, Some err)
      | None => mret (false, None)
      end
  end.

(** ** Partition of the pods *)

(** [replicas] (nil where no pod has the ordinal) and [condemned]; the last pod
    with an ordinal wins, a pod without ordinal is ignored. *)
Fixpoint partition_pods (set : XStatefulSet) (pods : list Pod) (replicas : list (option Pod))
    (condemned : list Pod) : go (list (option Pod) * list Pod) :=
  match pods with
  | [] => mret (replicas, condemned)
  | pod :: pods =>
      inRange ← deref (podInOrdinalRange pod set);
      if inRange : bool then
        let i := getOrdinal pod - getStartOrdinal set in
        _ ← index replicas i;
        partition_pods set pods (<[Z.to_nat i := Some pod]> replicas) condemned
      else if 0 <=? getOrdinal pod
      then partition_pods set pods replicas (condemned ++ [pod])
      else partition_pods set pods replicas condemned
  end.

(** The new pods of the empty slots; [ord] is the ordinal of the first slot. *)
Fixpoint fill_replicas (currentSet updateSet : XStatefulSet) (currentRevision updateRevision : string)
    (ord : Z) (replicas : list (option Pod)) : option (list Pod) :=
  match replicas with
  | [] => Some []
  | slot :: replicas =>
      pod ← match slot with
            | Some pod => Some pod
            | None => newVersionedStatefulSetPod currentSet updateSet currentRevision updateRevision ord
            end;
      pods ← fill_replicas currentSet updateSet currentRevision updateRevision (ord + 1) replicas;
      Some (pod :: pods)
  end.

(** The loops that look for unavailable pods: how many, and the first one. *)
Fixpoint find_unavailable (minReadySeconds : Z) (pods : list (pod_ref * Pod))
    (unavailable : Z) (first : option pod_ref) : go (Z * option pod_ref) :=
  match pods with
  | [] => mret (unavailable, first)
  | (ref, pod) :: pods =>
      now ← call Now;
      if isUnavailable now pod minReadySeconds
      then find_unavailable minReadySeconds pods (unavailable + 1)
             (match first with None => Some ref | Some _ => first end)
      else find_unavailable minReadySeconds pods unavailable first
  end.

Definition replica_refs (replicas : list Pod) : list (pod_ref * Pod) :=
  imap (λ i pod, (InReplicas (Z.of_nat i), pod)) replicas.
(** Condemned pods are visited from the last to the first. *)
Definition condemned_refs (condemned : list Pod) : list (pod_ref * Pod) :=
  reverse (imap (λ i pod, (InCondemned (Z.of_nat i), pod)) condemned).

(** ** Rolling update *)

(** [for target := len(replicas) - 1; target >= updateMin; target--] *)
Definition targets (replicas : list Pod) (updateMin : Z) : list Z :=
  reverse (seqZ updateMin (Z.of_nat (length replicas) - updateMin)).

(** Without [MaxUnavailableStatefulSet]: one pod at a time. *)
Fixpoint update_one (set : XStatefulSet) (replicas : list Pod) (updateRevision : Rev)
    (status : XStatefulSetStatus) (ts : list Z) : go (XStatefulSetStatus * option error) :=
  match ts with
  | [] => mret (status, None)
  | target :: ts =>
      pod ← index replicas target;
      if bool_decide (getPodRevision pod ≠ Name (cr_meta updateRevision)) && negb (isTerminating pod)
      then
        err ← DeleteStatefulPod set pod;
        match err with
        | Some e => if IsNotFound e then mret (decr_CurrentReplicas status, None)
                    else mret (status, Some e)
        | None => mret (decr_CurrentReplicas status, None)
        end
      else
        now ← call Now;
        if isUnavailable now pod (MinReadySeconds (Spec set)) then mret (status, None)
        else update_one set replicas updateRevision status ts
  end.

(** The loop of [updateStatefulSetAfterInvariantEstablished]. *)
Fixpoint update_many (set : XStatefulSet) (replicas : list Pod) (updateRevision : Rev)
    (podsToDelete deletedPods : Z) (status : XStatefulSetStatus) (ts : list Z)
    : go (XStatefulSetStatus * option error) :=
  match ts with
  | [] => mret (status, None)
  | target :: ts =>
      if deletedPods <? podsToDelete then
        pod ← index replicas target;
        if bool_decide (getPodRevision pod ≠ Name (cr_meta updateRevision)) && negb (isTerminating pod)
        then
          err ← DeleteStatefulPod set pod;
          match err with
          | Some e =>
              if IsNotFound e
              then update_many set replicas updateRevision podsToDelete (deletedPods + 1)
                     (decr_CurrentReplicas status) ts
              else mret (status, Some e)
          | None => update_many set replicas updateRevision podsToDelete (deletedPods + 1)
                      (decr_CurrentReplicas status) ts
          end
        else update_many set replicas updateRevision podsToDelete deletedPods status ts
      else mret (status, None)
  end.

Fixpoint count_unavailable (minReadySeconds : Z) (pods : list Pod) (unavailablePods : Z) : go Z :=
  match pods with
  | [] => mret unavailablePods
  | pod :: pods =>
      now ← call Now;
      count_unavailable minReadySeconds pods
        (if isUnavailable now pod minReadySeconds then unavailablePods + 1 else unavailablePods)
  end.

(** [updateMin] and [maxUnavailable]; the dereference of [Partition] may panic. *)
Definition rolling_parameters (set : XStatefulSet) (replicaCount : Z) : go ((Z * Z) + error) :=
  match RollingUpdate (UpdateStrategy (Spec set)) with
  | None => mret (inl (0, 1))
  | Some ru =>
      updateMin ← deref (Partition ru);
      match getStatefulSetMaxUnavailable (MaxUnavailable ru) replicaCount with
      | inr err => mret (inr err)
      | inl maxUnavailable => mret (inl (updateMin, maxUnavailable))
      end
  end.

Definition updateStatefulSetAfterInvariantEstablished (set : XStatefulSet) (replicas : list Pod)
    (updateRevision : Rev) (status : XStatefulSetStatus) : go (XStatefulSetStatus * option error) :=
  replicaCount ← deref (Replicas (Spec set));
  r ← rolling_parameters set replicaCount;
  match r with
  | inr err => mret (status, Some err)
  | inl (updateMin, maxUnavailable) =>
      unavailablePods ← count_unavailable (MinReadySeconds (Spec set)) (reverse replicas) 0;
      call (MetricSet "UnavailableReplicas"
              [Namespace (set_meta set); Name (set_meta set); PodManagementPolicy (Spec set)]
              unavailablePods);;
      if maxUnavailable <=? unavailablePods then mret (status, None)
      else
        update_many set replicas updateRevision (maxUnavailable - unavailablePods) 0 status
          (targets replicas updateMin)
  end.

(** ** [updateStatefulSet] *)

Definition initial_status (set : XStatefulSet) (currentRevision updateRevision : Rev)
    (collisionCount : Z) : XStatefulSetStatus :=
  {| ObservedGeneration := Generation (set_meta set); st_Replicas := 0; ReadyReplicas := 0;
     CurrentReplicas := 0; UpdatedReplicas := 0; CurrentRevision := Name (cr_meta currentRevision);
     UpdateRevision := Name (cr_meta updateRevision); CollisionCount := Some collisionCount;
     st_Conditions := []; AvailableReplicas := 0;
     st_Selector :=
       match Selector (Spec set) with
       | None => ""
       | Some _ => match LabelSelectorAsSelector (Selector (Spec set)) with
                   | inl sel => SelectorString sel
                   | inr _ => ""
                   end
       end |}.

(** [replicas] and [condemned] once filled and sorted. *)
Definition arrange_pods (set currentSet updateSet : XStatefulSet)
    (currentRevision updateRevision : Rev) (pods : list Pod) : go (list Pod * list Pod) :=
  replicaCount ← deref (Replicas (Spec set));
  if replicaCount <? 0 then Panic
  else
    '(slots, condemned) ←
      partition_pods set pods (replicate (Z.to_nat replicaCount) None) [];
    replicas ← deref (fill_replicas currentSet updateSet (Name (cr_meta currentRevision))
                        (Name (cr_meta updateRevision)) (getStartOrdinal set) slots);
    mret (replicas, sort_Sort descendingOrdinal_Less condemned).

(** What follows the status and the partition: the actions. *)
Definition act_on_pods (set updateSet : XStatefulSet) (currentRevision updateRevision : Rev)
    (status : XStatefulSetStatus) (replicas condemned : list Pod) (firstUnavailablePod : option pod_ref)
    : go (XStatefulSetStatus * option error) :=
  let monotonic := negb (allowsBurst set) in
  let refresh (status : XStatefulSetStatus) :=
    updateStatus status (MinReadySeconds (Spec set)) currentRevision updateRevision
      [replicas; condemned] in
  '(shouldExit, err) ← runForAll replicas (processReplica set updateSet monotonic replicas) monotonic;
  if shouldExit || not_nil err then status ← refresh status; mret (status, err)
  else
  '(shouldExit, err) ← runForAll condemned (fixPodClaim updateSet condemned) monotonic;
  if shouldExit || not_nil err then status ← refresh status; mret (status, err)
  else
  '(shouldExit, err) ←
    runForAll condemned (processCondemned set firstUnavailablePod monotonic condemned) monotonic;
  if shouldExit || not_nil err then status ← refresh status; mret (status, err)
  else
  status ← refresh status;
  if bool_decide (us_Type (UpdateStrategy (Spec set)) = OnDeleteStrategyType) then mret (status, None)
  else if FeatureEnabled MaxUnavailableStatefulSet
  then updateStatefulSetAfterInvariantEstablished set replicas updateRevision status
  else
    updateMin ← match RollingUpdate (UpdateStrategy (Spec set)) with
                | Some ru => deref (Partition ru)
                | None => mret 0
                end;
    update_one set replicas updateRevision status (targets replicas updateMin).

Definition updateStatefulSet (set : XStatefulSet) (currentRevision updateRevision : Rev)
    (collisionCount : Z) (pods : list Pod) : go (option XStatefulSetStatus * option error) :=
  r ← deref (ApplyRevision set currentRevision);
  match r with inr err => mret (None, Some err) | inl currentSet =>
  r ← deref (ApplyRevision set updateRevision);
  match r with inr err => mret (None, Some err) | inl updateSet =>
    status ← updateStatus (initial_status set currentRevision updateRevision collisionCount)
               (MinReadySeconds (Spec set)) currentRevision updateRevision [pods];
    '(replicas, condemned) ← arrange_pods set currentSet updateSet currentRevision updateRevision pods;
    '(unavailable, first) ←
      find_unavailable (MinReadySeconds (Spec set)) (replica_refs replicas) 0 None;
    '(_, firstUnavailablePod) ←
      find_unavailable (MinReadySeconds (Spec set)) (condemned_refs condemned) unavailable first;
    if bool_decide (DeletionTimestamp (set_meta set) ≠ None) then mret (Some status, None)
    else
      '(status, err) ←
        act_on_pods set updateSet currentRevision updateRevision status replicas condemned
          firstUnavailablePod;
      mret (Some status, err)
  end end.

(** ** Status of the set *)

(** Returns the error and the status as [completeRollingUpdate] left it. *)
Definition updateStatefulSetStatus (set : XStatefulSet) (status : XStatefulSetStatus)
    : go (option error * XStatefulSetStatus) :=
  status ← deref (completeRollingUpdate set status);
  err ←
    (if FeatureEnabled MaxUnavailableStatefulSet then
       replicaCount ← deref (Replicas (Spec set));
       match (match RollingUpdate (UpdateStrategy (Spec set)) with
              | Some ru => getStatefulSetMaxUnavailable (MaxUnavailable ru) replicaCount
              | None => inl 1
              end) with
       | inr err => mret (Some err)
       | inl maxUnavailable =>
           call (MetricSet "MaxUnavailable"
                   [Namespace (set_meta set); Name (set_meta set); PodManagementPolicy (Spec set)]
                   maxUnavailable);;
           mret None
       end
     else mret None);
  match err with
  | Some err => mret (Some err, status)
  | None =>
      if negb (inconsistentStatus set status) then mret (None, status)
      else
        err ← UpdateStatefulSetStatus set status;
        mret (err, status)
  end.

(** ** Revisions *)

Definition ListRevisions (set : XStatefulSet) : go (list Rev + error) :=
  match LabelSelectorAsSelector (Selector (Spec set)) with
  | inr err => mret (inr err)
  | inl sel => ListControllerRevisions (set_meta set) sel
  end.

(** The slice is updated in place: the result lists it with the error. *)
Fixpoint AdoptOrphanRevisions (set : XStatefulSet) (revisions : list Rev)
    : go (list Rev * option error) :=
  match revisions with
  | [] => mret ([], None)
  | r :: revisions =>
      adopted ← AdoptControllerRevision (set_meta set) controllerKind r;
      match adopted with
      | inr err => mret (r :: revisions, Some err)
      | inl adopted =>
          '(revisions, err) ← AdoptOrphanRevisions set revisions;
          mret (adopted :: revisions, err)
      end
  end.

Definition live_names (pods : list Pod) (current update : option Rev) : list string :=
  match current with Some r => [Name (cr_meta r)] | None => [] end
  ++ match update with Some r => [Name (cr_meta r)] | None => [] end
  ++ (getPodRevision <$> pods).

Fixpoint delete_revisions (history : list Rev) : go (option error) :=
  match history with
  | [] => mret None
  | r :: history =>
      err ← DeleteControllerRevision r;
      match err with
      | Some err => mret (Some err)
      | None => delete_revisions history
      end
  end.

Definition truncateHistory (set : XStatefulSet) (pods : list Pod) (revisions : list Rev)
    (current update : option Rev) : go (option error) :=
  let live := live_names pods current update in
  let history := filter (λ r : Rev, Name (cr_meta r) ∉ live) revisions in
  let historyLen := Z.of_nat (length history) in
  historyLimit ← deref (RevisionHistoryLimit (Spec set));
  if (historyLimit <? 0) || (historyLen <=? historyLimit) then mret None
  else delete_revisions (take (Z.to_nat (historyLen - historyLimit)) history).

Definition setMatchesLatestExistingRevision (set : XStatefulSet)
    (proposedRevision latestExistingRevision : Rev) : go bool :=
  if negb (FeatureEnabled StatefulSetSemanticRevisionComparison) then mret false
  else
    let key := (UID (set_meta set), Generation (set_meta set),
                ResourceVersion (cr_meta latestExistingRevision)) in
    ok ← call (LruGet key);
    if ok : bool then mret true
    else
      r ← deref (ApplyRevision set latestExistingRevision);
      match r with
      | inr _ => mret false
      | inl latestSet =>
          let latestSet := Scheme_Default latestSet in
          r ← deref (newRevision latestSet (-1) None);
          match r with
          | inr _ => mret false
          | inl reconstructed =>
              if EqualRevision (Some proposedRevision) (Some reconstructed)
              then call (LruAdd key);; mret true
              else mret false
          end
      end.

(** The update revision, and the collision count creation leaves behind; [None]
    when the fuel of creation runs out. *)
Definition chooseUpdateRevision (fuel : nat) (set : XStatefulSet) (revisions : list Rev)
    (updateRevision : Rev) (collisionCount : Z) : go (option ((Rev * Z) + error)) :=
  let equalRevisions := FindEqualRevisions revisions updateRevision in
  let create :=
    '(r, c) ← CreateControllerRevision fuel (set_meta set) updateRevision (Some collisionCount);
    mret
      (match r with
       | None => None
       | Some (inr err) => Some (inr err)
       | Some (inl created) => Some (inl (created, default collisionCount c))
       end) in
  match list.last revisions, list.last equalRevisions with
  | Some latest, Some equal =>
      if EqualRevision (Some latest) (Some equal) then mret (Some (inl (latest, collisionCount)))
      else
        '(r, err) ← UpdateControllerRevision equal (Revision updateRevision);
        mret (Some (match err with Some err => inr err | None => inl (r, collisionCount) end))
  | Some latest, None =>
      same ← setMatchesLatestExistingRevision set updateRevision latest;
      if same : bool then mret (Some (inl (latest, collisionCount))) else create
  | None, _ => create
  end.

Definition getStatefulSetRevisions (fuel : nat) (set : XStatefulSet) (revisions : list Rev)
    : go (option ((Rev * Rev * Z) + error)) :=
  let revisions := SortControllerRevisions revisions in
  let collisionCount := default 0 (CollisionCount (Status set)) in
  r ← deref (newRevision set (nextRevision revisions) (Some collisionCount));
  match r with
  | inr err => mret (Some (inr err))
  | inl updateRevision =>
      r ← chooseUpdateRevision fuel set revisions updateRevision collisionCount;
      mret
        (match r with
         | None => None
         | Some (inr err) => Some (inr err)
         | Some (inl (updateRevision, collisionCount)) =>
             let currentRevision :=
               List.find (λ r, bool_decide (Name (cr_meta r) = CurrentRevision (Status set))) revisions in
             Some (inl (default updateRevision currentRevision, updateRevision, collisionCount))
         end)
  end.

(** ** One synchronisation *)

Definition performUpdate (fuel : nat) (set : XStatefulSet) (pods : list Pod) (revisions : list Rev)
    : go (option (option Rev * option Rev * option XStatefulSetStatus * option error)) :=
  r ← getStatefulSetRevisions fuel set revisions;
  match r with
  | None => mret None
  | Some (inr err) => mret (Some (None, None, None, Some err))
  | Some (inl (currentRevision, updateRevision, collisionCount)) =>
      '(currentStatus, err) ←
        updateStatefulSet set currentRevision updateRevision collisionCount pods;
      match currentStatus with
      | None =>
          match err with
          | Some _ => mret (Some (Some currentRevision, Some updateRevision, None, err))
          | None => Panic
          end
      | Some currentStatus =>
          '(statusErr, currentStatus) ← updateStatefulSetStatus set currentStatus;
          mret (Some (Some currentRevision, Some updateRevision, Some currentStatus,
                      match err with Some _ => err | None => statusErr end))
      end
  end.

Definition UpdateStatefulSet (fuel : nat) (set : XStatefulSet) (pods : list Pod)
    : go (option (option XStatefulSetStatus * option error)) :=
  r ← ListRevisions set;
  match r with
  | inr err => mret (Some (None, Some err))
  | inl revisions =>
      let revisions := SortControllerRevisions revisions in
      r ← performUpdate fuel set pods revisions;
      match r with
      | None => mret None
      | Some (currentRevision, updateRevision, status, Some err) =>
          let errs := match Aggregate_Errors err with Some errs => errs | None => [err] end in
          truncateErr ← truncateHistory set pods revisions currentRevision updateRevision;
          mret (Some (None, NewAggregate ((Some <$> errs) ++ [truncateErr])))
      | Some (currentRevision, updateRevision, status, None) =>
          truncateErr ← truncateHistory set pods revisions currentRevision updateRevision;
          mret (Some (status, truncateErr))
      end
  end.
End control.
