(* ===== verification/ControlProps.v ===== *)
(** * Properties of the parts of the control loop

    Batches, replica counters, the revision history. *)
From S2P Require Export Control.

(** ** Batches *)

Section batches.
Context `{K8sLaws} (Adm : obs reply → Prop) (P : api_call → Prop) (HChoose : P Choose).
Context (fn : Z → go (bool * option error)) (total : Z) (Done : Z → list (obs reply) → Prop).
Hypothesis Hmono : ∀ k tr tr', 0 ≤ k < total → tr `sublist_of` tr' → Done k tr → Done k tr'.
Hypothesis Hfn : ∀ k tr, 0 ≤ k < total →
  wp Adm (λ _, P) (fn k) (returns (λ tr' r, r.2 = None → Done k tr')) tr.

Lemma omap_id_length {A} (l : list (option A)) : (length (omap id l) ≤ length l)%nat.
Proof. induction l as [|[a|] l IH]; [done|exact (le_n_S _ _ IH)|exact (le_S _ _ IH)]. Qed.

Lemma slowStart_loop_complete fuel batchSize remaining j tr :
  0 ≤ remaining ≤ Z.of_nat fuel → 0 ≤ j → j + remaining = total → batchSize ≤ remaining →
  (0 < remaining → 0 < batchSize) → (∀ k, 0 ≤ k < j → Done k tr) →
  wp Adm (λ _, P) (slowStart_loop fuel batchSize remaining j j fn)
    (returns (λ tr' r, j ≤ r.1 ≤ total ∧
       (r.2 = None → r.1 = total ∧ ∀ k, 0 ≤ k < total → Done k tr'))) tr.
Proof.
  revert batchSize remaining j tr. induction fuel as [|fuel IH];
    intros batchSize remaining j tr Hfuel Hj Htot Hb Hpos Hdone; cbn [slowStart_loop].
  { apply wp_ret. exists (j, None). split; [done|]. simpl. split; [lia|].
    intros _. assert (j = total) as -> by lia. done. }
  destruct (0 <? batchSize) eqn:Hbs.
  2:{ apply wp_ret. exists (j, None). split; [done|]. simpl. split; [lia|].
      intros _. assert (j = total) as -> by lia. done. }
  eapply (wp_seq _ _ _ _ (λ tr' results, tr `sublist_of` tr' ∧ ∃ rs, results ≡ₚ rs ∧
    Forall2 (λ k (e : option error), e = None → Done k tr') (seqZ j batchSize) rs)).
  { eapply wp_mono; [|apply wp_trace, (wp_par Adm P HChoose
      (λ k tr' (e : option error), e = None → Done k tr'))].
    - intros t o [(l & -> & rs & Hrs) (new & -> & _)]. exists l. split; [done|].
      split; [by apply sublist_inserts_r|by exists rs].
    - intros k [Hk1 Hk2]%elem_of_seqZ t t' e Hs Hd He. eapply Hmono; [lia|done|auto].
    - intros k t [Hk1 Hk2]%elem_of_seqZ. eapply wp_seq; [apply Hfn; lia|].
      intros t' [b e] Hd. apply wp_ret. by exists e. }
  intros tr' results (Hsub & rs & Hperm & Hall). cbv zeta.
  pose proof (list.Forall2_length _ _ _ Hall) as Hlen. rewrite length_seqZ in Hlen.
  assert (length results = length rs) as Hlr by by rewrite Hperm.
  pose proof (omap_id_length results) as Hle.
  destruct (0 <? Z.of_nat (length (omap id results))) eqn:He.
  { apply wp_ret. eexists; split; [done|]. simpl. split; [lia|].
    intros Hn. apply NewAggregate_None in Hn. destruct (omap id results); [done|by inversion Hn]. }
  assert (Forall (λ o, o = None) results) as Hnone.
  { clear -He. induction results as [|[e|] rs IH]; [done|done|]. constructor; [done|]. by apply IH. }
  replace (j + (batchSize - Z.of_nat (length (omap id results)))) with (j + batchSize) by lia.
  eapply wp_mono; [|apply IH].
  - intros t o (r & -> & H1 & H2). exists r. split; [done|]. split; [lia|done].
  - lia.
  - lia.
  - lia.
  - lia.
  - unfold MaxBatchSize. lia.
  - intros k Hk. destruct (decide (k < j)) as [Hlt|Hge]; [eapply Hmono; [lia|done|apply Hdone; lia]|].
    assert (seqZ j batchSize !! Z.to_nat (k - j) = Some k) as Hk'.
    { apply lookup_seqZ. lia. }
    destruct (Forall2_lookup_l _ _ _ _ _ Hall Hk') as (e & He' & Hd). apply Hd.
    rewrite Hperm, List.Forall_forall in Hnone. by apply Hnone, list_elem_of_In, (list_elem_of_lookup_2 _ _ _ He').
Qed.

(** C25: [slowStartBatch] returns whatever the goroutines' interleaving, reports
    at most as many successes as there are items, and if it reports no error
    then every item was processed without error, once the count of successes
    reached their number: the doubling batches leave no item out. *)
Theorem slowStartBatch_complete initialBatchSize :
  0 < initialBatchSize → 0 ≤ total →
  wp Adm (λ _, P) (slowStartBatch initialBatchSize total fn)
    (returns (λ tr' r, 0 ≤ r.1 ≤ total ∧
       (r.2 = None → r.1 = total ∧ ∀ k, 0 ≤ k < total → Done k tr'))) [].
Proof.
  intros Hi Ht. unfold slowStartBatch.
  eapply wp_mono; [|apply (slowStart_loop_complete _ _ total 0)]; try lia.
  intros t o (r & -> & H1 & H2). exists r. split; [done|]. split; [lia|done].
Qed.
End batches.

(** ** Replica counters *)

Section counters.
Context `{K8s}.

(** Every reading of the clock gives [t]. *)
Definition frozen (t : Time) (o : obs reply) : Prop :=
  match o with existT Now r => r = t | _ => True end.

Definition tally (f : Pod → bool) (pods : list Pod) : Z := Z.of_nat (length (List.filter f pods)).

Lemma tally_cons f pod pods : tally f (pod :: pods) = (if f pod then 1 else 0) + tally f pods.
Proof. unfold tally. simpl. destruct (f pod); simpl; lia. Qed.
Lemma tally_le f g pods : (∀ p, f p = true → g p = true) → tally f pods ≤ tally g pods.
Proof.
  intros Hfg. induction pods as [|p pods IH]; [done|]. rewrite !tally_cons.
  specialize (Hfg p). destruct (f p), (g p); lia.
Qed.
Lemma tally_range f pods : 0 ≤ tally f pods ≤ Z.of_nat (length pods).
Proof. unfold tally. pose proof (List.filter_length_le f pods). lia. Qed.

Definition live_at (rev : Rev) (pod : Pod) : bool :=
  isCreated pod && negb (isTerminating pod) && bool_decide (getPodRevision pod = Name (cr_meta rev)).
Definition available_at (t : Time) (minReadySeconds : Z) (pod : Pod) : bool :=
  isRunningAndReady pod && isRunningAndAvailable t pod minReadySeconds.

Definition tallies t minReadySeconds cur upd pods : replicaStatus :=
  {| replicas := tally isCreated pods; readyReplicas := tally isRunningAndReady pods;
     availableReplicas := tally (available_at t minReadySeconds) pods;
     currentReplicas := tally (live_at cur) pods; updatedReplicas := tally (live_at upd) pods |}.

Definition plus (s r : replicaStatus) : replicaStatus :=
  {| replicas := replicas s + replicas r; readyReplicas := readyReplicas s + readyReplicas r;
     availableReplicas := availableReplicas s + availableReplicas r;
     currentReplicas := currentReplicas s + currentReplicas r;
     updatedReplicas := updatedReplicas s + updatedReplicas r |}.

(** Each counter of [s] has room for [n] more. *)
Definition room (n : Z) (s : replicaStatus) : Prop :=
  Forall (λ c, 0 ≤ c ∧ c + n < 2147483648)
    [replicas s; readyReplicas s; availableReplicas s; currentReplicas s; updatedReplicas s].

Lemma count_small b n m : 0 ≤ n → n + m < 2147483648 → 1 ≤ m → count b n = n + (if b then 1 else 0).
Proof. intros. unfold count. destruct b; [|lia]. apply wrap32_small. unfold in_int32. lia. Qed.

Lemma replicaStatus_eq s r :
  replicas s = replicas r → readyReplicas s = readyReplicas r →
  availableReplicas s = availableReplicas r → currentReplicas s = currentReplicas r →
  updatedReplicas s = updatedReplicas r → s = r.
Proof. destruct s, r; simpl. by intros -> -> -> -> ->. Qed.

Lemma count_pods_tallies t minReadySeconds cur upd s pods tr :
  room (Z.of_nat (length pods)) s →
  wp (frozen t) (λ _ e, e = Now) (count_pods minReadySeconds cur upd s pods)
    (returns (λ _ r, r = plus s (tallies t minReadySeconds cur upd pods))) tr.
Proof.
  revert s tr. induction pods as [|pod pods IH]; intros s tr Hroom; cbn [count_pods].
  { apply wp_ret. exists s. split; [done|]. apply replicaStatus_eq; simpl; unfold tally; simpl; lia. }
  unfold room in Hroom. rewrite !list.Forall_cons in Hroom. destruct Hroom as (H1 & H2 & H3 & H4 & H5 & _).
  cbn [length] in *.
  set (s1 := {| replicas := replicas s + (if isCreated pod then 1 else 0);
                readyReplicas := readyReplicas s + (if isRunningAndReady pod then 1 else 0);
                availableReplicas := availableReplicas s + (if available_at t minReadySeconds pod then 1 else 0);
                currentReplicas := currentReplicas s + (if live_at cur pod then 1 else 0);
                updatedReplicas := updatedReplicas s + (if live_at upd pod then 1 else 0) |}).
  eapply (wp_seq _ _ _ _ (λ _ r, r = s1)).
  - unfold count_pod.
    eapply (wp_seq _ _ _ _ (λ _ b, b = available_at t minReadySeconds pod)).
    + unfold available_at. destruct (isRunningAndReady pod); [|apply wp_ret; by eexists].
      apply wp_call_bind; [done|]. intros r ->. apply wp_ret. by eexists.
    + intros tr' b ->. apply wp_ret. eexists. split; [done|]. subst s1.
      apply replicaStatus_eq; simpl;
        apply count_small with (m := Z.of_nat (S (length pods))); lia.
  - intros tr' r ->. eapply wp_mono; [|apply IH].
    + intros tr'' o (r & -> & ->). eexists. split; [done|].
      apply replicaStatus_eq; simpl; rewrite tally_cons; lia.
    + repeat constructor; subst s1; simpl; try (case_match; lia).
Qed.

(** C24: the counters are exact.  With fewer than 2^31 pods no [int32] counter
    overflows, each one is the number of pods it is documented to count, and
    available <= ready <= created. *)
Theorem computeReplicaStatus_exact t minReadySeconds cur upd pods :
  Z.of_nat (length pods) < 2147483648 →
  wp (frozen t) (λ _ e, e = Now) (computeReplicaStatus pods minReadySeconds cur upd)
    (returns (λ _ r, r = tallies t minReadySeconds cur upd pods ∧
       0 ≤ availableReplicas r ≤ readyReplicas r ∧ readyReplicas r ≤ replicas r ∧
       replicas r ≤ Z.of_nat (length pods))) [].
Proof.
  intros Hlen. unfold computeReplicaStatus.
  eapply wp_mono; [|apply count_pods_tallies; repeat constructor; simpl; lia].
  intros tr o (r & -> & ->). eexists. split; [done|].
  split; [by apply replicaStatus_eq|]. simpl.
  pose proof (tally_range (available_at t minReadySeconds) pods).
  pose proof (tally_range isCreated pods).
  assert (tally (available_at t minReadySeconds) pods ≤ tally isRunningAndReady pods).
  { apply tally_le. intros p. unfold available_at. by intros [? _]%andb_true_iff. }
  assert (tally isRunningAndReady pods ≤ tally isCreated pods); [|lia].
  apply tally_le. intros p. unfold isRunningAndReady, isCreated.
  intros [Hr%bool_decide_eq_true _]%andb_true_iff. apply bool_decide_eq_true. by rewrite Hr.
Qed.
End counters.

(** ** The revision history *)

Section history.
Context `{K8s} `{!ClientGo}.
#[local] Existing Instance realHistory.

Definition deleted (tr : list (obs reply)) : list string :=
  omap (λ x : obs reply, match projT1 x with RevisionsDelete _ n => Some n | _ => None end) tr.

Lemma delete_revisions_wp history tr (Q : api_call → Prop) :
  (∀ r, r ∈ history → Q (RevisionsDelete (Namespace (cr_meta r)) (Name (cr_meta r)))) →
  wp (λ _, True) (λ _, Q) (delete_revisions history)
    (returns (λ tr' err, ∃ k, (k ≤ length history)%nat ∧
       deleted tr' = deleted tr ++ ((λ r : Rev, Name (cr_meta r)) <$> take k history) ∧
       (err = None → k = length history))) tr.
Proof.
  revert tr. induction history as [|r history IH]; intros tr HQ; cbn [delete_revisions].
  { apply wp_ret. exists None. split; [done|]. exists 0%nat. simpl. by rewrite app_nil_r. }
  apply wp_call_bind; [apply HQ; left|]. intros [err|] _.
  - apply wp_ret. exists (Some err). split; [done|]. exists 1%nat. simpl. split; [lia|].
    split; [|done]. unfold deleted. by rewrite omap_app.
  - eapply wp_mono; [|apply IH; intros; apply HQ; by right].
    intros tr' o (err & -> & k & Hk & Hdel & Herr). exists err. split; [done|]. exists (S k).
    simpl. split; [lia|]. split; [|intros He; by rewrite (Herr He)].
    rewrite Hdel. unfold deleted. rewrite omap_app, <- (assoc_L (++)). done.
Qed.

(** A name in use: that of one of the two live revisions, or the one recorded on a
    pod (the empty name for a pod without that label). *)
Inductive in_use (pods : list Pod) (current update : option Rev) (name : string) : Prop :=
| used_current r : current = Some r → Name (cr_meta r) = name → in_use pods current update name
| used_update r : update = Some r → Name (cr_meta r) = name → in_use pods current update name
| used_pod p : p ∈ pods →
    default "" (default ∅ (Labels (pod_meta p)) !! "controller-revision-hash") = name →
    in_use pods current update name.

Lemma elem_of_live_names pods current update name :
  name ∈ live_names pods current update ↔ in_use pods current update name.
Proof.
  unfold live_names. rewrite !elem_of_app, list_elem_of_fmap. split.
  - intros [H1|[H1|(p & -> & Hp)]].
    + destruct current as [r|]; [|by apply not_elem_of_nil in H1].
      apply list_elem_of_singleton in H1 as ->. by eapply used_current.
    + destruct update as [r|]; [|by apply not_elem_of_nil in H1].
      apply list_elem_of_singleton in H1 as ->. by eapply used_update.
    + eapply used_pod; [exact Hp|]. unfold getPodRevision. by destruct (Labels _).
  - intros [r -> <-|r -> <-|p Hp <-]; [left; apply list_elem_of_here|right; left; apply list_elem_of_here|].
    right. right. exists p. split; [|done]. unfold getPodRevision. by destruct (Labels _).
Qed.

(** C23: [truncateHistory], given the sorted revisions of the set, deletes
    nothing but revisions whose name neither a pod nor one of the two live
    revisions uses: [gone], in the order of their numbers, none of them newer
    than an unused revision it leaves ([kept]); it never goes below the history
    limit, and when it reports no error at most that many unused revisions are
    left. *)
Theorem truncateHistory_safe set pods listed current update limit :
  RevisionHistoryLimit (Spec set) = Some limit → 0 ≤ limit →
  wp (λ _, True)
    (λ _ e, ∃ r, r ∈ listed ∧ ¬ in_use pods current update (Name (cr_meta r)) ∧
                 e = RevisionsDelete (Namespace (cr_meta r)) (Name (cr_meta r)))
    (truncateHistory set pods (SortControllerRevisions listed) current update)
    (returns (λ tr err, ∃ used gone kept,
       used ++ gone ++ kept ≡ₚ listed ∧
       Forall (λ r : Rev, in_use pods current update (Name (cr_meta r))) used ∧
       Forall (λ r : Rev, ¬ in_use pods current update (Name (cr_meta r))) (gone ++ kept) ∧
       deleted tr = (λ r : Rev, Name (cr_meta r)) <$> gone ∧
       StronglySorted (λ x y : Rev, Revision x ≤ Revision y) (gone ++ kept) ∧
       (gone = [] ∨ limit ≤ Z.of_nat (length kept)) ∧
       (err = None → Z.of_nat (length kept) ≤ limit))) [].
Proof.
  intros Hlim Hpos. destruct (SortControllerRevisions_spec listed) as (Hperm & Hsorted & _).
  set (revisions := SortControllerRevisions listed) in *.
  set (live := live_names pods current update).
  set (unused := filter (λ r : Rev, Name (cr_meta r) ∉ live) revisions).
  assert (Forall (λ r : Rev, ¬ in_use pods current update (Name (cr_meta r))) unused) as Hunused.
  { apply list.Forall_forall. intros r [Hr _]%list_elem_of_filter. by rewrite <- elem_of_live_names. }
  assert (filter (λ r : Rev, ¬ (Name (cr_meta r) ∉ live)) revisions ++ unused ≡ₚ listed) as Hsplit.
  { rewrite <- Hperm, (comm (++)). apply filter_app_complement. }
  assert (Forall (λ r : Rev, in_use pods current update (Name (cr_meta r)))
            (filter (λ r : Rev, ¬ (Name (cr_meta r) ∉ live)) revisions)) as Hused.
  { apply list.Forall_forall. intros r [Hr%dec_stable _]%list_elem_of_filter. by apply elem_of_live_names. }
  assert (StronglySorted (λ x y : Rev, Revision x ≤ Revision y) unused) as Hord.
  { by apply StronglySorted_filter. }
  unfold truncateHistory. rewrite Hlim. change (deref (Some limit) ≫= ?f) with (f limit).
  cbv beta zeta. fold live. fold unused.
  destruct (_ || _) eqn:Hstop.
  { apply wp_ret. exists None. split; [done|]. eexists _, [], unused. split_and!; try done; [by left|]. intros _. lia. }
  eapply wp_mono; [|apply delete_revisions_wp].
  - intros tr o (err & -> & k & Hk & Hdel & Herr). exists err. split; [done|].
    rewrite length_take in Hk, Herr. rewrite take_take, Nat.min_l in Hdel by lia.
    eexists _, (take k unused), (drop k unused). rewrite take_drop, length_drop.
    split_and!; try done; [right; lia|]. intros He. rewrite (Herr He). lia.
  - intros r Hr. exists r. assert (r ∈ unused) as Hin.
    { eapply elem_of_sublist in Hr; [done|]. apply sublist_take. }
    rewrite list.Forall_forall in Hunused. split_and!; [|by apply Hunused|done].
    rewrite <- Hperm. by apply list_elem_of_filter in Hin as [_ ?].
Qed.
End history.
