(* ===== verification/Arrange.v ===== *)
(** * The partition of the pods

    [replicas] and [condemned], as [updateStatefulSet] builds them from the pods
    of the set: one slot per ordinal of the range, filled with the pod of that
    ordinal or a new one, and the other pods in descending order of ordinal. *)
From S2P Require Export ControlProps.

Section arrange.
Context `{K8sLaws} `{GoLaws}.
Implicit Types (set : XStatefulSet) (pod : Pod).

(** The partition of a rolling update is set and not negative. *)
Definition rollable set : Prop :=
  ∀ ru, RollingUpdate (UpdateStrategy (Spec set)) = Some ru → ∃ p, Partition ru = Some p ∧ 0 ≤ p.

(** What the specification of a set must satisfy for a synchronisation not to panic. *)
Definition valid set : Prop := plain_name set ∧ well_formed set ∧ rollable set.

(** The ordinals of the set. *)
Definition in_range set (o : Z) : Prop :=
  ∃ r, Replicas (Spec set) = Some r ∧ getStartOrdinal set ≤ o < getStartOrdinal set + r.
#[export] Instance in_range_dec set o : Decision (in_range set o).
Proof.
  destruct (Replicas (Spec set)) as [r|] eqn:Hr.
  - destruct (decide (getStartOrdinal set ≤ o < getStartOrdinal set + r)) as [Hy|Hn].
    + left. by exists r.
    + right. intros (r' & Hr' & Ho). apply Hn. congruence.
  - right. intros (r' & Hr' & _). congruence.
Defined.

Lemma podInOrdinalRange_in_range set pod r :
  Replicas (Spec set) = Some r →
  podInOrdinalRange pod set = Some (bool_decide (in_range set (getOrdinal pod))).
Proof.
  intros Hr. rewrite (podInOrdinalRange_spec _ _ _ Hr). f_equal. apply bool_decide_ext.
  split; [intros ?; by exists r|intros (r' & ? & ?); congruence].
Qed.

(** A slot holds nothing or a pod of its ordinal. *)
Definition slots_ok set (pods : list Pod) (slots : list (option Pod)) : Prop :=
  ∀ i pod, slots !! i = Some (Some pod) →
    pod ∈ pods ∧ getOrdinal pod = getStartOrdinal set + Z.of_nat i.

Lemma partition_pods_spec set r all pods slots condemned :
  Replicas (Spec set) = Some r → Z.of_nat (length slots) = r →
  slots_ok set all slots → (∀ p, p ∈ pods → p ∈ all) →
  ∃ slots', partition_pods set pods slots condemned =
    mret (slots', condemned ++ List.filter (λ p,
      bool_decide (¬ in_range set (getOrdinal p) ∧ 0 ≤ getOrdinal p)) pods) ∧
    length slots' = length slots ∧ slots_ok set all slots' ∧
    (∀ i, is_Some (slots !! i ≫= id) → is_Some (slots' !! i ≫= id)) ∧
    (∀ p, p ∈ pods → in_range set (getOrdinal p) →
       is_Some (slots' !! Z.to_nat (getOrdinal p - getStartOrdinal set) ≫= id)).
Proof.
  intros Hr Hlen. revert slots condemned Hlen.
  induction pods as [|pod pods IH]; intros slots condemned Hlen Hok Hin; cbn [partition_pods].
  { exists slots. simpl. rewrite app_nil_r. split_and!; try done. by intros ? ?%not_elem_of_nil. }
  rewrite (podInOrdinalRange_in_range _ _ _ Hr). change (deref (Some ?b) ≫= ?f) with (f b). cbv beta.
  cbn [List.filter].
  dec (in_range set (getOrdinal pod)) as Hrange.
  - rewrite bool_decide_eq_false_2 by tauto.
    destruct Hrange as (r' & Hr' & Ho). assert (r' = r) as -> by congruence.
    set (i := getOrdinal pod - getStartOrdinal set). assert (0 ≤ i < r) as Hi by lia.
    destruct (slots !! Z.to_nat i) as [s|] eqn:Hs; [|apply lookup_ge_None in Hs; lia].
    assert (index slots i = mret s) as ->.
    { unfold index. destruct (i <? 0) eqn:?; [lia|]. by rewrite Hs. }
    change (mret s ≫= ?f) with (f s). cbv beta.
    destruct (IH (<[Z.to_nat i := Some pod]> slots) condemned) as (slots' & -> & Hl & Hok' & Hkeep & Hall).
    + by rewrite length_insert.
    + intros j p Hj. apply list_lookup_insert_Some in Hj as [(<- & [= <-] & _)|(_ & Hj)]; [|by apply Hok].
      split; [apply Hin; left|lia].
    + intros; apply Hin; by right.
    + exists slots'. rewrite length_insert in Hl. split_and!; [done|done|done| |].
      * intros j Hj. apply Hkeep. destruct (decide (j = Z.to_nat i)) as [->|Hne].
        -- rewrite list_lookup_insert_eq by (by apply lookup_lt_Some in Hs). by eexists.
        -- by rewrite list_lookup_insert_ne.
      * intros p [->|Hp]%elem_of_cons Hpr; [|by apply Hall]. apply Hkeep. fold i.
        rewrite list_lookup_insert_eq by (by apply lookup_lt_Some in Hs). by eexists.
  - destruct (0 <=? getOrdinal pod) eqn:Hneg.
    + rewrite bool_decide_eq_true_2 by (split; [done|lia]).
      destruct (IH slots (condemned ++ [pod])) as (slots' & -> & Hl & Hok' & Hkeep & Hall); try done.
      { intros; apply Hin; by right. }
      exists slots'. rewrite <- (assoc_L (++)). split_and!; try done.
      intros p [->|Hp]%elem_of_cons Hpr; [done|by apply Hall].
    + rewrite bool_decide_eq_false_2 by lia.
      destruct (IH slots condemned) as (slots' & -> & Hl & Hok' & Hkeep & Hall); try done.
      { intros; apply Hin; by right. }
      exists slots'. split_and!; try done.
      intros p [->|Hp]%elem_of_cons Hpr; [done|by apply Hall].
Qed.

Lemma newStatefulSetPod_total set ordinal : valid set → is_Some (newStatefulSetPod set ordinal).
Proof.
  intros (_ & [Hsel _] & _). unfold newStatefulSetPod, updateStorage.
  destruct (getPersistentVolumeClaims_total set
    (initIdentity set (set_pod_meta (with_Name (getPodName set ordinal))
      (GetPodFromTemplate (Template (Spec set)) (set_meta set)
        (Some (NewControllerRef (set_meta set) controllerKind))))) Hsel) as [c ->].
  by eexists.
Qed.

Lemma newVersionedStatefulSetPod_total currentSet updateSet cur upd ordinal :
  valid currentSet → valid updateSet →
  is_Some (newVersionedStatefulSetPod currentSet updateSet cur upd ordinal).
Proof.
  intros Hc Hu. unfold newVersionedStatefulSetPod.
  assert (is_Some (at_current_revision currentSet ordinal)) as [[] ->].
  { unfold at_current_revision. destruct (_ && _); [by eexists|].
    destruct (RollingUpdate _) as [ru|] eqn:Hru; [|by eexists].
    destruct Hc as (_ & _ & Hroll). destruct (Hroll _ Hru) as (p & -> & _). by eexists. }
  - destruct (newStatefulSetPod_total currentSet ordinal Hc) as [p ->]. by eexists.
  - destruct (newStatefulSetPod_total updateSet ordinal Hu) as [p ->]. by eexists.
Qed.

Lemma fill_replicas_spec currentSet updateSet cur upd ord slots :
  valid currentSet → valid updateSet →
  ∃ replicas, fill_replicas currentSet updateSet cur upd ord slots = Some replicas ∧
    length replicas = length slots ∧
    ∀ i p, replicas !! i = Some p →
      slots !! i = Some (Some p) ∨
      slots !! i = Some None ∧
      newVersionedStatefulSetPod currentSet updateSet cur upd (ord + Z.of_nat i) = Some p.
Proof.
  intros Hc Hu. revert ord. induction slots as [|slot slots IH]; intros ord; cbn [fill_replicas].
  { exists []. split_and!; [done..|]. by intros i p. }
  destruct (newVersionedStatefulSetPod_total currentSet updateSet cur upd ord Hc Hu) as [new Hnew].
  destruct (IH (ord + 1)) as (ps & Hps & Hl & Hspec). rewrite Hps.
  exists (match slot with Some p => p | None => new end :: ps).
  split; [destruct slot; [done|by rewrite Hnew]|]. split; [simpl; by rewrite Hl|].
  intros [|i] p Hp; simpl in Hp.
  - destruct slot; simplify_eq/=; [by left|right]. by rewrite Z.add_0_r.
  - destruct (Hspec i p Hp) as [?|[? Hn]]; [by left|right]. split; [done|].
    rewrite <- Hn. f_equal. lia.
Qed.

(** The replicas of the set: existing pods, or new ones where none exists. *)
Definition replicas_ok set (pods replicas : list Pod) : Prop :=
  ∀ i p, replicas !! i = Some p →
    getOrdinal p = getStartOrdinal set + Z.of_nat i ∧
    (p ∈ pods ∨ isCreated p = false ∧ isTerminating p = false ∧
                ∀ q, q ∈ pods → getOrdinal q ≠ getOrdinal p).
Definition condemned_ok set (pods condemned : list Pod) : Prop :=
  (∀ p, p ∈ condemned ↔ p ∈ pods ∧ ¬ in_range set (getOrdinal p) ∧ 0 ≤ getOrdinal p) ∧
  StronglySorted (λ x y, getOrdinal y ≤ getOrdinal x) condemned.

(** A replica is the pod of its ordinal, or one made for an ordinal without pod. *)
Definition replicas_from set currentSet updateSet (cur upd : string) (pods replicas : list Pod) : Prop :=
  ∀ i p, replicas !! i = Some p →
    p ∈ pods ∧ getOrdinal p = getStartOrdinal set + Z.of_nat i ∨
    newVersionedStatefulSetPod currentSet updateSet cur upd (getStartOrdinal set + Z.of_nat i) = Some p ∧
    ∀ q, q ∈ pods → getOrdinal q ≠ getStartOrdinal set + Z.of_nat i.

Lemma arrange_pods_exact set currentSet updateSet currentRevision updateRevision pods r :
  Replicas (Spec set) = Some r → 0 ≤ r → valid currentSet → valid updateSet →
  ∃ replicas condemned,
    arrange_pods set currentSet updateSet currentRevision updateRevision pods =
      mret (replicas, condemned) ∧
    Z.of_nat (length replicas) = r ∧
    replicas_from set currentSet updateSet (Name (cr_meta currentRevision))
      (Name (cr_meta updateRevision)) pods replicas ∧
    condemned_ok set pods condemned.
Proof.
  intros Hr Hpos Hc Hu. unfold arrange_pods. rewrite Hr.
  change (deref (Some r) ≫= ?f) with (f r). cbv beta.
  destruct (r <? 0) eqn:?; [lia|].
  destruct (partition_pods_spec set r pods pods (replicate (Z.to_nat r) None) []) as
    (slots & -> & Hl & Hok & _ & Hall); try done.
  { rewrite length_replicate. lia. }
  { intros i p Hp. by apply lookup_replicate in Hp as [? _]. }
  change (mret ?x ≫= ?f) with (f x). cbv beta iota. rewrite length_replicate in Hl.
  destruct (fill_replicas_spec currentSet updateSet (Name (cr_meta currentRevision))
    (Name (cr_meta updateRevision)) (getStartOrdinal set) slots Hc Hu) as (replicas & -> & Hlr & Hspec).
  change (deref (Some ?x) ≫= ?f) with (f x). cbv beta.
  eexists replicas, _. split; [done|]. split; [lia|]. split.
  - intros i p Hp. destruct (Hspec i p Hp) as [Hs|[Hs Hnew]].
    { left. by apply Hok. }
    assert (i < length replicas)%nat as Hi by (by eapply lookup_lt_Some).
    right. split; [done|]. intros q Hq Heq.
    destruct (Hall q Hq) as [s Hsl]; [exists r; split; [done|lia]|].
    replace (Z.to_nat (getOrdinal q - getStartOrdinal set)) with i in Hsl by lia.
    by rewrite Hs in Hsl.
  - split.
    + intros p. rewrite sort_Sort_perm, app_nil_l, !list_elem_of_In, filter_In.
      by rewrite bool_decide_eq_true.
    + eapply (StronglySorted_weaken (λ x y, descendingOrdinal_Less y x = false)).
      * intros x y. unfold descendingOrdinal_Less. lia.
      * apply sort_Sort_sorted; unfold descendingOrdinal_Less; intros; lia.
Qed.

Lemma replicas_from_ok set currentSet updateSet cur upd pods replicas :
  0 ≤ getStartOrdinal set → getStartOrdinal set + Z.of_nat (length replicas) ≤ 2147483648 →
  valid currentSet → valid updateSet →
  replicas_from set currentSet updateSet cur upd pods replicas → replicas_ok set pods replicas.
Proof.
  intros Hstart Hend (Hplc & _) (Hplu & _) Hfrom i p Hp.
  pose proof (lookup_lt_Some _ _ _ Hp) as Hi.
  destruct (Hfrom i p Hp) as [[Hin Ho]|[Hnew Hno]]; [auto|].
  destruct (newVersionedStatefulSetPod_facts currentSet updateSet cur upd
    (getStartOrdinal set + Z.of_nat i) p)
    as (b & _ & _ & _ & Ho & Hcr & Ht & _); [done|done|lia|done|].
  split; [done|]. right. split_and!; [done|done|]. intros q Hq. rewrite Ho. by apply Hno.
Qed.

Lemma arrange_pods_spec set currentSet updateSet currentRevision updateRevision pods r :
  Replicas (Spec set) = Some r → 0 ≤ r → 0 ≤ getStartOrdinal set →
  getStartOrdinal set + r ≤ 2147483648 → valid currentSet → valid updateSet →
  ∃ replicas condemned,
    arrange_pods set currentSet updateSet currentRevision updateRevision pods =
      mret (replicas, condemned) ∧
    Z.of_nat (length replicas) = r ∧ replicas_ok set pods replicas ∧ condemned_ok set pods condemned.
Proof.
  intros Hr Hpos Hstart Hend Hc Hu.
  destruct (arrange_pods_exact set currentSet updateSet currentRevision updateRevision pods r)
    as (replicas & condemned & Heq & Hlen & Hfrom & Hcond); [done..|].
  exists replicas, condemned. split_and!; [done|done| |done].
  eapply replicas_from_ok; [done| |exact Hc|exact Hu|exact Hfrom]. lia.
Qed.
End arrange.
