(* ===== verification/RollingUpdate.v ===== *)
(** * Rolling updates

    The two loops that delete pods of an old revision: how many they delete, which
    ones, and in which order. *)
From S2P Require Export ControlProps.

Section rolling.
Context `{K8sLaws} `{GoLaws}.

Definition delete_of (pod : Pod) : pod_event :=
  EvDelete (Namespace (pod_meta pod)) (Name (pod_meta pod)).

(** A pod the update may delete. *)
Definition outdated (updateRevision : Rev) (pod : Pod) : Prop :=
  getPodRevision pod ≠ Name (cr_meta updateRevision) ∧ isTerminating pod = false.

(** The replicas from [updateMin] on, the highest ordinal first. *)
Definition candidates (replicas : list Pod) (updateMin : Z) : list Pod :=
  reverse (drop (Z.to_nat updateMin) replicas).

Lemma index_Some {A} (l : list A) (i : Z) (a : A) :
  0 ≤ i → l !! Z.to_nat i = Some a → index l i = mret a.
Proof. intros Hi Hl. unfold index. destruct (i <? 0) eqn:?; [lia|]. by rewrite Hl. Qed.

Lemma targets_candidates replicas updateMin :
  0 ≤ updateMin →
  Forall2 (λ target pod, index replicas target = mret pod)
    (targets replicas updateMin) (candidates replicas updateMin).
Proof.
  intros Hmin. unfold targets, candidates. apply Forall2_reverse, Forall2_same_length_lookup_2.
  { rewrite length_seqZ, length_drop. lia. }
  intros i target pod [-> Hi]%lookup_seqZ Hpod. rewrite lookup_drop in Hpod.
  apply index_Some; [lia|]. rewrite <- Hpod. f_equal. lia.
Qed.

(** The clock never passes [T]: what is unavailable at [T] was so before. *)
Definition clock_until (T : Time) (o : obs reply) : Prop :=
  match o with existT Now r => r ≤ T | _ => True end.

Lemma isUnavailable_mono now T pod n :
  now ≤ T → isUnavailable T pod n = true → isUnavailable now pod n = true.
Proof.
  unfold isUnavailable, isRunningAndAvailable. intros Hle.
  destruct (IsPodAvailable pod n now) eqn:Ha; [|done].
  by rewrite (IsPodAvailable_mono _ _ _ _ Hle Ha).
Qed.

Lemma count_unavailable_safe T n pods acc :
  safe (clock_until T) quiet (count_unavailable n pods acc)
    (λ u, acc + tally (λ p, isUnavailable T p n) pods ≤ u).
Proof.
  revert acc. induction pods as [|pod pods IH]; intros acc; cbn [count_unavailable].
  { apply safe_ret. unfold tally. simpl. lia. }
  eapply (safe_bind _ _ _ _ (λ now : Time, now ≤ T)); [safe_call; [done|by intros]|].
  intros now Hnow. eapply safe_mono; [|apply IH]. intros u. rewrite tally_cons. simpl.
  pose proof (isUnavailable_mono now T pod n Hnow).
  destruct (isUnavailable T pod n), (isUnavailable now pod n); lia.
Qed.

Lemma tally_reverse f pods : tally f (reverse pods) = tally f pods.
Proof.
  induction pods as [|p pods IH]; [done|]. rewrite reverse_cons. unfold tally in *.
  rewrite List.filter_app, length_app. simpl. destruct (f p); simpl; lia.
Qed.

Section loop.
Context (Adm : obs reply → Prop) (I : list (obs reply) → api_call → Prop).
Context (HI : ∀ tr e, quiet e → I tr e).
Context (set : XStatefulSet) (replicas : list Pod) (updateRevision : Rev) (all : list Pod).
Context (podsToDelete : Z) (tr0 : list (obs reply)).
(** Deleting [pod] is allowed after the deletions [done_]. *)
Hypothesis Hdel : ∀ new done_ pod,
  pod_events new = delete_of <$> done_ → done_ ++ [pod] `sublist_of` all →
  Forall (outdated updateRevision) (done_ ++ [pod]) →
  Z.of_nat (length (done_ ++ [pod])) ≤ podsToDelete → Forall Adm new →
  I (tr0 ++ new) (PodsDelete (Namespace (pod_meta pod)) (Name (pod_meta pod))).

Lemma update_many_wp ts pods done_ rest new status :
  all = rest ++ pods → done_ `sublist_of` rest → Forall (outdated updateRevision) done_ →
  Forall2 (λ target pod, index replicas target = mret pod) ts pods →
  pod_events new = delete_of <$> done_ → Forall Adm new →
  wp Adm I (update_many set replicas updateRevision podsToDelete (Z.of_nat (length done_)) status ts)
    (returns (λ _ _, True)) (tr0 ++ new).
Proof.
  intros Hall Hsub Hout Hts. revert rest done_ new status Hall Hsub Hout.
  induction Hts as [|target pod ts pods Hpod Hts IH];
    intros rest done_ new status Hall Hsub Hout Hnew Hadm; cbn [update_many].
  { apply wp_ret. by eexists. }
  destruct (_ <? podsToDelete) eqn:Hbudget; [|apply wp_ret; by eexists].
  rewrite Hpod. change (mret pod ≫= ?f) with (f pod). cbv beta.
  destruct (_ && _) eqn:Hold.
  - apply andb_true_iff in Hold as [Hrev%bool_decide_eq_true Hterm%negb_true_iff].
    assert (done_ ++ [pod] `sublist_of` rest ++ [pod]) as Hsub' by (by apply sublist_app).
    assert (Forall (outdated updateRevision) (done_ ++ [pod])) as Hout'.
    { apply Forall_app. split; [done|]. by repeat constructor. }
    assert (∀ new' status, Forall Adm new' → pod_events new' = [delete_of pod] →
      wp Adm I (update_many set replicas updateRevision podsToDelete
        (Z.of_nat (length done_) + 1) status ts) (returns (λ _ _, True)) ((tr0 ++ new) ++ new')) as Hgo.
    { intros new' status' Hadm' Hnew'.
      replace (Z.of_nat (length done_) + 1) with (Z.of_nat (length (done_ ++ [pod])))
        by (rewrite length_app; simpl; lia).
      rewrite <- (assoc_L (++)). eapply (IH (rest ++ [pod])); try done.
      - by rewrite <- (assoc_L (++)).
      - by rewrite pod_events_app, Hnew, Hnew', fmap_app.
      - by apply Forall_app. }
    apply wp_bind_2. apply DeleteStatefulPod_wp; [done| |].
    + eapply Hdel; try done.
      * rewrite Hall. change (pod :: pods) with ([pod] ++ pods). rewrite (assoc_L (++)).
        by apply sublist_inserts_r.
      * rewrite length_app. simpl. lia.
    + intros new' err Hadm' Hnew'.
      destruct err as [e|]; [destruct (IsNotFound e)|]; try (by apply Hgo).
      apply wp_ret. by eexists.
  - apply (IH (rest ++ [pod])); try done.
    + by rewrite Hall, <- (assoc_L (++)).
    + by apply sublist_inserts_r.
Qed.
End loop.

Definition within_budget (T : Time) (set : XStatefulSet) (replicas : list Pod) (updateRevision : Rev)
    (updateMin maxUnavailable : Z) (tr : list (obs reply)) (e : api_call) : Prop :=
  match event_of e with
  | Some v =>
      ∃ pods, pod_events tr ++ [v] = delete_of <$> pods ∧
        pods `sublist_of` candidates replicas updateMin ∧
        Forall (outdated updateRevision) pods ∧
        Z.of_nat (length pods) + tally (λ p, isUnavailable T p (MinReadySeconds (Spec set))) replicas
          ≤ maxUnavailable
  | None => True
  end.

(** The partition and the disruption budget that the specification gives for [r]
    replicas: none and one pod without parameters; with them the partition, and
    [maxUnavailable], one pod if it is not given, a percentage being rounded down, but
    at least one pod. *)
Definition specified_update (set : XStatefulSet) (r partition budget : Z) : Prop :=
  match RollingUpdate (UpdateStrategy (Spec set)) with
  | None => partition = 0 ∧ budget = 1
  | Some ru =>
      Partition ru = Some partition ∧
      ∃ v, GetScaledValueFromIntOrPercent (default (IntVal 1) (MaxUnavailable ru)) r false = inl v ∧
           budget = Z.max 1 v
  end.

Lemma specified_parameters set r partition budget :
  specified_update set r partition budget → rolling_parameters set r = mret (inl (partition, budget)).
Proof.
  unfold specified_update, rolling_parameters, getStatefulSetMaxUnavailable.
  destruct (RollingUpdate _) as [ru|]; [|by intros [-> ->]]. intros (-> & v & -> & ->).
  change (deref (Some ?x) ≫= ?f) with (f x). cbv beta iota. do 3 f_equal. destruct (v <? 1) eqn:?; lia.
Qed.

(** C13: the disruption budget of a rolling update.  Whatever the API server
    answers, the pods deleted so far together with the replicas that are still
    unavailable at any later time never exceed the budget that the specification gives
    ([maxUnavailable], scaled to the replicas, at least one); only pods of
    another revision that are not terminating and whose index is at least the
    partition are deleted, from the highest ordinal down; nothing is created
    and the update returns. *)
Theorem rolling_update_budget T set replicas updateRevision status partition budget r :
  Replicas (Spec set) = Some r → 0 ≤ partition → specified_update set r partition budget →
  wp (clock_until T) (within_budget T set replicas updateRevision partition budget)
    (updateStatefulSetAfterInvariantEstablished set replicas updateRevision status)
    (returns (λ _ _, True)) [].
Proof.
  intros Hr Hmin Hpar%specified_parameters. unfold updateStatefulSetAfterInvariantEstablished. rewrite Hr.
  change (deref (Some r) ≫= ?f) with (f r). cbv beta. rewrite Hpar.
  change (mret ?x ≫= ?f) with (f x). cbv beta iota.
  assert (∀ tr e, quiet e →
    within_budget T set replicas updateRevision partition budget tr e) as HI.
  { intros tr e He. unfold within_budget. by rewrite He. }
  eapply (wp_quiet_bind _ _ HI); [apply count_unavailable_safe|]. intros new u Hadm Hnew Hu.
  eapply (wp_quiet_bind _ _ HI _ _ (λ _, True)); [by safe_call|]. intros new' [] Hadm' Hnew' _.
  destruct (budget <=? u) eqn:Hmax; [apply wp_ret; by eexists|].
  rewrite tally_reverse in Hu. rewrite <- (app_nil_r (_ ++ new')).
  refine (update_many_wp _ _ HI set replicas updateRevision (candidates replicas partition)
            (budget - u) _ _ _ _ [] [] [] _ _ _ _ _ _ _); try done.
  - intros new2 pods pod Hev Hsub Hout Hlen Hadm2. exists (pods ++ [pod]).
    split_and!; [|done|done|lia].
    rewrite !pod_events_app, Hnew, Hnew', Hev, fmap_app. done.
  - by apply targets_candidates.
Qed.

(** *** Without the feature gate *)

(** Above an update: at the update revision, and seen available in [tr]. *)
Definition updated (set : XStatefulSet) (updateRevision : Rev) (tr : list (obs reply)) (q : Pod) : Prop :=
  isTerminating q = false ∧ getPodRevision q = Name (cr_meta updateRevision) ∧
  ∃ now, existT Now now ∈ tr ∧ isRunningAndAvailable now q (MinReadySeconds (Spec set)) = true.

Lemma updated_app set updateRevision tr tr' q :
  updated set updateRevision tr q → updated set updateRevision (tr ++ tr') q.
Proof.
  intros (? & ? & now & Hin & ?). split_and!; [done|done|]. exists now.
  split; [apply elem_of_app; by left|done].
Qed.

Definition one_at_a_time (set : XStatefulSet) (replicas : list Pod) (updateRevision : Rev)
    (updateMin : Z) (tr : list (obs reply)) (e : api_call) : Prop :=
  match event_of e with
  | Some v =>
      pod_events tr = [] ∧
      ∃ above pod below, candidates replicas updateMin = above ++ pod :: below ∧
        v = delete_of pod ∧ outdated updateRevision pod ∧
        Forall (updated set updateRevision tr) above
  | None => True
  end.

Lemma update_one_wp Adm (I : list (obs reply) → api_call → Prop) set replicas updateRevision status
    all ts pods above tr0 new :
  (∀ tr e, quiet e → I tr e) →
  (∀ new above pod below, pod_events new = [] → all = above ++ pod :: below →
     outdated updateRevision pod → Forall (updated set updateRevision new) above →
     I (tr0 ++ new) (PodsDelete (Namespace (pod_meta pod)) (Name (pod_meta pod)))) →
  all = above ++ pods → pod_events new = [] → Forall (updated set updateRevision new) above →
  Forall2 (λ target pod, index replicas target = mret pod) ts pods →
  wp Adm I (update_one set replicas updateRevision status ts) (returns (λ _ _, True)) (tr0 ++ new).
Proof.
  intros HI Hdel Hall Hnew Habove Hts. revert above new Hall Hnew Habove.
  induction Hts as [|target pod ts pods Hpod Hts IH]; intros above new Hall Hnew Habove; cbn [update_one].
  { apply wp_ret. by eexists. }
  rewrite Hpod. change (mret pod ≫= ?f) with (f pod). cbv beta.
  destruct (_ && _) eqn:Hold.
  - apply andb_true_iff in Hold as [Hrev%bool_decide_eq_true Hterm%negb_true_iff].
    apply wp_bind_2. apply DeleteStatefulPod_wp; [done|by eapply Hdel|].
    intros new' err _ _. destruct err as [e|]; [destruct (IsNotFound e)|]; apply wp_ret; by eexists.
  - apply wp_call_bind; [by apply HI|]. intros now _.
    destruct (isUnavailable now pod _) eqn:Hun; [apply wp_ret; by eexists|].
    apply isUnavailable_false in Hun as [Hav Hterm]. rewrite Hterm, andb_true_r in Hold.
    apply bool_decide_eq_false, dec_stable in Hold. rewrite <- (assoc_L (++)).
    apply (IH (above ++ [pod])).
    + by rewrite <- (assoc_L (++)).
    + by rewrite pod_events_app, Hnew.
    + apply Forall_app. split.
      * eapply List.Forall_impl; [|exact Habove]. intros q. apply updated_app.
      * repeat constructor; try done. exists now. split; [|done]. set_solver.
Qed.

(** C14: without the [MaxUnavailableStatefulSet] feature a rolling update deletes
    at most one pod per synchronisation: the outdated one with the highest
    ordinal, and only when every replica above it is at the update revision,
    not terminating and available. *)
Theorem rolling_update_one_at_a_time set replicas updateRevision status updateMin :
  0 ≤ updateMin →
  wp (λ _, True) (one_at_a_time set replicas updateRevision updateMin)
    (update_one set replicas updateRevision status (targets replicas updateMin))
    (returns (λ _ _, True)) [].
Proof.
  intros Hmin. refine (update_one_wp _ _ set replicas updateRevision status
    (candidates replicas updateMin) _ (candidates replicas updateMin) [] [] [] _ _ _ _ _ _); try done.
  - intros tr e He. unfold one_at_a_time. by rewrite He.
  - intros tr above pod below Htr Hall Hout Habove. split; [done|]. by exists above, pod, below.
  - by apply targets_candidates.
Qed.
End rolling.
