(* ===== verification/Monotonic.v ===== *)
(** * The ordering guarantees of the default pod management policy

    Under [OrderedReady] a synchronisation creates a pod only when every pod
    before it is running, ready and available, deletes pods for scale-down one by
    one from the highest ordinal, and updates pods only when nothing else is left
    to do. *)
From S2P Require Export Arrange RollingUpdate.

(** ** Parts of a synchronisation that only read the clock *)

Section clock.
Context `{K8s} (Adm : obs reply → Prop) (P : api_call → Prop) (HNow : P Now).

Lemma count_pods_now n cur upd s pods : safe Adm P (count_pods n cur upd s pods) (λ _, True).
Proof.
  revert s. induction pods as [|pod pods IH]; intros s; cbn [count_pods]; [by apply safe_ret|].
  apply safe_seq; [|intros s'; apply IH]. unfold count_pod.
  apply safe_seq; [|intros; by apply safe_ret].
  destruct (isRunningAndReady pod); [|by apply safe_ret].
  apply safe_seq; [by safe_call|]. intros. by apply safe_ret.
Qed.

(** Only the counters of the status change. *)
Lemma updateStatus_counters status n cur upd lists :
  safe Adm P (updateStatus status n cur upd lists) (λ st, ∃ c, st = set_counters c status).
Proof.
  unfold updateStatus. apply safe_seq; [|intros; apply safe_ret; by eexists].
  generalize zero_replicaStatus. induction lists as [|l lists IH]; intros s; cbn [sum_statuses];
    [by apply safe_ret|].
  apply safe_seq; [apply count_pods_now|]. intros r. apply IH.
Qed.
Lemma updateStatus_now status n cur upd lists :
  safe Adm P (updateStatus status n cur upd lists) (λ _, True).
Proof. eapply safe_mono; [|apply updateStatus_counters]. done. Qed.

(** The first unavailable pod is one of those looked at. *)
Lemma find_unavailable_now n pods u first :
  safe Adm P (find_unavailable n pods u first)
    (λ r, r.2 = first ∨ ∃ ref pod, r.2 = Some ref ∧ (ref, pod) ∈ pods).
Proof.
  revert u first. induction pods as [|[ref pod] pods IH]; intros u first; cbn [find_unavailable];
    [apply safe_ret; by left|].
  apply safe_seq; [by safe_call|]. intros now.
  destruct (isUnavailable _ _ _); (eapply safe_mono; [|apply IH]); intros r.
  - intros [Hr|(ref' & pod' & Hr & Hin)]; [|right; exists ref', pod'; split; [done|by right]].
    destruct first as [f|]; [by left|]. right. exists ref, pod. split; [done|left].
  - intros [Hr|(ref' & pod' & Hr & Hin)]; [by left|right; exists ref', pod'; split; [done|by right]].
Qed.

Lemma count_unavailable_now n pods acc : safe Adm P (count_unavailable n pods acc) (λ _, True).
Proof.
  revert acc. induction pods as [|pod pods IH]; intros acc; cbn [count_unavailable]; [by apply safe_ret|].
  apply safe_seq; [by safe_call|]. intros. apply IH.
Qed.
End clock.

(** ** Quiet parts of a synchronisation *)

Section quiet.
Context `{K8sLaws} `{GoLaws} (Adm : obs reply → Prop).

Lemma updateStatus_safe status n cur upd lists :
  safe Adm quiet (updateStatus status n cur upd lists) (λ _, True).
Proof. by apply updateStatus_now. Qed.
Lemma find_unavailable_safe n pods u first :
  safe Adm quiet (find_unavailable n pods u first)
    (λ r, r.2 = first ∨ ∃ ref pod, r.2 = Some ref ∧ (ref, pod) ∈ pods).
Proof. by apply find_unavailable_now. Qed.
Lemma count_unavailable_quiet n pods acc : safe Adm quiet (count_unavailable n pods acc) (λ _, True).
Proof. by apply count_unavailable_now. Qed.

Lemma fixPodClaim_safe updateSet condemned i pod :
  well_formed updateSet → index condemned i = mret pod →
  safe Adm quiet (fixPodClaim updateSet condemned i) (λ _, True).
Proof.
  intros Hwf Hi. unfold fixPodClaim. rewrite Hi. change (mret pod ≫= ?f) with (f pod). cbv beta.
  apply safe_seq; [by apply (ClaimsMatchRetentionPolicy_safe _ _ claim_io_quiet)|].
  intros [[]|e]; try by apply safe_ret.
  apply safe_seq; [by apply (UpdatePodClaimForRetentionPolicy_safe _ _ claim_io_quiet)|].
  intros [e|]; by apply safe_ret.
Qed.

Definition updateMin_of (set : XStatefulSet) : Z :=
  match RollingUpdate (UpdateStrategy (Spec set)) with Some ru => default 0 (Partition ru) | None => 0 end.

Lemma updateMin_nonneg set : rollable set → 0 ≤ updateMin_of set.
Proof.
  intros Hroll. unfold updateMin_of. destruct (RollingUpdate _) as [ru|] eqn:Hru; [|done].
  destruct (Hroll _ Hru) as (p & -> & Hp). done.
Qed.

Lemma rolling_parameters_ret set r :
  rollable set →
  (∃ err, rolling_parameters set r = mret (inr err)) ∨
  (∃ m, rolling_parameters set r = mret (inl (updateMin_of set, m))).
Proof.
  intros Hroll. unfold rolling_parameters, updateMin_of.
  destruct (RollingUpdate _) as [ru|] eqn:Hru; [|right; by exists 1].
  destruct (Hroll _ Hru) as (p & -> & _). simpl.
  destruct (getStatefulSetMaxUnavailable _ _) as [m|e]; [right; by exists m|left; by exists e].
Qed.
End quiet.

(** ** A loop that stops at the first obstacle *)

Section for_all.
Context `{K8s} (Adm : obs reply → Prop) (I : list (obs reply) → api_call → Prop).
Context (fn : Z → go (bool * option error)) (Inv : nat → list (obs reply) → Prop).

Lemma for_all_wp n k tr :
  (k ≤ n)%nat →
  (∀ i tr, (i < n)%nat → Inv i tr →
     wp Adm I (fn (Z.of_nat i)) (returns (λ tr' r, r = (false, None) → Inv (S i) tr')) tr) →
  Inv k tr →
  wp Adm I (for_all (seqZ (Z.of_nat k) (Z.of_nat (n - k))) fn)
    (returns (λ tr' r, r.1 || not_nil r.2 = false → Inv n tr')) tr.
Proof.
  intros Hk Hfn. remember (n - k)%nat as m eqn:Hm. revert k tr Hk Hm.
  induction m as [|m IH]; intros k tr Hk Hm Hinv.
  { apply wp_ret. eexists. split; [done|]. intros _. by assert (k = n) as <- by lia. }
  rewrite seqZ_cons by lia. cbn [for_all].
  eapply wp_seq; [apply Hfn; [lia|done]|]. intros tr' [exit err] Hnext.
  destruct (exit || not_nil err) eqn:He; [apply wp_ret; by eexists|].
  replace (Z.pred (Z.of_nat (S m))) with (Z.of_nat m) by lia.
  replace (Z.succ (Z.of_nat k)) with (Z.of_nat (S k)) by lia.
  apply IH; [lia|lia|]. apply Hnext. destruct exit, err; done.
Qed.
End for_all.

(** ** Monotonic mode *)

Section monotonic.
Context `{K8sLaws} `{GoLaws} `{!ClientGo}.
Context (set updateSet : XStatefulSet) (replicas condemned : list Pod) (updateRevision : Rev).
Hypothesis Hset : valid set.
Hypothesis Hupd : valid updateSet.
Hypothesis Hord : ∀ i pod, replicas !! i = Some pod → 0 ≤ getOrdinal pod.

(** Running, ready, not terminating, and available at a time read in [tr]. *)
Definition settled (tr : list (obs reply)) (pod : Pod) : Prop :=
  isRunningAndReady pod = true ∧ isTerminating pod = false ∧
  ∃ now, existT Now now ∈ tr ∧ isRunningAndAvailable now pod (MinReadySeconds (Spec set)) = true.

Lemma settled_app tr tr' pod : settled tr pod → settled (tr ++ tr') pod.
Proof.
  intros (? & ? & now & Hin & ?). split_and!; [done|done|]. exists now.
  split; [apply elem_of_app; by left|done].
Qed.

(** The replicas before index [i] are settled. *)
Definition settled_before (i : nat) (tr : list (obs reply)) : Prop :=
  ∀ j pod, (j < i)%nat → replicas !! j = Some pod → settled tr pod.

Lemma settled_before_app i tr tr' : settled_before i tr → settled_before i (tr ++ tr').
Proof. intros Hs j pod Hj Hp. by apply settled_app, (Hs j). Qed.

Definition all_settled : list (obs reply) → Prop := settled_before (length replicas).

(** What may be created or deleted, and when. *)
Definition ordered (tr : list (obs reply)) (e : api_call) : Prop :=
  match event_of e with
  | None => True
  | Some (EvCreate ns pod) =>
      pod_events tr = [] ∧
      ∃ i, replicas !! i = Some pod ∧ isCreated pod = false ∧ settled_before i tr
  | Some (EvDelete ns name) =>
      ∃ pod, EvDelete ns name = delete_of pod ∧ isTerminating pod = false ∧
        ((pod_events tr = [] ∧ ∃ i, replicas !! i = Some pod ∧
            isFailed pod || isSucceeded pod = true ∧ settled_before i tr) ∨
         (pod_events tr = [] ∧ condemned !! 0%nat = Some pod ∧ all_settled tr) ∨
         (condemned = [] ∧ all_settled tr ∧ us_Type (UpdateStrategy (Spec set)) ≠ OnDeleteStrategyType ∧
          getPodRevision pod ≠ Name (cr_meta updateRevision) ∧
          ∃ i, replicas !! i = Some pod ∧ updateMin_of set ≤ Z.of_nat i))
  end.

Lemma ordered_quiet tr e : quiet e → ordered tr e.
Proof. intros He. unfold ordered. by rewrite He. Qed.

(** Nothing created or deleted yet, and the replicas before [i] settled. *)
Definition progress (i : nat) (tr : list (obs reply)) : Prop :=
  pod_events tr = [] ∧ settled_before i tr.

Lemma progress_app i tr tr' : pod_events tr' = [] → progress i tr → progress i (tr ++ tr').
Proof.
  intros Hq [Hev Hs]. split; [by rewrite pod_events_app, Hev, Hq|by apply settled_before_app].
Qed.

Lemma claim_io_then {A B} (p : go A) (f : A → go B) Ψ tr :
  safe honest_lister quiet p (λ _, True) →
  (∀ new a, pod_events new = [] → wp honest_lister ordered (f a) Ψ (tr ++ new)) →
  wp honest_lister ordered (p ≫= f) Ψ tr.
Proof. intros Hp Hf. eapply (wp_quiet_bind _ _ ordered_quiet); [exact Hp|]. auto. Qed.

(** A replica found available at [now] is settled. *)
Lemma progress_settled i tr new pod (now : Time) :
  replicas !! i = Some pod → isRunningAndReady pod = true → isTerminating pod = false →
  isRunningAndAvailable now pod (MinReadySeconds (Spec set)) = true → pod_events new = [] →
  progress i tr → progress (S i) ((tr ++ new) ++ [existT Now now]).
Proof.
  intros Hpod Hready Hterm Hav Hnew [Hev Hs]. split.
  - by rewrite !pod_events_app, Hnew, Hev.
  - intros j q Hj Hq. destruct (decide (j = i)) as [->|Hne].
    + assert (q = pod) as -> by congruence. split_and!; [done|done|]. exists now.
      split; [set_solver|done].
    + apply settled_app, settled_app, (Hs j); [lia|done].
Qed.

Lemma processReplica_ordered i tr :
  (i < length replicas)%nat → progress i tr →
  wp honest_lister ordered (processReplica set updateSet true replicas (Z.of_nat i))
    (returns (λ tr' r, r = (false, None) → progress (S i) tr')) tr.
Proof.
  intros Hi Hprog. destruct (lookup_lt_is_Some_2 _ _ Hi) as [pod Hpod].
  unfold processReplica. rewrite (index_Some _ _ pod) by (by rewrite ?Nat2Z.id || lia).
  change (mret pod ≫= ?f) with (f pod). cbv beta.
  assert (∀ b e tr', (b, e) ≠ (false, None) → wp honest_lister ordered
    (mret (b, e) : go (bool * option error)) (returns (λ tr' r, r = (false, None) → progress (S i) tr')) tr')
    as Hexit by (intros; apply wp_ret; by eexists).
  destruct (isFailed pod || isSucceeded pod) eqn:Hfail.
  { dec (DeletionTimestamp (pod_meta pod) = None) as Hdt; [|by apply Hexit].
    apply wp_bind_2. apply (DeleteStatefulPod_wp _ _ ordered_quiet).
    - exists pod. split; [done|]. split; [apply bool_decide_eq_false; tauto|]. left.
      split; [apply Hprog|]. exists i. split_and!; [done|done|apply Hprog].
    - intros new err _ _. by apply Hexit. }
  destruct (isCreated pod) eqn:Hcr; simpl negb.
  2:{ apply wp_bind_2. apply wp_bind_2.
      eapply (wp_quiet _ _ ordered_quiet _ (λ _, True));
        [apply (PodClaimIsStale_safe _ _ claim_io_quiet), Hset|].
      intros new [[]|e] _ Hnew _; try by apply wp_ret, Hexit.
      apply wp_bind_2. apply (CreateStatefulPod_wp _ _ ordered_quiet); [apply Hset| |].
      - intros new' _ Hnew'. destruct Hprog as [Hev Hs]. split.
        + by rewrite !pod_events_app, Hev, Hnew, Hnew'.
        + exists i. split_and!; [done|done|]. by apply settled_before_app, settled_before_app.
      - intros new' [e|] _ _; by apply wp_ret, Hexit. }
  change (mret None ≫= ?f) with (f None). cbv beta iota.
  apply claim_io_then.
  { destruct (isPending pod); [|by apply safe_ret].
    apply (createMissingPersistentVolumeClaims_safe _ _ claim_io_quiet), Hset. }
  intros new [e|] Hnew; [by apply Hexit|].
  rewrite !andb_true_r. destruct (isTerminating pod) eqn:Hterm; [by apply Hexit|].
  destruct (isRunningAndReady pod) eqn:Hready; [|by apply Hexit]. simpl negb. cbv iota.
  apply wp_call_bind; [done|]. intros now _. rewrite andb_true_r.
  destruct (isRunningAndAvailable now pod _) eqn:Hav; [|by apply Hexit]. simpl negb. cbv iota.
  pose proof (progress_settled i tr new pod now Hpod Hready Hterm Hav Hnew Hprog) as Hprog1.
  revert Hprog1. generalize ((tr ++ new) ++ [existT Now now]) as tr1. intros tr1 Hprog1.
  apply claim_io_then; [apply (ClaimsMatchRetentionPolicy_safe _ _ claim_io_quiet), Hupd|].
  intros new2 r Hnew2. destruct (_ && _).
  { apply wp_ret. eexists. split; [done|]. intros _. by apply progress_app. }
  apply claim_io_then.
  { eapply (safe_weaken honest_lister _ (writes_conforming updateSet)); [done|by intros []|].
    destruct Hupd as (? & ? & ?). apply UpdateStatefulPod_safe; [done|done|by eapply Hord]. }
  intros new3 [e|] Hnew3; [by apply Hexit|]. apply wp_ret. eexists. split; [done|]. intros _.
  by apply progress_app, progress_app.
Qed.

Lemma processCondemned_ordered first tr :
  (0 < length condemned)%nat → progress (length replicas) tr →
  wp honest_lister ordered (processCondemned set first true condemned 0)
    (returns (λ _ r, r.1 = true)) tr.
Proof.
  intros Hi [Hev Hs]. destruct (lookup_lt_is_Some_2 _ _ Hi) as [pod Hpod].
  unfold processCondemned. rewrite (index_Some _ _ pod) by done.
  change (mret pod ≫= ?f) with (f pod). cbv beta.
  destruct (isTerminating pod) eqn:Hterm; [apply wp_ret; by eexists|].
  destruct (_ && _); [apply wp_ret; by eexists|].
  apply wp_call_bind; [done|]. intros now _.
  destruct (_ && _); [apply wp_ret; by eexists|].
  apply wp_bind_2. apply (DeleteStatefulPod_wp _ _ ordered_quiet).
  - exists pod. split; [done|]. split; [done|]. right. left. split_and!.
    + by rewrite pod_events_app, Hev.
    + done.
    + by apply settled_before_app.
  - intros new err _ _. apply wp_ret. by eexists.
Qed.

(** The rolling update, once every replica is settled and none is condemned. *)
Lemma update_ordered status r tr :
  condemned = [] → progress (length replicas) tr →
  us_Type (UpdateStrategy (Spec set)) ≠ OnDeleteStrategyType → Replicas (Spec set) = Some r →
  wp honest_lister ordered
    (if FeatureEnabled MaxUnavailableStatefulSet
     then updateStatefulSetAfterInvariantEstablished set replicas updateRevision status
     else
       updateMin ← match RollingUpdate (UpdateStrategy (Spec set)) with
                   | Some ru => deref (Partition ru)
                   | None => mret 0
                   end;
       update_one set replicas updateRevision status (targets replicas updateMin))
    (returns (λ _ _, True)) tr.
Proof.
  intros Hcond [Hev Hs] Hod Hr. destruct Hset as (_ & _ & Hroll).
  pose proof (updateMin_nonneg set Hroll) as Hmin.
  assert (∀ new pod, pod ∈ candidates replicas (updateMin_of set) → outdated updateRevision pod →
    ordered (tr ++ new) (PodsDelete (Namespace (pod_meta pod)) (Name (pod_meta pod)))) as Hdel.
  { intros new pod Hin [Hrev Hterm]. exists pod. split; [done|]. split; [done|]. right. right.
    split_and!; [done|by apply settled_before_app|done|done|].
    unfold candidates in Hin. rewrite elem_of_reverse in Hin.
    apply list_elem_of_lookup in Hin as [j Hj]. rewrite lookup_drop in Hj.
    eexists. split; [exact Hj|]. lia. }
  destruct (FeatureEnabled _).
  - unfold updateStatefulSetAfterInvariantEstablished. rewrite Hr.
    change (deref (Some r) ≫= ?f) with (f r). cbv beta.
    destruct (rolling_parameters_ret set r Hroll) as [[e ->]|[m ->]];
      change (mret ?x ≫= ?f) with (f x); cbv beta iota; [apply wp_ret; by eexists|].
    apply claim_io_then; [apply count_unavailable_quiet|]. intros new u Hnew.
    apply claim_io_then; [by safe_call|]. intros new' [] Hnew'.
    destruct (m <=? u); [apply wp_ret; by eexists|].
    rewrite <- (app_nil_r (_ ++ new')).
    refine (update_many_wp _ _ ordered_quiet set replicas updateRevision
      (candidates replicas (updateMin_of set)) (m - u) _ _ _ _ [] [] [] _ _ _ _ _ _ _); try done.
    + intros new2 pods pod _ Hsub Hout _ _. rewrite <- !(assoc_L (++)). apply Hdel.
      * eapply elem_of_sublist; [|exact Hsub]. apply elem_of_app. right. left.
      * apply Forall_app in Hout as [_ Hout]. by inversion Hout.
    + by apply targets_candidates.
  - assert (match RollingUpdate (UpdateStrategy (Spec set)) with
            | Some ru => deref (Partition ru) | None => mret 0 end = mret (updateMin_of set) :> go Z) as ->.
    { unfold updateMin_of. destruct (RollingUpdate _) as [ru|] eqn:Hru; [|done].
      destruct (Hroll _ Hru) as (p & -> & _). done. }
    change (mret ?x ≫= ?f) with (f x). cbv beta. rewrite <- (app_nil_r tr).
    refine (update_one_wp _ _ set replicas updateRevision status
      (candidates replicas (updateMin_of set)) _ (candidates replicas (updateMin_of set)) [] tr []
      ordered_quiet _ _ _ _ _); try done.
    + intros new above pod below _ Hall Hout _. apply Hdel; [|done].
      rewrite Hall. apply elem_of_app. right. left.
    + by apply targets_candidates.
Qed.

Lemma runForAll_wp Inv (pods : list Pod) fn tr :
  (∀ i tr, (i < length pods)%nat → Inv i tr →
     wp honest_lister ordered (fn (Z.of_nat i)) (returns (λ tr' r, r = (false, None) → Inv (S i) tr')) tr) →
  Inv 0%nat tr →
  wp honest_lister ordered (runForAll pods fn true)
    (returns (λ tr' r, r.1 || not_nil r.2 = false → Inv (length pods) tr')) tr.
Proof.
  intros Hfn Hinv. unfold runForAll.
  pose proof (for_all_wp honest_lister ordered fn Inv (length pods) 0 tr) as Hwp.
  rewrite Nat.sub_0_r in Hwp. apply Hwp; [lia|done|done].
Qed.

Lemma act_on_pods_ordered currentRevision status first r tr :
  allowsBurst set = false → Replicas (Spec set) = Some r → pod_events tr = [] →
  wp honest_lister ordered
    (act_on_pods set updateSet currentRevision updateRevision status replicas condemned first)
    (returns (λ _ _, True)) tr.
Proof.
  intros Hburst Hr Hev. unfold act_on_pods. rewrite Hburst. cbv zeta. simpl negb.
  assert (∀ err st tr', wp honest_lister ordered
    (status ← updateStatus st (MinReadySeconds (Spec set)) currentRevision updateRevision [replicas; condemned];
     mret (status, err : option error)) (returns (λ _ _, True)) tr') as Hrefresh.
  { intros err st tr'. apply claim_io_then; [apply updateStatus_safe|]. intros. apply wp_ret. by eexists. }
  eapply wp_seq; [apply (runForAll_wp progress)|].
  { intros i tr' Hi Hp. by apply processReplica_ordered. }
  { split; [done|]. intros j pod Hj; lia. }
  intros tr1 [exit err] Hp1. destruct (exit || not_nil err) eqn:He; [apply Hrefresh|].
  specialize (Hp1 He). clear exit err He.
  eapply wp_seq; [apply (runForAll_wp (λ _, progress (length replicas)) condemned (fixPodClaim updateSet condemned))|].
  { intros i tr' Hi Hp. destruct (lookup_lt_is_Some_2 _ _ Hi) as [pod Hpod].
    eapply (wp_quiet _ _ ordered_quiet).
    - apply (fixPodClaim_safe honest_lister updateSet condemned _ pod); [apply Hupd|].
      apply index_Some; [lia|by rewrite Nat2Z.id].
    - intros new a _ Hnew _. eexists. split; [done|]. intros _. by apply progress_app. }
  { done. }
  intros tr2 [exit err] Hp2. destruct (exit || not_nil err) eqn:He; [apply Hrefresh|].
  specialize (Hp2 He). clear exit err He.
  eapply wp_seq; [apply (runForAll_wp (λ k tr, k = 0%nat ∧ progress (length replicas) tr) condemned)|].
  { intros i tr' Hi [-> Hp]. eapply wp_mono; [|apply processCondemned_ordered; done].
    intros tr3 o (r' & -> & Hr'). eexists. split; [done|]. by intros ->. }
  { done. }
  intros tr3 [exit err] Hp3. destruct (exit || not_nil err) eqn:He; [apply Hrefresh|].
  destruct (Hp3 He) as [Hlen Hprog]. clear exit err He Hp3.
  apply claim_io_then; [apply updateStatus_safe|]. intros new st Hnew.
  dec (us_Type (UpdateStrategy (Spec set)) = OnDeleteStrategyType) as Hod;
    [apply wp_ret; by eexists|].
  eapply (update_ordered st r); try done; [by apply length_zero_iff_nil|by apply progress_app].
Qed.
End monotonic.

(** ** The whole of [updateStatefulSet] *)

Section update.
Context `{K8sLaws} `{GoLaws} `{!ClientGo}.

(** Every ordinal from the start of the set up to [hi] has a settled pod. *)
Definition settled_up_to (set : XStatefulSet) (pods : list Pod) (hi : Z) (tr : list (obs reply)) : Prop :=
  ∀ o, getStartOrdinal set ≤ o < hi → ∃ q, q ∈ pods ∧ getOrdinal q = o ∧ settled set tr q.

Definition end_of (set : XStatefulSet) : Z :=
  getStartOrdinal set + default 0 (Replicas (Spec set)).

(** What the default policy allows at each creation and deletion. *)
Definition in_order (set : XStatefulSet) (pods : list Pod) (updateRevision : Rev)
    (tr : list (obs reply)) (e : api_call) : Prop :=
  match event_of e with
  | None => True
  | Some (EvCreate ns pod) =>
      pod_events tr = [] ∧ in_range set (getOrdinal pod) ∧ isCreated pod = false ∧
      (pod ∈ pods ∨ ∀ q, q ∈ pods → getOrdinal q ≠ getOrdinal pod) ∧
      settled_up_to set pods (getOrdinal pod) tr
  | Some (EvDelete ns name) =>
      ∃ pod, pod ∈ pods ∧ EvDelete ns name = delete_of pod ∧ isTerminating pod = false ∧
        ((pod_events tr = [] ∧ in_range set (getOrdinal pod) ∧ isFailed pod || isSucceeded pod = true ∧
          settled_up_to set pods (getOrdinal pod) tr) ∨
         (pod_events tr = [] ∧ ¬ in_range set (getOrdinal pod) ∧
          (∀ q, q ∈ pods → ¬ in_range set (getOrdinal q) → getOrdinal q ≤ getOrdinal pod) ∧
          settled_up_to set pods (end_of set) tr) ∨
         (in_range set (getOrdinal pod) ∧ getStartOrdinal set + updateMin_of set ≤ getOrdinal pod ∧
          getPodRevision pod ≠ Name (cr_meta updateRevision) ∧
          us_Type (UpdateStrategy (Spec set)) ≠ OnDeleteStrategyType ∧
          (∀ q, q ∈ pods → 0 ≤ getOrdinal q → in_range set (getOrdinal q)) ∧
          settled_up_to set pods (end_of set) tr))
  end.

Lemma settled_before_up_to set pods replicas i tr :
  replicas_ok set pods replicas → (i ≤ length replicas)%nat → settled_before set replicas i tr →
  settled_up_to set pods (getStartOrdinal set + Z.of_nat i) tr.
Proof.
  intros Hok Hi Hs o Ho. assert (Z.to_nat (o - getStartOrdinal set) < i)%nat as Hlt by lia.
  destruct (lookup_lt_is_Some_2 replicas (Z.to_nat (o - getStartOrdinal set))) as [q Hq]; [lia|].
  destruct (Hok _ _ Hq) as [Hord Hor].
  assert (settled set tr q) as Hset by (by eapply Hs).
  exists q. split_and!; [|lia|done]. destruct Hor as [?|(Hnew & _)]; [done|].
  exfalso. destruct Hset as (Hready & _). unfold isRunningAndReady in Hready.
  apply andb_true_iff in Hready as [Hrun%bool_decide_eq_true _].
  apply bool_decide_eq_false in Hnew. apply Hnew. by rewrite Hrun.
Qed.

Lemma ordered_in_order set pods replicas condemned updateRevision r tr e :
  Replicas (Spec set) = Some r → Z.of_nat (length replicas) = r → valid set →
  replicas_ok set pods replicas → condemned_ok set pods condemned →
  ordered set replicas condemned updateRevision tr e → in_order set pods updateRevision tr e.
Proof.
  intros Hr Hlen Hvalid Hok [Hcond Hsorted]. unfold ordered, in_order.
  assert (∀ i p, replicas !! i = Some p → in_range set (getOrdinal p) ∧ (i < length replicas)%nat ∧
            (isCreated p = true → p ∈ pods)) as Hin.
  { intros i p Hp. pose proof (lookup_lt_Some _ _ _ Hp). destruct (Hok i p Hp) as [Ho Hor].
    split_and!; [exists r; split; [done|lia]|done|].
    intros Hc. destruct Hor as [?|(? & _)]; [done|congruence]. }
  assert (end_of set = getStartOrdinal set + Z.of_nat (length replicas)) as Hend.
  { unfold end_of. rewrite Hr. simpl. lia. }
  destruct (event_of e) as [[ns pod|ns name]|]; [| |done].
  - intros (Hev & i & Hi & Hc & Hs). destruct (Hin i pod Hi) as (Hrange & Hlt & _).
    destruct (Hok i pod Hi) as [Ho Hor]. split_and!; [done|done|done| |].
    + destruct Hor as [?|(_ & _ & ?)]; auto.
    + rewrite Ho. eapply settled_before_up_to; [done|lia|done].
  - intros (pod & Hdel & Hterm & Hcases). exists pod.
    destruct Hcases as [(Hev & i & Hi & Hf & Hs)|[(Hev & Hc & Hs)|(Hnil & Hs & Hod & Hrev & i & Hi & Hmin)]].
    + destruct (Hin i pod Hi) as (Hrange & Hlt & Hp). destruct (Hok i pod Hi) as [Ho _].
      split_and!; [|done|done|].
      * apply Hp. unfold isCreated, isFailed, isSucceeded in *. apply bool_decide_eq_true.
        apply orb_true_iff in Hf as [Hf|Hf]; apply bool_decide_eq_true in Hf; by rewrite Hf.
      * left. split_and!; [done..|]. rewrite Ho. eapply settled_before_up_to; [done|lia|done].
    + assert (pod ∈ condemned) as Hpc by (by eapply list_elem_of_lookup_2).
      destruct (proj1 (Hcond pod) Hpc) as (Hp & Hnr & Hneg).
      split_and!; [done|done|done|]. right. left. split_and!; [done|done| |].
      * intros q Hq Hqr. destruct (decide (0 ≤ getOrdinal q)) as [Hq0|]; [|lia].
        assert (q ∈ condemned) as Hqc by (by apply Hcond).
        destruct condemned as [|p0 rest]; [done|]. simpl in Hc. simplify_eq.
        apply elem_of_cons in Hqc as [->|Hqc]; [lia|].
        apply StronglySorted_inv in Hsorted as [_ Hall]. rewrite List.Forall_forall in Hall.
        by apply Hall, list_elem_of_In.
      * rewrite Hend. by eapply settled_before_up_to.
    + destruct (Hin i pod Hi) as (Hrange & Hlt & Hp). destruct (Hok i pod Hi) as [Ho _].
      destruct (Hs i pod Hlt Hi) as (Hready & _).
      split_and!; [|done|done|].
      * apply Hp. unfold isCreated. apply bool_decide_eq_true. unfold isRunningAndReady in Hready.
        apply andb_true_iff in Hready as [Hrun%bool_decide_eq_true _]. by rewrite Hrun.
      * right. right. split_and!; [done|lia|done|done| |].
        -- intros q Hq Hq0. destruct (decide (in_range set (getOrdinal q))) as [?|Hn]; [done|].
           assert (q ∈ condemned) as Hqc by (by apply Hcond). rewrite Hnil in Hqc. by apply not_elem_of_nil in Hqc.
        -- rewrite Hend. by eapply settled_before_up_to.
Qed.

(** A revision that can be applied to the set, and whose set, if it can be decoded, is
    valid: a patch that deletes the replicas or the partition gives one that is not. *)
Definition restorable (set : XStatefulSet) (rev : Rev) : Prop :=
  ∃ x, ApplyRevision set rev = Some x ∧ ∀ s, x = inl s → valid s.

(** What a synchronisation relies on: the set is defaulted and its ordinals fit
    [int32]; the two revisions it is given restore to valid sets (those that the
    controller writes only carry the pod template). *)
Definition syncable (set : XStatefulSet) (currentRevision updateRevision : Rev) : Prop :=
  valid set ∧ 0 ≤ getStartOrdinal set ∧
  (∀ r, Replicas (Spec set) = Some r → 0 ≤ r ∧ getStartOrdinal set + r ≤ 2147483648) ∧
  restorable set currentRevision ∧ restorable set updateRevision.

Lemma restorable_valid set rev s : restorable set rev → ApplyRevision set rev = Some (inl s) → valid s.
Proof. intros (x & Hx & Hv) Hs. apply Hv. congruence. Qed.

(** C1: the ordering guarantee of the default pod management policy.  A
    synchronisation creates a pod only as its first action, for an ordinal of
    the set that is not in use, once every smaller ordinal has a pod that is
    running, ready, not terminating and was seen available.  It deletes only
    pods of the set that are not terminating: a failed or finished one under the
    same condition; for scale-down one pod, of the highest ordinal outside the
    range, once the whole range is settled; for an update only with the whole
    range settled and nothing to scale down, at or above the partition, a pod
    of another revision, and never under [OnDelete].  And it does not panic, as long as
    the set is defaulted and the two revisions restore to valid sets. *)
Theorem monotonic_order set currentRevision updateRevision collisionCount pods :
  syncable set currentRevision updateRevision → allowsBurst set = false →
  wp honest_lister (in_order set pods updateRevision)
    (updateStatefulSet set currentRevision updateRevision collisionCount pods)
    (returns (λ _ _, True)) [].
Proof.
  intros (Hvalid & Hstart & Hrange & Hcur & Hupd) Hburst. pose proof Hvalid as (_ & [_ [r Hr]] & _).
  destruct (Hrange r Hr) as [Hr0 Hr1]. unfold updateStatefulSet.
  assert (∀ tr e, quiet e → in_order set pods updateRevision tr e) as HI.
  { intros tr e He. unfold in_order. by rewrite He. }
  destruct Hcur as ([currentSet|err] & -> & Hc); [|apply wp_ret; by eexists].
  change (deref (Some ?x) ≫= ?f) with (f x). cbv beta iota.
  destruct Hupd as ([updateSet|err] & -> & Hu); [|apply wp_ret; by eexists].
  change (deref (Some ?x) ≫= ?f) with (f x). cbv beta iota.
  specialize (Hc _ eq_refl). specialize (Hu _ eq_refl).
  eapply (wp_quiet_bind _ _ HI _ _ (λ _, True)); [apply updateStatus_safe|]. intros new status _ Hnew _.
  destruct (arrange_pods_spec set currentSet updateSet currentRevision updateRevision pods r)
    as (replicas & condemned & -> & Hlen & Hok & Hcond); [done..|].
  change (mret ?x ≫= ?f) with (f x). cbv beta iota.
  eapply (wp_quiet_bind _ _ HI); [apply find_unavailable_safe|]. intros new2 [u first] _ Hnew2 _.
  eapply (wp_quiet_bind _ _ HI); [apply find_unavailable_safe|]. intros new3 [u' first'] _ Hnew3 _.
  destruct (bool_decide _); [apply wp_ret; by eexists|].
  eapply (wp_weaken honest_lister _ (ordered set replicas condemned updateRevision)); [done| |].
  { intros tr e. by apply (ordered_in_order set pods replicas condemned updateRevision r). }
  assert (∀ i pod, replicas !! i = Some pod → 0 ≤ getOrdinal pod) as Hord.
  { intros i pod Hi. destruct (Hok i pod Hi) as [-> _]. lia. }
  eapply wp_seq; [apply (act_on_pods_ordered set updateSet replicas condemned updateRevision Hvalid Hu
    Hord currentRevision status first' r); try done|].
  - by rewrite !pod_events_app, Hnew, Hnew2, Hnew3.
  - intros tr [st err] _. apply wp_ret. by eexists.
Qed.
End update.
