(* ===== verification/Burst.v ===== *)
(** * What a synchronisation may do in any mode

    With the [Parallel] policy the replicas are processed by goroutines in
    batches and nothing is ordered; what may be created or deleted at all is the
    same for both policies.  The last part is about sets that are being deleted. *)
From S2P Require Export Monotonic.

Section scope.
Context `{K8sLaws} `{GoLaws} `{!ClientGo}.
Context (set updateSet : XStatefulSet) (replicas condemned : list Pod) (updateRevision : Rev).
Hypothesis Hset : valid set.
Hypothesis Hupd : valid updateSet.
Hypothesis Hord : ∀ i pod, replicas !! i = Some pod → 0 ≤ getOrdinal pod.

(** The pods that may be created, and those that may be deleted. *)
Definition allowed (e : api_call) : Prop :=
  match event_of e with
  | None => True
  | Some (EvCreate ns pod) =>
      ns = Namespace (pod_meta pod) ∧ isCreated pod = false ∧ pod ∈ replicas
  | Some (EvDelete ns name) =>
      ∃ pod, EvDelete ns name = delete_of pod ∧ isTerminating pod = false ∧
        ((pod ∈ replicas ∧ isFailed pod || isSucceeded pod = true) ∨
         pod ∈ condemned ∨
         (us_Type (UpdateStrategy (Spec set)) ≠ OnDeleteStrategyType ∧
          getPodRevision pod ≠ Name (cr_meta updateRevision) ∧
          ∃ i, replicas !! i = Some pod ∧ updateMin_of set ≤ Z.of_nat i))
  end.

Lemma quiet_allowed e : quiet e → allowed e.
Proof. intros He. unfold allowed. by rewrite He. Qed.

Notation safe := (safe honest_lister allowed).

Lemma quiet_safe {A} (p : go A) Φ : Boundary.safe honest_lister quiet p Φ → safe p Φ.
Proof. apply safe_weaken; [done|apply quiet_allowed]. Qed.

Lemma DeleteStatefulPod_safe pod :
  allowed (PodsDelete (Namespace (pod_meta pod)) (Name (pod_meta pod))) →
  safe (DeleteStatefulPod set pod) (λ _, True).
Proof.
  intros Ha tr. apply (DeleteStatefulPod_wp _ (λ _, allowed)); [|done|].
  - intros ? e. apply quiet_allowed.
  - intros new err _ _. by exists err.
Qed.

Lemma CreateStatefulPod_safe pod :
  pod ∈ replicas → isCreated pod = false → safe (CreateStatefulPod set pod) (λ _, True).
Proof.
  intros Hin Hc tr. apply (CreateStatefulPod_wp _ (λ _, allowed)); [|apply Hset|done|].
  - intros ? e. apply quiet_allowed.
  - intros new err _ _. by exists err.
Qed.

Lemma processReplica_safe monotonic i pod :
  replicas !! i = Some pod →
  safe (processReplica set updateSet monotonic replicas (Z.of_nat i)) (λ _, True).
Proof.
  intros Hpod. unfold processReplica. rewrite (index_Some _ _ pod) by (by rewrite ?Nat2Z.id || lia).
  change (mret pod ≫= ?f) with (f pod). cbv beta.
  assert (pod ∈ replicas) as Hin by (by eapply list_elem_of_lookup_2).
  destruct (isFailed pod || isSucceeded pod) eqn:Hfail.
  { dec (DeletionTimestamp (pod_meta pod) = None) as Hdt; [|by apply safe_ret].
    apply safe_seq; [|intros; by apply safe_ret]. apply DeleteStatefulPod_safe.
    exists pod. split; [done|]. split; [apply bool_decide_eq_false; tauto|]. by left. }
  apply safe_seq.
  { destruct (isCreated pod) eqn:Hcr; [by apply safe_ret|].
    apply safe_seq; [apply quiet_safe, (PodClaimIsStale_safe _ _ claim_io_quiet), Hset|].
    intros [[]|e]; try by apply safe_ret.
    apply safe_seq; [by apply CreateStatefulPod_safe|]. intros [e|]; by apply safe_ret. }
  intros [ret|]; [by apply safe_ret|]. apply safe_seq.
  { destruct (isPending pod); [|by apply safe_ret].
    apply quiet_safe, (createMissingPersistentVolumeClaims_safe _ _ claim_io_quiet), Hset. }
  intros [e|]; [by apply safe_ret|].
  destruct (_ && _); [by apply safe_ret|]. destruct (_ && _); [by apply safe_ret|].
  apply safe_seq; [by safe_call|]. intros now. destruct (_ && _); [by apply safe_ret|].
  apply safe_seq; [apply quiet_safe, (ClaimsMatchRetentionPolicy_safe _ _ claim_io_quiet), Hupd|].
  intros r. destruct (_ && _); [by apply safe_ret|].
  apply safe_seq; [|intros [e|]; by apply safe_ret].
  apply quiet_safe, (safe_weaken honest_lister _ (writes_conforming updateSet)); [done|by intros []|].
  destruct Hupd as (? & ? & ?). apply UpdateStatefulPod_safe; [done|done|by eapply Hord].
Qed.

Lemma processCondemned_safe monotonic first i pod :
  condemned !! i = Some pod →
  safe (processCondemned set first monotonic condemned (Z.of_nat i)) (λ _, True).
Proof.
  intros Hpod. unfold processCondemned. rewrite (index_Some _ _ pod) by (by rewrite ?Nat2Z.id || lia).
  change (mret pod ≫= ?f) with (f pod). cbv beta.
  destruct (isTerminating pod) eqn:Hterm; [by apply safe_ret|].
  destruct (_ && _); [by apply safe_ret|].
  apply safe_seq; [by safe_call|]. intros now. destruct (_ && _); [by apply safe_ret|].
  apply safe_seq; [|intros; by apply safe_ret]. apply DeleteStatefulPod_safe.
  exists pod. split; [done|]. split; [done|]. right. left. by eapply list_elem_of_lookup_2.
Qed.

Lemma runForAll_safe monotonic (pods : list Pod) fn :
  (∀ i pod, pods !! i = Some pod → safe (fn (Z.of_nat i)) (λ _, True)) →
  safe (runForAll pods fn monotonic) (λ _, True).
Proof.
  intros Hfn. assert (∀ k, 0 ≤ k < Z.of_nat (length pods) → safe (fn k) (λ _, True)) as Hk.
  { intros k Hk. destruct (lookup_lt_is_Some_2 pods (Z.to_nat k)) as [pod Hpod]; [lia|].
    rewrite <- (Z2Nat.id k) by lia. by eapply Hfn. }
  unfold runForAll. destruct monotonic.
  - assert (∀ k, k ∈ seqZ 0 (Z.of_nat (length pods)) → safe (fn k) (λ _, True)) as Hall.
    { intros k Hin%elem_of_seqZ. apply Hk. lia. }
    induction (seqZ 0 (Z.of_nat (length pods))) as [|k ks IH]; cbn [for_all]; [by apply safe_ret|].
    apply safe_seq; [apply Hall; left|]. intros [exit err]. destruct (_ || _); [by apply safe_ret|].
    apply IH. intros; apply Hall; by right.
  - apply safe_seq; [|intros [n [e|]]; by apply safe_ret]. intros tr. unfold slowStartBatch.
    eapply wp_mono; [|apply (slowStart_loop_complete honest_lister allowed ltac:(done) fn
      (Z.of_nat (length pods)) (λ _ _, True)); try done; try lia].
    + intros tr' o (r & -> & _). by exists r.
    + intros k tr' Hkr. eapply wp_mono; [|by apply Hk]. intros tr2 o (r & -> & _). by exists r.
Qed.

Lemma update_safe status r :
  us_Type (UpdateStrategy (Spec set)) ≠ OnDeleteStrategyType → Replicas (Spec set) = Some r →
  safe
    (if FeatureEnabled MaxUnavailableStatefulSet
     then updateStatefulSetAfterInvariantEstablished set replicas updateRevision status
     else
       updateMin ← match RollingUpdate (UpdateStrategy (Spec set)) with
                   | Some ru => deref (Partition ru)
                   | None => mret 0
                   end;
       update_one set replicas updateRevision status (targets replicas updateMin))
    (λ _, True).
Proof.
  intros Hod Hr. destruct Hset as (_ & _ & Hroll).
  pose proof (updateMin_nonneg set Hroll) as Hmin.
  assert (∀ pod, pod ∈ candidates replicas (updateMin_of set) → outdated updateRevision pod →
    allowed (PodsDelete (Namespace (pod_meta pod)) (Name (pod_meta pod)))) as Hdel.
  { intros pod Hin [Hrev Hterm]. exists pod. split; [done|]. split; [done|]. right. right.
    split_and!; [done|done|].
    unfold candidates in Hin. rewrite elem_of_reverse in Hin.
    apply list_elem_of_lookup in Hin as [j Hj]. rewrite lookup_drop in Hj.
    eexists. split; [exact Hj|]. lia. }
  destruct (FeatureEnabled _).
  - unfold updateStatefulSetAfterInvariantEstablished. rewrite Hr.
    change (deref (Some r) ≫= ?f) with (f r). cbv beta.
    destruct (rolling_parameters_ret set r Hroll) as [[e ->]|[m ->]];
      change (mret ?x ≫= ?f) with (f x); cbv beta iota; [by apply safe_ret|].
    apply safe_seq; [apply quiet_safe, count_unavailable_quiet|]. intros u.
    apply safe_seq; [by safe_call|]. intros [].
    destruct (m <=? u); [by apply safe_ret|]. intros tr.
    rewrite <- (app_nil_r tr).
    refine (update_many_wp _ _ (λ _, quiet_allowed) set replicas updateRevision
      (candidates replicas (updateMin_of set)) (m - u) _ _ _ _ [] [] [] _ _ _ _ _ _ _); try done.
    + intros new2 pods pod _ Hsub Hout _ _. apply Hdel.
      * eapply elem_of_sublist; [|exact Hsub]. apply elem_of_app. right. left.
      * apply Forall_app in Hout as [_ Hout]. by inversion Hout.
    + by apply targets_candidates.
  - assert (match RollingUpdate (UpdateStrategy (Spec set)) with
            | Some ru => deref (Partition ru) | None => mret 0 end = mret (updateMin_of set) :> go Z) as ->.
    { unfold updateMin_of. destruct (RollingUpdate _) as [ru|] eqn:Hru; [|done].
      destruct (Hroll _ Hru) as (p & -> & _). done. }
    change (mret ?x ≫= ?f) with (f x). cbv beta. intros tr. rewrite <- (app_nil_r tr).
    refine (update_one_wp _ _ set replicas updateRevision status
      (candidates replicas (updateMin_of set)) _ (candidates replicas (updateMin_of set)) [] tr []
      (λ _, quiet_allowed) _ _ _ _ _); try done.
    + intros new above pod below _ Hall Hout _. apply Hdel; [|done].
      rewrite Hall. apply elem_of_app. right. left.
    + by apply targets_candidates.
Qed.

Lemma act_on_pods_safe currentRevision status first r :
  Replicas (Spec set) = Some r →
  safe (act_on_pods set updateSet currentRevision updateRevision status replicas condemned first)
    (λ _, True).
Proof.
  intros Hr. unfold act_on_pods. cbv zeta.
  assert (∀ err st, safe
    (status ← updateStatus st (MinReadySeconds (Spec set)) currentRevision updateRevision [replicas; condemned];
     mret (status, err : option error)) (λ _, True)) as Hrefresh.
  { intros err st. apply safe_seq; [apply quiet_safe, updateStatus_safe|]. intros. by apply safe_ret. }
  apply safe_seq; [apply runForAll_safe; intros; by eapply processReplica_safe|].
  intros [exit err]. destruct (_ || _); [apply Hrefresh|].
  apply safe_seq.
  { apply runForAll_safe. intros i pod Hpod. apply quiet_safe, (fixPodClaim_safe _ _ _ _ pod); [apply Hupd|].
    apply index_Some; [lia|by rewrite Nat2Z.id]. }
  intros [exit2 err2]. destruct (_ || _); [apply Hrefresh|].
  apply safe_seq; [apply runForAll_safe; intros; by eapply processCondemned_safe|].
  intros [exit3 err3]. destruct (_ || _); [apply Hrefresh|].
  apply safe_seq; [apply quiet_safe, updateStatus_safe|]. intros st.
  dec (us_Type (UpdateStrategy (Spec set)) = OnDeleteStrategyType) as Hod; [by apply safe_ret|].
  by apply (update_safe st r).
Qed.
End scope.

Section sync.
Context `{K8sLaws} `{GoLaws} `{!ClientGo}.

(** The pods of the set a synchronisation may create or delete. *)
Definition in_scope (set : XStatefulSet) (pods : list Pod) (updateRevision : Rev) (e : api_call) : Prop :=
  match event_of e with
  | None => True
  | Some (EvCreate ns pod) =>
      in_range set (getOrdinal pod) ∧ isCreated pod = false ∧
      (pod ∈ pods ∨ ∀ q, q ∈ pods → getOrdinal q ≠ getOrdinal pod)
  | Some (EvDelete ns name) =>
      ∃ pod, EvDelete ns name = delete_of pod ∧ isTerminating pod = false ∧ 0 ≤ getOrdinal pod ∧
        (pod ∈ pods ∧ ¬ in_range set (getOrdinal pod) ∨
         pod ∈ pods ∧ in_range set (getOrdinal pod) ∧ isFailed pod || isSucceeded pod = true ∨
         in_range set (getOrdinal pod) ∧ getStartOrdinal set + updateMin_of set ≤ getOrdinal pod ∧
         getPodRevision pod ≠ Name (cr_meta updateRevision) ∧
         us_Type (UpdateStrategy (Spec set)) ≠ OnDeleteStrategyType)
  end.

Lemma allowed_in_scope set pods replicas condemned updateRevision r e :
  Replicas (Spec set) = Some r → Z.of_nat (length replicas) = r → valid set → 0 ≤ getStartOrdinal set →
  replicas_ok set pods replicas → condemned_ok set pods condemned →
  allowed set replicas condemned updateRevision e → in_scope set pods updateRevision e.
Proof.
  intros Hr Hlen Hvalid Hstart Hok [Hcond _]. unfold allowed, in_scope.
  assert (∀ p, p ∈ replicas → in_range set (getOrdinal p) ∧ 0 ≤ getOrdinal p ∧
            (p ∈ pods ∨ isCreated p = false ∧ ∀ q, q ∈ pods → getOrdinal q ≠ getOrdinal p)) as Hin.
  { intros p [i Hp]%list_elem_of_lookup. pose proof (lookup_lt_Some _ _ _ Hp).
    destruct (Hok i p Hp) as [Ho Hor]. split_and!; [exists r; split; [done|lia]|lia|].
    destruct Hor as [?|(? & _ & ?)]; auto. }
  destruct (event_of e) as [[ns pod|ns name]|]; [| |done].
  - intros (_ & Hc & Hp). destruct (Hin pod Hp) as (? & _ & Hor). split_and!; [done|done|].
    destruct Hor as [?|[_ ?]]; auto.
  - intros (pod & Hdel & Hterm & Hcases). exists pod. split; [done|]. split; [done|].
    destruct Hcases as [[Hp Hf]|[Hp|(Hod & Hrev & i & Hi & Hmin)]].
    + destruct (Hin pod Hp) as (Hrange & Ho & Hor). split; [done|]. right. left.
      split_and!; [|done|done]. destruct Hor as [?|[Hc _]]; [done|].
      exfalso. unfold isCreated, isFailed, isSucceeded in *.
      apply bool_decide_eq_false in Hc. apply Hc.
      apply orb_true_iff in Hf as [Hf|Hf]; apply bool_decide_eq_true in Hf; by rewrite Hf.
    + destruct (proj1 (Hcond pod) Hp) as (? & ? & ?). split; [done|]. by left.
    + assert (pod ∈ replicas) as Hp by (by eapply list_elem_of_lookup_2).
      destruct (Hin pod Hp) as (Hrange & Ho & _). destruct (Hok i pod Hi) as [Heq _].
      split; [done|]. right. right. split_and!; [done|lia|done|done].
Qed.

(** It always returns: no panic. *)
Lemma updateStatefulSet_safe set currentRevision updateRevision collisionCount pods :
  syncable set currentRevision updateRevision →
  safe honest_lister (in_scope set pods updateRevision)
    (updateStatefulSet set currentRevision updateRevision collisionCount pods) (λ _, True).
Proof.
  intros (Hvalid & Hstart & Hrange & Hcur & Hupd). pose proof Hvalid as (_ & [_ [r Hr]] & _).
  destruct (Hrange r Hr) as [Hr0 Hr1]. unfold updateStatefulSet.
  assert (∀ e, quiet e → in_scope set pods updateRevision e) as HI.
  { intros e He. unfold in_scope. by rewrite He. }
  assert (∀ {A} (p : go A) Φ, safe honest_lister quiet p Φ →
    safe honest_lister (in_scope set pods updateRevision) p Φ) as Hq
    by (intros A p Φ Hp; exact (safe_weaken _ _ _ _ p Φ (λ o Ho, Ho) HI Hp)).
  destruct Hcur as ([currentSet|err] & -> & Hc); [|by apply safe_ret].
  change (deref (Some ?x) ≫= ?f) with (f x). cbv beta iota.
  destruct Hupd as ([updateSet|err] & -> & Hu); [|by apply safe_ret].
  change (deref (Some ?x) ≫= ?f) with (f x). cbv beta iota.
  specialize (Hc _ eq_refl). specialize (Hu _ eq_refl).
  apply safe_seq; [apply Hq, updateStatus_safe|]. intros status.
  destruct (arrange_pods_spec set currentSet updateSet currentRevision updateRevision pods r)
    as (replicas & condemned & -> & Hlen & Hok & Hcond); [done..|].
  change (mret ?x ≫= ?f) with (f x). cbv beta iota.
  eapply safe_bind; [apply Hq, find_unavailable_safe|]. intros [u first] _.
  eapply safe_bind; [apply Hq, find_unavailable_safe|]. intros [u' first'] _.
  destruct (bool_decide _); [by apply safe_ret|].
  apply safe_seq; [|intros [st err]; by apply safe_ret].
  assert (∀ i pod, replicas !! i = Some pod → 0 ≤ getOrdinal pod) as Hord.
  { intros i pod Hi. destruct (Hok i pod Hi) as [-> _]. lia. }
  eapply safe_weaken; [done| |apply (act_on_pods_safe set updateSet replicas condemned updateRevision
    Hvalid Hu Hord currentRevision status first' r Hr)].
  intros e. by apply (allowed_in_scope set pods replicas condemned updateRevision r).
Qed.

(** C2: what a synchronisation may do under either policy, whatever the
    interleaving of its goroutines: it creates only missing pods of the range,
    and deletes only pods that are not terminating and are out of the range,
    failed or finished, or, at or above the partition and never under
    [OnDelete], of another revision.  It always returns: no panic, as long as the set is
    defaulted and the two revisions restore to valid sets. *)
Theorem sync_scope set currentRevision updateRevision collisionCount pods :
  syncable set currentRevision updateRevision →
  wp honest_lister (λ _, in_scope set pods updateRevision)
    (updateStatefulSet set currentRevision updateRevision collisionCount pods)
    (returns (λ _ _, True)) [].
Proof. intros Hset. by apply updateStatefulSet_safe. Qed.
End sync.

(** ** Sets that are being deleted *)

Section deleting.
Context `{K8s} `{GoRuntime} `{!ClientGo}.
#[local] Existing Instance realHistory.

(** Calls that concern neither pods nor claims. *)
Definition not_pods (e : api_call) : Prop :=
  match e with
  | PodsCreate _ _ | PodsUpdate _ _ | PodsDelete _ _ | PodsPatch _ _ _ | PodListerGet _ _
  | PodIndexerByIndex _ | ClaimsCreate _ _ | ClaimsUpdate _ _ | ClaimListerGet _ _ => False
  | _ => True
  end.

(** The calls about the set itself: its revisions, its status, its metrics. *)
Definition set_io (e : api_call) : Prop :=
  match e with
  | Now | RevisionsCreate _ _ | RevisionsGet _ _ | RevisionsUpdate _ _ | RevisionsDelete _ _
  | RevisionListerList _ _ | RevisionListerGet _ _ | SetsUpdateStatus _ _ | SetListerGet _ _
  | LruGet _ | LruAdd _ | MetricSet _ _ _ => True
  | _ => False
  end.

Lemma updateStatus_calls P status n cur upd lists : P Now → calls P (updateStatus status n cur upd lists).
Proof.
  intros HP. unfold updateStatus. calls. generalize zero_replicaStatus.
  induction lists as [|l lists IH]; intros s; cbn [sum_statuses]; calls; [|apply IH].
  unfold computeReplicaStatus. generalize zero_replicaStatus.
  induction l as [|pod l IHl]; intros s'; cbn [count_pods]; calls; [|apply IHl].
  unfold count_pod. by calls.
Qed.

Lemma arrange_pods_calls P set c u cur upd pods : calls P (arrange_pods set c u cur upd pods).
Proof.
  unfold arrange_pods. calls. generalize (replicate (Z.to_nat a) (None : option Pod)) ([] : list Pod).
  induction pods as [|pod pods IH]; intros slots condemned; cbn [partition_pods]; unfold index; calls; apply IH.
Qed.

Lemma find_unavailable_calls P n pods u first : P Now → calls P (find_unavailable n pods u first).
Proof.
  intros HP. revert u first. induction pods as [|[ref pod] pods IH]; intros u first; cbn [find_unavailable]; calls;
    [done|apply IH..].
Qed.

Lemma updateStatefulSet_deleting set cur upd c pods :
  DeletionTimestamp (set_meta set) ≠ None → calls set_io (updateStatefulSet set cur upd c pods).
Proof.
  intros Hdel. unfold updateStatefulSet. rewrite bool_decide_eq_true_2 by done.
  calls; first [by apply updateStatus_calls|apply arrange_pods_calls|by apply find_unavailable_calls].
Qed.

Lemma create_loop_calls fuel parent revision clone c :
  calls set_io (create_loop fuel parent revision clone c).
Proof.
  revert clone c. induction fuel as [|fuel IH]; intros clone c; cbn [create_loop]; calls; first [done|apply IH].
Qed.

Lemma getStatefulSetRevisions_calls fuel set revisions :
  calls set_io (getStatefulSetRevisions fuel set revisions).
Proof.
  unfold getStatefulSetRevisions, chooseUpdateRevision, setMatchesLatestExistingRevision,
    CreateControllerRevision, UpdateControllerRevision, realHistory, real_CreateControllerRevision,
    real_UpdateControllerRevision, update_attempt.
  calls; try done; apply create_loop_calls.
Qed.

Lemma updateStatefulSetStatus_calls set status : calls set_io (updateStatefulSetStatus set status).
Proof.
  unfold updateStatefulSetStatus, UpdateStatefulSetStatus, update_status_attempt. calls; done.
Qed.

Lemma truncateHistory_calls set pods revisions cur upd :
  calls set_io (truncateHistory set pods revisions cur upd).
Proof.
  unfold truncateHistory. calls.
  induction (take _ _) as [|r l IH]; cbn [delete_revisions];
    unfold DeleteControllerRevision, realHistory, real_DeleteControllerRevision in *; calls; done.
Qed.

Lemma UpdateStatefulSet_deleting fuel set pods :
  DeletionTimestamp (set_meta set) ≠ None → calls set_io (UpdateStatefulSet fuel set pods).
Proof.
  intros Hdel. unfold UpdateStatefulSet, ListRevisions, ListControllerRevisions, realHistory,
    real_ListControllerRevisions, performUpdate.
  calls; first [done|apply getStatefulSetRevisions_calls|by apply updateStatefulSet_deleting
    |apply updateStatefulSetStatus_calls|apply truncateHistory_calls].
Qed.

(** C15: a set that is being deleted keeps its pods and claims: a whole
    synchronisation, revisions and status included, makes no call about them,
    whatever the answers of the API server. *)
Theorem deleting_set_untouched fuel set pods :
  DeletionTimestamp (set_meta set) ≠ None → calls not_pods (UpdateStatefulSet fuel set pods).
Proof.
  intros Hdel. eapply calls_weaken; [|by apply UpdateStatefulSet_deleting]. by intros [].
Qed.
End deleting.
