(* ===== verification/Progress.v ===== *)
(** * Progress: scaling up moves on, and a converged set is left alone

    [Monotonic] and [Burst] say what a synchronisation must not do.  Here is what
    it does do: with an API server that accepts writes, the first ordinal of the
    set without a pod gets one as soon as the pods before it are settled, and a
    set whose pods are all as specified is only read. *)
From S2P Require Export Burst.

(** The clock shows [t], the API server accepts writes, and the claims in the
    cache are neither being deleted nor left by another pod. *)
Definition accepting `{K8s} (t : Time) (o : obs reply) : Prop :=
  match o with
  | existT Now r => r = t
  | existT (ClaimListerGet _ _) r =>
      match r with
      | inl claim => DeletionTimestamp (pvc_meta claim) = None ∧
                     ∀ pod : Pod, hasStaleOwnerRef claim pod podKind = false
      | inr err => IsNotFound err = true
      end
  | existT (ClaimsCreate _ _) r | existT (ClaimsUpdate _ _) r
  | existT (PodsCreate _ _) r | existT (PodsUpdate _ _) r | existT (PodsDelete _ _) r => r = None
  | _ => True
  end.

Definition any_call `{K8s} (_ : api_call) : Prop := True.
#[export] Hint Extern 0 (any_call _) => exact I : core.

(** One call whose answer is as [accepting] says. *)
Ltac ok_call := eapply safe_bind; [safe_call; [auto|let H := fresh in intros ? H; simpl in H; exact H]|].

(** ** The operations on pods and claims succeed *)

Section operations.
Context `{K8sLaws} `{GoLaws} `{!ClientGo} (t : Time) (P : api_call → Prop).
Context (HNow : P Now) (HP : ∀ e, claim_io e → P e).
Implicit Types (set : XStatefulSet) (pod : Pod).
Notation ok := (safe (accepting t) P).
#[local] Hint Extern 1 (P _) => (apply HP; exact I) : core.

Lemma event_ok verb set pod err : ok (recordPodEvent verb set pod err) (λ _, True).
Proof. apply recordPodEvent_safe; auto. Qed.

Lemma createClaims_ok set pod claims : ok (createClaims set pod claims []) (λ err, err = None).
Proof.
  induction claims as [|[n c] claims IH]; cbn [createClaims].
  { apply safe_ret, NewAggregate_None. constructor. }
  eapply (safe_bind _ _ _ _ (λ es, es = [])); [|by intros ? ->].
  unfold createPersistentVolumeClaim, GetClaim, CreateClaim. ok_call.
  intros [pvc|err] Hr; simpl in Hr.
  - destruct Hr as [Hr _]. rewrite bool_decide_eq_false_2 by auto. by apply safe_ret.
  - rewrite Hr. ok_call. intros err' ->. cbn [is_err negb].
    apply safe_seq; [apply recordClaimEvent_safe; auto|]. intros. by apply safe_ret.
Qed.

Lemma createPersistentVolumeClaims_ok set pod :
  well_formed set → ok (createPersistentVolumeClaims set pod) (λ err, err = None).
Proof.
  intros [Hsel _]. unfold createPersistentVolumeClaims.
  destruct (getPersistentVolumeClaims_total set pod Hsel) as [cs ->]. apply createClaims_ok.
Qed.

Lemma ClaimsMatchRetentionPolicy_ok set pod :
  well_formed set → ok (ClaimsMatchRetentionPolicy set pod) (λ r, ∃ b, r = inl b).
Proof.
  intros [_ Hr]. unfold ClaimsMatchRetentionPolicy.
  induction (VolumeClaimTemplates (Spec set)) as [|v ts IH]; cbn [claims_match];
    [by apply safe_ret; eexists|].
  unfold GetClaim. ok_call. intros [claim|err] Hc; simpl in Hc; [|by rewrite Hc].
  destruct (isClaimOwnerUpToDate_total claim set pod Hr) as [b ->].
  change (deref (Some b) ≫= ?f) with (f b). cbv beta.
  destruct (negb b); [by apply safe_ret; eexists|done].
Qed.

Lemma update_claim_ok set pod n claim :
  well_formed set → ok (update_claim set pod n claim) (λ err, err = None).
Proof.
  intros [_ Hr]. unfold update_claim, UpdateClaim.
  apply safe_seq; [destruct (hasUnexpectedController _ _ _); [safe_call; auto|by apply safe_ret]|]. intros _.
  destruct (isClaimOwnerUpToDate_total claim set pod Hr) as [b ->].
  change (deref (Some b) ≫= ?f) with (f b). cbv beta. destruct (negb b); [|by apply safe_ret].
  destruct (updateClaimOwnerRef_total claim set pod Hr) as [c ->].
  change (deref (Some c) ≫= ?f) with (f c). cbv beta. ok_call. intros err ->. by apply safe_ret.
Qed.

Lemma UpdatePodClaimForRetentionPolicy_ok set pod :
  well_formed set → ok (UpdatePodClaimForRetentionPolicy set pod) (λ err, err = None).
Proof.
  intros Hwf. unfold UpdatePodClaimForRetentionPolicy.
  induction (VolumeClaimTemplates (Spec set)) as [|v ts IH]; cbn [update_claims]; [by apply safe_ret|].
  unfold GetClaim. ok_call. intros [claim|err] Hc; simpl in Hc; [|by rewrite Hc].
  eapply safe_bind; [by apply update_claim_ok|]. by intros ? ->.
Qed.

Lemma PodClaimIsStale_ok set pod : well_formed set → ok (PodClaimIsStale set pod) (λ r, r = inl false).
Proof.
  intros [Hsel _]. unfold PodClaimIsStale. destruct (bool_decide _); [by apply safe_ret|].
  destruct (getPersistentVolumeClaims_total set pod Hsel) as [cs ->].
  change (deref (Some cs) ≫= ?f) with (f cs). cbv beta.
  induction (map_range cs) as [|[n c] l IH]; cbn [stale_claim]; [by apply safe_ret|].
  unfold GetClaim. ok_call. intros [claim|err] Hc; simpl in Hc; [|by rewrite Hc].
  destruct Hc as [_ Hc]. by rewrite Hc.
Qed.

Lemma commit_pod_ok set pod consistent attempted :
  P (PodsUpdate (Namespace (pod_meta pod)) pod) →
  ok (commit_pod set pod consistent attempted) (λ r, r.1 = None).
Proof.
  intros HPu. unfold commit_pod, UpdatePod. destruct consistent; [by apply safe_ret|].
  ok_call. intros err ->. by apply safe_ret.
Qed.

(** Once the identity and the storage are in order. *)
Lemma commit_ok set pod attempted consistent :
  well_formed set → P (PodsUpdate (Namespace (pod_meta pod)) pod) →
  ok (match' ← ClaimsMatchRetentionPolicy set pod;
      match match' with
      | inr err => recordPodEvent "update" set pod (Some err);; mret (Some err, (pod, attempted))
      | inl true => commit_pod set pod consistent attempted
      | inl false =>
          err ← UpdatePodClaimForRetentionPolicy set pod;
          match err with
          | Some err => recordPodEvent "update" set pod (Some err);; mret (Some err, (pod, attempted))
          | None => commit_pod set pod false attempted
          end
      end) (λ r, r.1 = None).
Proof.
  intros Hwf HPu. eapply safe_bind; [by apply ClaimsMatchRetentionPolicy_ok|]. intros ? [[] ->].
  - by apply commit_pod_ok.
  - eapply safe_bind; [by apply UpdatePodClaimForRetentionPolicy_ok|]. intros ? ->. by apply commit_pod_ok.
Qed.

Lemma update_pod_attempt_ok set s :
  well_formed set → (∀ ns pod, P (PodsUpdate ns pod)) → ok (update_pod_attempt set s) (λ r, r.1 = None).
Proof.
  destruct s as [pod attempted]. intros Hwf HPu. unfold update_pod_attempt.
  set (pod1 := if identityMatches set pod then pod else updateIdentity set pod).
  eapply (safe_bind _ _ _ _ (λ r : Pod * bool * option error, r.2 = None)).
  - destruct (storageMatches set pod1); [by apply safe_ret|].
    unfold updateStorage. destruct (getPersistentVolumeClaims_total set pod1 (proj1 Hwf)) as [c ->].
    simpl. change (deref (Some ?x) ≫= ?f) with (f x). cbv beta.
    eapply safe_bind; [by apply createPersistentVolumeClaims_ok|]. intros ? ->. by apply safe_ret.
  - intros [[pod2 consistent] err] Herr. simpl in Herr. subst err. by apply commit_ok.
Qed.

(** A pod that has its identity and its storage is written as it is. *)
Lemma update_pod_attempt_same set pod attempted :
  well_formed set → identityMatches set pod = true → storageMatches set pod = true →
  P (PodsUpdate (Namespace (pod_meta pod)) pod) →
  ok (update_pod_attempt set (pod, attempted)) (λ r, r.1 = None).
Proof. intros Hwf Hid Hst HPu. unfold update_pod_attempt. rewrite Hid, Hst. by apply commit_ok. Qed.

(** The loop ends with its first attempt. *)
Lemma UpdateStatefulPod_first set pod :
  ok (update_pod_attempt set (pod, false)) (λ r, r.1 = None) →
  ok (UpdateStatefulPod set pod) (λ err, err = None).
Proof.
  intros Hatt. unfold UpdateStatefulPod. rewrite RetryOnConflict_spec.
  assert (∀ n, retry_loop n (update_pod_attempt set) (pod, false) =
    ('(err, s) ← update_pod_attempt set (pod, false);
     match err with
     | Some e =>
         if IsConflict e
         then match n with O => mret (err, s) | S n => retry_loop n (update_pod_attempt set) s end
         else mret (err, s)
     | None => mret (err, s)
     end)) as Hloop by by intros [].
  rewrite Hloop. eapply (safe_bind _ _ _ _ (λ r, r.1 = None)).
  - eapply safe_bind; [exact Hatt|]. intros [err s] Herr. simpl in Herr. subst err. by apply safe_ret.
  - intros [err [pod' attempted]] Herr. simpl in Herr. subst err. destruct attempted; [|by apply safe_ret].
    apply safe_seq; [apply event_ok|]. intros. by apply safe_ret.
Qed.

Lemma UpdateStatefulPod_ok set pod :
  well_formed set → (∀ ns pod, P (PodsUpdate ns pod)) →
  ok (UpdateStatefulPod set pod) (λ err, err = None).
Proof. intros Hwf HPu. by apply UpdateStatefulPod_first, update_pod_attempt_ok. Qed.

Lemma UpdateStatefulPod_same set pod :
  well_formed set → identityMatches set pod = true → storageMatches set pod = true →
  P (PodsUpdate (Namespace (pod_meta pod)) pod) → ok (UpdateStatefulPod set pod) (λ err, err = None).
Proof. intros. by apply UpdateStatefulPod_first, update_pod_attempt_same. Qed.

(** ** The next pod *)

(** Running, ready and available at [t], and not terminating. *)
Definition settled_at set pod : Prop :=
  isRunningAndReady pod = true ∧ isTerminating pod = false ∧
  isRunningAndAvailable t pod (MinReadySeconds (Spec set)) = true.

Lemma running_phase pod :
  isRunningAndReady pod = true →
  isFailed pod || isSucceeded pod = false ∧ isCreated pod = true ∧ isPending pod = false.
Proof.
  intros [Hrun%bool_decide_eq_true _]%andb_true_iff.
  unfold isFailed, isSucceeded, isCreated, isPending. by rewrite Hrun.
Qed.

Lemma uncreated_phase pod : isCreated pod = false → isFailed pod || isSucceeded pod = false.
Proof.
  intros Hc%bool_decide_eq_false. unfold isFailed, isSucceeded.
  destruct (decide (Phase (pod_Status pod) = "")) as [->|]; [done|tauto].
Qed.

(** A settled replica lets the loop go on. *)
Lemma processReplica_settled set updateSet monotonic replicas i pod :
  well_formed updateSet → index replicas i = mret pod → settled_at set pod →
  (identityMatches set pod = true ∧ storageMatches set pod = true ∧ updateSet = set ∧
     P (PodsUpdate (Namespace (pod_meta pod)) pod) ∨ ∀ ns pod, P (PodsUpdate ns pod)) →
  ok (processReplica set updateSet monotonic replicas i) (λ r, r = (false, None)).
Proof.
  intros Hupd Hi (Hrun & Hterm & Hav) HPu. unfold processReplica. rewrite Hi.
  change (mret pod ≫= ?f) with (f pod). cbv beta.
  destruct (running_phase pod Hrun) as (-> & -> & ->).
  do 2 (change (mret None ≫= ?f) with (f None); cbv beta iota).
  rewrite Hterm, Hrun. cbn [andb negb]. ok_call. intros ? ->. rewrite Hav. cbn [andb negb].
  eapply safe_bind; [by apply ClaimsMatchRetentionPolicy_ok|]. intros ? [b ->].
  destruct (_ && _); [by apply safe_ret|].
  eapply (safe_bind _ _ _ _ (λ err, err = None)); [|intros ? ->; by apply safe_ret].
  destruct HPu as [(Hid & Hst & -> & HPu)|HPu]; [by apply UpdateStatefulPod_same|by apply UpdateStatefulPod_ok].
Qed.
End operations.

(** ** A loop whose first [k] items let it go on and the next one stops it *)

Section stop.
Context `{K8s} `{!ClientGo} (Adm : obs reply → Prop) (I : list (obs reply) → api_call → Prop).
Context (R Q : list (obs reply) → Prop) (fn : Z → go (bool * option error)).

Lemma for_all_stop k n tr :
  (k < n)%nat →
  (∀ i tr, (i < k)%nat → R tr →
     wp Adm I (fn (Z.of_nat i)) (returns (λ tr' r, r = (false, None) ∧ R tr')) tr) →
  (∀ tr, R tr → wp Adm I (fn (Z.of_nat k)) (returns (λ tr' r, r = (true, None) ∧ Q tr')) tr) →
  R tr →
  wp Adm I (for_all (seqZ 0 (Z.of_nat n)) fn) (returns (λ tr' r, r = (true, None) ∧ Q tr')) tr.
Proof.
  intros Hk Hgo Hstop.
  assert (∀ j m tr, (j + m = n)%nat → (j ≤ k)%nat → R tr →
    wp Adm I (for_all (seqZ (Z.of_nat j) (Z.of_nat m)) fn)
      (returns (λ tr' r, r = (true, None) ∧ Q tr')) tr) as Hloop.
  2:{ apply (Hloop 0%nat n); lia. }
  intros j m. revert j. induction m as [|m IH]; intros j tr' Hjm Hj HR; [lia|].
  rewrite seqZ_cons by lia. cbn [for_all]. destruct (decide (j = k)) as [->|Hne].
  - eapply wp_seq; [by apply Hstop|]. intros tr2 ? [-> HQ]. apply wp_ret. by eexists.
  - eapply wp_seq; [apply Hgo; [lia|done]|]. intros tr2 ? [-> HR2]. cbn [orb not_nil].
    replace (Z.pred (Z.of_nat (S m))) with (Z.of_nat m) by lia.
    replace (Z.succ (Z.of_nat j)) with (Z.of_nat (S j)) by lia.
    apply IH; [lia|lia|done].
Qed.

Lemma runForAll_stop (pods : list Pod) k tr :
  (k < length pods)%nat →
  (∀ i tr, (i < k)%nat → R tr →
     wp Adm I (fn (Z.of_nat i)) (returns (λ tr' r, r = (false, None) ∧ R tr')) tr) →
  (∀ tr, R tr → wp Adm I (fn (Z.of_nat k)) (returns (λ tr' r, r = (true, None) ∧ Q tr')) tr) →
  R tr →
  wp Adm I (runForAll pods fn true) (returns (λ tr' r, r = (true, None) ∧ Q tr')) tr.
Proof. intros. unfold runForAll. by apply (for_all_stop k). Qed.
End stop.

Section accepting.
Context `{K8sLaws} `{GoLaws} `{!ClientGo} (t : Time).
Implicit Types (set : XStatefulSet) (pod : Pod).
Notation accepting := (accepting t).
Notation settled_at := (settled_at t).
Notation ok := (safe accepting any_call).

(** The creation of [pod] was accepted. *)
Definition created_in pod (tr : list (obs reply)) : Prop :=
  EvCreate (Namespace (pod_meta pod)) pod ∈ pod_events tr.

(** [R] survives the calls in [P]. *)
Definition keeps (P : api_call → Prop) (R : list (obs reply) → Prop) : Prop :=
  ∀ tr x, P (projT1 x) → accepting x → R tr → R (tr ++ [x]).

Lemma keeps_safe {A} P R (p : go A) Φ tr :
  keeps P R → safe accepting P p Φ → R tr →
  wp accepting (λ _, any_call) p (returns (λ tr' a, Φ a ∧ R tr')) tr.
Proof.
  intros HR Hp Hr. eapply wp_weaken; [done| |].
  2:{ eapply wp_mono; [|by apply safe_trace]. intros tr' o (a & -> & Ha & new & -> & Hnew).
      exists a. split_and!; [done|exact Ha|]. clear -HR Hr Hnew.
      revert tr Hr. induction Hnew as [|x new [HP HA] _ IH]; intros tr Hr; [by rewrite app_nil_r|].
      change (x :: new) with ([x] ++ new). rewrite (assoc_L (++)). apply IH. by apply HR. }
  done.
Qed.

Lemma keeps_seq {A B} P R (p : go A) (f : A → go B) Φ Ψ tr :
  keeps P R → safe accepting P p Φ → R tr →
  (∀ tr' a, R tr' → Φ a → wp accepting (λ _, any_call) (f a) Ψ tr') →
  wp accepting (λ _, any_call) (p ≫= f) Ψ tr.
Proof. intros HR Hp Hr Hf. eapply wp_seq; [by eapply keeps_safe|]. intros tr' a [Ha Hr']. by apply Hf. Qed.

Lemma created_keeps pod : keeps quiet (created_in pod).
Proof.
  intros tr x _ _ Hc. unfold created_in. rewrite pod_events_app. apply elem_of_app. by left.
Qed.

(** *** The creation of a pod *)

Section creation.
Context (R Q : list (obs reply) → Prop) (pod : Pod).
Hypothesis HR : keeps claim_io R.
Hypothesis HQ : keeps claim_io Q.
Hypothesis Hcreate : ∀ tr, R tr → Q (tr ++ [existT (PodsCreate (Namespace (pod_meta pod)) pod) None]).

Lemma CreateStatefulPod_ok set tr :
  well_formed set → R tr →
  wp accepting (λ _, any_call) (CreateStatefulPod set pod)
    (returns (λ tr' err, err = None ∧ Q tr')) tr.
Proof.
  intros Hwf Hr. unfold CreateStatefulPod, CreatePod.
  eapply (keeps_seq _ _ _ _ _ _ _ HR); [by apply createPersistentVolumeClaims_ok|done|].
  intros tr1 ? Hr1 ->. apply wp_call_bind; [done|]. intros err Herr. simpl in Herr. subst err.
  cbn [is_err]. apply (keeps_safe claim_io Q _ (λ err, err = None)); [done| |by apply Hcreate].
  eapply safe_bind; [by apply UpdatePodClaimForRetentionPolicy_ok|]. intros ? ->.
  apply safe_seq; [by apply event_ok|]. intros. by apply safe_ret.
Qed.

Lemma processReplica_missing set updateSet replicas i tr :
  well_formed set → index replicas i = mret pod → isCreated pod = false → R tr →
  wp accepting (λ _, any_call) (processReplica set updateSet true replicas i)
    (returns (λ tr' r, r = (true, None) ∧ Q tr')) tr.
Proof.
  intros Hwf Hi Hc Hr. unfold processReplica. rewrite Hi.
  change (mret pod ≫= ?f) with (f pod). cbv beta. rewrite (uncreated_phase pod Hc), Hc.
  eapply (wp_seq _ _ _ _ (λ tr' r, r = Some (true, None) ∧ Q tr')).
  - eapply (keeps_seq _ _ _ _ _ _ _ HR); [by apply PodClaimIsStale_ok|done|]. intros tr1 ? Hr1 ->.
    eapply wp_seq; [by apply CreateStatefulPod_ok|]. intros tr2 ? [-> Hq]. apply wp_ret. by eexists.
  - intros tr' ? [-> Hq]. apply wp_ret. by eexists.
Qed.
End creation.

Lemma quiet_ok {A} (p : go A) Φ : safe accepting quiet p Φ → ok p Φ.
Proof. by apply safe_weaken. Qed.

(** A revision from which a set can be restored. *)
Definition restores set (rev : Rev) : Prop := ∃ s, ApplyRevision set rev = Some (inl s).

(** The first ordinal of the set without a pod; those before it have settled pods. *)
Definition next_ordinal set (pods : list Pod) (o : Z) : Prop :=
  in_range set o ∧ (∀ q, q ∈ pods → getOrdinal q ≠ o) ∧
  ∀ o', getStartOrdinal set ≤ o' < o →
    (∃ q, q ∈ pods ∧ getOrdinal q = o') ∧ ∀ q, q ∈ pods → getOrdinal q = o' → settled_at set q.

Lemma act_on_pods_creates set updateSet cur upd status pods replicas condemned first o tr :
  well_formed set → well_formed updateSet → allowsBurst set = false → next_ordinal set pods o →
  Replicas (Spec set) = Some (Z.of_nat (length replicas)) → replicas_ok set pods replicas →
  wp accepting (λ _, any_call) (act_on_pods set updateSet cur upd status replicas condemned first)
    (returns (λ tr' r, r.2 = None ∧ ∃ pod, getOrdinal pod = o ∧ created_in pod tr')) tr.
Proof.
  intros Hwf Hupd Hburst ((r & Hr & Ho) & Hfree & Hbefore) Hlen Hok.
  assert (r = Z.of_nat (length replicas)) as -> by congruence.
  set (k := Z.to_nat (o - getStartOrdinal set)).
  assert (k < length replicas)%nat as Hk by lia.
  destruct (lookup_lt_is_Some_2 _ _ Hk) as [pod Hpod].
  destruct (Hok _ _ Hpod) as [Hord [Hin|(Hnew & _)]]; [by destruct (Hfree pod Hin); lia|].
  unfold act_on_pods. rewrite Hburst. cbv zeta. cbn [negb].
  eapply wp_seq; [apply (runForAll_stop _ _ (λ _, True) (created_in pod) _ _ k)|].
  - done.
  - intros i tr' Hi _.
    enough (ok (processReplica set updateSet true replicas (Z.of_nat i)) (λ r, r = (false, None))) as Hok'.
    { eapply wp_mono; [|apply Hok']. intros tr2 x (res & -> & ->). by eexists. }
    destruct (lookup_lt_is_Some_2 replicas i) as [p Hp]; [lia|].
    eapply processReplica_settled with (pod := p);
      [done|done|done|by apply index_Some; [lia|rewrite Nat2Z.id]| |by right].
    destruct (Hok _ _ Hp) as [Hop [Hinp|(_ & _ & Hno)]]; [by eapply (Hbefore (getOrdinal p)); [lia|..]|].
    destruct (Hbefore (getOrdinal p)) as [(q & Hq & Hoq) _]; [lia|]. by destruct (Hno q Hq).
  - intros tr' _. apply (processReplica_missing (λ _, True) _ pod); try done.
    + intros tr2 x Hx%claim_io_quiet. by apply created_keeps.
    + intros tr2 _. unfold created_in. rewrite pod_events_app. apply elem_of_app. right. left.
    + apply index_Some; [lia|by rewrite Nat2Z.id].
  - done.
  - intros tr' ? [-> Hc]. cbn [orb].
    eapply (keeps_seq _ _ _ _ _ _ _ (created_keeps pod)); [apply updateStatus_safe|done|].
    intros tr2 st Hc2 _. apply wp_ret. eexists. split; [done|]. split; [done|].
    exists pod. split; [lia|done].
Qed.

(** C7: scaling up makes progress.  With an API server that accepts writes, a
    synchronisation under the default policy creates the pod of the first
    ordinal without one as soon as the pods of the smaller ordinals are settled,
    and returns a status without error. *)
Theorem scale_up_progress set currentRevision updateRevision collisionCount pods o :
  syncable set currentRevision updateRevision → allowsBurst set = false → DeletionTimestamp (set_meta set) = None →
  restores set currentRevision → restores set updateRevision → next_ordinal set pods o →
  wp accepting (λ _, any_call)
    (updateStatefulSet set currentRevision updateRevision collisionCount pods)
    (returns (λ tr r, (∃ st, r = (Some st, None)) ∧ ∃ pod, getOrdinal pod = o ∧ created_in pod tr)) [].
Proof.
  intros (Hvalid & Hstart & Hrange & Hrc & Hru) Hburst Hdel [cs Hcs] [us Hus] Hnext.
  pose proof Hvalid as (_ & Hwf & _). pose proof Hwf as [_ [r Hr]]. destruct (Hrange r Hr) as [Hr0 Hr1].
  pose proof (restorable_valid _ _ _ Hrc Hcs) as Hc. pose proof (restorable_valid _ _ _ Hru Hus) as Hu.
  unfold updateStatefulSet. rewrite Hcs, Hus.
  do 2 (change (deref (Some ?x) ≫= ?f) with (f x); cbv beta iota).
  eapply wp_seq; [apply quiet_ok, updateStatus_safe|]. intros tr1 status _.
  destruct (arrange_pods_spec set cs us currentRevision updateRevision pods r)
    as (replicas & condemned & -> & Hlen & Hok & _); [done..|].
  change (mret ?x ≫= ?f) with (f x). cbv beta iota.
  eapply wp_seq; [apply quiet_ok, find_unavailable_safe|]. intros tr2 [u first] _.
  eapply wp_seq; [apply quiet_ok, find_unavailable_safe|]. intros tr3 [u' first'] _.
  rewrite bool_decide_eq_false_2 by auto.
  eapply wp_seq; [apply (act_on_pods_creates set us _ _ _ pods _ _ _ o); try done;
    [apply Hu|by rewrite Hr, <- Hlen]|].
  intros tr4 [st err] [Herr Hpod]. simpl in Herr. subst err. apply wp_ret.
  eexists. split; [done|]. split; [by eexists|done].
Qed.
End accepting.

(** ** Counters and loops when nothing stops them *)

Section loops.
Context `{K8sLaws}.

Lemma tally_all f pods : (∀ p, p ∈ pods → f p = true) → tally f pods = Z.of_nat (length pods).
Proof.
  intros Hf. induction pods as [|p pods IH]; [done|]. rewrite tally_cons, Hf by left.
  rewrite IH by (intros; apply Hf; by right). simpl. lia.
Qed.

(** The status refreshed over replicas and no condemned pod. *)
Lemma updateStatus_tallies t status n cur upd pods tr :
  Z.of_nat (length pods) < 2147483648 →
  wp (frozen t) (λ _ e, e = Now) (updateStatus status n cur upd [pods; []])
    (returns (λ _ st, st = set_counters (tallies t n cur upd pods) status)) tr.
Proof.
  intros Hlen. unfold updateStatus, computeReplicaStatus. cbn [sum_statuses].
  apply wp_bind_2, wp_bind_2. eapply wp_mono; [|apply count_pods_tallies; repeat constructor; simpl; lia].
  intros tr' o (r & -> & ->). do 2 apply wp_ret. eexists. split; [done|]. f_equal.
  assert (∀ f, wrap32 (wrap32 (0 + (0 + tally f pods)) + 0) = tally f pods) as Hw.
  { intros f. pose proof (tally_range f pods).
    rewrite (wrap32_small (0 + (0 + tally f pods))), wrap32_small; unfold in_int32; lia. }
  by apply replicaStatus_eq; apply Hw.
Qed.

Context (Adm : obs reply → Prop) (P : api_call → Prop) (HChoose : P Choose).
Context (fn : Z → go (bool * option error)) (total : Z).
Hypothesis Hfn : ∀ k, 0 ≤ k < total → safe Adm P (fn k) (λ r, r = (false, None)).

Lemma slowStart_loop_none fuel batchSize remaining j successes :
  0 ≤ j → batchSize ≤ remaining → j + remaining ≤ total →
  safe Adm P (slowStart_loop fuel batchSize remaining j successes fn) (λ r, r.2 = None).
Proof.
  revert batchSize remaining j successes. induction fuel as [|fuel IH];
    intros batchSize remaining j successes Hj Hb Htot; cbn [slowStart_loop]; [by apply safe_ret|].
  destruct (0 <? batchSize) eqn:Hbs; [|by apply safe_ret].
  eapply (safe_bind _ _ _ _ (λ results, omap id results = [])).
  { intros tr. eapply wp_mono; [|apply (wp_par Adm P HChoose (λ _ _ (e : option error), e = None))].
    - intros tr' o (l & -> & rs & Hperm & Hrs). exists l. split; [done|].
      assert (Forall (λ e, e = None) l) as Hl.
      { rewrite Hperm. clear -Hrs. induction Hrs; by constructor. }
      clear -Hl. by induction Hl as [|e l -> _ IH].
    - by intros k _ t t' e _ ->.
    - intros k t [Hk1 Hk2]%elem_of_seqZ. eapply wp_seq; [apply Hfn; lia|].
      intros t' ? ->. apply wp_ret. by eexists. }
  intros results ->. cbv zeta. cbn [length]. change (0 <? Z.of_nat 0) with false. cbv iota.
  apply IH; unfold MaxBatchSize; lia.
Qed.

Lemma for_all_none ks :
  (∀ k, k ∈ ks → 0 ≤ k < total) → safe Adm P (for_all ks fn) (λ r, r = (false, None)).
Proof.
  induction ks as [|k ks IH]; intros Hks; cbn [for_all]; [by apply safe_ret|].
  eapply safe_bind; [apply Hfn, Hks; left|]. intros ? ->. cbn [orb not_nil].
  apply IH. intros; apply Hks; by right.
Qed.

Lemma runForAll_none (pods : list Pod) monotonic :
  Z.of_nat (length pods) = total →
  safe Adm P (runForAll pods fn monotonic) (λ r, r = (false, None)).
Proof.
  intros Hlen. unfold runForAll, slowStartBatch. destruct monotonic.
  - apply for_all_none. intros k Hk%elem_of_seqZ. lia.
  - eapply safe_bind; [apply slowStart_loop_none; lia|].
    intros [s err] Herr. simpl in Herr. subst err. by apply safe_ret.
Qed.
End loops.

(** ** A converged set *)

Section converged.
Context `{K8sLaws} `{GoLaws} `{!ClientGo}.
Context (t : Time) (set updateSet : XStatefulSet) (updateRevision : Rev) (pods : list Pod).

(** Calls that change nothing: reads, metrics, the scheduler's choices. *)
Definition reads_only (e : api_call) : Prop :=
  match e with Now | ClaimListerGet _ _ | MetricSet _ _ _ | Choose => True | _ => False end.

(** The clock shows [t], and the claims of the pods found in the cache carry the
    owner references the retention policy asks for. *)
Definition steady (o : obs reply) : Prop :=
  match o with
  | existT Now r => r = t
  | existT (ClaimListerGet _ name) r =>
      ∀ claim q template, r = inl claim → q ∈ pods → template ∈ VolumeClaimTemplates (Spec updateSet) →
        name = getPersistentVolumeClaimName updateSet template (getOrdinal q) →
        isClaimOwnerUpToDate claim updateSet q = Some true
  | _ => True
  end.

(** A pod as the set wants it. *)
Definition as_specified (q : Pod) : Prop :=
  settled_at t set q ∧ identityMatches set q = true ∧ storageMatches set q = true ∧
  getPodRevision q = Name (cr_meta updateRevision) ∧ in_range set (getOrdinal q).

(** Every pod is as specified and every ordinal has one. *)
Definition converged : Prop :=
  (∀ q, q ∈ pods → as_specified q) ∧ ∀ o, in_range set o → ∃ q, q ∈ pods ∧ getOrdinal q = o.

Notation still := (safe steady reads_only).

Lemma ClaimsMatchRetentionPolicy_still q :
  well_formed updateSet → q ∈ pods →
  still (ClaimsMatchRetentionPolicy updateSet q) (λ r, match r with inl b => b | inr _ => true end = true).
Proof.
  intros [_ Hr] Hq. unfold ClaimsMatchRetentionPolicy.
  assert (∀ v, v ∈ VolumeClaimTemplates (Spec updateSet) → v ∈ VolumeClaimTemplates (Spec updateSet)) as Hin
    by done.
  revert Hin. generalize (VolumeClaimTemplates (Spec updateSet)) at 1 3 as ts.
  induction ts as [|v ts IH]; intros Hin; cbn [claims_match]; [by apply safe_ret|].
  unfold GetClaim. eapply safe_bind; [safe_call; [done|let H := fresh in intros ? H; exact H]|].
  intros [claim|err] Hc.
  - assert (isClaimOwnerUpToDate claim updateSet q = Some true) as ->
      by (eapply Hc; [done|done|apply Hin; left|done]).
    change (deref (Some true) ≫= ?f) with (f true). cbv beta. cbn [negb].
    apply IH. intros; apply Hin; by right.
  - destruct (IsNotFound err); [|by apply safe_ret]. apply IH. intros; apply Hin; by right.
Qed.

Lemma processReplica_still monotonic replicas i q :
  well_formed updateSet → index replicas i = mret q → q ∈ pods → as_specified q →
  still (processReplica set updateSet monotonic replicas i) (λ r, r = (false, None)).
Proof.
  intros Hupd Hi Hq ((Hrun & Hterm & Hav) & Hid & Hst & _). unfold processReplica. rewrite Hi.
  change (mret q ≫= ?f) with (f q). cbv beta.
  destruct (running_phase q Hrun) as (-> & -> & ->).
  do 2 (change (mret None ≫= ?f) with (f None); cbv beta iota).
  rewrite Hterm, Hrun. cbn [andb negb].
  eapply safe_bind; [safe_call; [done|let H := fresh in intros ? H; simpl in H; exact H]|].
  intros ? ->. rewrite Hav. cbn [andb negb].
  eapply safe_bind; [by apply ClaimsMatchRetentionPolicy_still|]. intros r Hr.
  rewrite Hid, Hst. cbn [andb]. rewrite Hr. by apply safe_ret.
Qed.

(** The rolling update finds nothing to do. *)
Lemma update_one_still replicas status ts :
  Forall (λ i, ∃ q, index replicas i = mret q ∧ as_specified q) ts →
  still (update_one set replicas updateRevision status ts) (λ r, r = (status, None)).
Proof.
  induction 1 as [|i ts (q & Hi & Hs) _ IH]; cbn [update_one]; [by apply safe_ret|].
  rewrite Hi. change (mret q ≫= ?f) with (f q). cbv beta.
  destruct Hs as ((_ & Hterm & Hav) & _ & _ & Hrev & _).
  rewrite bool_decide_eq_false_2 by auto. cbn [andb].
  eapply safe_bind; [safe_call; [done|let H := fresh in intros ? H; simpl in H; exact H]|].
  intros ? ->. unfold isUnavailable. by rewrite Hav, Hterm.
Qed.

Lemma update_many_still replicas status ts n d :
  Forall (λ i, ∃ q, index replicas i = mret q ∧ as_specified q) ts →
  update_many set replicas updateRevision n d status ts = mret (status, None).
Proof.
  induction 1 as [|i ts (q & Hi & Hs) _ IH]; cbn [update_many]; [done|].
  destruct (d <? n); [|done]. rewrite Hi. change (mret q ≫= ?f) with (f q). cbv beta.
  destruct Hs as (_ & _ & _ & Hrev & _). rewrite bool_decide_eq_false_2 by auto. exact IH.
Qed.

(** [maxUnavailable] is a number or a percentage. *)
Definition budgeted : Prop := ∀ ru r, RollingUpdate (UpdateStrategy (Spec set)) = Some ru →
  ∃ v, GetScaledValueFromIntOrPercent (default (IntVal 1) (MaxUnavailable ru)) r false = inl v.

Lemma budgeted_parameters r err : rollable set → budgeted → rolling_parameters set r ≠ mret (inr err).
Proof.
  unfold rolling_parameters, getStatefulSetMaxUnavailable. intros Hroll Hbud.
  destruct (RollingUpdate _) as [ru|] eqn:Hru; [|done]. destruct (Hroll ru Hru) as (p & -> & _).
  by destruct (Hbud ru r Hru) as (v & ->).
Qed.

(** The counters of a converged set of [r] replicas. *)
Definition all_counted (r : Z) (st : XStatefulSetStatus) : Prop :=
  st_Replicas st = r ∧ ReadyReplicas st = r ∧ AvailableReplicas st = r ∧ UpdatedReplicas st = r.

(** The status of a converged set: besides the counters, what it says about the
    generation and the revisions. *)
Definition described (cur : Rev) (r : Z) (st : XStatefulSetStatus) : Prop :=
  all_counted r st ∧ ObservedGeneration st = Generation (set_meta set) ∧
  CurrentRevision st = Name (cr_meta cur) ∧ UpdateRevision st = Name (cr_meta updateRevision) ∧
  (Name (cr_meta cur) = Name (cr_meta updateRevision) → CurrentReplicas st = r).
(** What the status says about them before it is counted. *)
Definition labelled_for (cur : Rev) (st : XStatefulSetStatus) : Prop :=
  ObservedGeneration st = Generation (set_meta set) ∧ CurrentRevision st = Name (cr_meta cur) ∧
  UpdateRevision st = Name (cr_meta updateRevision).

Lemma refreshed cur status replicas tr :
  labelled_for cur status →
  Z.of_nat (length replicas) < 2147483648 → (∀ p, p ∈ replicas → as_specified p) →
  wp steady (λ _, reads_only)
    (updateStatus status (MinReadySeconds (Spec set)) cur updateRevision [replicas; []])
    (returns (λ _ st, described cur (Z.of_nat (length replicas)) st)) tr.
Proof.
  intros (Hgen & Hcur & Hupd) Hlen Hall. eapply (wp_weaken (frozen t) _ (λ _ e, e = Now)); [intros [e r]; by destruct e|intros ? e He; simpl in He; by subst e|].
  eapply wp_mono; [|by apply updateStatus_tallies]. intros tr' o (st & -> & ->). eexists. split; [done|].
  unfold described, all_counted. cbn.
  split_and!; try done; try (intros Hsame); apply tally_all; intros p Hp;
    destruct (Hall p Hp) as ((Hrun & Hterm & Hav) & _ & _ & Hrev & _).
  - by destruct (running_phase p Hrun) as (_ & ? & _).
  - done.
  - unfold available_at. by rewrite Hrun, Hav.
  - unfold live_at. destruct (running_phase p Hrun) as (_ & -> & _). rewrite Hterm. by apply bool_decide_eq_true.
  - unfold live_at. destruct (running_phase p Hrun) as (_ & -> & _). rewrite Hterm.
    apply bool_decide_eq_true. congruence.
Qed.

Lemma update_still r replicas status :
  valid set → budgeted → Replicas (Spec set) = Some r → (∀ p, p ∈ replicas → as_specified p) →
  still
    (if FeatureEnabled MaxUnavailableStatefulSet
     then updateStatefulSetAfterInvariantEstablished set replicas updateRevision status
     else
       updateMin ← match RollingUpdate (UpdateStrategy (Spec set)) with
                   | Some ru => deref (Partition ru)
                   | None => mret 0
                   end;
       update_one set replicas updateRevision status (targets replicas updateMin))
    (λ x, x = (status, None)).
Proof.
  intros (_ & _ & Hroll) Hbud Hr Hall.
  assert (Forall (λ i, ∃ q, index replicas i = mret q ∧ as_specified q)
            (targets replicas (updateMin_of set))) as Htargets.
  { pose proof (targets_candidates replicas _ (updateMin_nonneg set Hroll)) as Hts.
    assert (∀ q, q ∈ candidates replicas (updateMin_of set) → q ∈ replicas) as Hin.
    { intros q Hq. unfold candidates in Hq. rewrite elem_of_reverse in Hq.
      eapply elem_of_sublist; [exact Hq|]. apply sublist_drop. }
    revert Hin. induction Hts as [|i q ts qs Hi _ IH]; intros Hin; constructor.
    - exists q. split; [done|]. apply Hall, Hin. left.
    - apply IH. intros; apply Hin; by right. }
  destruct (FeatureEnabled _).
  - unfold updateStatefulSetAfterInvariantEstablished. rewrite Hr.
    change (deref (Some r) ≫= ?f) with (f r). cbv beta.
    destruct (rolling_parameters_ret set r Hroll) as [[e He]|[m ->]]; [by destruct (budgeted_parameters r e)|].
    change (mret ?x ≫= ?f) with (f x); cbv beta iota.
    apply safe_seq; [by apply count_unavailable_now|]. intros u. apply safe_seq; [by safe_call|]. intros _.
    destruct (m <=? u); [by apply safe_ret|]. rewrite update_many_still by done. by apply safe_ret.
  - assert (match RollingUpdate (UpdateStrategy (Spec set)) with
            | Some ru => deref (Partition ru) | None => mret 0 end = mret (updateMin_of set) :> go Z) as ->.
    { unfold updateMin_of. destruct (RollingUpdate _) as [ru|] eqn:Hru; [|done].
      destruct (Hroll _ Hru) as (p & -> & _). done. }
    change (mret ?x ≫= ?f) with (f x). cbv beta. by apply update_one_still.
Qed.

Lemma act_on_pods_still cur r replicas status first tr :
  valid set → valid updateSet → budgeted → Replicas (Spec set) = Some r →
  Z.of_nat (length replicas) = r → r < 2147483648 →
  (∀ p, p ∈ replicas → p ∈ pods ∧ as_specified p) → labelled_for cur status →
  wp steady (λ _, reads_only)
    (act_on_pods set updateSet cur updateRevision status replicas [] first)
    (returns (λ _ x, described cur r x.1 ∧ x.2 = None)) tr.
Proof.
  intros Hset Hupd Hbud Hr Hlen Hsmall Hall Hlab. unfold act_on_pods. cbv zeta.
  eapply wp_seq; [apply (runForAll_none _ _ I _ (Z.of_nat (length replicas))); [|done]|].
  { intros k Hk. destruct (lookup_lt_is_Some_2 replicas (Z.to_nat k)) as [q Hq]; [lia|].
    destruct (Hall q) as [Hin Hspec]; [by eapply list_elem_of_lookup_2|].
    apply (processReplica_still _ _ _ q); [apply Hupd|by apply index_Some; [lia|]|done|done]. }
  intros tr1 ? ->. cbn [orb not_nil].
  eapply wp_seq; [by apply (runForAll_none _ _ I _ 0); [intros; lia|]|]. intros tr2 ? ->. cbn [orb not_nil].
  eapply wp_seq; [by apply (runForAll_none _ _ I _ 0); [intros; lia|]|]. intros tr3 ? ->. cbn [orb not_nil].
  eapply wp_seq; [apply refreshed; [done|lia|by intros; apply Hall]|]. intros tr4 st Hst. rewrite Hlen in Hst.
  dec (us_Type (UpdateStrategy (Spec set)) = OnDeleteStrategyType) as Hod; [apply wp_ret; by eexists|].
  eapply wp_mono; [|apply (update_still r); try done; by intros; apply Hall].
  intros tr5 o (x & -> & ->). by eexists.
Qed.

(** The synchronisation of a converged set, with the whole of its status. *)
Lemma converged_still currentRevision collisionCount r tr :
  syncable set currentRevision updateRevision → budgeted → restores set currentRevision →
  ApplyRevision set updateRevision = Some (inl updateSet) →
  DeletionTimestamp (set_meta set) = None → Replicas (Spec set) = Some r → r < 2147483648 → converged →
  wp steady (λ _, reads_only)
    (updateStatefulSet set currentRevision updateRevision collisionCount pods)
    (returns (λ _ x, ∃ st, x = (Some st, None) ∧ described currentRevision r st)) tr.
Proof.
  intros (Hvalid & Hstart & Hrange & Hrc & Hru) Hbud [cs Hcs] Hus Hdel Hr Hsmall [Hspec Hocc].
  destruct (Hrange r Hr) as [Hr0 Hr1].
  pose proof (restorable_valid _ _ _ Hrc Hcs) as Hc. pose proof (restorable_valid _ _ _ Hru Hus) as Hu.
  unfold updateStatefulSet. rewrite Hcs, Hus.
  do 2 (change (deref (Some ?x) ≫= ?f) with (f x); cbv beta iota).
  eapply wp_seq; [by apply updateStatus_counters|]. intros tr1 ? [c0 ->].
  destruct (arrange_pods_spec set cs updateSet currentRevision updateRevision pods r)
    as (replicas & condemned & -> & Hlen & Hok & Hcond & _); [done..|].
  assert (condemned = []) as ->.
  { destruct condemned as [|p ps]; [done|]. destruct (proj1 (Hcond p)) as (Hp & Hout & _); [left|].
    by destruct Hout; apply Hspec. }
  change (mret ?x ≫= ?f) with (f x). cbv beta iota.
  eapply wp_seq; [by apply find_unavailable_now|]. intros tr2 [u first] _.
  eapply wp_seq; [by apply find_unavailable_now|]. intros tr3 [u' first'] _.
  rewrite bool_decide_eq_false_2 by auto.
  eapply wp_seq; [apply (act_on_pods_still _ r); try done|].
  - intros p [i Hp]%list_elem_of_lookup. destruct (Hok i p Hp) as [Ho [Hin|(_ & _ & Hno)]]; [auto|].
    exfalso. destruct (Hocc (getOrdinal p)) as (q & Hq & Hoq); [|by destruct (Hno q Hq)].
    exists r. split; [done|]. apply lookup_lt_Some in Hp. lia.
  - intros tr4 [st err] [Hst Herr]. simpl in Herr, Hst. subst err. apply wp_ret. eexists. split; [done|].
    by eexists.
Qed.

(** A converged set is left alone.  When every ordinal has a pod as
    specified and there is no other pod, a synchronisation under either policy
    writes nothing to the API server, reports no error, and returns a status in
    which every counter equals the specified number of replicas. *)
Lemma converged_untouched currentRevision collisionCount r :
  syncable set currentRevision updateRevision → budgeted → restores set currentRevision →
  ApplyRevision set updateRevision = Some (inl updateSet) →
  DeletionTimestamp (set_meta set) = None → Replicas (Spec set) = Some r → r < 2147483648 → converged →
  wp steady (λ _, reads_only)
    (updateStatefulSet set currentRevision updateRevision collisionCount pods)
    (returns (λ _ x, ∃ st, x = (Some st, None) ∧ all_counted r st)) [].
Proof.
  intros. eapply wp_mono; [|by apply converged_still].
  intros tr o (x & -> & st & -> & Hst & _). eexists. split; [done|]. by exists st.
Qed.
End converged.
