(* ===== verification/Convergence.v ===== *)
(** * Convergence: synchronisations roll a set out

    The loop closed: a synchronisation changes the pods, the nodes start the new
    ones, and the next synchronisation sees the result.  Under the default policy
    and with healthy pods, one synchronisation takes one step of [Rollout], and as
    many rounds as there is work end with the set rolled out. *)
From S2P Require Export Progress Rollout.

(** ** What calls do to the pods *)

Section effects.
Context `{K8s}.

(** The API server identifies a pod by its namespace and its name. *)
Definition named (ns name : string) (q : Pod) : Prop :=
  Namespace (pod_meta q) = ns ∧ Name (pod_meta q) = name.

Definition remove_pod (ns name : string) (pods : list Pod) : list Pod :=
  filter (λ q, ¬ (Namespace (pod_meta q) = ns ∧ Name (pod_meta q) = name)) pods.
Definition replace_pod (ns : string) (pod : Pod) (pods : list Pod) : list Pod :=
  (λ q, if decide (Namespace (pod_meta q) = ns ∧ Name (pod_meta q) = Name (pod_meta pod))
        then pod else q) <$> pods.

(** An accepted call; a deleted pod is gone at once. *)
Definition effect (x : obs reply) (pods : list Pod) : list Pod :=
  match x with
  | existT (PodsCreate _ pod) r => match r with None => pods ++ [pod] | Some _ => pods end
  | existT (PodsUpdate ns pod) r => match r with None => replace_pod ns pod pods | Some _ => pods end
  | existT (PodsDelete ns name) r => match r with None => remove_pod ns name pods | Some _ => pods end
  | _ => pods
  end.
Definition effects (tr : list (obs reply)) (pods : list Pod) : list Pod :=
  foldl (λ pods x, effect x pods) pods tr.

Lemma effects_snoc tr x pods : effects (tr ++ [x]) pods = effect x (effects tr pods).
Proof. unfold effects. by rewrite foldl_app. Qed.

(** Calls that leave the pods alone, and writing a pod that is there. *)
Definition inert (e : api_call) : Prop :=
  match e with PodsCreate _ _ | PodsUpdate _ _ | PodsDelete _ _ => False | _ => True end.
Definition harmless (pods : list Pod) (e : api_call) : Prop :=
  match e with
  | PodsUpdate ns pod => pod ∈ pods ∧ ns = Namespace (pod_meta pod)
  | _ => inert e
  end.

Lemma claim_io_inert e : claim_io e → inert e.
Proof. by destruct e. Qed.
Lemma inert_harmless pods e : inert e → harmless pods e.
Proof. by destruct e. Qed.
Lemma inert_effect x pods : inert (projT1 x) → effect x pods = pods.
Proof. destruct x as [e r]. by destruct e. Qed.

(** After the calls of [tr] the pods are [X]. *)
Definition now_pods (pods X : list Pod) (tr : list (obs reply)) : Prop := effects tr pods = X.

Lemma inert_keeps t pods X : keeps t inert (now_pods pods X).
Proof. intros tr x Hx _ HX. unfold now_pods. by rewrite effects_snoc, HX, inert_effect. Qed.

(** The revision of the pod of each ordinal. *)
Definition view (pods : list Pod) : gmap Z string :=
  list_to_map ((λ p, (getOrdinal p, getPodRevision p)) <$> pods).

Definition distinct (pods : list Pod) : Prop := NoDup (getOrdinal <$> pods).

Lemma view_lookup pods o r :
  distinct pods → view pods !! o = Some r ↔ ∃ p, p ∈ pods ∧ getOrdinal p = o ∧ getPodRevision p = r.
Proof.
  intros Hnd. unfold view. rewrite <- elem_of_list_to_map.
  - rewrite list_elem_of_fmap. split.
    + intros (p & [= -> ->] & Hp). by exists p.
    + intros (p & Hp & <- & <-). by exists p.
  - rewrite <- list_fmap_compose. exact Hnd.
Qed.

Lemma view_is_Some pods o :
  distinct pods → is_Some (view pods !! o) ↔ ∃ p, p ∈ pods ∧ getOrdinal p = o.
Proof.
  intros Hnd. split.
  - intros [r (p & Hp & Ho & _)%view_lookup]; [by exists p|done].
  - intros (p & Hp & Ho). exists (getPodRevision p). apply view_lookup; [done|]. by exists p.
Qed.

Lemma view_None pods o :
  distinct pods → view pods !! o = None ↔ ∀ p, p ∈ pods → getOrdinal p ≠ o.
Proof.
  intros Hnd. rewrite eq_None_not_Some, view_is_Some by done. split.
  - intros Hno p Hp Ho. apply Hno. by exists p.
  - intros Hno (p & Hp & Ho). by destruct (Hno p Hp).
Qed.

Lemma distinct_ordinal pods p q :
  distinct pods → p ∈ pods → q ∈ pods → getOrdinal p = getOrdinal q → p = q.
Proof.
  intros Hnd [i Hi]%list_elem_of_lookup [j Hj]%list_elem_of_lookup Heq.
  assert (i = j) as ->; [|congruence].
  eapply (NoDup_lookup _ _ _ (getOrdinal p) Hnd); rewrite list_lookup_fmap.
  - by rewrite Hi.
  - by rewrite Hj, Heq.
Qed.

Lemma view_snoc pods pod :
  distinct pods → (∀ q, q ∈ pods → getOrdinal q ≠ getOrdinal pod) →
  distinct (pods ++ [pod]) ∧
  view (pods ++ [pod]) = <[getOrdinal pod := getPodRevision pod]> (view pods).
Proof.
  intros Hnd Hfresh. assert (distinct (pods ++ [pod])) as Hnd'.
  { unfold distinct. rewrite fmap_app. apply list.NoDup_app. split_and!; [done| |apply NoDup_singleton].
    intros o (q & Ho & Hq)%list_elem_of_fmap Ho'%list_elem_of_singleton.
    apply (Hfresh q Hq). congruence. }
  split; [done|]. apply map_eq. intros o. apply option_eq. intros r.
  rewrite view_lookup, lookup_insert_Some, view_lookup by done. setoid_rewrite elem_of_app.
  setoid_rewrite list_elem_of_singleton. split.
  - intros (p & [Hp| ->] & <- & <-); [right; split; [by apply not_eq_sym, Hfresh|by exists p]|by left].
  - intros [[<- <-]|[_ (p & Hp & <- & <-)]]; [exists pod; auto|exists p; auto].
Qed.

Lemma view_map pods pods' :
  Forall2 (λ p p', Name (pod_meta p') = Name (pod_meta p) ∧ Labels (pod_meta p') = Labels (pod_meta p)) pods pods' →
  view pods' = view pods ∧ (distinct pods → distinct pods').
Proof.
  intros Hall. assert ((λ p, (getOrdinal p, getPodRevision p)) <$> pods' =
                       (λ p, (getOrdinal p, getPodRevision p)) <$> pods) as Heq.
  { induction Hall as [|p p' ps ps' [Hp Hl] _ IH]; [done|]. cbn [fmap list_fmap]. f_equal; [|exact IH].
    unfold getPodRevision. rewrite Hl. f_equal. by apply getOrdinal_name. }
  split; [unfold view; by rewrite Heq|]. unfold distinct.
  assert (∀ l : list Pod, getOrdinal <$> l = fst <$> ((λ p, (getOrdinal p, getPodRevision p)) <$> l)) as Hfst.
  { intros l. by rewrite <- list_fmap_compose. }
  by rewrite !Hfst, Heq.
Qed.
End effects.

(** ** Healthy pods *)

Section healthy.
Context `{K8sLaws} `{GoLaws} (set : XStatefulSet).

(** The set is the controller of the pod, and selects it. *)
Definition claimed (pod : Pod) : Prop :=
  (∃ ref, GetControllerOf (OwnerReferences (pod_meta pod)) = Some ref ∧
     or_Kind ref = gvk_Kind controllerKind ∧ or_Name ref = Name (set_meta set) ∧ or_UID ref = UID (set_meta set)) ∧
  ∀ sel, LabelSelectorAsSelector (Selector (Spec set)) = inl sel → Matches sel (Labels (pod_meta pod)) = true.

(** A pod of the set that is there to stay. *)
Definition member (pod : Pod) : Prop :=
  identityMatches set pod = true ∧ storageMatches set pod = true ∧ isTerminating pod = false ∧ claimed pod.
(** One pod per ordinal, each a member. *)
Definition sound (pods : list Pod) : Prop := distinct pods ∧ ∀ p, p ∈ pods → member p.
(** All of them settled. *)
Definition healthy (t : Time) (pods : list Pod) : Prop :=
  sound pods ∧ ∀ p, p ∈ pods → settled_at t set p.

(** The pods whose ordinals are not in [os]. *)
Definition drop_ordinals (os : list Z) (pods : list Pod) : list Pod :=
  filter (λ q, getOrdinal q ∉ os) pods.

Lemma drop_ordinals_nil pods : drop_ordinals [] pods = pods.
Proof.
  unfold drop_ordinals. induction pods as [|q pods IH]; [done|].
  rewrite filter_cons_True by apply not_elem_of_nil. by rewrite IH.
Qed.

Lemma elem_of_drop_ordinals os pods q : q ∈ drop_ordinals os pods ↔ q ∈ pods ∧ getOrdinal q ∉ os.
Proof. unfold drop_ordinals. rewrite list_elem_of_filter. tauto. Qed.

Lemma drop_ordinals_distinct os pods : distinct pods → distinct (drop_ordinals os pods).
Proof.
  unfold distinct. intros Hnd. eapply sublist_NoDup; [exact Hnd|].
  apply fmap_sublist, list.sublist_filter.
Qed.

(** Members of the set have one namespace, and names tell them apart. *)
Lemma named_member pods p q :
  sound pods → p ∈ pods → q ∈ pods →
  (Namespace (pod_meta q) = Namespace (pod_meta p) ∧ Name (pod_meta q) = Name (pod_meta p)) ↔
  getOrdinal q = getOrdinal p.
Proof.
  intros [Hnd Hmem] Hp Hq. split; [intros [_ Hn]; by apply getOrdinal_name|].
  intros Ho. by rewrite (distinct_ordinal pods q p).
Qed.

Lemma replace_pod_same pods pod :
  sound pods → pod ∈ pods → replace_pod (Namespace (pod_meta pod)) pod pods = pods.
Proof.
  intros Hs Hp. unfold replace_pod. rewrite <- (list_fmap_id pods) at 2.
  apply list_fmap_ext. intros i q Hq%list_elem_of_lookup_2. simpl.
  destruct (decide _) as [Heq|]; [|done].
  eapply (distinct_ordinal pods); [apply Hs|done|done|]. symmetry. by apply (named_member pods).
Qed.

Lemma remove_pod_drop pods os pod :
  sound pods → pod ∈ pods →
  remove_pod (Namespace (pod_meta pod)) (Name (pod_meta pod)) (drop_ordinals os pods) =
    drop_ordinals (os ++ [getOrdinal pod]) pods.
Proof.
  intros Hs Hp. unfold remove_pod, drop_ordinals. rewrite list_filter_filter.
  apply filter_ext_in. intros q Hq. rewrite (named_member pods pod q) by done.
  rewrite elem_of_app, list_elem_of_singleton. tauto.
Qed.

Lemma view_drop pods os :
  distinct pods → view (drop_ordinals os pods) = delete_all os (view pods).
Proof.
  intros Hnd. apply map_eq. intros o. rewrite delete_all_lookup. apply option_eq. intros r.
  rewrite view_lookup by by apply drop_ordinals_distinct. setoid_rewrite elem_of_drop_ordinals.
  destruct (decide (o ∈ os)) as [Ho|Ho].
  - split; [intros (p & [_ Hn] & <- & _); tauto|done].
  - rewrite view_lookup by done. split.
    + intros (p & [Hp _] & Hpo & Hr). by exists p.
    + intros (p & Hp & <- & Hr). by exists p.
Qed.

Lemma sound_drop os pods : sound pods → sound (drop_ordinals os pods).
Proof.
  intros [Hnd Hmem]. split; [by apply drop_ordinals_distinct|].
  intros p [Hp _]%elem_of_drop_ordinals. auto.
Qed.

(** ** The trace of a synchronisation *)

Context (t : Time) (pods : list Pod) (Hsound : sound pods).
Notation acc := (accepting t).

Lemma harmless_keeps : keeps t (harmless pods) (now_pods pods pods).
Proof.
  intros tr [e r] Hx Hr HX. unfold now_pods. rewrite effects_snoc, HX.
  destruct e; try done. destruct Hx as [Hp ->]. simpl in Hr. subst r. by apply replace_pod_same.
Qed.

(** Deleting a pod of the set removes it, whatever pods there were at the start. *)
Lemma DeleteStatefulPod_effect base os pod tr :
  pod ∈ pods → now_pods base (drop_ordinals os pods) tr →
  wp acc (λ _, any_call) (DeleteStatefulPod set pod)
    (returns (λ tr' err, err = None ∧ now_pods base (drop_ordinals (os ++ [getOrdinal pod]) pods) tr')) tr.
Proof.
  intros Hp HX. unfold DeleteStatefulPod, DeletePod. apply wp_call_bind; [done|].
  intros err Herr. simpl in Herr. subst err.
  eapply (keeps_seq _ _ _ _ _ _ _ _ (inert_keeps _ _ _));
    [by apply (event_ok t _ claim_io_inert)| |intros tr' _ HX' _; apply wp_ret; by eexists].
  unfold now_pods. rewrite effects_snoc, HX. simpl. by apply remove_pod_drop.
Qed.
End healthy.

(** ** The rolling update

    Over the pods [Y] there are now; [base] are those of the start. *)
Section rolling.
Context `{K8sLaws} `{GoLaws} `{!ClientGo} (set : XStatefulSet) (upd : Rev).
Context (t : Time) (base Y : list Pod) (Hsound : sound set Y).
Notation acc := (accepting t).

(** The ordinals of the outdated pods of a list. *)
Definition olds (qs : list Pod) : list Z :=
  getOrdinal <$> filter (λ q, getPodRevision q ≠ Name (cr_meta upd)) qs.

Lemma olds_cons q qs :
  olds (q :: qs) = if decide (getPodRevision q ≠ Name (cr_meta upd)) then getOrdinal q :: olds qs else olds qs.
Proof. unfold olds. rewrite filter_cons. by destruct (decide _). Qed.

(** At most one pod goes; one does, if any is outdated, when all are settled. *)
Lemma update_one_effect replicas status ts qs tr :
  Forall2 (λ target q, index replicas target = mret q) ts qs → (∀ q, q ∈ qs → q ∈ Y) →
  now_pods base Y tr →
  wp acc (λ _, any_call) (update_one set replicas upd status ts)
    (returns (λ tr' x, x.2 = None ∧ ∃ k, (k ≤ 1)%nat ∧
       ((∀ q, q ∈ qs → settled_at t set q) → k = 1%nat) ∧
       now_pods base (drop_ordinals (take k (olds qs)) Y) tr')) tr.
Proof.
  intros Hts. revert tr. induction Hts as [|target q ts qs Hq _ IH]; intros tr Hin Hat; cbn [update_one].
  { apply wp_ret. eexists. split; [done|]. split; [done|]. exists 1%nat. cbn. by rewrite drop_ordinals_nil. }
  rewrite Hq. change (mret q ≫= ?f) with (f q). cbv beta.
  destruct (proj2 Hsound q (Hin q (list_elem_of_here _ _))) as (_ & _ & Hterm & _).
  rewrite Hterm, andb_true_r, olds_cons.
  destruct (decide (getPodRevision q ≠ Name (cr_meta upd))) as [Hrev|Hrev].
  - rewrite bool_decide_eq_true_2 by done.
    eapply wp_seq; [apply (DeleteStatefulPod_effect set t Y Hsound base []); [apply Hin; left|]|].
    + unfold now_pods. by rewrite drop_ordinals_nil.
    + intros tr' ? [-> Hat']. apply wp_ret. eexists. split; [done|]. split; [done|].
      exists 1%nat. cbn [take]. by rewrite take_0.
  - rewrite bool_decide_eq_false_2 by done. cbn [andb]. apply wp_call_bind; [done|].
    intros now Hnow. simpl in Hnow. subst now.
    destruct (isUnavailable t q (MinReadySeconds (Spec set))) eqn:Hun.
    + apply wp_ret. eexists. split; [done|]. split; [done|]. exists 0%nat. split; [lia|].
      rewrite take_0, drop_ordinals_nil. split; [|unfold now_pods; by rewrite effects_snoc, Hat].
      intros Hset. destruct (Hset q (list_elem_of_here _ _)) as (_ & _ & Hav).
      unfold isUnavailable in Hun. by rewrite Hav, Hterm in Hun.
    + eapply wp_mono; [|apply IH; [intros; apply Hin; by right|unfold now_pods; by rewrite effects_snoc, Hat]].
      intros tr' o (x & -> & Herr & k & Hk & Hall & Hat'). exists x. split; [done|]. split; [done|].
      exists k. split_and!; [done| |done]. intros Hset. apply Hall. intros; apply Hset; by right.
Qed.

Lemma update_many_effect replicas b status ts qs d os tr :
  Forall2 (λ target q, index replicas target = mret q) ts qs → (∀ q, q ∈ qs → q ∈ Y) →
  now_pods base (drop_ordinals os Y) tr →
  wp acc (λ _, any_call) (update_many set replicas upd b d status ts)
    (returns (λ tr' x, x.2 = None ∧
       now_pods base (drop_ordinals (os ++ take (Z.to_nat (b - d)) (olds qs)) Y) tr')) tr.
Proof.
  intros Hts. revert status d os tr.
  induction Hts as [|target q ts qs Hq _ IH]; intros status d os tr Hin Hat; cbn [update_many].
  { apply wp_ret. eexists. split; [done|]. split; [done|]. cbn. by rewrite take_nil, app_nil_r. }
  destruct (d <? b) eqn:Hd.
  2:{ apply wp_ret. eexists. split; [done|]. split; [done|].
      replace (Z.to_nat (b - d)) with 0%nat by lia. by rewrite take_0, app_nil_r. }
  rewrite Hq. change (mret q ≫= ?f) with (f q). cbv beta.
  destruct (proj2 Hsound q (Hin q (list_elem_of_here _ _))) as (_ & _ & Hterm & _).
  rewrite Hterm, andb_true_r, olds_cons.
  assert (∀ q', q' ∈ qs → q' ∈ Y) as Hin' by (intros; apply Hin; by right).
  destruct (decide (getPodRevision q ≠ Name (cr_meta upd))) as [Hrev|Hrev].
  - rewrite bool_decide_eq_true_2 by done.
    eapply wp_seq; [apply (DeleteStatefulPod_effect set t Y Hsound base os); [apply Hin; left|done]|].
    intros tr' ? [-> Hat']. eapply wp_mono; [|by apply IH].
    intros tr2 x (res & -> & Herr & Hat2). eexists. split; [done|]. split; [done|].
    replace (Z.to_nat (b - d)) with (S (Z.to_nat (b - (d + 1)))) by lia. cbn [take].
    by rewrite <- (assoc_L (++)) in Hat2.
  - rewrite bool_decide_eq_false_2 by done. cbn [andb]. by apply IH.
Qed.

Lemma count_unavailable_effect qs n :
  (∀ q, q ∈ qs → q ∈ Y) →
  safe acc inert (count_unavailable (MinReadySeconds (Spec set)) qs n)
    (λ u, n ≤ u ∧ ((∀ q, q ∈ qs → settled_at t set q) → u = n)).
Proof.
  revert n. induction qs as [|q qs IH]; intros n Hin; cbn [count_unavailable]; [apply safe_ret; lia|].
  eapply (safe_bind _ _ _ _ (λ now : Time, now = t)); [by safe_call|]. intros ? ->.
  assert (∀ q', q' ∈ qs → q' ∈ Y) as Hin' by (intros; apply Hin; by right).
  destruct (isUnavailable t q (MinReadySeconds (Spec set))) eqn:Hun; intros tr;
    (eapply wp_mono; [|by apply IH]); intros tr' o (u & -> & Hu & Hall); exists u;
    (split; [done|]; split; [lia|]); intros Hset.
  - destruct (Hset q (list_elem_of_here _ _)) as (_ & Hterm & Hav).
    unfold isUnavailable in Hun. by rewrite Hav, Hterm in Hun.
  - apply Hall. intros; apply Hset; by right.
Qed.

Lemma candidates_in (replicas : list Pod) p q : q ∈ candidates replicas p → q ∈ replicas.
Proof.
  unfold candidates. rewrite elem_of_reverse. intros Hq. eapply elem_of_sublist; [exact Hq|]. apply sublist_drop.
Qed.

(** The outdated candidates are the stale ordinals. *)
Lemma olds_stale start r p replicas :
  0 ≤ p → Z.of_nat (length replicas) = r →
  (∀ i q, replicas !! i = Some q → q ∈ Y ∧ getOrdinal q = start + Z.of_nat i) →
  olds (candidates replicas p) = stale start r p (Name (cr_meta upd)) (view Y).
Proof.
  intros Hp Hlen Hrep. pose proof (proj1 Hsound) as Hnd.
  assert (getOrdinal <$> candidates replicas p = reverse (seqZ (start + p) (r - p))) as Hords.
  { unfold candidates. rewrite fmap_reverse. f_equal. apply list_eq. intros i.
    rewrite list_lookup_fmap, lookup_drop. destruct (replicas !! (Z.to_nat p + i)%nat) as [q|] eqn:Hq.
    - cbn. symmetry. apply lookup_seqZ. pose proof (lookup_lt_Some _ _ _ Hq). split; [|lia].
      rewrite (proj2 (Hrep _ q Hq)). lia.
    - cbn. symmetry. apply lookup_ge_None in Hq. apply lookup_seqZ_ge. lia. }
  unfold stale, olds. rewrite <- Hords.
  assert (∀ q, q ∈ candidates replicas p → q ∈ Y) as Hin.
  { intros q [i Hi]%candidates_in%list_elem_of_lookup. by eapply Hrep. }
  clear Hords. induction (candidates replicas p) as [|q qs IH]; [done|].
  assert (view Y !! getOrdinal q = Some (getPodRevision q)) as Hview.
  { apply view_lookup; [done|]. exists q. split; [apply Hin; left|done]. }
  cbn [fmap list_fmap]. rewrite !filter_cons, Hview.
  assert (filter (λ o, view Y !! o ≠ Some (Name (cr_meta upd))) (getOrdinal <$> qs) =
    getOrdinal <$> filter (λ q, getPodRevision q ≠ Name (cr_meta upd)) qs) as Hrest.
  { symmetry. apply IH. intros; apply Hin; by right. }
  cbn [fmap list_fmap] in Hrest. rewrite Hrest.
  destruct (decide (getPodRevision q ≠ Name (cr_meta upd))) as [Hne|He].
  - rewrite decide_True by congruence. done.
  - rewrite decide_False; [done|]. intros Hne. apply He. congruence.
Qed.
End rolling.

(** ** One synchronisation takes one step *)

Section refinement.
Context `{K8sLaws} `{GoLaws} `{!ClientGo}.
Context (set currentSet : XStatefulSet) (cur upd : Rev).

(** A set restored from a revision differs from the set in its template only. *)
Definition same_but_template (s s' : XStatefulSet) : Prop :=
  set_meta s = set_meta s' ∧
  VolumeClaimTemplates (Spec s) = VolumeClaimTemplates (Spec s') ∧
  UpdateStrategy (Spec s) = UpdateStrategy (Spec s') ∧ Ordinals (Spec s) = Ordinals (Spec s').

(** The selector of the set accepts the template of [s], whatever the labels that the
    controller adds. *)
Definition selects_template (s : XStatefulSet) : Prop :=
  ∀ sel l, LabelSelectorAsSelector (Selector (Spec set)) = inl sel →
    (∀ k, k ∉ controller_labels → l !! k = getPodsLabelSet (Template (Spec s)) !! k) →
    Matches sel (Some l) = true.

(** A set with [r] replicas and a rolling update with partition [p] that may take
    [b] pods down; its update revision is that of its
    own template. *)
Record rolling_set (r p b : Z) : Prop := {
  rs_syncable : syncable set cur upd;
  rs_live : DeletionTimestamp (set_meta set) = None;
  rs_replicas : Replicas (Spec set) = Some r;
  rs_strategy : us_Type (UpdateStrategy (Spec set)) ≠ OnDeleteStrategyType;
  rs_partition : ∃ ru, RollingUpdate (UpdateStrategy (Spec set)) = Some ru ∧ Partition ru = Some p;
  rs_budget : if FeatureEnabled MaxUnavailableStatefulSet
              then specified_update set r p b else b = 1;
  rs_current : ApplyRevision set cur = Some (inl currentSet);
  rs_same : same_but_template currentSet set;
  rs_update : ApplyRevision set upd = Some (inl set);
  rs_selects : selects_template set ∧ selects_template currentSet
}.

Context (r p b : Z) (Hrs : rolling_set r p b) (t : Time) (pods : list Pod).
Hypothesis Hhealthy : healthy set t pods.
Notation acc := (accepting t).
Notation at_pods := (now_pods pods).
Notation step := (rollout_step (getStartOrdinal set) r p b (Name (cr_meta cur)) (Name (cr_meta upd))).

Lemma set_valid : valid set.
Proof. apply Hrs. Qed.
Lemma current_valid : valid currentSet.
Proof.
  destruct (rs_syncable _ _ _ Hrs) as (_ & _ & _ & Hcur & _).
  exact (restorable_valid _ _ _ Hcur (rs_current _ _ _ Hrs)).
Qed.
Lemma range_ok : 0 ≤ getStartOrdinal set ∧ 0 ≤ r ∧ getStartOrdinal set + r ≤ 2147483648.
Proof.
  destruct (rs_syncable _ _ _ Hrs) as (_ & Hstart & Hrange & _).
  destruct (Hrange r (rs_replicas _ _ _ Hrs)). lia.
Qed.
Lemma partition_nonneg : 0 ≤ p.
Proof.
  destruct (rs_partition _ _ _ Hrs) as (ru & Hru & Hp).
  destruct set_valid as (_ & _ & Hroll). destruct (Hroll _ Hru) as (p' & Hp' & ?).
  assert (p' = p) by congruence. lia.
Qed.
Lemma budget_pos : 1 ≤ b.
Proof.
  pose proof (rs_budget _ _ _ Hrs) as Hb. destruct (FeatureEnabled _); [|lia].
  destruct (rs_partition _ _ _ Hrs) as (ru & Hru & Hp). unfold specified_update in Hb.
  rewrite Hru in Hb. destruct Hb as (_ & v & _ & ->). lia.
Qed.

(** The pod made for an ordinal without one. *)
Lemma new_pod_facts o pod :
  0 ≤ o < 2147483648 →
  newVersionedStatefulSetPod currentSet set (Name (cr_meta cur)) (Name (cr_meta upd)) o = Some pod →
  getOrdinal pod = o ∧ isCreated pod = false ∧ member set pod ∧
  getPodRevision pod = born (getStartOrdinal set) p (Name (cr_meta cur)) (Name (cr_meta upd)) o.
Proof.
  intros Ho Hnew. pose proof current_valid as [Hplc _]. pose proof set_valid as [Hpls _].
  destruct (newVersionedStatefulSetPod_facts currentSet set _ _ o pod Hplc Hpls Ho Hnew)
    as (c & Hrev & Hid & Hst & Hord & Hcr & Hterm & _ & Hc).
  destruct (rs_partition _ _ _ Hrs) as (ru & Hru & Hp).
  destruct (rs_same _ _ _ Hrs) as (Hmeta & Hvct & Hus & Hords).
  assert (c = (o <? getStartOrdinal set + p)) as Hceq.
  { rewrite (Hc ru p); [|by rewrite Hus|done]. unfold getStartOrdinal. by rewrite Hords. }
  split_and!; [done|done| |by rewrite Hrev, Hceq].
  assert (claimed set pod) as Hcl.
  { destruct (newVersionedStatefulSetPod_labels _ _ _ _ _ _ Hnew) as (s & l & Hs & Href & Hl & Hk).
    destruct (rs_selects _ _ _ Hrs) as [Hsel1 Hsel2].
    assert (set_meta s = set_meta set) as Hsm by (by destruct Hs as [->| ->]).
    split; [|intros sel Hsel; rewrite Hl; destruct Hs as [->| ->]; [by apply Hsel2|by apply Hsel1]].
    exists (NewControllerRef (set_meta s) controllerKind). rewrite Href, Hsm, NewControllerRef_fields.
    split_and!; try done. destruct (GetControllerOf _) as [ref|] eqn:Hg.
    - by apply GetControllerOf_Some in Hg as [->%list_elem_of_singleton _].
    - apply GetControllerOf_None in Hg. by inversion_clear Hg. }
  destruct c; [|done]. split_and!; [rewrite <- Hid|rewrite <- Hst|done|done].
  - unfold identityMatches. destruct (getParentNameAndOrdinal pod). unfold getPodName. by rewrite Hmeta.
  - unfold storageMatches. rewrite Hvct. destruct (_ <? 0); [done|]. f_equal.
    unfold getPersistentVolumeClaimName. by rewrite Hmeta.
Qed.

(** The update at the end of a synchronisation, over the pods [Y] there are then. *)
Lemma update_effect base Y replicas status tr :
  sound set Y → Z.of_nat (length replicas) = r →
  (∀ i q, replicas !! i = Some q → q ∈ Y ∧ getOrdinal q = getStartOrdinal set + Z.of_nat i) →
  now_pods base Y tr →
  wp acc (λ _, any_call)
    (if FeatureEnabled MaxUnavailableStatefulSet
     then updateStatefulSetAfterInvariantEstablished set replicas upd status
     else
       updateMin ← match RollingUpdate (UpdateStrategy (Spec set)) with
                   | Some ru => deref (Partition ru)
                   | None => mret 0
                   end;
       update_one set replicas upd status (targets replicas updateMin))
    (returns (λ tr' x, x.2 = None ∧ ∃ k, (k ≤ Z.to_nat b)%nat ∧
       ((∀ q, q ∈ replicas → settled_at t set q) → k = Z.to_nat b) ∧
       now_pods base (drop_ordinals (take k (stale (getStartOrdinal set) r p (Name (cr_meta upd)) (view Y))) Y) tr')) tr.
Proof.
  intros Hs Hlen Hrep Hat. pose proof partition_nonneg as Hp.
  rewrite <- (olds_stale set upd Y Hs _ _ _ replicas) by done.
  pose proof (targets_candidates replicas p Hp) as Hts.
  assert (∀ q, q ∈ replicas → q ∈ Y) as HinY by (intros q [i Hi]%list_elem_of_lookup; by eapply Hrep).
  assert (∀ q, q ∈ candidates replicas p → q ∈ Y) as Hin by (intros; by eapply HinY, candidates_in).
  pose proof (rs_budget _ _ _ Hrs) as Hb. destruct (FeatureEnabled _).
  - unfold updateStatefulSetAfterInvariantEstablished. rewrite (rs_replicas _ _ _ Hrs).
    change (deref (Some r) ≫= ?f) with (f r). cbv beta. rewrite (specified_parameters _ _ _ _ Hb).
    change (mret ?x ≫= ?f) with (f x). cbv beta iota.
    eapply (keeps_seq _ _ _ _ _ _ _ _ (inert_keeps _ _ _)); [apply (count_unavailable_effect set t Y)|done|].
    { intros q. rewrite elem_of_reverse. apply HinY. }
    intros tr3 u Hat3 [Hu Hall]. apply wp_call_bind; [done|]. intros [] _.
    assert (now_pods base Y (tr3 ++ [existT (MetricSet "UnavailableReplicas"
      [Namespace (set_meta set); Name (set_meta set); PodManagementPolicy (Spec set)] u) (tt : reply (MetricSet _ _ _))])) as Hat4
      by (unfold now_pods; by rewrite effects_snoc, Hat3).
    assert ((∀ q, q ∈ replicas → settled_at t set q) → u = 0) as Hzero
      by (intros Hset; apply Hall; intros q; rewrite elem_of_reverse; apply Hset).
    pose proof budget_pos as Hbpos. destruct (b <=? u) eqn:?.
    + apply wp_ret. eexists. split; [done|]. split; [done|]. exists 0%nat. split; [lia|].
      rewrite take_0, drop_ordinals_nil. split; [|done]. intros ->%Hzero. lia.
    + eapply wp_mono; [|apply (update_many_effect set upd t base Y Hs _ _ _ _ (candidates replicas p) 0 []);
        [exact Hts|exact Hin|by rewrite drop_ordinals_nil]].
      intros tr5 x (res & -> & Herr & Hat5). eexists. split; [done|]. split; [done|].
      exists (Z.to_nat (b - u)). split; [lia|]. split; [by intros ->%Hzero; rewrite Z.sub_0_r|].
      by rewrite Z.sub_0_r in Hat5.
  - destruct (rs_partition _ _ _ Hrs) as (ru & -> & ->).
    change (deref (Some p) ≫= ?f) with (f p). cbv beta. rewrite Hb.
    eapply wp_mono; [|by apply (update_one_effect set upd t base Y Hs _ _ _ (candidates replicas p))].
    intros tr' o (x & -> & Herr & k & Hk & Hall & Hat'). exists x. split; [done|]. split; [done|].
    exists k. split_and!; [lia| |done]. intros Hset. rewrite Hall; [done|]. intros q Hq. by eapply Hset, candidates_in.
Qed.

Section acting.
Context (replicas condemned : list Pod).
Hypothesis Hfrom : replicas_from set currentSet set (Name (cr_meta cur)) (Name (cr_meta upd)) pods replicas.
Hypothesis Hlen : Z.of_nat (length replicas) = r.
Hypothesis Hcond : condemned_ok set pods condemned.

Lemma present i q : replicas !! i = Some q → isCreated q = true → q ∈ pods.
Proof.
  intros Hq Hc. destruct (Hfrom i q Hq) as [[? _]|[Hnew _]]; [done|].
  pose proof range_ok. pose proof (lookup_lt_Some _ _ _ Hq).
  destruct (new_pod_facts (getStartOrdinal set + Z.of_nat i) q) as (_ & Hcr & _); [lia|done|congruence].
Qed.

Lemma absent i q : replicas !! i = Some q → isCreated q = false →
  newVersionedStatefulSetPod currentSet set (Name (cr_meta cur)) (Name (cr_meta upd))
    (getStartOrdinal set + Z.of_nat i) = Some q ∧
  ∀ q', q' ∈ pods → getOrdinal q' ≠ getStartOrdinal set + Z.of_nat i.
Proof.
  intros Hq Hc. destruct (Hfrom i q Hq) as [[Hin _]|?]; [|done].
  destruct Hhealthy as [_ Hset]. destruct (Hset q Hin) as (Hrun & _).
  destruct (running_phase q Hrun) as (_ & ? & _). congruence.
Qed.

Lemma present_ordinal i q : replicas !! i = Some q → q ∈ pods → getOrdinal q = getStartOrdinal set + Z.of_nat i.
Proof.
  intros Hq Hin. destruct (Hfrom i q Hq) as [[_ ?]|[Hnew Hno]]; [done|].
  pose proof range_ok. pose proof (lookup_lt_Some _ _ _ Hq).
  destruct (new_pod_facts (getStartOrdinal set + Z.of_nat i) q) as (Ho & _); [lia|done|].
  by destruct (Hno q Hin).
Qed.

Lemma processReplica_present i q :
  replicas !! i = Some q → isCreated q = true →
  safe acc (harmless pods) (processReplica set set true replicas (Z.of_nat i)) (λ r, r = (false, None)).
Proof.
  intros Hq Hc. pose proof (present i q Hq Hc) as Hin. destruct Hhealthy as [[_ Hmem] Hset].
  destruct (Hmem q Hin) as (Hid & Hst & _).
  apply (processReplica_settled t (harmless pods) I
           (λ e He, inert_harmless pods e (claim_io_inert e He)) set set true replicas (Z.of_nat i) q).
  - apply set_valid.
  - apply index_Some; [lia|by rewrite Nat2Z.id].
  - by apply Hset.
  - by left.
Qed.

(** The default policy. *)
Hypothesis Hordered : allowsBurst set = false.

(** The first ordinal without a pod gets one. *)
Lemma act_missing status first k pod tr :
  replicas !! k = Some pod → isCreated pod = false →
  (∀ i q, replicas !! i = Some q → (i < k)%nat → isCreated q = true) → at_pods pods tr →
  wp acc (λ _, any_call) (act_on_pods set set cur upd status replicas condemned first)
    (returns (λ tr' x, x.2 = None ∧ at_pods (pods ++ [pod]) tr')) tr.
Proof.
  intros Hk Hc Hbefore Hat. unfold act_on_pods. rewrite Hordered. cbv zeta. cbn [negb].
  eapply wp_seq; [apply (runForAll_stop _ _ (at_pods pods) (at_pods (pods ++ [pod])) _ _ k)|].
  - by eapply lookup_lt_Some.
  - intros i tr' Hi Hat'. destruct (lookup_lt_is_Some_2 replicas i) as [q Hq].
    { apply lookup_lt_Some in Hk. lia. }
    eapply keeps_safe; [apply (harmless_keeps set), Hhealthy| |done].
    apply (processReplica_present _ q); [done|by eapply Hbefore].
  - intros tr' Hat'. apply (processReplica_missing _ (at_pods pods) _ pod); try done.
    + intros tr2 x Hx%claim_io_inert. by apply inert_keeps.
    + intros tr2 x Hx%claim_io_inert. by apply inert_keeps.
    + intros tr2 Hat2. unfold now_pods. by rewrite effects_snoc, Hat2.
    + apply set_valid.
    + apply index_Some; [lia|by rewrite Nat2Z.id].
  - done.
  - intros tr' ? [-> Hat']. cbn [orb].
    eapply (keeps_seq _ _ _ _ _ _ _ _ (inert_keeps _ _ _)); [by apply updateStatus_now|done|].
    intros tr2 st Hat2 _. apply wp_ret. by eexists.
Qed.

(** When every ordinal has a pod, the loop over the replicas does not stop. *)
Hypothesis Hfull : ∀ i q, replicas !! i = Some q → isCreated q = true.

Lemma runForAll_full tr :
  at_pods pods tr →
  wp acc (λ _, any_call) (runForAll replicas (processReplica set set true replicas) true)
    (returns (λ tr' r, r = (false, None) ∧ at_pods pods tr')) tr.
Proof.
  intros Hat. eapply (keeps_safe t (harmless pods)); [apply (harmless_keeps set), Hhealthy| |done].
  apply (runForAll_none _ _ I _ r); [|done].
  intros k Hk. destruct (lookup_lt_is_Some_2 replicas (Z.to_nat k)) as [q Hq]; [lia|].
  replace k with (Z.of_nat (Z.to_nat k)) by lia. apply (processReplica_present _ q); [done|by eapply Hfull].
Qed.

Lemma fixPodClaim_ok k pod :
  index condemned k = mret pod →
  safe acc inert (fixPodClaim set condemned k) (λ r, r = (false, None)).
Proof.
  intros Hk. pose proof set_valid as (_ & Hwf & _). unfold fixPodClaim. rewrite Hk.
  change (mret pod ≫= ?f) with (f pod). cbv beta.
  eapply safe_bind; [by apply ClaimsMatchRetentionPolicy_ok; [apply claim_io_inert|]|]. intros ? [[] ->].
  - by apply safe_ret.
  - eapply safe_bind; [by apply UpdatePodClaimForRetentionPolicy_ok; [apply claim_io_inert|]|]. intros ? ->.
    by apply safe_ret.
Qed.

(** The condemned pod of the highest ordinal is deleted. *)
Lemma act_condemned status first pod rest tr :
  condemned = pod :: rest → at_pods pods tr →
  wp acc (λ _, any_call) (act_on_pods set set cur upd status replicas condemned first)
    (returns (λ tr' x, x.2 = None ∧ at_pods (drop_ordinals [getOrdinal pod] pods) tr')) tr.
Proof.
  intros Hc Hat. unfold act_on_pods. rewrite Hordered. cbv zeta. cbn [negb].
  assert (pod ∈ pods) as Hin by (apply (proj1 Hcond pod); rewrite Hc; left).
  destruct Hhealthy as [Hsound Hset]. destruct (Hset pod Hin) as (Hrun & Hterm & Hav).
  eapply wp_seq; [by apply runForAll_full|]. intros tr1 ? [-> Hat1]. cbn [orb not_nil].
  eapply (keeps_seq t inert _ _ _ _ _ _ (inert_keeps _ _ _));
    [apply (runForAll_none _ _ I _ (Z.of_nat (length condemned))); [|done]|done|].
  { intros k Hk. destruct (lookup_lt_is_Some_2 condemned (Z.to_nat k)) as [q Hq]; [lia|].
    apply (fixPodClaim_ok _ q), index_Some; [lia|done]. }
  intros tr2 ? Hat2 ->. cbn [orb not_nil].
  eapply wp_seq; [apply (runForAll_stop _ _ (at_pods pods)
    (at_pods (drop_ordinals [getOrdinal pod] pods)) _ condemned 0)|]; [by rewrite Hc; simpl; lia|by intros; lia| |done|].
  - intros tr' Hat'. unfold processCondemned. rewrite (index_Some _ _ pod) by (done || by rewrite Hc).
    change (mret pod ≫= ?f) with (f pod). cbv beta. rewrite Hterm, Hrun. cbn [negb andb].
    apply wp_call_bind; [done|]. intros now Hnow. simpl in Hnow. subst now. rewrite Hav. cbn [negb andb].
    eapply wp_seq; [apply (DeleteStatefulPod_effect set t pods Hsound pods []); [done|]|].
    + unfold now_pods. by rewrite effects_snoc, Hat', drop_ordinals_nil.
    + intros tr3 ? [-> Hat3]. apply wp_ret. by eexists.
  - intros tr' ? [-> Hat']. cbn [orb].
    eapply (keeps_seq _ _ _ _ _ _ _ _ (inert_keeps _ _ _)); [by apply updateStatus_now|done|].
    intros tr3 st Hat3 _. apply wp_ret. by eexists.
Qed.

Lemma replica_in_pods q : q ∈ replicas → q ∈ pods.
Proof. intros [i Hi]%list_elem_of_lookup. eapply present; [exact Hi|by eapply Hfull]. Qed.

Lemma act_update status first tr :
  condemned = [] → at_pods pods tr →
  wp acc (λ _, any_call) (act_on_pods set set cur upd status replicas condemned first)
    (returns (λ tr' x, x.2 = None ∧
       at_pods (drop_ordinals (take (Z.to_nat b)
         (stale (getStartOrdinal set) r p (Name (cr_meta upd)) (view pods))) pods) tr')) tr.
Proof.
  intros Hc Hat. destruct Hhealthy as [Hsound Hset]. unfold act_on_pods. rewrite Hordered, Hc. cbv zeta. cbn [negb].
  eapply wp_seq; [by apply runForAll_full|]. intros tr1 ? [-> Hat1]. cbn [orb not_nil].
  do 2 (change (runForAll [] ?f true) with (mret (false, None) : go (bool * option error));
        change (mret ?x ≫= ?f) with (f x); cbv beta iota; cbn [orb not_nil]).
  eapply (keeps_seq _ _ _ _ _ _ _ _ (inert_keeps _ _ _)); [by apply updateStatus_now|done|].
  intros tr2 st Hat2 _. rewrite bool_decide_eq_false_2 by apply Hrs.
  eapply wp_mono; [|apply (update_effect pods pods); [done|done| |done]].
  - intros tr' o (x & -> & Herr & k & _ & Hall & Hat'). exists x. split; [done|]. split; [done|].
    rewrite Hall in Hat'; [done|]. intros q Hq. by apply Hset, replica_in_pods.
  - intros i q Hq. assert (q ∈ pods) as Hin by (eapply replica_in_pods, list_elem_of_lookup_2, Hq).
    split; [done|by apply present_ordinal].
Qed.
End acting.

Lemma in_range_within o : in_range set o ↔ within (getStartOrdinal set) r o.
Proof.
  pose proof (rs_replicas _ _ _ Hrs) as Hr. unfold in_range, within. rewrite Hr. split.
  - by intros (r' & [= <-] & ?).
  - intros ?. by exists r.
Qed.

(** What the actions of a synchronisation come to. *)
Definition one_step (tr : list (obs reply)) (x : XStatefulSetStatus * option error) : Prop :=
  x.2 = None ∧ sound set (effects tr pods) ∧ step (view pods) (view (effects tr pods)).

Lemma one_step_intro X (prg : go (XStatefulSetStatus * option error)) tr :
  wp acc (λ _, any_call) prg (returns (λ tr' x, x.2 = None ∧ at_pods X tr')) tr →
  sound set X → step (view pods) (view X) →
  wp acc (λ _, any_call) prg (returns one_step) tr.
Proof.
  intros Hp HX Hstep. eapply wp_mono; [|exact Hp]. intros tr' o (x & -> & Herr & Hat).
  exists x. split; [done|]. unfold one_step. by rewrite Hat.
Qed.

Section steps.
Context (replicas condemned : list Pod).
Hypothesis Hfrom : replicas_from set currentSet set (Name (cr_meta cur)) (Name (cr_meta upd)) pods replicas.
Hypothesis Hlen : Z.of_nat (length replicas) = r.
Hypothesis Hcond : condemned_ok set pods condemned.
Hypothesis Hordered : allowsBurst set = false.

Lemma there o :
  (∀ q, replicas !! Z.to_nat (o - getStartOrdinal set) = Some q → isCreated q = true) →
  within (getStartOrdinal set) r o → is_Some (view pods !! o).
Proof.
  intros Hc Ho. unfold within in Ho. pose proof Hhealthy as [[Hnd _] _].
  destruct (lookup_lt_is_Some_2 replicas (Z.to_nat (o - getStartOrdinal set))) as [q Hq]; [lia|].
  assert (q ∈ pods) as Hin by (eapply present; [done|done|exact Hq|by apply Hc]).
  apply view_is_Some; [done|]. exists q. split; [done|].
  rewrite (present_ordinal replicas Hfrom Hlen _ q Hq) by done. lia.
Qed.

Lemma act_step_create status first k pod tr :
  replicas !! k = Some pod → isCreated pod = false →
  (∀ i q, replicas !! i = Some q → (i < k)%nat → isCreated q = true) → at_pods pods tr →
  wp acc (λ _, any_call) (act_on_pods set set cur upd status replicas condemned first)
    (returns one_step) tr.
Proof.
  intros Hk Hc Hbefore Hat. pose proof Hhealthy as [[Hnd Hmem] _]. pose proof range_ok as Hrange.
  pose proof (lookup_lt_Some _ _ _ Hk) as Hkr.
  destruct (absent replicas Hfrom k pod Hk Hc) as [Hnew Hfresh].
  destruct (new_pod_facts (getStartOrdinal set + Z.of_nat k) pod) as (Ho & _ & Hpm & Hrev); [lia|done|].
  destruct (view_snoc pods pod Hnd) as [Hnd' Hview]; [by rewrite Ho|].
  eapply one_step_intro; [by eapply act_missing| |].
  - split; [done|]. intros q [Hq| ->%list_elem_of_singleton]%elem_of_app; auto.
  - rewrite Hview, Hrev, Ho. apply step_create.
    + unfold within. lia.
    + by apply view_None.
    + intros o' Ho'. apply there; [|unfold within; lia]. intros q Hq. apply (Hbefore _ q Hq). lia.
Qed.

Lemma act_step_full status first tr :
  (∀ i q, replicas !! i = Some q → isCreated q = true) → at_pods pods tr →
  wp acc (λ _, any_call) (act_on_pods set set cur upd status replicas condemned first)
    (returns one_step) tr.
Proof.
  intros Hfull Hat. pose proof Hhealthy as [[Hnd Hmem] _].
  assert (complete (getStartOrdinal set) r (view pods)) as Hcomp.
  { intros o. apply there. intros q. apply Hfull. }
  assert (∀ q, q ∈ pods → ¬ in_range set (getOrdinal q) → q ∈ condemned) as Hout.
  { intros q Hq Hn. apply Hcond. destruct (Hmem q Hq) as (Hid & _).
    by apply identityMatches_fields in Hid as [? _]. }
  destruct condemned as [|pod rest] eqn:Hc.
  - eapply one_step_intro; [by eapply act_update|by apply sound_drop|].
    rewrite view_drop by done. apply step_update; [done|].
    intros o (q & Hq & <-)%view_is_Some; [|done]. apply in_range_within.
    destruct (decide (in_range set (getOrdinal q))) as [|Hn]; [done|].
    by destruct (not_elem_of_nil q (Hout q Hq Hn)).
  - destruct (proj1 (proj1 Hcond pod)) as (Hp & Hpout & _); [left|].
    eapply one_step_intro; [by eapply act_condemned|by apply sound_drop|].
    rewrite view_drop by done. cbn [delete_all foldr]. apply step_scale_down; [done| | |].
    + apply view_is_Some; [done|]. by exists pod.
    + by rewrite <- in_range_within.
    + intros o (q & Hq & <-)%view_is_Some Hno; [|done]. rewrite <- in_range_within in Hno.
      destruct Hcond as [_ [_ Hall]%StronglySorted_inv].
      specialize (Hout q Hq Hno). apply elem_of_cons in Hout as [->|Hqc]; [lia|].
      rewrite List.Forall_forall in Hall. by apply Hall, list_elem_of_In.
Qed.

Lemma act_step status first tr :
  at_pods pods tr →
  wp acc (λ _, any_call) (act_on_pods set set cur upd status replicas condemned first)
    (returns one_step) tr.
Proof.
  intros Hat. destruct (list_find (λ q, isCreated q = false) replicas) as [[k pod]|] eqn:Hfind.
  - apply list_find_Some in Hfind as (Hk & Hc & Hfirst). apply (act_step_create _ _ k pod); try done.
    intros i q Hq Hi. specialize (Hfirst i q Hq Hi). by destruct (isCreated q).
  - apply list_find_None in Hfind. rewrite List.Forall_forall in Hfind. apply act_step_full; [|done].
    intros i q Hq%list_elem_of_lookup_2. specialize (Hfind q (proj1 (list_elem_of_In _ _) Hq)).
    by destruct (isCreated q).
Qed.
End steps.
End refinement.

(** Revisions that only differ in what the API server manages. *)
Definition same_revision `{K8s} (v v' : Rev) : Prop := Name (cr_meta v') = Name (cr_meta v) ∧ Data v' = Data v.

Lemma same_revision_refl `{K8s} v : same_revision v v.
Proof. done. Qed.

Lemma rolling_same `{K8sLaws} set currentSet cur upd cur' upd' r p b :
  rolling_set set currentSet cur upd r p b → same_revision cur cur' → same_revision upd upd' →
  rolling_set set currentSet cur' upd' r p b.
Proof.
  intros [(? & ? & ? & Hc & Hu) ? ? ? ? ? Hcur ? Hupd ?] [_ Ec] [_ Eu].
  assert (ApplyRevision set cur' = ApplyRevision set cur) as Hc' by (unfold ApplyRevision; by rewrite Ec).
  assert (ApplyRevision set upd' = ApplyRevision set upd) as Hu' by (unfold ApplyRevision; by rewrite Eu).
  split; try done; [|congruence..]. unfold syncable, restorable in *. rewrite Hc', Hu'. by split_and!.
Qed.

(** ** The closed loop *)

Section closed_loop.
Context `{K8sLaws} `{GoLaws} `{!ClientGo}.
Implicit Types (set : XStatefulSet).

(** What the actions on the pods achieve, the synchronisation achieves. *)
Lemma updateStatefulSet_acts set currentSet cur upd r p b t collisionCount pods (Q : list (obs reply) → Prop) :
  rolling_set set currentSet cur upd r p b →
  (∀ replicas condemned status first tr,
     replicas_from set currentSet set (Name (cr_meta cur)) (Name (cr_meta upd)) pods replicas →
     Z.of_nat (length replicas) = r → condemned_ok set pods condemned → now_pods pods pods tr →
     wp (accepting t) (λ _, any_call) (act_on_pods set set cur upd status replicas condemned first)
       (returns (λ tr x, x.2 = None ∧ Q tr)) tr) →
  wp (accepting t) (λ _, any_call) (updateStatefulSet set cur upd collisionCount pods)
    (returns (λ tr x, (∃ st, x = (Some st, None)) ∧ Q tr)) [].
Proof.
  intros Hrs Hact. pose proof (rs_replicas _ _ _ _ _ _ _ Hrs) as Hr.
  destruct (range_ok _ _ _ _ _ _ _ Hrs) as (_ & Hr0 & _). unfold updateStatefulSet.
  rewrite (rs_current _ _ _ _ _ _ _ Hrs), (rs_update _ _ _ _ _ _ _ Hrs).
  do 2 (change (deref (Some ?x) ≫= ?f) with (f x); cbv beta iota).
  eapply (keeps_seq t inert (now_pods pods pods) _ _ _ _ _ (inert_keeps _ _ _));
    [by apply updateStatus_now|done|]. intros tr1 status Hat1 _.
  destruct (arrange_pods_exact set currentSet set cur upd pods r)
    as (replicas & condemned & -> & Hlen & Hfrom & Hcond);
    [done|done|by eapply current_valid|by eapply set_valid|].
  change (mret ?x ≫= ?f) with (f x). cbv beta iota.
  eapply (keeps_seq t inert (now_pods pods pods) _ _ _ _ _ (inert_keeps _ _ _));
    [by apply find_unavailable_now|done|]. intros tr2 [u first] Hat2 _.
  eapply (keeps_seq t inert (now_pods pods pods) _ _ _ _ _ (inert_keeps _ _ _));
    [by apply find_unavailable_now|done|]. intros tr3 [u' first'] Hat3 _.
  rewrite bool_decide_eq_false_2 by (intros Hn; apply Hn, Hrs).
  eapply wp_seq; [by apply Hact|]. intros tr4 [st err] [Herr HQ].
  simpl in Herr. subst err. apply wp_ret. eexists. split; [done|]. split; [by eexists|done].
Qed.

(** One synchronisation of healthy pods implements a step of [step]. *)
Definition implements set (cur upd : Rev) (step : gmap Z string → gmap Z string → Prop) : Prop :=
  ∀ t collisionCount pods, healthy set t pods →
  wp (accepting t) (λ _, any_call) (updateStatefulSet set cur upd collisionCount pods)
    (returns (λ tr x, (∃ st, x = (Some st, None)) ∧ sound set (effects tr pods) ∧
       step (view pods) (view (effects tr pods)))) [].

Lemma updateStatefulSet_step set currentSet cur upd r p b :
  rolling_set set currentSet cur upd r p b → allowsBurst set = false →
  implements set cur upd
    (rollout_step (getStartOrdinal set) r p b (Name (cr_meta cur)) (Name (cr_meta upd))).
Proof.
  intros Hrs Hord t collisionCount pods Hhealthy.
  apply (updateStatefulSet_acts _ currentSet _ _ r p b _ _ _ (λ tr, sound set (effects tr pods) ∧
    rollout_step (getStartOrdinal set) r p b (Name (cr_meta cur)) (Name (cr_meta upd))
      (view pods) (view (effects tr pods))) Hrs).
  intros. by eapply act_step.
Qed.

(** One synchronisation under the default policy implements one step of the
    rollout.  When the pods are healthy and the API server accepts writes, the
    effect of the calls of a synchronisation on the pods is the step that
    [Rollout] prescribes for the revisions of the pods (the first missing ordinal
    is created at its revision, or else the highest surplus ordinal is deleted, or
    else the highest outdated ordinals above the partition, as many as the budget
    allows); every pod keeps its identity and storage, and no error is reported. *)
Theorem updateStatefulSet_refines_rollout set currentSet cur upd r p b t collisionCount pods :
  rolling_set set currentSet cur upd r p b → allowsBurst set = false → healthy set t pods →
  wp (accepting t) (λ _, any_call) (updateStatefulSet set cur upd collisionCount pods)
    (returns (λ tr x, (∃ st, x = (Some st, None)) ∧ sound set (effects tr pods) ∧
       rollout_step (getStartOrdinal set) r p b (Name (cr_meta cur)) (Name (cr_meta upd))
         (view pods) (view (effects tr pods)))) [].
Proof. intros Hrs Hord. by eapply updateStatefulSet_step. Qed.

(** The nodes start the new pods and keep the others running: at [t'] all are settled.
    The API server populated their metadata, and the specification may have been added
    to, on admission or by the scheduler. *)
Definition started set (t' : Time) (pod pod' : Pod) : Prop :=
  populated (Namespace (pod_meta pod)) (pod_meta pod) (pod_meta pod') ∧
  volume_map (Volumes (pod_Spec pod)) ⊆ volume_map (Volumes (pod_Spec pod')) ∧ settled_at t' set pod'.

(** A synchronisation with an API server that accepts writes, then the nodes. *)
Definition round set (cur upd : Rev) (collisionCount : Z) (w w' : Time * list Pod) : Prop :=
  ∃ tr o, runs (updateStatefulSet set cur upd collisionCount w.2) tr o ∧
    Forall (accepting w.1) tr ∧ Forall2 (started set w'.1) (effects tr w.2) w'.2.

Lemma started_healthy set t' pods pods' :
  sound set pods → Forall2 (started set t') pods pods' →
  healthy set t' pods' ∧ view pods' = view pods.
Proof.
  intros [Hnd Hmem] Hall.
  destruct (view_map pods pods') as [Hview Hd].
  { eapply list.Forall2_impl; [exact Hall|]. by intros p p' [(? & ? & ? & ? & ? & _) _]. }
  assert (∀ p', p' ∈ pods' → ∃ p, p ∈ pods ∧ started set t' p p') as Hfrom.
  { intros p' [i Hi]%list_elem_of_lookup. destruct (Forall2_lookup_r _ _ _ _ _ Hall Hi) as (p & Hp & ?).
    exists p. split; [by eapply list_elem_of_lookup_2|done]. }
  split; [|done]. split; [split; [auto|]|].
  - intros p' (p & Hp & Hm & Hs & _)%Hfrom. destruct (Hmem p Hp) as (Hid & Hst & Hterm & Hcl).
    destruct Hm as (Hn & _ & Hns & Hdt & Hl & _ & Ho & _).
    unfold member, claimed, identityMatches, isTerminating, getParentNameAndOrdinal in *.
    rewrite Hn, Hns, Hdt, Hl, Ho. split; [done|]. split; [by eapply storageMatches_more|done].
  - by intros p' (p & _ & _ & _ & ?)%Hfrom.
Qed.

(** The nodes can start any member of the set. *)
Lemma started_exists set pods :
  (∀ p, p ∈ pods → member set p) → ∃ t' pods', Forall2 (started set t') pods pods'.
Proof.
  intros Hmem. set (ready := {| cond_Type := PodReady; cond_Status := ConditionTrue; cond_LastProbeTime := 0;
    cond_LastTransitionTime := 1; cond_Reason := ""; cond_Message := "" |}).
  set (status := {| Phase := PodRunning; pod_Conditions := [ready]; ContainerStatuses := [];
                    InitContainerStatuses := [] |}).
  set (start := λ p : Pod, {| pod_meta := pod_meta p; pod_Spec := pod_Spec p; pod_Status := status |}).
  exists (1 + wrap64 (MinReadySeconds (Spec set) * second)), (start <$> pods).
  apply Forall2_fmap_r, Forall_Forall2_diag, List.Forall_forall. intros p Hp%list_elem_of_In.
  destruct (Hmem p Hp) as (_ & _ & Hterm & _). split; [by apply populated_refl|]. split; [done|]. split_and!; [done|done|].
  unfold isRunningAndAvailable, IsPodAvailable.
  change (IsPodReady (start p)) with true. change (GetPodReadyCondition (pod_Status (start p))) with (Some ready).
  cbn [negb cond_LastTransitionTime ready]. rewrite Z.leb_refl. by destruct (_ =? 0).
Qed.

Lemma accepting_answer t :
  (∃ err, IsNotFound err = true) → ∀ e, ∃ r, accepting t (existT e r).
Proof.
  intros [err Herr] e. destruct e; simpl;
    first [by exists t | by exists None | by exists (inr err) | by exists tt | by exists false
          | by exists (None, None) | by exists (@None string) ].
Qed.

(** Rounds of healthy pods: as many steps, the pods stay healthy and there is a next round. *)
Lemma rounds_steps set cur upd step collisionCount n w w' :
  implements set cur upd step → healthy set w.1 w.2 →
  nsteps (round set cur upd collisionCount) n w w' →
  healthy set w'.1 w'.2 ∧ nsteps step n (view w.2) (view w'.2).
Proof.
  intros Himp Hh Hsteps. revert Hh.
  induction Hsteps as [w|n w w1 w' (tr & o & Hrun & Hadm & Hstart) _ IH]; intros Hh; [split; [done|constructor]|].
  destruct (wp_runs _ _ _ _ [] tr o (Himp w.1 collisionCount w.2 Hh) Hrun Hadm) as [_ (x & _ & _ & Hs & Hstep)].
  destruct (started_healthy set w1.1 _ w1.2 Hs Hstart) as [Hh1 Hview]. rewrite <- Hview in Hstep.
  destruct (IH Hh1). split; [done|]. by econstructor.
Qed.

Lemma round_exists set cur upd step collisionCount w :
  implements set cur upd step → healthy set w.1 w.2 → (∃ err : error, IsNotFound err = true) →
  ∃ w', round set cur upd collisionCount w w'.
Proof.
  intros Himp Hh Herr.
  destruct (runs_exists (accepting w.1) (updateStatefulSet set cur upd collisionCount w.2))
    as (tr & o & Hrun & Hadm); [by apply accepting_answer|].
  destruct (wp_runs _ _ _ _ [] tr o (Himp w.1 collisionCount w.2 Hh) Hrun Hadm) as [_ (x & _ & _ & [_ Hmem] & _)].
  destruct (started_exists set _ Hmem) as (t' & pods' & Hall). exists (t', pods'). by exists tr, o.
Qed.

(** The controller rolls the set out.  Starting from healthy pods, with an API
    server that accepts writes and nodes that start new pods, rounds of
    synchronisation can always go on and keep the pods healthy; and after as many
    rounds as there is work (one per missing ordinal, one per surplus ordinal, two
    per outdated pod above the partition) every ordinal of the set has a pod, no
    other ordinal has one, and every pod from the partition on runs the update
    revision, however many further rounds follow. *)
Theorem rollout_converges set currentSet cur upd r p b collisionCount t pods n w :
  rolling_set set currentSet cur upd r p b → allowsBurst set = false → healthy set t pods →
  (∃ err : error, IsNotFound err = true) →
  nsteps (round set cur upd collisionCount) n (t, pods) w →
  healthy set w.1 w.2 ∧ (∃ w', round set cur upd collisionCount w w') ∧
  ((work (getStartOrdinal set) r p (Name (cr_meta upd)) (view pods) ≤ n)%nat →
   rolled_out (getStartOrdinal set) r p (Name (cr_meta upd)) (view w.2)).
Proof.
  intros Hrs Hord Hh Herr Hsteps. pose proof (updateStatefulSet_step _ _ _ _ _ _ _ Hrs Hord) as Himp.
  destruct (rounds_steps _ _ _ _ _ _ (t, pods) w Himp Hh Hsteps) as [Hhw Habs].
  split; [done|]. split; [by eapply round_exists|]. intros Hn.
  eapply rollout_steps; [by eapply partition_nonneg|by eapply budget_pos|exact Habs|done].
Qed.
End closed_loop.
