(* ===== verification/Parallel.v ===== *)
(** * The parallel policy rolls a set out

    [Convergence] for the parallel pod management policy: the goroutines of
    [slowStartBatch] create all missing pods and then delete all surplus ones, in
    whatever order their calls reach the API server, before the rolling update.  One
    synchronisation takes one parallel step of [Rollout]; scaling takes one round,
    whatever its size. *)
From S2P Require Export Convergence.

(** ** Batches of goroutines, exactly *)

Section batches.
Context `{K8s} (Adm : obs reply → Prop).
(** What is watched of a call, and what every call satisfies. *)
Context {X : Type} (ev : obs reply → list X) (good : obs reply → Prop).
Hypothesis ev_choose : ∀ x, projT1 x = Choose → ev x = [] ∧ good x.

Definition evs (tr : list (obs reply)) : list X := tr ≫= ev.

Lemma evs_app tr1 tr2 : evs (tr1 ++ tr2) = evs tr1 ++ evs tr2.
Proof. apply bind_app. Qed.
#[local] Instance evs_proper : Proper ((≡ₚ) ==> (≡ₚ)) evs.
Proof. intros t1 t2 Ht. unfold evs. by rewrite Ht. Qed.
Lemma evs_concat ts : evs (concat ts) = concat (evs <$> ts).
Proof. induction ts as [|t ts IH]; [done|]. cbn [concat fmap list_fmap]. by rewrite evs_app, IH. Qed.
Lemma evs_choices cs : Forall (λ x, projT1 x = Choose) cs → evs cs = [] ∧ Forall good cs.
Proof.
  induction 1 as [|x cs Hx _ [IH1 IH2]]; [done|]. destruct (ev_choose x Hx) as [Hev Hg].
  split; [|by constructor]. unfold evs in *. cbn. by rewrite Hev.
Qed.

Context (fn : Z → go (bool * option error)) (c : Z → list X) (total : Z).

(** Each goroutine on its own: no error, the calls that are watched, and good ones. *)
Hypothesis Hfn : ∀ k, 0 ≤ k < total →
  wp Adm (λ _, any_call) (fn k) (returns (λ t r, r.2 = None ∧ evs t ≡ₚ c k ∧ Forall good t)) [].

(** The calls of all of them, since [tr]. *)
Definition together (js : list Z) (tr tr' : list (obs reply)) : Prop :=
  ∃ new, tr' = tr ++ new ∧ evs new ≡ₚ concat (c <$> js) ∧ Forall good new.

Lemma together_trans js1 js2 tr1 tr2 tr3 :
  together js1 tr1 tr2 → together js2 tr2 tr3 → together (js1 ++ js2) tr1 tr3.
Proof.
  intros (n1 & -> & Hn1 & Hg1) (n2 & -> & Hn2 & Hg2). exists (n1 ++ n2).
  split; [by rewrite (assoc_L (++))|]. rewrite evs_app, fmap_app, concat_app.
  split; [by rewrite Hn1, Hn2|by apply Forall_app].
Qed.

Lemma batch_together js tr :
  (∀ k, k ∈ js → 0 ≤ k < total) →
  wp Adm (λ _, any_call) (par ((λ k, '(_, err) ← fn k; mret err) <$> js))
    (returns (λ tr' results, omap id results = [] ∧ together js tr tr')) tr.
Proof.
  intros Hjs. eapply wp_mono; [|apply (wp_par_split Adm any_call I
    (λ k t (e : option error), e = None ∧ evs t ≡ₚ c k ∧ Forall good t))].
  - intros tr' o (l & -> & new & ts & rs & cs & -> & Hcs & Hnew & Hl & Hall). exists l. split; [done|].
    destruct (evs_choices cs Hcs) as [Hecs Hgcs].
    assert (Forall (λ e, e = None) rs ∧ concat (evs <$> ts) ≡ₚ concat (c <$> js) ∧ Forall good (concat ts))
      as (Hrs & Hts & Hg).
    { clear -Hall. induction Hall as [|k t e js ts rs (-> & Ht & Hg) _ (IH1 & IH2 & IH3)]; [done|].
      split_and!; [by constructor|by cbn; rewrite Ht, IH2|by apply Forall_app]. }
    split.
    + assert (Forall (λ e, e = None) l) as Hlnone by by rewrite Hl.
      clear -Hlnone. by induction Hlnone as [|e l -> _ IH].
    + exists new. split; [done|]. rewrite Hnew. split; [|by apply Forall_app].
      by rewrite evs_app, Hecs, app_nil_r, evs_concat.
  - intros k Hk%Hjs. eapply wp_seq; [by apply Hfn|]. intros t [? e] Hr. apply wp_ret. by eexists.
Qed.

(** The loop of batches gets through all items. *)
Lemma slowStart_together fuel batchSize remaining j successes tr :
  0 ≤ j → j + remaining ≤ total → batchSize ≤ remaining → remaining ≤ Z.of_nat fuel →
  (0 < remaining → 0 < batchSize) →
  wp Adm (λ _, any_call) (slowStart_loop fuel batchSize remaining j successes fn)
    (returns (λ tr' r, r.2 = None ∧ together (seqZ j remaining) tr tr')) tr.
Proof.
  revert batchSize remaining j successes tr.
  assert (∀ tr, together [] tr tr) as Hnil.
  { intros tr. exists []. by rewrite app_nil_r. }
  induction fuel as [|fuel IH]; intros batchSize remaining j successes tr Hj Htot Hb Hfuel Hpos;
    cbn [slowStart_loop].
  { apply wp_ret. eexists. split; [done|]. split; [done|]. by rewrite seqZ_nil by lia. }
  destruct (0 <? batchSize) eqn:Hbs.
  2:{ apply wp_ret. eexists. split; [done|]. split; [done|]. by rewrite seqZ_nil by lia. }
  eapply wp_seq; [apply batch_together; intros k Hk%elem_of_seqZ; lia|].
  intros tr1 results [-> Htog]. cbv zeta. cbn [length]. change (0 <? Z.of_nat 0) with false. cbv iota.
  eapply wp_mono; [|apply IH; unfold MaxBatchSize; lia].
  intros tr2 o (x & -> & Herr & Htog2). exists x. split; [done|]. split; [done|].
  replace remaining with (batchSize + (remaining - batchSize)) by lia.
  rewrite seqZ_app by lia. by eapply together_trans.
Qed.

Lemma runForAll_together pods tr :
  Z.of_nat (length pods) = total →
  wp Adm (λ _, any_call) (runForAll pods fn false)
    (returns (λ tr' r, r = (false, None) ∧ together (seqZ 0 total) tr tr')) tr.
Proof.
  intros Hlen. unfold runForAll, slowStartBatch. rewrite Hlen.
  eapply wp_seq; [apply slowStart_together; lia|]. intros tr' [n err] [Herr Htog].
  simpl in Herr. subst err. apply wp_ret. by eexists.
Qed.
End batches.

(** ** What batches do to the pods *)

Section changes.
Context `{K8sLaws} `{GoLaws} (set : XStatefulSet) (t : Time).

Definition creates (x : obs reply) : list Pod :=
  match projT1 x with PodsCreate _ pod => [pod] | _ => [] end.
Definition removals (x : obs reply) : list (string * string) :=
  match projT1 x with PodsDelete ns name => [(ns, name)] | _ => [] end.

(** Accepted calls that create pods of [U], or write them as they are. *)
Definition adds (U : list Pod) (x : obs reply) : Prop :=
  match projT1 x with PodsCreate _ pod => pod ∈ U | e => harmless U e end ∧ accepting t x.
(** Accepted calls that delete pods. *)
Definition removes (x : obs reply) : Prop :=
  match projT1 x with PodsDelete _ _ => True | e => inert e end ∧ accepting t x.

Lemma harmless_adds U x : harmless U (projT1 x) → accepting t x → adds U x.
Proof. intros Hx Ha. split; [|done]. destruct x as [e r]. by destruct e. Qed.
Lemma harmless_creates U x : harmless U (projT1 x) → creates x = [].
Proof. destruct x as [e r]. by destruct e. Qed.
Lemma inert_removes x : inert (projT1 x) → accepting t x → removes x.
Proof. intros Hx Ha. split; [|done]. destruct x as [e r]. by destruct e. Qed.
Lemma inert_removals x : inert (projT1 x) → removals x = [].
Proof. destruct x as [e r]. by destruct e. Qed.

Lemma choose_adds U x : projT1 x = Choose → creates x = [] ∧ adds U x.
Proof. destruct x as [e z]. intros Hx. simpl in Hx. subst e. by repeat split. Qed.
Lemma choose_removes x : projT1 x = Choose → removals x = [] ∧ removes x.
Proof. destruct x as [e z]. intros Hx. simpl in Hx. subst e. by repeat split. Qed.

Lemma effects_cons x tr pods : effects (x :: tr) pods = effects tr (effect x pods).
Proof. done. Qed.
Lemma effects_app tr1 tr2 pods : effects (tr1 ++ tr2) pods = effects tr2 (effects tr1 pods).
Proof. apply foldl_app. Qed.

(** Pods among which names tell apart. *)
Lemma replace_pod_among U pods pod :
  sound set U → pod ∈ U → (∀ q, q ∈ pods → q ∈ U) →
  replace_pod (Namespace (pod_meta pod)) pod pods = pods.
Proof.
  intros Hs Hp Hin. unfold replace_pod. rewrite <- (list_fmap_id pods) at 2.
  apply list_fmap_ext. intros i q Hq%list_elem_of_lookup_2%Hin. simpl.
  destruct (decide _) as [Heq|]; [|done].
  eapply (distinct_ordinal U); [apply Hs|done|done|]. symmetry. by apply (named_member set U).
Qed.

(** Creations add up, in the order of the calls. *)
Lemma effects_adds U new pods :
  sound set U → (∀ q, q ∈ pods → q ∈ U) → Forall (adds U) new →
  effects new pods = pods ++ evs creates new.
Proof.
  intros HU. revert pods. induction new as [|[e r] new IH]; intros pods Hin Hall; [by rewrite app_nil_r|].
  apply list.Forall_cons in Hall as [[He Ha] Hall]. rewrite effects_cons. unfold evs. rewrite bind_cons. fold (evs creates new).
  destruct e; cbn [effect creates projT1] in *; try (by apply IH).
  - simpl in Ha. subst r. rewrite IH; [by rewrite <- (assoc_L (++))| |done].
    intros q [?| ->%list_elem_of_singleton]%elem_of_app; auto.
  - simpl in Ha. subst r. destruct He as [Hp ->]. rewrite (replace_pod_among U) by done. by apply IH.
  - by destruct He.
Qed.

(** Deletions take away the pods they name, in any order. *)
Lemma effects_removes new pods :
  Forall removes new →
  effects new pods = filter (λ q, (Namespace (pod_meta q), Name (pod_meta q)) ∉ evs removals new) pods.
Proof.
  revert pods. induction new as [|[e r] new IH]; intros pods Hall.
  { symmetry. apply filter_all. intros ??. apply not_elem_of_nil. }
  apply list.Forall_cons in Hall as [[He Ha] Hall]. rewrite effects_cons. unfold evs. rewrite bind_cons. fold (evs removals new).
  destruct e; cbn [effect removals projT1 app] in *; try done; try (by apply IH).
  simpl in Ha. subst r. rewrite IH by done. unfold remove_pod. rewrite list_filter_filter.
  apply filter_ext_in. intros q _. rewrite not_elem_of_cons.
  assert ((Namespace (pod_meta q), Name (pod_meta q)) = (ns, name) ↔
          Namespace (pod_meta q) = ns ∧ Name (pod_meta q) = name) as ->; [|tauto].
  split; [by intros [= ? ?]|by intros [-> ->]].
Qed.
End changes.

(** ** The phases of a synchronisation *)

Section parallel.
Context `{K8sLaws} `{GoLaws} `{!ClientGo}.
Context (set currentSet : XStatefulSet) (cur upd : Rev) (r p b : Z).
Context (Hrs : rolling_set set currentSet cur upd r p b) (t : Time) (pods : list Pod).
Hypothesis Hhealthy : healthy set t pods.
Notation acc := (accepting t).
Notation start := (getStartOrdinal set).

Section phases.
Context (replicas condemned : list Pod).
Hypothesis Hfrom : replicas_from set currentSet set (Name (cr_meta cur)) (Name (cr_meta upd)) pods replicas.
Hypothesis Hlen : Z.of_nat (length replicas) = r.
Hypothesis Hcond : condemned_ok set pods condemned.

(** The pods to be created. *)
Definition news : list Pod := filter (λ q, isCreated q = false) replicas.

Lemma created_in_pods i q : replicas !! i = Some q → isCreated q = true → q ∈ pods.
Proof. by eapply present. Qed.

Lemma new_replica i q :
  replicas !! i = Some q → isCreated q = false →
  getOrdinal q = start + Z.of_nat i ∧ member set q ∧
  getPodRevision q = born start p (Name (cr_meta cur)) (Name (cr_meta upd)) (start + Z.of_nat i) ∧
  ∀ q', q' ∈ pods → getOrdinal q' ≠ start + Z.of_nat i.
Proof.
  intros Hq Hc. destruct (absent set currentSet cur upd t pods Hhealthy replicas Hfrom i q Hq Hc) as [Hnew Hno].
  pose proof (range_ok _ _ _ _ _ _ _ Hrs). pose proof (lookup_lt_Some _ _ _ Hq).
  destruct (new_pod_facts set currentSet cur upd r p b Hrs (start + Z.of_nat i) q) as (Ho & _ & Hm & Hrev); [lia|done|].
  done.
Qed.

Lemma replica_facts i q :
  replicas !! i = Some q → getOrdinal q = start + Z.of_nat i ∧ member set q.
Proof.
  intros Hq. destruct (isCreated q) eqn:Hc; [|by destruct (new_replica i q Hq Hc) as (? & ? & _)].
  pose proof (created_in_pods i q Hq Hc) as Hin.
  split; [by eapply (present_ordinal set currentSet)|by apply Hhealthy].
Qed.

Lemma replica_ordinals : getOrdinal <$> replicas = seqZ start r.
Proof.
  apply list_eq. intros i. rewrite list_lookup_fmap. destruct (replicas !! i) as [q|] eqn:Hq.
  - cbn. symmetry. apply lookup_seqZ. destruct (replica_facts i q Hq) as [-> _].
    pose proof (lookup_lt_Some _ _ _ Hq). lia.
  - cbn. symmetry. apply lookup_ge_None in Hq. apply lookup_seqZ_ge. lia.
Qed.

Lemma elem_of_news q : q ∈ news ↔ ∃ i, replicas !! i = Some q ∧ isCreated q = false.
Proof.
  unfold news. rewrite list_elem_of_filter, list_elem_of_lookup. naive_solver.
Qed.

(** The pods of the set and the new ones have distinct ordinals. *)
Lemma sound_with_news X : X ≡ₚ news → sound set (pods ++ X).
Proof.
  intros HX. destruct Hhealthy as [[Hnd Hmem] _]. split.
  - unfold distinct. rewrite HX, fmap_app. apply list.NoDup_app. split_and!; [done| |].
    + intros o (q & -> & Hq)%list_elem_of_fmap (q' & Ho & (i & Hi & Hc)%elem_of_news)%list_elem_of_fmap.
      destruct (new_replica i q' Hi Hc) as (Ho' & _ & _ & Hno). apply (Hno q Hq). congruence.
    + eapply sublist_NoDup; [|apply fmap_sublist, list.sublist_filter]. rewrite replica_ordinals. apply NoDup_seqZ.
  - intros q [Hq|Hq]%elem_of_app; [by apply Hmem|]. rewrite HX in Hq.
    apply elem_of_news in Hq as (i & Hi & Hc). by apply (new_replica i q Hi Hc).
Qed.
Notation U := (pods ++ news).

(** *** Creation *)

Definition creating (l : list Pod) (tr : list (obs reply)) : Prop :=
  evs creates tr = l ∧ Forall (adds t U) tr.

Lemma creating_keeps l : keeps t (harmless U) (creating l).
Proof.
  intros tr x Hx Ha [Hl Hall]. split.
  - rewrite evs_app, Hl. unfold evs. cbn. by rewrite (harmless_creates U), !app_nil_r.
  - apply Forall_app. split; [done|]. constructor; [by apply harmless_adds|constructor].
Qed.
Lemma creating_nil : creating [] [].
Proof. split; [done|constructor]. Qed.

(** The goroutine of a replica creates its pod when there is none. *)
Definition created_by (k : Z) : list Pod :=
  match replicas !! Z.to_nat k with Some q => if isCreated q then [] else [q] | None => [] end.

Lemma processReplica_parallel k :
  0 ≤ k < r →
  wp acc (λ _, any_call) (processReplica set set false replicas k)
    (returns (λ tr res, res.2 = None ∧ creating (created_by k) tr)) [].
Proof.
  intros Hk. destruct (lookup_lt_is_Some_2 replicas (Z.to_nat k)) as [q Hq]; [lia|].
  pose proof (set_valid _ _ _ _ _ _ _ Hrs) as (_ & Hwf & _).
  assert (index replicas k = mret q) as Hi by (apply index_Some; [lia|done]).
  destruct (replica_facts _ q Hq) as [_ (Hid & Hst & _)].
  unfold created_by. rewrite Hq. destruct (isCreated q) eqn:Hc.
  - pose proof (created_in_pods _ q Hq Hc) as Hin.
    eapply wp_mono; [|apply (keeps_safe t (harmless U) (creating []) _ (λ r, r = (false, None)));
      [apply creating_keeps| |apply creating_nil]].
    + intros tr o (x & -> & -> & Hcr). by eexists.
    + apply (processReplica_settled t (harmless U) I
        (λ e He, inert_harmless U e (claim_io_inert e He)) set set false replicas k q); try done.
      * by apply Hhealthy.
      * left. split_and!; try done. split; [apply elem_of_app; by left|done].
  - assert (q ∈ U) as Hin by (apply elem_of_app; right; apply elem_of_news; by exists (Z.to_nat k)).
    unfold processReplica. rewrite Hi. change (mret q ≫= ?f) with (f q). cbv beta.
    rewrite (uncreated_phase q Hc), Hc.
    eapply (wp_seq _ _ _ _ (λ tr res, res = None ∧ creating [q] tr)).
    + eapply (keeps_seq _ _ _ _ _ _ _ _ (creating_keeps []));
        [by apply (PodClaimIsStale_ok t _ (λ e He, inert_harmless U e (claim_io_inert e He)))|apply creating_nil|].
      intros tr1 ? Hcr1 ->. eapply wp_seq; [apply (CreateStatefulPod_ok t (creating []) (creating [q]) q); try done|].
      * intros tr x Hx. by apply creating_keeps, inert_harmless, claim_io_inert.
      * intros tr x Hx. by apply creating_keeps, inert_harmless, claim_io_inert.
      * intros tr [Hl Hall]. split; [rewrite evs_app, Hl; done|].
        apply Forall_app. split; [done|]. constructor; [by split|constructor].
      * intros tr2 ? [-> Hcr2]. apply wp_ret. by eexists.
    + intros tr1 ? [-> Hcr1].
      assert (isPending q = false) as ->.
      { unfold isPending. apply bool_decide_eq_false_2. unfold isCreated in Hc. apply bool_decide_eq_false in Hc.
        intros Hp. apply Hc. by rewrite Hp. }
      change (mret None ≫= ?f) with (f None). cbv beta iota. rewrite !andb_false_r.
      eapply wp_mono; [|apply (keeps_safe t (harmless U) (creating [q]) _ (λ r, r = (false, None)));
        [apply creating_keeps| |exact Hcr1]].
      { intros tr o (x & -> & -> & Hcr). by eexists. }
      eapply (safe_bind _ _ _ _ (λ now : Time, now = t)); [by safe_call|]. intros ? ->. rewrite !andb_false_r.
      eapply safe_bind; [by apply (ClaimsMatchRetentionPolicy_ok t _ (λ e He, inert_harmless U e (claim_io_inert e He)))|].
      intros ? [m ->]. destruct (_ && _); [by apply safe_ret|].
      eapply (safe_bind _ _ _ _ (λ err, err = None)); [|intros ? ->; by apply safe_ret].
      by apply (UpdateStatefulPod_same t _ (λ e He, inert_harmless U e (claim_io_inert e He))).
Qed.

(** The items of a list, one goroutine each. *)
Lemma concat_indexed {A B} (f : A → list B) (l : list A) :
  concat ((λ k, match l !! Z.to_nat k with Some q => f q | None => [] end) <$> seqZ 0 (Z.of_nat (length l))) =
  l ≫= f.
Proof.
  unfold seqZ. rewrite Nat2Z.id, <- list_fmap_compose.
  enough (∀ pre, concat ((λ k, match (pre ++ l) !! k with Some q => f q | None => [] end) <$> seq (length pre) (length l)) =
    l ≫= f) as Hpre.
  { rewrite <- (Hpre []). f_equal. apply list_fmap_ext. intros i k _. cbn. by rewrite Z.add_0_r, Nat2Z.id. }
  induction l as [|q l IH]; intros pre; [done|]. cbn [length seq fmap list_fmap concat]. rewrite bind_cons.
  rewrite lookup_app_r, Nat.sub_diag by lia. cbn. f_equal.
  rewrite <- (IH (pre ++ [q])), length_app, Nat.add_1_r. by rewrite <- (assoc_L (++)).
Qed.

Lemma news_created : concat (created_by <$> seqZ 0 r) = news.
Proof.
  rewrite <- Hlen. unfold created_by.
  rewrite (concat_indexed (λ q, if isCreated q then [] else [q])). unfold news.
  clear. induction replicas as [|q l IH]; [done|]. rewrite bind_cons, filter_cons, IH.
  by destruct (isCreated q).
Qed.

(** All missing pods are created, in some order. *)
Lemma replicas_phase tr :
  now_pods pods pods tr →
  wp acc (λ _, any_call) (runForAll replicas (processReplica set set false replicas) false)
    (returns (λ tr' res, res = (false, None) ∧ ∃ X, X ≡ₚ news ∧ now_pods pods (pods ++ X) tr')) tr.
Proof.
  intros Hat. eapply wp_mono; [|apply (runForAll_together acc creates (adds t U) (choose_adds t U) _ created_by r); [|done]].
  - intros tr' o (x & -> & -> & new & -> & Hnew & Hall). eexists. split; [done|]. split; [done|].
    exists (evs creates new). rewrite news_created in Hnew. split; [done|].
    unfold now_pods. rewrite effects_app, Hat. apply (effects_adds set t U); [by apply sound_with_news| |done].
    intros q Hq. apply elem_of_app. by left.
  - intros k Hk. eapply wp_mono; [|by apply processReplica_parallel].
    intros tr' o (x & -> & Herr & Hl & Hall). eexists. split; [done|]. by rewrite Hl.
Qed.

(** *** Scaling down *)

Definition key (q : Pod) : string * string := (Namespace (pod_meta q), Name (pod_meta q)).
Definition removing (l : list (string * string)) (tr : list (obs reply)) : Prop :=
  evs removals tr = l ∧ Forall (removes t) tr.

Lemma removing_keeps l : keeps t inert (removing l).
Proof.
  intros tr x Hx Ha [Hl Hall]. split.
  - rewrite evs_app, Hl. unfold evs. cbn. by rewrite inert_removals, !app_nil_r.
  - apply Forall_app. split; [done|]. constructor; [by apply inert_removes|constructor].
Qed.

Lemma processCondemned_parallel first k q :
  index condemned k = mret q → q ∈ pods →
  wp acc (λ _, any_call) (processCondemned set first false condemned k)
    (returns (λ tr res, res.2 = None ∧ removing [key q] tr)) [].
Proof.
  intros Hi Hin. destruct Hhealthy as [_ Hset]. destruct (Hset q Hin) as (_ & Hterm & _).
  unfold processCondemned. rewrite Hi. change (mret q ≫= ?f) with (f q). cbv beta.
  rewrite Hterm, andb_false_r. apply wp_call_bind; [done|]. intros now Hnow. rewrite andb_false_r.
  unfold DeleteStatefulPod, DeletePod. apply wp_bind_2, wp_call_bind; [done|].
  intros err Herr. simpl in Herr. subst err. cbn [app].
  eapply (keeps_seq _ _ _ _ _ _ _ _ (removing_keeps [key q]));
    [by apply (event_ok t _ claim_io_inert)| |].
  - split; [done|]. constructor; [by split|]. constructor; [by split|constructor].
  - intros tr' _ Hrm _. do 2 apply wp_ret. by eexists.
Qed.

(** All condemned pods are deleted. *)
Lemma condemned_phase first Y tr :
  sound set Y → (∀ q, q ∈ condemned → q ∈ Y) → now_pods pods Y tr →
  wp acc (λ _, any_call) (runForAll condemned (processCondemned set first false condemned) false)
    (returns (λ tr' res, res = (false, None) ∧
       now_pods pods (drop_ordinals (getOrdinal <$> condemned) Y) tr')) tr.
Proof.
  intros Hs Hin Hat.
  eapply wp_mono; [|apply (runForAll_together acc removals (removes t) (choose_removes t) _
    (λ k, match condemned !! Z.to_nat k with Some q => [key q] | None => [] end) (Z.of_nat (length condemned))); [|done]].
  - intros tr' o (x & -> & -> & new & -> & Hnew & Hall). eexists. split; [done|]. split; [done|].
    unfold now_pods. rewrite effects_app, Hat, (effects_removes t) by done. unfold drop_ordinals.
    apply filter_ext_in. intros q Hq. rewrite Hnew, (concat_indexed (λ q, [key q])).
    rewrite list_elem_of_bind, list_elem_of_fmap. apply not_iff_compat. split.
    + intros (q' & Heq%list_elem_of_singleton & Hq'). exists q'. split; [|done].
      apply (named_member set Y q' q Hs); [by apply Hin|done|]. unfold key in Heq. by injection Heq as -> ->.
    + intros (q' & Ho & Hq'). exists q'. split; [|done]. apply list_elem_of_singleton.
      by rewrite (distinct_ordinal Y q q' (proj1 Hs) Hq (Hin q' Hq') Ho).
  - intros k Hk. destruct (lookup_lt_is_Some_2 condemned (Z.to_nat k)) as [q Hq]; [lia|]. rewrite Hq.
    eapply wp_mono; [|apply (processCondemned_parallel first k q); [by apply index_Some; [lia|]|]].
    + intros tr' o (x & -> & Herr & Hl & Hall). eexists. split; [done|]. by rewrite Hl.
    + by apply (proj1 Hcond q), list_elem_of_lookup_2 with (i := Z.to_nat k).
Qed.

(** *** The pods after both *)

Lemma condemned_out o : o ∈ getOrdinal <$> condemned → ¬ within start r o.
Proof.
  intros (q & -> & Hq)%list_elem_of_fmap. rewrite <- (in_range_within _ _ _ _ _ _ _ Hrs).
  by destruct (proj1 (proj1 Hcond q) Hq) as (_ & ? & _).
Qed.

Section after.
Context (X : list Pod) (HX : X ≡ₚ news).
Notation Y := (drop_ordinals (getOrdinal <$> condemned) (pods ++ X)).

Lemma replica_after i q : replicas !! i = Some q → q ∈ Y ∧ getOrdinal q = start + Z.of_nat i.
Proof.
  intros Hq. destruct (replica_facts i q Hq) as [Ho _]. split; [|done].
  apply elem_of_drop_ordinals. split.
  - apply elem_of_app. destruct (isCreated q) eqn:Hc; [left; by eapply created_in_pods|right].
    rewrite HX. apply elem_of_news. by exists i.
  - intros Hout. apply (condemned_out _ Hout). pose proof (lookup_lt_Some _ _ _ Hq). unfold within. lia.
Qed.

(** Exactly the ordinals of the range are left. *)
Lemma view_after :
  view Y = fill start r p (Name (cr_meta cur)) (Name (cr_meta upd)) (view pods).
Proof.
  pose proof (sound_with_news X HX) as [Hnd _]. destruct Hhealthy as [[Hndp Hmem] _].
  apply map_eq. intros o. apply option_eq. intros rev.
  rewrite view_lookup by by apply drop_ordinals_distinct. rewrite fill_lookup.
  setoid_rewrite elem_of_drop_ordinals. setoid_rewrite elem_of_app. split.
  - intros (q & [[Hq|Hq] Hout] & <- & <-).
    + split.
      * apply (in_range_within _ _ _ _ _ _ _ Hrs). destruct (decide (in_range set (getOrdinal q))) as [|Hn]; [done|].
        destruct Hout. apply list_elem_of_fmap_2, (proj1 Hcond q). split_and!; [done|done|].
        destruct (Hmem q Hq) as (Hid & _). by apply identityMatches_fields in Hid as [? _].
      * assert (view pods !! getOrdinal q = Some (getPodRevision q)) as -> by (apply view_lookup; [done|by exists q]).
        done.
    + rewrite HX in Hq. apply elem_of_news in Hq as (i & Hi & Hc).
      destruct (new_replica i q Hi Hc) as (-> & _ & Hrev & Hno). pose proof (lookup_lt_Some _ _ _ Hi).
      split; [unfold within; lia|]. rewrite (proj2 (view_None pods _ Hndp) Hno). exact Hrev.
  - intros [Ho Hrev]. destruct (lookup_lt_is_Some_2 replicas (Z.to_nat (o - start))) as [q Hq];
      [unfold within in Ho; lia|].
    destruct (replica_after _ q Hq) as [[Hin Hout]%elem_of_drop_ordinals Hoq].
    assert (getOrdinal q = o) as Hord by (unfold within in Ho; lia).
    destruct (view pods !! o) as [rv|] eqn:Hv; cbn in Hrev; subst rev.
    + apply view_lookup in Hv as (q' & Hq' & Ho' & Hr'); [|done]. exists q'. split_and!; [by left|by rewrite Ho', <- Hord|done|done].
    + exists q. split_and!; [by apply elem_of_app|done|done|].
      assert (isCreated q = false) as Hc.
      { destruct (isCreated q) eqn:Hc; [|done]. destruct (proj1 (view_None pods o Hndp) Hv q); [|done].
        by eapply created_in_pods. }
      destruct (new_replica _ q Hq Hc) as (_ & _ & -> & _). f_equal. unfold within in Ho. lia.
Qed.

(** Without missing pods all replicas are settled. *)
Lemma complete_settled q : complete start r (view pods) → q ∈ replicas → settled_at t set q.
Proof.
  intros Hcomp [i Hi]%list_elem_of_lookup. destruct Hhealthy as [[Hnd _] Hset].
  apply Hset. destruct (isCreated q) eqn:Hc; [by eapply created_in_pods|].
  destruct (new_replica i q Hi Hc) as (_ & _ & _ & Hno). pose proof (lookup_lt_Some _ _ _ Hi).
  destruct (Hcomp (start + Z.of_nat i)) as [rv Hv]; [unfold within; lia|].
  by rewrite (proj2 (view_None pods _ Hnd) Hno) in Hv.
Qed.
End after.

(** What the actions of a synchronisation come to. *)
Definition one_parallel (tr : list (obs reply)) (x : XStatefulSetStatus * option error) : Prop :=
  x.2 = None ∧ sound set (effects tr pods) ∧
  parallel_step start r p b (Name (cr_meta cur)) (Name (cr_meta upd)) (view pods) (view (effects tr pods)).

Lemma act_parallel status first tr :
  allowsBurst set = true → now_pods pods pods tr →
  wp acc (λ _, any_call) (act_on_pods set set cur upd status replicas condemned first)
    (returns one_parallel) tr.
Proof.
  intros Hburst Hat. unfold act_on_pods. rewrite Hburst. cbv zeta. cbn [negb].
  eapply wp_seq; [by apply replicas_phase|]. intros tr1 ? (-> & X & HX & Hat1). cbn [orb not_nil].
  pose proof (sound_with_news X HX) as Hs.
  eapply (keeps_seq t inert _ _ _ _ _ _ (inert_keeps _ _ _));
    [apply (runForAll_none _ _ I _ (Z.of_nat (length condemned))); [|done]|done|].
  { intros k Hk. destruct (lookup_lt_is_Some_2 condemned (Z.to_nat k)) as [q Hq]; [lia|].
    eapply fixPodClaim_ok; [exact Hrs|apply index_Some; [lia|exact Hq]]. }
  intros tr2 ? Hat2 ->. cbn [orb not_nil].
  eapply wp_seq; [apply (condemned_phase first (pods ++ X)); [done| |done]|].
  { intros q Hq. apply elem_of_app. left. by apply (proj1 Hcond q). }
  intros tr3 ? [-> Hat3]. cbn [orb not_nil].
  eapply (keeps_seq _ _ _ _ _ _ _ _ (inert_keeps _ _ _)); [by apply updateStatus_now|done|].
  intros tr4 st Hat4 _. rewrite bool_decide_eq_false_2 by apply Hrs.
  eapply wp_mono; [|eapply (update_effect set currentSet cur upd r p b Hrs t pods); [|done| |exact Hat4]].
  - intros tr5 o (x & -> & Herr & k & Hk & Hall & Hat5). exists x. split; [done|].
    split; [done|]. unfold now_pods in Hat5. rewrite Hat5. split; [by do 2 apply sound_drop|].
    rewrite view_drop by apply drop_ordinals_distinct, Hs. rewrite view_after by done.
    apply step_parallel; [done|]. intros Hcomp. apply Hall. intros q. by apply complete_settled.
  - by apply sound_drop.
  - by apply replica_after.
Qed.
End phases.
End parallel.

(** ** The closed loop *)

Section closed_loop.
Context `{K8sLaws} `{GoLaws} `{!ClientGo}.
Implicit Types (set : XStatefulSet).

Lemma updateStatefulSet_parallel set currentSet cur upd r p b :
  rolling_set set currentSet cur upd r p b → allowsBurst set = true →
  implements set cur upd
    (parallel_step (getStartOrdinal set) r p b (Name (cr_meta cur)) (Name (cr_meta upd))).
Proof.
  intros Hrs Hburst t collisionCount pods Hhealthy.
  apply (updateStatefulSet_acts _ currentSet _ _ r p b _ _ _ (λ tr, sound set (effects tr pods) ∧
    parallel_step (getStartOrdinal set) r p b (Name (cr_meta cur)) (Name (cr_meta upd))
      (view pods) (view (effects tr pods))) Hrs).
  intros. by eapply act_parallel.
Qed.

(** C8: one synchronisation under the parallel policy implements one parallel step.
    When the pods are healthy and the API server accepts writes, whatever the order in
    which the calls of the goroutines are made, the calls of a synchronisation create
    exactly the missing pods of the range, each once and at its revision, delete
    exactly the surplus pods, and then delete the highest outdated pods above the
    partition, no more than the budget and as many as the budget when no pod was
    missing; every pod keeps its identity and storage, and no error is reported. *)
Theorem updateStatefulSet_refines_parallel set currentSet cur upd r p b t collisionCount pods :
  rolling_set set currentSet cur upd r p b → allowsBurst set = true → healthy set t pods →
  wp (accepting t) (λ _, any_call) (updateStatefulSet set cur upd collisionCount pods)
    (returns (λ tr x, (∃ st, x = (Some st, None)) ∧ sound set (effects tr pods) ∧
       parallel_step (getStartOrdinal set) r p b (Name (cr_meta cur)) (Name (cr_meta upd))
         (view pods) (view (effects tr pods)))) [].
Proof. intros Hrs Hburst. by eapply updateStatefulSet_parallel. Qed.

(** Under the parallel policy scaling takes one round.  Starting from healthy
    pods, rounds of synchronisation and start-up can always go on and keep the pods
    healthy; after one round, if some pod was missing or surplus, and two for each
    outdated pod above the partition, however many pods there are to create or to
    delete, the set is rolled out and stays so. *)
Theorem parallel_converges set currentSet cur upd r p b collisionCount t pods n w :
  rolling_set set currentSet cur upd r p b → allowsBurst set = true → healthy set t pods →
  (∃ err : error, IsNotFound err = true) →
  nsteps (round set cur upd collisionCount) n (t, pods) w →
  healthy set w.1 w.2 ∧ (∃ w', round set cur upd collisionCount w w') ∧
  ((parallel_work (getStartOrdinal set) r p (Name (cr_meta cur)) (Name (cr_meta upd)) (view pods) ≤ n)%nat →
   rolled_out (getStartOrdinal set) r p (Name (cr_meta upd)) (view w.2)).
Proof.
  intros Hrs Hburst Hh Herr Hsteps. pose proof (updateStatefulSet_parallel _ _ _ _ _ _ _ Hrs Hburst) as Himp.
  destruct (rounds_steps _ _ _ _ _ _ (t, pods) w Himp Hh Hsteps) as [Hhw Habs].
  split; [done|]. split; [by eapply round_exists|]. intros Hn.
  eapply parallel_steps; [by eapply partition_nonneg|by eapply budget_pos|exact Habs|done].
Qed.
End closed_loop.
