(* ===== verification/Sync.v ===== *)
(** * One synchronisation: revisions, status, errors

    [getStatefulSetRevisions], [performUpdate] and [UpdateStatefulSet]. *)
From S2P Require Export Burst.

Section revisions.
Context `{K8sLaws} `{!ClientGo}.
#[local] Existing Instance realHistory.

(** The revision the status names, or the update revision. *)
Definition current_of (set : XStatefulSet) (revisions : list Rev) (upd : Rev) : Rev :=
  default upd
    (List.find (λ r, bool_decide (Name (cr_meta r) = CurrentRevision (Status set))) revisions).

(** The current revision is the one of that name, if the names are distinct. *)
Lemma current_of_named set l upd :
  NoDup ((λ x : Rev, Name (cr_meta x)) <$> l) → upd ∈ l → CurrentRevision (Status set) = Name (cr_meta upd) →
  current_of set l upd = upd.
Proof.
  intros Hnd Hin Hcur. unfold current_of. rewrite Hcur. destruct (List.find _ l) as [x|] eqn:Hf; [|done]. cbn.
  apply find_some in Hf as [Hx%list_elem_of_In Hn%bool_decide_eq_true].
  apply list_elem_of_lookup in Hx as [i Hi]. apply list_elem_of_lookup in Hin as [j Hj].
  assert (i = j) as ->; [|congruence].
  eapply (NoDup_lookup _ _ _ (Name (cr_meta x)) Hnd); rewrite list_lookup_fmap; [by rewrite Hi|by rewrite Hj, Hn].
Qed.

Definition collisions (set : XStatefulSet) : Z := default 0 (CollisionCount (Status set)).

Lemma FindEqualRevisions_last revisions needle latest :
  list.last revisions = Some latest → EqualRevision (Some latest) (Some needle) = true →
  list.last (FindEqualRevisions revisions needle) = Some latest.
Proof.
  intros (l & ->)%last_Some Heq. unfold FindEqualRevisions. rewrite List.filter_app.
  cbn [List.filter]. rewrite Heq. by rewrite last_snoc.
Qed.

Lemma newRevision_Revision set n c r : newRevision set n c = Some (inl r) → Revision r = n.
Proof.
  unfold newRevision. destruct (getPatch set) as [[p|e]|]; [|done..]. by intros [= <-].
Qed.

(** A set whose template has not changed needs no new revision: when the
    newest revision holds the same data as the proposed one, it is the update
    revision, nothing is called and the collision count is kept. *)
Theorem getStatefulSetRevisions_unchanged fuel set revisions proposed latest :
  let sorted := SortControllerRevisions revisions in
  newRevision set (nextRevision sorted) (Some (collisions set)) = Some (inl proposed) →
  list.last sorted = Some latest → EqualRevision (Some latest) (Some proposed) = true →
  getStatefulSetRevisions fuel set revisions =
    mret (Some (inl (current_of set sorted latest, latest, collisions set))).
Proof.
  intros sorted Hnew Hlast Heq. unfold getStatefulSetRevisions. fold sorted. fold (collisions set).
  rewrite Hnew. change (deref (Some ?x) ≫= ?f) with (f x). cbv beta iota.
  unfold chooseUpdateRevision. rewrite Hlast, (FindEqualRevisions_last _ _ _ Hlast Heq).
  assert (EqualRevision (Some latest) (Some latest) = true) as ->; [|done].
  simpl. by rewrite bool_decide_eq_true_2, SemanticDeepEqual_refl.
Qed.

(** *** Rollback *)

Definition same_data (x y : Rev) : Prop :=
  Raw (Data x) = Raw (Data y) ∧ SemanticDeepEqual (RObject (Data x)) (RObject (Data y)) = true.

Lemma same_data_EqualRevision x y : EqualRevision (Some x) (Some y) = true ↔ same_data x y.
Proof. unfold EqualRevision, same_data. by rewrite andb_true_iff, bool_decide_eq_true. Qed.

Lemma not_same_data_EqualRevision x y : EqualRevision (Some x) (Some y) = false ↔ ¬ same_data x y.
Proof. rewrite <- same_data_EqualRevision. by destruct (EqualRevision _ _). Qed.

(** The same object with the same data; number and other metadata may differ. *)
Definition carries (old x : Rev) : Prop :=
  Name (cr_meta x) = Name (cr_meta old) ∧ Namespace (cr_meta x) = Namespace (cr_meta old) ∧ Data x = Data old.

(** Answers about the stored revision [old], whose data cannot change.  A
    refused update answers with nothing, with the stored object, or, as the
    generated clients do, with the empty one; the empty one has no name, is
    never found and never accepted. *)
Definition answers_about (old : Rev) (o : obs reply) : Prop :=
  match o with
  | existT (RevisionListerGet ns name) r =>
      ∀ x, r = inl x → name ≠ "" ∧
        (ns = Namespace (cr_meta old) → name = Name (cr_meta old) → carries old x)
  | existT (RevisionsUpdate _ sent) (got, err) =>
      match err, got with
      | Some _, Some x => carries old x ∨ Name (cr_meta x) = "" ∧ Revision x = 0
      | _, _ => Name (cr_meta sent) ≠ ""
      end
  | _ => True
  end.

(** Writes: only [old], or the empty object that a refusal left, with number [n]. *)
Definition renumbers_only (old : Rev) (n : Z) (e : api_call) : Prop :=
  match e with
  | RevisionsUpdate ns r =>
      ns = Namespace (cr_meta r) ∧ Revision r = n ∧ (carries old r ∨ Name (cr_meta r) = "")
  | RevisionListerGet _ _ => True
  | _ => False
  end.

Lemma update_attempt_carries old n clone tr :
  n ≠ 0 → carries old clone ∨ Name (cr_meta clone) = "" ∧ Revision clone = 0 →
  wp (answers_about old) (λ _, renumbers_only old n) (update_attempt n clone)
    (λ _ o, ∃ err x, o = Some (err, x) ∧ (carries old x ∨ Name (cr_meta x) = "" ∧ Revision x = 0) ∧
       (err = None → carries old x ∧ Revision x = n)) tr.
Proof.
  intros Hn Hc. unfold update_attempt. destruct (Revision clone =? n) eqn:Heq.
  { apply Z.eqb_eq in Heq. apply wp_ret. eexists _, _. split_and!; [done..|].
    destruct Hc as [|[_ ?]]; [done|congruence]. }
  apply wp_call_bind.
  { split_and!; [done..|]. destruct Hc as [|[? _]]; [by left|by right]. }
  intros [got [err|]] Hadm; simpl in Hadm.
  2:{ apply wp_ret. eexists _, _. split; [done|]. destruct Hc as [Hc|[? _]]; [|done]. split_and!; [by left|done..]. }
  set (x := default (set_Revision n clone) got).
  assert (carries old x ∨ Name (cr_meta x) = "" ∧ Revision x = 0) as Hx.
  { subst x. destruct got as [x|]; [done|]. destruct Hc as [Hc|[? _]]; [by left|done]. }
  apply wp_call_bind; [done|]. intros [y|e] Hy; apply wp_ret; eexists _, _; (split; [done|split; [|done]]).
  - destruct (Hy y eq_refl) as [Hname Hfound]. destruct Hx as [(H1' & H2' & _)|[? _]]; [left; by apply Hfound|done].
  - exact Hx.
Qed.

Lemma UpdateControllerRevision_carries old n tr :
  n ≠ 0 →
  wp (answers_about old) (λ _, renumbers_only old n) (real_UpdateControllerRevision old n)
    (λ _ o, ∃ r err, o = Some (r, err) ∧ (err = None → carries old r ∧ Revision r = n)) tr.
Proof.
  intros Hn. unfold real_UpdateControllerRevision. apply wp_bind_2.
  eapply wp_mono; [|apply (RetryOnConflict_wp _ _
    (λ _ x, carries old x ∨ Name (cr_meta x) = "" ∧ Revision x = 0)
    (λ _ err x, err = None → carries old x ∧ Revision x = n)); [|by left]].
  - intros tr' o (err & clone & -> & _ & HQ). apply wp_ret. by eauto.
  - intros clone tr' Hc. by apply update_attempt_carries.
Qed.

Lemma FindEqualRevisions_latest before old after needle :
  same_data old needle → Forall (λ x, ¬ same_data x needle) after →
  list.last (FindEqualRevisions (before ++ old :: after) needle) = Some old.
Proof.
  intros Hold Hafter. unfold FindEqualRevisions. rewrite List.filter_app. cbn [List.filter].
  rewrite (proj2 (same_data_EqualRevision _ _) Hold).
  assert (List.filter (λ r, EqualRevision (Some r) (Some needle)) after = []) as ->; [|by rewrite last_snoc].
  induction Hafter as [|x after Hx _ IH]; [done|]. cbn [List.filter].
  by rewrite (proj2 (not_same_data_EqualRevision _ _) Hx).
Qed.

(** C21: a rollback reuses the old revision: when [old] is the newest revision
    that holds the proposed data, and newer revisions exist that hold other
    data, then [old], and no other revision, is renumbered, no revision is
    created, and [old] under its own name and with its own data becomes the
    update revision, with a number greater than every known one; the collision
    count is kept and the current revision is the one the status names. *)
Theorem getStatefulSetRevisions_rollback fuel set revisions proposed before old after latest :
  let sorted := SortControllerRevisions revisions in
  Forall (λ r, 0 ≤ Revision r < 2 ^ 63 - 1) revisions →
  newRevision set (nextRevision sorted) (Some (collisions set)) = Some (inl proposed) →
  sorted = before ++ old :: after → list.last after = Some latest →
  same_data old proposed → Forall (λ x, ¬ same_data x proposed) after → ¬ same_data latest old →
  wp (answers_about old) (λ _, renumbers_only old (nextRevision sorted)) (getStatefulSetRevisions fuel set revisions)
    (returns (λ _ r, ∃ x, r = Some x ∧
       ∀ cur upd c, x = inl (cur, upd, c) →
         carries old upd ∧ Forall (λ r, Revision r < Revision upd) revisions ∧
         c = collisions set ∧ cur = current_of set sorted upd)) [].
Proof.
  intros sorted Hrange Hnew Hsort Hlast Hold Hafter Hne.
  assert (Forall (λ r, Revision r < nextRevision sorted) revisions) as Hnext.
  { apply list.Forall_forall. intros r Hr. apply nextRevision_newest; [|done].
    intros x Hx. rewrite list.Forall_forall in Hrange. specialize (Hrange x Hx). simpl in Hrange. lia. }
  assert (old ∈ revisions) as Hin.
  { rewrite <- (sort_Stable_perm byRevision_Less revisions). fold (SortControllerRevisions revisions).
    fold sorted. rewrite Hsort. set_solver. }
  assert (nextRevision sorted ≠ 0) as Hn0.
  { rewrite list.Forall_forall in Hnext, Hrange. specialize (Hnext _ Hin). specialize (Hrange _ Hin). simpl in *. lia. }
  unfold getStatefulSetRevisions. fold sorted. fold (collisions set).
  rewrite Hnew. change (deref (Some ?x) ≫= ?f) with (f x). cbv beta iota.
  assert (list.last sorted = Some latest) as Hlast'.
  { rewrite Hsort. apply last_Some in Hlast as [l ->]. by rewrite app_comm_cons, (assoc_L (++)), last_snoc. }
  unfold chooseUpdateRevision. rewrite Hlast', Hsort, FindEqualRevisions_latest by done.
  rewrite (proj2 (not_same_data_EqualRevision _ _) Hne), <- Hsort, (newRevision_Revision _ _ _ _ Hnew).
  apply wp_bind_2, wp_bind_2. eapply wp_mono; [|by apply UpdateControllerRevision_carries].
  intros tr o (r & err & -> & Hr). apply wp_ret, wp_ret.
  destruct err as [e|]; (eexists; split; [done|]; eexists; split; [done|]); [done|].
  intros cur upd c [= <- <- <-]. destruct (Hr eq_refl) as [Hcarry Hnum].
  split_and!; [done|by rewrite Hnum|done|done].
Qed.
End revisions.

(** ** The recorded status *)

Section status.
Context `{K8sLaws} `{GoRuntime} `{!ClientGo} `{!HistoryInterface}.

(** The status is the one of the set already, or a write of it was accepted. *)
Definition recorded (set : XStatefulSet) (st : XStatefulSetStatus) (tr : list (obs reply)) : Prop :=
  inconsistentStatus set st = false ∨ accepted st tr.

Lemma accepted_app st tr tr' : accepted st tr → accepted st (tr ++ tr').
Proof. intros (s & Hs & Hin). exists s. split; [done|]. apply elem_of_app. by left. Qed.

Lemma recorded_app set st tr tr' : recorded set st tr → recorded set st (tr ++ tr').
Proof. intros [?|?]; [by left|right; by apply accepted_app]. Qed.

Definition anything (_ : list (obs reply)) (_ : api_call) : Prop := True.

Lemma wp_any {A} (p : go A) tr :
  wp (λ _, True) anything p (λ tr' _, ∃ new, tr' = tr ++ new) tr.
Proof.
  revert tr. induction p as [a| |e k IH]; intros tr; [by exists []; rewrite app_nil_r..|].
  split; [done|]. intros r _. eapply wp_mono; [|apply IH].
  intros tr' _ [new ->]. exists (existT e r :: new). by rewrite <- (assoc_L (++)).
Qed.

(** Whatever [p] does, then the rest; a panic is not a result. *)
Lemma wp_any_bind {A B} (p : go A) (f : A → go B) (Φ : list (obs reply) → option B → Prop) tr :
  (∀ tr', Φ tr' None) →
  (∀ new a, wp (λ _, True) anything (f a) Φ (tr ++ new)) → wp (λ _, True) anything (p ≫= f) Φ tr.
Proof.
  intros Hnone Hf. apply wp_bind_2. eapply wp_mono; [|apply wp_any].
  intros tr' [a|] [new ->]; [apply Hf|apply Hnone].
Qed.

Lemma updateStatefulSet_None set cur upd c pods tr :
  wp (λ _, True) anything (updateStatefulSet set cur upd c pods)
    (λ _ o, ∀ err, o = Some (None, err) → err ≠ None) tr.
Proof.
  unfold updateStatefulSet.
  apply wp_any_bind; [done|]. intros new [cs|e]; [|apply wp_ret; by intros err [= <-]].
  apply wp_any_bind; [done|]. intros new2 [us|e]; [|apply wp_ret; by intros err [= <-]].
  apply wp_any_bind; [done|]. intros new3 st. apply wp_any_bind; [done|]. intros new4 [rs cs'].
  apply wp_any_bind; [done|]. intros new5 [u f]. apply wp_any_bind; [done|]. intros new6 [u' f'].
  destruct (bool_decide _); [by apply wp_ret|].
  apply wp_any_bind; [done|]. intros new7 [st' err]. by apply wp_ret.
Qed.

Lemma updateStatefulSetStatus_recorded set status tr :
  wp (λ _, True) anything (updateStatefulSetStatus set status)
    (λ tr' o, ∀ st, o = Some (None, st) → recorded set st tr') tr.
Proof.
  unfold updateStatefulSetStatus. apply wp_any_bind; [done|]. intros new st.
  apply wp_any_bind; [done|]. intros new2 [e|]; [by apply wp_ret|].
  destruct (inconsistentStatus set st) eqn:Hi; simpl negb; cbv iota.
  2:{ apply wp_ret. intros st' [= <-]. by left. }
  apply wp_bind_2. eapply wp_mono; [|apply (wp_weaken (λ _, True) _ (λ _, writes_status st)); [done|done|apply UpdateStatefulSetStatus_wp]].
  intros tr' o (err & -> & Herr). apply wp_ret. intros st' [= -> <-]. right. by apply Herr.
Qed.

Lemma performUpdate_recorded fuel set pods revisions tr :
  wp (λ _, True) anything (performUpdate fuel set pods revisions)
    (λ tr' o, ∀ cur upd st, o = Some (Some (cur, upd, st, None)) →
              ∃ st', st = Some st' ∧ recorded set st' tr') tr.
Proof.
  unfold performUpdate. apply wp_any_bind; [done|].
  intros new [[[[cur upd] c]|e]|]; [|by apply wp_ret..].
  apply wp_bind_2. eapply wp_mono; [|apply updateStatefulSet_None].
  intros tr' [[[st|] err]|] Hnone; [| |done].
  - apply wp_bind_2. eapply wp_mono; [|apply updateStatefulSetStatus_recorded].
    intros tr2 [[serr st']|] Hrec; [|done]. apply wp_ret.
    intros cur' upd' st2 [= _ _ <- Herr]. exists st'. split; [done|].
    destruct err; [done|]. apply Hrec. by rewrite Herr.
  - destruct err; [|by destruct (Hnone None eq_refl)]. by apply wp_ret.
Qed.

(** A synchronisation that reports no error returns a status, and that
    status is recorded: it agrees with the one the set already had, or a write
    of it was accepted by the API server. *)
Lemma UpdateStatefulSet_records_status fuel set pods :
  wp (λ _, True) anything (UpdateStatefulSet fuel set pods)
    (λ tr o, ∀ st, o = Some (Some (st, None)) → ∃ st', st = Some st' ∧ recorded set st' tr) [].
Proof.
  unfold UpdateStatefulSet. apply wp_any_bind; [done|]. intros new [revisions|e]; [|by apply wp_ret].
  apply wp_bind_2. eapply wp_mono; [|apply performUpdate_recorded].
  intros tr [[[[[cur upd] st] [err|]]|]|] Hrec; try done.
  - apply wp_any_bind; [done|]. intros new2 terr. apply wp_ret.
    intros st' [= _ Hn]. exfalso. apply NewAggregate_None in Hn.
    destruct (Aggregate_Errors err) as [es|] eqn:Hagg.
    + apply Forall_app in Hn as [Hn _]. destruct es as [|e es]; [|by inversion Hn].
      by apply (Aggregate_Errors_nonempty err).
    + by inversion Hn.
  - destruct (Hrec _ _ _ eq_refl) as (st' & -> & Hst).
    apply wp_bind_2. eapply wp_mono; [|apply wp_any].
    intros tr' [terr|] [new2 ->]; [|done]. apply wp_ret.
    intros st2 [= <- ->]. exists st'. split; [done|]. by apply recorded_app.
Qed.
End status.
