(* ===== verification/Quiescence.v ===== *)
(** * The fixed point of the controller

    When a set is as specified, its status is recorded and its history is within
    its limit, a whole [UpdateStatefulSet] only reads: the controller does not keep
    writing, so its own writes do not wake it up again. *)
From S2P Require Export Progress Sync.

Section quiescence.
Context `{K8sLaws} `{GoLaws} `{!ClientGo}.
#[local] Existing Instance realHistory.
Context (t : Time) (set updateSet : XStatefulSet) (latest : Rev) (pods : list Pod) (history : list Rev).

(** Reads, metrics and the scheduler's choices. *)
Definition reads (e : api_call) : Prop :=
  match e with RevisionListerList _ _ => True | _ => reads_only e end.

(** The cluster does not change: the clock, the claims, and the revisions listed. *)
Definition unchanging (o : obs reply) : Prop :=
  steady t updateSet pods o ∧
  match o with existT (RevisionListerList _ _) r => r = inl history | _ => True end.

(** The revisions of the set, in order. *)
Definition known : list Rev :=
  SortControllerRevisions
    (List.filter (λ h, match GetControllerOf (OwnerReferences (cr_meta h)) with
                       | None => true
                       | Some ref => bool_decide (or_UID ref = UID (set_meta set))
                       end) history).

(** The status of the set says that everything runs the latest revision. *)
Definition settled_status (r : Z) : Prop :=
  let st := Status set in
  st_Replicas st = r ∧ ReadyReplicas st = r ∧ AvailableReplicas st = r ∧ UpdatedReplicas st = r ∧
  CurrentReplicas st = r ∧ CurrentRevision st = Name (cr_meta latest) ∧
  UpdateRevision st = Name (cr_meta latest) ∧ Generation (set_meta set) ≤ ObservedGeneration st.

(** The template of the set is the one of the latest revision. *)
Definition template_unchanged : Prop :=
  ∃ proposed, newRevision set (nextRevision known) (Some (collisions set)) = Some (inl proposed) ∧
    list.last known = Some latest ∧ EqualRevision (Some latest) (Some proposed) = true.

(** The revisions that nothing uses are within the limit. *)
Definition history_within (limit : Z) : Prop :=
  RevisionHistoryLimit (Spec set) = Some limit ∧
  (limit < 0 ∨ Z.of_nat (length (filter (λ r : Rev, Name (cr_meta r) ∉ live_names pods (Some latest) (Some latest)) known)) ≤ limit).

Lemma known_sorted : SortControllerRevisions known = known.
Proof.
  destruct (SortControllerRevisions_spec (List.filter (λ h : Rev,
    match GetControllerOf (OwnerReferences (cr_meta h)) with
    | None => true | Some ref => bool_decide (or_UID ref = UID (set_meta set)) end) history)) as (_ & _ & _ & Hsort).
  exact Hsort.
Qed.

(** The current revision is the latest one. *)
Lemma current_is_latest r :
  NoDup ((λ x : Rev, Name (cr_meta x)) <$> known) → list.last known = Some latest → settled_status r →
  current_of set known latest = latest.
Proof.
  intros Hnd Hlast (_ & _ & _ & _ & _ & Hcur & _). apply current_of_named; [done| |done].
  apply last_Some in Hlast as [l ->]. apply elem_of_app. by right; left.
Qed.

(** A status that describes the converged set is consistent with the settled one. *)
Lemma described_consistent r st st' :
  Replicas (Spec set) = Some r → settled_status r → described set latest latest r st →
  completeRollingUpdate set st = Some st' → inconsistentStatus set st' = false.
Proof.
  intros Hr (Hs1 & Hs2 & Hs3 & Hs4 & Hs5 & Hs6 & Hs7 & Hs8) ((Hd1 & Hd2 & Hd3 & Hd4) & Hgen & Hcur & Hupd & Hcr).
  specialize (Hcr eq_refl). unfold completeRollingUpdate. rewrite Hr. cbn.
  assert (∀ x, ObservedGeneration x = ObservedGeneration st → st_Replicas x = r → CurrentReplicas x = r →
    ReadyReplicas x = r → UpdatedReplicas x = r → CurrentRevision x = Name (cr_meta latest) →
    AvailableReplicas x = r → UpdateRevision x = Name (cr_meta latest) → inconsistentStatus set x = false) as Hok.
  { intros x E1 E2 E3 E4 E5 E6 E7 E8. unfold inconsistentStatus.
    rewrite E1, E2, E3, E4, E5, E6, E7, E8, Hgen, Hs1, Hs2, Hs3, Hs4, Hs5, Hs6, Hs7, !Z.eqb_refl.
    rewrite !bool_decide_eq_false_2 by auto. cbn. lia. }
  destruct (bool_decide _); [|intros [= <-]; by apply Hok].
  destruct (_ && _); intros [= <-]; apply Hok; cbn; congruence.
Qed.

(** The status is left as it is. *)
Lemma updateStatefulSetStatus_still r st :
  Replicas (Spec set) = Some r → rollable set → budgeted set → settled_status r → described set latest latest r st →
  safe unchanging reads (updateStatefulSetStatus set st)
    (λ x, x.1 = None ∧ inconsistentStatus set x.2 = false).
Proof.
  intros Hr Hroll Hbud Hset Hdesc. unfold updateStatefulSetStatus.
  destruct (completeRollingUpdate set st) as [st'|] eqn:Hcomplete.
  2:{ exfalso. unfold completeRollingUpdate in Hcomplete. rewrite Hr in Hcomplete. by destruct (bool_decide _). }
  pose proof (described_consistent r st st' Hr Hset Hdesc Hcomplete) as Hok.
  change (deref (Some st') ≫= ?f) with (f st'). cbv beta.
  eapply (safe_bind _ _ _ _ (λ err, err = None)).
  - destruct (FeatureEnabled _); [|by apply safe_ret]. rewrite Hr.
    change (deref (Some r) ≫= ?f) with (f r). cbv beta.
    destruct (match RollingUpdate _ with Some ru => _ | None => _ end) as [m|err] eqn:Hm.
    + apply safe_seq; [by safe_call|]. intros _. by apply safe_ret.
    + exfalso. destruct (RollingUpdate (UpdateStrategy (Spec set))) as [ru|] eqn:Hru; [|done].
      unfold getStatefulSetMaxUnavailable in Hm. by destruct (Hbud ru r Hru) as (v & Hv); rewrite Hv in Hm.
  - intros ? ->. rewrite Hok. by apply safe_ret.
Qed.

Lemma truncateHistory_still limit :
  history_within limit →
  truncateHistory set pods known (Some latest) (Some latest) = mret None.
Proof.
  intros [Hl Hlen]. unfold truncateHistory. rewrite Hl.
  change (deref (Some limit) ≫= ?f) with (f limit). cbv beta zeta.
  by replace ((limit <? 0) || _) with true by lia.
Qed.

(** The controller comes to rest.  When every ordinal runs a pod as specified at
    the latest revision and there is no other pod, the template has not changed, the
    status says so already and the unused revisions are within the history limit, a
    whole [UpdateStatefulSet] makes no call that writes (to pods, claims, revisions,
    the status or the event log), reports no error, and returns a status that agrees
    with the recorded one; so it can be repeated for ever without effect. *)
Theorem UpdateStatefulSet_quiescent fuel r limit sel :
  syncable set latest latest → budgeted set → ApplyRevision set latest = Some (inl updateSet) →
  DeletionTimestamp (set_meta set) = None → Replicas (Spec set) = Some r → r < 2147483648 →
  LabelSelectorAsSelector (Selector (Spec set)) = inl sel →
  NoDup ((λ x : Rev, Name (cr_meta x)) <$> known) →
  converged t set latest pods → template_unchanged → settled_status r → history_within limit →
  wp unchanging (λ _, reads) (UpdateStatefulSet fuel set pods)
    (returns (λ _ x, ∃ st, x = Some (Some st, None) ∧ inconsistentStatus set st = false)) [].
Proof.
  intros Hsync Hbud Hus Hdel Hr Hsmall Hsel Hnd Hconv (proposed & Hnew & Hlast & Heq) Hset Hhist.
  unfold UpdateStatefulSet, ListRevisions. rewrite Hsel.
  eapply (wp_seq _ _ _ _ (λ _ x, ∃ l, x = inl l ∧ SortControllerRevisions l = known)).
  { cbn [ListControllerRevisions realHistory]. unfold real_ListControllerRevisions.
    apply wp_call_bind; [done|]. intros l [_ ->]. apply wp_ret. eexists. split; [done|]. by eexists. }
  intros tr1 ? (l & -> & Hl). cbv beta iota zeta. rewrite Hl. unfold performUpdate.
  rewrite (getStatefulSetRevisions_unchanged fuel set known proposed latest); rewrite ?known_sorted; try done.
  change (mret ?x ≫= ?f) with (f x). cbv beta iota.
  rewrite (current_is_latest r) by done.
  eapply (wp_seq _ _ _ _ (λ _ x, ∃ st, x = Some (Some latest, Some latest, Some st, None) ∧
                                       inconsistentStatus set st = false)).
  - eapply (wp_seq _ _ _ _ (λ _ x, ∃ st, x = (Some st, None) ∧ described set latest latest r st)).
    + eapply (wp_weaken (steady t updateSet pods) _ (λ _, reads_only)); [by intros o [? _]|by intros ? e; destruct e|].
      apply (converged_still t set updateSet latest pods latest (collisions set) r); try done. by eexists.
    + intros tr2 ? (st & -> & Hst). cbv beta iota.
      eapply wp_seq; [apply (updateStatefulSetStatus_still r); try done; apply Hsync|].
      intros tr3 [err st'] [Herr Hst']. cbn in Herr, Hst'. subst err. apply wp_ret. eexists. split; [done|].
      by exists st'.
  - intros tr2 ? (st & -> & Hst). cbv beta iota. rewrite (truncateHistory_still limit Hhist).
    change (mret ?x ≫= ?f) with (f x). cbv beta. apply wp_ret. eexists. split; [done|]. by exists st.
Qed.
End quiescence.
