(* ===== verification/Controller.v ===== *)
(** * The controller ([pkg/controller/xstatefulset/xstateful_set.go])

    The informers' handlers, which put the keys of sets on the work queue, and the
    workers, which take a key and synchronise its set.  Also the pod index of
    [pkg/controller/controller_utils.go] and the lister's expansion of
    [client-go/listers/apps/v1/xstatefulset_expansion.go]. *)
From S2P Require Export Sync RefManager Defaults.

(** ** The pod index *)

(** The parts of an owner reference a key is made of. *)
Definition PodControllerIndexKey (namespace : string) (ownerReference : option OwnerReference) : string :=
  match ownerReference with
  | None => namespace
  | Some ref => namespace +:+ "/" +:+ or_Kind ref +:+ "/" +:+ or_Name ref +:+ "/" +:+ or_UID ref
  end.

Section controller.
Context `{K8s} `{GoRuntime} `{!ClientGo} `{!HistoryInterface}.

(** The [IndexFunc] of [AddPodControllerIndexer]. *)
Definition PodControllerIndex (obj : event_object) : list string :=
  match obj with
  | ObjPod pod => [PodControllerIndexKey (Namespace (pod_meta pod)) (GetControllerOf (OwnerReferences (pod_meta pod)))]
  | _ => []
  end.

Fixpoint pods_of_keys (keys : list string) (result : list Pod) : go (list Pod + error) :=
  match keys with
  | [] => mret (inl result)
  | key :: keys =>
      r ← call (PodIndexerByIndex key);
      match r with
      | inr err => mret (inr err)
      | inl pods => pods_of_keys keys (result ++ pods)
      end
  end.

Definition FilterPodsByOwner (owner : ObjectMeta) (ownerKind : string) (includeOrphanedPods : bool)
    : go (list Pod + error) :=
  if bool_decide (Namespace owner = "") then mret (inr (Errorf "no owner namespace provided" None))
  else if bool_decide (Name owner = "") then mret (inr (Errorf "no owner name provided" None))
  else if bool_decide (UID owner = "") then mret (inr (Errorf "no owner uid provided" None))
  else if bool_decide (ownerKind = "") then mret (inr (Errorf "no owner kind provided" None))
  else
    let ref := {| or_APIVersion := ""; or_Kind := ownerKind; or_Name := Name owner;
                  or_UID := UID owner; or_Controller := None; or_BlockOwnerDeletion := None |} in
    pods_of_keys
      (PodControllerIndexKey (Namespace owner) (Some ref) ::
       (if includeOrphanedPods then [PodControllerIndexKey (Namespace owner) None] else []))
      [].

(** ** Which sets a pod concerns *)

(** [GetPodStatefulSets]: the filter of its loop. *)
Definition selects (pod : Pod) (ps : XStatefulSet) : bool :=
  bool_decide (Namespace (set_meta ps) = Namespace (pod_meta pod)) &&
  match LabelSelectorAsSelector (Selector (Spec ps)) with
  | inr _ => false
  | inl sel => negb (SelectorEmpty sel) && Matches sel (Labels (pod_meta pod))
  end.

Definition GetPodStatefulSets (pod : Pod) : go (list XStatefulSet + error) :=
  if bool_decide (default ∅ (Labels (pod_meta pod)) = ∅)
  then mret (inr (Errorf ("no StatefulSets found for pod " +:+ Name (pod_meta pod)
                          +:+ " because it has no labels") None))
  else
    r ← call (SetListerList (Namespace (pod_meta pod)));
    match r with
    | inr err => mret (inr err)
    | inl sets =>
        let psList := List.filter (selects pod) sets in
        match psList with
        | [] => mret (inr (Errorf ("could not find StatefulSet for pod " +:+ Name (pod_meta pod)
                                   +:+ " in namespace " +:+ Namespace (pod_meta pod)) None))
        | _ => mret (inl psList)
        end
    end.

Definition getStatefulSetsForPod (pod : Pod) : go (list XStatefulSet) :=
  r ← GetPodStatefulSets pod;
  mret (match r with inl sets => sets | inr _ => [] end).

Definition resolveControllerRef (namespace : string) (controllerRef : OwnerReference)
    : go (option XStatefulSet) :=
  if bool_decide (or_Kind controllerRef ≠ gvk_Kind controllerKind) then mret None
  else
    r ← call (SetListerGet namespace (or_Name controllerRef));
    match r with
    | inr _ => mret None
    | inl set =>
        if bool_decide (UID (set_meta set) ≠ or_UID controllerRef) then mret None
        else mret (Some set)
    end.

(** ** The work queue *)

Definition enqueueStatefulSet (obj : event_object) : go unit :=
  match KeyFunc obj with
  | inr _ => mret tt
  | inl key => call (QueueAdd key)
  end.

Definition enqueueSSAfter (ss : XStatefulSet) (duration : Z) : go unit :=
  match KeyFunc (ObjSet ss) with
  | inr _ => mret tt
  | inl key => call (QueueAddAfter key duration)
  end.

Fixpoint enqueue_all (sets : list XStatefulSet) : go unit :=
  match sets with
  | [] => mret tt
  | set :: sets => enqueueStatefulSet (ObjSet set);; enqueue_all sets
  end.

(** ** Pod handlers *)

Definition as_pod (obj : event_object) : option Pod :=
  match obj with ObjPod pod => Some pod | _ => None end.

(** The pod of [deletePod]'s argument, which may be a tombstone. *)
Definition deleted_pod (obj : event_object) : option Pod :=
  match obj with
  | ObjPod pod => Some pod
  | Tombstone _ obj => as_pod obj
  | _ => None
  end.

Definition deletePod (obj : event_object) : go unit :=
  match deleted_pod obj with
  | None => mret tt
  | Some pod =>
      match GetControllerOf (OwnerReferences (pod_meta pod)) with
      | None => mret tt
      | Some controllerRef =>
          set ← resolveControllerRef (Namespace (pod_meta pod)) controllerRef;
          match set with
          | None => mret tt
          | Some set => enqueueStatefulSet (ObjSet set)
          end
      end
  end.

Definition addPod (obj : event_object) : go unit :=
  pod ← deref (as_pod obj);
  if bool_decide (DeletionTimestamp (pod_meta pod) ≠ None) then deletePod (ObjPod pod)
  else
    match GetControllerOf (OwnerReferences (pod_meta pod)) with
    | Some controllerRef =>
        set ← resolveControllerRef (Namespace (pod_meta pod)) controllerRef;
        match set with
        | None => mret tt
        | Some set => enqueueStatefulSet (ObjSet set)
        end
    | None =>
        sets ← getStatefulSetsForPod pod;
        enqueue_all sets
    end.

Definition updatePod (old cur : event_object) : go unit :=
  curPod ← deref (as_pod cur);
  oldPod ← deref (as_pod old);
  if bool_decide (ResourceVersion (pod_meta curPod) = ResourceVersion (pod_meta oldPod)) then mret tt
  else
    let labelChanged := bool_decide (Labels (pod_meta curPod) ≠ Labels (pod_meta oldPod)) in
    let curControllerRef := GetControllerOf (OwnerReferences (pod_meta curPod)) in
    let oldControllerRef := GetControllerOf (OwnerReferences (pod_meta oldPod)) in
    let controllerRefChanged := bool_decide (curControllerRef ≠ oldControllerRef) in
    (match oldControllerRef with
     | Some ref =>
         if controllerRefChanged then
           set ← resolveControllerRef (Namespace (pod_meta oldPod)) ref;
           match set with
           | Some set => enqueueStatefulSet (ObjSet set)
           | None => mret tt
           end
         else mret tt
     | None => mret tt
     end);;
    match curControllerRef with
    | Some ref =>
        set ← resolveControllerRef (Namespace (pod_meta curPod)) ref;
        match set with
        | None => mret tt
        | Some set =>
            enqueueStatefulSet (ObjSet set);;
            if negb (IsPodReady oldPod) && IsPodReady curPod && (0 <? MinReadySeconds (Spec set))
            then enqueueSSAfter set (wrap64 (wrap64 (MinReadySeconds (Spec set) * second) + second))
            else mret tt
        end
    | None =>
        if labelChanged || controllerRefChanged then
          sets ← getStatefulSetsForPod curPod;
          enqueue_all sets
        else mret tt
    end.

(** ** The handlers registered by [NewStatefulSetController] *)

Inductive event :=
| PodAdded (obj : event_object)
| PodUpdated (old cur : event_object)
| PodDeleted (obj : event_object)
| SetAdded (obj : event_object)
| SetUpdated (old cur : event_object)
| SetDeleted (obj : event_object).

Definition as_set (obj : event_object) : option XStatefulSet :=
  match obj with ObjSet set => Some set | _ => None end.

Definition handle (e : event) : go unit :=
  match e with
  | PodAdded obj => addPod obj
  | PodUpdated old cur => updatePod old cur
  | PodDeleted obj => deletePod obj
  | SetAdded obj | SetDeleted obj => enqueueStatefulSet obj
  | SetUpdated old cur =>
      _ ← deref (as_set old);
      _ ← deref (as_set cur);
      enqueueStatefulSet cur
  end.

(** ** Synchronisation *)

Definition canAdoptFunc (set : XStatefulSet) : go (option error) :=
  RecheckDeletionTimestamp
    (r ← call (SetsGet (Namespace (set_meta set)) (Name (set_meta set)));
     match r with
     | inr err => mret (inr err)
     | inl fresh =>
         if bool_decide (UID (set_meta fresh) ≠ UID (set_meta set))
         then mret (inr (Errorf ("original StatefulSet " +:+ Namespace (set_meta set) +:+ "/"
                                 +:+ Name (set_meta set) +:+ " is gone: got uid "
                                 +:+ UID (set_meta fresh) +:+ ", wanted " +:+ UID (set_meta set)) None))
         else mret (inl (set_meta fresh))
     end).

Definition getPodsForStatefulSet (set : XStatefulSet) (sel : selector)
    : go (list Pod * option error) :=
  r ← FilterPodsByOwner (set_meta set) (gvk_Kind controllerKind) true;
  match r with
  | inr err => mret ([], Some err)
  | inl podsForSts =>
      ClaimPods (NewPodControllerRefManager (set_meta set) sel (Some (canAdoptFunc set)))
        controllerKind [] podsForSts [isMemberOf set]
  end.

Definition adoptOrphanRevisions (set : XStatefulSet) : go (option error) :=
  r ← ListRevisions set;
  match r with
  | inr err => mret (Some err)
  | inl revisions =>
      let orphanRevisions :=
        List.filter (λ r : Rev, negb (not_nil (GetControllerOf (OwnerReferences (cr_meta r))))) revisions in
      if 0 <? Z.of_nat (length orphanRevisions) then
        canAdoptErr ← canAdoptFunc set;
        match canAdoptErr with
        | Some err => mret (Some (Errorf ("can't adopt ControllerRevisions: " +:+ Error err) None))
        | None =>
            '(_, err) ← AdoptOrphanRevisions set orphanRevisions;
            mret err
        end
      else mret None
  end.

(** [None]: the fuel of revision creation ran out. *)
Definition syncStatefulSet (fuel : nat) (set : XStatefulSet) (pods : list Pod)
    : go (option (option error)) :=
  r ← UpdateStatefulSet fuel set pods;
  match r with
  | None => mret None
  | Some (_, Some err) => mret (Some (Some err))
  | Some (status, None) =>
      (if 0 <? MinReadySeconds (Spec set) then
         match status with
         | Some status =>
             replicas ← deref (Replicas (Spec set));
             if bool_decide (AvailableReplicas status ≠ replicas)
             then enqueueSSAfter set (wrap64 (MinReadySeconds (Spec set) * second))
             else mret tt
         | None => mret tt
         end
       else mret tt);;
      mret (Some None)
  end.

Definition sync (fuel : nat) (key : string) : go (option (option error)) :=
  match SplitMetaNamespaceKey key with
  | inr err => mret (Some (Some err))
  | inl (namespace, name) =>
      r ← call (SetListerGet namespace name);
      match r with
      | inr err => mret (Some (if IsNotFound err then None else Some err))
      | inl set =>
          match LabelSelectorAsSelector (Selector (Spec set)) with
          | inr _ => mret (Some None)
          | inl sel =>
              let set := Scheme_Default set in
              err ← adoptOrphanRevisions set;
              match err with
              | Some err => mret (Some (Some err))
              | None =>
                  '(pods, err) ← getPodsForStatefulSet set sel;
                  match err with
                  | Some err => mret (Some (Some err))
                  | None => syncStatefulSet fuel set pods
                  end
              end
          end
      end
  end.

(** ** Workers *)

Definition processNextWorkItem (fuel : nat) : go (option bool) :=
  r ← call QueueGet;
  match r with
  | None => mret (Some false)
  | Some key =>
      r ← sync fuel key;
      match r with
      | None => mret None
      | Some err =>
          (match err with
           | Some _ => call (QueueAddRateLimited key)
           | None => call (QueueForget key)
           end);;
          call (QueueDone key);;
          mret (Some true)
      end
  end.

(** The first [n] iterations of [worker]'s loop: [true] when the queue was shut down. *)
Fixpoint worker (n fuel : nat) : go (option bool) :=
  match n with
  | O => mret (Some false)
  | S n =>
      r ← processNextWorkItem fuel;
      match r with
      | None => mret None
      | Some true => worker n fuel
      | Some false => mret (Some true)
      end
  end.
End controller.
