(* ===== verification/ControllerProps.v ===== *)
(** * Properties of the controller: adoption, the work queue, the pod index *)
From S2P Require Export Controller.

(** ** The calls of a synchronisation *)

Section core.
Context `{K8s} `{GoRuntime} `{!ClientGo}.
#[local] Existing Instance realHistory.

(** What [updateStatefulSet] may call at all: pods, claims, the clock, events. *)
Definition pod_io (e : api_call) : Prop :=
  match e with
  | Now | Choose | PodsCreate _ _ | PodsUpdate _ _ | PodsDelete _ _ | PodListerGet _ _
  | RecordEvent _ _ _ _ | MetricSet _ _ _ => True
  | _ => claim_io e
  end.

(** What [UpdateStatefulSet] may call at all: no patch, no work queue. *)
Definition core_io (e : api_call) : Prop :=
  match e with
  | PodsPatch _ _ _ | RevisionsPatch _ _ _ | ReplicaSetsPatch _ _ _ | PodIndexerByIndex _
  | SetsGet _ _ | SetListerList _ | QueueGet | QueueAdd _ | QueueAddAfter _ _
  | QueueAddRateLimited _ | QueueForget _ | QueueDone _ => False
  | _ => True
  end.

Lemma set_io_core {A} (p : go A) : calls set_io p → calls core_io p.
Proof. apply calls_weaken. by intros []. Qed.

Create HintDb core_calls.
Ltac core := calls; first [exact I | solve [eauto with core_calls]].

Lemma recordPodEvent_calls v set pod err : calls pod_io (recordPodEvent v set pod err).
Proof. unfold recordPodEvent. core. Qed.
Lemma recordClaimEvent_calls v set pod c err : calls pod_io (recordClaimEvent v set pod c err).
Proof. unfold recordClaimEvent. core. Qed.
#[local] Hint Resolve recordPodEvent_calls recordClaimEvent_calls : core_calls.

Lemma createClaims_calls set pod cs errs : calls pod_io (createClaims set pod cs errs).
Proof.
  revert errs. induction cs as [|[n c] cs IH]; intros errs; cbn [createClaims];
    unfold createPersistentVolumeClaim, GetClaim, CreateClaim; core.
Qed.
Lemma claims_match_calls set pod ts : calls pod_io (claims_match set pod ts).
Proof. induction ts as [|t ts IH]; cbn [claims_match]; unfold GetClaim; core. Qed.
Lemma update_claims_calls set pod ts : calls pod_io (update_claims set pod ts).
Proof.
  induction ts as [|t ts IH]; cbn [update_claims]; unfold GetClaim, update_claim, UpdateClaim; core.
Qed.
Lemma stale_claim_calls pod cs : calls pod_io (stale_claim pod cs).
Proof. induction cs as [|[n c] cs IH]; cbn [stale_claim]; unfold GetClaim; core. Qed.
#[local] Hint Resolve createClaims_calls claims_match_calls update_claims_calls stale_claim_calls : core_calls.

Lemma createPersistentVolumeClaims_calls set pod : calls pod_io (createPersistentVolumeClaims set pod).
Proof. unfold createPersistentVolumeClaims. core. Qed.
#[local] Hint Resolve createPersistentVolumeClaims_calls : core_calls.

Lemma CreateStatefulPod_calls set pod : calls pod_io (CreateStatefulPod set pod).
Proof. unfold CreateStatefulPod, UpdatePodClaimForRetentionPolicy, CreatePod. core. Qed.
Lemma UpdateStatefulPod_calls set pod : calls pod_io (UpdateStatefulPod set pod).
Proof.
  unfold UpdateStatefulPod, update_pod_attempt, commit_pod, ClaimsMatchRetentionPolicy,
    UpdatePodClaimForRetentionPolicy, UpdatePod, GetPod. core.
Qed.
Lemma DeleteStatefulPod_calls set pod : calls pod_io (DeleteStatefulPod set pod).
Proof. unfold DeleteStatefulPod, DeletePod. core. Qed.
#[local] Hint Resolve CreateStatefulPod_calls UpdateStatefulPod_calls DeleteStatefulPod_calls : core_calls.

Lemma processReplica_calls set updateSet m pods i :
  calls pod_io (processReplica set updateSet m pods i).
Proof.
  unfold processReplica, index, PodClaimIsStale, createMissingPersistentVolumeClaims,
    ClaimsMatchRetentionPolicy, UpdatePodClaimForRetentionPolicy. core.
Qed.
Lemma processCondemned_calls set first m pods i : calls pod_io (processCondemned set first m pods i).
Proof. unfold processCondemned, index. core. Qed.
Lemma fixPodClaim_calls updateSet pods i : calls pod_io (fixPodClaim updateSet pods i).
Proof. unfold fixPodClaim, index, ClaimsMatchRetentionPolicy, UpdatePodClaimForRetentionPolicy. core. Qed.
#[local] Hint Resolve processReplica_calls processCondemned_calls fixPodClaim_calls : core_calls.

Lemma runForAll_calls (pods : list Pod) fn m :
  (∀ i, calls pod_io (fn i)) → calls pod_io (runForAll pods fn m).
Proof.
  intros Hfn. unfold runForAll, slowStartBatch. destruct m.
  - induction (seqZ 0 _) as [|i js IH]; cbn [for_all]; core.
  - apply calls_bind; [|intros [? [?|]]; core].
    generalize 0 at 2 as succ. generalize 0 at 1 as j. generalize (Z.of_nat (length pods)) at 2 3 as rem.
    intros rem. generalize (Z.min rem 1) as b. revert rem.
    induction (Z.to_nat _) as [|fuel IH]; intros rem b j succ; cbn [slowStart_loop]; [core|].
    calls; [|apply IH]. apply calls_par; [exact I|].
    intros p (k & -> & _)%list_elem_of_fmap. core.
Qed.

Lemma update_one_calls set pods upd st ts : calls pod_io (update_one set pods upd st ts).
Proof. induction ts as [|t ts IH]; cbn [update_one]; unfold index; core. Qed.
Lemma update_many_calls set pods upd n d st ts : calls pod_io (update_many set pods upd n d st ts).
Proof. revert d st. induction ts as [|t ts IH]; intros d st; cbn [update_many]; unfold index; core. Qed.
Lemma count_unavailable_calls n pods u : calls pod_io (count_unavailable n pods u).
Proof. revert u. induction pods as [|p pods IH]; intros u; cbn [count_unavailable]; core. Qed.
Lemma updateStatus_pod st n cur upd lists : calls pod_io (updateStatus st n cur upd lists).
Proof. by apply updateStatus_calls. Qed.
#[local] Hint Resolve update_one_calls update_many_calls count_unavailable_calls updateStatus_pod : core_calls.

Lemma act_on_pods_calls set updateSet cur upd st reps conds first :
  calls pod_io (act_on_pods set updateSet cur upd st reps conds first).
Proof.
  unfold act_on_pods, updateStatefulSetAfterInvariantEstablished, rolling_parameters.
  calls; first [exact I | solve [eauto with core_calls]
               | apply runForAll_calls; intros; solve [eauto with core_calls]].
Qed.

Lemma updateStatefulSet_calls set cur upd c pods : calls pod_io (updateStatefulSet set cur upd c pods).
Proof.
  unfold updateStatefulSet.
  calls; first [exact I|apply act_on_pods_calls|by apply updateStatus_calls|apply arrange_pods_calls
               |by apply find_unavailable_calls].
Qed.

Lemma UpdateStatefulSet_calls fuel set pods : calls core_io (UpdateStatefulSet fuel set pods).
Proof.
  unfold UpdateStatefulSet, ListRevisions, ListControllerRevisions, realHistory,
    real_ListControllerRevisions, performUpdate.
  calls; first [exact I|apply (calls_weaken pod_io); [by intros []|apply updateStatefulSet_calls]|apply set_io_core];
    first [apply getStatefulSetRevisions_calls|apply updateStatefulSetStatus_calls|apply truncateHistory_calls].
Qed.
End core.

(** ** Adoption *)

Section adoption.
Context `{K8s} `{GoRuntime} `{!ClientGo}.
#[local] Existing Instance realHistory.

(** The API server has answered an uncached read with a live set of that UID. *)
Definition rechecked (uid : string) (tr : list (obs reply)) : Prop :=
  ∃ ns name fresh, existT (SetsGet ns name) (inl fresh : reply (SetsGet ns name)) ∈ tr ∧
    UID (set_meta fresh) = uid ∧ DeletionTimestamp (set_meta fresh) = None.

(** Owner references are only added for a set that was re-read. *)
Definition adopts_rechecked (tr : list (obs reply)) (e : api_call) : Prop :=
  match e with
  | PodsPatch _ _ (AddOwnerRefPatch _ refs _) | RevisionsPatch _ _ (AddOwnerRefPatch _ refs _)
  | ReplicaSetsPatch _ _ (AddOwnerRefPatch _ refs _) => Forall (λ r, rechecked (or_UID r) tr) refs
  | _ => True
  end.

Notation wpa := (wp (λ _, True) adopts_rechecked).

Lemma rechecked_app uid tr tr' : rechecked uid tr → rechecked uid (tr ++ tr').
Proof.
  intros (ns & name & fresh & Hin & ?). exists ns, name, fresh. split; [|done].
  apply elem_of_app. by left.
Qed.

Lemma core_adopts {A} (p : go A) tr : calls core_io p → wpa p (λ _ _, True) tr.
Proof. intros Hp. eapply (wp_weaken (λ _, True) _ (λ _, core_io)); [done|by intros ? []|apply Hp]. Qed.

Lemma canAdoptFunc_wp set tr :
  wpa (canAdoptFunc set)
    (λ tr' o, ∃ err, o = Some err ∧ (err = None → rechecked (UID (set_meta set)) tr')) tr.
Proof.
  unfold canAdoptFunc, RecheckDeletionTimestamp. apply wp_bind_2, wp_call_bind; [done|].
  intros [fresh|e] _; [|apply wp_ret, wp_ret; by eexists].
  dec (UID (set_meta fresh) = UID (set_meta set)) as Hu;
    [rewrite bool_decide_eq_false_2 by auto|rewrite bool_decide_eq_true_2 by done; apply wp_ret, wp_ret; by eexists].
  apply wp_ret. dec (DeletionTimestamp (set_meta fresh) = None) as Hd;
    [rewrite bool_decide_eq_false_2 by auto|rewrite bool_decide_eq_true_2 by done; apply wp_ret; by eexists].
  apply wp_ret. exists None. split; [done|]. intros _.
  eexists _, _, fresh. split; [apply elem_of_app; right; left|done].
Qed.

Lemma AdoptOrphanRevisions_wp set revisions tr :
  rechecked (UID (set_meta set)) tr → wpa (AdoptOrphanRevisions set revisions) (λ _ _, True) tr.
Proof.
  revert tr. induction revisions as [|r revisions IH]; intros tr Hre; cbn [AdoptOrphanRevisions]; [done|].
  unfold AdoptControllerRevision, realHistory, real_AdoptControllerRevision. apply wp_bind_2.
  destruct (GetControllerOf _); [by apply wp_ret, wp_ret|].
  refine (wp_call _ _ (RevisionsPatch _ _ _) _ _ _ _); [by repeat constructor|].
  intros [adopted|e] _; [|by apply wp_ret]. apply wp_bind_2. eapply wp_mono; [|apply IH, rechecked_app, Hre]. by intros tr' [[? ?]|] _.
Qed.

Lemma adoptOrphanRevisions_wp set tr : wpa (adoptOrphanRevisions set) (λ _ _, True) tr.
Proof.
  unfold adoptOrphanRevisions. apply wp_bind_2. eapply wp_mono; [|apply core_adopts].
  2:{ unfold ListRevisions, ListControllerRevisions, realHistory, real_ListControllerRevisions. by calls. }
  intros tr' [[revisions|e]|] _; [|by apply wp_ret|done]. destruct (0 <? _); [|by apply wp_ret].
  apply wp_bind_2. eapply wp_mono; [|apply canAdoptFunc_wp].
  intros tr2 o (err & -> & Herr). destruct err as [e|]; [by apply wp_ret|].
  apply wp_bind_2. eapply wp_mono; [|by apply AdoptOrphanRevisions_wp, Herr]. by intros tr3 [[? ?]|] _.
Qed.

Lemma pods_of_keys_wp keys acc tr :
  wpa (pods_of_keys keys acc) (λ _ o, is_Some o) tr.
Proof.
  revert acc tr. induction keys as [|key keys IH]; intros acc tr; cbn [pods_of_keys]; [by apply wp_ret|].
  apply wp_call_bind; [done|]. intros [pods|e] _; [apply IH|by apply wp_ret].
Qed.

(** What is known between two adoptions: a cached success comes from a re-read. *)
Definition once_ok (uid : string) (once : canAdoptOnce) (tr : list (obs reply)) : Prop :=
  once = Some None → rechecked uid tr.

Lemma CanAdopt_wp set sel once tr :
  once_ok (UID (set_meta set)) once tr →
  wpa (CanAdopt {| Controller := set_meta set; m_Selector := sel;
                   CanAdoptFunc := Some (canAdoptFunc set) |} once)
    (λ tr' o, ∃ r, o = Some r ∧ (r.1 = None → rechecked (UID (set_meta set)) tr') ∧
              once_ok (UID (set_meta set)) r.2 tr') tr.
Proof.
  intros Hre. unfold CanAdopt. destruct once as [e|].
  { apply wp_ret. eexists. split_and!; [done| |done]. simpl. intros ->. by apply Hre. }
  apply wp_bind_2. eapply wp_mono; [|apply canAdoptFunc_wp].
  intros tr' o (err & -> & Herr). apply wp_ret. eexists. split_and!; [done|done|].
  intros [= ->]. by apply Herr.
Qed.

Lemma getPodsForStatefulSet_wp set sel tr : wpa (getPodsForStatefulSet set sel) (λ _ _, True) tr.
Proof.
  unfold getPodsForStatefulSet. apply wp_bind_2.
  assert (wpa (FilterPodsByOwner (set_meta set) (gvk_Kind controllerKind) true) (λ _ o, is_Some o) tr) as Hf.
  { unfold FilterPodsByOwner. repeat case_bool_decide; try (by apply wp_ret). apply pods_of_keys_wp. }
  eapply wp_mono; [|exact Hf]. intros tr' [[pods|e]|] _; [|by apply wp_ret|done].
  unfold ClaimPods, NewPodControllerRefManager. set (m := {| Controller := _ |}).
  eapply wp_mono; [|apply (claim_loop_wp m (pod_match m [isMemberOf set]) (λ _, True) adopts_rechecked
    (once_ok (UID (set_meta set))) _ _ pods); try done].
  - done.
  - intros pod once tr2 _ _ Hre. unfold AdoptPod.
    apply wp_bind_2. eapply wp_mono; [|by apply CanAdopt_wp].
    intros tr3 o ([[e|] once'] & -> & Hnone & Honce); [apply wp_ret; by eexists|].
    apply wp_call_bind; [by repeat constructor; apply Hnone|].
    intros r _. apply wp_ret. eexists. split; [done|]. intros Ho. by apply rechecked_app, Honce.
  - intros pod once tr2 _ _ Hre. unfold ReleasePod. apply wp_call_bind; [done|].
    intros r _. apply wp_ret. eexists. split; [done|]. intros Ho. by apply rechecked_app, Hre.
Qed.

(** C16: over a whole synchronisation, whatever the answers of the API server,
    an owner reference is added to a pod or a revision only after an uncached
    read has returned the set, with the UID the reference carries and no
    deletion timestamp. *)
Theorem sync_adopts_after_recheck fuel key :
  wp (λ _, True) adopts_rechecked (sync fuel key) (λ _ _, True) [].
Proof.
  unfold sync. destruct (SplitMetaNamespaceKey key) as [[ns name]|e]; [|by apply wp_ret].
  apply wp_call_bind; [done|]. intros [set|e] _; [|by apply wp_ret].
  destruct (LabelSelectorAsSelector _) as [sel|e]; [|by apply wp_ret]. cbv zeta.
  apply wp_bind_2. eapply wp_mono; [|apply adoptOrphanRevisions_wp].
  intros tr [[e|]|] _; [by apply wp_ret| |done].
  apply wp_bind_2. eapply wp_mono; [|apply getPodsForStatefulSet_wp].
  intros tr2 [[pods [e|]]|] _; [by apply wp_ret| |done].
  unfold syncStatefulSet. apply wp_bind_2. eapply wp_mono; [|apply core_adopts, UpdateStatefulSet_calls].
  intros tr3 [[[st [e|]]|]|] _; try (by apply wp_ret); [|done].
  apply wp_bind_2. destruct (0 <? _); [|by apply wp_ret, wp_ret].
  destruct st as [st|]; [|by apply wp_ret, wp_ret].
  apply wp_bind_2, wp_deref. destruct (Replicas _) as [r|]; [|done].
  unfold enqueueSSAfter. destruct (bool_decide _); [|by apply wp_ret, wp_ret].
  destruct (KeyFunc _); [|by apply wp_ret, wp_ret].
  refine (wp_call _ _ (QueueAddAfter _ _) _ _ _ _); [done|]. intros; by apply wp_ret.
Qed.
End adoption.

(** ** The work queue *)

Section queue.
Context `{K8s} `{GoRuntime} `{!ClientGo}.
#[local] Existing Instance realHistory.

(** Calls that neither take a key from the queue nor settle one. *)
Definition no_settling (e : api_call) : Prop :=
  match e with
  | QueueGet | QueueAdd _ | QueueAddRateLimited _ | QueueForget _ | QueueDone _ => False
  | _ => True
  end.

Lemma core_no_settling {A} (p : go A) : calls core_io p → calls no_settling p.
Proof. apply calls_weaken. by intros []. Qed.

Lemma claim_loop_calls `{Object A} P m (matches : A → bool) adopt release objs once claimed errs :
  (∀ x once, calls P (adopt x once)) → (∀ x once, calls P (release x once)) →
  calls P (claim_loop m matches adopt release objs once claimed errs).
Proof.
  intros Had Hrel. revert once claimed errs. induction objs as [|x objs IH]; intros once claimed errs;
    cbn [claim_loop]; [apply calls_ret|]. unfold ClaimObject. calls; first [apply Had|apply Hrel|apply IH].
Qed.

Lemma pods_of_keys_calls P keys acc :
  (∀ key, P (PodIndexerByIndex key)) → calls P (pods_of_keys keys acc).
Proof.
  intros HP. revert acc. induction keys as [|key keys IH]; intros acc; cbn [pods_of_keys];
    calls; [done|apply IH].
Qed.

Lemma AdoptOrphanRevisions_calls set revisions : calls no_settling (AdoptOrphanRevisions set revisions).
Proof.
  induction revisions as [|r revisions IH]; cbn [AdoptOrphanRevisions];
    unfold AdoptControllerRevision, realHistory, real_AdoptControllerRevision in *; calls; first [done|apply IH].
Qed.

Lemma canAdoptFunc_calls set : calls no_settling (canAdoptFunc set).
Proof. unfold canAdoptFunc, RecheckDeletionTimestamp. by calls. Qed.

Lemma sync_calls fuel key : calls no_settling (sync fuel key).
Proof.
  unfold sync, adoptOrphanRevisions, getPodsForStatefulSet, syncStatefulSet, enqueueSSAfter, ListRevisions,
    ListControllerRevisions, realHistory, real_ListControllerRevisions, FilterPodsByOwner, ClaimPods, NewPodControllerRefManager.
  calls; try exact I.
  all: first [apply canAdoptFunc_calls|apply AdoptOrphanRevisions_calls|by apply pods_of_keys_calls
             |apply core_no_settling, UpdateStatefulSet_calls|apply claim_loop_calls]; intros pod once.
  - unfold AdoptPod, CanAdopt, NewPodControllerRefManager. cbn [CanAdoptFunc]. calls; first [exact I|apply canAdoptFunc_calls].
  - unfold ReleasePod. by calls.
Qed.

(** A worker that takes a key runs its synchronisation to the end and then
    settles the key exactly once: it is put back with a back-off when the
    synchronisation failed and forgotten when it succeeded, and in both cases
    marked done; the synchronisation itself neither takes nor settles a key. *)
Lemma processNextWorkItem_settles fuel tr o :
  runs (processNextWorkItem fuel) tr (Some (Some o)) →
  (o = false ∧ tr = [existT QueueGet (None : reply QueueGet)]) ∨
  (o = true ∧ ∃ key mid err,
     runs (sync fuel key) mid (Some (Some err)) ∧ Forall (λ x, no_settling (projT1 x)) mid ∧
     tr = existT QueueGet (Some key : reply QueueGet) :: mid ++
          [match err with
           | Some _ => existT (QueueAddRateLimited key) tt
           | None => existT (QueueForget key) tt
           end; existT (QueueDone key) tt]).
Proof.
  unfold processNextWorkItem. intros (r & tr' & -> & Hr). destruct r as [key|].
  2:{ destruct Hr as [-> [= <-]]. by left. }
  change (runs (r ← sync fuel key;
    match r with
    | None => mret None
    | Some err =>
        (match err with
         | Some _ => call (QueueAddRateLimited key)
         | None => call (QueueForget key)
         end);;
        call (QueueDone key);;
        mret (Some true)
    end) tr' (Some (Some o))) in Hr.
  apply runs_bind in Hr as (r & mid & tr2 & -> & Hsync & Hr).
  destruct r as [err|]; [|by destruct Hr]. right.
  apply runs_bind in Hr as ([] & tr3 & tr4 & -> & Hset & Hr).
  assert (tr3 = [match err with
                 | Some _ => existT (QueueAddRateLimited key) tt
                 | None => existT (QueueForget key) tt
                 end]) as ->.
  { destruct err as [e|]; destruct Hset as ([] & ? & -> & -> & _); reflexivity. }
  destruct Hr as ([] & tr5 & -> & -> & [= <-]). split; [done|]. exists key, mid, err.
  split_and!; [done| |done]. eapply calls_runs; [apply sync_calls|done].
Qed.
End queue.

(** ** Events *)

Section events.
Context `{K8sLaws} `{GoRuntime} `{!ClientGo}.
(** The contents of the sets' cache. *)
Context (cached : string → string → XStatefulSet + error) (listed : string → list XStatefulSet).

Definition from_cache (o : obs reply) : Prop :=
  match o with
  | existT (SetListerGet ns name) r => r = cached ns name
  | existT (SetListerList ns) r => r = inl (listed ns)
  | _ => True
  end.

Definition handler_call (e : api_call) : Prop :=
  match e with
  | SetListerGet _ _ | SetListerList _ | QueueAdd _ | QueueAddAfter _ _ => True
  | _ => False
  end.

(** [set] is in the cache and is the controller of [pod]. *)
Definition controls (set : XStatefulSet) (pod : Pod) : Prop :=
  ∃ ref, GetControllerOf (OwnerReferences (pod_meta pod)) = Some ref ∧
    or_Kind ref = "XStatefulSet" ∧
    cached (Namespace (pod_meta pod)) (or_Name ref) = inl set ∧ UID (set_meta set) = or_UID ref.

(** The pods an event is about: a relist, which repeats a resource version, is not news. *)
Inductive about : event → Pod → Prop :=
| about_added pod : about (PodAdded (ObjPod pod)) pod
| about_updated old cur pod :
    ResourceVersion (pod_meta cur) ≠ ResourceVersion (pod_meta old) →
    Namespace (pod_meta cur) = Namespace (pod_meta old) → pod = old ∨ pod = cur →
    about (PodUpdated (ObjPod old) (ObjPod cur)) pod
| about_deleted pod : about (PodDeleted (ObjPod pod)) pod
| about_tombstone key pod : about (PodDeleted (Tombstone key (ObjPod pod))) pod.

Definition enqueued (set : XStatefulSet) (tr : list (obs reply)) : Prop :=
  existT (QueueAdd (meta_key (set_meta set))) (tt : reply (QueueAdd _)) ∈ tr.

Lemma enqueued_app set tr tr' : enqueued set tr → enqueued set (tr ++ tr').
Proof. intros. apply elem_of_app. by left. Qed.

Notation wph := (wp from_cache (λ _, handler_call)).
(** Every execution of [p] that starts after [tr] ends with [set] enqueued. *)
Notation enqueues set p tr := (wph p (returns (λ tr' _, enqueued set tr')) tr).

Lemma enqueueStatefulSet_enq set tr : enqueues set (enqueueStatefulSet (ObjSet set)) tr.
Proof.
  unfold enqueueStatefulSet. rewrite KeyFunc_set.
  refine (wp_call _ _ (QueueAdd _) _ _ _ _); [done|]. intros [] _. eexists. split; [done|].
  apply elem_of_app. right. left.
Qed.

(** What is already enqueued stays enqueued whatever a handler does next. *)
Lemma enqueues_more {A} set (p : go A) tr :
  enqueued set tr → safe from_cache handler_call p (λ _, True) →
  enqueues set p tr.
Proof.
  intros Hin Hp. eapply wp_mono; [|apply (safe_trace _ _ _ _ tr Hp)].
  intros tr' o (a & -> & _ & new & -> & _). eexists. split; [done|]. by apply enqueued_app.
Qed.

Lemma resolve_safe ns ref : safe from_cache handler_call (resolveControllerRef ns ref) (λ _, True).
Proof.
  unfold resolveControllerRef. destruct (bool_decide _); [by apply safe_ret|].
  apply safe_seq; [by safe_call|]. intros [s|e]; [destruct (bool_decide _)|]; by apply safe_ret.
Qed.

Lemma enqueue_safe obj : safe from_cache handler_call (enqueueStatefulSet obj) (λ _, True).
Proof. unfold enqueueStatefulSet. destruct (KeyFunc obj); [by safe_call|by apply safe_ret]. Qed.

Lemma enqueue_all_safe sets : safe from_cache handler_call (enqueue_all sets) (λ _, True).
Proof.
  induction sets as [|s sets IH]; cbn [enqueue_all]; [by apply safe_ret|].
  apply safe_seq; [apply enqueue_safe|done].
Qed.

Lemma resolve_enq set ref ns (f : XStatefulSet → go unit) tr :
  or_Kind ref = gvk_Kind controllerKind → cached ns (or_Name ref) = inl set →
  UID (set_meta set) = or_UID ref →
  (∀ tr', enqueues set (f set) tr') →
  enqueues set (set ← resolveControllerRef ns ref; match set with None => mret tt | Some set => f set end) tr.
Proof.
  intros Hkind Hc Hu Hf. unfold resolveControllerRef.
  rewrite bool_decide_eq_false_2 by auto.
  apply wp_bind_2, wp_call_bind; [done|]. intros r Hr. simpl in Hr. rewrite Hr, Hc.
  rewrite bool_decide_eq_false_2 by auto. apply wp_ret, Hf.
Qed.

Lemma deletePod_enq set pod tr : controls set pod → enqueues set (deletePod (ObjPod pod)) tr.
Proof.
  intros (ref & Href & Hkind & Hc & Hu). unfold deletePod. cbn [deleted_pod]. rewrite Href.
  apply resolve_enq; try done. apply enqueueStatefulSet_enq.
Qed.

Lemma updatePod_tail_safe (set : XStatefulSet) (b : bool) d :
  safe from_cache handler_call (if b then enqueueSSAfter set d else mret tt) (λ _, True).
Proof.
  destruct b; [|by apply safe_ret]. unfold enqueueSSAfter.
  destruct (KeyFunc _); [by safe_call|by apply safe_ret].
Qed.

Lemma getStatefulSetsForPod_safe pod :
  safe from_cache handler_call (getStatefulSetsForPod pod) (λ _, True).
Proof.
  unfold getStatefulSetsForPod, GetPodStatefulSets. apply safe_seq; [|intros; by apply safe_ret].
  destruct (bool_decide _); [by apply safe_ret|]. apply safe_seq; [by safe_call|].
  intros [sets|e]; [destruct (List.filter _ _)|]; by apply safe_ret.
Qed.

Lemma resolve_then_safe ns ref (f : XStatefulSet → go unit) :
  (∀ set, safe from_cache handler_call (f set) (λ _, True)) →
  safe from_cache handler_call
    (set ← resolveControllerRef ns ref; match set with None => mret tt | Some set => f set end) (λ _, True).
Proof. intros Hf. apply safe_seq; [apply resolve_safe|]. intros [s|]; [apply Hf|by apply safe_ret]. Qed.

(** No event about a pod is lost on the set that controls it: the handlers
    put the set's key on the work queue, for a new pod, a deleted one (tombstones
    included), and both versions of an updated one. *)
Lemma handle_enqueues_controller e pod set :
  about e pod → controls set pod → enqueues set (handle e) [].
Proof.
  intros Habout Hctl. destruct Habout as [pod|o c pod Hrv Hns Hpod|pod|key pod]; cbn [handle].
  - unfold addPod. cbn [as_pod]. change (deref (Some pod) ≫= ?f) with (f pod). cbv beta.
    destruct (bool_decide _); [by apply deletePod_enq|].
    destruct Hctl as (ref & Href & Hkind & Hc & Hu). rewrite Href.
    apply resolve_enq; try done. apply enqueueStatefulSet_enq.
  - unfold updatePod. cbn [as_pod]. change (deref (Some c) ≫= ?f) with (f c). cbv beta.
    change (deref (Some o) ≫= ?f) with (f o). cbv beta zeta.
    rewrite bool_decide_eq_false_2 by done.
    assert (∀ set0 b d, safe from_cache handler_call
      (enqueueStatefulSet (ObjSet set0);; if b : bool then enqueueSSAfter set0 d else mret tt) (λ _, True)) as Htail.
    { intros. apply safe_seq; [apply enqueue_safe|]. intros _. apply updatePod_tail_safe. }
    assert (∀ set0 b d tr, enqueues set0
      (enqueueStatefulSet (ObjSet set0);; if b : bool then enqueueSSAfter set0 d else mret tt) tr) as Htail'.
    { intros. eapply wp_seq; [apply enqueueStatefulSet_enq|]. intros tr' [] Hin.
      by apply enqueues_more; [|apply updatePod_tail_safe]. }
    destruct Hctl as (ref & Href & Hkind & Hc & Hu).
    destruct (decide (GetControllerOf (OwnerReferences (pod_meta c)) =
                      GetControllerOf (OwnerReferences (pod_meta o)))) as [Heq|Hne].
    + rewrite (bool_decide_eq_false_2 (GetControllerOf (OwnerReferences (pod_meta c)) ≠ _)) by auto.
      assert (GetControllerOf (OwnerReferences (pod_meta c)) = Some ref) as Hrc by (destruct Hpod; congruence).
      rewrite <- Heq, Hrc. change (mret tt ≫= ?f) with (f tt). cbv beta.
      refine (resolve_enq _ ref _ (λ s, _) _ _ _ _ _); [done| |done|intros; apply Htail'].
      destruct Hpod as [->| ->]; [by rewrite Hns|done].
    + rewrite (bool_decide_eq_true_2 (GetControllerOf (OwnerReferences (pod_meta c)) ≠ _)) by done. destruct Hpod as [->| ->].
      * rewrite Href. eapply wp_seq; [apply resolve_enq; try done; apply enqueueStatefulSet_enq|].
        intros tr' [] Hin. apply enqueues_more; [done|].
        destruct (GetControllerOf (OwnerReferences (pod_meta c)));
          [refine (resolve_then_safe _ _ (λ s, _) _); intros; apply Htail|].
        destruct (_ || _); [|by apply safe_ret].
        apply safe_seq; [apply getStatefulSetsForPod_safe|]. intros; apply enqueue_all_safe.
      * rewrite Href. apply wp_bind_2. eapply wp_mono; [|apply (safe_trace _ _ _ (λ _, True))].
        -- intros tr' x (? & -> & _). by apply resolve_enq; [..|intros; apply Htail'].
        -- destruct (GetControllerOf (OwnerReferences (pod_meta o))); [|by apply safe_ret].
           apply resolve_then_safe. intros. apply enqueue_safe.
  - by apply deletePod_enq.
  - by apply (deletePod_enq set pod).
Qed.

(** [pod] has labels and no controller; [set] is in the cache, in the namespace of the
    pod, and has a selector, not empty, that matches the labels. *)
Definition may_adopt (set : XStatefulSet) (pod : Pod) : Prop :=
  GetControllerOf (OwnerReferences (pod_meta pod)) = None ∧
  default ∅ (Labels (pod_meta pod)) ≠ ∅ ∧
  set ∈ listed (Namespace (pod_meta pod)) ∧ Namespace (set_meta set) = Namespace (pod_meta pod) ∧
  ∃ sel, LabelSelectorAsSelector (Selector (Spec set)) = inl sel ∧ SelectorEmpty sel = false ∧
         Matches sel (Labels (pod_meta pod)) = true.

(** The events that can make an orphan adoptable: it appears, or its labels or
    its controller change. *)
Inductive orphan_news : event → Pod → Prop :=
| orphan_appears pod : DeletionTimestamp (pod_meta pod) = None → orphan_news (PodAdded (ObjPod pod)) pod
| orphan_changes old pod :
    ResourceVersion (pod_meta pod) ≠ ResourceVersion (pod_meta old) →
    Labels (pod_meta pod) ≠ Labels (pod_meta old) ∨ GetControllerOf (OwnerReferences (pod_meta old)) ≠ None →
    orphan_news (PodUpdated (ObjPod old) (ObjPod pod)) pod.

Lemma enqueue_all_enq set sets tr : set ∈ sets → enqueues set (enqueue_all sets) tr.
Proof.
  revert tr. induction sets as [|s sets IH]; intros tr; [by intros ?%not_elem_of_nil|].
  intros [<-|Hin]%elem_of_cons; cbn [enqueue_all].
  - eapply wp_seq; [apply enqueueStatefulSet_enq|]. intros tr' [] Hin.
    apply enqueues_more; [done|apply enqueue_all_safe].
  - apply wp_bind_2. eapply wp_mono; [|apply (safe_trace _ _ _ (λ _, True)), enqueue_safe].
    intros tr' o (? & -> & _). by apply IH.
Qed.

Lemma orphan_enq set pod tr :
  may_adopt set pod → enqueues set (sets ← getStatefulSetsForPod pod; enqueue_all sets) tr.
Proof.
  intros (_ & Hl & Hin & Hns & sel & Hsel & Hempty & Hm). unfold getStatefulSetsForPod, GetPodStatefulSets.
  rewrite bool_decide_eq_false_2 by done. apply wp_bind_2, wp_bind_2, wp_call_bind; [done|].
  intros r Hr. simpl in Hr. subst r.
  assert (set ∈ List.filter (selects pod) (listed (Namespace (pod_meta pod)))) as Hf.
  { apply list_elem_of_In, filter_In. rewrite <- list_elem_of_In. split; [done|].
    unfold selects. by rewrite bool_decide_eq_true_2, Hsel, Hempty, Hm. }
  destruct (List.filter _ _) as [|s sets]; [by apply not_elem_of_nil in Hf|].
  apply wp_ret, wp_ret. by apply enqueue_all_enq.
Qed.

(** No orphan is forgotten: when a pod without controller appears, or changes
    its labels or loses its controller, every cached set that selects it is put
    on the work queue and gets its chance to adopt it. *)
Lemma handle_enqueues_candidates e pod set :
  orphan_news e pod → may_adopt set pod → enqueues set (handle e) [].
Proof.
  intros Hnews Hmay. pose proof Hmay as (Hnone & _). destruct Hnews as [pod Hd|o pod Hrv Hchg]; cbn [handle].
  - unfold addPod. cbn [as_pod].
    change (deref (Some pod) ≫= ?f) with (f pod). cbv beta.
    rewrite bool_decide_eq_false_2 by auto. rewrite Hnone. by apply orphan_enq.
  - unfold updatePod. cbn [as_pod]. change (deref (Some pod) ≫= ?f) with (f pod). cbv beta.
    change (deref (Some o) ≫= ?f) with (f o). cbv beta zeta.
    rewrite bool_decide_eq_false_2 by done. rewrite Hnone.
    apply wp_bind_2. eapply wp_mono; [|apply (safe_trace _ _ _ (λ _, True))].
    + intros tr' x (? & -> & _). match goal with |- context [if ?b then _ else _] => assert (b = true) as -> end.
      { apply orb_true_iff. destruct Hchg as [?|?]; [left|right]; apply bool_decide_eq_true; auto. }
      by apply orphan_enq.
    + destruct (GetControllerOf (OwnerReferences (pod_meta o))); [|by apply safe_ret].
      destruct (bool_decide _); [|by apply safe_ret].
      apply resolve_then_safe. intros. apply enqueue_safe.
Qed.

(** The key a handler enqueues for a set is the key [sync] looks the set up
    by; a set that has gone from the cache meanwhile is settled without error
    and without any further call. *)
Theorem sync_of_enqueued_key `{!HistoryInterface} fuel set tr key :
  Namespace (set_meta set) ≠ "" → slash_free (Namespace (set_meta set)) →
  slash_free (Name (set_meta set)) →
  runs (enqueueStatefulSet (ObjSet set)) tr (Some tt) → tr = [existT (QueueAdd key) tt] →
  ∃ k, sync fuel key = Vis (SetListerGet (Namespace (set_meta set)) (Name (set_meta set))) k ∧
    ∀ err, IsNotFound err = true → k (inr err) = Ret (Some None).
Proof.
  intros Hns Hs1 Hs2 Hruns ->. unfold enqueueStatefulSet in Hruns. rewrite KeyFunc_set in Hruns.
  destruct Hruns as ([] & tr' & Heq & _).
  assert (key = meta_key (set_meta set)) as -> by congruence.
  unfold sync, meta_key. rewrite bool_decide_eq_false_2 by done.
  rewrite SplitMetaNamespaceKey_key by done. eexists. split; [reflexivity|].
  intros err Herr. cbn. by rewrite Herr.
Qed.
End events.

(** ** The pod index *)

Section index.
Context `{K8s}.
Context (store : list Pod).

(** The informer's indexer, over the pods of its store. *)
Definition indexed (o : obs reply) : Prop :=
  match o with
  | existT (PodIndexerByIndex key) r =>
      r = inl (List.filter (λ p, bool_decide (key ∈ PodControllerIndex (ObjPod p))) store)
  | _ => True
  end.

Definition controller_of (p : Pod) : option OwnerReference := GetControllerOf (OwnerReferences (pod_meta p)).

(** The parts of a pod's key that precede a ["/"] contain none. *)
Definition key_parts (p : Pod) : Prop :=
  slash_free (Namespace (pod_meta p)) ∧
  ∀ ref, controller_of p = Some ref → slash_free (or_Kind ref) ∧ slash_free (or_Name ref).

Definition is_owned (owner : ObjectMeta) (kind : string) (p : Pod) : bool :=
  bool_decide (Namespace (pod_meta p) = Namespace owner) &&
  match controller_of p with
  | Some ref => bool_decide (or_Kind ref = kind ∧ or_Name ref = Name owner ∧ or_UID ref = UID owner)
  | None => false
  end.
Definition is_orphan (owner : ObjectMeta) (p : Pod) : bool :=
  bool_decide (Namespace (pod_meta p) = Namespace owner) && negb (not_nil (controller_of p)).

Lemma slash_split_chars (a a' b b' : list ascii) :
  "/"%char ∉ a → "/"%char ∉ a' → a ++ "/"%char :: b = a' ++ "/"%char :: b' → a = a' ∧ b = b'.
Proof.
  revert a'. induction a as [|c a IH]; intros [|c' a'] Ha Ha' Heq.
  - by injection Heq.
  - destruct Ha'. injection Heq as <- _. left.
  - destruct Ha. injection Heq as -> _. left.
  - apply not_elem_of_cons in Ha as [_ Ha]. apply not_elem_of_cons in Ha' as [_ Ha'].
    injection Heq as -> Heq. by destruct (IH a' Ha Ha' Heq) as [-> ->].
Qed.

Lemma slash_split a a' b b' :
  slash_free a → slash_free a' → a +:+ "/" +:+ b = a' +:+ "/" +:+ b' ↔ a = a' ∧ b = b'.
Proof.
  intros Ha Ha'. split; [|by intros [-> ->]]. intros Heq%(f_equal chars).
  rewrite !chars_app in Heq. apply slash_split_chars in Heq as [H1 H2]; [|done..].
  split; by apply chars_inj.
Qed.

Lemma slash_inside a b c : slash_free a → a ≠ b +:+ "/" +:+ c.
Proof.
  intros Ha ->. apply Ha. change (String.list_ascii_of_string ?s) with (chars s).
  rewrite !chars_app. apply elem_of_app. right. left.
Qed.

Lemma owner_key_spec owner kind p api ctl blk :
  key_parts p → slash_free (Namespace owner) → slash_free kind → slash_free (Name owner) →
  bool_decide (PodControllerIndexKey (Namespace owner)
    (Some {| or_APIVersion := api; or_Kind := kind; or_Name := Name owner; or_UID := UID owner;
             or_Controller := ctl; or_BlockOwnerDeletion := blk |})
    ∈ PodControllerIndex (ObjPod p)) = is_owned owner kind p.
Proof.
  intros [Hns Href] Ho Hk Hn. apply bool_ext. unfold is_owned, PodControllerIndex.
  fold (controller_of p). rewrite bool_decide_eq_true, list_elem_of_singleton, andb_true_iff, bool_decide_eq_true.
  destruct (controller_of p) as [ref|]; cbn [PodControllerIndexKey or_Kind or_Name or_UID].
  - destruct (Href ref eq_refl) as [Hrk Hrn]. rewrite bool_decide_eq_true.
    rewrite !slash_split by done. intuition congruence.
  - split; [|by intros [_ ?]]. intros Heq. by apply eq_sym, slash_inside in Heq.
Qed.

Lemma orphan_key_spec owner p :
  key_parts p → slash_free (Namespace owner) →
  bool_decide (PodControllerIndexKey (Namespace owner) None ∈ PodControllerIndex (ObjPod p))
    = is_orphan owner p.
Proof.
  intros [Hns Href] Ho. apply bool_ext. unfold is_orphan, PodControllerIndex.
  fold (controller_of p). rewrite bool_decide_eq_true, list_elem_of_singleton, andb_true_iff, bool_decide_eq_true.
  destruct (controller_of p) as [ref|]; cbn [PodControllerIndexKey not_nil negb].
  - split; [|by intros [_ ?]]. intros Heq. by apply slash_inside in Heq.
  - intuition congruence.
Qed.

(** C30: the index finds exactly the pods the set controls, by kind, name and UID,
    and then the orphans of its namespace: keys built from different owners
    never collide. *)
Theorem FilterPodsByOwner_exact owner kind :
  Forall key_parts store →
  Namespace owner ≠ "" → Name owner ≠ "" → UID owner ≠ "" → kind ≠ "" →
  slash_free (Namespace owner) → slash_free (Name owner) → slash_free kind →
  wp indexed (λ _ e, ∃ key, e = PodIndexerByIndex key) (FilterPodsByOwner owner kind true)
    (returns (λ _ r, r = inl (List.filter (is_owned owner kind) store ++
                              List.filter (is_orphan owner) store))) [].
Proof.
  intros Hall Hns Hn Hu Hk Hs1 Hs2 Hs3. unfold FilterPodsByOwner.
  rewrite !bool_decide_eq_false_2 by done. cbn [pods_of_keys].
  apply wp_call_bind; [by eexists|]. intros r Hr. simpl in Hr. subst r.
  apply wp_call_bind; [by eexists|]. intros r Hr. simpl in Hr. subst r.
  apply wp_ret. eexists. split; [reflexivity|]. simpl. f_equal.
  rewrite List.Forall_forall in Hall.
  f_equal; apply List.filter_ext_in; intros p Hp.
  - apply (owner_key_spec owner kind p "" None None); auto.
  - apply orphan_key_spec; auto.
Qed.
End index.
