(* ===== verification/Total.v ===== *)
(** * No synchronisation panics

    The code dereferences pointers of the specification that only defaulting fills, and
    looks up slices; [sync] recovers from nothing.  Here, a whole [sync] is followed
    through every call, whatever the answers: errors, stale caches, conflicts. *)
From S2P Require Export Progress ControllerProps.

Section total.
Context `{K8sLaws} `{GoLaws} `{!ClientGo}.
#[local] Existing Instance realHistory.
Implicit Types (set : XStatefulSet) (pod : Pod) (rev : Rev).

(** The encoding of the set has a specification with a template. *)
Definition patchable set : Prop := is_Some (getPatch set).

(** What a set must satisfy: its pointers are set (which defaulting does, [Defaults]), its
    numbers and names are those the API server admits, and it can be encoded. *)
Definition sync_ready set : Prop :=
  valid set ∧ 0 ≤ getStartOrdinal set ∧
  (∀ r, Replicas (Spec set) = Some r → 0 ≤ r ∧ getStartOrdinal set + r ≤ 2147483648) ∧ patchable set.

(** The revision restores to a valid set, which can be encoded again. *)
Definition replayable set rev : Prop :=
  restorable set rev ∧ ∀ s, ApplyRevision set rev = Some (inl s) → patchable (Scheme_Default s).

Context (sets : XStatefulSet → Prop) (revisions : Rev → Prop).
Hypothesis Hsets : ∀ set, sets set → sync_ready (Scheme_Default set).
Hypothesis Hrevisions : ∀ set rev, sets set → revisions rev → replayable (Scheme_Default set) rev.

(** The caches have sets of [sets], the caches and the API server have revisions of
    [revisions], and pods of the set have an ordinal; any other answer, and any error, is
    possible. *)
Definition admitted (o : obs reply) : Prop :=
  honest_lister o ∧
  match o with
  | existT (SetListerGet _ _) r => match r with inl set => sets set | inr _ => True end
  | existT (RevisionListerList _ _) r => match r with inl l => ∀ v, v ∈ l → revisions v | inr _ => True end
  | existT (RevisionListerGet _ _) r | existT (RevisionsGet _ _) r | existT (RevisionsCreate _ _) r =>
      match r with inl v => revisions v | inr _ => True end
  | existT (RevisionsUpdate _ _) r => match r.1 with Some v => revisions v | None => True end
  | _ => True
  end.

Notation total p := (safe admitted any_call p (λ _, True)).

Lemma total_retry {T} b (fn : T → go (option error * T)) s : (∀ s, total (fn s)) → total (RetryOnConflict b fn s).
Proof.
  intros Hfn. eapply safe_mono; [|apply (safe_retry _ _ b fn (λ _, True) (λ _ _, True))]; [done| |done].
  intros s' _. eapply safe_mono; [|apply Hfn]. done.
Qed.

Ltac total_step :=
  lazymatch goal with
  | |- safe _ _ (mret _) _ => by apply safe_ret
  | |- safe _ _ (call _) _ => by safe_call
  | |- safe _ _ (RetryOnConflict _ _ _) _ => apply total_retry; intros ?
  | |- safe _ _ (deref _ ≫= _) _ => fail
  | |- safe _ _ (_ ≫= _) _ => apply safe_seq; [|intros ?]
  | |- safe _ _ (match ?x with _ => _ end) _ => destruct x
  | |- safe _ _ (if ?b then _ else _) _ => destruct b
  end.
Ltac total := repeat (cbv beta iota zeta; total_step).

(** ** Adoption *)

Lemma canAdoptFunc_total set : total (canAdoptFunc set).
Proof. unfold canAdoptFunc, RecheckDeletionTimestamp. total. Qed.

(** A revision with the data of one of [revisions]. *)
Definition known rev : Prop := ∃ v, revisions v ∧ Data v = Data rev.

Lemma known_replayable set rev : sets set → known rev → replayable (Scheme_Default set) rev.
Proof.
  intros Hset (v & Hv & Heq). pose proof (Hrevisions _ _ Hset Hv) as Hr.
  unfold replayable, restorable, ApplyRevision in *. by rewrite <- Heq.
Qed.

Lemma ListRevisions_total set :
  safe admitted any_call (ListRevisions set) (λ r, ∀ l, r = inl l → ∀ v, v ∈ l → known v).
Proof.
  unfold ListRevisions, ListControllerRevisions, realHistory, real_ListControllerRevisions.
  destruct (LabelSelectorAsSelector _) as [sel|err]; [|by apply safe_ret].
  eapply safe_bind; [safe_call; [done|intros x [_ Hx]; exact Hx]|]. intros [l|err] Hl; [|by apply safe_ret].
  apply safe_ret. intros l' [= <-] v Hv%list_elem_of_In. apply List.filter_In in Hv as [Hv%list_elem_of_In _].
  exists v. auto.
Qed.

Lemma AdoptOrphanRevisions_total set orphans : total (AdoptOrphanRevisions set orphans).
Proof.
  induction orphans as [|v orphans IH]; cbn [AdoptOrphanRevisions];
    unfold AdoptControllerRevision, realHistory, real_AdoptControllerRevision in *; total. exact IH.
Qed.

Lemma adoptOrphanRevisions_total set : total (adoptOrphanRevisions set).
Proof.
  unfold adoptOrphanRevisions. eapply safe_bind; [apply ListRevisions_total|]. intros r _.
  total; first [apply canAdoptFunc_total|apply AdoptOrphanRevisions_total].
Qed.

Lemma claim_loop_total `{Object A} m matches (adopt release : A → canAdoptOnce → go (option error * canAdoptOnce))
    objs once acc errs :
  (∀ x once, total (adopt x once)) → (∀ x once, total (release x once)) →
  total (claim_loop m matches adopt release objs once acc errs).
Proof.
  intros Ha Hr. revert once acc errs. induction objs as [|x objs IH]; intros once acc errs; cbn [claim_loop];
    unfold ClaimObject; total; auto.
Qed.

Lemma pods_of_keys_total keys acc : total (pods_of_keys keys acc).
Proof. revert acc. induction keys as [|key keys IH]; intros acc; cbn [pods_of_keys]; total. apply IH. Qed.

Lemma getPodsForStatefulSet_total set sel : total (getPodsForStatefulSet set sel).
Proof.
  unfold getPodsForStatefulSet, FilterPodsByOwner, ClaimPods, NewPodControllerRefManager.
  total; first [apply pods_of_keys_total|apply claim_loop_total; intros q once].
  - unfold AdoptPod, CanAdopt. cbn [CanAdoptFunc]. total. apply canAdoptFunc_total.
  - unfold ReleasePod. total.
Qed.

(** ** Revisions *)

Lemma deref_total_in {A B} (o : option A) (f : A → go B) Φ :
  is_Some o → (∀ a, safe admitted any_call (f a) Φ) → safe admitted any_call (deref o ≫= f) Φ.
Proof. intros [a ->] Hf. apply Hf. Qed.

Lemma deref_total {A B} (o : option A) (f : A → go B) : is_Some o → (∀ a, total (f a)) → total (deref o ≫= f).
Proof. apply deref_total_in. Qed.

Lemma newRevision_total set n c : patchable set → is_Some (newRevision set n c).
Proof. intros [x Hx]. unfold newRevision. rewrite Hx. by eexists. Qed.

Lemma create_loop_total fuel parent revision clone c :
  safe admitted any_call (create_loop fuel parent revision clone c) (λ r, ∀ v, r.1 = Some (inl v) → known v).
Proof.
  revert clone c. induction fuel as [|fuel IH]; intros clone c; cbn [create_loop]; [by apply safe_ret|]. cbv zeta.
  eapply safe_bind; [safe_call; [done|intros x [_ Hx]; exact Hx]|]. cbv beta. intros [v|err] Hv.
  { apply safe_ret. intros v' [= <-]. by exists v. }
  destruct (IsAlreadyExists err); [|by apply safe_ret].
  eapply safe_bind; [safe_call; [done|intros x [_ Hx]; exact Hx]|]. cbv beta. intros [v|err'] Hv2; [|by apply safe_ret].
  destruct (bool_decide _); [|apply IH]. apply safe_ret. intros v' [= <-]. by exists v.
Qed.

Lemma UpdateControllerRevision_total revision n :
  known revision → safe admitted any_call (UpdateControllerRevision revision n) (λ r, known r.1).
Proof.
  intros Hknown. unfold UpdateControllerRevision, realHistory, real_UpdateControllerRevision.
  eapply safe_bind; [apply (safe_retry _ _ _ _ known (λ _ _, True)); [|done]|].
  2:{ intros [err clone] [Hc _]. by apply safe_ret. }
  intros clone Hclone. unfold update_attempt. destruct (_ =? _); [by apply safe_ret|]. cbv zeta.
  assert (known (set_Revision n clone)) as Hset by done. revert Hset. generalize (set_Revision n clone) as v. intros v Hv.
  eapply safe_bind; [safe_call; [done|intros x [_ Hx]; exact Hx]|]. intros [updated [err|]] Hu; [|by apply safe_ret].
  eapply safe_bind; [safe_call; [done|intros x [_ Hx]; exact Hx]|]. cbv beta. intros [w|err'] Hw; apply safe_ret; (split; [|done]).
  - by exists w.
  - destruct updated as [w|]; [by exists w|done].
Qed.

Lemma setMatches_total set proposed rev :
  sets set → known rev → total (setMatchesLatestExistingRevision (Scheme_Default set) proposed rev).
Proof.
  intros Hset Hrev. destruct (known_replayable _ _ Hset Hrev) as ((x & Hx & _) & Hp).
  unfold setMatchesLatestExistingRevision. destruct (negb _); [by total|]. total. rewrite Hx.
  change (deref (Some ?x) ≫= ?f) with (f x). cbv beta. destruct x as [s|err]; [|by total].
  apply deref_total; [by apply newRevision_total, Hp|]. intros q. total.
Qed.

(** The two revisions of a synchronisation are known. *)
Lemma getStatefulSetRevisions_total fuel set listed :
  sets set → (∀ v, v ∈ listed → known v) →
  safe admitted any_call (getStatefulSetRevisions fuel (Scheme_Default set) listed)
    (λ r, ∀ cur upd c, r = Some (inl (cur, upd, c)) → known cur ∧ known upd).
Proof.
  intros Hset Hl. unfold getStatefulSetRevisions. cbv zeta.
  assert (∀ v, v ∈ SortControllerRevisions listed → known v) as Hs.
  { intros v Hv. apply Hl. by rewrite <- (sort_Stable_perm byRevision_Less listed). }
  revert Hs. generalize (SortControllerRevisions listed) as l. intros l Hs.
  apply deref_total_in; [apply newRevision_total, Hsets, Hset|]. intros [proposed|err]; [|by apply safe_ret].
  eapply (safe_bind _ _ _ _ (λ r, ∀ upd c, r = Some (inl (upd, c)) → known upd)).
  - assert (∀ v, list.last l = Some v → known v) as Hlast.
    { intros v (k & ->)%last_Some. apply Hs. apply elem_of_app. right. left. }
    assert (∀ v, list.last (FindEqualRevisions l proposed) = Some v → known v) as Heq.
    { intros v (k & Hk)%last_Some. apply Hs.
      assert (v ∈ FindEqualRevisions l proposed) as Hv by (rewrite Hk; apply elem_of_app; right; left).
      apply list_elem_of_In, List.filter_In in Hv as [Hv%list_elem_of_In _]. done. }
    assert (∀ c, safe admitted any_call
      ('(r, c) ← CreateControllerRevision fuel (set_meta (Scheme_Default set)) proposed (Some c);
       mret (match r with None => None | Some (inr err) => Some (inr err)
             | Some (inl created) => Some (inl (created, default (default 0 (CollisionCount (Status (Scheme_Default set)))) c)) end))
      (λ r, ∀ upd c, r = Some (inl (upd, c)) → known upd)) as Hcreate.
    { intros c0. unfold CreateControllerRevision, realHistory, real_CreateControllerRevision.
      eapply (safe_bind _ _ _ _ (λ r : option (Rev + error) * option Z, ∀ v, r.1 = Some (inl v) → known v)).
      - eapply safe_bind; [apply create_loop_total|]. intros [r c] Hr. by apply safe_ret.
      - intros [[[v|err]|] c] Hr; apply safe_ret; try done. intros upd c' [= <- _]. by apply Hr. }
    unfold chooseUpdateRevision. cbv zeta. destruct (list.last l) as [latest|]; [|apply Hcreate].
    specialize (Hlast _ eq_refl). destruct (list.last (FindEqualRevisions l proposed)) as [old|].
    + destruct (EqualRevision _ _); [apply safe_ret; by intros upd c [= <- _]|].
      eapply safe_bind; [by apply UpdateControllerRevision_total, Heq|]. intros [r [err|]] Hr; apply safe_ret; [done|].
      by intros upd c [= <- _].
    + eapply safe_bind; [by apply setMatches_total|]. intros [] _; [|apply Hcreate].
      apply safe_ret. by intros upd c [= <- _].
  - intros [[[upd c]|err]|] Hu; apply safe_ret; try done. intros cur upd' c' [= <- <- _].
    specialize (Hu _ _ eq_refl). split; [|done]. destruct (List.find _ l) as [v|] eqn:Hf; [|done].
    apply find_some in Hf as [Hv%list_elem_of_In _]. by apply Hs.
Qed.

(** ** Status and history *)

Lemma updateStatefulSetStatus_total set status : sync_ready set → total (updateStatefulSetStatus set status).
Proof.
  intros ((_ & [_ [r Hr]] & _) & _). unfold updateStatefulSetStatus. apply deref_total.
  { unfold completeRollingUpdate. rewrite Hr. destruct (bool_decide _); by eexists. }
  intros st. apply safe_seq; [|intros err].
  - destruct (FeatureEnabled _); [|by total]. rewrite Hr. apply deref_total; [by eexists|]. intros n.
    total.
  - unfold UpdateStatefulSetStatus, update_status_attempt. total.
Qed.

Lemma delete_revisions_total l : total (delete_revisions l).
Proof.
  induction l as [|v l IH]; cbn [delete_revisions];
    unfold DeleteControllerRevision, realHistory, real_DeleteControllerRevision in *; total. exact IH.
Qed.

Lemma truncateHistory_total set pods listed cur upd :
  is_Some (RevisionHistoryLimit (Spec set)) → total (truncateHistory set pods listed cur upd).
Proof.
  intros Hl. unfold truncateHistory. cbv zeta. apply deref_total; [done|]. intros limit. total.
  apply delete_revisions_total.
Qed.

(** ** The whole *)

Lemma updateStatefulSet_total set cur upd c pods :
  sets set → known cur → known upd →
  safe admitted any_call (updateStatefulSet (Scheme_Default set) cur upd c pods)
    (λ x, ∀ err, x = (None, err) → err ≠ None).
Proof.
  intros Hset Hcur Hupd tr.
  assert (syncable (Scheme_Default set) cur upd) as Hsync.
  { destruct (Hsets _ Hset) as (? & ? & ? & _). split_and!; try done;
      by apply (known_replayable _ _ Hset). }
  eapply wp_mono; [|apply (wp_and admitted (λ _, any_call) _ (returns (λ _ _, True))
    (λ _ o, ∀ err, o = Some (None, err) → err ≠ None))].
  - intros tr' o [(x & -> & _) Hx]. exists x. split; [done|]. intros err ->. by apply Hx.
  - eapply (wp_weaken honest_lister); [by intros o []| |by apply updateStatefulSet_safe]. done.
  - eapply (wp_weaken (λ _, True)); [done| |apply updateStatefulSet_None]. done.
Qed.

Lemma performUpdate_total fuel set pods listed :
  sets set → (∀ v, v ∈ listed → known v) → total (performUpdate fuel (Scheme_Default set) pods listed).
Proof.
  intros Hset Hl. unfold performUpdate. eapply safe_bind; [by apply getStatefulSetRevisions_total|].
  intros [[[[cur upd] c]|err]|] Hr; [|by total..]. destruct (Hr _ _ _ eq_refl) as [Hcur Hupd].
  eapply safe_bind; [by apply updateStatefulSet_total|]. intros [[st|] err] Herr; cbv beta iota zeta.
  - total. by apply updateStatefulSetStatus_total, Hsets.
  - destruct err; [by total|]. by destruct (Herr None eq_refl).
Qed.

Lemma UpdateStatefulSet_total fuel set pods :
  sets set → total (UpdateStatefulSet fuel (Scheme_Default set) pods).
Proof.
  intros Hset. unfold UpdateStatefulSet. eapply safe_bind; [apply ListRevisions_total|].
  intros [listed|err] Hl; [|by total]. specialize (Hl _ eq_refl). cbv zeta.
  assert (∀ v, v ∈ SortControllerRevisions listed → known v) as Hs.
  { intros v Hv. apply Hl. by rewrite <- (sort_Stable_perm byRevision_Less listed). }
  assert (is_Some (RevisionHistoryLimit (Spec (Scheme_Default set)))) as Hh
    by (cbn; destruct (RevisionHistoryLimit _); by eexists).
  total; first [by apply performUpdate_total|by apply truncateHistory_total].
Qed.

Lemma sync_total fuel key : total (sync fuel key).
Proof.
  unfold sync. destruct (SplitMetaNamespaceKey key) as [[namespace name]|err]; [|by total].
  eapply safe_bind; [safe_call; [done|intros x [_ Hx]; exact Hx]|]. intros [set|err] Hset; [|by total].
  destruct (LabelSelectorAsSelector _) as [sel|err]; [|by total]. cbv zeta. cbv beta iota in Hset.
  assert (is_Some (Replicas (Spec (Scheme_Default set)))) as Hr by apply (Hsets _ Hset).
  total; first [apply adoptOrphanRevisions_total|apply getPodsForStatefulSet_total|idtac].
  unfold syncStatefulSet, enqueueSSAfter. total; [by apply UpdateStatefulSet_total|]. apply deref_total; [done|]. intros n. total.
Qed.
End total.

(** ** When the fuel of the creation of a revision is used up

    The retry of [CreateControllerRevision] has no bound in the code.  A synchronisation
    that runs out of fuel has met as many collisions of names. *)

Section fuel.
Context `{K8sLaws} `{GoRuntime} `{!ClientGo}.
#[local] Existing Instance realHistory.

(** A creation of a revision answered with [AlreadyExists]. *)
Definition collision (x : obs reply) : bool :=
  match x with
  | existT (RevisionsCreate _ _) r => match r with inl _ => false | inr err => IsAlreadyExists err end
  | _ => false
  end.
Definition collided (tr : list (obs reply)) : nat := length (List.filter collision tr).

Lemma collided_app tr tr' : collided (tr ++ tr') = (collided tr + collided tr')%nat.
Proof. unfold collided. by rewrite List.filter_app, length_app. Qed.

Lemma create_loop_spent fuel parent revision clone c tr :
  wp (λ _, True) anything (create_loop fuel parent revision clone c)
    (λ tr' o, ∀ c', o = Some (None, c') → (fuel + collided tr ≤ collided tr')%nat) tr.
Proof.
  revert clone c tr. induction fuel as [|fuel IH]; intros clone c tr; cbn [create_loop]; [by apply wp_ret|].
  cbv zeta. apply wp_call_bind; [done|]. intros [v|err] _; [by apply wp_ret|].
  destruct (IsAlreadyExists err) eqn:Herr; [|by apply wp_ret].
  apply wp_call_bind; [done|]. intros [v|err'] _; [|by apply wp_ret]. destruct (bool_decide _); [by apply wp_ret|].
  eapply wp_mono; [|apply IH]. intros tr' o Ho c' Heq. specialize (Ho c' Heq). revert Ho.
  rewrite !collided_app. unfold collided at 3. cbn. rewrite Herr. cbn. lia.
Qed.

(** Nothing that follows the creation runs out. *)
Notation spent fuel := (λ (tr : list (obs reply)) o, o = Some None → (fuel ≤ collided tr)%nat).

Lemma spent_bind {A B} fuel (p : go (option A)) (f : option A → go (option B)) tr :
  wp (λ _, True) anything p (spent fuel) tr →
  f None = mret None → (∀ a tr, wp (λ _, True) anything (f (Some a)) (λ _ o, o ≠ Some None) tr) →
  wp (λ _, True) anything (p ≫= f) (spent fuel) tr.
Proof.
  intros Hp Hnone Hf. apply wp_bind_2. eapply wp_mono; [|exact Hp]. intros tr' [[a|]|] Ho; [| |done].
  - eapply wp_mono; [|apply Hf]. by intros tr2 o Hne.
  - rewrite Hnone. apply wp_ret. intros _. by apply Ho.
Qed.

Lemma spent_ret {A} fuel (a : A) tr : wp (λ _, True) anything (mret (Some a) : go (option A)) (spent fuel) tr.
Proof. by apply wp_ret. Qed.

Ltac unspent := repeat (cbv beta iota zeta; match goal with
  | |- wp _ _ (mret _) _ _ => by apply wp_ret
  | |- wp _ _ Panic _ _ => done
  | |- wp _ _ (match ?x with _ => _ end) _ _ => destruct x
  | |- wp _ _ (_ ≫= _) _ _ => apply wp_any_bind; [done|]; intros
  end).

Lemma CreateControllerRevision_spent fuel parent revision c tr :
  wp (λ _, True) anything (CreateControllerRevision fuel parent revision c)
    (λ tr' o, ∀ c', o = Some (None, c') → (fuel ≤ collided tr')%nat) tr.
Proof.
  unfold CreateControllerRevision, realHistory, real_CreateControllerRevision. destruct c as [c|]; [|by apply wp_ret].
  apply wp_bind_2. eapply wp_mono; [|apply create_loop_spent]. intros tr' [[r c']|] Ho; [|done].
  apply wp_ret. intros c2 [= -> _]. specialize (Ho _ eq_refl). lia.
Qed.

Lemma getStatefulSetRevisions_spent fuel set listed tr :
  wp (λ _, True) anything (getStatefulSetRevisions fuel set listed) (spent fuel) tr.
Proof.
  unfold getStatefulSetRevisions. cbv zeta. apply wp_any_bind; [done|]. intros new [proposed|err]; [|apply spent_ret].
  apply (spent_bind fuel); [|done|intros [[upd c]|err] tr'; by apply wp_ret].
  assert (∀ c tr, wp (λ _, True) anything
    ('(r, c) ← CreateControllerRevision fuel (set_meta set) proposed (Some c);
     mret (match r with None => None | Some (inr err) => Some (inr err)
           | Some (inl created) => Some (inl (created, default (default 0 (CollisionCount (Status set))) c)) end))
    (spent fuel) tr) as Hcreate.
  { intros c tr'. apply wp_bind_2. eapply wp_mono; [|apply CreateControllerRevision_spent].
    intros tr2 [[[[v|e]|] c']|] Ho; [by apply wp_ret..| |done]. apply wp_ret. intros _. by apply (Ho c'). }
  unfold chooseUpdateRevision. cbv zeta. destruct (list.last _) as [latest|]; [|apply Hcreate].
  destruct (list.last _) as [old|].
  - destruct (EqualRevision _ _); [apply spent_ret|]. apply wp_any_bind; [done|]. intros new2 [r err]. apply spent_ret.
  - apply wp_any_bind; [done|]. intros new2 []; [apply spent_ret|apply Hcreate].
Qed.

Lemma sync_spent fuel key :
  wp (λ _, True) anything (sync fuel key) (spent fuel) [].
Proof.
  unfold sync. destruct (SplitMetaNamespaceKey key) as [[namespace name]|err]; [|apply spent_ret].
  apply wp_any_bind; [done|]. intros new [set|err]; [|apply spent_ret].
  destruct (LabelSelectorAsSelector _) as [sel|err]; [|apply spent_ret]. cbv zeta.
  apply wp_any_bind; [done|]. intros new2 [err|]; [apply spent_ret|].
  apply wp_any_bind; [done|]. intros new3 [pods [err|]]; [apply spent_ret|]. unfold syncStatefulSet.
  apply spent_bind; [|done|]; [|intros [st [err|]] tr; unspent].
  unfold UpdateStatefulSet. apply wp_any_bind; [done|]. intros new4 [listed|err]; [|apply spent_ret]. cbv zeta.
  apply spent_bind; [|done|]; [|intros [[[cur upd] st] [err|]] tr; unspent].
  unfold performUpdate. apply spent_bind; [apply getStatefulSetRevisions_spent|done|].
  intros [[[cur upd] c]|err] tr; unspent.
Qed.
End fuel.

Section never_panics.
Context `{K8sLaws} `{GoLaws} `{!ClientGo}.
#[local] Existing Instance realHistory.

(** C6: a synchronisation never panics.  For any key, with any answers and any errors of
    the API server, the caches and the libraries (stale reads, conflicts, failing writes,
    any pods), a whole [sync] returns, as long as the sets of the cache are those the API
    server admits, and the revisions that the caches and the API server answer, if they can
    be decoded, restore to valid sets; what the code dereferences without a check (the
    history limit, the replicas, the partition, the selector) is filled by the defaults that
    [sync] applies first.  Its result is [None] only when the names of as many new
    revisions as there was fuel had been taken. *)
Theorem sync_never_panics (sets : XStatefulSet → Prop) (revisions : Rev → Prop) fuel key :
  (∀ set, sets set → sync_ready (Scheme_Default set)) →
  (∀ set rev, sets set → revisions rev → replayable (Scheme_Default set) rev) →
  wp (admitted sets revisions) (λ _, any_call) (sync fuel key)
    (returns (λ tr x, x = None → (fuel ≤ collided tr)%nat)) [].
Proof.
  intros Hsets Hrevs.
  eapply wp_mono; [|apply (wp_and _ _ _ (returns (λ _ _, True)) (λ tr o, o = Some None → (fuel ≤ collided tr)%nat))].
  - intros tr o [(x & -> & _) Hx]. exists x. split; [done|]. intros ->. by apply Hx.
  - by apply sync_total.
  - eapply (wp_weaken (λ _, True)); [done| |apply sync_spent]. done.
Qed.
End never_panics.
