(* ===== verification/System.v ===== *)
(** * The controller as a whole: rounds of [sync] roll a set out

    [Convergence] and [Parallel] are about the actions on the pods of one set, given
    its revisions.  Here a round is a whole [sync] of the key of the set, from the
    listers and the index to the status, the history and the queue; the world keeps
    the effects of its calls, the nodes start the new pods, and the caches catch up
    before the next round. *)
From S2P Require Export ControllerProps Parallel.

(** ** The world *)

Section world.
Context `{K8sLaws} `{GoLaws} `{!ClientGo}.
#[local] Existing Instance realHistory.
Implicit Types (s set : XStatefulSet) (pod : Pod) (v latest : Rev) (revs : list Rev).

(** The set, as it is stored with another status and resource version. *)
Definition restamp (rv : string) (st : XStatefulSetStatus) s : XStatefulSet :=
  {| set_meta := with_ResourceVersion rv (set_meta s); Spec := Spec s; Status := st |}.

(** The time, the set as it is stored, its revisions and its pods. *)
Record world := { w_time : Time; w_set : XStatefulSet; w_revisions : list Rev; w_pods : list Pod }.
Implicit Types (w : world).

(** An accepted call; [effect] is about the pods. *)
Definition status_effect (x : obs reply) s : XStatefulSet :=
  match x with
  | existT (SetsUpdateStatus _ s') r => match r with None => set_Status (Status s') s | Some _ => s end
  | _ => s
  end.
Definition without (ns name : string) revs : list Rev :=
  filter (λ v, ¬ (Namespace (cr_meta v) = ns ∧ Name (cr_meta v) = name)) revs.
Definition replaced (v : Rev) revs : list Rev :=
  (λ v', if bool_decide (Name (cr_meta v') = Name (cr_meta v)) then v else v') <$> revs.
Definition revision_effect (x : obs reply) revs : list Rev :=
  match x with
  | existT (RevisionsDelete ns name) r => match r with None => without ns name revs | Some _ => revs end
  | existT (RevisionsCreate _ _) r => match r with inl v => revs ++ [v] | inr _ => revs end
  | existT (RevisionsUpdate _ v) r => match r.2 with None => replaced (default v r.1) revs | Some _ => revs end
  | _ => revs
  end.
Definition after_call w (x : obs reply) : world :=
  {| w_time := w_time w; w_set := status_effect x (w_set w);
     w_revisions := revision_effect x (w_revisions w); w_pods := effect x (w_pods w) |}.
Definition after (tr : list (obs reply)) w : world := foldl after_call w tr.

(** A round makes no other write: it neither adopts nor releases an object, and it
    creates and renumbers no revision. *)
Definition round_io (e : api_call) : Prop :=
  match e with
  | PodsPatch _ _ _ | RevisionsPatch _ _ _ | ReplicaSetsPatch _ _ _
  | RevisionsCreate _ _ | RevisionsUpdate _ _ => False
  | _ => True
  end.

(** The keys under which the index has the pods of the set, and the orphans. *)
Definition set_key s : string :=
  PodControllerIndexKey (Namespace (set_meta s))
    (Some {| or_APIVersion := ""; or_Kind := gvk_Kind controllerKind; or_Name := Name (set_meta s);
             or_UID := UID (set_meta s); or_Controller := None; or_BlockOwnerDeletion := None |}).
Definition orphan_key s : string := PodControllerIndexKey (Namespace (set_meta s)) None.

(** An orphan that the set does not want. *)
Definition unwanted s pod : Prop :=
  GetControllerOf (OwnerReferences (pod_meta pod)) = None ∧
  ∀ sel, LabelSelectorAsSelector (Selector (Spec s)) = inl sel →
    Matches sel (Labels (pod_meta pod)) && isMemberOf s pod = false.

(** The caches are up to date and the API server accepts writes. *)
Definition serving w (o : obs reply) : Prop :=
  accepting (w_time w) o ∧
  match o with
  | existT (SetListerGet ns name) r =>
      ns = Namespace (set_meta (w_set w)) → name = Name (set_meta (w_set w)) → r = inl (w_set w)
  | existT (RevisionListerList _ _) r => r = inl (w_revisions w)
  | existT (PodIndexerByIndex key) r =>
      (key = set_key (w_set w) → r = inl (w_pods w)) ∧
      (key = orphan_key (w_set w) → ∃ orphans, r = inl orphans ∧ Forall (unwanted (w_set w)) orphans)
  | existT (SetsUpdateStatus _ _) r | existT (RevisionsDelete _ _) r => r = None
  | _ => True
  end.

(** *** Traces *)

Lemma after_app tr tr' w : after (tr ++ tr') w = after tr' (after tr w).
Proof. unfold after. apply foldl_app. Qed.

Lemma replaced_names v revs :
  (λ v', Name (cr_meta v')) <$> replaced v revs = (λ v', Name (cr_meta v')) <$> revs.
Proof.
  unfold replaced. rewrite <- list_fmap_compose. apply list_fmap_ext. intros i x _. cbn.
  destruct (bool_decide_reflect (Name (cr_meta x) = Name (cr_meta v))); congruence.
Qed.

Lemma after_time tr w : w_time (after tr w) = w_time w.
Proof. revert w. induction tr as [|x tr IH]; intros w; [done|]. exact (IH (after_call w x)). Qed.

Lemma after_pods tr w : w_pods (after tr w) = effects tr (w_pods w).
Proof. revert w. induction tr as [|x tr IH]; intros w; [done|]. exact (IH (after_call w x)). Qed.

(** Only the status of the set changes. *)
Lemma after_set tr w : ∃ st, w_set (after tr w) = set_Status st (w_set w).
Proof.
  revert w. induction tr as [|x tr IH]; intros w; [exists (Status (w_set w)); change (after [] w) with w; by destruct (w_set w)|].
  destruct (IH (after_call w x)) as [st Hst]. exists st.
  change (after (x :: tr) w) with (after tr (after_call w x)). rewrite Hst. cbn.
  destruct x as [[] r]; try done. by destruct r.
Qed.

(** Calls that leave the revisions alone, and calls that leave the pods alone. *)
Definition keeps_revisions (e : api_call) : Prop :=
  match e with RevisionsDelete _ _ | RevisionsCreate _ _ | RevisionsUpdate _ _ => False | _ => True end.

Lemma after_revisions tr w :
  Forall (λ x, keeps_revisions (projT1 x)) tr → w_revisions (after tr w) = w_revisions w.
Proof.
  revert w. induction tr as [|[e r] tr IH]; intros w; [done|]. intros [Hx Htr]%list.Forall_cons.
  change (after (existT e r :: tr) w) with (after tr (after_call w (existT e r))).
  rewrite IH by done. by destruct e.
Qed.

Lemma effects_inert tr pods : Forall (λ x, inert (projT1 x)) tr → effects tr pods = pods.
Proof.
  revert pods. induction tr as [|x tr IH]; intros pods; [done|]. intros [Hx Htr]%list.Forall_cons.
  change (effects (x :: tr) pods) with (effects tr (effect x pods)).
  rewrite inert_effect by done. by apply IH.
Qed.

(** *** What a program does to a world that serves it *)

(** The environment [env] of a world serves it, and [io] allows what a round may call. *)
Class Serves (env : world → obs reply → Prop) (io : api_call → Prop) : Prop := {
  serves_env w o : env w o → serving w o;
  serves_io e : round_io e → io e
}.
#[global] Instance serving_serves : Serves serving round_io.
Proof. by split. Qed.

Context (env : world → obs reply → Prop) (io : api_call → Prop) (w : world).
Definition does {A} (p : go A) (Φ : list (obs reply) → A → Prop) : Prop :=
  wp (env w) (λ _, io) p (returns Φ) [].

Lemma does_ret {A} (a : A) Φ : Φ [] a → does (mret a) Φ.
Proof. intros HΦ. apply wp_ret. by exists a. Qed.

Lemma does_io e Φ : io e → (∀ r, env w (existT e r) → Φ [existT e r] r) → does (call e) Φ.
Proof. intros He HΦ. apply wp_call; [done|]. intros r Hr. exists r. split; [done|]. by apply HΦ. Qed.

Lemma does_seq {A B} (p : go A) (f : A → go B) Φ Ψ :
  does p Φ → (∀ n a, Φ n a → does (f a) (λ n' b, Ψ (n ++ n') b)) → does (p ≫= f) Ψ.
Proof.
  intros Hp Hf. apply wp_bind_2. eapply wp_mono; [|exact Hp]. intros tr o (a & -> & Ha).
  eapply wp_mono; [|exact (wp_relocate _ _ _ _ [] tr (Hf tr a Ha))].
  intros tr' o (new & -> & b & -> & Hb). by exists b.
Qed.

Lemma does_io_seq {A} e (f : reply e → go A) Φ :
  io e → (∀ r, env w (existT e r) → does (f r) (λ n a, Φ (existT e r :: n) a)) → does (call e ≫= f) Φ.
Proof.
  intros He Hf. eapply does_seq.
  - apply (does_io e (λ n r, n = [existT e r] ∧ env w (existT e r))); [done|]. auto.
  - intros n r [-> Hr]. by apply Hf.
Qed.

Context `{!Serves env io}.

Lemma does_call e Φ : round_io e → (∀ r, serving w (existT e r) → Φ [existT e r] r) → does (call e) Φ.
Proof. intros He HΦ. apply does_io; [by apply serves_io|]. intros r Hr. by apply HΦ, serves_env. Qed.

Lemma does_call_seq {A} e (f : reply e → go A) Φ :
  round_io e → (∀ r, serving w (existT e r) → does (f r) (λ n a, Φ (existT e r :: n) a)) → does (call e ≫= f) Φ.
Proof. intros He Hf. apply does_io_seq; [by apply serves_io|]. intros r Hr. by apply Hf, serves_env. Qed.

Lemma does_mono {A} (p : go A) (Φ Ψ : list (obs reply) → A → Prop) :
  (∀ n a, Φ n a → Ψ n a) → does p Φ → does p Ψ.
Proof. intros HΦ. apply wp_mono. intros tr o (a & -> & Ha). exists a. split; [done|]. by apply HΦ. Qed.

(** Reading: pods and revisions stay as they are. *)
Definition reads_world (e : api_call) : Prop := inert e ∧ keeps_revisions e.
Definition still (n : list (obs reply)) : Prop := Forall (λ x, reads_world (projT1 x)) n.

Lemma still_app n n' : still n → still n' → still (n ++ n').
Proof. intros. by apply Forall_app. Qed.

(** The calls of a round before those of [UpdateStatefulSet], and after them. *)
Definition looks (e : api_call) : Prop :=
  match e with
  | SetListerGet _ _ | RevisionListerList _ _ | PodIndexerByIndex _ => True
  | _ => False
  end.
Definition looking (n : list (obs reply)) : Prop := Forall (λ x, looks (projT1 x)) n.

Definition waiting_calls (n : list (obs reply)) : Prop :=
  Forall (λ x, match projT1 x with QueueAddAfter _ _ => True | _ => False end) n.

Lemma waiting_still n : waiting_calls n → still n.
Proof. intros Hn. eapply List.Forall_impl; [|exact Hn]. by intros [[] x]. Qed.

Lemma looking_still n : looking n → still n.
Proof. intros Hn. eapply List.Forall_impl; [|exact Hn]. by intros [[] x]. Qed.

(** Calls that write nothing at all. *)
Definition silent (n : list (obs reply)) : Prop := Forall (λ x, looks (projT1 x) ∨ reads_only (projT1 x)) n.

Lemma silent_app n n' : silent n → silent n' → silent (n ++ n').
Proof. intros. by apply Forall_app. Qed.

Lemma looking_silent n : looking n → silent n.
Proof. intros Hn. eapply List.Forall_impl; [|exact Hn]. by left. Qed.

Lemma silent_after n w' : silent n → after n w' = w'.
Proof.
  revert w'. induction n as [|[e x] n IH]; intros w'; [done|]. intros [He Hn]%list.Forall_cons.
  change (after (existT e x :: n) w') with (after n (after_call w' (existT e x))). rewrite IH by done.
  destruct w'. destruct e; cbn in He; try done; by destruct He.
Qed.

Lemma still_pods n pods : still n → effects n pods = pods.
Proof. intros Hn. apply effects_inert. eapply List.Forall_impl; [|exact Hn]. by intros x [? _]. Qed.
Lemma still_revisions n w' : still n → w_revisions (after n w') = w_revisions w'.
Proof. intros Hn. apply after_revisions. eapply List.Forall_impl; [|exact Hn]. by intros x [_ ?]. Qed.
End world.

(** A call that every round may make, and its answer. *)
Ltac world_call := apply does_call_seq; [apply _|done|].

(** ** Standing sets *)

Section rounds.
Context `{K8sLaws} `{GoLaws} `{!ClientGo}.
#[local] Existing Instance realHistory.
Context (s0 : XStatefulSet) (revs : list Rev) (latest : Rev) (r p b : Z).
Implicit Types (st : XStatefulSetStatus) (w : world) (v : Rev).

(** The set [s0], whatever its status and its resource version become: its key can be parsed; with any of the
    revisions as the current one it rolls out the latest, which records its template;
    and it controls its revisions. *)
Record deployment : Prop := {
  dp_namespace : Namespace (set_meta s0) ≠ "" ∧ slash_free (Namespace (set_meta s0));
  dp_name : Name (set_meta s0) ≠ "" ∧ slash_free (Name (set_meta s0));
  dp_uid : UID (set_meta s0) ≠ "";
  dp_selector : ∃ sel, LabelSelectorAsSelector (Selector (Spec s0)) = inl sel;
  dp_latest : latest ∈ revs;
  dp_rolling rv st v : v ∈ revs →
    ∃ currentSet, rolling_set (restamp rv st (Scheme_Default s0)) currentSet v latest r p b;
  dp_template rv st : ∃ patch, getPatch (restamp rv st (Scheme_Default s0)) = Some (inl patch) ∧
    Data latest = {| Raw := patch; RObject := None |};
  dp_owned v : v ∈ revs → ∃ ref, GetControllerOf (OwnerReferences (cr_meta v)) = Some ref ∧
    or_UID ref = UID (set_meta s0)
}.

(** The stored set is [s0] with some status and resource version, its revisions are known and have distinct
    names, and the pods are members of the set. *)
Record placed w : Prop := {
  st_set : ∃ rv st, w_set w = restamp rv st s0;
  st_revisions : ∀ v, v ∈ w_revisions w → v ∈ revs;
  st_names : NoDup ((λ v : Rev, Name (cr_meta v)) <$> w_revisions w);
  st_pods : sound (Scheme_Default s0) (w_pods w)
}.

(** The latest revision is the newest of those that are stored. *)
Definition newest (l : list Rev) : Prop := list.last (SortControllerRevisions l) = Some latest.
Definition standing w : Prop := placed w ∧ newest (w_revisions w).

(** All pods are settled, too. *)
Definition at_rest w : Prop := ∀ q, q ∈ w_pods w → settled_at (w_time w) (Scheme_Default s0) q.
Definition settled_world w : Prop := standing w ∧ at_rest w.

(** *** The newest revision *)

Lemma last_stored (l : list Rev) v : list.last (SortControllerRevisions l) = Some v → v ∈ l.
Proof.
  intros [l' Hl]%last_Some. destruct (SortControllerRevisions_spec l) as [Hp _]. rewrite <- Hp, Hl. set_solver.
Qed.

Lemma last_not_less (l : list Rev) x y :
  list.last (SortControllerRevisions l) = Some y → x ∈ l → byRevision_Less y x = false.
Proof.
  intros [l' Hl]%last_Some Hx. destruct (SortControllerRevisions_spec l) as [Hp _].
  pose proof (sort_Stable_sorted byRevision_Less l) as Hs. fold (SortControllerRevisions l) in Hs.
  rewrite Hl in Hs, Hp. rewrite <- Hp in Hx. apply elem_of_app in Hx as [Hx| ->%list_elem_of_singleton].
  - apply StronglySorted_app in Hs as (Hlt & _ & _). exact (Hlt x y Hx (list_elem_of_here _ _)).
  - unfold byRevision_Less. rewrite !Z.eqb_refl. destruct (str_lt _ _) eqn:Hlt; [|done].
    pose proof (str_lt_asym _ _ Hlt). congruence.
Qed.

Lemma last_exists (l : list Rev) v : v ∈ l → ∃ m, list.last (SortControllerRevisions l) = Some m ∧ m ∈ l.
Proof.
  intros Hv. destruct (list.last (SortControllerRevisions l)) as [m|] eqn:Hm.
  - exists m. split; [done|by apply last_stored].
  - apply last_None in Hm. destruct (SortControllerRevisions_spec l) as [Hp _]. rewrite Hm in Hp.
    rewrite <- Hp in Hv. by apply not_elem_of_nil in Hv.
Qed.

(** The newest revision is the newest of those that are left. *)
Lemma newest_left l l' :
  newest l → NoDup ((λ v : Rev, Name (cr_meta v)) <$> l) → l' `sublist_of` l → latest ∈ l' → newest l'.
Proof.
  intros Hl Hnd Hsub Hin. destruct (last_exists l' latest Hin) as (m & Hm & Hmin). unfold newest. rewrite Hm.
  assert (m ∈ l) as Hml by (by eapply elem_of_sublist).
  pose proof (last_not_less _ _ _ Hm Hin) as H1'. pose proof (last_not_less _ _ _ Hl Hml) as H2'.
  f_equal. unfold byRevision_Less in H1', H2'.
  destruct (Revision m =? Revision latest) eqn:?, (Revision latest =? Revision m) eqn:?; try lia.
  destruct (CreationTimestamp (cr_meta latest) =? CreationTimestamp (cr_meta m)) eqn:?,
    (CreationTimestamp (cr_meta m) =? CreationTimestamp (cr_meta latest)) eqn:?; try lia.
  pose proof (str_lt_total _ _ H1' H2') as Hname.
  apply list_elem_of_lookup in Hml as [i Hi]. pose proof (last_stored _ _ Hl) as [j Hj]%list_elem_of_lookup.
  assert (i = j) as ->; [|congruence].
  eapply (NoDup_lookup _ _ _ (Name (cr_meta m)) Hnd); rewrite list_lookup_fmap; [by rewrite Hi|by rewrite Hj, Hname].
Qed.

(** A revision with a greater number than the others is the newest. *)
Lemma newest_greatest l :
  latest ∈ l → (∀ v, v ∈ l → v = latest ∨ Revision v < Revision latest) → newest l.
Proof.
  intros Hin Hl. destruct (last_exists l latest Hin) as (m & Hm & Hmin). unfold newest. rewrite Hm.
  destruct (Hl m Hmin) as [->|Hlt]; [done|]. pose proof (last_not_less _ _ _ Hm Hin) as Hless.
  unfold byRevision_Less in Hless. replace (Revision m =? Revision latest) with false in Hless by lia. lia.
Qed.

Context (Hdep : deployment).

(** *** Reading the caches *)

Section reading.
Context (w : world) (Hw : placed w).
Context {env : world → obs reply → Prop} {io : api_call → Prop} `{!Serves env io}.
Notation set := (Scheme_Default (w_set w)).

Lemma set_is : ∃ rv st, w_set w = restamp rv st s0 ∧ set = restamp rv st (Scheme_Default s0).
Proof. destruct (st_set _ Hw) as (rv & st & Hst). exists rv, st. split; [done|]. by rewrite Hst. Qed.

Lemma set_meta_is : ∃ rv, set_meta set = with_ResourceVersion rv (set_meta s0).
Proof. destruct set_is as (rv & st & _ & ->). by exists rv. Qed.
Lemma set_selector_is : Selector (Spec set) = Selector (Spec s0).
Proof. by destruct set_is as (rv & st & _ & ->). Qed.

Lemma owned_revision v : v ∈ w_revisions w →
  ∃ ref, GetControllerOf (OwnerReferences (cr_meta v)) = Some ref ∧ or_UID ref = UID (set_meta set).
Proof. destruct set_meta_is as [rv ->]. intros Hv. by apply (dp_owned Hdep), (st_revisions _ Hw). Qed.

Lemma ListRevisions_does :
  does env io w (ListRevisions set) (λ n x, looking n ∧ x = inl (w_revisions w)).
Proof.
  unfold ListRevisions. rewrite set_selector_is. destruct (dp_selector Hdep) as [sel Hsel]. rewrite Hsel.
  unfold ListControllerRevisions, realHistory, real_ListControllerRevisions.
  world_call. intros x [_ ->]. apply does_ret. split; [by repeat constructor|]. f_equal.
  apply forallb_filter_id, forallb_forall. intros v Hv%list_elem_of_In.
  destruct (owned_revision v Hv) as (ref & -> & Hu). by apply bool_decide_eq_true.
Qed.

Lemma adoptOrphanRevisions_does : does env io w (adoptOrphanRevisions set) (λ n err, looking n ∧ err = None).
Proof.
  unfold adoptOrphanRevisions. eapply does_seq; [apply ListRevisions_does|].
  intros n ? [Hn ->]. cbv beta iota zeta.
  assert (List.filter (λ r : Rev, negb (not_nil (GetControllerOf (OwnerReferences (cr_meta r))))) (w_revisions w) = [])
    as ->.
  { assert (∀ l, (∀ v, v ∈ l → ∃ ref, GetControllerOf (OwnerReferences (cr_meta v)) = Some ref) →
      List.filter (λ r : Rev, negb (not_nil (GetControllerOf (OwnerReferences (cr_meta r))))) l = []) as Hl.
    { induction l as [|v l IH]; intros Hv; [done|]. cbn. destruct (Hv v (list_elem_of_here _ _)) as [ref ->].
      apply IH. intros; apply Hv; by right. }
    apply Hl. intros v (ref & ? & _)%owned_revision. by exists ref. }
  apply does_ret. by rewrite app_nil_r.
Qed.

(** The pods of the set are claimed without a call. *)
Lemma claim_own m (matches : Pod → bool) adopt release objs rest once acc errs :
  UID (Controller m) = UID (set_meta s0) → (∀ q, q ∈ objs → matches q = true ∧ ∃ ref,
    GetControllerOf (GetOwnerReferences q) = Some ref ∧ or_UID ref = UID (set_meta s0)) →
  claim_loop m matches adopt release (objs ++ rest) once acc errs =
  claim_loop m matches adopt release rest once (acc ++ objs) errs.
Proof.
  intros Hm. revert acc. induction objs as [|q objs IH]; intros acc Hq; [by rewrite app_nil_r|].
  cbn [app claim_loop]. unfold ClaimObject at 1.
  destruct (Hq q (list_elem_of_here _ _)) as (Hmatch & ref & -> & Hu).
  rewrite Hm, Hu, bool_decide_eq_false_2, Hmatch by auto.
  change (mret ?x ≫= ?f) with (f x). cbv beta iota. rewrite IH by (intros; apply Hq; by right).
  by rewrite <- (assoc_L (++)).
Qed.

Lemma claim_unwanted m (matches : Pod → bool) adopt release objs once acc errs :
  (∀ q, q ∈ objs → GetControllerOf (GetOwnerReferences q) = None ∧ matches q = false) →
  claim_loop m matches adopt release objs once acc errs = mret (acc, NewAggregate errs).
Proof.
  induction objs as [|q objs IH]; intros Hq; [done|]. cbn [claim_loop]. unfold ClaimObject at 1.
  destruct (Hq q (list_elem_of_here _ _)) as [-> ->]. rewrite orb_true_r.
  change (mret ?x ≫= ?f) with (f x). cbv beta iota. apply IH. intros; apply Hq; by right.
Qed.

Lemma getPodsForStatefulSet_does sel :
  LabelSelectorAsSelector (Selector (Spec s0)) = inl sel →
  does env io w (getPodsForStatefulSet set sel) (λ n x, looking n ∧ x = (w_pods w, None)).
Proof.
  intros Hsel. destruct set_is as (rv & st & Hset & Hset'). unfold getPodsForStatefulSet, FilterPodsByOwner.
  rewrite Hset'. cbn [set_meta restamp with_ResourceVersion Name Namespace UID]. rewrite !bool_decide_eq_false_2 by (done || apply Hdep).
  eapply (does_seq _ _ _ _ _ (λ n x, looking n ∧ ∃ orphans, x = inl (w_pods w ++ orphans) ∧
    Forall (unwanted (w_set w)) orphans)).
  - cbn [pods_of_keys app]. world_call. intros x (_ & Hx & _).
    rewrite Hx by (unfold set_key; by rewrite Hset). cbv beta iota.
    world_call. intros y (_ & _ & Hy).
    destruct Hy as (orphans & -> & Hor); [unfold orphan_key; by rewrite Hset|].
    apply does_ret. split; [by repeat constructor|]. by exists orphans.
  - intros n ? [Hn (orphans & -> & Hor)]. cbv beta iota. unfold ClaimPods, NewPodControllerRefManager.
    rewrite claim_own, claim_unwanted.
    + apply does_ret. rewrite app_nil_r. split; [done|]. f_equal. by apply NewAggregate_None.
    + intros q Hq. rewrite List.Forall_forall in Hor. destruct (Hor q) as [Hc Hm]; [by apply list_elem_of_In|].
      split; [done|]. rewrite Hset in Hm. specialize (Hm sel Hsel). unfold pod_match. cbn [m_Selector forallb].
      unfold isMemberOf in *. destruct (Matches sel _); [|done]. cbn in *. by rewrite Hm.
    + done.
    + intros q Hq. destruct (proj2 (st_pods _ Hw) q Hq) as (Hid & _ & _ & (ref & Href & _ & _ & Hu) & Hl).
      split; [|by exists ref]. unfold pod_match. cbn [m_Selector forallb]. rewrite (Hl sel Hsel). cbn.
      apply identityMatches_fields in Hid as (_ & Hp & _). unfold isMemberOf.
      rewrite bool_decide_eq_true_2; [done|]. by rewrite Hp.
Qed.

(** *** Writing *)

(** The revisions of the set, in order, and the one that is current. *)
Definition known : list Rev := SortControllerRevisions (w_revisions w).
Definition current : Rev := current_of set known latest.

Lemma elem_of_known v : v ∈ known ↔ v ∈ w_revisions w.
Proof. unfold known. destruct (SortControllerRevisions_spec (w_revisions w)) as [Hp _]. by rewrite Hp. Qed.

Lemma current_stored : current ∈ revs.
Proof.
  unfold current, current_of. destruct (List.find _ known) as [v|] eqn:Hf; [|apply Hdep].
  apply find_some in Hf as [Hin _]. by apply (st_revisions _ Hw), elem_of_known, list_elem_of_In.
Qed.

Lemma rolling : ∃ currentSet, rolling_set set currentSet current latest r p b.
Proof. destruct set_is as (rv & st & _ & ->). apply (dp_rolling Hdep), current_stored. Qed.

(** The latest revision records the template, so none is created. *)
Lemma revisions_known fuel : newest (w_revisions w) →
  getStatefulSetRevisions fuel set known = mret (Some (inl (current, latest, collisions set))).
Proof.
  intros Hlast. destruct (SortControllerRevisions_spec (w_revisions w)) as (_ & _ & _ & Hsort). fold known in Hsort.
  assert (∃ proposed, newRevision set (nextRevision known) (Some (collisions set)) = Some (inl proposed) ∧
    EqualRevision (Some latest) (Some proposed) = true) as (proposed & Hnew & Heq).
  { destruct set_is as (rv & st & _ & ->). destruct (dp_template Hdep rv st) as (patch & Hp & Hd).
    unfold newRevision. rewrite Hp. eexists. split; [reflexivity|]. cbn. rewrite Hd. cbn.
    by rewrite bool_decide_eq_true_2, SemanticDeepEqual_refl. }
  rewrite (getStatefulSetRevisions_unchanged fuel set known proposed latest); by rewrite ?Hsort.
Qed.

(** Calls that leave the latest revision alone. *)
Definition spares (e : api_call) : Prop :=
  match e with
  | RevisionsDelete _ name => name ≠ Name (cr_meta latest)
  | RevisionsCreate _ _ | RevisionsUpdate _ _ => False
  | _ => True
  end.
Definition sparing (n : list (obs reply)) : Prop := Forall (λ x, inert (projT1 x) ∧ spares (projT1 x)) n.

Lemma still_sparing n : still n → sparing n.
Proof. intros Hn. eapply List.Forall_impl; [|exact Hn]. intros [e x] [Hi Hd]. split; [done|]. by destruct e. Qed.

(** The status is written if it differs from the recorded one. *)
Definition records st' (n : list (obs reply)) : Prop :=
  if inconsistentStatus set st' then ∀ w', w_set (after n w') = set_Status st' (w_set w') else silent n.

Lemma update_status_does st' k s :
  set_meta s = set_meta set → does env io w (retry_loop k (update_status_attempt st') s)
    (λ n x, x.1 = None ∧ still n ∧ ∀ w', w_set (after n w') = set_Status st' (w_set w')).
Proof.
  intros Hs. destruct k; cbn [retry_loop]; unfold update_status_attempt;
    (eapply (does_seq _ _ _ _ _ (λ n x, x.1 = None ∧ still n ∧ ∀ w', w_set (after n w') = set_Status st' (w_set w')));
     [world_call; intros x [_ ->]; apply does_ret; split; [done|split; [by repeat constructor|done]]
     |intros n' [err s'] (Herr & Hn' & ?); cbn in Herr; subst err; apply does_ret; by rewrite app_nil_r]).
Qed.

Lemma updateStatefulSetStatus_does status :
  does env io w (updateStatefulSetStatus set status) (λ n x, x.1 = None ∧ still n ∧
    completeRollingUpdate set status = Some x.2 ∧ records x.2 n).
Proof.
  destruct rolling as [currentSet Hrs]. unfold updateStatefulSetStatus.
  assert (is_Some (completeRollingUpdate set status)) as [st' ->].
  { unfold completeRollingUpdate. rewrite (rs_replicas _ _ _ _ _ _ _ Hrs). destruct (bool_decide _); by eexists. }
  change (deref (Some ?x) ≫= ?f) with (f x). cbv beta.
  eapply (does_seq _ _ _ _ _ (λ n err, err = None ∧ still n ∧ silent n)).
  - destruct (FeatureEnabled _) eqn:Hf; [|by apply does_ret; repeat constructor].
    rewrite (rs_replicas _ _ _ _ _ _ _ Hrs). change (deref (Some ?x) ≫= ?f) with (f x). cbv beta.
    pose proof (rs_budget _ _ _ _ _ _ _ Hrs) as Hb. rewrite Hf in Hb. unfold specified_update in Hb.
    destruct (rs_partition _ _ _ _ _ _ _ Hrs) as (ru & Hru & Hp). rewrite Hru in *.
    unfold getStatefulSetMaxUnavailable. destruct Hb as (_ & v & -> & _).
    world_call. intros ? _. apply does_ret. split; [done|]. split; [by repeat constructor|].
    constructor; [by right|constructor].
  - intros n ? (-> & Hn & Hq). unfold records. destruct (inconsistentStatus set st') eqn:Hi; cbn [negb].
    2:{ apply does_ret. rewrite app_nil_r. split_and!; try done. cbn. by rewrite Hi. }
    unfold UpdateStatefulSetStatus. rewrite RetryOnConflict_spec.
    eapply (does_seq _ _ _ _ _ (λ n err, err = None ∧ still n ∧ ∀ w', w_set (after n w') = set_Status st' (w_set w'))).
    + eapply does_seq; [by apply update_status_does|]. intros n' [err s'] (Herr & Hn' & Hw'). cbn in Herr. subst err.
      apply does_ret. by rewrite app_nil_r.
    + intros n' ? (-> & Hn' & Hw'). apply does_ret. rewrite app_nil_r. split; [done|]. split; [by apply still_app|].
      split; [done|]. cbn. rewrite Hi. intros w'. by rewrite after_app, Hw', (silent_after n).
Qed.

(** Truncation deletes the unused revisions that are too many. *)
Definition unused : list Rev :=
  filter (λ v : Rev, Name (cr_meta v) ∉ live_names (w_pods w) (Some current) (Some latest)) known.
Definition surplus (limit : Z) : list Rev :=
  if (limit <? 0) || (Z.of_nat (length unused) <=? limit) then []
  else take (Z.to_nat (Z.of_nat (length unused) - limit)) unused.

Definition deletion (v : Rev) : obs reply :=
  existT (P := reply) (RevisionsDelete (Namespace (cr_meta v)) (Name (cr_meta v))) None.
Definition deletes (l : list Rev) (n : list (obs reply)) : Prop := n = deletion <$> l.

Lemma delete_revisions_does l :
  does env io w (delete_revisions l) (λ n err, err = None ∧ deletes l n).
Proof.
  induction l as [|v l IH]; cbn [delete_revisions]; [by apply does_ret|].
  unfold DeleteControllerRevision, realHistory, real_DeleteControllerRevision.
  world_call. intros err [_ ->]. eapply does_mono; [|exact IH]. by intros n ? [-> ->].
Qed.

Lemma truncateHistory_does limit :
  RevisionHistoryLimit (Spec set) = Some limit →
  does env io w (truncateHistory set (w_pods w) known (Some current) (Some latest))
    (λ n err, err = None ∧ deletes (surplus limit) n).
Proof.
  intros Hl. unfold truncateHistory. rewrite Hl. change (deref (Some ?x) ≫= ?f) with (f x). cbv beta zeta.
  fold unused. unfold surplus. destruct (_ || _); [by apply does_ret|apply delete_revisions_does].
Qed.

(** Only the names of the two revisions matter. *)
Lemma truncateHistory_same s pods l cur upd cur' upd' :
  same_revision cur cur' → same_revision upd upd' →
  truncateHistory s pods l (Some cur') (Some upd') = truncateHistory s pods l (Some cur) (Some upd).
Proof. intros [Hc _] [Hu _]. unfold truncateHistory, live_names. cbn. by rewrite Hc, Hu. Qed.

Lemma limit_given : ∃ limit, RevisionHistoryLimit (Spec set) = Some limit.
Proof. cbn. destruct (RevisionHistoryLimit _); by eexists. Qed.

Lemma surplus_unused limit v : v ∈ surplus limit → v ∈ unused.
Proof.
  unfold surplus. destruct (_ || _); [by intros []%not_elem_of_nil|].
  intros Hv. eapply elem_of_sublist; [exact Hv|apply sublist_take].
Qed.

Lemma deletes_sparing limit n : deletes (surplus limit) n → sparing n.
Proof.
  intros ->. apply List.Forall_forall. intros x Hx%list_elem_of_In.
  apply list_elem_of_fmap in Hx as (v & -> & Hv%surplus_unused). split; [done|].
  apply list_elem_of_filter in Hv as [Hv _]. intros Heq. apply Hv. unfold live_names. rewrite Heq. right. left.
Qed.

(** *** A whole synchronisation *)

Notation S0 := (Scheme_Default s0).

(** What a round does to the pods, and what it leaves of the revisions. *)
Definition stepped (n : list (obs reply)) : Prop :=
  Forall (λ x, spares (projT1 x)) n ∧ sound S0 (effects n (w_pods w)) ∧
  policy_step (getStartOrdinal S0) r p b (Name (cr_meta latest)) (allowsBurst S0) (Name (cr_meta current))
    (view (w_pods w)) (view (effects n (w_pods w))).

Lemma sparing_stepped n0 n n1 : sparing n0 → stepped n → sparing n1 → stepped (n0 ++ n ++ n1).
Proof.
  intros Hn0 (Hsp & Hs & Hst) Hn1.
  assert (effects (n0 ++ n ++ n1) (w_pods w) = effects n (w_pods w)) as Heff.
  { unfold effects. rewrite !foldl_app. fold (effects n0 (w_pods w)).
    rewrite (effects_inert n0) by (eapply List.Forall_impl; [|exact Hn0]; by intros x [? _]).
    apply effects_inert. eapply List.Forall_impl; [|exact Hn1]. by intros x [? _]. }
  split; [|by rewrite Heff]. apply Forall_app. split; [eapply List.Forall_impl; [|exact Hn0]; by intros x [_ ?]|].
  apply Forall_app. split; [done|]. eapply List.Forall_impl; [|exact Hn1]. by intros x [_ ?].
Qed.

(** *** The next world *)

Lemma sparing_revisions n w' :
  Forall (λ x, spares (projT1 x)) n →
  w_revisions (after n w') `sublist_of` w_revisions w' ∧
  (latest ∈ w_revisions w' → latest ∈ w_revisions (after n w')).
Proof.
  revert w'. induction n as [|x n IH]; intros w'; [done|]. intros [Hx Hn]%list.Forall_cons.
  change (after (x :: n) w') with (after n (after_call w' x)). destruct (IH (after_call w' x) Hn) as [Hsub Hin].
  assert (revision_effect x (w_revisions w') `sublist_of` w_revisions w' ∧
    (latest ∈ w_revisions w' → latest ∈ revision_effect x (w_revisions w'))) as [Hsub' Hin'].
  { destruct x as [[] y]; try done. destruct y; [done|]. cbn in *. split; [apply list.sublist_filter|].
    intros Hl. apply list_elem_of_filter. split; [|done]. intros [_ Heq]. congruence. }
  split; [etrans; [exact Hsub|exact Hsub']|auto].
Qed.

Lemma stepped_standing w' n :
  standing w' → w_pods w' = w_pods w → stepped n → standing (after n w').
Proof.
  intros [Hw' Hl] Hp (Hsp & Hs & _). destruct (sparing_revisions n w' Hsp) as [Hsub Hin].
  split; [split|].
  - destruct (after_set n w') as [st ->]. destruct (st_set _ Hw') as (rv & st' & ->). by exists rv, st.
  - intros v Hv. apply (st_revisions _ Hw'). by eapply elem_of_sublist.
  - eapply sublist_NoDup; [apply (st_names _ Hw')|by apply fmap_sublist].
  - by rewrite after_pods, Hp.
  - eapply newest_left; [done|apply Hw'|done|]. by apply Hin, last_stored.
Qed.

(** *** The calls of [sync] *)

Context (Hsettled : ∀ q, q ∈ w_pods w → settled_at (w_time w) S0 q).

Lemma updateStatefulSet_does cur upd c :
  same_revision current cur → same_revision latest upd →
  does env io w (updateStatefulSet set cur upd c (w_pods w)) (λ n x, (∃ st, x = (Some st, None)) ∧ stepped n).
Proof.
  intros Hcur Hupd. destruct rolling as [currentSet Hrs0]. destruct set_is as (rv & st & _ & Hset).
  pose proof (rolling_same _ _ _ _ cur upd _ _ _ Hrs0 Hcur Hupd) as Hrs. clear Hrs0.
  assert (implements set cur upd (policy_step (getStartOrdinal S0) r p b (Name (cr_meta latest))
    (allowsBurst S0) (Name (cr_meta current)))) as Himp.
  { rewrite <- (proj1 Hcur), <- (proj1 Hupd). unfold policy_step. replace (getStartOrdinal S0) with (getStartOrdinal set) by by rewrite Hset.
    replace (allowsBurst S0) with (allowsBurst set) by by rewrite Hset.
    destruct (allowsBurst set) eqn:Hb; [by eapply updateStatefulSet_parallel|by eapply updateStatefulSet_step]. }
  assert (healthy set (w_time w) (w_pods w)) as Hh by (rewrite Hset; split; [apply Hw|exact Hsettled]).
  eapply (wp_weaken _ _ (λ _, pod_io)); [by intros o [? _]%serves_env| |].
  { intros _ e He. apply serves_io. by destruct e. }
  eapply wp_mono; [|apply (wp_calls (accepting (w_time w)) pod_io any_call); [apply updateStatefulSet_calls|by apply Himp]].
  intros n o ((x & -> & Hx & Hs & Hst) & new & Hn & Hall). cbn in Hn. subst new. exists x. split; [done|].
  split; [done|]. split_and!; [|by rewrite Hset in Hs|done].
  eapply List.Forall_impl; [|exact Hall]. intros [e y] [He _]. by destruct e.
Qed.

(** The calls of [sync] around [UpdateStatefulSet]: it looks, and puts the key back for
    later when a pod is not available yet. *)
Lemma sync_around fuel (Q : XStatefulSetStatus → list (obs reply) → Prop) :
  does env io w (UpdateStatefulSet fuel set (w_pods w)) (λ n x, ∃ st, x = Some (Some st, None) ∧ Q st n) →
  does env io w (sync fuel (meta_key (set_meta s0)))
    (λ n x, x = Some None ∧ ∃ st n0 n1 n2, n = n0 ++ n1 ++ n2 ∧ looking n0 ∧ Q st n1 ∧
       waiting_calls n2 ∧ (AvailableReplicas st = r → n2 = [])).
Proof.
  intros HQ. destruct set_is as (rv & st & Hset & Hset'). destruct (dp_namespace Hdep) as [Hns1 Hns2]. unfold sync, meta_key.
  rewrite bool_decide_eq_false_2, SplitMetaNamespaceKey_key by (done || apply Hdep).
  world_call. intros x [_ Hx]. rewrite Hx by by rewrite Hset. cbv beta iota.
  destruct (dp_selector Hdep) as [sel Hsel].
  replace (Selector (Spec (w_set w))) with (Selector (Spec s0)) by by rewrite Hset. rewrite Hsel. cbv zeta.
  set (x0 := existT _ _). assert (looking [x0]) as Hx0 by (subst x0; by repeat constructor).
  eapply does_seq; [apply adoptOrphanRevisions_does|]. intros n1 ? [Hn1 ->]. cbv beta iota.
  eapply does_seq; [by apply getPodsForStatefulSet_does|]. intros n2 ? [Hn2 ->]. cbv beta iota.
  eapply (does_mono _ _ _ _ (λ n y, y = Some None ∧ ∃ st n3 n4, n = n3 ++ n4 ∧ Q st n3 ∧ waiting_calls n4 ∧
    (AvailableReplicas st = r → n4 = []))).
  { intros n y [-> (st' & n3 & n4 & -> & Hn3 & Hn4)]. split; [done|]. exists st', ((x0 :: n1) ++ n2), n3, n4.
    split; [by rewrite <- !(assoc_L (++))|]. split; [|done]. apply Forall_app. split; [|done].
    by apply (Forall_app _ [x0]). }
  unfold syncStatefulSet. eapply does_seq; [exact HQ|]. intros n3 ? (st' & -> & Hn3). cbv beta iota.
  eapply (does_seq _ _ _ _ _ (λ n _, waiting_calls n ∧ (AvailableReplicas st' = r → n = []))).
  - destruct (0 <? _); [|apply does_ret; split; [constructor|done]]. destruct rolling as [currentSet Hrs].
    rewrite (rs_replicas _ _ _ _ _ _ _ Hrs). change (deref (Some ?x) ≫= ?f) with (f x). cbv beta.
    destruct (bool_decide_reflect (AvailableReplicas st' ≠ r)) as [Hne|]; [|apply does_ret; split; [constructor|done]].
    unfold enqueueSSAfter. rewrite KeyFunc_set.
    apply does_call; [apply _|done|]. intros ? _. split; [by repeat constructor|done].
  - intros n4 [] [Hn4 Hav]. apply does_ret. rewrite app_nil_r. split; [done|]. by exists st', n3, n4.
Qed.

(** The revisions of a round: it makes [latest] the update revision, and [f] says what
    becomes of the stored ones. *)
Definition rewrites (f : list Rev → list Rev) (n : list (obs reply)) : Prop :=
  ∀ w', w_pods (after n w') = w_pods w' ∧ w_revisions (after n w') = f (w_revisions w').

Lemma still_rewrites f n n' : still n → rewrites f n' → rewrites f (n ++ n').
Proof.
  intros Hn Hn' w'. rewrite after_app. destruct (Hn' (after n w')) as [-> ->].
  by rewrite after_pods, still_pods, still_revisions.
Qed.

Context (f : list Rev → list Rev) (fuel : nat).
Context (Hrevs : does env io w (getStatefulSetRevisions fuel set known)
  (λ n x, (∃ cur upd c, x = Some (inl (cur, upd, c)) ∧ same_revision current cur ∧ same_revision latest upd) ∧
     rewrites f n)).

Definition launched (n : list (obs reply)) : Prop :=
  ∃ n0 n1, n = n0 ++ n1 ∧ rewrites f n0 ∧ stepped n1.

Lemma launched_between n n' n2 : still n → launched n' → sparing n2 → launched (n ++ n' ++ n2).
Proof.
  intros Hn (n0 & n1 & -> & Hn0 & Hn1) Hn2. exists (n ++ n0), (n1 ++ n2). split; [by rewrite !(assoc_L (++))|].
  split; [by apply still_rewrites|]. change (n1 ++ n2) with ([] ++ n1 ++ n2). apply sparing_stepped; [constructor|done..].
Qed.

Lemma UpdateStatefulSet_does :
  does env io w (UpdateStatefulSet fuel set (w_pods w)) (λ n x, (∃ st, x = Some (Some st, None)) ∧ launched n).
Proof.
  unfold UpdateStatefulSet. eapply does_seq; [apply ListRevisions_does|]. intros n ? [Hn%looking_still ->]. cbv beta iota zeta.
  unfold performUpdate. fold known.
  eapply (does_seq _ _ _ _ _ (λ n x, (∃ cur upd st, x = Some (Some cur, Some upd, Some st, None) ∧
    same_revision current cur ∧ same_revision latest upd) ∧ launched n)).
  - eapply does_seq; [exact Hrevs|]. intros n0 ? [(cur & upd & c & -> & Hcur & Hupd) Hn0]. cbv beta iota.
    eapply does_seq; [by apply updateStatefulSet_does|]. intros n1 ? [[st ->] Hn1]. cbv beta iota.
    eapply does_seq; [apply updateStatefulSetStatus_does|]. intros n2 [err st'] (Herr & Hn2 & _). cbn in Herr. subst err.
    apply does_ret. rewrite app_nil_r. split; [by eexists _, _, _|]. exists n0, (n1 ++ n2). split; [done|]. split; [done|].
    change (n1 ++ n2) with ([] ++ n1 ++ n2). apply sparing_stepped; [constructor|done|by apply still_sparing].
  - intros n1 ? [(cur & upd & st & -> & Hcur & Hupd) Hn1]. cbv beta iota. destruct limit_given as [limit Hlimit].
    rewrite (truncateHistory_same _ _ _ current latest) by done. eapply does_seq; [by apply (truncateHistory_does limit)|].
    intros n2 ? [-> Hn2%deletes_sparing]. apply does_ret. rewrite app_nil_r. split; [by eexists|]. by apply launched_between.
Qed.

Lemma sync_does : does env io w (sync fuel (meta_key (set_meta s0))) (λ n x, x = Some None ∧ launched n).
Proof.
  eapply does_mono; [|apply (sync_around fuel (λ _, launched))].
  2:{ eapply does_mono; [|apply UpdateStatefulSet_does]. intros n x [[st ->] Hn]. by exists st. }
  intros n x [-> (st & n0 & n1 & n2 & -> & Hn0%looking_still & Hn1 & Hn2%waiting_still & _)]. split; [done|].
  by apply launched_between; [..|apply still_sparing].
Qed.

(** What is left is a world that stands. *)
Lemma launched_standing n :
  newest (f (w_revisions w)) → (∀ v, v ∈ f (w_revisions w) → v ∈ revs) →
  NoDup ((λ v : Rev, Name (cr_meta v)) <$> f (w_revisions w)) → launched n →
  standing (after n w) ∧
  policy_step (getStartOrdinal S0) r p b (Name (cr_meta latest)) (allowsBurst S0) (Name (cr_meta current))
    (view (w_pods w)) (view (w_pods (after n w))).
Proof.
  intros Hnew Hin Hnd (n0 & n1 & -> & Hn0 & Hn1). rewrite after_app. destruct (Hn0 w) as [Hp Hr]. split.
  - apply stepped_standing; [|done|done]. split; [split|by rewrite Hr].
    + destruct (after_set n0 w) as [st ->]. destruct (st_set _ Hw) as (rv & st' & ->). by exists rv, st.
    + by rewrite Hr.
    + by rewrite Hr.
    + rewrite Hp. apply Hw.
  - rewrite after_pods, Hp. apply Hn1.
Qed.
End reading.

(** A round that takes a step of the rollout and leaves a world that stands. *)
Definition advances (env : world → obs reply → Prop) io fuel w : Prop :=
  does env io w (sync fuel (meta_key (set_meta s0))) (λ n x, x = Some None ∧ standing (after n w) ∧
    policy_step (getStartOrdinal (Scheme_Default s0)) r p b (Name (cr_meta latest)) (allowsBurst (Scheme_Default s0))
      (Name (cr_meta (current w))) (view (w_pods w)) (view (w_pods (after n w)))).

Lemma standing_round env io `{!Serves env io} w fuel : settled_world w → advances env io fuel w.
Proof.
  intros [[Hw Hl] Hrest]. eapply does_mono; [|apply (sync_does w Hw Hrest id)].
  - intros n x [-> Hn]. split; [done|]. by apply (launched_standing w Hw id n Hl (st_revisions _ Hw) (st_names _ Hw)).
  - rewrite revisions_known by done. apply does_ret. split; [by eexists _, _, _|]. done.
Qed.

(** C3: a whole [sync] of the key of a set takes one step of the rollout.  Of a set with a
    rolling update whose newest stored revision already records its template and whose
    revisions restore to valid sets, with settled pods, orphans it does not want,
    up-to-date caches and an API server that accepts writes, [sync] reports no error
    and does not panic; it adopts and releases nothing and creates no revision; the
    effect of its calls on the pods is the step that [Rollout] prescribes for the pod
    management policy of the set, under any interleaving of its goroutines; and the
    world it leaves is one from which the next [sync] can go on: the pods keep
    identity, storage and owner, only the status of the set changed, and the history
    was truncated without touching the newest revision. *)
Theorem sync_refines_rollout w fuel :
  settled_world w →
  wp (serving w) (λ _, round_io) (sync fuel (meta_key (set_meta s0)))
    (returns (λ tr x, x = Some None ∧ standing (after tr w) ∧
       ∃ cur, cur ∈ revs ∧
         policy_step (getStartOrdinal (Scheme_Default s0)) r p b (Name (cr_meta latest))
           (allowsBurst (Scheme_Default s0)) (Name (cr_meta cur))
           (view (w_pods w)) (view (w_pods (after tr w))))) [].
Proof.
  intros Hw. eapply (does_mono serving round_io w); [|by apply standing_round; [apply _|]].
  intros n x (-> & Hst & Hstep). split; [done|]. split; [done|]. exists (current w).
  split; [by apply current_stored, Hw|done].
Qed.

(** ** The closed loop *)

(** A [sync], then the nodes start the new pods and the caches catch up; a write of the
    status gave the set another resource version. *)
Definition turn_in (env : world → obs reply → Prop) fuel w w' : Prop :=
  ∃ tr o, runs (sync fuel (meta_key (set_meta s0))) tr o ∧ Forall (env w) tr ∧
    (∃ rv, w_set w' = restamp rv (Status (w_set (after tr w))) (w_set (after tr w))) ∧ w_revisions w' = w_revisions (after tr w) ∧
    Forall2 (started (Scheme_Default s0) (w_time w')) (w_pods (after tr w)) (w_pods w').
Definition turn : nat → world → world → Prop := turn_in serving.

Lemma set_key_orphan_key s : set_key s ≠ orphan_key s.
Proof.
  unfold set_key, orphan_key, PodControllerIndexKey. intros Heq%(f_equal (λ k, length (chars k))).
  rewrite !chars_app, !length_app in Heq. change (length (chars "/")) with 1%nat in Heq. lia.
Qed.

Lemma serving_answer w : (∃ err, IsNotFound err = true) → ∀ e, ∃ x, serving w (existT e x).
Proof.
  intros Herr e. destruct (accepting_answer (w_time w) Herr e) as [x Hx]. destruct e; try (by exists x).
  - destruct (decide (key = set_key (w_set w))) as [->|Hne].
    + exists (inl (w_pods w)). split; [done|]. split; [done|]. intros Heq. by destruct (set_key_orphan_key (w_set w)).
    + exists (inl []). split; [done|]. split; [done|]. intros _. by exists [].
  - by exists None.
  - by exists (inl (w_revisions w)).
  - by exists None.
  - by exists (inl (w_set w)).
Qed.

Lemma standing_started w w' :
  standing w → (∃ rv, w_set w' = restamp rv (Status (w_set w)) (w_set w)) → w_revisions w' = w_revisions w →
  Forall2 (started (Scheme_Default s0) (w_time w')) (w_pods w) (w_pods w') →
  settled_world w' ∧ view (w_pods w') = view (w_pods w).
Proof.
  intros [[(rv0 & st & Hset) Hrevs Hnames Hpods] Hlast] [rv Hs] Hr Hall.
  destruct (started_healthy _ _ _ _ Hpods Hall) as [[Hsound Hsettled] Hview]. split; [|done].
  split; [|done]. split; [split; [exists rv, st; by rewrite Hs, Hset|by rewrite Hr..|done]|by rewrite Hr].
Qed.

Lemma turn_in_step env io fuel w w' :
  advances env io fuel w → turn_in env fuel w w' → settled_world w' ∧ ∃ cur,
    policy_step (getStartOrdinal (Scheme_Default s0)) r p b (Name (cr_meta latest))
      (allowsBurst (Scheme_Default s0)) cur (view (w_pods w)) (view (w_pods w')).
Proof.
  intros Hw (tr & o & Hrun & Hadm & Hset & Hrevs & Hall).
  destruct (wp_runs _ _ _ _ [] tr o Hw Hrun Hadm) as [_ (x & _ & _ & Hst & Hstep)].
  change ([] ++ tr) with tr in *.
  destruct (standing_started (after tr w) w') as [Hw' ->]; [done..|]. split; [done|]. by eexists.
Qed.

Lemma turn_in_exists env io fuel w :
  (∀ e, ∃ x, env w (existT e x)) → advances env io fuel w → ∃ w', turn_in env fuel w w'.
Proof.
  intros Hex Hw. destruct (runs_exists (env w) (sync fuel (meta_key (set_meta s0)))) as (tr & o & Hrun & Hadm); [done|].
  destruct (wp_runs _ _ _ _ [] tr o Hw Hrun Hadm) as [_ (x & _ & _ & [Hpl _] & _)]. change ([] ++ tr) with tr in *.
  destruct (started_exists _ _ (proj2 (st_pods _ Hpl))) as (t' & pods' & Hall).
  exists {| w_time := t'; w_set := w_set (after tr w); w_revisions := w_revisions (after tr w); w_pods := pods' |}.
  exists tr, o. split_and!; try done. exists (ResourceVersion (set_meta (w_set (after tr w)))). by destruct (w_set _) as [[] ? ?].
Qed.

Lemma turn_step fuel w w' :
  settled_world w → turn fuel w w' → settled_world w' ∧ ∃ cur,
    policy_step (getStartOrdinal (Scheme_Default s0)) r p b (Name (cr_meta latest))
      (allowsBurst (Scheme_Default s0)) cur (view (w_pods w)) (view (w_pods w')).
Proof. intros Hw. by eapply turn_in_step, (standing_round serving round_io). Qed.

Lemma turn_exists fuel w : (∃ err, IsNotFound err = true) → settled_world w → ∃ w', turn fuel w w'.
Proof. intros Herr Hw. eapply turn_in_exists; [by apply serving_answer|by apply (standing_round serving round_io)]. Qed.

(** The controller rolls a set out.  Rounds of a whole [sync], of nodes that start
    the new pods and of caches that catch up can always go on; the pods stay in order;
    and after as many rounds as there is work (under the default policy one per missing
    ordinal, one per surplus ordinal and two per outdated pod above the partition;
    under the parallel policy one for all the scaling and two per outdated pod) every
    ordinal of the set has a pod, no other ordinal has one, and every pod from the
    partition on runs the latest revision, however many further rounds follow. *)
Lemma sync_rolls_out fuel n w w' :
  (∃ err : error, IsNotFound err = true) → settled_world w → nsteps (turn fuel) n w w' →
  settled_world w' ∧ (∃ w'', turn fuel w' w'') ∧
  ((policy_work (getStartOrdinal (Scheme_Default s0)) r p (Name (cr_meta latest))
      (allowsBurst (Scheme_Default s0)) (view (w_pods w)) ≤ n)%nat →
   rolled_out (getStartOrdinal (Scheme_Default s0)) r p (Name (cr_meta latest)) (view (w_pods w'))).
Proof.
  intros Herr Hw Hsteps. destruct (rolling w (proj1 (proj1 Hw))) as [currentSet Hrs].
  pose proof (partition_nonneg _ _ _ _ _ _ _ Hrs) as Hp. pose proof (budget_pos _ _ _ _ _ _ _ Hrs) as Hb.
  clear currentSet Hrs. induction Hsteps as [w|n w w1 w' Hturn _ IH].
  - split; [done|]. split; [by apply turn_exists|]. intros Hn.
    apply (policy_work_zero _ _ _ _ (allowsBurst (Scheme_Default s0))); [done|lia].
  - destruct (turn_step fuel w w1 Hw Hturn) as [Hw1 [cur Hstep]]. destruct (IH Hw1) as (Hin & Hex & Hdone).
    split; [done|]. split; [done|]. intros Hn. apply Hdone. by eapply policy_step_left.
Qed.
End rounds.
