(* ===== verification/Launch.v ===== *)
(** * A new template: the first synchronisation, and the rollout that follows

    [System] is about sets whose newest revision records their template.  Here the
    template is any: the first [sync] makes it the newest revision, by creating one, by
    giving an old one a new number or by finding it there, and takes a step of the
    rollout already; from then on the rounds of [System] go on. *)
From S2P Require Export System.

Section launch.
Context `{K8sLaws} `{GoLaws} `{!ClientGo}.
#[local] Existing Instance realHistory.
Context (s0 : XStatefulSet) (revs : list Rev) (latest : Rev) (r p b : Z).
Context (store : gmap string Rev).
(** What the API server stores when it is sent a revision, whatever it adds. *)
Context (stamp : string → Rev → Rev) (Hstamp : ∀ ns v, stores ns v (stamp ns v)).
Implicit Types (w : world) (v : Rev).

(** ** The revision of the template *)

(** What the API server answers about revisions: it holds [store], by name, stores a new
    revision under a free name, and accepts the new number of a revision; it answers what
    it has stored.  The cache of comparisons has no entry of this set. *)
Definition publishing w (o : obs reply) : Prop :=
  serving w o ∧
  match o with
  | existT (RevisionsCreate ns v) x => store_obs store o ∧ ∀ stored, x = inl stored → stored = stamp ns v
  | existT (RevisionsGet _ _) _ => store_obs store o
  | existT (RevisionsUpdate ns v) x => x = (Some (stamp ns v), None)
  | existT (LruGet _) x => x = false
  | _ => True
  end.

(** The round may publish a revision; it still neither adopts nor releases. *)
Definition publish_io (e : api_call) : Prop :=
  match e with
  | PodsPatch _ _ _ | RevisionsPatch _ _ _ | ReplicaSetsPatch _ _ _ => False
  | _ => True
  end.

#[local] Instance publishing_serves : Serves publishing publish_io.
Proof. split; [by intros w o []|]. by intros []. Qed.

(** A revision that restores another template than that of [set]. *)
Definition other_template (set : XStatefulSet) (proposed v : Rev) : Prop :=
  FeatureEnabled StatefulSetSemanticRevisionComparison = false ∨
  ∃ x, ApplyRevision set v = Some x ∧
    match x with
    | inr _ => True
    | inl old => ∃ q, newRevision (Scheme_Default old) (-1) None = Some q ∧
        match q with inr _ => True | inl old => EqualRevision (Some proposed) (Some old) = false end
    end.

Section first.
Context (w : world).
Notation set := (Scheme_Default (w_set w)).
Notation parent := (set_meta set).
Notation count := (collisions set).

Definition proposal : option (Rev + error) := newRevision set (nextRevision (known w)) (Some count).

(** How the newest revision comes to record the template, and what becomes of the stored
    revisions: it is there; it is an older one, with a new number; or it is new, under the
    first free name that the hashes with growing collision counts give.  [latest] is the
    revision as the API server has stored it. *)
Inductive publication (fuel : nat) (proposed : Rev) : (list Rev → list Rev) → Prop :=
| pub_known :
    list.last (known w) = Some latest → EqualRevision (Some latest) (Some proposed) = true →
    publication fuel proposed id
| pub_back v old :
    list.last (known w) = Some v → list.last (FindEqualRevisions (known w) proposed) = Some old →
    EqualRevision (Some v) (Some old) = false →
    latest = stamp (Namespace (cr_meta old)) (set_Revision (nextRevision (known w)) old) →
    publication fuel proposed (replaced latest)
| pub_new k :
    FindEqualRevisions (known w) proposed = [] →
    (∀ v, list.last (known w) = Some v → other_template set proposed v) → (k < fuel)%nat →
    (∀ j, (j < k)%nat → ∃ v, store !! probe_name parent proposed (probe_count j count) = Some v ∧
                             Raw (Data v) ≠ Raw (Data proposed)) →
    latest = stamp (Namespace parent) (probe parent proposed (probe_count k count)) → store !! Name (cr_meta latest) = None →
    publication fuel proposed (λ l, l ++ [latest]).
End first.

(** A world whose revisions are stored, with numbers that leave room for one more. *)
Record publishable w : Prop := {
  pb_stored v : v ∈ w_revisions w → store !! Name (cr_meta v) = Some v;
  pb_numbers v : v ∈ w_revisions w → 0 ≤ Revision v < 9223372036854775807
}.

(** ** The first synchronisation *)

Section round.
Context (w : world) (fuel : nat) (proposed : Rev) (f : list Rev → list Rev).
Notation set := (Scheme_Default (w_set w)).
Notation parent := (set_meta set).
Notation count := (collisions set).
Hypothesis Hproposed : proposal w = Some (inl proposed).
Hypothesis Hpub : publication w fuel proposed f.
Hypothesis Hnames : NoDup ((λ v, Name (cr_meta v)) <$> w_revisions w).
Hypothesis Hstored : publishable w.

Lemma proposed_number : Revision proposed = nextRevision (known w).
Proof. by eapply newRevision_Revision. Qed.

Lemma greater_number v : v ∈ w_revisions w → Revision v < nextRevision (known w).
Proof. apply nextRevision_newest, Hstored. Qed.

Lemma equal_stored old : list.last (FindEqualRevisions (known w) proposed) = Some old → old ∈ w_revisions w.
Proof.
  intros [l Hl]%last_Some. apply elem_of_known.
  assert (old ∈ FindEqualRevisions (known w) proposed) as Ho
    by (rewrite Hl; apply elem_of_app; by right; left).
  by apply list_elem_of_In, filter_In in Ho as [Ho%list_elem_of_In _].
Qed.

(** The stored revisions afterwards. *)
Lemma stamped ns v : Name (cr_meta (stamp ns v)) = Name (cr_meta v) ∧ Data (stamp ns v) = Data v ∧
  Revision (stamp ns v) = Revision v.
Proof. destruct (Hstamp ns v) as ((? & _) & ? & ?). done. Qed.

Lemma published :
  newest latest (f (w_revisions w)) ∧ NoDup ((λ v, Name (cr_meta v)) <$> f (w_revisions w)) ∧
  ∀ v, v ∈ f (w_revisions w) → v = latest ∨ v ∈ w_revisions w.
Proof.
  destruct Hpub as [Hlast _|v old Hlast Hold _ Hl|k _ _ _ _ Hl Hfree].
  - by split_and!; [|done|auto].
  - pose proof (equal_stored old Hold) as Hin.
    assert (Name (cr_meta latest) = Name (cr_meta old)) as Hn by 
      by (rewrite Hl; exact (proj1 (stamped _ (set_Revision _ old)))).
    assert (Revision latest = nextRevision (known w)) as Hnum 
      by (rewrite Hl; exact (proj2 (proj2 (stamped _ (set_Revision _ old))))).
    assert (∀ v, v ∈ replaced latest (w_revisions w) → v = latest ∨ v ∈ w_revisions w) as Hcase.
    { intros x (y & -> & Hy)%list_elem_of_fmap. cbn. destruct (bool_decide _); [by left|by right]. }
    split_and!; [|by rewrite replaced_names|done]. apply newest_greatest.
    + apply list_elem_of_fmap. exists old. split; [|done]. by rewrite bool_decide_eq_true_2.
    + intros x [?|Hx]%Hcase; [by left|right]. rewrite Hnum. by apply greater_number.
  - split_and!.
    + apply newest_greatest; [set_solver|]. intros x [Hx|Hx%list_elem_of_singleton]%elem_of_app; [right|by left].
      rewrite Hl, (proj2 (proj2 (stamped _ _))). change (Revision x < Revision proposed).
      rewrite proposed_number. by apply greater_number.
    + rewrite fmap_app. apply list.NoDup_app. split_and!; [done| |apply NoDup_singleton].
      intros n (v & -> & Hv)%list_elem_of_fmap Hn%list_elem_of_singleton.
      pose proof (pb_stored _ Hstored v Hv). cbn in Hn. congruence.
    + set_solver.
Qed.

(** *** The calls about revisions *)

Lemma rewrites_cons (x : obs reply) n g h :
  (∀ pods, effect x pods = pods) → (∀ l, revision_effect x l = g l) → rewrites h n → rewrites (λ l, h (g l)) (x :: n).
Proof.
  intros Hp Hg Hn w'. change (after (x :: n) w') with (after n (after_call w' x)).
  destruct (Hn (after_call w' x)) as [-> ->]. cbn. by rewrite Hp, Hg.
Qed.

Lemma rewrites_nil : rewrites id [].
Proof. done. Qed.

Lemma create_loop_publishes k n clone c :
  (k < n)%nat → (∀ name, set_cr_meta (with_Name name) clone = set_cr_meta (with_Name name) proposed) →
  (∀ j, (j < k)%nat → ∃ v, store !! probe_name parent proposed (probe_count j c) = Some v ∧
                           Raw (Data v) ≠ Raw (Data proposed)) →
  store !! probe_name parent proposed (probe_count k c) = None →
  does publishing publish_io w (create_loop n parent proposed clone c)
    (λ t x, x = (Some (inl (stamp (Namespace parent) (probe parent proposed (probe_count k c)))), probe_count k c) ∧
       rewrites (λ l, l ++ [stamp (Namespace parent) (probe parent proposed (probe_count k c))]) t).
Proof.
  revert k clone c. induction n as [|n IH]; intros k clone c Hk Hclone Htaken Hfree; [lia|].
  assert (Data clone = Data proposed) as Hdata by exact (f_equal Data (Hclone "")).
  cbn [create_loop]. rewrite (Hclone (ControllerRevisionName _ _)).
  fold (probe_name parent proposed c). fold (probe parent proposed c). cbv zeta.
  apply does_io_seq; [done|]. intros x [_ [Hx Hans]].
  change (match store !! probe_name parent proposed c with
          | Some _ => ∃ err, x = inr err ∧ IsAlreadyExists err = true
          | None => ∃ v, x = inl v ∧ stores (Namespace parent) (probe parent proposed c) v end) in Hx.
  destruct k as [|k].
  - cbn [probe_count] in Hfree |- *. rewrite Hfree in Hx.
    destruct Hx as (v & -> & _). rewrite (Hans v eq_refl). apply does_ret. split; [done|].
    by apply (rewrites_cons _ [] (λ l, l ++ [_]) id).
  - destruct (Htaken 0%nat) as (old & Hold & Hne); [lia|]. cbn [probe_count] in Hold. rewrite Hold in Hx.
    destruct Hx as (err & -> & ->). apply does_io_seq; [done|]. intros y [_ Hy].
    rewrite (Hy old Hold). change (Data (probe parent proposed c)) with (Data proposed).
    rewrite bool_decide_eq_false_2 by done. eapply does_mono; [|apply (IH k); [lia|done| |done]].
    + intros t z [-> Ht]. split; [done|]. by do 2 (apply (rewrites_cons _ _ id (λ l, l ++ [_])); [done|done|]).
    + intros j Hj. apply (Htaken (S j)). lia.
Qed.

Lemma UpdateControllerRevision_publishes old :
  Revision old ≠ Revision proposed →
  does publishing publish_io w (real_UpdateControllerRevision old (Revision proposed))
    (λ t x, x = (set_Revision (Revision proposed) old, None) ∧
       rewrites (replaced (stamp (Namespace (cr_meta old)) (set_Revision (Revision proposed) old))) t).
Proof.
  intros Hne. unfold real_UpdateControllerRevision. rewrite RetryOnConflict_spec.
  eapply (does_seq _ _ _ _ _ (λ t x, x = (None, set_Revision (Revision proposed) old) ∧
    rewrites (replaced (stamp (Namespace (cr_meta old)) (set_Revision (Revision proposed) old))) t)).
  - assert (does publishing publish_io w (update_attempt (Revision proposed) old)
      (λ t x, x = (None, set_Revision (Revision proposed) old) ∧
         rewrites (replaced (stamp (Namespace (cr_meta old)) (set_Revision (Revision proposed) old))) t)) as Hone.
    { unfold update_attempt. replace (Revision old =? Revision proposed) with false by lia. cbv zeta.
      apply does_io_seq; [done|]. intros x [_ Hx]. cbn in Hx. subst x. apply does_ret. split; [done|].
      by apply (rewrites_cons _ [] (replaced _) id). }
    destruct (retries DefaultBackoff); cbn [retry_loop]; (eapply does_seq; [exact Hone|]);
      intros t ? [-> Ht]; apply does_ret; by rewrite app_nil_r.
  - intros t ? [-> Ht]. apply does_ret. by rewrite app_nil_r.
Qed.

Lemma matches_no_other v :
  other_template set proposed v →
  does publishing publish_io w (setMatchesLatestExistingRevision set proposed v) (λ t x, x = false ∧ rewrites id t).
Proof.
  unfold setMatchesLatestExistingRevision, other_template. intros [->|(x & Hx & Hold)]; [by apply does_ret|].
  destruct (FeatureEnabled _); [|by apply does_ret]. cbn [negb]. apply does_io_seq; [done|].
  intros ok [_ Hok]. cbn in Hok. subst ok. rewrite Hx. change (deref (Some ?y) ≫= ?g) with (g y). cbv beta iota.
  destruct x as [old|err]; [|by apply does_ret]. destruct Hold as (q & -> & Hq).
  change (deref (Some ?y) ≫= ?g) with (g y). cbv beta iota.
  destruct q as [rec|err]; [rewrite Hq|]; by apply does_ret.
Qed.

Lemma getStatefulSetRevisions_publishes :
  does publishing publish_io w (getStatefulSetRevisions fuel set (known w))
    (λ t x, (∃ cur upd c, x = Some (inl (cur, upd, c)) ∧ same_revision (current latest w) cur ∧
       same_revision latest upd) ∧ rewrites f t).
Proof.
  destruct (SortControllerRevisions_spec (w_revisions w)) as (_ & _ & _ & Hsort).
  unfold getStatefulSetRevisions. fold (known w) in Hsort. rewrite Hsort. fold count. cbv zeta.
  unfold proposal in Hproposed. rewrite Hproposed. change (deref (Some ?x) ≫= ?g) with (g x). cbv beta iota.
  eapply (does_seq _ _ _ _ _ (λ t x, (∃ upd c, x = Some (inl (upd, c)) ∧ same_revision latest upd) ∧ rewrites f t)).
  2:{ intros t ? [(upd & c & -> & Hupd) Ht]. apply does_ret. rewrite app_nil_r. split; [|done].
      eexists _, _, _. split; [done|]. split; [|done]. unfold current, current_of.
      by destruct (List.find _ _). }
  unfold chooseUpdateRevision. destruct Hpub as [Hlast Heq|v old Hlast Hold Hne Hl|k Hnone Hother Hk Htaken Hl Hfree].
  - rewrite Hlast, (FindEqualRevisions_last _ _ _ Hlast Heq).
    assert (EqualRevision (Some latest) (Some latest) = true) as ->.
    { cbn. by rewrite bool_decide_eq_true_2, SemanticDeepEqual_refl. }
    apply does_ret. split; [by eexists _, _|done].
  - rewrite Hlast, Hold, Hne. eapply does_seq; [apply UpdateControllerRevision_publishes|].
    + rewrite proposed_number. pose proof (greater_number old (equal_stored old Hold)). lia.
    + intros t ? [-> Ht]. rewrite proposed_number, <- Hl in *. apply does_ret. rewrite app_nil_r.
      split; [|done]. eexists _, _. split; [done|]. rewrite Hl.
      destruct (stamped (Namespace (cr_meta old)) (set_Revision (nextRevision (known w)) old)) as (? & ? & _). done.
  - rewrite Hnone. assert (does publishing publish_io w
      ('(x, c) ← real_CreateControllerRevision fuel parent proposed (Some count);
       mret (match x with
             | None => None
             | Some (inr err) => Some (inr err)
             | Some (inl created) => Some (inl (created, default count c))
             end)) (λ t x, (∃ upd c, x = Some (inl (upd, c)) ∧ same_revision latest upd) ∧
               rewrites (λ l, l ++ [latest]) t)) as Hcreate.
    { eapply (does_seq _ _ _ _ _ (λ t x, x = (Some (inl latest), Some (probe_count k count)) ∧
        rewrites (λ l, l ++ [latest]) t)).
      - eapply does_seq; [apply (create_loop_publishes k fuel proposed count); try done;
          by rewrite Hl, (proj1 (stamped _ _)) in Hfree|].
        intros t ? [-> Ht]. apply does_ret. by rewrite app_nil_r, Hl.
      - intros t ? [-> Ht]. apply does_ret. rewrite app_nil_r. split; [by eexists _, _|done]. }
    destruct (list.last (known w)) as [v|] eqn:Hlast; [|exact Hcreate].
    eapply does_seq; [by apply matches_no_other, Hother|]. intros t ? [-> Ht]. cbv beta iota.
    eapply does_mono; [|exact Hcreate]. intros t' x [Hx Ht']. split; [done|].
    intros w'. rewrite after_app. destruct (Ht' (after t w')) as [-> ->], (Ht w') as [-> ->]. done.
Qed.
End round.

(** ** The rollout *)

Context (Hdep : deployment s0 revs latest r p b).
Notation S0 := (Scheme_Default s0).

(** The world before the first round: the set, with its new template and any status, its
    pods, started, and its revisions. *)
Record waiting (fuel : nat) (proposed : Rev) (f : list Rev → list Rev) (w : world) : Prop := {
  wt_placed : placed s0 revs w;
  wt_rest : at_rest s0 w;
  wt_stored : publishable w;
  wt_proposal : proposal w = Some (inl proposed);
  wt_publication : publication w fuel proposed f
}.

Lemma waiting_advances fuel proposed f w :
  waiting fuel proposed f w → advances s0 revs latest r p b publishing publish_io fuel w.
Proof.
  intros [Hw Hrest Hst Hprop Hpub]. pose proof (st_names _ _ _ Hw) as Hnd.
  destruct (published w fuel proposed f Hprop Hpub Hnd Hst) as (Hnew & Hnames & Hin).
  eapply does_mono; [|apply (sync_does s0 revs latest r p b Hdep w Hw Hrest f)].
  - intros n x [-> Hn]. split; [done|].
    apply (launched_standing s0 revs latest r p b w Hw f n); [done| |done|done].
    intros v [->|Hv]%Hin; [apply Hdep|by apply (st_revisions _ _ _ Hw)].
  - by eapply getStatefulSetRevisions_publishes.
Qed.

Lemma publishing_answer w :
  (∃ err, IsNotFound err = true) → (∃ err, IsAlreadyExists err = true) → ∀ e, ∃ x, publishing w (existT e x).
Proof.
  intros Hnf [ex Hex] e. destruct (serving_answer w Hnf e) as [x Hx]. destruct e; try (by exists x).
  - destruct (store !! Name (cr_meta r0)) as [v|] eqn:Hv; [exists (inr ex)|exists (inl (stamp ns r0))]; (split; [done|]);
      cbn; rewrite Hv; (split; [|naive_solver]); [by exists ex|by eexists].
  - destruct (store !! name) as [v|] eqn:Hv; [exists (inl v)|exists (inr ex)]; (split; [done|]); cbn; congruence.
  - exists (Some (stamp ns r0), None). by split.
  - by exists false.
Qed.

(** C4: a set whose template was changed, or that is new, is rolled out.  The first
    [sync] publishes the template: it creates a revision, under the first name that is
    free, or renumbers an old one, or finds it the newest, and takes a step of the
    rollout at once.  Rounds of a whole [sync], of nodes that start the new pods and of
    caches that catch up can then always go on; and after as many rounds as there is
    work, the first one included (under the default policy one per missing ordinal, one
    per surplus ordinal and two per outdated pod above the partition; under the parallel
    policy one for all the scaling and two per outdated pod) every ordinal of the set
    has a pod, no other ordinal has one, and every pod from the partition on runs the
    revision of the template, however many further rounds follow.  This holds of pods that
    are settled before the first round, deleted pods that are gone and new ones that run
    before the next one, caches that are then up to date, orphans that the set does not
    want, writes that are accepted, a set with a rolling update, and revisions of the set
    that restore to valid sets; whatever UID, resource version and times the API server
    gives to what it stores. *)
Theorem template_rolls_out fuel proposed f w :
  (∃ err : error, IsNotFound err = true) → (∃ err : error, IsAlreadyExists err = true) →
  waiting fuel proposed f w →
  (∃ w1, turn_in s0 publishing fuel w w1) ∧
  ∀ w1 n w', turn_in s0 publishing fuel w w1 → nsteps (turn s0 fuel) n w1 w' →
    settled_world s0 revs latest w' ∧ (∃ w'', turn s0 fuel w' w'') ∧
    ((policy_work (getStartOrdinal S0) r p (Name (cr_meta latest)) (allowsBurst S0) (view (w_pods w)) ≤ S n)%nat →
     rolled_out (getStartOrdinal S0) r p (Name (cr_meta latest)) (view (w_pods w'))).
Proof.
  intros Hnf Hex Hw. pose proof (waiting_advances _ _ _ _ Hw) as Hadv. split.
  { eapply turn_in_exists; [by apply publishing_answer|done]. }
  intros w1 n w' Hturn Hsteps. destruct (turn_in_step _ _ _ _ _ _ _ _ _ _ _ Hadv Hturn) as [Hw1 [cur Hstep]].
  destruct (sync_rolls_out s0 revs latest r p b Hdep fuel n w1 w' Hnf Hw1 Hsteps) as (Hw' & Hgo & Hdone).
  split; [done|]. split; [done|]. intros Hn. apply Hdone.
  destruct (rolling s0 revs latest r p b Hdep w (wt_placed _ _ _ _ Hw)) as [currentSet Hrs].
  pose proof (partition_nonneg _ _ _ _ _ _ _ Hrs) as Hp. pose proof (budget_pos _ _ _ _ _ _ _ Hrs) as Hb.
  by eapply policy_step_left.
Qed.
End launch.
