(* ===== verification/Rest.v ===== *)
(** * After the rollout: the controller comes to rest

    Once every ordinal runs the latest revision, one round records that in the status,
    the next one truncates the history for the last time, and from then on a whole [sync]
    writes nothing: neither to pods, claims and revisions, nor to the status or the event
    log, so the controller does not wake itself up. *)
From S2P Require Export Quiescence Launch.

Section rest.
Context `{K8sLaws} `{GoLaws} `{!ClientGo}.
#[local] Existing Instance realHistory.
Context (s0 : XStatefulSet) (revs : list Rev) (latest : Rev) (r p b limit : Z).
Implicit Types (w : world) (v : Rev) (st : XStatefulSetStatus).

Context (Hdep : deployment s0 revs latest r p b).
Notation S0 := (Scheme_Default s0).
Hypothesis Hroll : us_Type (UpdateStrategy (Spec S0)) = RollingUpdateStrategyType.
Hypothesis Hbud : budgeted S0.
Hypothesis Hlimit : RevisionHistoryLimit (Spec S0) = Some limit.
Hypothesis Hsmall : r < 2147483648.

(** The claims that the cache has carry the owners the retention policy asks for. *)
Definition resting w (o : obs reply) : Prop :=
  serving w o ∧ steady (w_time w) (Scheme_Default (w_set w)) (w_pods w) o.
#[local] Instance resting_serves : Serves resting round_io.
Proof. split; [by intros w o []|done]. Qed.

(** Every ordinal, and no other, runs the latest revision. *)
Definition uniform w : Prop := rolled_out (getStartOrdinal S0) r 0 (Name (cr_meta latest)) (view (w_pods w)).
Definition arrived w : Prop := settled_world s0 revs latest w ∧ uniform w.

(** ** The status *)

(** What the status of such a set should say. *)
Definition tells (st : XStatefulSetStatus) : Prop :=
  st_Replicas st = r ∧ ReadyReplicas st = r ∧ AvailableReplicas st = r ∧ UpdatedReplicas st = r ∧
  CurrentReplicas st = r ∧ CurrentRevision st = Name (cr_meta latest) ∧ UpdateRevision st = Name (cr_meta latest).

Lemma described_tells set cur st st' :
  us_Type (UpdateStrategy (Spec set)) = RollingUpdateStrategyType → Replicas (Spec set) = Some r →
  described set latest cur r st → completeRollingUpdate set st = Some st' →
  tells st' ∧ ObservedGeneration st' = Generation (set_meta set).
Proof.
  intros Ht Hr ((H1' & H2' & H3' & H4') & Hg & _ & Hu & _). unfold completeRollingUpdate.
  rewrite bool_decide_eq_true_2, Hr by done. cbn. rewrite H1', H2', H4', !Z.eqb_refl. cbn.
  by intros [= <-].
Qed.

Lemma tells_settled set st :
  tells st → ObservedGeneration st = Generation (set_meta set) → settled_status (set_Status st set) latest r.
Proof. intros (? & ? & ? & ? & ? & ? & ?) Hg. unfold settled_status. cbn. rewrite Hg. by split_and!. Qed.

(** The status is left alone exactly if it says so already. *)
Lemma tells_consistent set st :
  tells st → ObservedGeneration st = Generation (set_meta set) →
  inconsistentStatus set st = false ↔ settled_status set latest r.
Proof.
  intros (E1 & E2 & E3 & E4 & E5 & E6 & E7) Hg. unfold inconsistentStatus, settled_status.
  rewrite E1, E2, E3, E4, E5, E6, E7, Hg. rewrite !orb_false_iff, !negb_false_iff, !bool_decide_eq_false, !Z.eqb_eq.
  split.
  - intros (((((((? & ?) & ?) & ?) & ?) & Hc) & ?) & Hu). apply dec_stable in Hc, Hu.
    split_and!; try done. lia.
  - intros (? & ? & ? & ? & ? & ? & ? & ?). split_and!; try done; [lia|naive_solver..].
Qed.

(** ** The history *)

Definition removal v (l : list Rev) : list Rev := without (Namespace (cr_meta v)) (Name (cr_meta v)) l.

Lemma deletes_after l n w :
  deletes l n → w_set (after n w) = w_set w ∧ w_pods (after n w) = w_pods w ∧
  w_revisions (after n w) = foldl (λ l v, removal v l) (w_revisions w) l.
Proof.
  intros ->. revert w. induction l as [|v l IH]; intros w; [done|].
  change (after (deletion <$> v :: l) w) with (after (deletion <$> l) (after_call w (deletion v))).
  destruct (IH (after_call w (deletion v))) as (-> & -> & ->). done.
Qed.

Lemma removals l vs :
  foldl (λ l v, removal v l) l vs `sublist_of` l ∧ ∀ v, v ∈ vs → v ∉ foldl (λ l v, removal v l) l vs.
Proof.
  revert l. induction vs as [|v vs IH]; intros l; [split; [done|by intros v []%not_elem_of_nil]|]. cbn [foldl].
  destruct (IH (removal v l)) as [Hsub Hout].
  split; [etrans; [exact Hsub|apply list.sublist_filter]|]. intros x [->|Hx]%elem_of_cons Hin; [|by apply (Hout x)].
  eapply elem_of_sublist in Hin; [|exact Hsub]. apply list_elem_of_filter in Hin as [Hne _]. by apply Hne.
Qed.

(** The unused revisions are within the limit. *)
Definition trimmed w : Prop := surplus latest w limit = [].

Lemma trimmed_length w : trimmed w ↔ limit < 0 ∨ Z.of_nat (length (unused latest w)) ≤ limit.
Proof.
  unfold trimmed, surplus. destruct (limit <? 0) eqn:H1'; cbn; [split; [lia|done]|].
  destruct (_ <=? _) eqn:H2'; [split; [lia|done]|]. split; [|lia].
  intros Ht%(f_equal length). rewrite length_take in Ht. cbn in Ht. lia.
Qed.

(** With the latest revision as the current one, what is unused depends on the stored
    revisions and the pods' revisions alone. *)
Lemma trimmed_after w w' :
  placed s0 revs w → placed s0 revs w' → current latest w = latest → current latest w' = latest →
  getPodRevision <$> w_pods w' = getPodRevision <$> w_pods w →
  w_revisions w' = foldl (λ l v, removal v l) (w_revisions w) (surplus latest w limit) → trimmed w'.
Proof.
  intros Hw Hw' Hc Hc' Hpods Hrevs. apply trimmed_length. destruct (decide (limit < 0)) as [|Hl]; [by left|right].
  destruct (removals (w_revisions w) (surplus latest w limit)) as [Hsub Hout]. rewrite <- Hrevs in Hsub, Hout.
  assert (∀ w v, v ∈ unused latest w ↔
    Name (cr_meta v) ∉ live_names (w_pods w) (Some (current latest w)) (Some latest) ∧ v ∈ w_revisions w) as Hun.
  { intros w0 v. unfold unused. rewrite list_elem_of_filter. by rewrite elem_of_known. }
  assert (unused latest w' ⊆ drop (length (surplus latest w limit)) (unused latest w)) as Hin.
  { intros v Hv. pose proof (proj1 (Hun w' v) Hv) as [Hlive Hst]. unfold live_names in Hlive.
    rewrite Hc', Hpods in Hlive.
    assert (v ∈ unused latest w) as Hvw.
    { apply Hun. unfold live_names. rewrite Hc. split; [done|]. by eapply elem_of_sublist. }
    assert (v ∉ surplus latest w limit) as Hns by (intros Hs; by apply (Hout v)).
    unfold surplus in *. destruct (_ || _); [done|]. rewrite length_take.
    rewrite <- (take_drop (Z.to_nat (Z.of_nat (length (unused latest w)) - limit)) (unused latest w)) in Hvw at 1.
    apply elem_of_app in Hvw as [?|Hd]; [done|]. by rewrite Nat.min_l by lia. }
  assert (NoDup (unused latest w')) as Hnd.
  { apply list.NoDup_filter. eapply (NoDup_fmap_1 (λ v : Rev, Name (cr_meta v))). unfold known.
    destruct (SortControllerRevisions_spec (w_revisions w')) as [Hp _]. rewrite Hp. apply Hw'. }
  pose proof (submseteq_length _ _ (NoDup_submseteq _ _ Hnd Hin)) as Hlen. rewrite length_drop in Hlen.
  unfold surplus in Hlen. destruct (_ || _) eqn:Hsur; [cbn in Hlen; lia|]. rewrite length_take in Hlen. lia.
Qed.

(** ** A round *)

Section round.
Context (w : world) (Harr : arrived w).
Notation set := (Scheme_Default (w_set w)).
Notation cur := (current latest w).

Lemma arrived_placed : placed s0 revs w.
Proof. apply Harr. Qed.

Lemma arrived_rolling : ∃ currentSet, rolling_set set currentSet cur latest r p b.
Proof. eapply rolling, arrived_placed. exact Hdep. Qed.

Lemma arrived_converged : converged (w_time w) set latest (w_pods w).
Proof.
  destruct Harr as [[[Hw _] Hrest] (Hcomplete & Hconfined & Hall)].
  destruct (set_is s0 revs w Hw) as (rv & st & _ & ->).
  destruct (st_pods _ _ _ Hw) as [Hnd Hmem]. destruct arrived_rolling as [cs Hrs].
  assert (Replicas (Spec (restamp rv st S0)) = Some r) as Hr.
  { destruct (dp_rolling _ _ _ _ _ _ Hdep rv st latest (dp_latest _ _ _ _ _ _ Hdep)) as [cs' Hrs'].
    exact (rs_replicas _ _ _ _ _ _ _ Hrs'). }
  split.
  - intros q Hq. destruct (Hmem q Hq) as (Hid & Hstore & _ & _). split_and!; [by apply Hrest|done|done| |].
    + assert (view (w_pods w) !! getOrdinal q = Some (getPodRevision q)) as Hv by (apply view_lookup; eauto).
      assert (within (getStartOrdinal S0) r (getOrdinal q)) as Hin by (apply Hconfined; by rewrite Hv).
      pose proof (Hall _ Hin). unfold within in Hin. naive_solver lia.
    + exists r. split; [done|]. apply Hconfined. apply view_is_Some; eauto.
  - intros o (r' & Hr' & Ho). assert (r' = r) as -> by congruence.
    by apply view_is_Some, Hcomplete.
Qed.

Lemma arrived_budgeted : budgeted set.
Proof. destruct (set_is s0 revs w arrived_placed) as (rv & st & _ & ->). exact Hbud. Qed.

Lemma arrived_updates c :
  does resting round_io w (updateStatefulSet set cur latest c (w_pods w))
    (λ n x, (∃ st, x = (Some st, None) ∧ described set latest cur r st) ∧ silent n).
Proof.
  destruct arrived_rolling as [cs Hrs].
  eapply (wp_weaken (steady (w_time w) set (w_pods w)) _ (λ _, reads_only)); [by intros o []|by intros _ []|].
  eapply wp_mono; [|apply wp_trace, (converged_still _ _ set latest _ cur c r)].
  - intros tr o [(x & -> & st & -> & Hst) (n & Hn & Hall)]. cbn in Hn. subst n. eexists. split; [done|].
    split; [by eexists|]. eapply List.Forall_impl; [|exact Hall]. intros y [Hy _]. by right.
  - apply Hrs.
  - apply arrived_budgeted.
  - eexists. apply Hrs.
  - apply Hrs.
  - apply Hrs.
  - apply Hrs.
  - done.
  - apply arrived_converged.
Qed.

(** The status it leaves, and the calls that write it, if any. *)
Lemma arrived_status st st' n :
  described set latest cur r st → completeRollingUpdate set st = Some st' → records w st' n →
  AvailableReplicas st' = r ∧ settled_status (w_set (after n w)) latest r ∧ (settled_status (w_set w) latest r → silent n).
Proof.
  intros Hst Hcomplete Hrec. destruct arrived_rolling as [cs Hrs].
  assert (us_Type (UpdateStrategy (Spec set)) = RollingUpdateStrategyType) as Ht.
  { destruct (set_is s0 revs w arrived_placed) as (rv & x & _ & ->). exact Hroll. }
  destruct (described_tells set cur st st' Ht (rs_replicas _ _ _ _ _ _ _ Hrs) Hst Hcomplete) as [Htells Hgen].
  pose proof (tells_consistent set st' Htells Hgen) as Hcons. unfold records in Hrec.
  split; [apply Htells|]. destruct (inconsistentStatus set st'); split.
  - rewrite Hrec. by apply tells_settled.
  - intros Hset. by apply Hcons in Hset.
  - rewrite silent_after by done. by apply Hcons.
  - done.
Qed.

Lemma resting_round fuel :
  does resting round_io w (sync fuel (meta_key (set_meta s0))) (λ n x, x = Some None ∧
    w_pods (after n w) = w_pods w ∧ settled_status (w_set (after n w)) latest r ∧
    w_revisions (after n w) = foldl (λ l v, removal v l) (w_revisions w) (surplus latest w limit) ∧
    (settled_status (w_set w) latest r → trimmed w → silent n)).
Proof.
  pose proof arrived_placed as Hw. pose proof (proj2 (proj1 (proj1 Harr))) as Hnew.
  eapply does_mono; [|apply (sync_around s0 revs latest r p b Hdep w Hw fuel (λ st n, ∃ n0 n1 n2, n = n0 ++ n1 ++ n2 ∧
    AvailableReplicas st = r ∧ silent n0 ∧ still n1 ∧ settled_status (w_set (after n1 w)) latest r ∧
    (settled_status (w_set w) latest r → silent n1) ∧ deletes (surplus latest w limit) n2))].
  - intros n x [-> (st & m0 & ? & m1 & -> & Hm0%looking_silent & (n0 & n1 & n2 & -> & Hav & Hn0 & Hn1 & Hset & Hq & Hn2)
      & _ & Hm1)].
    rewrite (Hm1 Hav), app_nil_r. split; [done|]. rewrite !after_app, (silent_after m0), (silent_after n0) by done.
    destruct (deletes_after _ _ (after n1 w) Hn2) as (-> & -> & ->).
    rewrite after_pods, still_pods, still_revisions by done. split; [done|]. split; [done|]. split; [done|].
    intros Hs Ht. specialize (Hq Hs). unfold deletes in Hn2. rewrite Ht in Hn2. subst n2. cbn.
    rewrite app_nil_r. by repeat apply silent_app.
  - unfold UpdateStatefulSet. eapply does_seq; [apply (ListRevisions_does s0 revs latest r p b Hdep w Hw)|].
    intros n ? [Hn%looking_silent ->]. cbv beta iota zeta. unfold performUpdate.
    change (SortControllerRevisions (w_revisions w)) with (known w).
    rewrite (revisions_known s0 revs latest r p b Hdep w Hw fuel Hnew).
    eapply (does_seq _ _ _ _ _ (λ n x, ∃ st, x = Some (Some cur, Some latest, Some st, None) ∧ ∃ n0 n1, n = n0 ++ n1 ∧
      AvailableReplicas st = r ∧ silent n0 ∧ still n1 ∧ settled_status (w_set (after n1 w)) latest r ∧
      (settled_status (w_set w) latest r → silent n1))).
    + change (mret ?x ≫= ?f) with (f x). cbv beta iota. eapply does_seq; [apply arrived_updates|].
      intros n0 ? [(st & -> & Hst) Hn0]. cbv beta iota.
      eapply does_seq; [apply (updateStatefulSetStatus_does s0 revs latest r p b Hdep w Hw)|].
      intros n1 [err st'] (Herr & Hn1 & Hcomplete & Hrec). cbn in Herr, Hcomplete, Hrec. subst err.
      apply does_ret. rewrite app_nil_r. exists st'. split; [done|]. exists n0, n1.
      pose proof (arrived_status st st' n1 Hst Hcomplete Hrec) as (? & ? & ?). by split_and!.
    + intros n1 ? (st & -> & n2 & n3 & -> & Hav & Hn2 & Hn3 & Hset & Hq). cbv beta iota.
      eapply does_seq; [apply (truncateHistory_does latest w limit)|].
      { by destruct (set_is s0 revs w Hw) as (rv & x & _ & ->). }
      intros n4 ? [-> Hn4]. apply does_ret. rewrite app_nil_r. exists st. split; [done|].
      exists (n ++ n2), n3, n4. split; [by rewrite <- !(assoc_L (++))|]. split_and!; try done. by apply silent_app.
Qed.
End round.

(** ** Rounds *)

Lemma arrived_named w :
  arrived w → settled_status (w_set w) latest r → current latest w = latest.
Proof.
  intros [[[Hw Hnew] _] _] (_ & _ & _ & _ & _ & Hcur & _). unfold current.
  assert (known w ≡ₚ w_revisions w) as Hp by apply SortControllerRevisions_spec.
  apply current_of_named; [|by apply elem_of_known, last_stored|exact Hcur].
  unfold known in Hp |- *. rewrite Hp. apply Hw.
Qed.

(** A round leaves a set that has arrived as it is, records the status, and trims the
    history once the status is recorded. *)
Lemma resting_turn fuel w w' :
  arrived w → turn_in s0 resting fuel w w' →
  arrived w' ∧ settled_status (w_set w') latest r ∧ (settled_status (w_set w) latest r → trimmed w').
Proof.
  intros Harr Hturn. pose proof (standing_round s0 revs latest r p b Hdep resting round_io w fuel (proj1 Harr)) as Hadv.
  destruct (turn_in_step _ _ _ _ _ _ _ _ _ _ _ Hadv Hturn) as [Hw' _].
  destruct Hturn as (tr & o & Hrun & Hadm & [rv Hset] & Hrevs & Hall).
  destruct (wp_runs _ _ _ _ [] tr o (resting_round w Harr fuel) Hrun Hadm) as [_ (x & _ & _ & Hpods & Hst & Hr & _)].
  change ([] ++ tr) with tr in *. rewrite Hpods in Hall. rewrite Hset.
  assert (arrived w') as Harr'.
  { split; [done|]. unfold uniform. destruct Harr as [[[Hw _] _] Hu].
    destruct (started_healthy _ _ _ _ (st_pods _ _ _ Hw) Hall) as [_ ->]. exact Hu. }
  split; [done|]. split; [done|]. intros Hsaid. apply (trimmed_after w w').
  - apply Harr.
  - apply Hw'.
  - by apply arrived_named.
  - apply arrived_named; [done|by rewrite Hset].
  - clear -Hall. induction Hall as [|q q' l l' [(_ & _ & _ & _ & Hl & _) _] _ IH]; [done|].
    rewrite !fmap_cons, IH. f_equal. unfold getPodRevision. by rewrite Hl.
  - by rewrite Hrevs.
Qed.

Lemma resting_turns fuel n w w' :
  arrived w → nsteps (turn_in s0 resting fuel) n w w' →
  arrived w' ∧ ((1 ≤ n)%nat → settled_status (w_set w') latest r) ∧ ((2 ≤ n)%nat → trimmed w').
Proof.
  intros Harr. revert w'. induction n as [|n IH]; intros w' Hsteps.
  - inversion Hsteps; subst. split_and!; [done|lia|lia].
  - apply nsteps_inv_r in Hsteps as (w1 & Hsteps & Hturn). destruct (IH w1 Hsteps) as (Harr1 & Hsaid & _).
    destruct (resting_turn fuel w1 w' Harr1 Hturn) as (Harr' & Hst & Htrim). split_and!; [done|done|].
    intros Hn. apply Htrim, Hsaid. lia.
Qed.

Lemma resting_answer w : (∃ err, IsNotFound err = true) → ∀ e, ∃ x, resting w (existT e x).
Proof.
  intros [err Herr] e. destruct (serving_answer w (ex_intro _ err Herr) e) as [x Hx]. destruct e; try (by exists x).
  - destruct Hx as [Hx _]. exists x. split; [done|]. exact Hx.
  - exists (inr err). split; [split; [exact Herr|done]|]. intros claim q template Heq. discriminate.
Qed.

(** C5: the controller comes to rest.  Once every ordinal, and no other, runs a settled pod
    at the latest revision, rounds of a whole [sync] can always go on and keep the set
    so; after the first one the status is recorded, after the second one the
    unused revisions are within the history limit; and from the third one on a whole
    [sync] writes nothing (no pod, claim, revision or status, no patch and no event),
    reports no error and leaves the world as it was, for ever.  This holds of a set with a
    rolling update whose newest revision records its template and whose revisions restore
    to valid sets, with up-to-date caches at each round, writes that are accepted, pods
    that stay settled, claims that have the owners that the retention policy asks for, and
    orphans that the set does not want. *)
Theorem sync_comes_to_rest fuel n w w' :
  (∃ err : error, IsNotFound err = true) → arrived w → nsteps (turn_in s0 resting fuel) n w w' →
  arrived w' ∧ (∃ w'', turn_in s0 resting fuel w' w'') ∧
  ((1 ≤ n)%nat → settled_status (w_set w') latest r) ∧
  ((2 ≤ n)%nat → trimmed w' ∧
   wp (resting w') (λ _, round_io) (sync fuel (meta_key (set_meta s0)))
     (returns (λ tr x, x = Some None ∧ silent tr ∧ after tr w' = w')) []).
Proof.
  intros Herr Harr Hsteps.
  destruct (resting_turns fuel n w w' Harr Hsteps) as (Harr' & Hsaid & Htrim).
  split; [done|]. split; [|split; [done|]].
  - eapply (turn_in_exists s0 revs latest r p b resting round_io); [by apply resting_answer|].
    apply (standing_round s0 revs latest r p b Hdep resting round_io w' fuel (proj1 Harr')).
  - intros Hn. split; [by apply Htrim|]. eapply (does_mono resting round_io w'); [|by apply resting_round].
    intros tr x (-> & _ & _ & _ & Hq). assert (silent tr) as Hquiet by (apply Hq; [apply Hsaid; lia|by apply Htrim]).
    split; [done|]. split; [done|]. by apply silent_after.
Qed.
End rest.
