(* ===== verification/Valid.v ===== *)
(** * Validity of the objects the controller writes

    The API server rejects a pod with two volumes of one name, and any object with
    two owner references that claim to be its controller.  This file shows that
    the controller never builds such an object from valid ones: validity is
    preserved by every operation on pods and claims, so by everything that
    [PodControl] sends. *)
From S2P Require Export PodControl Revision.

Section validity.
Context `{K8s}.

Definition valid_owners (refs : list OwnerReference) : Prop :=
  (length (List.filter (λ r, ptr_true (or_Controller r)) refs) ≤ 1)%nat.
Definition valid_volumes (vs : list Volume) : Prop := NoDup (vol_Name <$> vs).
Definition valid_pod (pod : Pod) : Prop :=
  valid_owners (GetOwnerReferences pod) ∧ valid_volumes (Volumes (pod_Spec pod)).
Definition valid_claim (claim : PersistentVolumeClaim) : Prop :=
  valid_owners (GetOwnerReferences claim).
(** A set whose templates are valid. *)
Definition valid_set (set : XStatefulSet) : Prop :=
  valid_volumes (Volumes (tmpl_Spec (Template (Spec set)))) ∧
  Forall valid_claim (VolumeClaimTemplates (Spec set)).

Definition writes_valid (e : api_call) : Prop :=
  match e with
  | PodsCreate _ pod | PodsUpdate _ pod => valid_pod pod
  | ClaimsCreate _ claim | ClaimsUpdate _ claim => valid_claim claim
  | _ => True
  end.
(** The caches hold what the API server accepted. *)
Definition valid_caches (o : obs reply) : Prop :=
  match o with
  | existT (PodListerGet _ _) r => ∀ pod, r = inl pod → valid_pod pod
  | existT (ClaimListerGet _ _) r => ∀ claim, r = inl claim → valid_claim claim
  | _ => True
  end.
End validity.

(** ** Operations on objects *)

Section objects.
Context `{K8sLaws} `{GoLaws}.

Lemma valid_owners_filter f refs : valid_owners refs → valid_owners (List.filter f refs).
Proof.
  unfold valid_owners. intros Hv. etrans; [|exact Hv]. clear Hv.
  induction refs as [|r refs IH]; simpl; [lia|].
  destruct (f r); simpl; destruct (ptr_true _); simpl; lia.
Qed.

(** With no unexpected controller, the references left after the removal are not controllers. *)
Lemma removed_not_controllers refs set pod :
  unexpected_in refs set pod = false →
  List.filter (λ r, ptr_true (or_Controller r))
    (removeRefs refs (λ r, matchesRef r set controllerKind || matchesRef r pod podKind)) = [].
Proof.
  rewrite removeRefs_filter. induction refs as [|r refs IH]; simpl; [done|].
  destruct (matchesRef r set controllerKind); simpl; [by case_match|].
  destruct (matchesRef r pod podKind); simpl; [by case_match|].
  by destruct (ptr_true _).
Qed.

Lemma valid_addControllerRef `{Object A} refs (owner : A) k :
  List.filter (λ r, ptr_true (or_Controller r)) refs = [] → valid_owners (addControllerRef refs owner k).
Proof.
  intros Hnone. unfold addControllerRef, valid_owners. destruct (existsb _ _); [by rewrite Hnone; auto|].
  rewrite List.filter_app, Hnone. simpl. destruct (ptr_true _); simpl; lia.
Qed.

(** Under a policy that adds an owner, [hasUnexpectedController] looks at all references. *)
Lemma updateClaimOwnerRef_valid claim set pod claim' :
  valid_claim claim → updateClaimOwnerRefForSetAndPod claim set pod = Some claim' → valid_claim claim'.
Proof.
  unfold valid_claim. intros Hv. unfold updateClaimOwnerRefForSetAndPod, hasUnexpectedController, classify.
  set (refs := removeRefs _ _).
  assert (valid_owners refs) as Hrefs by (unfold refs; rewrite removeRefs_filter; by apply valid_owners_filter).
  assert (∀ refs', valid_owners refs' → valid_owners (GetOwnerReferences (SetOwnerReferences refs' claim))) as Hset
    by done.
  destruct (bool_decide (WhenScaled _ = RetainPolicyType) && bool_decide (WhenDeleted _ = RetainPolicyType)).
  { intros [= <-]. by apply Hset. }
  destruct (unexpected_in _ _ _) eqn:Hun. { intros [= <-]. by apply Hset. }
  pose proof (removed_not_controllers _ _ _ Hun) as Hnone. fold refs in Hnone.
  repeat case_match; simpl; try destruct (podInOrdinalRange pod set) as [[]|]; simpl; try done;
    intros [= <-]; apply Hset; try done; by apply valid_addControllerRef.
Qed.

Lemma claim_of_template_valid set ordinal t claim :
  valid_claim t → claim_of_template set ordinal t = Some claim → valid_claim claim.
Proof.
  intros Ht. unfold claim_of_template. destruct (Selector _); [|done]. simpl. intros [= <-].
  by destruct (Labels _).
Qed.

Lemma getPersistentVolumeClaims_valid set pod claims :
  valid_set set → getPersistentVolumeClaims set pod = Some claims →
  Forall (λ e, valid_claim e.2) (map_range claims).
Proof.
  intros [_ Hts] Hc. rewrite map_range_perm. apply list.Forall_forall. intros [n c] Hin.
  apply elem_of_map_to_list in Hin.
  destruct (getPersistentVolumeClaims_lookup _ _ _ n Hc) as [_ Hfrom].
  destruct (Hfrom c Hin) as (t & Ht & _ & Hct).
  rewrite list.Forall_forall in Hts. simpl. eapply claim_of_template_valid; [by apply Hts|exact Hct].
Qed.

(** The volumes of the claims have different names, and none of a volume that is kept. *)
Lemma updateStorage_valid set pod pod' :
  valid_pod pod → updateStorage set pod = Some pod' → valid_pod pod'.
Proof.
  intros [Ho Hv]. unfold updateStorage.
  destruct (getPersistentVolumeClaims set pod) as [claims|] eqn:Hc; [|done]. simpl. intros [= <-].
  split; [done|]. unfold valid_volumes. simpl. rewrite fmap_app. apply list.NoDup_app. split_and!.
  - assert (vol_Name <$> map claim_volume (map_range claims) = (map_range claims).*1) as ->.
    { rewrite <- (list_fmap_compose claim_volume vol_Name). by apply list_fmap_ext. }
    rewrite map_range_perm. apply NoDup_fst_map_to_list.
  - intros n (v & -> & (n' & c & Hl & ->)%elem_of_claim_volumes)%list_elem_of_fmap
      (w & Hw & [Hwn _]%list_elem_of_filter)%list_elem_of_fmap.
    simpl in Hw. rewrite <- Hw, Hl in Hwn. done.
  - eapply sublist_NoDup; [exact Hv|]. apply fmap_sublist, sublist_filter.
Qed.

Lemma updateIdentity_valid set pod : valid_pod pod → valid_pod (updateIdentity set pod).
Proof. done. Qed.

Lemma newStatefulSetPod_valid set ordinal pod :
  valid_set set → newStatefulSetPod set ordinal = Some pod → valid_pod pod.
Proof.
  intros [Hv _]. unfold newStatefulSetPod. apply updateStorage_valid.
  split; [|done]. unfold valid_owners. simpl. case_match; simpl; lia.
Qed.

Lemma newVersionedStatefulSetPod_valid currentSet updateSet cur upd ordinal pod :
  valid_set currentSet → valid_set updateSet →
  newVersionedStatefulSetPod currentSet updateSet cur upd ordinal = Some pod → valid_pod pod.
Proof.
  intros Hc Hu. unfold newVersionedStatefulSetPod.
  destruct (at_current_revision _ _) as [[]|]; simpl; [| |done];
    destruct (newStatefulSetPod _ _) as [p|] eqn:Hp; simpl; try done; intros [= <-];
    by apply newStatefulSetPod_valid in Hp.
Qed.
End objects.

(** ** Operations on the cluster *)

Section programs.
Context `{K8sLaws} `{GoLaws}.
Notation safe := (safe valid_caches writes_valid).

(** Calls that write nothing, in sequence. *)
Ltac step :=
  lazymatch goal with
  | |- Boundary.safe _ _ (mret _) _ => by apply safe_ret
  | |- Boundary.safe _ _ (call _) _ => by safe_call
  | |- Boundary.safe _ _ (_ ≫= _) _ => eapply (safe_bind _ _ _ _ (λ _, True)); [|intros ? _]
  | |- Boundary.safe _ _ (match ?x with _ => _ end) _ => destruct x
  | |- Boundary.safe _ _ (if ?b then _ else _) _ => destruct b
  end.
Ltac steps := repeat (step; cbv beta iota zeta).

Lemma recordPodEvent_valid verb set pod err : safe (recordPodEvent verb set pod err) (λ _, True).
Proof. unfold recordPodEvent. steps. Qed.
Lemma recordClaimEvent_valid verb set pod claim err :
  safe (recordClaimEvent verb set pod claim err) (λ _, True).
Proof. unfold recordClaimEvent. steps. Qed.

(** What is read from the caches is valid. *)
Lemma GetClaim_valid ns name : safe (GetClaim ns name) (λ r, ∀ claim, r = inl claim → valid_claim claim).
Proof. unfold GetClaim. by safe_call. Qed.
Lemma GetPod_valid ns name : safe (GetPod ns name) (λ r, ∀ pod, r = inl pod → valid_pod pod).
Proof. unfold GetPod. by safe_call. Qed.

Lemma createPersistentVolumeClaims_valid set pod :
  well_formed set → valid_set set → safe (createPersistentVolumeClaims set pod) (λ _, True).
Proof.
  intros [Hsel _] Hv. destruct (getPersistentVolumeClaims_total set pod Hsel) as [cs Hcs].
  unfold createPersistentVolumeClaims. eapply safe_bind; [by apply (safe_deref _ _ _ cs (λ c, c = cs))|].
  intros ? ->. pose proof (getPersistentVolumeClaims_valid set pod cs Hv Hcs) as Hall.
  generalize (@nil (option error)).
  induction Hall as [|[n claim] claims Hc Hall IH]; intros errs; cbn [createClaims]; [step|].
  step; [|apply IH]. unfold createPersistentVolumeClaim, GetClaim, CreateClaim.
  steps; apply recordClaimEvent_valid.
Qed.

Lemma ClaimsMatchRetentionPolicy_valid set pod :
  well_formed set → safe (ClaimsMatchRetentionPolicy set pod) (λ _, True).
Proof.
  intros [_ Hr]. unfold ClaimsMatchRetentionPolicy.
  induction (VolumeClaimTemplates (Spec set)) as [|t ts IH]; cbn [claims_match]; [step|].
  unfold GetClaim. step; [step|]. destruct a as [claim|err].
  - destruct (isClaimOwnerUpToDate_total claim set pod Hr) as [b Hb].
    eapply safe_bind; [by apply (safe_deref _ _ _ b (λ _, True))|].
    intros b' _. destruct (negb b'); [step|apply IH].
  - destruct (IsNotFound err); [apply IH|step].
Qed.

(** The only write: the claim with the owners the retention policy asks for. *)
Lemma update_claim_valid set pod n claim :
  well_formed set → valid_claim claim → safe (update_claim set pod n claim) (λ _, True).
Proof.
  intros [_ Hr] Hv. unfold update_claim, UpdateClaim. step; [steps|].
  destruct (isClaimOwnerUpToDate_total claim set pod Hr) as [b Hb].
  eapply safe_bind; [by apply (safe_deref _ _ _ b (λ _, True))|]. intros b' _.
  destruct (negb b'); [|step].
  destruct (updateClaimOwnerRef_total claim set pod Hr) as [c Hc].
  pose proof (updateClaimOwnerRef_valid claim set pod c Hv Hc) as Hcv.
  eapply safe_bind; [by apply (safe_deref _ _ _ c (λ c', c' = c))|]. intros ? ->. steps.
Qed.
Lemma UpdatePodClaimForRetentionPolicy_valid set pod :
  well_formed set → safe (UpdatePodClaimForRetentionPolicy set pod) (λ _, True).
Proof.
  intros Hwf. unfold UpdatePodClaimForRetentionPolicy.
  induction (VolumeClaimTemplates (Spec set)) as [|t ts IH]; cbn [update_claims]; [step|].
  eapply safe_bind; [apply GetClaim_valid|]. intros [claim|err] Hc.
  - eapply safe_bind; [by apply update_claim_valid, Hc|]. intros [e|] _; [step|apply IH].
  - destruct (IsNotFound err); [apply IH|step].
Qed.

Lemma commit_pod_valid set pod consistent attempted :
  valid_pod pod → safe (commit_pod set pod consistent attempted) (λ r, valid_pod r.2.1).
Proof.
  intros Hv. unfold commit_pod, UpdatePod. destruct consistent; [by apply safe_ret|].
  eapply (safe_bind _ _ _ _ (λ _, True)); [by safe_call|]. intros [e|] _; [|by apply safe_ret].
  eapply safe_bind; [apply GetPod_valid|]. intros [p|e'] Hp; apply safe_ret; [by apply Hp|done].
Qed.

Lemma update_pod_attempt_valid set s :
  well_formed set → valid_set set → valid_pod s.1 →
  safe (update_pod_attempt set s) (λ r, valid_pod r.2.1).
Proof.
  destruct s as [pod attempted]. intros Hwf Hset Hv. unfold update_pod_attempt.
  assert (∀ pod' e, valid_pod pod' → safe (recordPodEvent "update" set pod' (Some e);;
            mret (Some e, (pod', attempted))) (λ r, valid_pod r.2.1)) as Hfail.
  { intros pod' e Hv'. eapply safe_bind; [apply recordPodEvent_valid|]. intros _ _. by apply safe_ret. }
  set (pod1 := if identityMatches set pod then pod else updateIdentity set pod).
  assert (valid_pod pod1) as Hv1 by (unfold pod1; by destruct (identityMatches set pod)).
  eapply (safe_bind _ _ _ _ (λ r : Pod * bool * option error, valid_pod r.1.1)).
  - destruct (storageMatches set pod1); [by apply safe_ret|].
    destruct (updateStorage set pod1) as [pod2|] eqn:Hup.
    2:{ exfalso. unfold updateStorage in Hup.
        destruct (getPersistentVolumeClaims_total set pod1 (proj1 Hwf)) as [c Hc]. by rewrite Hc in Hup. }
    pose proof (updateStorage_valid set pod1 pod2 Hv1 Hup) as Hv2.
    eapply safe_bind; [by apply (safe_deref _ _ _ pod2 (λ p, p = pod2))|]. intros ? ->.
    eapply safe_bind; [by apply createPersistentVolumeClaims_valid|]. intros err _. by apply safe_ret.
  - intros [[pod2 consistent] [err|]] Hv2; [by apply Hfail|].
    eapply safe_bind; [by apply ClaimsMatchRetentionPolicy_valid|].
    intros [[]|e] _; [by apply commit_pod_valid| |by apply Hfail].
    eapply safe_bind; [by apply UpdatePodClaimForRetentionPolicy_valid|].
    intros [e|] _; [by apply Hfail|by apply commit_pod_valid].
Qed.

Lemma UpdateStatefulPod_valid `{!ClientGo} set pod :
  well_formed set → valid_set set → valid_pod pod → safe (UpdateStatefulPod set pod) (λ _, True).
Proof.
  intros Hwf Hset Hv. unfold UpdateStatefulPod.
  eapply safe_bind; [apply (safe_retry _ _ _ _ (λ s : Pod * bool, valid_pod s.1) (λ _ _, True))|].
  - intros s Hs. eapply safe_mono; [|by apply update_pod_attempt_valid]. done.
  - done.
  - intros [err [pod' attempted]] _. destruct attempted; [|by apply safe_ret].
    eapply safe_bind; [apply recordPodEvent_valid|]. intros. by apply safe_ret.
Qed.

Lemma CreateStatefulPod_valid set pod :
  well_formed set → valid_set set → valid_pod pod → safe (CreateStatefulPod set pod) (λ _, True).
Proof.
  intros Hwf Hset Hv. unfold CreateStatefulPod, CreatePod.
  step; [by apply createPersistentVolumeClaims_valid|].
  destruct a; [step; [apply recordPodEvent_valid|step]|].
  step; [step|]. destruct (is_err _ _); [step|].
  step; [by apply UpdatePodClaimForRetentionPolicy_valid|].
  destruct a0; (step; [apply recordPodEvent_valid|step]).
Qed.

(** C19: the objects of a set stay valid for the API server.  From a set with valid
    templates, a new pod of any ordinal has volumes of different names and one
    controller at most; creating it, repairing an existing valid pod through any
    number of conflicts and re-reads, and repairing the owners of its claims send
    only valid pods and claims, as long as the caches hold valid ones, and none of
    them panics. *)
Theorem written_objects_valid `{!ClientGo} currentSet updateSet cur upd ordinal new pod :
  well_formed currentSet → valid_set currentSet → valid_set updateSet →
  newVersionedStatefulSetPod currentSet updateSet cur upd ordinal = Some new → valid_pod pod →
  valid_pod new ∧
  safe (CreateStatefulPod currentSet new) (λ _, True) ∧
  safe (UpdateStatefulPod currentSet pod) (λ _, True) ∧
  safe (createMissingPersistentVolumeClaims currentSet pod) (λ _, True).
Proof.
  intros Hwf Hc Hu Hnew Hp.
  pose proof (newVersionedStatefulSetPod_valid _ _ _ _ _ _ Hc Hu Hnew) as Hv. split_and!; [done| | |].
  - by apply CreateStatefulPod_valid.
  - by apply UpdateStatefulPod_valid.
  - unfold createMissingPersistentVolumeClaims. step; [by apply createPersistentVolumeClaims_valid|].
    destruct a; [step|]. step; [by apply UpdatePodClaimForRetentionPolicy_valid|].
    destruct a; [step; [apply recordPodEvent_valid|step]|step].
Qed.
End programs.
