(* ===== verification/Expectations.v ===== *)
(** * Expectations ([pkg/controller/controller_utils.go])

    [ControllerExpectations] and [UIDTrackingControllerExpectations]: counters of
    the creations and deletions a controller still expects to observe.  They are
    kept in a [cache.Store], used through the [CacheStore] interface. *)
From S2P Require Export Boundary PodUtil.

(** ** [cache.NewStore]

    A thread-safe map from the key of an object to the object; as documented, its
    operations fail only when the key function fails, which [ExpKeyFunc] and
    [UIDSetKeyFunc] do not on the objects stored here. *)
Class CacheStore := {
  Store : Type → Type;
  NewStore : ∀ {V}, Store V;
  GetByKey : ∀ {V}, Store V → string → option V;
  Store_Add : ∀ {V}, string → V → Store V → Store V;
  Store_Delete : ∀ {V}, string → Store V → Store V;
  GetByKey_New V k : GetByKey (@NewStore V) k = None;
  GetByKey_Add_eq V k (v : V) s : GetByKey (Store_Add k v s) k = Some v;
  GetByKey_Add_ne V k k' (v : V) s : k ≠ k' → GetByKey (Store_Add k v s) k' = GetByKey s k';
  GetByKey_Delete_eq V k (s : Store V) : GetByKey (Store_Delete k s) k = None;
  GetByKey_Delete_ne V k k' (s : Store V) : k ≠ k' → GetByKey (Store_Delete k s) k' = GetByKey s k' }.

(** Finite maps are a store. *)
#[local] Instance gmap_store : CacheStore.
Proof.
  refine {| Store V := gmap string V; NewStore V := ∅; GetByKey V s k := s !! k;
            Store_Add V k v s := <[k := v]> s; Store_Delete V k s := delete k s |}; intros.
  - apply lookup_empty.
  - apply lookup_insert_eq.
  - by apply lookup_insert_ne.
  - apply lookup_delete_eq.
  - by apply lookup_delete_ne.
Defined.

Record ControlleeExpectations := {
  add : Z (** int64 *);
  del : Z (** int64 *);
  exp_key : string;
  timestamp : Time }.

Definition Fulfilled (e : ControlleeExpectations) : bool := (add e <=? 0) && (del e <=? 0).

Definition ExpectationsTimeout : Z := 5 * 60 * second.

Definition isExpired (now : Time) (exp : ControlleeExpectations) : bool :=
  ExpectationsTimeout <? Sub now (timestamp exp).

Definition Add (a d : Z) (e : ControlleeExpectations) : ControlleeExpectations :=
  {| add := wrap64 (add e + a); del := wrap64 (del e + d); exp_key := exp_key e;
     timestamp := timestamp e |}.

Section expectations.
Context `{CacheStore}.

(** The store holds pointers: adding to the counters of an entry is a change of
    the store. *)
Definition ControllerExpectations : Type := Store ControlleeExpectations.

Definition NewControllerExpectations : ControllerExpectations := NewStore.

Definition GetExpectations (r : ControllerExpectations) (controllerKey : string)
    : option ControlleeExpectations := GetByKey r controllerKey.

Definition DeleteExpectations (controllerKey : string) (r : ControllerExpectations) : ControllerExpectations :=
  match GetByKey r controllerKey with
  | Some exp => Store_Delete (exp_key exp) r
  | None => r
  end.

Definition SatisfiedExpectations (now : Time) (r : ControllerExpectations) (controllerKey : string) : bool :=
  match GetExpectations r controllerKey with
  | Some exp => if Fulfilled exp then true else if isExpired now exp then true else false
  | None => true
  end.

Definition SetExpectations (now : Time) (controllerKey : string) (a d : Z) (r : ControllerExpectations)
    : ControllerExpectations :=
  Store_Add controllerKey {| add := a; del := d; exp_key := controllerKey; timestamp := now |} r.

Definition ExpectCreations (now : Time) (controllerKey : string) (adds : Z) :=
  SetExpectations now controllerKey adds 0.
Definition ExpectDeletions (now : Time) (controllerKey : string) (dels : Z) :=
  SetExpectations now controllerKey 0 dels.

(** Both counters of the entry move together here; each is an atomic addition. *)
Definition adjust (controllerKey : string) (a d : Z) (r : ControllerExpectations) : ControllerExpectations :=
  match GetExpectations r controllerKey with
  | Some exp => Store_Add controllerKey (Add a d exp) r
  | None => r
  end.

Definition LowerExpectations (controllerKey : string) (a d : Z) : ControllerExpectations → ControllerExpectations :=
  adjust controllerKey (wrap64 (- a)) (wrap64 (- d)).
Definition RaiseExpectations (controllerKey : string) (a d : Z) : ControllerExpectations → ControllerExpectations :=
  adjust controllerKey a d.
Definition CreationObserved (controllerKey : string) := LowerExpectations controllerKey 1 0.
Definition DeletionObserved (controllerKey : string) := LowerExpectations controllerKey 0 1.

(** ** UID tracking *)

Record UIDSet := { uids : gset string; uid_key : string }.

Record UIDTrackingControllerExpectations := {
  expectations : ControllerExpectations;
  uidStore : Store UIDSet }.

Definition NewUIDTrackingControllerExpectations (ce : ControllerExpectations)
    : UIDTrackingControllerExpectations := {| expectations := ce; uidStore := NewStore |}.

Definition GetUIDs (u : UIDTrackingControllerExpectations) (controllerKey : string) : option (gset string) :=
  uids <$> GetByKey (uidStore u) controllerKey.

Definition UID_ExpectDeletions (now : Time) (rcKey : string) (deletedKeys : list string)
    (u : UIDTrackingControllerExpectations) : UIDTrackingControllerExpectations :=
  let expectedUIDs : gset string := list_to_set deletedKeys in
  {| uidStore := Store_Add rcKey {| uids := expectedUIDs; uid_key := rcKey |} (uidStore u);
     expectations := ExpectDeletions now rcKey (Z.of_nat (size expectedUIDs)) (expectations u) |}.

Definition UID_DeletionObserved (rcKey deleteKey : string) (u : UIDTrackingControllerExpectations)
    : UIDTrackingControllerExpectations :=
  match GetByKey (uidStore u) rcKey with
  | Some s =>
      if bool_decide (deleteKey ∈ uids s) then
        {| expectations := DeletionObserved rcKey (expectations u);
           uidStore := Store_Add rcKey {| uids := uids s ∖ {[deleteKey]}; uid_key := uid_key s |} (uidStore u) |}
      else u
  | None => u
  end.

Definition UID_DeleteExpectations (rcKey : string) (u : UIDTrackingControllerExpectations)
    : UIDTrackingControllerExpectations :=
  {| expectations := DeleteExpectations rcKey (expectations u);
     uidStore := match GetByKey (uidStore u) rcKey with
                 | Some s => Store_Delete (uid_key s) (uidStore u)
                 | None => uidStore u
                 end |}.

(** ** Observations *)

(** What the informers report, to any controller. *)
Inductive observation := Created (controllerKey : string) | Deleted (controllerKey : string).
Definition obs_key (o : observation) : string := match o with Created k | Deleted k => k end.
Definition obs_adds (o : observation) : Z := match o with Created _ => 1 | Deleted _ => 0 end.
Definition obs_dels (o : observation) : Z := match o with Created _ => 0 | Deleted _ => 1 end.
Definition observe (r : ControllerExpectations) (o : observation) : ControllerExpectations :=
  match o with
  | Created k => CreationObserved k r
  | Deleted k => DeletionObserved k r
  end.

(** How many creations and deletions are reported to [k]. *)
Definition reported (f : observation → Z) (k : string) (os : list observation) : Z :=
  foldr (λ o n, (if bool_decide (obs_key o = k) then f o else 0) + n) 0 os.

Lemma reported_nonneg f k os : (∀ o, 0 ≤ f o) → 0 ≤ reported f k os.
Proof. intros Hf. induction os as [|o os IH]; simpl; [lia|]. specialize (Hf o). case_match; lia. Qed.

Lemma GetByKey_adjust r k k' a d :
  GetByKey (adjust k a d r) k' =
    if bool_decide (k = k') then Add a d <$> GetByKey r k' else GetByKey r k'.
Proof.
  unfold adjust, GetExpectations. dec (k = k') as Hk.
  - subst k'. destruct (GetByKey r k) eqn:He; [apply GetByKey_Add_eq|done].
  - destruct (GetByKey r k); [by apply GetByKey_Add_ne|done].
Qed.

(** A counter that moves down towards a value of its type does not wrap. *)
Lemma wrap64_lower n a m :
  in_int64 n → in_int64 (n - (a + m)) → 0 ≤ a → 0 ≤ m → wrap64 (n + wrap64 (- a)) = n - a.
Proof.
  unfold wrap64. rewrite wrap_add_r. intros Hn Hm Ha Hm0. apply wrap64_small.
  unfold in_int64 in *. lia.
Qed.

Lemma observe_counts k os r e :
  GetByKey r k = Some e → in_int64 (add e) → in_int64 (del e) →
  in_int64 (add e - reported obs_adds k os) → in_int64 (del e - reported obs_dels k os) →
  GetByKey (foldl observe r os) k =
    Some {| add := add e - reported obs_adds k os; del := del e - reported obs_dels k os;
            exp_key := exp_key e; timestamp := timestamp e |}.
Proof.
  revert r e. induction os as [|o os IH]; intros r e He Ha Hd Ha' Hd'; simpl in *.
  { rewrite He. f_equal. destruct e; simpl. f_equal; lia. }
  assert (observe r o = LowerExpectations (obs_key o) (obs_adds o) (obs_dels o) r) as -> by by destruct o.
  assert (0 ≤ reported obs_adds k os) by (apply reported_nonneg; intros []; simpl; lia).
  assert (0 ≤ reported obs_dels k os) by (apply reported_nonneg; intros []; simpl; lia).
  assert (0 ≤ obs_adds o ∧ 0 ≤ obs_dels o) as [Hoa Hod] by (destruct o; simpl; lia).
  unfold LowerExpectations. dec (obs_key o = k) as Hk;
    [rewrite (bool_decide_eq_true_2 _ Hk) in Ha', Hd'|rewrite (bool_decide_eq_false_2 _ Hk) in Ha', Hd'].
  - rewrite (IH _ (Add (wrap64 (- obs_adds o)) (wrap64 (- obs_dels o)) e)).
    + unfold Add. simpl. erewrite !wrap64_lower by eauto. f_equal. f_equal; lia.
    + by rewrite GetByKey_adjust, bool_decide_eq_true_2, He.
    + simpl. erewrite wrap64_lower by eauto. unfold in_int64 in *. lia.
    + simpl. erewrite wrap64_lower by eauto. unfold in_int64 in *. lia.
    + simpl. erewrite wrap64_lower by eauto. unfold in_int64 in *. lia.
    + simpl. erewrite wrap64_lower by eauto. unfold in_int64 in *. lia.
  - rewrite !Z.add_0_l in *. apply IH; try done. by rewrite GetByKey_adjust, bool_decide_eq_false_2.
Qed.

(** A controller that has set its expectations is woken up exactly when the
    creations and deletions it expects have been reported, in any order and
    whatever is reported to other controllers, or when they have expired. *)
Theorem SatisfiedExpectations_spec now now' k a d r os :
  in_int64 a → in_int64 d →
  in_int64 (a - reported obs_adds k os) → in_int64 (d - reported obs_dels k os) →
  SatisfiedExpectations now' (foldl observe (SetExpectations now k a d r) os) k =
    ((a <=? reported obs_adds k os) && (d <=? reported obs_dels k os))
    || (ExpectationsTimeout <? Sub now' now).
Proof.
  intros Ha Hd Ha' Hd'. unfold SatisfiedExpectations, GetExpectations.
  erewrite observe_counts; [|apply GetByKey_Add_eq|done..].
  unfold Fulfilled, isExpired. simpl.
  destruct (ExpectationsTimeout <? _), (a <=? _) eqn:?, (d <=? _) eqn:?; simpl;
    repeat case_match; try done; lia.
Qed.

(** *** Deletions are counted once *)

Definition tracks (t : Time) (u : UIDTrackingControllerExpectations) (k : string)
    (waiting : gset string) : Prop :=
  GetUIDs u k = Some waiting ∧
  ∃ e, GetByKey (expectations u) k = Some e ∧ add e = 0 ∧ del e = Z.of_nat (size waiting) ∧
    timestamp e = t.

Lemma tracks_observed t u k waiting x :
  Z.of_nat (size waiting) < 2 ^ 63 →
  tracks t u k waiting → tracks t (UID_DeletionObserved k x u) k (waiting ∖ {[x]}).
Proof.
  intros Hsize (Hu & e & He & Ha & Hd & Ht). unfold GetUIDs in Hu. unfold UID_DeletionObserved.
  destruct (GetByKey (uidStore u) k) as [s|] eqn:Hs; simplify_eq/=.
  dec (x ∈ uids s) as Hx.
  - split; [unfold GetUIDs; simpl; by rewrite GetByKey_Add_eq|].
    exists (Add (wrap64 (- 0)) (wrap64 (- (1))) e). simpl. unfold DeletionObserved, LowerExpectations.
    rewrite GetByKey_adjust, bool_decide_eq_true_2, He by done. split; [done|]. rewrite Ha, Hd.
    assert (size (uids s) = size (uids s ∖ {[x]}) + 1)%nat as Hsz.
    { rewrite (union_difference_L {[x]} (uids s)) at 1 by set_solver.
      rewrite size_union, size_singleton by set_solver. lia. }
    split; [done|]. split; [|done]. rewrite (wrap64_lower _ 1 0); unfold in_int64; lia.
  - assert (uids s ∖ {[x]} = uids s) as -> by set_solver.
    split; [unfold GetUIDs; by rewrite Hs|by exists e].
Qed.

Lemma tracks_observed_ne t u k k' waiting x :
  k ≠ k' → tracks t u k waiting → tracks t (UID_DeletionObserved k' x u) k waiting.
Proof.
  intros Hk (Hu & e & He & Ha & Hd & Ht). unfold UID_DeletionObserved.
  destruct (GetByKey (uidStore u) k') as [s|]; [|by (split; [|exists e])].
  destruct (bool_decide _); [|by (split; [|exists e])].
  split; [unfold GetUIDs in *; simpl; by rewrite GetByKey_Add_ne|].
  exists e. unfold DeletionObserved, LowerExpectations. simpl.
  by rewrite GetByKey_adjust, bool_decide_eq_false_2.
Qed.

Lemma size_list_to_set_le (l : list string) : (size (list_to_set l : gset string) ≤ length l)%nat.
Proof.
  induction l as [|x l IH]; [done|].
  rewrite list_to_set_cons, size_union_alt, size_singleton, length_cons.
  assert (size (list_to_set l ∖ {[x]} : gset string) ≤ size (list_to_set l : gset string))%nat
    by (apply subseteq_size; set_solver). lia.
Qed.

(** C40: the deletion of a pod is counted once, however often and through
    whichever handler it is reported, and only for the controller that asked for
    it: after any sequence of reports the controller waits for as many
    deletions as it has pods left to see deleted, and for no creation; until the
    expectations expire (after which they count as satisfied anyway) they are
    satisfied exactly when no pod is left. *)
Theorem deletions_counted_once now k keys u reports :
  Z.of_nat (length keys) < 2 ^ 63 →
  let u' := foldl (λ u '(rcKey, deleteKey), UID_DeletionObserved rcKey deleteKey u)
              (UID_ExpectDeletions now k keys u) reports in
  let left : gset string := list_to_set keys ∖ list_to_set (snd <$> filter (λ r, r.1 = k) reports) in
  tracks now u' k left ∧
  (∀ now', Sub now' now ≤ ExpectationsTimeout →
     (SatisfiedExpectations now' (expectations u') k = true ↔ left = ∅)).
Proof.
  intros Hlen u' left.
  assert (tracks now u' k left) as Htr.
  { subst u' left. set (u0 := UID_ExpectDeletions now k keys u).
    assert (tracks now u0 k (list_to_set keys)) as H0.
    { split; [unfold GetUIDs; simpl; by rewrite GetByKey_Add_eq|].
      eexists. simpl. split; [apply GetByKey_Add_eq|]. done. }
    assert (Z.of_nat (size (list_to_set keys : gset string)) < 2 ^ 63) as Hsz.
    { eapply Z.le_lt_trans; [|exact Hlen]. apply inj_le, size_list_to_set_le. }
    revert H0 Hsz. generalize (list_to_set keys : gset string) as waiting. generalize u0.
    clear. induction reports as [|[k' x] reports IH]; intros u waiting Htr Hsz; simpl.
    { by rewrite difference_empty_L. }
    rewrite filter_cons. simpl. destruct (decide (k' = k)) as [->|Hk].
    - rewrite fmap_cons, list_to_set_cons, <- difference_difference_l_L. simpl.
      apply IH; [by apply tracks_observed|].
      eapply Z.le_lt_trans; [|exact Hsz]. apply inj_le, subseteq_size. set_solver.
    - apply IH; [|done]. by apply tracks_observed_ne. }
  split; [done|]. intros now' Hexp. destruct Htr as (_ & e & He & Ha & Hd & Ht).
  unfold SatisfiedExpectations, GetExpectations, Fulfilled. rewrite He, Ha, Hd.
  assert (isExpired now' e = false) as -> by (unfold isExpired; rewrite Ht; lia).
  rewrite <- leibniz_equiv_iff, <- size_empty_iff. destruct (_ && _) eqn:Hf; split; intros; try done; lia.
Qed.
End expectations.
