(* ===== verification/PodRank.v ===== *)
(** * Ranking and filtering pods ([pkg/controller/controller_utils.go])

    The orders in which pods are preferred, the filters on pods and replica sets,
    the next availability check, and the hash of a template. *)
From S2P Require Export History PodUtil.

(** ** Predicates and filters *)

Definition IsPodActive (p : Pod) : bool :=
  bool_decide (PodSucceeded ≠ Phase (pod_Status p)) && bool_decide (PodFailed ≠ Phase (pod_Status p))
  && bool_decide (DeletionTimestamp (pod_meta p) = None).
Definition IsPodTerminating (p : Pod) : bool :=
  negb (IsPodTerminal p) && bool_decide (DeletionTimestamp (pod_meta p) ≠ None).
Definition FilterActivePods (pods : list Pod) : list Pod := List.filter IsPodActive pods.
Definition FilterTerminatingPods (pods : list Pod) : list Pod := List.filter IsPodTerminating pods.
Definition CountTerminatingPods (pods : list Pod) : Z :=
  wrap32 (foldl (λ n p, if IsPodTerminating p then n + 1 else n) 0 pods).

Definition FilterClaimedPods `{K8s} (controller : ObjectMeta) (sel : selector) (pods : list Pod) : list Pod :=
  List.filter (λ pod, IsControlledBy (OwnerReferences (pod_meta pod)) controller
                      && Matches sel (Labels (pod_meta pod))) pods.

(** Pointers to replica sets; the filter may dereference a nil [Replicas]. *)
Fixpoint FilterReplicaSets (RSes : list (option ReplicaSet)) (filterFn : option ReplicaSet → option bool)
    : option (list (option ReplicaSet)) :=
  match RSes with
  | [] => Some []
  | rs :: RSes =>
      keep ← filterFn rs;
      filtered ← FilterReplicaSets RSes filterFn;
      Some (if keep : bool then rs :: filtered else filtered)
  end.
Definition FilterActiveReplicaSets (replicaSets : list (option ReplicaSet)) : option (list (option ReplicaSet)) :=
  FilterReplicaSets replicaSets (λ rs,
    match rs with
    | None => Some false
    | Some rs => n ← rs_Replicas rs; Some (0 <? n)
    end).

(** [PodKey]: the ["%v/%v"] format. *)
Definition PodKey (pod : Pod) : string := Namespace (pod_meta pod) +:+ "/" +:+ Name (pod_meta pod).

Definition validateControllerRef (controllerRef : option OwnerReference) : option string :=
  match controllerRef with
  | None => Some "controllerRef is nil"
  | Some ref =>
      if bool_decide (or_APIVersion ref = "") then Some "controllerRef has empty APIVersion"
      else if bool_decide (or_Kind ref = "") then Some "controllerRef has empty Kind"
      else if negb (ptr_true (or_Controller ref)) then Some "controllerRef.Controller is not set to true"
      else if negb (ptr_true (or_BlockOwnerDeletion ref)) then Some "controllerRef.BlockOwnerDeletion is not set"
      else None
  end.

(** [fnv.New32a]: the byte is mixed in before the multiplication. *)
Definition fnv1a_Write (sum : Z) (data : string) : Z :=
  foldl (λ h c, (Z.lxor h (Z.of_N (N_of_ascii c)) * prime32) mod 2 ^ 32) sum (chars data).

(** The collision count is written as four little-endian bytes and four zero bytes. *)
Definition le32 (n : Z) : string :=
  of_chars ((λ i, ascii_of_N (Z.to_N (Z.shiftr (n mod 2 ^ 32) (8 * i) mod 256))) <$> seqZ 0 8).

(** [hashutil.DeepHashObject] resets the hasher and writes the dump of the template. *)
Definition ComputeHash `{K8s} (template : PodTemplateSpec) (collisionCount : option Z) : string :=
  let hasher := fnv1a_Write offset32 (ForHash (TemplateObject template)) in
  let hasher := match collisionCount with Some c => fnv1a_Write hasher (le32 c) | None => hasher end in
  SafeEncodeString (Itoa hasher).

(** ** Ranks *)

(** A phase that is not in the map has the zero value. *)
Definition podPhaseToOrdinal (phase : string) : Z :=
  if bool_decide (phase = PodPending) then 0
  else if bool_decide (phase = PodUnknown) then 1
  else if bool_decide (phase = PodRunning) then 2 else 0.

Definition afterOrZero (t1 t2 : Time) : bool :=
  if IsZero t1 || IsZero t2 then IsZero t1 else t2 <? t1.

Definition podReadyTime (pod : Pod) : Time :=
  if IsPodReady pod then
    match List.find (λ c, bool_decide (cond_Type c = PodReady) && bool_decide (cond_Status c = ConditionTrue))
            (pod_Conditions (pod_Status pod)) with
    | Some c => cond_LastTransitionTime c
    | None => 0
    end
  else 0.

Definition maxContainerRestarts (pod : Pod) : Z * Z :=
  let names : gset string :=
    list_to_set (c_Name <$> filter (λ c, c_RestartPolicy c = Some ContainerRestartPolicyAlways)
                              (InitContainers (pod_Spec pod))) in
  (foldl (λ m c, Z.max m (cs_RestartCount c)) 0 (ContainerStatuses (pod_Status pod)),
   foldl (λ m c, if bool_decide (cs_Name c ∈ names) then Z.max m (cs_RestartCount c) else m) 0
     (InitContainerStatuses (pod_Status pod))).

Definition compareMaxContainerRestarts (pi pj : Pod) : option bool :=
  let '(regularRestartsI, sidecarRestartsI) := maxContainerRestarts pi in
  let '(regularRestartsJ, sidecarRestartsJ) := maxContainerRestarts pj in
  if negb (regularRestartsI =? regularRestartsJ) then Some (regularRestartsJ <? regularRestartsI)
  else if negb (sidecarRestartsI =? sidecarRestartsJ) then Some (sidecarRestartsJ <? sidecarRestartsI)
  else None.

Definition unassigned (p : Pod) : bool := bool_decide (NodeName (pod_Spec p) = "").
Definition phase_of (p : Pod) : string := Phase (pod_Status p).

Definition ByLogging_Less (x y : Pod) : bool :=
  if bool_decide (NodeName (pod_Spec x) ≠ NodeName (pod_Spec y)) && (unassigned x || unassigned y)
  then negb (unassigned x)
  else if bool_decide (phase_of x ≠ phase_of y)
  then podPhaseToOrdinal (phase_of y) <? podPhaseToOrdinal (phase_of x)
  else if negb (eqb (IsPodReady x) (IsPodReady y)) then IsPodReady x
  else
    let rest :=
      match compareMaxContainerRestarts x y with
      | Some res => res
      | None =>
          if negb (CreationTimestamp (pod_meta x) =? CreationTimestamp (pod_meta y))
          then afterOrZero (CreationTimestamp (pod_meta y)) (CreationTimestamp (pod_meta x))
          else false
      end in
    if IsPodReady x && IsPodReady y && negb (podReadyTime x =? podReadyTime y)
    then afterOrZero (podReadyTime y) (podReadyTime x) else rest.

Definition ActivePods_Less (x y : Pod) : bool :=
  if bool_decide (NodeName (pod_Spec x) ≠ NodeName (pod_Spec y)) && (unassigned x || unassigned y)
  then unassigned x
  else if negb (podPhaseToOrdinal (phase_of x) =? podPhaseToOrdinal (phase_of y))
  then podPhaseToOrdinal (phase_of x) <? podPhaseToOrdinal (phase_of y)
  else if negb (eqb (IsPodReady x) (IsPodReady y)) then negb (IsPodReady x)
  else
    let rest :=
      match compareMaxContainerRestarts x y with
      | Some res => res
      | None =>
          if negb (CreationTimestamp (pod_meta x) =? CreationTimestamp (pod_meta y))
          then afterOrZero (CreationTimestamp (pod_meta x)) (CreationTimestamp (pod_meta y))
          else false
      end in
    if IsPodReady x && IsPodReady y && negb (podReadyTime x =? podReadyTime y)
    then afterOrZero (podReadyTime x) (podReadyTime y) else rest.

(** [ReplicaSetsByCreationTimestamp], [ReplicaSetsBySizeOlder], [ReplicaSetsBySizeNewer];
    [Time.Before] on non-nil times. *)
Definition ReplicaSetsByCreationTimestamp_Less (x y : ReplicaSet) : bool :=
  if CreationTimestamp (rs_meta x) =? CreationTimestamp (rs_meta y)
  then str_lt (Name (rs_meta x)) (Name (rs_meta y))
  else CreationTimestamp (rs_meta x) <? CreationTimestamp (rs_meta y).
Definition ReplicaSetsBySizeOlder_Less (x y : ReplicaSet) : option bool :=
  m ← rs_Replicas x; n ← rs_Replicas y;
  Some (if m =? n then ReplicaSetsByCreationTimestamp_Less x y else n <? m).
Definition ReplicaSetsBySizeNewer_Less (x y : ReplicaSet) : option bool :=
  m ← rs_Replicas x; n ← rs_Replicas y;
  Some (if m =? n then ReplicaSetsByCreationTimestamp_Less y x else n <? m).

(** [v1.ReplicationController]: its metadata. *)
Record ReplicationController := { rc_meta : ObjectMeta }.
Definition ControllersByCreationTimestamp_Less (x y : ReplicationController) : bool :=
  if CreationTimestamp (rc_meta x) =? CreationTimestamp (rc_meta y)
  then str_lt (Name (rc_meta x)) (Name (rc_meta y))
  else CreationTimestamp (rc_meta x) <? CreationTimestamp (rc_meta y).

(** [Log2 d] is [int64(math.Log2(float64(d)))]. *)
Definition logarithmicRankDiff (Log2 : Z → Z) (t1 t2 now : Time) : Z :=
  let d1 := Sub now t1 in
  let d2 := Sub now t2 in
  let r1 := if 0 <? d1 then Log2 d1 else -1 in
  let r2 := if 0 <? d2 then Log2 d2 else -1 in
  wrap64 (r1 - r2).

(** ** The next availability check *)

Definition nextPodAvailabilityCheck (pod : Pod) (minReadySeconds : Z) (now : Time) : option Z :=
  if negb (IsPodReady pod) || (minReadySeconds <=? 0) then None
  else
    match GetPodReadyCondition (pod_Status pod) with
    | None => None   (* a ready pod has the condition, see [IsPodReady_condition] *)
    | Some c =>
        if IsZero (cond_LastTransitionTime c) then None
        else
          let nextCheck := Sub (cond_LastTransitionTime c + wrap64 (minReadySeconds * second)) now in
          if 0 <? nextCheck then Some nextCheck else None
    end.

Fixpoint findMin_loop (pods : list Pod) (minReadySeconds : Z) (now : Time) (best : option (Z * Pod))
    : option (Z * Pod) :=
  match pods with
  | [] => best
  | p :: pods =>
      findMin_loop pods minReadySeconds now
        (match nextPodAvailabilityCheck p minReadySeconds now, best with
         | None, _ => best
         | Some nextCheck, None => Some (nextCheck, p)
         | Some nextCheck, Some (m, _) => if nextCheck <? m then Some (nextCheck, p) else best
         end)
  end.
Definition findMinNextPodAvailabilitySimpleCheck (pods : list Pod) (minReadySeconds : Z) (now : Time)
    : option (Z * Pod) := findMin_loop pods minReadySeconds now None.

Definition FindMinNextPodAvailabilityCheck `{K8s} (pods : list Pod) (minReadySeconds : Z)
    (lastOwnerStatusEvaluation : Time) : go (option Z) :=
  match findMinNextPodAvailabilitySimpleCheck pods minReadySeconds lastOwnerStatusEvaluation with
  | None => mret None
  | Some (_, checkPod) =>
      now ← call Now;
      mret (Some (default 0 (nextPodAvailabilityCheck checkPod minReadySeconds now)))
  end.

(** ** Properties *)

(** *** The orders are lexicographic *)

Fixpoint lex_lt (k l : list Z) : bool :=
  match k, l with
  | a :: k, b :: l => if a =? b then lex_lt k l else a <? b
  | _, _ => false
  end.

Lemma lex_cons a b k l :
  lex_lt (a :: k) (b :: l) = if a =? b then lex_lt k l else a <? b.
Proof. done. Qed.

Lemma lex_lt_asym k l : lex_lt k l = true → lex_lt l k = false.
Proof.
  revert l. induction k as [|a k IH]; intros [|b l]; simpl; try done.
  destruct (a =? b) eqn:?, (b =? a) eqn:?; try lia. apply IH.
Qed.

Lemma lex_lt_trans k l m :
  length k = length l → length l = length m →
  lex_lt l k = false → lex_lt m l = false → lex_lt m k = false.
Proof.
  revert l m. induction k as [|a k IH]; intros [|b l] [|c m] Hkl Hlm; simpl in *; try done.
  destruct (b =? a) eqn:?, (c =? b) eqn:?, (c =? a) eqn:?; try lia. apply (IH l m); lia.
Qed.

(** Earlier than every other time, or descending in time. *)
Definition newest_first (t : Time) : list Z := if IsZero t then [0; 0] else [1; - t].
(** Ascending in time, the zero time last. *)
Definition oldest_first (t : Time) : list Z := if IsZero t then [1; 0] else [0; t].

(** The criteria of [ActivePods.Less], in the order of the comments of the source. *)
Definition ActivePods_key (p : Pod) : list Z :=
  [Z.b2z (negb (unassigned p)); podPhaseToOrdinal (phase_of p); Z.b2z (IsPodReady p)]
  ++ newest_first (podReadyTime p)
  ++ [- (maxContainerRestarts p).1; - (maxContainerRestarts p).2]
  ++ newest_first (CreationTimestamp (pod_meta p)).

Definition ByLogging_key (p : Pod) : list Z :=
  [Z.b2z (unassigned p); - podPhaseToOrdinal (phase_of p); Z.b2z (negb (IsPodReady p))]
  ++ oldest_first (podReadyTime p)
  ++ [- (maxContainerRestarts p).1; - (maxContainerRestarts p).2]
  ++ oldest_first (CreationTimestamp (pod_meta p)).

Lemma lex_newest t u k l :
  lex_lt (newest_first t ++ k) (newest_first u ++ l) =
    if t =? u then lex_lt k l else afterOrZero t u.
Proof.
  unfold newest_first, afterOrZero, IsZero.
  destruct (t =? 0) eqn:?, (u =? 0) eqn:?, (t =? u) eqn:?; simpl; try done; try lia;
    destruct (- t =? - u) eqn:?; try lia; done.
Qed.

Lemma lex_oldest t u k l :
  lex_lt (oldest_first t ++ k) (oldest_first u ++ l) =
    if t =? u then lex_lt k l else afterOrZero u t.
Proof.
  unfold oldest_first, afterOrZero, IsZero.
  destruct (t =? 0) eqn:?, (u =? 0) eqn:?, (t =? u) eqn:E; simpl; rewrite ?E; try done; lia.
Qed.

Lemma eqb_negb a b : eqb (negb a) (negb b) = eqb a b.
Proof. by destruct a, b. Qed.

Lemma lex_cons_b2z (a b : bool) k l :
  lex_lt (Z.b2z a :: k) (Z.b2z b :: l) = if eqb a b then lex_lt k l else b.
Proof. by destruct a, b. Qed.

Lemma podReadyTime_not_ready p : IsPodReady p = false → podReadyTime p = 0.
Proof. unfold podReadyTime. by intros ->. Qed.

Lemma restarts_lex x y k l :
  lex_lt (- (maxContainerRestarts x).1 :: - (maxContainerRestarts x).2 :: k)
         (- (maxContainerRestarts y).1 :: - (maxContainerRestarts y).2 :: l) =
    match compareMaxContainerRestarts x y with Some res => res | None => lex_lt k l end.
Proof.
  unfold compareMaxContainerRestarts. destruct (maxContainerRestarts x) as [a b], (maxContainerRestarts y) as [c d].
  simpl. destruct (- a =? - c) eqn:?, (a =? c) eqn:?, (- b =? - d) eqn:?, (b =? d) eqn:?; simpl; try lia; try done.
Qed.

(** A name is missing in one of the two only: what the first criterion tests. *)
Lemma one_unassigned x y :
  bool_decide (NodeName (pod_Spec x) ≠ NodeName (pod_Spec y)) && (unassigned x || unassigned y)
    = negb (eqb (unassigned x) (unassigned y)).
Proof.
  unfold unassigned. repeat case_bool_decide; simpl; try done; congruence.
Qed.

Lemma ActivePods_Less_lex x y :
  ActivePods_Less x y = lex_lt (ActivePods_key x) (ActivePods_key y).
Proof.
  unfold ActivePods_Less, ActivePods_key. rewrite one_unassigned. cbn [app]. rewrite lex_cons_b2z, eqb_negb.
  destruct (eqb (unassigned x) (unassigned y)) eqn:Hu; cbn [negb];
    [|by destruct (unassigned x), (unassigned y)].
  rewrite lex_cons. destruct (podPhaseToOrdinal (phase_of x) =? _) eqn:Hp; cbn [negb]; [|done].
  rewrite lex_cons_b2z. destruct (eqb (IsPodReady x) (IsPodReady y)) eqn:Hr; cbn [negb];
    [|by destruct (IsPodReady x), (IsPodReady y)].
  apply eqb_prop in Hr. rewrite lex_newest, restarts_lex.
  rewrite <- (app_nil_r (newest_first (CreationTimestamp (pod_meta x)))),
    <- (app_nil_r (newest_first (CreationTimestamp (pod_meta y)))), lex_newest.
  destruct (IsPodReady x) eqn:Hx; rewrite <- Hr; simpl.
  - destruct (podReadyTime x =? podReadyTime y); simpl; [|done].
    destruct (compareMaxContainerRestarts x y); [done|].
    by destruct (CreationTimestamp (pod_meta x) =? CreationTimestamp (pod_meta y)).
  - rewrite !podReadyTime_not_ready by done. simpl.
    destruct (compareMaxContainerRestarts x y); [done|].
    by destruct (CreationTimestamp (pod_meta x) =? CreationTimestamp (pod_meta y)).
Qed.

(** The map of phases distinguishes these. *)
Definition ranked_phase (phase : string) : Prop :=
  phase = PodPending ∨ phase = PodUnknown ∨ phase = PodRunning.

Lemma podPhaseToOrdinal_inj a b :
  ranked_phase a → ranked_phase b → podPhaseToOrdinal a = podPhaseToOrdinal b → a = b.
Proof. by intros [->|[->| ->]] [->|[->| ->]]. Qed.

(** On pods that are pending, running or unknown, [ByLogging] is the
    lexicographic order of its documented criteria. *)
Theorem ByLogging_Less_lexicographic x y :
  ranked_phase (phase_of x) → ranked_phase (phase_of y) →
  ByLogging_Less x y = lex_lt (ByLogging_key x) (ByLogging_key y).
Proof.
  intros Hpx Hpy. unfold ByLogging_Less, ByLogging_key. rewrite one_unassigned. cbn [app]. rewrite lex_cons_b2z.
  destruct (eqb (unassigned x) (unassigned y)) eqn:Hu; cbn [negb];
    [|by destruct (unassigned x), (unassigned y)].
  rewrite lex_cons. dec (phase_of x = phase_of y) as Hp.
  2:{ rewrite bool_decide_eq_true_2 by done.
      destruct (- podPhaseToOrdinal (phase_of x) =? _) eqn:Ho; [|lia].
      destruct Hp. apply podPhaseToOrdinal_inj; [done..|lia]. }
  rewrite bool_decide_eq_false_2 by auto. rewrite Hp, Z.eqb_refl.
  rewrite lex_cons_b2z, eqb_negb. destruct (eqb (IsPodReady x) (IsPodReady y)) eqn:Hr; cbn [negb];
    [|by destruct (IsPodReady x), (IsPodReady y)].
  apply eqb_prop in Hr. rewrite lex_oldest, restarts_lex.
  rewrite <- (app_nil_r (oldest_first (CreationTimestamp (pod_meta x)))),
    <- (app_nil_r (oldest_first (CreationTimestamp (pod_meta y)))), lex_oldest.
  destruct (IsPodReady x) eqn:Hx; rewrite <- Hr; simpl.
  - destruct (podReadyTime x =? podReadyTime y); simpl; [|done].
    destruct (compareMaxContainerRestarts x y); [done|].
    by destruct (CreationTimestamp (pod_meta x) =? CreationTimestamp (pod_meta y)).
  - rewrite !podReadyTime_not_ready by done. simpl.
    destruct (compareMaxContainerRestarts x y); [done|].
    by destruct (CreationTimestamp (pod_meta x) =? CreationTimestamp (pod_meta y)).
Qed.

Lemma ActivePods_key_length x y : length (ActivePods_key x) = length (ActivePods_key y).
Proof. unfold ActivePods_key, newest_first. by repeat case_match. Qed.

#[export] Instance ActivePods_WeakOrder : WeakOrder ActivePods_Less.
Proof.
  split.
  - intros x y. rewrite !ActivePods_Less_lex. apply lex_lt_asym.
  - intros x y z. unfold not_after. rewrite !ActivePods_Less_lex.
    apply lex_lt_trans; apply ActivePods_key_length.
Qed.

(** Sorting pods as [ActivePods] lists them by the documented criteria, in
    lexicographic order: unassigned before assigned, then phase, readiness, time of
    readiness, restarts and age.  The comparison is a strict weak order, as
    [sort.Sort] requires, so the result is well defined up to pods that agree on
    all criteria. *)
Theorem ActivePods_sort_spec `{GoLaws} pods :
  sort_Sort ActivePods_Less pods ≡ₚ pods ∧
  StronglySorted (λ x y, lex_lt (ActivePods_key y) (ActivePods_key x) = false)
    (sort_Sort ActivePods_Less pods).
Proof.
  split; [apply sort_Sort_perm|].
  apply (StronglySorted_weaken (not_after ActivePods_Less)); [|apply sort_Sort_sorted].
  - intros x y. unfold not_after. by rewrite ActivePods_Less_lex.
  - intros x y z Hxy Hyz. exact (not_after_trans ActivePods_Less z y x Hyz Hxy).
  - intros x y. apply (less_asym ActivePods_Less).
Qed.

(** A pod with a phase and a creation time, for the next example. *)
Definition bare_pod (phase : string) (created : Time) : Pod :=
  {| pod_meta := {| Name := "p"; GenerateName := ""; Namespace := "ns"; UID := ""; ResourceVersion := "";
                    Generation := 0; CreationTimestamp := created; DeletionTimestamp := None; Labels := None;
                    Annotations := None; OwnerReferences := []; Finalizers := [] |};
     pod_Spec := {| Volumes := []; Hostname := ""; Subdomain := ""; NodeName := "n"; pod_RestartPolicy := "";
                    InitContainers := []; Containers := []; EphemeralContainers := [] |};
     pod_Status := {| Phase := phase; pod_Conditions := []; ContainerStatuses := [];
                      InitContainerStatuses := [] |} |}.

(** Beyond those phases [ByLogging.Less] is not a strict weak order: a finished
    pod is equivalent to every pending one, but the pending ones are not equivalent
    to each other, so what [sort.Sort] returns depends on the input order. *)
Theorem ByLogging_Less_not_weak : ¬ WeakOrder ByLogging_Less.
Proof.
  intros [_ Htrans].
  assert (not_after ByLogging_Less (bare_pod PodPending 2) (bare_pod PodPending 1)) as Hbad.
  { apply (Htrans _ (bare_pod PodSucceeded 3) _); reflexivity. }
  discriminate Hbad.
Qed.

(** *** Older first *)

#[export] Instance ControllersByCreationTimestamp_WeakOrder : WeakOrder ControllersByCreationTimestamp_Less.
Proof.
  split.
  - intros x y. unfold ControllersByCreationTimestamp_Less.
    destruct (CreationTimestamp (rc_meta x) =? CreationTimestamp (rc_meta y)) eqn:?,
      (CreationTimestamp (rc_meta y) =? CreationTimestamp (rc_meta x)) eqn:?; try lia. apply str_lt_asym.
  - intros x y z. unfold not_after, ControllersByCreationTimestamp_Less.
    destruct (CreationTimestamp (rc_meta y) =? CreationTimestamp (rc_meta x)) eqn:?,
      (CreationTimestamp (rc_meta z) =? CreationTimestamp (rc_meta y)) eqn:?,
      (CreationTimestamp (rc_meta z) =? CreationTimestamp (rc_meta x)) eqn:?; try lia.
    intros Hxy Hyz. by eapply str_le_trans.
Qed.

(** With a logarithm that grows from 0 to 63, the older of two times never has the
    smaller rank, and the difference does not overflow. *)
Lemma logarithmicRankDiff_older Log2 t1 t2 now :
  (∀ d, 0 < d < 2 ^ 63 → 0 ≤ Log2 d ≤ 63) → (∀ d d', 0 < d ≤ d' → Log2 d ≤ Log2 d') →
  t1 ≤ t2 → 0 ≤ logarithmicRankDiff Log2 t1 t2 now ≤ 64.
Proof.
  intros Hrange Hmono Ht. unfold logarithmicRankDiff, Sub. change (2 ^ 63) with 9223372036854775808 in *.
  set (d1 := Z.max _ _). set (d2 := Z.max _ (Z.min _ (now - t2))).
  assert (d2 ≤ d1 < 9223372036854775808) as [Hd Hd1] by (subst d1 d2; lia).
  destruct (0 <? d1) eqn:H1'; destruct (0 <? d2) eqn:H2'; try lia.
  - pose proof (Hrange d1). pose proof (Hrange d2). pose proof (Hmono d2 d1).
    rewrite wrap64_small; [lia|]. unfold in_int64. lia.
  - pose proof (Hrange d1). rewrite wrap64_small; [lia|]. unfold in_int64. lia.
  - rewrite wrap64_small; [lia|]. unfold in_int64. lia.
Qed.

(** *** The next availability check *)

(** For a pod that becomes ready but not yet available, the returned delay is
    exact: the pod is available at that moment and not before; when there is no
    delay, the pod is available already or nothing but a change of its status can
    make it so. *)
Theorem nextPodAvailabilityCheck_exact pod n now c :
  in_int32 n → 0 ≤ now < 2 ^ 62 →
  GetPodReadyCondition (pod_Status pod) = Some c → 0 ≤ cond_LastTransitionTime c < 2 ^ 62 →
  match nextPodAvailabilityCheck pod n now with
  | Some d => 0 < d ∧ ∀ t, now ≤ t → IsPodAvailable pod n t = (now + d <=? t)
  | None => 0 ≤ n → ∀ t, now ≤ t → IsPodAvailable pod n t = IsPodAvailable pod n now
  end.
Proof.
  intros Hn Hnow Hc Ht. unfold nextPodAvailabilityCheck, IsPodAvailable, IsZero, Sub. rewrite Hc.
  rewrite seconds_no_overflow by done. unfold in_int32 in Hn.
  destruct (IsPodReady pod); simpl; [|done].
  assert (second = 1000000000) as Hs by done.
  assert (2 ^ 62 = 4611686018427387904) as H62 by done. assert (2 ^ 63 = 9223372036854775808) as H63 by done.
  rewrite H62, H63 in *.
  destruct (n <=? 0) eqn:Hn0.
  { intros Hpos t _. replace n with 0 by lia. done. }
  destruct (cond_LastTransitionTime c =? 0) eqn:Hz; [by intros|]. simpl.
  rewrite Z.max_r, Z.min_r by lia.
  replace (n =? 0) with false by lia. simpl.
  destruct (0 <? _) eqn:Hd.
  - split; [lia|]. intros t _. destruct (_ <=? t) eqn:?; lia.
  - intros _ t Hle. repeat case_match; lia.
Qed.
