(* ===== verification/PodOps.v ===== *)
(** * Generic pod operations ([pkg/controller/controller_utils.go])

    [RealPodControl], which creates, deletes and patches pods through the API
    server, its test double [FakePodControl], which records what it is asked, and
    the patches of replica sets and controller revisions. *)
From S2P Require Export PodRank Controller.

(** ** Calls to the API server and the event recorder *)

Section calls.
Context `{K8s} (Obj : Type).

Inductive pod_call :=
| PodCreate (ns : string) (pod : Pod)
| PodDelete (ns podID : string)
| PodPatch (ns name data : string)
| ReplicaSetPatch (ns name data : string)
| ControllerRevisionPatch (ns name data : string)
| Eventf (obj : Obj) (eventtype reason message : string).

Definition pod_reply (c : pod_call) : Type :=
  match c with
  | PodCreate _ _ => Pod + error
  | PodDelete _ _ | PodPatch _ _ _ | ReplicaSetPatch _ _ _ | ControllerRevisionPatch _ _ _ => option error
  | Eventf _ _ _ _ => unit
  end%type.
End calls.
Arguments PodCreate {Obj}.
Arguments PodDelete {Obj}.
Arguments PodPatch {Obj}.
Arguments ReplicaSetPatch {Obj}.
Arguments ControllerRevisionPatch {Obj}.
Arguments Eventf {Obj}.

Definition FailedCreatePodReason : string := "FailedCreate".
Definition SuccessfulCreatePodReason : string := "SuccessfulCreate".
Definition FailedDeletePodReason : string := "FailedDelete".
Definition SuccessfulDeletePodReason : string := "SuccessfulDelete".
Definition NamespaceTerminatingCause : string := "NamespaceTerminating".

Definition with_GenerateName (n : string) (m : ObjectMeta) : ObjectMeta :=
  {| Name := Name m; GenerateName := n; Namespace := Namespace m; UID := UID m;
     ResourceVersion := ResourceVersion m; Generation := Generation m;
     CreationTimestamp := CreationTimestamp m; DeletionTimestamp := DeletionTimestamp m;
     Labels := Labels m; Annotations := Annotations m; OwnerReferences := OwnerReferences m;
     Finalizers := Finalizers m |}.

Section ops.
Context `{K8s} {Obj : Type}.
(** [meta.Accessor] and [apierrors.HasStatusCause]. *)
Context (Accessor : Obj → ObjectMeta + error) (HasStatusCause : error → string → bool).
Notation podM := (prog (pod_reply Obj)).

(** ** [RealPodControl] *)

Definition createPods (namespace : string) (pod : Pod) (obj : Obj) : podM (option error) :=
  if bool_decide (default ∅ (Labels (pod_meta pod)) = ∅)
  then mret (Some (Errorf "unable to create pods, no labels" None))
  else
    r ← call (PodCreate namespace pod);
    match r with
    | inr err =>
        (if negb (HasStatusCause err NamespaceTerminatingCause)
         then call (Eventf obj "Warning" FailedCreatePodReason ("Error creating: " +:+ Error err))
         else mret tt);;
        mret (Some err)
    | inl newPod =>
        match Accessor obj with
        | inr _ => mret None
        | inl _ =>
            call (Eventf obj "Normal" SuccessfulCreatePodReason
                    ("Created pod: " +:+ Name (pod_meta newPod)));;
            mret None
        end
    end.

Definition CreatePodsWithGenerateName (namespace : string) (template : PodTemplateSpec)
    (controllerObject : Obj) (controllerRef : option OwnerReference) (generateName : string)
    : podM (option error) :=
  match validateControllerRef controllerRef with
  | Some err => mret (Some (Errorf err None))
  | None =>
      match Accessor controllerObject with
      | inr err =>
          mret (Some (Errorf ("parentObject does not have ObjectMeta, " +:+ Error err) None))
      | inl accessor =>
          let pod := GetPodFromTemplate template accessor controllerRef in
          let pod := if bool_decide (generateName ≠ "")
                     then set_pod_meta (with_GenerateName generateName) pod else pod in
          createPods namespace pod controllerObject
      end
  end.

Definition CreatePods (namespace : string) (template : PodTemplateSpec) (controllerObject : Obj)
    (controllerRef : option OwnerReference) : podM (option error) :=
  CreatePodsWithGenerateName namespace template controllerObject controllerRef "".

Definition PatchPod (namespace name data : string) : podM (option error) :=
  call (PodPatch namespace name data).

Definition RealPodControl_DeletePod (namespace podID : string) (obj : Obj) : podM (option error) :=
  match Accessor obj with
  | inr err => mret (Some (Errorf ("object does not have ObjectMeta, " +:+ Error err) None))
  | inl _ =>
      r ← call (PodDelete namespace podID);
      match r with
      | Some err =>
          if IsNotFound err then mret (Some err)
          else
            call (Eventf obj "Warning" FailedDeletePodReason ("Error deleting: " +:+ Error err));;
            mret (Some (Errorf ("unable to delete pods: " +:+ Error err) None))
      | None =>
          call (Eventf obj "Normal" SuccessfulDeletePodReason ("Deleted pod: " +:+ podID));;
          mret None
      end
  end.

(** [RealRSControl] and [RealControllerRevisionControl] *)
Definition PatchReplicaSet (namespace name data : string) : podM (option error) :=
  call (ReplicaSetPatch namespace name data).
Definition PatchControllerRevision (namespace name data : string) : podM (option error) :=
  call (ControllerRevisionPatch namespace name data).
End ops.

(** ** [FakePodControl] *)

Section fake.
Context `{K8s}.

Record FakePodControl := {
  Templates : list PodTemplateSpec;
  ControllerRefs : list OwnerReference;
  DeletePodName : list string;
  Patches : list string;
  Err : option error;
  CreateLimit : Z;
  CreateCallCount : Z
}.

Definition with_GenerateName_tmpl (prefix : string) (spec : PodTemplateSpec) : PodTemplateSpec :=
  {| tmpl_meta := with_GenerateName prefix (tmpl_meta spec); tmpl_Spec := tmpl_Spec spec |}.

(** Each method holds the lock of [f], so it is one step; the result comes with the
    new state.  [Create] also writes to the template it is given. *)
Definition Fake_PatchPod (data : string) (f : FakePodControl) : option error * FakePodControl :=
  (Err f,
   {| Templates := Templates f; ControllerRefs := ControllerRefs f; DeletePodName := DeletePodName f;
      Patches := Patches f ++ [data]; Err := Err f; CreateLimit := CreateLimit f;
      CreateCallCount := CreateCallCount f |}).

(** [None]: the dereference of a nil [controllerRef]. *)
Definition Fake_CreatePodsWithGenerateName (spec : PodTemplateSpec) (controllerRef : option OwnerReference)
    (generateNamePrefix : string) (f : FakePodControl)
    : option (option error * PodTemplateSpec * FakePodControl) :=
  let CreateCallCount := wrap64 (CreateCallCount f + 1) in
  if bool_decide (CreateLimit f ≠ 0) && (CreateLimit f <? CreateCallCount)
  then
    Some (Some (Errorf ("not creating pod, limit " +:+ Itoa (CreateLimit f) +:+
                        " already reached (create call " +:+ Itoa CreateCallCount +:+ ")") None),
          spec,
          {| Templates := Templates f; ControllerRefs := ControllerRefs f;
             DeletePodName := DeletePodName f; Patches := Patches f; Err := Err f;
             CreateLimit := CreateLimit f; CreateCallCount := CreateCallCount |})
  else
    let spec := with_GenerateName_tmpl generateNamePrefix spec in
    ref ← controllerRef;
    Some (Err f, spec,
          {| Templates := Templates f ++ [spec]; ControllerRefs := ControllerRefs f ++ [ref];
             DeletePodName := DeletePodName f; Patches := Patches f; Err := Err f;
             CreateLimit := CreateLimit f; CreateCallCount := CreateCallCount |}).

Definition Fake_CreatePods (spec : PodTemplateSpec) (controllerRef : option OwnerReference)
    (f : FakePodControl) : option (option error * PodTemplateSpec * FakePodControl) :=
  Fake_CreatePodsWithGenerateName spec controllerRef "" f.

Definition Fake_DeletePod (podID : string) (f : FakePodControl) : option error * FakePodControl :=
  (Err f,
   {| Templates := Templates f; ControllerRefs := ControllerRefs f;
      DeletePodName := DeletePodName f ++ [podID]; Patches := Patches f; Err := Err f;
      CreateLimit := CreateLimit f; CreateCallCount := CreateCallCount f |}).

Definition Clear (f : FakePodControl) : FakePodControl :=
  {| Templates := []; ControllerRefs := []; DeletePodName := []; Patches := []; Err := Err f;
     CreateLimit := 0; CreateCallCount := 0 |}.
End fake.

(** ** Index of the pods by node *)

Section indexer.
Context `{K8s} {S : Type}.

Definition PodNodeNameKeyIndex : string := "spec.nodeName".

(** The index function; it never fails. *)
Definition PodNodeNameIndexFunc (obj : event_object) : list string :=
  match obj with
  | ObjPod pod => if bool_decide (NodeName (pod_Spec pod) = "") then [] else [NodeName (pod_Spec pod)]
  | _ => []
  end.

(** [GetIndexer().GetIndexers()] and [AddIndexers] of the informer. *)
Context (GetIndexers : S → gmap string (event_object → list string)).
Context (AddIndexers : gmap string (event_object → list string) → S → option error * S).

Definition AddPodNodeNameIndexer (podInformer : S) : option error * S :=
  match GetIndexers podInformer !! PodNodeNameKeyIndex with
  | Some _ => (None, podInformer)
  | None => AddIndexers {[PodNodeNameKeyIndex := PodNodeNameIndexFunc]} podInformer
  end.

Definition AddPodControllerIndexer (podInformer : S) : option error * S :=
  match GetIndexers podInformer !! "podController" with
  | Some _ => (None, podInformer)
  | None => AddIndexers {["podController" := PodControllerIndex]} podInformer
  end.
End indexer.

(** ** Properties *)

Section props.
Context `{K8s} {Obj : Type}.
Context (Accessor : Obj → ObjectMeta + error) (HasStatusCause : error → string → bool).
Notation podM := (prog (pod_reply Obj)).
Notation trace := (list (obs (pod_reply Obj))).

(** What a creation asks for. *)
Definition pod_of_request (template : PodTemplateSpec) (ref : OwnerReference) (generateName : string)
    (pod : Pod) : Prop :=
  OwnerReferences (pod_meta pod) = [ref] ∧ pod_Spec pod = tmpl_Spec template ∧
  default ∅ (Labels (pod_meta pod)) = default ∅ (Labels (tmpl_meta template)) ∧
  (generateName ≠ "" → GenerateName (pod_meta pod) = generateName).

(** A valid request to create: a controller reference, an object with metadata, labels. *)
Definition creatable (template : PodTemplateSpec) (obj : Obj) (controllerRef : option OwnerReference) : Prop :=
  validateControllerRef controllerRef = None ∧ (∃ m, Accessor obj = inl m) ∧
  default ∅ (Labels (tmpl_meta template)) ≠ ∅.

(** The answer of the API server to a creation, and what follows. *)
Definition answered (obj : Obj) (r : Pod + error) (events : trace) (err : option error) : Prop :=
  match r with
  | inl newPod =>
      err = None ∧
      events = [existT (Eventf obj "Normal" SuccessfulCreatePodReason
                          ("Created pod: " +:+ Name (pod_meta newPod))) tt]
  | inr e =>
      err = Some e ∧
      events = if HasStatusCause e NamespaceTerminatingCause then []
               else [existT (Eventf obj "Warning" FailedCreatePodReason
                               ("Error creating: " +:+ Error e)) tt]
  end.

Lemma validateControllerRef_Some ref : validateControllerRef ref = None → ∃ r, ref = Some r.
Proof. destruct ref as [r|]; [by eexists|done]. Qed.

Lemma createPods_runs namespace pod obj m tr o :
  Accessor obj = inl m → default ∅ (Labels (pod_meta pod)) ≠ ∅ →
  runs (createPods Accessor HasStatusCause namespace pod obj) tr o →
  ∃ r events err, tr = existT (PodCreate namespace pod) r :: events ∧ o = Some err ∧ answered obj r events err.
Proof.
  intros Hm Hl. unfold createPods. rewrite bool_decide_eq_false_2 by done.
  intros (r & tr' & -> & Hrun). exists r, tr'. destruct r as [newPod|e]; cbn in Hrun.
  - rewrite Hm in Hrun. destruct Hrun as ([] & tr2 & -> & [-> ->]). by exists None.
  - destruct (HasStatusCause e _) eqn:Hc; cbn in Hrun.
    + destruct Hrun as [-> ->]. exists (Some e). unfold answered. by rewrite Hc.
    + destruct Hrun as ([] & tr2 & -> & [-> ->]). exists (Some e). unfold answered. by rewrite Hc.
Qed.

(** The pod that is sent. *)
Definition new_pod (template : PodTemplateSpec) (m : ObjectMeta) (ref : option OwnerReference)
    (generateName : string) : Pod :=
  if bool_decide (generateName ≠ "")
  then set_pod_meta (with_GenerateName generateName) (GetPodFromTemplate template m ref)
  else GetPodFromTemplate template m ref.

Lemma new_pod_request template m ref generateName :
  pod_of_request template ref generateName (new_pod template m (Some ref) generateName).
Proof.
  unfold pod_of_request, new_pod. dec (generateName ≠ "") as Hg; split_and!; try done.
Qed.

(** Creating pods, every outcome.  A request without a valid controller
    reference, for an object without metadata or for a template without labels is
    refused with an error and no call at all.  Otherwise the API server is asked
    once, for a pod with the spec and the labels of the template, owned by the
    reference, with the wanted name prefix; its error is returned as it is, no
    error is returned when it created the pod, and one event says which of the two
    happened, except when the namespace is being deleted. *)
Theorem CreatePods_outcome namespace template obj controllerRef generateName tr o :
  runs (CreatePodsWithGenerateName Accessor HasStatusCause namespace template obj controllerRef generateName) tr o →
  (¬ creatable template obj controllerRef ∧ tr = [] ∧ ∃ err, o = Some (Some err)) ∨
  (creatable template obj controllerRef ∧
   ∃ ref pod r events err, controllerRef = Some ref ∧ pod_of_request template ref generateName pod ∧
     tr = existT (PodCreate namespace pod) r :: events ∧ o = Some err ∧ answered obj r events err).
Proof.
  unfold CreatePodsWithGenerateName, creatable.
  destruct (validateControllerRef controllerRef) as [msg|] eqn:Hv.
  { intros [-> ->]. left. split; [by intros [? _]|]. split; [done|by eexists]. }
  destruct (Accessor obj) as [m|e] eqn:Hm.
  2:{ intros [-> ->]. left. split; [by intros (_ & [? ?] & _)|]. split; [done|by eexists]. }
  cbv zeta. fold (new_pod template m controllerRef generateName). intros Hrun.
  destruct controllerRef as [ref|]; [|done].
  pose proof (new_pod_request template m ref generateName) as Hpod. pose proof Hpod as (_ & _ & Hlabels & _).
  destruct (decide (default ∅ (Labels (tmpl_meta template)) = ∅)) as [Hl|Hl].
  - unfold createPods in Hrun. rewrite Hlabels, bool_decide_eq_true_2 in Hrun by done.
    destruct Hrun as [-> ->]. left. split; [by intros (_ & _ & ?)|]. split; [done|by eexists].
  - right. split; [split_and!; [done|by eexists|done]|].
    destruct (createPods_runs namespace (new_pod template m (Some ref) generateName) obj m tr o Hm)
      as (r & events & err & -> & -> & Hans); [by rewrite Hlabels|done|].
    by exists ref, (new_pod template m (Some ref) generateName), r, events, err.
Qed.

(** ** The double records what the real one does *)

(** Requests to a [PodControlInterface]. *)
Inductive request :=
| ReqCreate (ns : string) (template : PodTemplateSpec) (obj : Obj) (ref : option OwnerReference) (generateName : string)
| ReqDelete (ns podID : string) (obj : Obj)
| ReqPatch (ns name data : string).

Definition real_serve (q : request) : podM (option error) :=
  match q with
  | ReqCreate ns template obj ref generateName =>
      CreatePodsWithGenerateName Accessor HasStatusCause ns template obj ref generateName
  | ReqDelete ns podID obj => RealPodControl_DeletePod Accessor ns podID obj
  | ReqPatch ns name data => PatchPod ns name data
  end.
Definition fake_serve (q : request) (f : FakePodControl) : option (option error * FakePodControl) :=
  match q with
  | ReqCreate _ template _ ref generateName =>
      '(err, _, f) ← Fake_CreatePodsWithGenerateName template ref generateName f; Some (err, f)
  | ReqDelete _ podID _ => Some (Fake_DeletePod podID f)
  | ReqPatch _ _ data => Some (Fake_PatchPod data f)
  end.

Fixpoint real_serve_all (qs : list request) : podM (list (option error)) :=
  match qs with
  | [] => mret []
  | q :: qs => err ← real_serve q; errs ← real_serve_all qs; mret (err :: errs)
  end.
Fixpoint fake_serve_all (qs : list request) (f : FakePodControl) : option (list (option error) * FakePodControl) :=
  match qs with
  | [] => Some ([], f)
  | q :: qs =>
      '(err, f) ← fake_serve q f;
      '(errs, f) ← fake_serve_all qs f;
      Some (err :: errs, f)
  end.

Definition valid_request (q : request) : Prop :=
  match q with
  | ReqCreate _ template obj ref _ => creatable template obj ref
  | ReqDelete _ _ obj => ∃ m, Accessor obj = inl m
  | ReqPatch _ _ _ => True
  end.

(** The API server accepts everything. *)
Definition accepts (x : obs (pod_reply Obj)) : Prop :=
  match x with
  | existT (PodCreate _ _) r => ∃ pod, r = inl pod
  | existT (PodDelete _ _) r | existT (PodPatch _ _ _) r => r = None
  | _ => True
  end.

(** The writes of a trace: every call but the events. *)
Definition writes (tr : trace) : list (pod_call Obj) :=
  omap (λ x : obs (pod_reply Obj), match projT1 x with Eventf _ _ _ _ => None | e => Some e end) tr.

(** The pod a creation asks for: the template's spec, labels, annotations and
    finalizers, the wanted name prefix (the controller's name where none is wanted),
    the given owner, and nothing else. *)
Definition wanted_pod (template : PodTemplateSpec) (m : ObjectMeta) (ref : OwnerReference) (gen : string)
    (pod : Pod) : Prop :=
  pod_Spec pod = tmpl_Spec template ∧ pod_Status pod = zero_PodStatus ∧
  let o := pod_meta pod in let t := tmpl_meta template in
  default ∅ (Labels o) = default ∅ (Labels t) ∧ default ∅ (Annotations o) = default ∅ (Annotations t) ∧
  Finalizers o = Finalizers t ∧ OwnerReferences o = [ref] ∧
  (gen ≠ "" → GenerateName o = gen) ∧
  (gen = "" → GenerateName o = match NameIsDNSSubdomain (Name m +:+ "-") true with
                               | [] => Name m +:+ "-" | _ => Name m end) ∧
  Name o = "" ∧ Namespace o = "" ∧ UID o = "" ∧ ResourceVersion o = "" ∧ DeletionTimestamp o = None.

(** The write each request asks for. *)
Inductive asks : request → pod_call Obj → Prop :=
| asks_create ns template obj m ref gen pod :
    Accessor obj = inl m → wanted_pod template m ref gen pod →
    asks (ReqCreate ns template obj (Some ref) gen) (PodCreate ns pod)
| asks_delete ns podID obj : asks (ReqDelete ns podID obj) (PodDelete ns podID)
| asks_patch ns name data : asks (ReqPatch ns name data) (PodPatch ns name data).

(** What the double has recorded in addition to what it had. *)
Definition recorded (qs : list request) (f f' : FakePodControl) : Prop :=
  Templates f' = Templates f ++ omap (λ q, match q with
    | ReqCreate _ t _ _ gen =>
        Some {| tmpl_meta := with_GenerateName gen (tmpl_meta t); tmpl_Spec := tmpl_Spec t |}
    | _ => None end) qs ∧
  ControllerRefs f' = ControllerRefs f ++ omap (λ q, match q with ReqCreate _ _ _ ref _ => ref | _ => None end) qs ∧
  DeletePodName f' = DeletePodName f ++ omap (λ q, match q with ReqDelete _ podID _ => Some podID | _ => None end) qs ∧
  Patches f' = Patches f ++ omap (λ q, match q with ReqPatch _ _ data => Some data | _ => None end) qs.

(** No error is injected and creations are not limited. *)
Definition unlimited (f : FakePodControl) : Prop := Err f = None ∧ CreateLimit f = 0.

Lemma fake_serve_total q f :
  valid_request q → unlimited f → ∃ f', fake_serve q f = Some (None, f') ∧ unlimited f' ∧ recorded [q] f f'.
Proof.
  intros Hq [Herr Hlim]. destruct q as [ns template obj ref gen|ns podID obj|ns name data]; cbn [fake_serve].
  - destruct Hq as (Hv & _). destruct (validateControllerRef_Some _ Hv) as [r ->].
    unfold Fake_CreatePodsWithGenerateName. rewrite Hlim. cbn. eexists. split; [by rewrite Herr|split; [by split|]].
    unfold recorded. cbn. by rewrite !app_nil_r.
  - eexists. split; [by rewrite <- Herr|split; [by split|]]. unfold recorded. cbn. by rewrite !app_nil_r.
  - eexists. split; [by rewrite <- Herr|split; [by split|]]. unfold recorded. cbn. by rewrite !app_nil_r.
Qed.

Lemma recorded_cons q qs f f1 f2 : recorded [q] f f1 → recorded qs f1 f2 → recorded (q :: qs) f f2.
Proof.
  unfold recorded. intros (H1' & H2' & H3' & H4') (-> & -> & -> & ->). rewrite H1', H2', H3', H4', <- !(assoc_L (++)).
  split_and!; f_equal; symmetry; apply (omap_app _ [q] qs).
Qed.

Lemma fake_serve_all_total qs f :
  Forall valid_request qs → unlimited f →
  ∃ f', fake_serve_all qs f = Some (replicate (length qs) None, f') ∧ recorded qs f f'.
Proof.
  intros Hqs. revert f. induction Hqs as [|q qs Hq _ IH]; intros f Hun; cbn [fake_serve_all].
  { exists f. split; [done|]. unfold recorded. cbn. by rewrite !app_nil_r. }
  destruct (fake_serve_total q f Hq Hun) as (f1 & -> & Hun1 & Hrec).
  destruct (IH f1 Hun1) as (f2 & Hf2 & Hrec2). exists f2. cbn. rewrite Hf2. split; [done|]. by eapply recorded_cons.
Qed.

Lemma new_pod_wanted template m ref gen : wanted_pod template m ref gen (new_pod template m (Some ref) gen).
Proof.
  unfold wanted_pod, new_pod. dec (gen ≠ "") as Hg.
  - by split_and!.
  - split_and!; try done. intros _. cbn. unfold getPodsPrefix. destruct (NameIsDNSSubdomain _ _); [done|].
    by rewrite bool_decide_eq_true_2.
Qed.

Lemma serve_asks q tr :
  valid_request q →
  wp accepts (λ _ _, True) (real_serve q)
    (λ tr' o, o = Some None ∧ ∃ new e, tr' = tr ++ new ∧ writes new = [e] ∧ asks q e) tr.
Proof.
  intros Hq. destruct q as [ns template obj ref gen|ns podID obj|ns name data]; cbn [real_serve].
  - destruct Hq as (Hv & [m Hm] & Hl). destruct (validateControllerRef_Some _ Hv) as [r ->].
    unfold CreatePodsWithGenerateName, createPods. rewrite Hv, Hm. cbv zeta.
    fold (new_pod template m (Some r) gen). pose proof (new_pod_request template m r gen) as (_ & _ & Hlabels & _).
    rewrite Hlabels, bool_decide_eq_false_2 by done.
    apply wp_call_bind; [done|]. intros ? [newPod ->]. cbv beta iota. apply wp_call_bind; [done|].
    intros [] _. apply wp_ret. split; [done|]. eexists _, _. rewrite <- (assoc_L (++)).
    split; [done|]. split; [done|]. eapply asks_create; [done|apply new_pod_wanted].
  - destruct Hq as [m Hm]. unfold RealPodControl_DeletePod. rewrite Hm. apply wp_call_bind; [done|]. intros ? ->.
    apply wp_call_bind; [done|]. intros [] _. apply wp_ret. split; [done|]. eexists _, _. rewrite <- (assoc_L (++)).
    split; [done|]. split; [done|]. constructor.
  - unfold PatchPod. refine (wp_call accepts (λ _ _, True) (PodPatch ns name data) _ tr I _). intros r Hr.
    simpl in Hr. subst r. split; [done|]. eexists _, _. split; [done|]. split; [done|]. constructor.
Qed.

(** C38: the double is faithful.  When no error is injected and the API server
    accepts what it is asked, serving any sequence of valid requests gives the same
    results, no error, with the double as with the real control.  The real one makes,
    in order, exactly one write for each request: the creation in the namespace asked
    for of the pod described by the template, with the given owner and name prefix,
    the deletion, or the patch, under the namespace and name asked for; and the double
    has recorded the same sequence: the names of the deleted pods, the patches, and
    for each pod created its template and its owner. *)
Theorem FakePodControl_faithful qs f tr :
  Forall valid_request qs → unlimited f →
  let errs := replicate (length qs) None in
  (∃ f', fake_serve_all qs f = Some (errs, f') ∧ recorded qs f f') ∧
  wp accepts (λ _ _, True) (real_serve_all qs)
    (λ tr' o, o = Some errs ∧ ∃ new, tr' = tr ++ new ∧ Forall2 asks qs (writes new)) tr.
Proof.
  intros Hqs Hun errs. split; [by apply fake_serve_all_total|]. unfold errs. clear f Hun errs. revert tr.
  induction Hqs as [|q qs Hq _ IH]; intros tr; cbn [real_serve_all].
  { apply wp_ret. split; [done|]. exists []. rewrite app_nil_r. split; [done|constructor]. }
  apply (wp_seq _ _ _ _ (λ tr' err, err = None ∧ ∃ new e, tr' = tr ++ new ∧ writes new = [e] ∧ asks q e)).
  { eapply wp_mono; [|by apply serve_asks]. intros tr' o [-> Hnew]. by exists None. }
  intros tr1 ? (-> & new & e & -> & Hw & He). apply wp_bind_2. eapply wp_mono; [|by apply IH].
  intros tr' o (-> & new' & -> & Hall). apply wp_ret. split; [done|]. exists (new ++ new').
  rewrite (assoc_L (++)). split; [done|]. unfold writes in *. rewrite omap_app, Hw. by constructor.
Qed.
End props.
