(* ===== verification/Certs.v ===== *)
(** * Webhook certificates ([pkg/webhook/cert])

    The self-signed certificate of the webhook server, the secret that shares it
    between the replicas of the controller manager, and the CA bundle written to
    the webhook configurations. *)
From S2P Require Export Boundary GoStrings.

(** A byte slice; [None] is [nil]. *)
Abbreviation bytes := (option string) (only parsing).
Definition blen (b : bytes) : Z := match b with Some s => len s | None => 0 end.

(** ** The boundary: cryptography, files, API server *)

(** [crypto/rsa], [crypto/x509], [encoding/pem], and the calendar of package
    [time], which depends on the time zone. *)
Class Crypto `{K8s} := {
  PrivateKey : Type;
  PublicKey : Type;
  Public : PrivateKey → PublicKey;
  MarshalPKCS1PrivateKey : PrivateKey → string;
  PemEncode : string → string → string + error;   (** block type and bytes *)
  AddDate : Time → Z → Z → Z → Time               (** years, months, days *)
}.

(** [x509.Certificate], the fields that are set. *)
Record x509_Certificate := {
  SerialNumber : Z;
  CommonName : string;
  Organization : list string;
  DNSNames : list string;
  NotBefore : Time;
  NotAfter : Time;
  IsCA : bool;
  KeyUsage : Z;
  ExtKeyUsage : list Z;
  BasicConstraintsValid : bool
}.
Definition KeyUsageDigitalSignature : Z := Z.shiftl 1 0.
Definition KeyUsageKeyEncipherment : Z := Z.shiftl 1 2.
Definition KeyUsageCertSign : Z := Z.shiftl 1 5.
Definition ExtKeyUsageServerAuth : Z := 1.

Record Secret := { sec_Namespace : string; sec_Name : string; sec_Type : string;
                   sec_Data : option (gmap string bytes) }.

(** An admission webhook and a (validating or mutating) configuration. *)
Record Webhook := { wh_Name : string; CABundle : bytes }.
Record WebhookConfiguration := { whc_Name : string; Webhooks : list Webhook }.

Section calls.
Context `{Crypto}.

(** Why a file cannot be examined. *)
Inductive stat_error := NotExist | StatError (msg : string).

Inductive cert_call :=
| GenerateKey (bits : Z)
| CreateCertificate (template parent : x509_Certificate) (pub : PublicKey) (priv : PrivateKey)
| SecretsGet (ns name : string)
| SecretsCreate (ns : string) (secret : Secret)
| ValidatingGet (name : string)
| ValidatingUpdate (webhook : WebhookConfiguration)
| MutatingGet (name : string)
| MutatingUpdate (webhook : WebhookConfiguration)
| TimeNow
| Sleep (nanoseconds : Z)
| Stat (path : string)
| ReadFile (path : string)
| Getenv (name : string)
| OsHostname
| NewUUID
| KubeClientForConfig                     (** [kubernetes.NewForConfig] *)
| NewManager                              (** [ctrl.NewManager] *)
| SetupDefaulter                          (** [SetupWebhookWithManager] of the defaulter *)
| AddHealthzCheck (name : string)
| AddReadyzCheck (name : string)
| StartManager.

Definition cert_reply (c : cert_call) : Type :=
  match c with
  | GenerateKey _ => PrivateKey + error
  | CreateCertificate _ _ _ _ => string + error
  | SecretsGet _ _ => Secret + error
  | SecretsCreate _ _ => option error
  | ValidatingGet _ | MutatingGet _ => WebhookConfiguration + error
  | ValidatingUpdate _ | MutatingUpdate _ => option error
  | TimeNow => Time
  | Sleep _ => unit
  | Stat _ => option stat_error
  | ReadFile _ | OsHostname => string + error
  | Getenv _ | NewUUID => string
  | KubeClientForConfig | NewManager | SetupDefaulter | AddHealthzCheck _ | AddReadyzCheck _
  | StartManager => option error
  end%type.
End calls.
Abbreviation certM := (prog cert_reply).

(** ** [generator.go] *)

Section generator.
Context `{Crypto}.

Definition RSAKeySize : Z := 2048.
Definition CertValidityYears : Z := 10.

Record CertBundle := { CertPEM : bytes; KeyPEM : bytes; CAPEM : bytes }.

(** [fmt.Errorf("...: %w", err)] *)
Definition wrap_error (msg : string) (err : error) : error :=
  Errorf (msg +:+ ": " +:+ Error err) (Some err).

Definition ca_template (notBefore now : Time) : x509_Certificate :=
  {| SerialNumber := 1; CommonName := "kthena-webhook-ca"; Organization := ["Volcano"]; DNSNames := [];
     NotBefore := notBefore; NotAfter := AddDate now CertValidityYears 0 0; IsCA := true;
     KeyUsage := Z.lor (Z.lor KeyUsageDigitalSignature KeyUsageCertSign) KeyUsageKeyEncipherment;
     ExtKeyUsage := []; BasicConstraintsValid := true |}.

Definition server_template (dnsNames : list string) (name : string) (notBefore now : Time) : x509_Certificate :=
  {| SerialNumber := 2; CommonName := name; Organization := ["Volcano"]; DNSNames := dnsNames;
     NotBefore := notBefore; NotAfter := AddDate now CertValidityYears 0 0; IsCA := false;
     KeyUsage := Z.lor KeyUsageDigitalSignature KeyUsageKeyEncipherment;
     ExtKeyUsage := [ExtKeyUsageServerAuth]; BasicConstraintsValid := false |}.

(** The three PEM blocks and the bundle made of them. *)
Definition encode_bundle (caCertDER serverCertDER : string) (serverKey : PrivateKey) : CertBundle + error :=
  match PemEncode "CERTIFICATE" caCertDER with
  | inr err => inr (wrap_error "failed to encode CA certificate" err)
  | inl caCertPEM =>
      match PemEncode "CERTIFICATE" serverCertDER with
      | inr err => inr (wrap_error "failed to encode server certificate" err)
      | inl serverCertPEM =>
          match PemEncode "RSA PRIVATE KEY" (MarshalPKCS1PrivateKey serverKey) with
          | inr err => inr (wrap_error "failed to encode server key" err)
          | inl serverKeyPEM =>
              inl {| CertPEM := Some serverCertPEM; KeyPEM := Some serverKeyPEM; CAPEM := Some caCertPEM |}
          end
      end
  end.

Definition GenerateSelfSignedCertificate (dnsNames : list string) : certM (CertBundle + error) :=
  match dnsNames with
  | [] => mret (inr (Errorf "dnsNames cannot be empty" None))
  | firstName :: _ =>
      caKey ← call (GenerateKey RSAKeySize);
      match caKey with
      | inr err => mret (inr (wrap_error "failed to generate CA key" err))
      | inl caKey =>
          notBefore ← call TimeNow; now ← call TimeNow;
          let caTemplate := ca_template notBefore now in
          caCertDER ← call (CreateCertificate caTemplate caTemplate (Public caKey) caKey);
          match caCertDER with
          | inr err => mret (inr (wrap_error "failed to create CA certificate" err))
          | inl caCertDER =>
              serverKey ← call (GenerateKey RSAKeySize);
              match serverKey with
              | inr err => mret (inr (wrap_error "failed to generate server key" err))
              | inl serverKey =>
                  notBefore ← call TimeNow; now ← call TimeNow;
                  let serverTemplate := server_template dnsNames firstName notBefore now in
                  serverCertDER ← call (CreateCertificate serverTemplate caTemplate (Public serverKey) caKey);
                  match serverCertDER with
                  | inr err => mret (inr (wrap_error "failed to create server certificate" err))
                  | inl serverCertDER => mret (encode_bundle caCertDER serverCertDER serverKey)
                  end
              end
          end
      end
  end.
End generator.

(** ** [secret.go] *)

Section secret.
Context `{Crypto}.

Definition TLSCertKey : string := "tls.crt".
Definition TLSKeyKey : string := "tls.key".
Definition CAKey : string := "ca.crt".

(** [secret.Data[key]]; reading a nil map finds nothing. *)
Definition data_get (secret : Secret) (key : string) : option bytes := default ∅ (sec_Data secret) !! key.

Definition ca_of (secret : Secret) (namespace secretName : string) : bytes + error :=
  match data_get secret CAKey with
  | Some caBundle => inl caBundle
  | None => inr (Errorf ("secret " +:+ namespace +:+ "/" +:+ secretName +:+ " does not contain " +:+ CAKey) None)
  end.

Definition secret_of (namespace secretName : string) (certBundle : CertBundle) : Secret :=
  {| sec_Namespace := namespace; sec_Name := secretName; sec_Type := "kubernetes.io/tls";
     sec_Data := Some (<[TLSCertKey := CertPEM certBundle]> (<[TLSKeyKey := KeyPEM certBundle]>
                   {[CAKey := CAPEM certBundle]})) |}.

Definition EnsureCertificate (namespace secretName : string) (dnsNames : list string)
    : certM (bytes + error) :=
  if bool_decide (length dnsNames = 0%nat) then mret (inr (Errorf "dnsNames cannot be empty" None))
  else
    r ← call (SecretsGet namespace secretName);
    match r with
    | inl secret => mret (ca_of secret namespace secretName)
    | inr err =>
        if negb (IsNotFound err)
        then mret (inr (wrap_error ("failed to get secret " +:+ namespace +:+ "/" +:+ secretName) err))
        else
          certBundle ← GenerateSelfSignedCertificate dnsNames;
          match certBundle with
          | inr err => mret (inr (wrap_error "failed to generate certificate" err))
          | inl certBundle =>
              err ← call (SecretsCreate namespace (secret_of namespace secretName certBundle));
              match err with
              | Some err =>
                  if IsAlreadyExists err then
                    r ← call (SecretsGet namespace secretName);
                    match r with
                    | inr err => mret (inr (wrap_error "failed to get secret after concurrent creation" err))
                    | inl secret => mret (ca_of secret namespace secretName)
                    end
                  else
                    mret (inr (wrap_error ("failed to create secret " +:+ namespace +:+ "/" +:+ secretName) err))
              | None => mret (inl (CAPEM certBundle))
              end
          end
    end.

(** The loop over the webhooks: the new list, and [updated]. *)
Definition set_CABundle (caBundle : bytes) (w : Webhook) : Webhook :=
  if blen (CABundle w) =? 0 then {| wh_Name := wh_Name w; CABundle := caBundle |} else w.
Definition update_webhooks (caBundle : bytes) (ws : list Webhook) : list Webhook * bool :=
  (set_CABundle caBundle <$> ws, existsb (λ w, blen (CABundle w) =? 0) ws).

Definition UpdateValidatingWebhookCABundle (webhookName : string) (caBundle : bytes) : certM (option error) :=
  r ← call (ValidatingGet webhookName);
  match r with
  | inr err =>
      if IsNotFound err then mret None
      else mret (Some (wrap_error ("failed to get ValidatingWebhookConfiguration " +:+ webhookName) err))
  | inl webhook =>
      let '(webhooks, updated) := update_webhooks caBundle (Webhooks webhook) in
      if negb updated then mret None
      else
        err ← call (ValidatingUpdate {| whc_Name := whc_Name webhook; Webhooks := webhooks |});
        match err with
        | Some err =>
            mret (Some (wrap_error ("failed to update ValidatingWebhookConfiguration " +:+ webhookName) err))
        | None => mret None
        end
  end.

Definition UpdateMutatingWebhookCABundle (webhookName : string) (caBundle : bytes) : certM (option error) :=
  r ← call (MutatingGet webhookName);
  match r with
  | inr err =>
      if IsNotFound err then mret None
      else mret (Some (wrap_error ("failed to get MutatingWebhookConfiguration " +:+ webhookName) err))
  | inl webhook =>
      let '(webhooks, updated) := update_webhooks caBundle (Webhooks webhook) in
      if negb updated then mret None
      else
        err ← call (MutatingUpdate {| whc_Name := whc_Name webhook; Webhooks := webhooks |});
        match err with
        | Some err =>
            mret (Some (wrap_error ("failed to update MutatingWebhookConfiguration " +:+ webhookName) err))
        | None => mret None
        end
  end.

(** [b, ok := s.Data[key]; ok && len(b) > 0] *)
Definition nonempty_data (secret : Secret) (key : string) : bytes :=
  match data_get secret key with
  | Some b => if 0 <? blen b then b else None
  | None => None
  end.

Definition LoadCertBundleFromSecret (namespace secretName : string) : certM (option CertBundle + error) :=
  r ← call (SecretsGet namespace secretName);
  match r with
  | inr err => if IsNotFound err then mret (inl None) else mret (inr err)
  | inl s =>
      if bool_decide (sec_Data s = None) then mret (inl None)
      else
        mret (inl (Some {| CertPEM := nonempty_data s TLSCertKey; KeyPEM := nonempty_data s TLSKeyKey;
                           CAPEM := nonempty_data s CAKey |}))
  end.
End secret.
