(* ===== verification/Startup.v ===== *)
(** * Start-up of the manager ([cmd/main.go], [pkg/utils/common.go])

    The set-up of the webhook server (which CA bundle is published, the wait for
    the certificate files) and of the lock for leader election. *)
From S2P Require Export Certs.

(** [config.WebhookConfiguration] *)
Record WebhookConfig := {
  Port : Z;
  CertDir : string;
  CertSecretName : string;
  wc_ServiceName : string;
  TlsPrivateKey : string;
  TlsCert : string;
  MutatingWebhookConfigurationName : string
}.

(** [resourcelock.LeaseLock], the fields that are set. *)
Record LeaseLock := { lease_Name : string; lease_Namespace : string; Identity : string }.

Section startup.
Context `{Crypto}.

Definition leaseName : string := "lease.xstatefulset.controller-manager".
Definition inClusterNamespacePath : string := "/var/run/secrets/kubernetes.io/serviceaccount/namespace".

Definition GetInClusterNameSpace : certM (string + error) :=
  err ← call (Stat inClusterNamespacePath);
  match err with
  | Some NotExist => mret (inr (Errorf "not running in-cluster, please specify namespace" None))
  | Some (StatError msg) => mret (inr (Errorf ("error checking namespace file: " +:+ msg) None))
  | None =>
      namespace ← call (ReadFile inClusterNamespacePath);
      match namespace with
      | inr err => mret (inr (Errorf ("error reading namespace file: " +:+ Error err) None))
      | inl namespace => mret (inl namespace)
      end
  end.

Definition newResourceLock : certM (LeaseLock + error) :=
  namespace ← GetInClusterNameSpace;
  match namespace with
  | inr err => mret (inr err)
  | inl namespace =>
      id ← call OsHostname;
      match id with
      | inr err => mret (inr err)
      | inl id =>
          uuid ← call NewUUID;
          mret (inl {| lease_Name := leaseName; lease_Namespace := namespace;
                       Identity := id +:+ "_" +:+ uuid |})
      end
  end.

Definition getNamespace : certM string := call (Getenv "POD_NAMESPACE").

Definition fileExists (path : string) : certM bool :=
  if bool_decide (path = "") then mret false
  else
    err ← call (Stat path);
    mret (match err with None => true | Some _ => false end).

Definition ensureWebhookCertificate (wc : WebhookConfig) : certM (bytes + error) :=
  namespace ← getNamespace;
  let dnsNames := [wc_ServiceName wc +:+ "." +:+ namespace +:+ ".svc";
                   wc_ServiceName wc +:+ "." +:+ namespace +:+ ".svc.cluster.local"] in
  EnsureCertificate namespace (CertSecretName wc) dnsNames.

Definition waitTimeout : Z := 30 * 1000000000.
Definition waitInterval : Z := 500 * 1000000.

(** [a && b] of two calls. *)
Definition and_then (a b : certM bool) : certM bool := x ← a; if x : bool then b else mret false.

(** The [for] loop; [None] when the fuel runs out. *)
Fixpoint wait_loop (fuel : nat) (keyFile CertFile : string) (start : Time) : certM (option bool) :=
  match fuel with
  | O => mret None
  | S fuel =>
      ready ← and_then (fileExists CertFile) (fileExists keyFile);
      if ready : bool then mret (Some true)
      else
        now ← call TimeNow;
        if waitTimeout <? now - start then mret (Some false)
        else call (Sleep waitInterval);; wait_loop fuel keyFile CertFile start
  end.

Definition waitForCertsReady (fuel : nat) (keyFile CertFile : string) : certM (option bool) :=
  start ← call TimeNow;
  wait_loop fuel keyFile CertFile start.

(** Secret, then files, then a new certificate: the CA bundle to publish; [nil]
    leaves the webhook configuration as it is. *)
Definition choose_ca_bundle (wc : WebhookConfig) (namespace : string) : certM (bytes + error) :=
  r ← LoadCertBundleFromSecret namespace (CertSecretName wc);
  let caBundle := match r with inl (Some bundle) => CAPEM bundle | _ => None end in
  match caBundle with
  | Some _ => mret (inl caBundle)
  | None =>
      files ← and_then (fileExists (TlsPrivateKey wc)) (fileExists (TlsCert wc));
      if files : bool then mret (inl None)
      else
        r ← ensureWebhookCertificate wc;
        mret (match r with
              | inr err => inr (wrap_error "error ensuring webhook certificate" err)
              | inl caBundle => inl caBundle
              end)
  end.

(** The end of the set-up: the manager with its webhook and checks, until it stops. *)
Definition run_manager : certM (option error) :=
  err ← call NewManager;
  match err with
  | Some err => mret (Some (wrap_error "unable to create manager" err))
  | None =>
      err ← call SetupDefaulter;
      match err with
      | Some err => mret (Some (wrap_error "unable to setup webhook" err))
      | None =>
          err ← call (AddHealthzCheck "healthz");
          match err with
          | Some err => mret (Some (wrap_error "unable to set up health check" err))
          | None =>
              err ← call (AddReadyzCheck "readyz");
              match err with
              | Some err => mret (Some (wrap_error "unable to set up ready check" err))
              | None =>
                  err ← call StartManager;
                  mret (match err with
                        | Some err => Some (wrap_error "manager error" err)
                        | None => None
                        end)
              end
          end
      end
  end.

(** [setupWebhookWithManager].  The error of the update of the webhook
    configuration is compared with nil and dropped: the message formats the outer
    [err], which is nil here. *)
Definition setupWebhookWithManager (fuel : nat) (wc : WebhookConfig) : certM (option (option error)) :=
  err ← call KubeClientForConfig;
  match err with
  | Some err => mret (Some (Some (wrap_error "failed to create kubernetes client" err)))
  | None =>
      namespace ← getNamespace;
      r ← choose_ca_bundle wc namespace;
      match r with
      | inr err => mret (Some (Some err))
      | inl caBundle =>
          updateErr ←
            (if bool_decide (caBundle ≠ None)
             then UpdateMutatingWebhookCABundle (MutatingWebhookConfigurationName wc) caBundle
             else mret None);
          match updateErr with
          | Some _ =>
              mret (Some (Some (Errorf ("Error updating mutating webhook certificate: " +:+ "<nil>") None)))
          | None =>
              ok ← waitForCertsReady fuel (TlsPrivateKey wc) (TlsCert wc);
              match ok with
              | None => mret None
              | Some false =>
                  mret (Some (Some (Errorf "TLS cert/key files not found, webhook server cannot start" None)))
              | Some true => err ← run_manager; mret (Some err)
              end
          end
      end
  end.
End startup.
