(* ===== verification/CertProps.v ===== *)
(** * Properties of the certificates and of the start-up

    Replicas of the manager that start together agree on one CA bundle; a bundle
    that is in place is never replaced; the wait for the certificate files ends;
    and the webhook server is not started without them. *)
From S2P Require Export Startup.

(** ** Replicas that share a secret *)

Section replicas.
Context `{Crypto}.
Notation thread := (certM (bytes + error)).
Implicit Types (s : option Secret) (p : thread).

(** The API server and the one secret.  It may fail at any call; a creation that
    fails may have succeeded, as after a timeout.  What the other calls answer is
    not fixed. *)
Definition serves s (e : cert_call) : cert_reply e → option Secret → Prop :=
  match e with
  | SecretsGet _ _ => λ r s',
      s' = s ∧ match r, s with
               | inl secret, Some secret' => secret = secret'
               | inl _, None => False
               | inr err, Some _ => IsNotFound err = false
               | inr _, None => True
               end
  | SecretsCreate _ secret => λ r s',
      match s with
      | Some _ => s' = s ∧ r ≠ None
      | None => match r with
                | None => s' = Some secret
                | Some err => IsAlreadyExists err = false ∧ (s' = None ∨ s' = Some secret)
                end
      end
  | _ => λ _ s', s' = s
  end.

(** A replica makes its next call. *)
Inductive pool_step : option Secret * list thread → option Secret * list thread → Prop :=
| replica_call s s' ps i e k r :
    ps !! i = Some (Vis e k) → serves s e r s' → pool_step (s, ps) (s', <[i := k r]> ps).

(** The secret is never changed once it is there. *)
Definition later s s' : Prop := s = None ∨ s' = s.
#[export] Instance later_preorder : PreOrder later.
Proof.
  split; [by right|]. unfold later. intros s1 s2 s3 [->| ->] [->| ->]; auto.
Qed.

Lemma serves_later s e r s' : serves s e r s' → later s s'.
Proof.
  destruct e; try (intros ->; by right); cbn.
  - intros [-> _]. by right.
  - destruct s; [intros [-> _]; by right|by left].
Qed.

(** Whatever the other replicas do, a result is the bundle of the secret. *)
Fixpoint agrees s p : Prop :=
  match p with
  | Ret (inl ca) => ∃ secret, s = Some secret ∧ data_get secret CAKey = Some ca
  | Ret (inr _) => True
  | Panic => False
  | Vis e k => ∀ s1 r s2, later s s1 → serves s1 e r s2 → agrees s2 (k r)
  end.

Lemma agrees_later s s' p : later s s' → agrees s p → agrees s' p.
Proof.
  intros Hl. destruct p as [[ca|err]| |e k]; cbn; [|done|done|].
  - intros (secret & -> & Hca). destruct Hl as [?| ->]; [done|]. by exists secret.
  - intros Hk s1 r s2 Hs1. apply Hk. by etrans.
Qed.

Lemma agrees_call e (f : cert_reply e → thread) s :
  (∀ s1 r s2, later s s1 → serves s1 e r s2 → agrees s2 (f r)) → agrees s (call e ≫= f).
Proof. done. Qed.

(** Programs that only generate keys and certificates. *)
Definition local_call (e : cert_call) : Prop :=
  match e with GenerateKey _ | CreateCertificate _ _ _ _ | TimeNow => True | _ => False end.
Fixpoint local_prog {A} (p : certM A) : Prop :=
  match p with
  | Ret _ => True
  | Panic => False
  | Vis e k => local_call e ∧ ∀ r, local_prog (k r)
  end.

Lemma agrees_local {A} (p : certM A) (f : A → thread) s :
  local_prog p → (∀ s' a, later s s' → agrees s' (f a)) → agrees s (p ≫= f).
Proof.
  intros Hp Hf. revert s Hf. induction p as [a| |e k IH]; intros s Hf; cbn; [by apply Hf|done|].
  destruct Hp as [He Hk]. intros s1 r s2 Hs1 Hserve. apply IH; [done|].
  intros s' a Hs'. apply Hf. etrans; [exact Hs1|]. etrans; [by eapply serves_later|done].
Qed.

Lemma GenerateSelfSignedCertificate_local dnsNames : local_prog (GenerateSelfSignedCertificate dnsNames).
Proof.
  destruct dnsNames as [|n ns]; [done|]. cbn. split; [done|]. intros [caKey|err]; [|done].
  cbn. split; [done|]. intros nb. split; [done|]. intros now. split; [done|]. intros [der|err]; [|done].
  cbn. split; [done|]. intros [serverKey|err]; [|done].
  cbn. split; [done|]. intros nb'. split; [done|]. intros now'. split; [done|]. by intros [der'|err].
Qed.

Lemma ca_of_agrees secret namespace secretName : agrees (Some secret) (mret (ca_of secret namespace secretName)).
Proof. unfold ca_of. destruct (data_get secret CAKey) as [ca|] eqn:Hca; [|done]. by exists secret. Qed.

Lemma data_get_CA namespace secretName bundle :
  data_get (secret_of namespace secretName bundle) CAKey = Some (CAPEM bundle).
Proof. reflexivity. Qed.

Lemma EnsureCertificate_agrees s namespace secretName dnsNames :
  agrees s (EnsureCertificate namespace secretName dnsNames).
Proof.
  unfold EnsureCertificate. destruct (bool_decide _); [exact I|].
  apply agrees_call. intros s1 [secret|err] s2 _ [-> Hr].
  { destruct s1 as [secret'|]; [|done]. subst. apply ca_of_agrees. }
  destruct (IsNotFound err); [|exact I]. cbn [negb].
  apply agrees_local; [apply GenerateSelfSignedCertificate_local|]. intros s3 [bundle|err'] _; [|exact I].
  apply agrees_call. intros s4 [err'|] s5 _ Hcreate.
  - destruct (IsAlreadyExists err'); [|exact I].
    apply agrees_call. intros s6 [secret|err2] s7 _ [-> Hr2]; [|exact I].
    destruct s6; [|done]. subst. apply ca_of_agrees.
  - cbn in Hcreate. destruct s4 as [|]; [by destruct Hcreate|]. subst s5. cbn.
    eexists. split; [done|]. apply data_get_CA.
Qed.

Lemma pool_agrees s ps s' ps' :
  pool_step (s, ps) (s', ps') → Forall (agrees s) ps → Forall (agrees s') ps'.
Proof.
  inversion 1 as [? ? ? i e k r Hi Hserve]; subst. intros Hall.
  apply Forall_insert.
  - eapply List.Forall_impl; [|exact Hall]. intros p. apply agrees_later. by eapply serves_later.
  - eapply Forall_lookup_1 in Hall; [|exact Hi]. by apply (Hall s).
Qed.

(** C26: replicas agree on the certificate.  However many replicas of the manager
    start at the same time, in whatever order their calls reach the API server, and
    whichever of them fail, every replica that gets a CA bundle gets the one stored
    in the secret, so all of them get the same. *)
Theorem EnsureCertificate_agreement namespace secretName (dnsNames : list (list string)) s s' ps :
  rtc pool_step (s, EnsureCertificate namespace secretName <$> dnsNames) (s', ps) →
  (∀ i ca, ps !! i = Some (Ret (inl ca)) → ∃ secret, s' = Some secret ∧ data_get secret CAKey = Some ca) ∧
  (∀ i j ca ca', ps !! i = Some (Ret (inl ca)) → ps !! j = Some (Ret (inl ca')) → ca = ca') ∧
  (∀ i, ps !! i ≠ Some Panic).
Proof.
  intros Hsteps. assert (Forall (agrees s') ps) as Hall.
  { remember (s', ps) as w' eqn:Hw'. remember (s, _) as w eqn:Hw.
    assert (Forall (agrees w.1) w.2) as Hinit.
    { subst w. apply Forall_fmap, Forall_true. intros dns. apply EnsureCertificate_agrees. }
    change (Forall (agrees (s', ps).1) (s', ps).2). rewrite <- Hw'. clear Hw Hw'.
    induction Hsteps as [w|[s1 ps1] [s2 ps2] w Hstep _ IH]; [done|].
    apply IH. by eapply pool_agrees. }
  assert (∀ i ca, ps !! i = Some (Ret (inl ca)) →
    ∃ secret, s' = Some secret ∧ data_get secret CAKey = Some ca) as Hca.
  { intros i ca Hi. by apply (Forall_lookup_1 _ _ _ _ Hall Hi). }
  split_and!; [done| |].
  - intros i j ca ca' Hi Hj. destruct (Hca i ca Hi) as (x & -> & Hx), (Hca j ca' Hj) as (y & [= ->] & Hy).
    congruence.
  - intros i Hi. by apply (Forall_lookup_1 _ _ _ _ Hall Hi).
Qed.
End replicas.

(** ** The wait for the certificate files *)

Section waiting.
Context `{Crypto} (present : string → Time → bool) (other : ∀ e, cert_reply e).

(** A clock that only [Sleep] moves, and files that are there at some times. *)
Definition clock_handler (e : cert_call) (t : Time) : cert_reply e * Time :=
  match e with
  | TimeNow => (t, t)
  | Sleep d => (tt, t + d)
  | Stat path => (if present path t then None else Some NotExist, t)
  | e => (other e, t)
  end.

Definition file_at (path : string) (t : Time) : bool := bool_decide (path ≠ "") && present path t.
Definition both_at (keyFile CertFile : string) (t : Time) : bool := file_at CertFile t && file_at keyFile t.

Lemma cert_run_bind {A B W} (h : ∀ e, W → cert_reply e * W) (p : certM A) (f : A → certM B) w :
  run h (p ≫= f) w =
  match run h p w with (Some a, w') => run h (f a) w' | (None, w') => (None, w') end.
Proof.
  revert w. induction p as [a| |e k IH]; intros w; cbn; [done..|]. destruct (h e w) as [r w']. apply IH.
Qed.

Lemma fileExists_run path t : run clock_handler (fileExists path) t = (Some (file_at path t), t).
Proof.
  unfold fileExists, file_at. dec (path = "") as He; [by rewrite bool_decide_eq_false_2 by tauto|].
  rewrite bool_decide_eq_true_2 by done. cbn. by destruct (present path t).
Qed.

(** The number of polls: one every [waitInterval], and one after the time is up. *)
Definition polls : Z := waitTimeout / waitInterval + 2.

Lemma polls_62 : polls = 62.
Proof. done. Qed.

Lemma wait_loop_run fuel keyFile CertFile start k :
  0 ≤ k < polls → polls - k ≤ Z.of_nat fuel →
  (run clock_handler (wait_loop fuel keyFile CertFile start) (start + k * waitInterval)).1 =
    Some (Some (existsb (λ i, both_at keyFile CertFile (start + i * waitInterval)) (seqZ k (polls - k)))).
Proof.
  rewrite polls_62. assert (waitInterval = 500000000) as HI by done.
  assert (waitTimeout = 30000000000) as HT by done.
  revert k. induction fuel as [|fuel IH]; intros k Hk Hfuel; [lia|]. cbn [wait_loop].
  rewrite seqZ_cons by lia. cbn [existsb]. rewrite cert_run_bind. unfold and_then.
  rewrite cert_run_bind, fileExists_run. set (t := start + k * waitInterval).
  assert (run clock_handler (if file_at CertFile t then fileExists keyFile else mret false) t =
    (Some (both_at keyFile CertFile t), t)) as ->.
  { unfold both_at. destruct (file_at CertFile t); [apply fileExists_run|done]. }
  destruct (both_at keyFile CertFile t); [done|]. cbn [run call mbind prog_mbind prog_bind clock_handler orb].
  destruct (waitTimeout <? t - start) eqn:Hlate.
  - assert (62 - k = 1) as Hone by (unfold t in *; lia).
    by rewrite Hone.
  - cbn [run call mbind prog_mbind prog_bind clock_handler].
    replace (t + waitInterval) with (start + Z.succ k * waitInterval) by (unfold t; lia).
    replace (Z.pred (62 - k)) with (62 - Z.succ k) by lia.
    assert (Z.succ k < 62) by (unfold t in *; lia).
    apply IH; lia.
Qed.

(** The wait for the certificate files ends.  With a clock that only the waiting
    moves, the files are looked for at most 62 times, every half second, and the
    answer is whether both were there at one of these times. *)
Lemma waitForCertsReady_polls fuel keyFile CertFile t :
  62 ≤ Z.of_nat fuel →
  (run clock_handler (waitForCertsReady fuel keyFile CertFile) t).1 =
    Some (Some (existsb (λ i, both_at keyFile CertFile (t + i * waitInterval)) (seqZ 0 62))).
Proof.
  intros Hfuel. unfold waitForCertsReady. rewrite cert_run_bind. cbn [run call clock_handler].
  pose proof (wait_loop_run fuel keyFile CertFile t 0) as Hloop.
  replace (t + 0 * waitInterval) with t in Hloop by lia.
  rewrite polls_62 in Hloop. apply Hloop; lia.
Qed.
End waiting.

(** ** The set-up of the webhook server *)

Section setup.
Context `{Crypto} (wc : WebhookConfig).
Implicit Types (tr : list (obs cert_reply)).

(** The bundle is the CA of the certificate secret, read or just created. *)
Definition holds_ca (secret : Secret) (ca : bytes) : Prop := default ∅ (sec_Data secret) !! "ca.crt" = Some ca.
Definition sourced tr (ca : bytes) : Prop :=
  ∃ ns secret, holds_ca secret ca ∧
    (existT (SecretsGet ns (CertSecretName wc)) (inl secret) ∈ tr ∨
     sec_Name secret = CertSecretName wc ∧ existT (SecretsCreate ns secret) None ∈ tr).

(** The new webhooks are those read, each with its bundle filled in if it was empty. *)
Definition vacant (w : Webhook) : Prop := CABundle w = None ∨ CABundle w = Some "".
Definition filled_in (ca : bytes) (w w' : Webhook) : Prop :=
  wh_Name w' = wh_Name w ∧ (vacant w → CABundle w' = ca) ∧ (¬ vacant w → CABundle w' = CABundle w).
Definition published tr (w : WebhookConfiguration) : Prop :=
  ∃ old ca, existT (MutatingGet (MutatingWebhookConfigurationName wc)) (inl old) ∈ tr ∧
    whc_Name w = whc_Name old ∧ Forall2 (filled_in ca) (Webhooks old) (Webhooks w) ∧
    (∃ x, x ∈ Webhooks old ∧ vacant x) ∧ sourced tr ca.

Lemma vacant_blen w : vacant w ↔ blen (CABundle w) = 0.
Proof.
  unfold vacant, blen. destruct (CABundle w) as [b|]; [|by split; auto]. unfold len. split.
  - by intros [?|[= ->]].
  - intros Hb. right. destruct b; [done|]. simpl in Hb. lia.
Qed.

Lemma update_webhooks_filled ca ws : Forall2 (filled_in ca) ws (update_webhooks ca ws).1.
Proof.
  unfold update_webhooks. cbn [fst]. induction ws as [|w ws IH]; constructor; [|exact IH].
  unfold filled_in. rewrite vacant_blen. unfold set_CABundle. destruct (blen (CABundle w) =? 0) eqn:Hb; simpl; split_and!; try done; lia.
Qed.

Definition seen tr (path : string) : Prop := existT (Stat path) None ∈ tr.

Definition careful tr (e : cert_call) : Prop :=
  match e with
  | MutatingUpdate w => published tr w
  | StartManager => seen tr (TlsCert wc) ∧ seen tr (TlsPrivateKey wc)
  | ValidatingUpdate _ => False
  | SecretsCreate ns secret => sec_Name secret = CertSecretName wc ∧ sec_Namespace secret = ns
  | _ => True
  end.

Notation returns' Φ := (λ tr o, ∃ a, o = Some a ∧ Φ tr a).
Notation wpc := (wp (λ _, True) careful).

Lemma sourced_app tr tr' ca : sourced tr ca → sourced (tr ++ tr') ca.
Proof.
  intros (ns & secret & Hca & [Hin|[Hn Hin]]); exists ns, secret; (split; [done|]); [left|right; split; [done|]];
    apply elem_of_app; by left.
Qed.

Lemma wp_local {A} (p : certM A) tr :
  local_prog p → wpc p (returns' (λ _ _, True)) tr.
Proof.
  revert tr. induction p as [a| |e k IH]; intros tr; [by eexists|done|]. intros [He Hk].
  split; [by destruct e|]. intros r _. by apply IH.
Qed.

Lemma EnsureCertificate_sourced ns dnsNames tr :
  wpc (EnsureCertificate ns (CertSecretName wc) dnsNames)
    (returns' (λ tr' r, ∀ ca, r = inl ca → sourced tr' ca)) tr.
Proof.
  unfold EnsureCertificate. destruct (bool_decide _); [apply wp_ret; by eexists|].
  assert (∀ tr secret, wpc (mret (ca_of secret ns (CertSecretName wc)))
    (returns' (λ tr' r, ∀ ca, r = inl ca → sourced tr' ca))
    (tr ++ [existT (SecretsGet ns (CertSecretName wc)) (inl secret)])) as Hread.
  { intros tr1 secret. apply wp_ret. eexists. split; [done|]. intros ca Hca. exists ns, secret.
    split; [|left; apply elem_of_app; right; left]. unfold ca_of, data_get, CAKey in Hca. unfold holds_ca.
    destruct (_ !! _); congruence. }
  apply wp_call_bind; [done|]. intros [secret|err] _; [apply Hread|].
  destruct (negb _); [apply wp_ret; by eexists|].
  eapply wp_seq; [apply wp_local, GenerateSelfSignedCertificate_local|].
  intros tr1 [bundle|err'] _; [|apply wp_ret; by eexists].
  apply wp_call_bind; [done|]. intros [err'|] _.
  - destruct (IsAlreadyExists err'); [|apply wp_ret; by eexists].
    apply wp_call_bind; [done|]. intros [secret|err2] _; [apply Hread|apply wp_ret; by eexists].
  - apply wp_ret. eexists. split; [done|]. intros ca [= <-]. exists ns, (secret_of ns (CertSecretName wc) bundle).
    split; [reflexivity|right; split; [done|apply elem_of_app; right; left]].
Qed.

Lemma fileExists_seen path tr :
  wpc (fileExists path)
    (returns' (λ tr' b, (∃ new, tr' = tr ++ new) ∧ (b = true → seen tr' path))) tr.
Proof.
  unfold fileExists. destruct (bool_decide _).
  { apply wp_ret. eexists. split; [done|]. split; [exists []; by rewrite app_nil_r|done]. }
  apply wp_call_bind; [done|]. intros [err|] _; apply wp_ret; eexists; (split; [done|]); (split; [by eexists|]);
    [done|]. intros _. apply elem_of_app. right. left.
Qed.

Lemma both_seen a b tr :
  wpc (and_then (fileExists a) (fileExists b))
    (returns' (λ tr' r, r = true → seen tr' a ∧ seen tr' b)) tr.
Proof.
  unfold and_then. eapply wp_seq; [apply fileExists_seen|].
  intros tr1 [] [_ Ha]; [|apply wp_ret; by eexists].
  eapply wp_mono; [|apply fileExists_seen]. intros tr2 o (r & -> & (new & ->) & Hb).
  exists r. split; [done|]. intros Hr. split; [|by apply Hb]. apply elem_of_app. left. by apply Ha.
Qed.

Lemma wait_loop_seen fuel start tr :
  wpc (wait_loop fuel (TlsPrivateKey wc) (TlsCert wc) start)
    (returns' (λ tr' r, r = Some true → seen tr' (TlsCert wc) ∧ seen tr' (TlsPrivateKey wc))) tr.
Proof.
  revert tr. induction fuel as [|fuel IH]; intros tr; cbn [wait_loop]; [apply wp_ret; by eexists|].
  eapply wp_seq; [apply both_seen|]. intros tr1 [] Hs; [apply wp_ret; eexists; split; [done|auto]|].
  apply wp_call_bind; [done|]. intros now _. destruct (_ <? _); [apply wp_ret; by eexists|].
  apply wp_call_bind; [done|]. intros [] _. apply IH.
Qed.

Lemma choose_ca_bundle_sourced ns tr :
  wpc (choose_ca_bundle wc ns)
    (returns' (λ tr' r, ∀ ca, r = inl ca → ca ≠ None → sourced tr' ca)) tr.
Proof.
  unfold choose_ca_bundle.
  eapply (wp_seq _ _ _ _ (λ tr' r, ∀ bundle, r = inl (Some bundle) → CAPEM bundle ≠ None →
                                        sourced tr' (CAPEM bundle))).
  { unfold LoadCertBundleFromSecret. apply wp_call_bind; [done|]. intros [secret|err] _.
    - dec (sec_Data secret = None) as Hnil; apply wp_ret; eexists; (split; [done|]); [done|].
      intros bundle [= <-]. cbn. unfold nonempty_data. destruct (data_get secret CAKey) as [b|] eqn:Hb; [|done].
      destruct (0 <? blen b); [|done]. intros _. exists ns, secret.
      split; [done|left; apply elem_of_app; right; left].
    - destruct (IsNotFound err); apply wp_ret; by eexists. }
  intros tr1 r Hr. destruct (match r with inl (Some bundle) => CAPEM bundle | _ => None end) as [ca|] eqn:Hca.
  - apply wp_ret. eexists. split; [done|]. intros ca' [= <-] Hne.
    destruct r as [[bundle|]|]; [|done|done]. rewrite <- Hca in *. by apply Hr.
  - eapply wp_seq; [apply both_seen|]. intros tr2 [] _; [apply wp_ret; eexists; split; [done|]|].
    { by intros ca [= <-]. }
    unfold ensureWebhookCertificate. apply wp_bind_2, wp_call_bind; [done|]. intros namespace _.
    eapply wp_mono; [|apply EnsureCertificate_sourced]. intros tr3 o (r' & -> & Hr').
    apply wp_ret. eexists. split; [done|]. intros ca Hr2 _. destruct r' as [ca'|]; [|done]. by apply Hr'.
Qed.

Lemma UpdateMutatingWebhookCABundle_published ca tr :
  sourced tr ca →
  wpc (UpdateMutatingWebhookCABundle (MutatingWebhookConfigurationName wc) ca) (returns' (λ _ _, True)) tr.
Proof.
  intros Hca. unfold UpdateMutatingWebhookCABundle. apply wp_call_bind; [done|].
  intros [old|err] _; [|destruct (IsNotFound err); apply wp_ret; by eexists].
  destruct (update_webhooks ca (Webhooks old)) as [webhooks updated] eqn:Hup.
  pose proof (update_webhooks_filled ca (Webhooks old)) as Hws. rewrite Hup in Hws. cbn [fst] in Hws.
  assert (updated = (update_webhooks ca (Webhooks old)).2) as Hu by by rewrite Hup.
  destruct updated; cbn [negb]; [|apply wp_ret; by eexists].
  apply wp_call_bind; [|intros [err|] _; apply wp_ret; by eexists].
  exists old, ca. split_and!; [apply elem_of_app; right; left|done|done| |by apply sourced_app].
  symmetry in Hu. apply existsb_exists in Hu as (x & Hx & Hb). exists x.
  split; [by apply list_elem_of_In|apply vacant_blen; lia].
Qed.

Lemma run_manager_careful tr :
  seen tr (TlsCert wc) → seen tr (TlsPrivateKey wc) → wpc run_manager (returns' (λ _ _, True)) tr.
Proof.
  intros Hc Hk. unfold run_manager.
  do 4 (apply wp_call_bind; [done|]; intros [err|] _; [apply wp_ret; by eexists|]).
  apply wp_call_bind; [|intros [err|] _; apply wp_ret; by eexists].
  unfold careful, seen in *. set_solver.
Qed.

(** C33: what the set-up publishes and when it serves.  Whatever the API server, the
    file system and the clock answer: the webhook configuration is only written to
    fill in bundles that are empty, with the CA of the certificate secret, read or
    just created; the only secret created is that one; and the webhook server is only
    started once both certificate files have been seen.  The set-up does not panic. *)
Theorem setupWebhookWithManager_safe fuel :
  wp (λ _, True) careful (setupWebhookWithManager fuel wc) (λ _ o, ∃ r, o = Some r) [].
Proof.
  assert (∀ A (p : certM A) (Φ : list (obs cert_reply) → A → Prop) tr,
    wpc p (returns' Φ) tr → wpc p (λ _ o, ∃ r, o = Some r) tr) as Hweak.
  { intros A p Φ tr Hp. eapply wp_mono; [|exact Hp]. intros tr' o (a & -> & _). by eexists. }
  unfold setupWebhookWithManager. apply wp_call_bind; [done|].
  intros [err|] _; [apply wp_ret; by eexists|]. apply wp_call_bind; [done|]. intros ns _.
  eapply wp_seq; [apply choose_ca_bundle_sourced|]. intros tr1 [ca|err] Hca; [|apply wp_ret; by eexists].
  eapply (wp_seq _ _ _ _ (λ _ _, True)).
  { dec (ca ≠ None) as Hne; [|apply wp_ret; by eexists].
    apply UpdateMutatingWebhookCABundle_published. by apply Hca. }
  intros tr2 [err|] _; [apply wp_ret; by eexists|].
  eapply (wp_seq _ _ _ _ (λ tr' r, r = Some true → seen tr' (TlsCert wc) ∧ seen tr' (TlsPrivateKey wc))).
  { unfold waitForCertsReady. apply wp_call_bind; [done|]. intros start _. apply wait_loop_seen. }
  intros tr3 [[]|] Hs; [|apply wp_ret; by eexists..]. destruct (Hs eq_refl) as [Hc Hk].
  eapply wp_seq; [by apply run_manager_careful|]. intros tr4 err _. apply wp_ret. by eexists.
Qed.
End setup.

(** ** More about bundles *)

Section bundles.
Context `{Crypto}.

(** Filling in bundles keeps the webhooks and the bundles they have, and there is
    nothing left to fill in. *)
Lemma update_webhooks_spec ca ws :
  Forall2 (λ w w', wh_Name w' = wh_Name w ∧
                   CABundle w' = if blen (CABundle w) =? 0 then ca else CABundle w)
    ws (update_webhooks ca ws).1 ∧
  (blen ca ≠ 0 → (update_webhooks ca (update_webhooks ca ws).1).2 = false).
Proof.
  unfold update_webhooks. cbn [fst snd]. split.
  - induction ws as [|w ws IH]; constructor; [|exact IH]. unfold set_CABundle. by destruct (_ =? 0) eqn:He.
  - intros Hca. induction ws as [|w ws IH]; [done|]. cbn. rewrite IH, orb_false_r.
    unfold set_CABundle. destruct (blen (CABundle w) =? 0) eqn:He; cbn; lia.
Qed.

(** When the update of the webhook configuration fails, the error of the set-up does
    not say why. *)
Lemma setup_update_error fuel wc ca ns tr1 tr2 err :
  runs (choose_ca_bundle wc ns) tr1 (Some (inl (Some ca))) →
  runs (UpdateMutatingWebhookCABundle (MutatingWebhookConfigurationName wc) (Some ca)) tr2 (Some (Some err)) →
  runs (setupWebhookWithManager fuel wc)
    (existT KubeClientForConfig None :: existT (Getenv "POD_NAMESPACE") ns :: tr1 ++ tr2)
    (Some (Some (Some (Errorf "Error updating mutating webhook certificate: <nil>" None)))).
Proof.
  intros Hchoose Hupdate. exists None. eexists. split; [done|]. exists ns. eexists. split; [done|].
  apply runs_seq with (a := inl (Some ca)) (tr1 := tr1) (tr2 := tr2); [done|exact Hchoose|].
  rewrite <- (app_nil_r tr2). eapply runs_seq; [done|exact Hupdate|]. done.
Qed.
End bundles.
