(* ===== verification/Informers.v ===== *)
(** * The informer factory ([client-go/informers/externalversions])

    [sharedInformerFactory]: which informers exist and which have been started, the
    goroutines that run them, and the shutdown that waits for these.  The methods
    hold the lock of the factory, so each is one step; the goroutines and the wait
    at the end of [Shutdown] interleave with them. *)
From S2P Require Export Boundary.

Section factory.
(** Clients, list options, the answers to list and watch requests, stop channels,
    transforms and informers of client-go. *)
Context {Client ListOptions ListResult WatchResult Chan Transform Inf : Type} `{GoRuntime}.
(** [client.AppsV1().XStatefulSets(namespace).List] and [.Watch] *)
Context (List : Client → string → ListOptions → ListResult).
Context (Watch : Client → string → ListOptions → WatchResult).

Definition TweakListOptionsFunc : Type := ListOptions → ListOptions.

(** [cache.ListWatch]; the functions with a context do the same. *)
Record ListWatch := { ListFunc : ListOptions → ListResult; WatchFunc : ListOptions → WatchResult }.

(** [cache.NewSharedIndexInformer] of a list-watch, the type of the example object,
    the resync period and the names of the indexers, and [SetTransform]. *)
Context (NewSharedIndexInformer : ListWatch → string → Z → list string → Inf).
Context (SetTransform : option Transform → Inf → Inf).

(** ** The informer of the sets *)

Definition tweak (tweakListOptions : option TweakListOptionsFunc) (options : ListOptions) : ListOptions :=
  match tweakListOptions with Some f => f options | None => options end.

Definition XStatefulSetType : string := "*v1.XStatefulSet".

Definition NewFilteredXStatefulSetInformer (client : Client) (namespace : string) (resyncPeriod : Z)
    (indexers : list string) (tweakListOptions : option TweakListOptionsFunc) : Inf :=
  NewSharedIndexInformer
    {| ListFunc := λ options, List client namespace (tweak tweakListOptions options);
       WatchFunc := λ options, Watch client namespace (tweak tweakListOptions options) |}
    XStatefulSetType resyncPeriod indexers.

Definition NewXStatefulSetInformer (client : Client) (namespace : string) (resyncPeriod : Z)
    (indexers : list string) : Inf :=
  NewFilteredXStatefulSetInformer client namespace resyncPeriod indexers None.

(** ** State of the factory *)

(** [running] is not a field: the goroutines started and not yet done. *)
Record sharedInformerFactory := {
  client : Client;
  namespace : string;
  tweakListOptions : option TweakListOptionsFunc;
  defaultResync : Z;
  customResync : gmap string Z;
  transform : option Transform;
  informers : gmap string Inf;
  startedInformers : gmap string bool;
  wg : Z;
  shuttingDown : bool;
  running : list (string * Inf * Chan)
}.

Definition SharedInformerOption : Type := sharedInformerFactory → sharedInformerFactory.

Definition set_customResync (m : gmap string Z) (f : sharedInformerFactory) : sharedInformerFactory :=
  {| client := client f; namespace := namespace f; tweakListOptions := tweakListOptions f;
     defaultResync := defaultResync f; customResync := m; transform := transform f;
     informers := informers f; startedInformers := startedInformers f; wg := wg f;
     shuttingDown := shuttingDown f; running := running f |}.

(** The types and periods in the order in which [range] visits the map. *)
Definition WithCustomResyncConfig (resyncConfig : list (string * Z)) : SharedInformerOption := λ factory,
  foldl (λ factory kv, set_customResync (<[kv.1 := kv.2]> (customResync factory)) factory) factory resyncConfig.

Definition WithTweakListOptions (t : option TweakListOptionsFunc) : SharedInformerOption := λ f,
  {| client := client f; namespace := namespace f; tweakListOptions := t;
     defaultResync := defaultResync f; customResync := customResync f; transform := transform f;
     informers := informers f; startedInformers := startedInformers f; wg := wg f;
     shuttingDown := shuttingDown f; running := running f |}.

Definition WithNamespace (ns : string) : SharedInformerOption := λ f,
  {| client := client f; namespace := ns; tweakListOptions := tweakListOptions f;
     defaultResync := defaultResync f; customResync := customResync f; transform := transform f;
     informers := informers f; startedInformers := startedInformers f; wg := wg f;
     shuttingDown := shuttingDown f; running := running f |}.

Definition WithTransform (t : option Transform) : SharedInformerOption := λ f,
  {| client := client f; namespace := namespace f; tweakListOptions := tweakListOptions f;
     defaultResync := defaultResync f; customResync := customResync f; transform := t;
     informers := informers f; startedInformers := startedInformers f; wg := wg f;
     shuttingDown := shuttingDown f; running := running f |}.

(** [v1.NamespaceAll] is the empty string. *)
Definition NewSharedInformerFactoryWithOptions (c : Client) (resync : Z)
    (options : list SharedInformerOption) : sharedInformerFactory :=
  let factory := {| client := c; namespace := ""; tweakListOptions := None; defaultResync := resync;
                    customResync := ∅; transform := None; informers := ∅; startedInformers := ∅;
                    wg := 0; shuttingDown := false; running := [] |} in
  foldl (λ factory opt, opt factory) factory options.

Definition NewSharedInformerFactory (c : Client) (resync : Z) : sharedInformerFactory :=
  NewSharedInformerFactoryWithOptions c resync [].

Definition NewFilteredSharedInformerFactory (c : Client) (resync : Z) (ns : string)
    (t : option TweakListOptionsFunc) : sharedInformerFactory :=
  NewSharedInformerFactoryWithOptions c resync [WithNamespace ns; WithTweakListOptions t].

(** ** Methods *)

(** One iteration of the loop of [Start]: [wg.Add(1)], the goroutine, the mark. *)
Definition start_informer (stopCh : Chan) (f : sharedInformerFactory) (entry : string * Inf)
    : sharedInformerFactory :=
  let '(informerType, informer) := entry in
  if negb (default false (startedInformers f !! informerType)) then
    {| client := client f; namespace := namespace f; tweakListOptions := tweakListOptions f;
       defaultResync := defaultResync f; customResync := customResync f; transform := transform f;
       informers := informers f; startedInformers := <[informerType := true]> (startedInformers f);
       wg := wg f + 1; shuttingDown := shuttingDown f;
       running := running f ++ [(informerType, informer, stopCh)] |}
  else f.

Definition Start (stopCh : Chan) (f : sharedInformerFactory) : sharedInformerFactory :=
  if shuttingDown f then f
  else foldl (start_informer stopCh) f (map_range (informers f)).

(** The critical section of [Shutdown]; [wg.Wait()] follows. *)
Definition Shutdown (f : sharedInformerFactory) : sharedInformerFactory :=
  {| client := client f; namespace := namespace f; tweakListOptions := tweakListOptions f;
     defaultResync := defaultResync f; customResync := customResync f; transform := transform f;
     informers := informers f; startedInformers := startedInformers f; wg := wg f;
     shuttingDown := true; running := running f |}.

(** [informer.Run] of a goroutine returns and [wg.Done()] is called. *)
Definition goroutine_done (i : nat) (f : sharedInformerFactory) : sharedInformerFactory :=
  {| client := client f; namespace := namespace f; tweakListOptions := tweakListOptions f;
     defaultResync := defaultResync f; customResync := customResync f; transform := transform f;
     informers := informers f; startedInformers := startedInformers f; wg := wg f - 1;
     shuttingDown := shuttingDown f; running := take i (running f) ++ drop (S i) (running f) |}.

(** The informers [WaitForCacheSync] waits for: the snapshot taken under the lock. *)
Definition sync_snapshot (f : sharedInformerFactory) : gmap string Inf :=
  omap id (map_imap (λ informerType informer,
    Some (if default false (startedInformers f !! informerType) then Some informer else None)) (informers f)).

(** [synced] is [cache.WaitForCacheSync(stopCh, informer.HasSynced)]. *)
Definition WaitForCacheSync (synced : Inf → bool) (f : sharedInformerFactory) : gmap string bool :=
  synced <$> sync_snapshot f.

Definition InformerFor (informerType : string) (newFunc : Client → Z → Inf) (f : sharedInformerFactory)
    : Inf * sharedInformerFactory :=
  match informers f !! informerType with
  | Some informer => (informer, f)
  | None =>
      let resyncPeriod := default (defaultResync f) (customResync f !! informerType) in
      let informer := newFunc (client f) resyncPeriod in
      let informer := SetTransform (transform f) informer in
      (informer,
       {| client := client f; namespace := namespace f; tweakListOptions := tweakListOptions f;
          defaultResync := defaultResync f; customResync := customResync f; transform := transform f;
          informers := <[informerType := informer]> (informers f);
          startedInformers := startedInformers f; wg := wg f;
          shuttingDown := shuttingDown f; running := running f |})
  end.

(** [f.Apps().V1().XStatefulSets().Informer()] *)
Definition defaultInformer (ns : string) (t : option TweakListOptionsFunc) (c : Client) (resyncPeriod : Z) : Inf :=
  NewFilteredXStatefulSetInformer c ns resyncPeriod ["namespace"] t.
Definition XStatefulSets_Informer (f : sharedInformerFactory) : Inf * sharedInformerFactory :=
  InformerFor XStatefulSetType (defaultInformer (namespace f) (tweakListOptions f)) f.

Record GroupVersionResource := { gvr_Group : string; gvr_Version : string; gvr_Resource : string }.

(** The informer found, or the error. *)
Definition ForResource (resource : GroupVersionResource) (f : sharedInformerFactory)
    : (Inf + string) * sharedInformerFactory :=
  if bool_decide (gvr_Group resource = "apps.x-k8s.io" ∧ gvr_Version resource = "v1" ∧
                  gvr_Resource resource = "xstatefulsets")
  then let '(informer, f) := XStatefulSets_Informer f in (inl informer, f)
  else (inr ("no informer found for " +:+ gvr_Group resource +:+ "/" +:+ gvr_Version resource +:+
             ", Resource=" +:+ gvr_Resource resource), f).

(** ** The life of a factory *)

(** The factory, the callers of [Shutdown] that wait and those it has returned to,
    and every type whose informer was started so far, in order. *)
Record sys := { factory : sharedInformerFactory; waiting : nat; returned : nat; log : list string }.

Inductive sys_step : sys → sys → Prop :=
| step_informer_for t newFunc s :
    sys_step s {| factory := (InformerFor t newFunc (factory s)).2; waiting := waiting s;
                  returned := returned s; log := log s |}
| step_start stopCh s :
    let f := Start stopCh (factory s) in
    sys_step s {| factory := f; waiting := waiting s; returned := returned s;
                  log := log s ++ ((λ x, x.1.1) <$> drop (length (running (factory s))) (running f)) |}
| step_done i s :                          (** a goroutine ends *)
    (i < length (running (factory s)))%nat →
    sys_step s {| factory := goroutine_done i (factory s); waiting := waiting s;
                  returned := returned s; log := log s |}
| step_shutdown s :
    sys_step s {| factory := Shutdown (factory s); waiting := S (waiting s);
                  returned := returned s; log := log s |}
| step_shutdown_returns s n :              (** [wg.Wait()] returns *)
    waiting s = S n → wg (factory s) = 0 →
    sys_step s {| factory := factory s; waiting := n; returned := S (returned s); log := log s |}.

(** A factory in which nothing has happened. *)
Definition fresh (f : sharedInformerFactory) : Prop :=
  informers f = ∅ ∧ startedInformers f = ∅ ∧ wg f = 0 ∧ shuttingDown f = false ∧ running f = [].

Definition initial (f : sharedInformerFactory) : sys :=
  {| factory := f; waiting := 0; returned := 0; log := [] |}.

(** The options of the package only set parameters. *)
Lemma options_fresh resyncConfig t ns tr :
  Forall (λ opt : SharedInformerOption, ∀ f, fresh f → fresh (opt f))
    [WithCustomResyncConfig resyncConfig; WithTweakListOptions t; WithNamespace ns; WithTransform tr].
Proof.
  repeat apply List.Forall_cons; [|by intros f..|by apply List.Forall_nil].
  unfold WithCustomResyncConfig. induction resyncConfig as [|kv l IH]; [done|]. intros f Hf. by apply IH.
Qed.

Lemma New_fresh c resync options :
  Forall (λ opt : SharedInformerOption, ∀ f, fresh f → fresh (opt f)) options →
  fresh (NewSharedInformerFactoryWithOptions c resync options).
Proof.
  intros Hopts. unfold NewSharedInformerFactoryWithOptions.
  match goal with |- fresh (foldl _ ?f _) => assert (fresh f) as Hf by done; generalize dependent f end.
  induction Hopts as [|opt opts Ho _ IH]; intros f Hf; [done|]. apply IH. by apply Ho.
Qed.
(** *** The invariant *)

Record factory_inv (s : sys) : Prop := {
  inv_wg : wg (factory s) = Z.of_nat (length (running (factory s)));
  inv_log : NoDup (log s);
  inv_started t : t ∈ log s ↔ startedInformers (factory s) !! t = Some true;
  inv_marks t b : startedInformers (factory s) !! t = Some b → b = true;
  inv_running : ((λ x, x.1.1) <$> running (factory s)) `sublist_of` log s;
  inv_informer t i c : (t, i, c) ∈ running (factory s) → informers (factory s) !! t = Some i;
  inv_closed : (0 < waiting s + returned s)%nat → shuttingDown (factory s) = true;
  inv_returned : (0 < returned s)%nat → running (factory s) = []
}.

(** What the loop of [Start] adds. *)
Definition startable (f : sharedInformerFactory) (entries : list (string * Inf)) : list (string * Inf) :=
  List.filter (λ e, negb (default false (startedInformers f !! e.1))) entries.

Lemma start_all stopCh f entries :
  NoDup (fst <$> entries) →
  let f' := foldl (start_informer stopCh) f entries in
  running f' = running f ++ ((λ e, (e.1, e.2, stopCh)) <$> startable f entries) ∧
  wg f' = wg f + Z.of_nat (length (startable f entries)) ∧
  informers f' = informers f ∧ shuttingDown f' = shuttingDown f ∧
  (∀ t, startedInformers f' !! t =
        if decide (t ∈ fst <$> startable f entries) then Some true else startedInformers f !! t).
Proof.
  revert f. induction entries as [|[t inf] entries IH]; intros f Hnd; cbn zeta.
  { cbn. rewrite app_nil_r. split_and!; [done|lia|done|done|].
    intros t. by rewrite decide_False by apply not_elem_of_nil. }
  rewrite fmap_cons, list.NoDup_cons in Hnd. destruct Hnd as [Ht Hnd]. cbn [foldl fst] in *. remember (start_informer stopCh f (t, inf)) as f1 eqn:Hf1.
  unfold start_informer in Hf1.
  assert (∀ e, e ∈ entries → default false (startedInformers f1 !! e.1) = default false (startedInformers f !! e.1))
    as Hsame.
  { intros e He. rewrite Hf1. destruct (negb _); [|done]. cbn.
    rewrite lookup_insert_ne; [done|]. intros Heq. apply Ht. rewrite Heq.
    apply list_elem_of_fmap. by exists e. }
  assert (startable f1 entries = startable f entries) as Hst.
  { apply List.filter_ext_in. intros e He%list_elem_of_In. by rewrite Hsame. }
  destruct (IH f1 Hnd) as (Hr & Hw & Hi & Hs & Hm). rewrite Hst in *.
  assert (startable f ((t, inf) :: entries) =
    if negb (default false (startedInformers f !! t)) then (t, inf) :: startable f entries else startable f entries)
    as -> by done.
  destruct (negb (default false (startedInformers f !! t))).
  - rewrite Hr, Hw, Hi, Hs. split_and!; [rewrite Hf1; cbn; by rewrite <- (assoc_L (++))|
      rewrite Hf1; cbn; lia|by rewrite Hf1|by rewrite Hf1|].
    intros t'. rewrite Hm, Hf1. cbn. destruct (decide (t' = t)) as [->|Hne].
    + rewrite lookup_insert_eq. rewrite (decide_True _ _ (list_elem_of_here _ _)). by destruct (decide _).
    + rewrite lookup_insert_ne by done. apply decide_ext. rewrite elem_of_cons. intuition.
  - by subst f1.
Qed.

Context `{!GoLaws}.

Lemma map_range_facts {V} (m : gmap string V) :
  NoDup (fst <$> map_range m) ∧ ∀ k v, (k, v) ∈ map_range m ↔ m !! k = Some v.
Proof.
  split; [rewrite map_range_perm; apply NoDup_fst_map_to_list|].
  intros k v. rewrite map_range_perm. apply elem_of_map_to_list.
Qed.

Lemma startable_facts s t i :
  factory_inv s → (t, i) ∈ startable (factory s) (map_range (informers (factory s))) →
  t ∉ log s ∧ informers (factory s) !! t = Some i.
Proof.
  intros Hinv [Hin Hneg]%list_elem_of_In%filter_In. destruct (map_range_facts (informers (factory s))) as [_ Hr].
  split; [|by apply Hr, list_elem_of_In].
  intros Ht%(inv_started _ Hinv). cbn in Hneg. by rewrite Ht in Hneg.
Qed.

Lemma startable_keys f :
  NoDup (fst <$> startable f (map_range (informers f))).
Proof.
  destruct (map_range_facts (informers f)) as [Hnd _]. eapply sublist_NoDup; [exact Hnd|].
  apply fmap_sublist. unfold startable. clear Hnd. induction (map_range (informers f)) as [|e es IH]; cbn; [done|].
  destruct (negb _); [by apply sublist_skip|by apply sublist_cons].
Qed.

Lemma Start_inv stopCh s :
  factory_inv s →
  let f := Start stopCh (factory s) in
  factory_inv {| factory := f; waiting := waiting s; returned := returned s;
                 log := log s ++ ((λ x, x.1.1) <$> drop (length (running (factory s))) (running f)) |} ∧
  informers f = informers (factory s) ∧ shuttingDown f = shuttingDown (factory s) ∧
  (shuttingDown (factory s) = true → f = factory s).
Proof.
  intros Hinv. cbn zeta. unfold Start. destruct (shuttingDown (factory s)) eqn:Hsd.
  { rewrite drop_all, app_nil_r. split; [destruct s; exact Hinv|done]. }
  destruct (start_all stopCh (factory s) (map_range (informers (factory s)))) as (Hr & Hw & Hi & Hs & Hm);
    [apply map_range_facts|].
  set (new := startable (factory s) (map_range (informers (factory s)))) in *.
  set (f := foldl _ _ _) in *. split; [|by rewrite Hi, Hs].
  rewrite Hr, drop_app_length, <- list_fmap_compose. change (_ ∘ _) with (fst : string * Inf → string).
  assert (∀ t, t ∈ fst <$> new → t ∉ log s) as Hnew.
  { intros t ([t' i] & -> & Hin)%list_elem_of_fmap. by eapply startable_facts. }
  split; cbn [factory waiting returned log].
  - rewrite Hw, Hr, length_app, length_fmap, (inv_wg _ Hinv). lia.
  - apply list.NoDup_app. split_and!; [apply Hinv| |apply startable_keys]. intros t Ht Ht'. by apply (Hnew t).
  - intros t. rewrite Hm, elem_of_app, (inv_started _ Hinv). destruct (decide _); tauto.
  - intros t b. rewrite Hm. destruct (decide _); [by intros [= <-]|apply Hinv].
  - rewrite Hr, fmap_app, <- list_fmap_compose. apply sublist_app; [apply Hinv|done].
  - intros t i c. rewrite Hr, Hi. intros [Hin|([t' i'] & [= -> -> ->] & Hin)%list_elem_of_fmap]%elem_of_app.
    + by eapply inv_informer.
    + by eapply startable_facts.
  - rewrite Hs. apply Hinv.
  - intros Hret. exfalso. assert (shuttingDown (factory s) = true); [|congruence]. apply Hinv. lia.
Qed.

Lemma InformerFor_inv t newFunc s :
  factory_inv s →
  let f := (InformerFor t newFunc (factory s)).2 in
  factory_inv {| factory := f; waiting := waiting s; returned := returned s; log := log s |} ∧
  informers (factory s) ⊆ informers f ∧ shuttingDown f = shuttingDown (factory s).
Proof.
  intros [Hwg Hlog Hst Hm Hrun Hinf Hcl Hret]. cbn zeta. unfold InformerFor.
  destruct (informers (factory s) !! t) as [i|] eqn:Hi; cbn [snd]; [by split|].
  split; [|split; [by apply insert_subseteq|done]].
  split; cbn; try done. intros t' i' c Hin. specialize (Hinf _ _ _ Hin).
  destruct (decide (t' = t)) as [->|Hne]; [congruence|]. by rewrite lookup_insert_ne.
Qed.

Lemma done_inv i s :
  (i < length (running (factory s)))%nat → factory_inv s →
  factory_inv {| factory := goroutine_done i (factory s); waiting := waiting s; returned := returned s; log := log s |}.
Proof.
  intros Hi [Hwg Hlog Hst Hm Hrun Hinf Hcl Hret].
  assert (take i (running (factory s)) ++ drop (S i) (running (factory s)) `sublist_of` running (factory s)) as Hsub.
  { rewrite <- (take_drop i (running (factory s))) at 3. apply sublist_app; [done|].
    replace (S i) with (i + 1)%nat by lia. rewrite <- drop_drop. apply sublist_drop. }
  split; cbn; try done.
  - rewrite length_app, length_take, length_drop. lia.
  - etrans; [by apply fmap_sublist|done].
  - intros t inf c Hin. eapply Hinf. by eapply elem_of_sublist.
  - intros Hr. rewrite (Hret Hr) in Hi. simpl in Hi. lia.
Qed.

Lemma step_inv s s' :
  sys_step s s' → factory_inv s →
  factory_inv s' ∧ informers (factory s) ⊆ informers (factory s') ∧
  (shuttingDown (factory s) = true → shuttingDown (factory s') = true ∧ log s' = log s).
Proof.
  intros [t newFunc s0|stopCh s0|i s0 Hi|s0|s0 n Hn Hwg] Hinv.
  - destruct (InformerFor_inv t newFunc s0 Hinv) as (? & ? & Hs). cbn. split_and!; [done|done|].
    intros Hsd. by rewrite Hs.
  - subst f. destruct (Start_inv stopCh s0 Hinv) as (? & Hi & Hs & Hsame).
    cbn [factory log]. split_and!; [done|by rewrite Hi|].
    intros Hsd. rewrite Hs. split; [done|]. by rewrite (Hsame Hsd), drop_all, app_nil_r.
  - split; [by apply done_inv|done].
  - split; [|done]. destruct Hinv. split; cbn; try done. 
  - split; [|done]. destruct Hinv as [Hw Hlog Hst Hm Hrun Hinf Hcl Hret]. split; cbn; try done.
    + intros _. apply Hcl. lia.
    + intros _. apply length_zero_iff_nil. lia.
Qed.

(** C27: the informer factory over its whole life, whatever the order of the calls of
    its methods, the ends of the goroutines and the waits of [Shutdown]: the informer
    of a type is started at most once and never replaced; the wait group counts the
    goroutines, so it never goes negative; after the first call of [Shutdown] nothing
    is started any more; and once a [Shutdown] has returned no goroutine is left, and
    none ever runs again. *)
Theorem factory_life f s s' :
  fresh f → rtc sys_step (initial f) s → rtc sys_step s s' →
  NoDup (log s) ∧ NoDup ((λ x, x.1.1) <$> running (factory s)) ∧
  wg (factory s) = Z.of_nat (length (running (factory s))) ∧
  informers (factory s) ⊆ informers (factory s') ∧
  (shuttingDown (factory s) = true → log s' = log s) ∧
  ((0 < returned s)%nat → running (factory s) = [] ∧ running (factory s') = []).
Proof.
  intros (Hi & Hst & Hwg & Hsd & Hrun) Hs Hs'.
  assert (∀ s1 s2, rtc sys_step s1 s2 → factory_inv s1 →
    factory_inv s2 ∧ informers (factory s1) ⊆ informers (factory s2) ∧ (returned s1 ≤ returned s2)%nat ∧
    (shuttingDown (factory s1) = true → log s2 = log s1)) as Hmany.
  { induction 1 as [s1|s1 s2 s3 Hstep _ IH]; intros Hinv; [done|].
    destruct (step_inv _ _ Hstep Hinv) as (Hinv2 & Hsub & Hlog).
    destruct (IH Hinv2) as (Hinv3 & Hsub' & Hret & Hlog'). split_and!; [done|by etrans| |].
    - etrans; [|exact Hret]. destruct Hstep; cbn; lia.
    - intros Hd. destruct (Hlog Hd) as [Hd' <-]. auto. }
  assert (factory_inv (initial f)) as Hinit.
  { split; cbn; try lia; rewrite ?Hwg, ?Hrun, ?Hst; try done; try constructor.
    - by intros ?%not_elem_of_nil.
    - by rewrite lookup_empty.
    - intros t i c ?%not_elem_of_nil. done. }
  destruct (Hmany _ _ Hs Hinit) as (Hinv & _). destruct (Hmany _ _ Hs' Hinv) as (Hinv' & Hsub & Hret & Hlog).
  split_and!; [apply Hinv| |apply Hinv|done|done|].
  - eapply sublist_NoDup; [apply (inv_log _ Hinv)|apply Hinv].
  - intros Hr. split; [by apply Hinv|apply Hinv'; lia].
Qed.
End factory.
