(* ===== verification/Scheme.v ===== *)
(** * Scheme registration ([api/apps/v1/register.go], [pkg/controller/legacyscheme])

    The package initialisers that tell a [runtime.Scheme] about the types of the
    API group and their defaults.  [Defaults] takes [legacyscheme.Scheme.Default]
    for the generated defaulting function; here this is derived from what the
    initialisers register.  The feature gates ([pkg/feature]) are registered likewise. *)
From S2P Require Export Defaults.

Record GroupVersion := { gv_Group : string; gv_Version : string }.
#[export] Instance GroupVersion_eq_dec : EqDecision GroupVersion.
Proof. solve_decision. Defined.

Record GroupResource := { gr_Group : string; gr_Resource : string }.

Definition GroupName : string := "apps.x-k8s.io".
Definition SchemeGroupVersion : GroupVersion := {| gv_Group := GroupName; gv_Version := "v1" |}.

(** [SchemeGroupVersion.WithResource(resource).GroupResource()] *)
Definition Resource (resource : string) : GroupResource :=
  {| gr_Group := gv_Group SchemeGroupVersion; gr_Resource := resource |}.

(** A [runtime.Object] as an interface: its type and, for the types of the group, its value. *)
Inductive api_object :=
| OSet (set : XStatefulSet)
| OSetList (items : list XStatefulSet)
| OForeign (type : string).

Definition go_type (obj : api_object) : string :=
  match obj with
  | OSet _ => "*v1.XStatefulSet"
  | OSetList _ => "*v1.XStatefulSetList"
  | OForeign type => type
  end.

(** [k8s.io/apimachinery/pkg/runtime]: a scheme, and what the registrations do. *)
Class RuntimeScheme `{K8s} := {
  Scheme : Type;
  NewScheme : Scheme;
  AddKnownTypes : GroupVersion → list string → Scheme → Scheme;
  AddToGroupVersion : GroupVersion → Scheme → Scheme;
  (** the default function panics on an object of another type *)
  AddTypeDefaultingFunc : string → (api_object → option api_object) → Scheme → Scheme;
  SchemeDefault : Scheme → api_object → option api_object;
  Recognizes : Scheme → GroupVersion → string → bool
}.

(** "Default sets defaults on the provided Object": the function registered last for
    its type, if any; registering types adds no defaults. *)
Class RuntimeSchemeLaws `{RuntimeScheme} : Prop := {
  Default_func t f s obj :
    SchemeDefault (AddTypeDefaultingFunc t f s) obj =
    if bool_decide (go_type obj = t) then f obj else SchemeDefault s obj;
  Default_known gv ts s obj : SchemeDefault (AddKnownTypes gv ts s) obj = SchemeDefault s obj;
  Default_version gv s obj : SchemeDefault (AddToGroupVersion gv s) obj = SchemeDefault s obj;
  Recognizes_known gv ts s gv' t :
    Recognizes (AddKnownTypes gv ts s) gv' t = bool_decide (gv' = gv ∧ t ∈ ts) || Recognizes s gv' t;
  Recognizes_version gv s gv' t : Recognizes s gv' t = true → Recognizes (AddToGroupVersion gv s) gv' t = true;
  Recognizes_func t f s gv' t' : Recognizes (AddTypeDefaultingFunc t f s) gv' t' = Recognizes s gv' t'
}.

Section scheme.
Context `{RuntimeScheme}.

(** A function that registers something, and the error it may return. *)
Definition registration : Type := Scheme → option error * Scheme.

Definition addKnownTypes : registration := λ scheme,
  let scheme := AddKnownTypes SchemeGroupVersion ["*v1.XStatefulSet"; "*v1.XStatefulSetList"] scheme in
  (None, AddToGroupVersion SchemeGroupVersion scheme).

(** The type assertions of the registered closures. *)
Definition default_set_func (obj : api_object) : option api_object :=
  match obj with OSet set => Some (OSet (SetObjectDefaults_XStatefulSet set)) | _ => None end.
Definition default_list_func (obj : api_object) : option api_object :=
  match obj with OSetList items => Some (OSetList (SetObjectDefaults_XStatefulSetList items)) | _ => None end.

Definition RegisterDefaults : registration := λ scheme,
  let scheme := AddTypeDefaultingFunc "*v1.XStatefulSet" default_set_func scheme in
  (None, AddTypeDefaultingFunc "*v1.XStatefulSetList" default_list_func scheme).

Definition addDefaultingFuncs : registration := λ scheme, RegisterDefaults scheme.

(** [runtime.SchemeBuilder]: "AddToScheme applies all the stored functions to the
    scheme. A non-nil error indicates that one function failed and the attempt was
    abandoned." *)
Definition SchemeBuilder : Type := list registration.
Fixpoint apply_builder (sb : SchemeBuilder) (scheme : Scheme) : option error * Scheme :=
  match sb with
  | [] => (None, scheme)
  | f :: sb =>
      match f scheme with
      | (Some err, scheme) => (Some err, scheme)
      | (None, scheme) => apply_builder sb scheme
      end
  end.

(** [localSchemeBuilder] after [init] of [register.go]; [AddToScheme] and [Install]. *)
Definition localSchemeBuilder : SchemeBuilder := [addKnownTypes; addDefaultingFuncs].
Definition Install : registration := apply_builder localSchemeBuilder.

(** [utilruntime.Must]: a panic on an error. *)
Definition Must (r : option error * Scheme) : option Scheme :=
  match r with (None, scheme) => Some scheme | (Some _, _) => None end.

(** [init] of [legacyscheme]; [kube] is [scheme.AddToScheme] of the Kubernetes
    client.  The error of [Install] is dropped. *)
Definition legacyscheme_init (kube : registration) : option Scheme :=
  scheme ← Must (kube NewScheme);
  Some (Install scheme).2.

(** [init] of [cmd/main.go]; both errors are dropped. *)
Definition main_init (kube : registration) : Scheme :=
  let scheme := (kube NewScheme).2 in
  (Install scheme).2.

(** [init] of the generated clientset's scheme and of its fake. *)
Definition clientset_init : option Scheme :=
  let scheme := AddToGroupVersion {| gv_Group := ""; gv_Version := "v1" |} NewScheme in
  Must (apply_builder [Install] scheme).

(** ** Properties *)

Context `{!RuntimeSchemeLaws}.

Lemma Install_spec scheme :
  ∃ scheme', Install scheme = (None, scheme') ∧
    (∀ set, SchemeDefault scheme' (OSet set) = Some (OSet (Scheme_Default set))) ∧
    (∀ items, SchemeDefault scheme' (OSetList items) = Some (OSetList (Scheme_Default <$> items))) ∧
    (∀ t, t ≠ "*v1.XStatefulSet" → t ≠ "*v1.XStatefulSetList" →
       SchemeDefault scheme' (OForeign t) = SchemeDefault scheme (OForeign t)) ∧
    Recognizes scheme' SchemeGroupVersion "*v1.XStatefulSet" = true ∧
    Recognizes scheme' SchemeGroupVersion "*v1.XStatefulSetList" = true.
Proof.
  eexists. split; [reflexivity|]. split_and!.
  - intros set. by rewrite !Default_func.
  - intros items. by rewrite !Default_func.
  - intros t Hne Hne2. rewrite !Default_func. cbn [go_type].
    by rewrite !bool_decide_eq_false_2, Default_version, Default_known by done.
  - rewrite !Recognizes_func. apply Recognizes_version. by rewrite Recognizes_known.
  - rewrite !Recognizes_func. apply Recognizes_version. by rewrite Recognizes_known.
Qed.

(** The scheme knows the two types of the group in its version, and applies to a set,
    and to the sets of a list, exactly the generated defaults. *)
Definition knows_group (s : Scheme) : Prop :=
  (∀ t, t = "*v1.XStatefulSet" ∨ t = "*v1.XStatefulSetList" →
     Recognizes s {| gv_Group := "apps.x-k8s.io"; gv_Version := "v1" |} t = true) ∧
  (∀ set, SchemeDefault s (OSet set) = Some (OSet (SetObjectDefaults_XStatefulSet set))) ∧
  (∀ items, SchemeDefault s (OSetList items) = Some (OSetList (SetObjectDefaults_XStatefulSet <$> items))).

(** C36: after the package initialisers have run, with any registration of the
    Kubernetes types that succeeds, each scheme of the program ([legacyscheme], that of
    [main] and those of the generated clientset) knows the set and the list of sets in
    the group's version and applies to them exactly the generated defaults; the first
    two treat the objects of other types as before; and no initialiser panics. *)
Theorem legacyscheme_defaults kube scheme :
  kube NewScheme = (None, scheme) →
  (∃ s, legacyscheme_init kube = Some s ∧ main_init kube = s ∧ knows_group s ∧
     (∀ t, t ≠ "*v1.XStatefulSet" → t ≠ "*v1.XStatefulSetList" →
        SchemeDefault s (OForeign t) = SchemeDefault scheme (OForeign t))) ∧
  ∃ s, clientset_init = Some s ∧ knows_group s.
Proof.
  assert (∀ s s', Install s = (None, s') → knows_group s') as Hknows.
  { intros s s' Heq. destruct (Install_spec s) as (s2 & Heq2 & Hset & Hlist & _ & Hrec & Hrecs).
    rewrite Heq in Heq2. injection Heq2 as <-. split_and!; [by intros ? [-> | ->]|exact Hset|exact Hlist]. }
  intros Hkube. split.
  - destruct (Install_spec scheme) as (s & Heq & _ & _ & Hother & _). exists s.
    unfold legacyscheme_init, main_init. rewrite Hkube. cbn [Must mbind option_bind snd].
    rewrite Heq. split_and!; [done|done|by eapply Hknows|done].
  - unfold clientset_init. cbn [apply_builder].
    destruct (Install_spec (AddToGroupVersion {| gv_Group := ""; gv_Version := "v1" |} NewScheme)) as (s & Heq & _).
    exists s. rewrite Heq. split; [done|by eapply Hknows].
Qed.
End scheme.

(** ** Feature gates ([pkg/feature/feature.go]) *)

Record FeatureSpec := { fs_Default : bool; fs_PreRelease : string }.

(** [featuregate]: a gate; [Add] "adds features to the featureGate", [Enabled] "returns true
    if the key is enabled". *)
Class FeatureGate `{K8s} := {
  Gate : Type;
  DefaultMutableFeatureGate : Gate;
  Gate_Add : gmap string FeatureSpec → Gate → Gate + error;
  Enabled : Gate → string → bool
}.

(** Without a setting from a flag, an added feature has its default. *)
Class FeatureGateLaws `{FeatureGate} : Prop := {
  Add_Enabled specs g' name spec :
    Gate_Add specs DefaultMutableFeatureGate = inl g' → specs !! name = Some spec → Enabled g' name = fs_Default spec
}.

Section features.
Context `{FeatureGate}.

Definition feature_specs : gmap string FeatureSpec :=
  {[ MaxUnavailableStatefulSet := {| fs_Default := true; fs_PreRelease := "BETA" |};
     StatefulSetSemanticRevisionComparison := {| fs_Default := true; fs_PreRelease := "BETA" |} ]}.

(** [init]: [runtime.Must] panics on an error. *)
Definition feature_init : option Gate :=
  match Gate_Add feature_specs DefaultMutableFeatureGate with inl g => Some g | inr _ => None end.

(** Both gates of the controller are open unless a flag closes them. *)
Lemma feature_init_enabled `{!FeatureGateLaws} g :
  feature_init = Some g →
  Enabled g MaxUnavailableStatefulSet = true ∧ Enabled g StatefulSetSemanticRevisionComparison = true.
Proof.
  unfold feature_init. destruct (Gate_Add _ _) as [g'|] eqn:Hadd; [|done]. intros [= <-].
  split; by rewrite (Add_Enabled _ _ _ {| fs_Default := true; fs_PreRelease := "BETA" |} Hadd).
Qed.
End features.
