(* ===== verification/DeepCopy.v ===== *)
(** * Deep copies ([api/apps/v1/zz_generated.deepcopy.go])

    The other files take a [DeepCopy] for the identity on values.  This file
    justifies it: here objects are laid out in a heap, with the pointers and slices
    of the Go structs, and a copy is shown to denote the same value in memory that
    the original does not reach. *)
From S2P Require Export Prelude Types.

(** ** Memory *)

Abbreviation loc := positive (only parsing).

(** A pointer to an [A], and a slice of [A]s (its backing array); [None] is nil. *)
Record ptr (A : Type) := Ptr { addr : option loc }.
Arguments Ptr {A}.
Arguments addr {A}.
Record slice (A : Type) := Slice { array : option loc }.
Arguments Slice {A}.
Arguments array {A}.

(** The layout of the imported structs, and what else the imported code allocates. *)
Class K8sLayouts := {
  MetaRep : Type;        (** [metav1.ObjectMeta] *)
  ListMetaRep : Type;    (** [metav1.ListMeta] *)
  SelectorRep : Type;    (** [metav1.LabelSelector] *)
  TemplateRep : Type;    (** [corev1.PodTemplateSpec] *)
  ClaimRep : Type;       (** [corev1.PersistentVolumeClaim] *)
  StrategyRep : Type;    (** [appsv1.StatefulSetUpdateStrategy] *)
  ConditionRep : Type;   (** [appsv1.StatefulSetCondition] *)
  OtherRep : Type
}.

Record TypeMeta := { tm_Kind : string; tm_APIVersion : string }.

Section layout.
Context `{K8sLayouts}.

Record SpecRep := {
  p_Replicas : ptr Z;
  p_Selector : ptr SelectorRep;
  p_Template : TemplateRep;
  p_VolumeClaimTemplates : slice ClaimRep;
  p_ServiceName : string;
  p_PodManagementPolicy : string;
  p_UpdateStrategy : StrategyRep;
  p_RevisionHistoryLimit : ptr Z;
  p_MinReadySeconds : Z;
  p_RetentionPolicy : ptr PersistentVolumeClaimRetentionPolicy;
  p_Ordinals : ptr StatefulSetOrdinals }.

Record StatusRep := {
  p_ObservedGeneration : Z;
  p_StatusReplicas : Z;
  p_ReadyReplicas : Z;
  p_CurrentReplicas : Z;
  p_UpdatedReplicas : Z;
  p_CurrentRevision : string;
  p_UpdateRevision : string;
  p_CollisionCount : ptr Z;
  p_Conditions : slice ConditionRep;
  p_AvailableReplicas : Z;
  p_StatusSelector : string }.

Record SetRep := {
  p_TypeMeta : TypeMeta; p_ObjectMeta : MetaRep; p_Spec : SpecRep; p_Status : StatusRep }.
Record SetListRep := {
  p_ListTypeMeta : TypeMeta; p_ListMeta : ListMetaRep; p_Items : slice SetRep }.

(** What a location holds. *)
Inductive cell :=
| CZero                                      (** allocated, not written yet *)
| CInt32 (n : Z)
| CSelector (s : SelectorRep)
| CClaims (l : list ClaimRep)
| CRetention (p : PersistentVolumeClaimRetentionPolicy)
| COrdinals (o : StatefulSetOrdinals)
| CConditions (l : list ConditionRep)
| CSpec (s : SpecRep)
| CStatus (s : StatusRep)
| CSet (s : SetRep)
| CSets (l : list SetRep)
| CSetList (l : SetListRep)
| CForeign (o : OtherRep).

End layout.
Abbreviation heap := (gmap loc cell) (only parsing).

Section memory.
Context `{K8sLayouts}.

(** Values that fill a location. *)
Class Cell (A : Type) := {
  cast : A → cell;
  uncast : cell → option A;
  uncast_cast a : uncast (cast a) = Some a
}.
#[export] Program Instance int32_Cell : Cell Z :=
  {| cast := CInt32; uncast c := match c with CInt32 n => Some n | _ => None end |}.
Solve Obligations with done.
#[export] Program Instance selector_Cell : Cell SelectorRep :=
  {| cast := CSelector; uncast c := match c with CSelector s => Some s | _ => None end |}.
Solve Obligations with done.
#[export] Program Instance claims_Cell : Cell (list ClaimRep) :=
  {| cast := CClaims; uncast c := match c with CClaims l => Some l | _ => None end |}.
Solve Obligations with done.
#[export] Program Instance retention_Cell : Cell PersistentVolumeClaimRetentionPolicy :=
  {| cast := CRetention; uncast c := match c with CRetention p => Some p | _ => None end |}.
Solve Obligations with done.
#[export] Program Instance ordinals_Cell : Cell StatefulSetOrdinals :=
  {| cast := COrdinals; uncast c := match c with COrdinals o => Some o | _ => None end |}.
Solve Obligations with done.
#[export] Program Instance conditions_Cell : Cell (list ConditionRep) :=
  {| cast := CConditions; uncast c := match c with CConditions l => Some l | _ => None end |}.
Solve Obligations with done.
#[export] Program Instance spec_Cell : Cell SpecRep :=
  {| cast := CSpec; uncast c := match c with CSpec s => Some s | _ => None end |}.
Solve Obligations with done.
#[export] Program Instance status_Cell : Cell StatusRep :=
  {| cast := CStatus; uncast c := match c with CStatus s => Some s | _ => None end |}.
Solve Obligations with done.
#[export] Program Instance set_Cell : Cell SetRep :=
  {| cast := CSet; uncast c := match c with CSet s => Some s | _ => None end |}.
Solve Obligations with done.
#[export] Program Instance sets_Cell : Cell (list SetRep) :=
  {| cast := CSets; uncast c := match c with CSets l => Some l | _ => None end |}.
Solve Obligations with done.
#[export] Program Instance setlist_Cell : Cell SetListRep :=
  {| cast := CSetList; uncast c := match c with CSetList l => Some l | _ => None end |}.
Solve Obligations with done.

(** ** Programs on memory: [None] is the dereference of a pointer to nothing *)

Definition copyM (A : Type) : Type := heap → option (A * heap).
#[export] Instance copyM_ret : MRet copyM := λ A a h, Some (a, h).
#[export] Instance copyM_bind : MBind copyM := λ A B f m h, '(a, h) ← m h; f a h.

Definition load `{Cell A} (l : loc) : copyM A := λ h, c ← h !! l; a ← uncast c; Some (a, h).
(** [new(T)] and [make]: memory that is not used yet. *)
Definition alloc : copyM loc := λ h, let l := fresh (dom h) in Some (l, <[l := CZero]> h).
Definition store `{Cell A} (l : loc) (a : A) : copyM unit := λ h,
  if bool_decide (l ∈ dom h) then Some (tt, <[l := cast a]> h) else None.

(** [if in != nil]: [new(T)], then the copy of what [in] points to is written there. *)
Definition copy_ptr `{Cell A} (DeepCopyInto : A → copyM A) (inp : ptr A) : copyM (ptr A) :=
  match addr inp with
  | None => mret (Ptr None)
  | Some l =>
      out ← alloc;
      v ← load l;
      v ← DeepCopyInto v;
      store out v;;
      mret (Ptr (Some out))
  end.

Fixpoint copy_elements {A} (DeepCopyInto : A → copyM A) (l : list A) : copyM (list A) :=
  match l with
  | [] => mret []
  | a :: l => a ← DeepCopyInto a; l ← copy_elements DeepCopyInto l; mret (a :: l)
  end.

(** [if in != nil]: [make] with the same length, then the copy of each element. *)
Definition copy_slice {A} `{Cell (list A)} (DeepCopyInto : A → copyM A) (inp : slice A) : copyM (slice A) :=
  match array inp with
  | None => mret (Slice None)
  | Some l =>
      out ← alloc;
      v ← load l;
      v ← copy_elements DeepCopyInto v;
      store out v;;
      mret (Slice (Some out))
  end.

(** A plain assignment, for a type without pointers. *)
Definition assign {A} (a : A) : copyM A := mret a.
End memory.

(** ** The generated functions *)

(** [DeepCopyInto] of the imported structs. *)
Class K8sCopies `{K8sLayouts} := {
  ObjectMeta_DeepCopyInto : MetaRep → copyM MetaRep;
  ListMeta_DeepCopyInto : ListMetaRep → copyM ListMetaRep;
  LabelSelector_DeepCopyInto : SelectorRep → copyM SelectorRep;
  PodTemplateSpec_DeepCopyInto : TemplateRep → copyM TemplateRep;
  PersistentVolumeClaim_DeepCopyInto : ClaimRep → copyM ClaimRep;
  StatefulSetUpdateStrategy_DeepCopyInto : StrategyRep → copyM StrategyRep;
  StatefulSetCondition_DeepCopyInto : ConditionRep → copyM ConditionRep
}.

Section functions.
Context `{K8sCopies}.

(** The first statement, [*out = *in], gives the fields without pointers. *)
Definition XStatefulSetSpec_DeepCopyInto (inp : SpecRep) : copyM SpecRep :=
  replicas ← copy_ptr assign (p_Replicas inp);
  sel ← copy_ptr LabelSelector_DeepCopyInto (p_Selector inp);
  template ← PodTemplateSpec_DeepCopyInto (p_Template inp);
  claims ← copy_slice PersistentVolumeClaim_DeepCopyInto (p_VolumeClaimTemplates inp);
  strategy ← StatefulSetUpdateStrategy_DeepCopyInto (p_UpdateStrategy inp);
  limit ← copy_ptr assign (p_RevisionHistoryLimit inp);
  policy ← copy_ptr assign (p_RetentionPolicy inp);
  ordinals ← copy_ptr assign (p_Ordinals inp);
  mret {| p_Replicas := replicas; p_Selector := sel; p_Template := template;
          p_VolumeClaimTemplates := claims; p_ServiceName := p_ServiceName inp;
          p_PodManagementPolicy := p_PodManagementPolicy inp; p_UpdateStrategy := strategy;
          p_RevisionHistoryLimit := limit; p_MinReadySeconds := p_MinReadySeconds inp;
          p_RetentionPolicy := policy; p_Ordinals := ordinals |}.

Definition XStatefulSetStatus_DeepCopyInto (inp : StatusRep) : copyM StatusRep :=
  collisions ← copy_ptr assign (p_CollisionCount inp);
  conditions ← copy_slice StatefulSetCondition_DeepCopyInto (p_Conditions inp);
  mret {| p_ObservedGeneration := p_ObservedGeneration inp; p_StatusReplicas := p_StatusReplicas inp;
          p_ReadyReplicas := p_ReadyReplicas inp; p_CurrentReplicas := p_CurrentReplicas inp;
          p_UpdatedReplicas := p_UpdatedReplicas inp; p_CurrentRevision := p_CurrentRevision inp;
          p_UpdateRevision := p_UpdateRevision inp; p_CollisionCount := collisions;
          p_Conditions := conditions; p_AvailableReplicas := p_AvailableReplicas inp;
          p_StatusSelector := p_StatusSelector inp |}.

Definition XStatefulSet_DeepCopyInto (inp : SetRep) : copyM SetRep :=
  m ← ObjectMeta_DeepCopyInto (p_ObjectMeta inp);
  spec ← XStatefulSetSpec_DeepCopyInto (p_Spec inp);
  status ← XStatefulSetStatus_DeepCopyInto (p_Status inp);
  mret {| p_TypeMeta := p_TypeMeta inp; p_ObjectMeta := m; p_Spec := spec; p_Status := status |}.

Definition XStatefulSetList_DeepCopyInto (inp : SetListRep) : copyM SetListRep :=
  m ← ListMeta_DeepCopyInto (p_ListMeta inp);
  items ← copy_slice XStatefulSet_DeepCopyInto (p_Items inp);
  mret {| p_ListTypeMeta := p_ListTypeMeta inp; p_ListMeta := m; p_Items := items |}.

Definition XStatefulSetSpec_DeepCopy : ptr SpecRep → copyM (ptr SpecRep) :=
  copy_ptr XStatefulSetSpec_DeepCopyInto.
Definition XStatefulSetStatus_DeepCopy : ptr StatusRep → copyM (ptr StatusRep) :=
  copy_ptr XStatefulSetStatus_DeepCopyInto.
Definition XStatefulSet_DeepCopy : ptr SetRep → copyM (ptr SetRep) :=
  copy_ptr XStatefulSet_DeepCopyInto.
Definition XStatefulSetList_DeepCopy : ptr SetListRep → copyM (ptr SetListRep) :=
  copy_ptr XStatefulSetList_DeepCopyInto.

(** The [runtime.Object] returned is nil, and not an interface that holds a nil
    pointer, when the copy is nil. *)
Definition XStatefulSet_DeepCopyObject (inp : ptr SetRep) : copyM (option (ptr SetRep)) :=
  c ← XStatefulSet_DeepCopy inp;
  mret (match addr c with Some _ => Some c | None => None end).
Definition XStatefulSetList_DeepCopyObject (inp : ptr SetListRep) : copyM (option (ptr SetListRep)) :=
  c ← XStatefulSetList_DeepCopy inp;
  mret (match addr c with Some _ => Some c | None => None end).
End functions.

(** ** What a piece of memory denotes

    [repr h a v d]: in [h], [a] denotes the value [v], and reaches exactly the
    locations [d].  It depends on these locations only. *)

Class Repr `{K8sLayouts} (A V : Type) := repr : heap → A → V → gset loc → Prop.
Class ReprLaws `{K8sLayouts} (A V : Type) `{!Repr A V} : Prop := {
  repr_local h h' (a : A) (v : V) d :
    repr h a v d → (∀ l, l ∈ d → h' !! l = h !! l) → repr h' a v d;
  repr_dom h (a : A) (v : V) d : repr h a v d → d ⊆ dom h
}.

(** A deep copy: it denotes the same value with memory that was not in use, and
    leaves the memory in use alone. *)
Class Copies `{K8sLayouts} {A} (V : Type) `{!Repr A V} (f : A → copyM A) : Prop :=
  copies h (a : A) (v : V) d :
    repr h a v d → ∃ a' h' d', f a h = Some (a', h') ∧ h ⊆ h' ∧ repr h' a' v d' ∧ d' ## dom h.

Section denotations.
Context `{K8sLayouts}.

(** A type without pointers. *)
Definition plain_repr {A} : Repr A A := λ h a v d, a = v ∧ d = ∅.
#[export] Instance int32_repr : Repr Z Z := plain_repr.
#[export] Instance retention_repr :
  Repr PersistentVolumeClaimRetentionPolicy PersistentVolumeClaimRetentionPolicy := plain_repr.
#[export] Instance ordinals_repr : Repr StatefulSetOrdinals StatefulSetOrdinals := plain_repr.

Fixpoint elements_repr `{Repr A V} (h : heap) (l : list A) (vs : list V) (d : gset loc) : Prop :=
  match l, vs with
  | [], [] => d = ∅
  | a :: l, v :: vs => ∃ d1 d2, repr h a v d1 ∧ elements_repr h l vs d2 ∧ d = d1 ∪ d2
  | _, _ => False
  end.
#[export] Instance list_repr `{Repr A V} : Repr (list A) (list V) := elements_repr.

#[export] Instance ptr_repr `{Cell A, !Repr A V} : Repr (ptr A) (option V) := λ h p v d,
  match addr p, v with
  | None, None => d = ∅
  | Some l, Some v => ∃ a d0, h !! l = Some (cast a) ∧ repr h a v d0 ∧ d = {[l]} ∪ d0
  | _, _ => False
  end.
(** A nil slice has no elements. *)
#[export] Instance slice_repr `{!Cell (list A), !Repr A V} : Repr (slice A) (list V) := λ h s vs d,
  match array s with
  | None => vs = [] ∧ d = ∅
  | Some l => ∃ a d0, h !! l = Some (cast a) ∧ elements_repr h a vs d0 ∧ d = {[l]} ∪ d0
  end.

(** *** They are local *)

Lemma repr_mono `{ReprLaws A V} h h' (a : A) (v : V) d : repr h a v d → h ⊆ h' → repr h' a v d.
Proof.
  intros Hr Hsub. eapply repr_local; [done|]. intros l Hl.
  pose proof (repr_dom _ _ _ _ Hr l Hl) as [c Hc]%elem_of_dom. rewrite Hc. by eapply lookup_weaken.
Qed.

Lemma plain_laws {A} : @ReprLaws _ A A plain_repr.
Proof. split; [done|]. intros h a v d [_ ->]. set_solver. Qed.
#[export] Instance int32_laws : ReprLaws Z Z := plain_laws.
#[export] Instance retention_laws : ReprLaws _ PersistentVolumeClaimRetentionPolicy := plain_laws.
#[export] Instance ordinals_laws : ReprLaws _ StatefulSetOrdinals := plain_laws.

#[export] Instance list_laws `{ReprLaws A V} : ReprLaws (list A) (list V).
Proof.
  unfold repr, list_repr. split; intros h.
  - intros h' l. induction l as [|a l IH]; intros [|v vs] d; simpl; try done.
    intros (d1 & d2 & Hr & Hl & ->) Heq. exists d1, d2. split_and!; [|apply IH; set_solver|done].
    eapply repr_local; [done|]. set_solver.
  - intros l. induction l as [|a l IH]; intros [|v vs] d; simpl; try done; [set_solver|].
    intros (d1 & d2 & Hr%repr_dom & Hl%IH & ->). set_solver.
Qed.

(** A location, and what it points to. *)
Lemma cell_local `{!Cell A, !Repr A V, !ReprLaws A V} h h' l (a : A) (v : V) d0 :
  h !! l = Some (cast a) → repr h a v d0 → (∀ l', l' ∈ {[l]} ∪ d0 → h' !! l' = h !! l') →
  h' !! l = Some (cast a) ∧ repr h' a v d0.
Proof.
  intros Hl Hr Heq. split; [by rewrite Heq by set_solver|]. eapply repr_local; [done|]. set_solver.
Qed.
Lemma cell_dom `{!Cell A, !Repr A V, !ReprLaws A V} h l (a : A) (v : V) d0 :
  h !! l = Some (cast a) → repr h a v d0 → {[l]} ∪ d0 ⊆ dom h.
Proof. intros Hl%elem_of_dom_2 Hr%repr_dom. set_solver. Qed.

#[export] Instance ptr_laws `{!Cell A, !Repr A V, !ReprLaws A V} : ReprLaws (ptr A) (option V).
Proof.
  split; unfold repr, ptr_repr.
  - intros h h' p v d. destruct (addr p) as [l|], v as [v|]; try done.
    intros (a & d0 & Hl & Hr & ->) Heq. destruct (cell_local _ _ _ _ _ _ Hl Hr Heq). by exists a, d0.
  - intros h p v d. destruct (addr p) as [l|], v as [v|]; try done; [|set_solver].
    intros (a & d0 & Hl & Hr & ->). by eapply cell_dom.
Qed.
#[export] Instance slice_laws `{!Cell (list A), !Repr A V, !ReprLaws A V} : ReprLaws (slice A) (list V).
Proof.
  split; unfold repr, slice_repr.
  - intros h h' s vs d. destruct (array s) as [l|]; [|done].
    intros (a & d0 & Hl & Hr & ->) Heq.
    destruct (cell_local (A := list A) (V := list V) _ _ _ _ _ _ Hl Hr Heq). by exists a, d0.
  - intros h s vs d. destruct (array s) as [l|]; [|intros [_ ->]; set_solver].
    intros (a & d0 & Hl & Hr & ->). by eapply (cell_dom (A := list A) (V := list V)).
Qed.
End denotations.

(** ** Copying *)

Section copying.
Context `{K8sLayouts}.

(** [m] runs from [h] without losing memory. *)
Definition yields {A} (h : heap) (m : copyM A) (Φ : heap → A → Prop) : Prop :=
  ∃ a h', m h = Some (a, h') ∧ h ⊆ h' ∧ Φ h' a.

Lemma yields_ret {A} h (a : A) (Φ : heap → A → Prop) : Φ h a → yields h (mret a) Φ.
Proof. intros HΦ. by exists a, h. Qed.

(** One copy of a field: everything is compared with the initial memory [h0]. *)
Lemma yields_copy `{!Repr A V, !ReprLaws A V} (f : A → copyM A) `{!Copies V f} {B}
    h0 h (a : A) (v : V) d (k : A → copyM B) Φ :
  repr h0 a v d → h0 ⊆ h →
  (∀ h1 a' d', h ⊆ h1 → h0 ⊆ h1 → repr h1 a' v d' → d' ## dom h0 → yields h1 (k a') Φ) →
  yields h (f a ≫= k) Φ.
Proof.
  intros Hr Hsub Hk.
  destruct (copies h a v d) as (a' & h1 & d' & Hrun & Hsub1 & Hr' & Hd'); [by eapply repr_mono|].
  destruct (Hk h1 a' d') as (b & h' & Hrun' & Hsub' & HΦ); [done|by etrans|done| |].
  { apply subseteq_dom in Hsub. set_solver. }
  exists b, h'. split_and!; [|by etrans|done].
  unfold mbind, copyM_bind. rewrite Hrun. exact Hrun'.
Qed.

#[export] Instance assign_copies {A} : @Copies _ A A plain_repr assign.
Proof. intros h a v d [-> ->]. exists v, h, ∅. split_and!; [done|done|done|set_solver]. Qed.
#[export] Instance assign_int32 : Copies Z (A := Z) assign := assign_copies.
#[export] Instance assign_retention :
  Copies PersistentVolumeClaimRetentionPolicy (A := PersistentVolumeClaimRetentionPolicy) assign := assign_copies.
#[export] Instance assign_ordinals :
  Copies StatefulSetOrdinals (A := StatefulSetOrdinals) assign := assign_copies.

#[export] Instance copy_elements_copies `{!Repr A V, !ReprLaws A V} (f : A → copyM A) `{!Copies V f} :
  Copies (list V) (copy_elements f).
Proof.
  intros h l. revert h. induction l as [|a l IH]; intros h [|v vs] d; try done.
  - intros Hd. exists [], h, ∅. split_and!; [done|done|done|set_solver].
  - intros (d1 & d2 & Hr & Hl & ->).
    destruct (copies h a v d1 Hr) as (a' & h1 & d1' & Hrun1 & Hsub1 & Hr1 & Hd1).
    destruct (IH h1 vs d2) as (l' & h2 & d2' & Hrun2 & Hsub2 & Hr2 & Hd2); [by eapply repr_mono|].
    exists (a' :: l'), h2, (d1' ∪ d2'). split_and!.
    + cbn [copy_elements]. unfold mbind, copyM_bind. rewrite Hrun1. cbn. by rewrite Hrun2.
    + by etrans.
    + exists d1', d2'. split_and!; [by eapply repr_mono|exact Hr2|done].
    + apply subseteq_dom in Hsub1. set_solver.
Qed.

(** Copying what a location holds into a new location. *)
Lemma copy_cell `{!Cell A, !Repr A V, !ReprLaws A V} (f : A → copyM A) `{!Copies V f} {B}
    (ret : loc → B) h l (a : A) (v : V) d :
  h !! l = Some (cast a) → repr h a v d →
  ∃ out h' a' d', (out ← alloc; w ← load l; w ← f w; store out w;; mret (ret out)) h = Some (ret out, h') ∧
    h ⊆ h' ∧ h' !! out = Some (cast a') ∧ repr h' a' v d' ∧ ({[out]} ∪ d') ## dom h.
Proof.
  intros Hl Hr. set (out := fresh (dom h)).
  assert (Hfresh : out ∉ dom h) by apply is_fresh.
  set (h1 := <[out := CZero]> h).
  assert (Hsub1 : h ⊆ h1) by (apply insert_subseteq; by apply not_elem_of_dom).
  destruct (copies h1 a v d) as (a' & h2 & d' & Hrun & Hsub2 & Hr2 & Hd2); [by eapply repr_mono|].
  assert (Hout : out ∉ d') by (unfold h1 in Hd2; rewrite dom_insert in Hd2; set_solver).
  exists out, (<[out := cast a']> h2), a', d'. split_and!.
  - unfold mbind, copyM_bind, alloc, load, store. fold out. cbn. fold h1.
    rewrite (lookup_weaken _ _ _ _ Hl Hsub1). cbn. rewrite uncast_cast. cbn. rewrite Hrun. cbn.
    rewrite bool_decide_eq_true_2; [done|]. apply subseteq_dom in Hsub2. unfold h1 in Hsub2.
    rewrite dom_insert in Hsub2. set_solver.
  - apply map_subseteq_spec. intros l' c Hc.
    rewrite lookup_insert_ne by (intros <-; apply Hfresh; by eapply elem_of_dom_2).
    eapply lookup_weaken; [|exact Hsub2]. by eapply lookup_weaken.
  - by rewrite lookup_insert_eq.
  - eapply repr_local; [exact Hr2|]. intros l' Hl'. by rewrite lookup_insert_ne by set_solver.
  - unfold h1 in Hd2. rewrite dom_insert in Hd2. set_solver.
Qed.

#[export] Instance copy_ptr_copies `{!Cell A, !Repr A V, !ReprLaws A V} (f : A → copyM A) `{!Copies V f} :
  Copies (option V) (copy_ptr f).
Proof.
  intros h [[l|]] [v|] d; try done.
  - intros (a & d0 & Hl & Hr & ->).
    destruct (copy_cell f (λ o, @Ptr A (Some o)) h l a v d0 Hl Hr) as (out & h' & a' & d' & Hrun & Hsub & Hout & Hr' & Hd').
    exists (Ptr (Some out)), h', ({[out]} ∪ d'). split_and!; [exact Hrun|done| |done]. by exists a', d'.
  - intros Hd. exists (Ptr None), h, ∅. split_and!; [done|done|done|set_solver].
Qed.

#[export] Instance copy_slice_copies `{!Cell (list A), !Repr A V, !ReprLaws A V} (f : A → copyM A) `{!Copies V f} :
  Copies (list V) (copy_slice f).
Proof.
  intros h [[l|]] vs d.
  - intros (a & d0 & Hl & Hr & ->).
    destruct (copy_cell (copy_elements f) (λ o, @Slice A (Some o)) h l a vs d0 Hl Hr)
      as (out & h' & a' & d' & Hrun & Hsub & Hout & Hr' & Hd').
    exists (Slice (Some out)), h', ({[out]} ∪ d'). split_and!; [exact Hrun|done| |done]. by exists a', d'.
  - intros [-> ->]. exists (Slice None), h, ∅. split_and!; [done|done|done|set_solver].
Qed.

(** An object and its copy do not share memory: writing to either leaves the other. *)
Lemma copies_apart `{!Repr A V, !ReprLaws A V} (f : A → copyM A) `{!Copies V f} h a (v : V) d :
  repr h a v d →
  ∃ a' h' d', f a h = Some (a', h') ∧ repr h' a v d ∧ repr h' a' v d' ∧ d ## d' ∧
    (∀ l c, l ∈ d' → repr (<[l := c]> h') a v d) ∧ (∀ l c, l ∈ d → repr (<[l := c]> h') a' v d').
Proof.
  intros Hr. destruct (copies h a v d Hr) as (a' & h' & d' & Hrun & Hsub & Hr' & Hd').
  assert (repr h' a v d) as Hr2 by by eapply repr_mono.
  pose proof (repr_dom _ _ _ _ Hr) as Hdom. exists a', h', d'. split_and!; try done.
  - set_solver.
  - intros l c Hl. eapply repr_local; [exact Hr2|]. intros l' Hl'. rewrite lookup_insert_ne; set_solver.
  - intros l c Hl. eapply repr_local; [exact Hr'|]. intros l' Hl'. rewrite lookup_insert_ne; set_solver.
Qed.
End copying.

(** ** The copies of the generated functions *)

(** The imported structs: what they denote, and that their [DeepCopyInto] copies. *)
Class Imported `{K8sLayouts} (A V : Type) (f : A → copyM A) := {
  imported_repr :: Repr A V;
  imported_laws :: ReprLaws A V;
  imported_copies :: Copies V f
}.

Section sets.
Context `{K8sCopies} (ListMeta : Type).
Context `{!Imported MetaRep ObjectMeta ObjectMeta_DeepCopyInto,
          !Imported ListMetaRep ListMeta ListMeta_DeepCopyInto,
          !Imported SelectorRep LabelSelector LabelSelector_DeepCopyInto,
          !Imported TemplateRep PodTemplateSpec PodTemplateSpec_DeepCopyInto,
          !Imported ClaimRep PersistentVolumeClaim PersistentVolumeClaim_DeepCopyInto,
          !Imported StrategyRep StatefulSetUpdateStrategy StatefulSetUpdateStrategy_DeepCopyInto,
          !Imported ConditionRep StatefulSetCondition StatefulSetCondition_DeepCopyInto}.

#[export] Instance spec_repr : Repr SpecRep XStatefulSetSpec := λ h s v d,
  ∃ d1 d2 d3 d4 d5 d6 d7 d8,
    repr h (p_Replicas s) (Replicas v) d1 ∧ repr h (p_Selector s) (Selector v) d2 ∧
    repr h (p_Template s) (Template v) d3 ∧
    repr h (p_VolumeClaimTemplates s) (VolumeClaimTemplates v) d4 ∧
    repr h (p_UpdateStrategy s) (UpdateStrategy v) d5 ∧
    repr h (p_RevisionHistoryLimit s) (RevisionHistoryLimit v) d6 ∧
    repr h (p_RetentionPolicy s) (RetentionPolicy v) d7 ∧ repr h (p_Ordinals s) (Ordinals v) d8 ∧
    p_ServiceName s = ServiceName v ∧ p_PodManagementPolicy s = PodManagementPolicy v ∧
    p_MinReadySeconds s = MinReadySeconds v ∧ 
    d = d1 ∪ d2 ∪ d3 ∪ d4 ∪ d5 ∪ d6 ∪ d7 ∪ d8.

#[export] Instance status_repr : Repr StatusRep XStatefulSetStatus := λ h s v d,
  ∃ d1 d2,
    repr h (p_CollisionCount s) (CollisionCount v) d1 ∧ repr h (p_Conditions s) (st_Conditions v) d2 ∧
    p_ObservedGeneration s = ObservedGeneration v ∧ p_StatusReplicas s = st_Replicas v ∧
    p_ReadyReplicas s = ReadyReplicas v ∧ p_CurrentReplicas s = CurrentReplicas v ∧
    p_UpdatedReplicas s = UpdatedReplicas v ∧ p_CurrentRevision s = CurrentRevision v ∧
    p_UpdateRevision s = UpdateRevision v ∧ p_AvailableReplicas s = AvailableReplicas v ∧
    p_StatusSelector s = st_Selector v ∧ d = d1 ∪ d2.

#[export] Instance set_repr : Repr SetRep (TypeMeta * XStatefulSet) := λ h s v d,
  ∃ d1 d2 d3,
    repr h (p_ObjectMeta s) (set_meta v.2) d1 ∧ repr h (p_Spec s) (Spec v.2) d2 ∧
    repr h (p_Status s) (Status v.2) d3 ∧ p_TypeMeta s = v.1 ∧ d = d1 ∪ d2 ∪ d3.

#[export] Instance setlist_repr : Repr SetListRep (TypeMeta * ListMeta * list (TypeMeta * XStatefulSet)) :=
  λ h s v d,
  ∃ d1 d2,
    repr h (p_ListMeta s) v.1.2 d1 ∧ repr h (p_Items s) v.2 d2 ∧ p_ListTypeMeta s = v.1.1 ∧ d = d1 ∪ d2.

(** The fields are local, so the struct is. *)
Ltac fields_local Heq := split_and!; try done; (eapply repr_local; [eassumption|]; intros l Hl; apply Heq; set_solver).
Ltac fields_dom :=
  repeat match goal with H : repr _ _ _ _ |- _ => apply repr_dom in H end; set_solver.

#[export] Instance spec_laws : ReprLaws SpecRep XStatefulSetSpec.
Proof.
  split.
  - intros h h' s v d (d1 & d2 & d3 & d4 & d5 & d6 & d7 & d8 & ? & ? & ? & ? & ? & ? & ? & ? & ? & ? & ? & ->) Heq.
    exists d1, d2, d3, d4, d5, d6, d7, d8. fields_local Heq.
  - intros h s v d (d1 & d2 & d3 & d4 & d5 & d6 & d7 & d8 & ? & ? & ? & ? & ? & ? & ? & ? & ? & ? & ? & ->).
    fields_dom.
Qed.
#[export] Instance status_laws : ReprLaws StatusRep XStatefulSetStatus.
Proof.
  split.
  - intros h h' s v d (d1 & d2 & ? & ? & ? & ? & ? & ? & ? & ? & ? & ? & ? & ->) Heq.
    exists d1, d2. fields_local Heq.
  - intros h s v d (d1 & d2 & ? & ? & ? & ? & ? & ? & ? & ? & ? & ? & ? & ->). fields_dom.
Qed.
#[export] Instance set_laws : ReprLaws SetRep (TypeMeta * XStatefulSet).
Proof.
  split.
  - intros h h' s v d (d1 & d2 & d3 & ? & ? & ? & ? & ->) Heq. exists d1, d2, d3. fields_local Heq.
  - intros h s v d (d1 & d2 & d3 & ? & ? & ? & ? & ->). fields_dom.
Qed.
#[export] Instance setlist_laws : ReprLaws SetListRep (TypeMeta * ListMeta * list (TypeMeta * XStatefulSet)).
Proof.
  split.
  - intros h h' s v d (d1 & d2 & ? & ? & ? & ->) Heq. exists d1, d2. fields_local Heq.
  - intros h s v d (d1 & d2 & ? & ? & ? & ->). fields_dom.
Qed.

(** A struct is copied field by field. *)
Lemma Copies_yields {A V} `{!Repr A V} (f : A → copyM A) :
  (∀ h a v d, repr h a v d → yields h (f a) (λ h' a', ∃ d', repr h' a' v d' ∧ d' ## dom h)) → Copies V f.
Proof.
  intros Hf h a v d Hr. destruct (Hf h a v d Hr) as (a' & h' & Hrun & Hsub & d' & Hr' & Hd').
  by exists a', h', d'.
Qed.
Ltac copy_field :=
  lazymatch goal with
  | Hr0 : repr ?h0 ?a _ _ |- yields ?h (?f ?a ≫= _) _ =>
      refine (yields_copy f h0 h a _ _ _ _ Hr0 _ _);
      [first [reflexivity|assumption]|];
      let h := fresh "h" in let a := fresh "a" in let d := fresh "d'" in
      intros h a d ? ? ? ?
  end.
(** At the end the fields are still what they were when they were copied. *)
Ltac fields_kept := split_and!; try done; (eapply repr_mono; [eassumption|]; repeat (etrans; [eassumption|]); done).

#[export] Instance spec_copies : Copies XStatefulSetSpec XStatefulSetSpec_DeepCopyInto.
Proof.
  apply Copies_yields.
  intros h s v d (d1 & d2 & d3 & d4 & d5 & d6 & d7 & d8 & ? & ? & ? & ? & ? & ? & ? & ? & ? & ? & ? & ->).
  unfold XStatefulSetSpec_DeepCopyInto. do 8 copy_field. apply yields_ret. eexists. split.
  - eexists _, _, _, _, _, _, _, _. fields_kept.
  - set_solver.
Qed.
#[export] Instance status_copies : Copies XStatefulSetStatus XStatefulSetStatus_DeepCopyInto.
Proof.
  apply Copies_yields.
  intros h s v d (d1 & d2 & ? & ? & ? & ? & ? & ? & ? & ? & ? & ? & ? & ->).
  unfold XStatefulSetStatus_DeepCopyInto. do 2 copy_field. apply yields_ret. eexists. split.
  - eexists _, _. fields_kept.
  - set_solver.
Qed.
#[export] Instance set_copies : Copies (TypeMeta * XStatefulSet) XStatefulSet_DeepCopyInto.
Proof.
  apply Copies_yields. intros h s v d (d1 & d2 & d3 & ? & ? & ? & ? & ->).
  unfold XStatefulSet_DeepCopyInto. do 3 copy_field. apply yields_ret. eexists. split.
  - eexists _, _, _. fields_kept.
  - set_solver.
Qed.
#[export] Instance setlist_copies :
  Copies (TypeMeta * ListMeta * list (TypeMeta * XStatefulSet)) XStatefulSetList_DeepCopyInto.
Proof.
  apply Copies_yields. intros h s v d (d1 & d2 & ? & ? & ? & ->).
  unfold XStatefulSetList_DeepCopyInto. do 2 copy_field. apply yields_ret. eexists. split.
  - eexists _, _. fields_kept.
  - set_solver.
Qed.

(** C20: [DeepCopy] makes an independent object.  For a set in memory, whatever
    pointers its fields are and whatever they share, the copy denotes the same value
    (its type, metadata, specification and status), the original is as it was, no
    location is reachable from both, and a write to any location of one leaves the
    other as it is; the copy of a nil pointer is nil, and so is the object
    [DeepCopyObject] returns. *)
Theorem XStatefulSet_DeepCopy_independent h (p : ptr SetRep) (v : option (TypeMeta * XStatefulSet)) d :
  repr h p v d →
  ∃ p' h' d',
    XStatefulSet_DeepCopy p h = Some (p', h') ∧
    XStatefulSet_DeepCopyObject p h = Some ((λ _, p') <$> v, h') ∧
    repr h' p v d ∧ repr h' p' v d' ∧ d ## d' ∧
    (∀ l c, l ∈ d' → repr (<[l := c]> h') p v d) ∧ (∀ l c, l ∈ d → repr (<[l := c]> h') p' v d').
Proof.
  intros Hr. destruct (copies_apart XStatefulSet_DeepCopy h p v d Hr)
    as (p' & h' & d' & Hrun & Hp & Hp' & Hapart & Hw & Hw').
  exists p', h', d'. split_and!; try done.
  unfold XStatefulSet_DeepCopyObject, mbind, copyM_bind. rewrite Hrun. cbn. f_equal. f_equal.
  destruct p' as [[l|]], v as [v|]; try done; by destruct Hp'.
Qed.

(** The same for lists of sets, and for specifications and statuses of their own. *)
Lemma XStatefulSetList_DeepCopy_copies :
  Copies (option (TypeMeta * ListMeta * list (TypeMeta * XStatefulSet))) XStatefulSetList_DeepCopy.
Proof. apply _. Qed.
Lemma XStatefulSetSpec_DeepCopy_copies : Copies (option XStatefulSetSpec) XStatefulSetSpec_DeepCopy.
Proof. apply _. Qed.
Lemma XStatefulSetStatus_DeepCopy_copies : Copies (option XStatefulSetStatus) XStatefulSetStatus_DeepCopy.
Proof. apply _. Qed.
End sets.
