(* ===== verification/ApplyConfig.v ===== *)
(** * Apply configurations ([client-go/applyconfiguration/apps/v1])

    The builders of declarative configurations.  A method changes the object its
    receiver points to and returns the receiver, so chained calls share one object;
    the metadata is allocated when it is first needed, and maps are filled in place.
    Objects live in a heap here; a pointer to a fresh copy of a scalar argument
    ([&value]), which nothing else can reach, is the value.  A slice is the list of
    its elements: the builders only append to their own. *)
From S2P Require Export Boundary Scheme.

Abbreviation loc := positive (only parsing).

(** The imported structs: elements of the lists of a configuration. *)
Class ImportedConfigs := {
  OwnerRefAC : Type;      (** [metav1.OwnerReferenceApplyConfiguration] *)
  ClaimAC : Type;         (** [corev1.PersistentVolumeClaimApplyConfiguration] *)
  ConditionAC : Type      (** [appsv1.StatefulSetConditionApplyConfiguration] *)
}.

Section records.
Context `{ImportedConfigs}.

(** ** The structs

    [M] is a map of labels or annotations: a location here, a value in the abstract
    view; [P] is the embedded metadata: a pointer, or its contents.  Pointers to
    imported structs are locations. *)

Record ObjectMetaApplyConfiguration (M : Type) := {
  m_Name : option string;
  m_GenerateName : option string;
  m_Namespace : option string;
  m_UID : option string;
  m_ResourceVersion : option string;
  m_Generation : option Z;
  m_CreationTimestamp : option Time;
  m_DeletionTimestamp : option Time;
  m_DeletionGracePeriodSeconds : option Z;
  m_Labels : M;
  m_Annotations : M;
  m_OwnerReferences : list OwnerRefAC;
  m_Finalizers : list string
}.
Record XStatefulSetApplyConfiguration (P : Type) := {
  a_Kind : option string;
  a_APIVersion : option string;
  a_ObjectMeta : option P;
  a_Spec : option loc;
  a_Status : option loc
}.
Record XStatefulSetSpecApplyConfiguration := {
  s_Replicas : option Z;
  s_Selector : option loc;
  s_Template : option loc;
  s_VolumeClaimTemplates : list ClaimAC;
  s_ServiceName : option string;
  s_PodManagementPolicy : option string;
  s_UpdateStrategy : option loc;
  s_RevisionHistoryLimit : option Z;
  s_MinReadySeconds : option Z;
  s_RetentionPolicy : option loc;
  s_Ordinals : option loc
}.
Record XStatefulSetStatusApplyConfiguration := {
  t_ObservedGeneration : option Z;
  t_Replicas : option Z;
  t_ReadyReplicas : option Z;
  t_CurrentReplicas : option Z;
  t_UpdatedReplicas : option Z;
  t_CurrentRevision : option string;
  t_UpdateRevision : option string;
  t_CollisionCount : option Z;
  t_Conditions : list ConditionAC;
  t_AvailableReplicas : option Z;
  t_Selector : option string
}.

(** What a location holds. *)
Inductive config_cell :=
| CConfig (c : XStatefulSetApplyConfiguration loc)
| CMeta (m : ObjectMetaApplyConfiguration (option loc))
| CMap (m : gmap string string)
| CSpecConfig (s : XStatefulSetSpecApplyConfiguration)
| CStatusConfig (s : XStatefulSetStatusApplyConfiguration).
End records.
Arguments m_Name {_ M}.
Arguments m_GenerateName {_ M}.
Arguments m_Namespace {_ M}.
Arguments m_UID {_ M}.
Arguments m_ResourceVersion {_ M}.
Arguments m_Generation {_ M}.
Arguments m_CreationTimestamp {_ M}.
Arguments m_DeletionTimestamp {_ M}.
Arguments m_DeletionGracePeriodSeconds {_ M}.
Arguments m_Labels {_ M}.
Arguments m_Annotations {_ M}.
Arguments m_OwnerReferences {_ M}.
Arguments m_Finalizers {_ M}.
Arguments a_Kind {P}.
Arguments a_APIVersion {P}.
Arguments a_ObjectMeta {P}.
Arguments a_Spec {P}.
Arguments a_Status {P}.

(** ** Assignments to one field *)

Section setters.
Context `{ImportedConfigs}.

Definition set_m_Name {M} (v : option string) (b : ObjectMetaApplyConfiguration M) : ObjectMetaApplyConfiguration M :=
  {| m_Name := v; m_GenerateName := m_GenerateName b; m_Namespace := m_Namespace b; m_UID := m_UID b;
     m_ResourceVersion := m_ResourceVersion b; m_Generation := m_Generation b;
     m_CreationTimestamp := m_CreationTimestamp b; m_DeletionTimestamp := m_DeletionTimestamp b;
     m_DeletionGracePeriodSeconds := m_DeletionGracePeriodSeconds b; m_Labels := m_Labels b;
     m_Annotations := m_Annotations b; m_OwnerReferences := m_OwnerReferences b;
     m_Finalizers := m_Finalizers b |}.
Definition set_m_GenerateName {M} (v : option string) (b : ObjectMetaApplyConfiguration M) : ObjectMetaApplyConfiguration M :=
  {| m_Name := m_Name b; m_GenerateName := v; m_Namespace := m_Namespace b; m_UID := m_UID b;
     m_ResourceVersion := m_ResourceVersion b; m_Generation := m_Generation b;
     m_CreationTimestamp := m_CreationTimestamp b; m_DeletionTimestamp := m_DeletionTimestamp b;
     m_DeletionGracePeriodSeconds := m_DeletionGracePeriodSeconds b; m_Labels := m_Labels b;
     m_Annotations := m_Annotations b; m_OwnerReferences := m_OwnerReferences b;
     m_Finalizers := m_Finalizers b |}.
Definition set_m_Namespace {M} (v : option string) (b : ObjectMetaApplyConfiguration M) : ObjectMetaApplyConfiguration M :=
  {| m_Name := m_Name b; m_GenerateName := m_GenerateName b; m_Namespace := v; m_UID := m_UID b;
     m_ResourceVersion := m_ResourceVersion b; m_Generation := m_Generation b;
     m_CreationTimestamp := m_CreationTimestamp b; m_DeletionTimestamp := m_DeletionTimestamp b;
     m_DeletionGracePeriodSeconds := m_DeletionGracePeriodSeconds b; m_Labels := m_Labels b;
     m_Annotations := m_Annotations b; m_OwnerReferences := m_OwnerReferences b;
     m_Finalizers := m_Finalizers b |}.
Definition set_m_UID {M} (v : option string) (b : ObjectMetaApplyConfiguration M) : ObjectMetaApplyConfiguration M :=
  {| m_Name := m_Name b; m_GenerateName := m_GenerateName b; m_Namespace := m_Namespace b;
     m_UID := v; m_ResourceVersion := m_ResourceVersion b; m_Generation := m_Generation b;
     m_CreationTimestamp := m_CreationTimestamp b; m_DeletionTimestamp := m_DeletionTimestamp b;
     m_DeletionGracePeriodSeconds := m_DeletionGracePeriodSeconds b; m_Labels := m_Labels b;
     m_Annotations := m_Annotations b; m_OwnerReferences := m_OwnerReferences b;
     m_Finalizers := m_Finalizers b |}.
Definition set_m_ResourceVersion {M} (v : option string) (b : ObjectMetaApplyConfiguration M) : ObjectMetaApplyConfiguration M :=
  {| m_Name := m_Name b; m_GenerateName := m_GenerateName b; m_Namespace := m_Namespace b;
     m_UID := m_UID b; m_ResourceVersion := v; m_Generation := m_Generation b;
     m_CreationTimestamp := m_CreationTimestamp b; m_DeletionTimestamp := m_DeletionTimestamp b;
     m_DeletionGracePeriodSeconds := m_DeletionGracePeriodSeconds b; m_Labels := m_Labels b;
     m_Annotations := m_Annotations b; m_OwnerReferences := m_OwnerReferences b;
     m_Finalizers := m_Finalizers b |}.
Definition set_m_Generation {M} (v : option Z) (b : ObjectMetaApplyConfiguration M) : ObjectMetaApplyConfiguration M :=
  {| m_Name := m_Name b; m_GenerateName := m_GenerateName b; m_Namespace := m_Namespace b;
     m_UID := m_UID b; m_ResourceVersion := m_ResourceVersion b; m_Generation := v;
     m_CreationTimestamp := m_CreationTimestamp b; m_DeletionTimestamp := m_DeletionTimestamp b;
     m_DeletionGracePeriodSeconds := m_DeletionGracePeriodSeconds b; m_Labels := m_Labels b;
     m_Annotations := m_Annotations b; m_OwnerReferences := m_OwnerReferences b;
     m_Finalizers := m_Finalizers b |}.
Definition set_m_CreationTimestamp {M} (v : option Time) (b : ObjectMetaApplyConfiguration M) : ObjectMetaApplyConfiguration M :=
  {| m_Name := m_Name b; m_GenerateName := m_GenerateName b; m_Namespace := m_Namespace b;
     m_UID := m_UID b; m_ResourceVersion := m_ResourceVersion b; m_Generation := m_Generation b;
     m_CreationTimestamp := v; m_DeletionTimestamp := m_DeletionTimestamp b;
     m_DeletionGracePeriodSeconds := m_DeletionGracePeriodSeconds b; m_Labels := m_Labels b;
     m_Annotations := m_Annotations b; m_OwnerReferences := m_OwnerReferences b;
     m_Finalizers := m_Finalizers b |}.
Definition set_m_DeletionTimestamp {M} (v : option Time) (b : ObjectMetaApplyConfiguration M) : ObjectMetaApplyConfiguration M :=
  {| m_Name := m_Name b; m_GenerateName := m_GenerateName b; m_Namespace := m_Namespace b;
     m_UID := m_UID b; m_ResourceVersion := m_ResourceVersion b; m_Generation := m_Generation b;
     m_CreationTimestamp := m_CreationTimestamp b; m_DeletionTimestamp := v;
     m_DeletionGracePeriodSeconds := m_DeletionGracePeriodSeconds b; m_Labels := m_Labels b;
     m_Annotations := m_Annotations b; m_OwnerReferences := m_OwnerReferences b;
     m_Finalizers := m_Finalizers b |}.
Definition set_m_DeletionGracePeriodSeconds {M} (v : option Z) (b : ObjectMetaApplyConfiguration M) : ObjectMetaApplyConfiguration M :=
  {| m_Name := m_Name b; m_GenerateName := m_GenerateName b; m_Namespace := m_Namespace b;
     m_UID := m_UID b; m_ResourceVersion := m_ResourceVersion b; m_Generation := m_Generation b;
     m_CreationTimestamp := m_CreationTimestamp b; m_DeletionTimestamp := m_DeletionTimestamp b;
     m_DeletionGracePeriodSeconds := v; m_Labels := m_Labels b;
     m_Annotations := m_Annotations b; m_OwnerReferences := m_OwnerReferences b;
     m_Finalizers := m_Finalizers b |}.
Definition set_m_Labels {M} (v : M) (b : ObjectMetaApplyConfiguration M) : ObjectMetaApplyConfiguration M :=
  {| m_Name := m_Name b; m_GenerateName := m_GenerateName b; m_Namespace := m_Namespace b;
     m_UID := m_UID b; m_ResourceVersion := m_ResourceVersion b; m_Generation := m_Generation b;
     m_CreationTimestamp := m_CreationTimestamp b; m_DeletionTimestamp := m_DeletionTimestamp b;
     m_DeletionGracePeriodSeconds := m_DeletionGracePeriodSeconds b; m_Labels := v;
     m_Annotations := m_Annotations b; m_OwnerReferences := m_OwnerReferences b;
     m_Finalizers := m_Finalizers b |}.
Definition set_m_Annotations {M} (v : M) (b : ObjectMetaApplyConfiguration M) : ObjectMetaApplyConfiguration M :=
  {| m_Name := m_Name b; m_GenerateName := m_GenerateName b; m_Namespace := m_Namespace b;
     m_UID := m_UID b; m_ResourceVersion := m_ResourceVersion b; m_Generation := m_Generation b;
     m_CreationTimestamp := m_CreationTimestamp b; m_DeletionTimestamp := m_DeletionTimestamp b;
     m_DeletionGracePeriodSeconds := m_DeletionGracePeriodSeconds b; m_Labels := m_Labels b;
     m_Annotations := v; m_OwnerReferences := m_OwnerReferences b;
     m_Finalizers := m_Finalizers b |}.
Definition set_m_OwnerReferences {M} (v : list OwnerRefAC) (b : ObjectMetaApplyConfiguration M) : ObjectMetaApplyConfiguration M :=
  {| m_Name := m_Name b; m_GenerateName := m_GenerateName b; m_Namespace := m_Namespace b;
     m_UID := m_UID b; m_ResourceVersion := m_ResourceVersion b; m_Generation := m_Generation b;
     m_CreationTimestamp := m_CreationTimestamp b; m_DeletionTimestamp := m_DeletionTimestamp b;
     m_DeletionGracePeriodSeconds := m_DeletionGracePeriodSeconds b; m_Labels := m_Labels b;
     m_Annotations := m_Annotations b; m_OwnerReferences := v; m_Finalizers := m_Finalizers b |}.
Definition set_m_Finalizers {M} (v : list string) (b : ObjectMetaApplyConfiguration M) : ObjectMetaApplyConfiguration M :=
  {| m_Name := m_Name b; m_GenerateName := m_GenerateName b; m_Namespace := m_Namespace b;
     m_UID := m_UID b; m_ResourceVersion := m_ResourceVersion b; m_Generation := m_Generation b;
     m_CreationTimestamp := m_CreationTimestamp b; m_DeletionTimestamp := m_DeletionTimestamp b;
     m_DeletionGracePeriodSeconds := m_DeletionGracePeriodSeconds b; m_Labels := m_Labels b;
     m_Annotations := m_Annotations b; m_OwnerReferences := m_OwnerReferences b;
     m_Finalizers := v |}.
Definition set_a_Kind {P} (v : option string) (b : XStatefulSetApplyConfiguration P) : XStatefulSetApplyConfiguration P :=
  {| a_Kind := v; a_APIVersion := a_APIVersion b; a_ObjectMeta := a_ObjectMeta b; a_Spec := a_Spec b;
     a_Status := a_Status b |}.
Definition set_a_APIVersion {P} (v : option string) (b : XStatefulSetApplyConfiguration P) : XStatefulSetApplyConfiguration P :=
  {| a_Kind := a_Kind b; a_APIVersion := v; a_ObjectMeta := a_ObjectMeta b; a_Spec := a_Spec b;
     a_Status := a_Status b |}.
Definition set_a_ObjectMeta {P} (v : option P) (b : XStatefulSetApplyConfiguration P) : XStatefulSetApplyConfiguration P :=
  {| a_Kind := a_Kind b; a_APIVersion := a_APIVersion b; a_ObjectMeta := v; a_Spec := a_Spec b;
     a_Status := a_Status b |}.
Definition set_a_Spec {P} (v : option loc) (b : XStatefulSetApplyConfiguration P) : XStatefulSetApplyConfiguration P :=
  {| a_Kind := a_Kind b; a_APIVersion := a_APIVersion b; a_ObjectMeta := a_ObjectMeta b; a_Spec := v;
     a_Status := a_Status b |}.
Definition set_a_Status {P} (v : option loc) (b : XStatefulSetApplyConfiguration P) : XStatefulSetApplyConfiguration P :=
  {| a_Kind := a_Kind b; a_APIVersion := a_APIVersion b; a_ObjectMeta := a_ObjectMeta b;
     a_Spec := a_Spec b; a_Status := v |}.
Definition set_s_Replicas (v : option Z) (b : XStatefulSetSpecApplyConfiguration) : XStatefulSetSpecApplyConfiguration :=
  {| s_Replicas := v; s_Selector := s_Selector b; s_Template := s_Template b;
     s_VolumeClaimTemplates := s_VolumeClaimTemplates b; s_ServiceName := s_ServiceName b;
     s_PodManagementPolicy := s_PodManagementPolicy b; s_UpdateStrategy := s_UpdateStrategy b;
     s_RevisionHistoryLimit := s_RevisionHistoryLimit b;
     s_MinReadySeconds := s_MinReadySeconds b; s_RetentionPolicy := s_RetentionPolicy b;
     s_Ordinals := s_Ordinals b |}.
Definition set_s_Selector (v : option loc) (b : XStatefulSetSpecApplyConfiguration) : XStatefulSetSpecApplyConfiguration :=
  {| s_Replicas := s_Replicas b; s_Selector := v; s_Template := s_Template b;
     s_VolumeClaimTemplates := s_VolumeClaimTemplates b; s_ServiceName := s_ServiceName b;
     s_PodManagementPolicy := s_PodManagementPolicy b; s_UpdateStrategy := s_UpdateStrategy b;
     s_RevisionHistoryLimit := s_RevisionHistoryLimit b;
     s_MinReadySeconds := s_MinReadySeconds b; s_RetentionPolicy := s_RetentionPolicy b;
     s_Ordinals := s_Ordinals b |}.
Definition set_s_Template (v : option loc) (b : XStatefulSetSpecApplyConfiguration) : XStatefulSetSpecApplyConfiguration :=
  {| s_Replicas := s_Replicas b; s_Selector := s_Selector b; s_Template := v;
     s_VolumeClaimTemplates := s_VolumeClaimTemplates b; s_ServiceName := s_ServiceName b;
     s_PodManagementPolicy := s_PodManagementPolicy b; s_UpdateStrategy := s_UpdateStrategy b;
     s_RevisionHistoryLimit := s_RevisionHistoryLimit b;
     s_MinReadySeconds := s_MinReadySeconds b; s_RetentionPolicy := s_RetentionPolicy b;
     s_Ordinals := s_Ordinals b |}.
Definition set_s_VolumeClaimTemplates (v : list ClaimAC) (b : XStatefulSetSpecApplyConfiguration) : XStatefulSetSpecApplyConfiguration :=
  {| s_Replicas := s_Replicas b; s_Selector := s_Selector b; s_Template := s_Template b;
     s_VolumeClaimTemplates := v; s_ServiceName := s_ServiceName b;
     s_PodManagementPolicy := s_PodManagementPolicy b; s_UpdateStrategy := s_UpdateStrategy b;
     s_RevisionHistoryLimit := s_RevisionHistoryLimit b;
     s_MinReadySeconds := s_MinReadySeconds b; s_RetentionPolicy := s_RetentionPolicy b;
     s_Ordinals := s_Ordinals b |}.
Definition set_s_ServiceName (v : option string) (b : XStatefulSetSpecApplyConfiguration) : XStatefulSetSpecApplyConfiguration :=
  {| s_Replicas := s_Replicas b; s_Selector := s_Selector b; s_Template := s_Template b;
     s_VolumeClaimTemplates := s_VolumeClaimTemplates b; s_ServiceName := v;
     s_PodManagementPolicy := s_PodManagementPolicy b; s_UpdateStrategy := s_UpdateStrategy b;
     s_RevisionHistoryLimit := s_RevisionHistoryLimit b;
     s_MinReadySeconds := s_MinReadySeconds b; s_RetentionPolicy := s_RetentionPolicy b;
     s_Ordinals := s_Ordinals b |}.
Definition set_s_PodManagementPolicy (v : option string) (b : XStatefulSetSpecApplyConfiguration) : XStatefulSetSpecApplyConfiguration :=
  {| s_Replicas := s_Replicas b; s_Selector := s_Selector b; s_Template := s_Template b;
     s_VolumeClaimTemplates := s_VolumeClaimTemplates b; s_ServiceName := s_ServiceName b;
     s_PodManagementPolicy := v; s_UpdateStrategy := s_UpdateStrategy b;
     s_RevisionHistoryLimit := s_RevisionHistoryLimit b;
     s_MinReadySeconds := s_MinReadySeconds b; s_RetentionPolicy := s_RetentionPolicy b;
     s_Ordinals := s_Ordinals b |}.
Definition set_s_UpdateStrategy (v : option loc) (b : XStatefulSetSpecApplyConfiguration) : XStatefulSetSpecApplyConfiguration :=
  {| s_Replicas := s_Replicas b; s_Selector := s_Selector b; s_Template := s_Template b;
     s_VolumeClaimTemplates := s_VolumeClaimTemplates b; s_ServiceName := s_ServiceName b;
     s_PodManagementPolicy := s_PodManagementPolicy b; s_UpdateStrategy := v;
     s_RevisionHistoryLimit := s_RevisionHistoryLimit b;
     s_MinReadySeconds := s_MinReadySeconds b; s_RetentionPolicy := s_RetentionPolicy b;
     s_Ordinals := s_Ordinals b |}.
Definition set_s_RevisionHistoryLimit (v : option Z) (b : XStatefulSetSpecApplyConfiguration) : XStatefulSetSpecApplyConfiguration :=
  {| s_Replicas := s_Replicas b; s_Selector := s_Selector b; s_Template := s_Template b;
     s_VolumeClaimTemplates := s_VolumeClaimTemplates b; s_ServiceName := s_ServiceName b;
     s_PodManagementPolicy := s_PodManagementPolicy b; s_UpdateStrategy := s_UpdateStrategy b;
     s_RevisionHistoryLimit := v; s_MinReadySeconds := s_MinReadySeconds b;
     s_RetentionPolicy := s_RetentionPolicy b; s_Ordinals := s_Ordinals b |}.
Definition set_s_MinReadySeconds (v : option Z) (b : XStatefulSetSpecApplyConfiguration) : XStatefulSetSpecApplyConfiguration :=
  {| s_Replicas := s_Replicas b; s_Selector := s_Selector b; s_Template := s_Template b;
     s_VolumeClaimTemplates := s_VolumeClaimTemplates b; s_ServiceName := s_ServiceName b;
     s_PodManagementPolicy := s_PodManagementPolicy b; s_UpdateStrategy := s_UpdateStrategy b;
     s_RevisionHistoryLimit := s_RevisionHistoryLimit b; s_MinReadySeconds := v;
     s_RetentionPolicy := s_RetentionPolicy b; s_Ordinals := s_Ordinals b |}.
Definition set_s_RetentionPolicy (v : option loc) (b : XStatefulSetSpecApplyConfiguration) : XStatefulSetSpecApplyConfiguration :=
  {| s_Replicas := s_Replicas b; s_Selector := s_Selector b; s_Template := s_Template b;
     s_VolumeClaimTemplates := s_VolumeClaimTemplates b; s_ServiceName := s_ServiceName b;
     s_PodManagementPolicy := s_PodManagementPolicy b; s_UpdateStrategy := s_UpdateStrategy b;
     s_RevisionHistoryLimit := s_RevisionHistoryLimit b;
     s_MinReadySeconds := s_MinReadySeconds b; s_RetentionPolicy := v;
     s_Ordinals := s_Ordinals b |}.
Definition set_s_Ordinals (v : option loc) (b : XStatefulSetSpecApplyConfiguration) : XStatefulSetSpecApplyConfiguration :=
  {| s_Replicas := s_Replicas b; s_Selector := s_Selector b; s_Template := s_Template b;
     s_VolumeClaimTemplates := s_VolumeClaimTemplates b; s_ServiceName := s_ServiceName b;
     s_PodManagementPolicy := s_PodManagementPolicy b; s_UpdateStrategy := s_UpdateStrategy b;
     s_RevisionHistoryLimit := s_RevisionHistoryLimit b;
     s_MinReadySeconds := s_MinReadySeconds b; s_RetentionPolicy := s_RetentionPolicy b;
     s_Ordinals := v |}.
Definition set_t_ObservedGeneration (v : option Z) (b : XStatefulSetStatusApplyConfiguration) : XStatefulSetStatusApplyConfiguration :=
  {| t_ObservedGeneration := v; t_Replicas := t_Replicas b; t_ReadyReplicas := t_ReadyReplicas b;
     t_CurrentReplicas := t_CurrentReplicas b; t_UpdatedReplicas := t_UpdatedReplicas b;
     t_CurrentRevision := t_CurrentRevision b; t_UpdateRevision := t_UpdateRevision b;
     t_CollisionCount := t_CollisionCount b; t_Conditions := t_Conditions b;
     t_AvailableReplicas := t_AvailableReplicas b; t_Selector := t_Selector b |}.
Definition set_t_Replicas (v : option Z) (b : XStatefulSetStatusApplyConfiguration) : XStatefulSetStatusApplyConfiguration :=
  {| t_ObservedGeneration := t_ObservedGeneration b; t_Replicas := v;
     t_ReadyReplicas := t_ReadyReplicas b; t_CurrentReplicas := t_CurrentReplicas b;
     t_UpdatedReplicas := t_UpdatedReplicas b; t_CurrentRevision := t_CurrentRevision b;
     t_UpdateRevision := t_UpdateRevision b; t_CollisionCount := t_CollisionCount b;
     t_Conditions := t_Conditions b; t_AvailableReplicas := t_AvailableReplicas b;
     t_Selector := t_Selector b |}.
Definition set_t_ReadyReplicas (v : option Z) (b : XStatefulSetStatusApplyConfiguration) : XStatefulSetStatusApplyConfiguration :=
  {| t_ObservedGeneration := t_ObservedGeneration b; t_Replicas := t_Replicas b;
     t_ReadyReplicas := v; t_CurrentReplicas := t_CurrentReplicas b;
     t_UpdatedReplicas := t_UpdatedReplicas b; t_CurrentRevision := t_CurrentRevision b;
     t_UpdateRevision := t_UpdateRevision b; t_CollisionCount := t_CollisionCount b;
     t_Conditions := t_Conditions b; t_AvailableReplicas := t_AvailableReplicas b;
     t_Selector := t_Selector b |}.
Definition set_t_CurrentReplicas (v : option Z) (b : XStatefulSetStatusApplyConfiguration) : XStatefulSetStatusApplyConfiguration :=
  {| t_ObservedGeneration := t_ObservedGeneration b; t_Replicas := t_Replicas b;
     t_ReadyReplicas := t_ReadyReplicas b; t_CurrentReplicas := v;
     t_UpdatedReplicas := t_UpdatedReplicas b; t_CurrentRevision := t_CurrentRevision b;
     t_UpdateRevision := t_UpdateRevision b; t_CollisionCount := t_CollisionCount b;
     t_Conditions := t_Conditions b; t_AvailableReplicas := t_AvailableReplicas b;
     t_Selector := t_Selector b |}.
Definition set_t_UpdatedReplicas (v : option Z) (b : XStatefulSetStatusApplyConfiguration) : XStatefulSetStatusApplyConfiguration :=
  {| t_ObservedGeneration := t_ObservedGeneration b; t_Replicas := t_Replicas b;
     t_ReadyReplicas := t_ReadyReplicas b; t_CurrentReplicas := t_CurrentReplicas b;
     t_UpdatedReplicas := v; t_CurrentRevision := t_CurrentRevision b;
     t_UpdateRevision := t_UpdateRevision b; t_CollisionCount := t_CollisionCount b;
     t_Conditions := t_Conditions b; t_AvailableReplicas := t_AvailableReplicas b;
     t_Selector := t_Selector b |}.
Definition set_t_CurrentRevision (v : option string) (b : XStatefulSetStatusApplyConfiguration) : XStatefulSetStatusApplyConfiguration :=
  {| t_ObservedGeneration := t_ObservedGeneration b; t_Replicas := t_Replicas b;
     t_ReadyReplicas := t_ReadyReplicas b; t_CurrentReplicas := t_CurrentReplicas b;
     t_UpdatedReplicas := t_UpdatedReplicas b; t_CurrentRevision := v;
     t_UpdateRevision := t_UpdateRevision b; t_CollisionCount := t_CollisionCount b;
     t_Conditions := t_Conditions b; t_AvailableReplicas := t_AvailableReplicas b;
     t_Selector := t_Selector b |}.
Definition set_t_UpdateRevision (v : option string) (b : XStatefulSetStatusApplyConfiguration) : XStatefulSetStatusApplyConfiguration :=
  {| t_ObservedGeneration := t_ObservedGeneration b; t_Replicas := t_Replicas b;
     t_ReadyReplicas := t_ReadyReplicas b; t_CurrentReplicas := t_CurrentReplicas b;
     t_UpdatedReplicas := t_UpdatedReplicas b; t_CurrentRevision := t_CurrentRevision b;
     t_UpdateRevision := v; t_CollisionCount := t_CollisionCount b;
     t_Conditions := t_Conditions b; t_AvailableReplicas := t_AvailableReplicas b;
     t_Selector := t_Selector b |}.
Definition set_t_CollisionCount (v : option Z) (b : XStatefulSetStatusApplyConfiguration) : XStatefulSetStatusApplyConfiguration :=
  {| t_ObservedGeneration := t_ObservedGeneration b; t_Replicas := t_Replicas b;
     t_ReadyReplicas := t_ReadyReplicas b; t_CurrentReplicas := t_CurrentReplicas b;
     t_UpdatedReplicas := t_UpdatedReplicas b; t_CurrentRevision := t_CurrentRevision b;
     t_UpdateRevision := t_UpdateRevision b; t_CollisionCount := v;
     t_Conditions := t_Conditions b; t_AvailableReplicas := t_AvailableReplicas b;
     t_Selector := t_Selector b |}.
Definition set_t_Conditions (v : list ConditionAC) (b : XStatefulSetStatusApplyConfiguration) : XStatefulSetStatusApplyConfiguration :=
  {| t_ObservedGeneration := t_ObservedGeneration b; t_Replicas := t_Replicas b;
     t_ReadyReplicas := t_ReadyReplicas b; t_CurrentReplicas := t_CurrentReplicas b;
     t_UpdatedReplicas := t_UpdatedReplicas b; t_CurrentRevision := t_CurrentRevision b;
     t_UpdateRevision := t_UpdateRevision b; t_CollisionCount := t_CollisionCount b;
     t_Conditions := v; t_AvailableReplicas := t_AvailableReplicas b;
     t_Selector := t_Selector b |}.
Definition set_t_AvailableReplicas (v : option Z) (b : XStatefulSetStatusApplyConfiguration) : XStatefulSetStatusApplyConfiguration :=
  {| t_ObservedGeneration := t_ObservedGeneration b; t_Replicas := t_Replicas b;
     t_ReadyReplicas := t_ReadyReplicas b; t_CurrentReplicas := t_CurrentReplicas b;
     t_UpdatedReplicas := t_UpdatedReplicas b; t_CurrentRevision := t_CurrentRevision b;
     t_UpdateRevision := t_UpdateRevision b; t_CollisionCount := t_CollisionCount b;
     t_Conditions := t_Conditions b; t_AvailableReplicas := v; t_Selector := t_Selector b |}.
Definition set_t_Selector (v : option string) (b : XStatefulSetStatusApplyConfiguration) : XStatefulSetStatusApplyConfiguration :=
  {| t_ObservedGeneration := t_ObservedGeneration b; t_Replicas := t_Replicas b;
     t_ReadyReplicas := t_ReadyReplicas b; t_CurrentReplicas := t_CurrentReplicas b;
     t_UpdatedReplicas := t_UpdatedReplicas b; t_CurrentRevision := t_CurrentRevision b;
     t_UpdateRevision := t_UpdateRevision b; t_CollisionCount := t_CollisionCount b;
     t_Conditions := t_Conditions b; t_AvailableReplicas := t_AvailableReplicas b;
     t_Selector := v |}.
End setters.

Abbreviation config_heap := (gmap loc config_cell) (only parsing).

(** ** Programs on the heap: [None] is a panic *)

Section builders.
Context `{ImportedConfigs} `{GoRuntime}.

Definition buildM (A : Type) : Type := config_heap → option (A * config_heap).
#[export] Instance buildM_ret : MRet buildM := λ A a h, Some (a, h).
#[export] Instance buildM_bind : MBind buildM := λ A B f m h, '(a, h) ← m h; f a h.

Definition panic {A} : buildM A := λ h, None.
Definition new (c : config_cell) : buildM loc := λ h, let l := fresh (dom h) in Some (l, <[l := c]> h).

(** [p.field = ...]: a change of the struct [p] points to; a nil pointer panics. *)
Definition on_config (p : loc) (f : XStatefulSetApplyConfiguration loc → XStatefulSetApplyConfiguration loc)
    : buildM unit := λ h,
  match h !! p with Some (CConfig c) => Some (tt, <[p := CConfig (f c)]> h) | _ => None end.
Definition on_meta (p : loc)
    (f : ObjectMetaApplyConfiguration (option loc) → ObjectMetaApplyConfiguration (option loc)) : buildM unit := λ h,
  match h !! p with Some (CMeta m) => Some (tt, <[p := CMeta (f m)]> h) | _ => None end.
Definition on_spec (p : loc) (f : XStatefulSetSpecApplyConfiguration → XStatefulSetSpecApplyConfiguration)
    : buildM loc := λ h,
  match h !! p with Some (CSpecConfig s) => Some (p, <[p := CSpecConfig (f s)]> h) | _ => None end.
Definition on_status (p : loc) (f : XStatefulSetStatusApplyConfiguration → XStatefulSetStatusApplyConfiguration)
    : buildM loc := λ h,
  match h !! p with Some (CStatusConfig s) => Some (p, <[p := CStatusConfig (f s)]> h) | _ => None end.
Definition read_config (p : loc) : buildM (XStatefulSetApplyConfiguration loc) := λ h,
  match h !! p with Some (CConfig c) => Some (c, h) | _ => None end.
Definition read_meta (p : loc) : buildM (ObjectMetaApplyConfiguration (option loc)) := λ h,
  match h !! p with Some (CMeta m) => Some (m, h) | _ => None end.
(** [m[k] = v]; assignment to an entry of a nil map panics. *)
Definition map_set (p : option loc) (k v : string) : buildM unit := λ h,
  match p with
  | None => None
  | Some p => match h !! p with Some (CMap m) => Some (tt, <[p := CMap (<[k := v]> m)]> h) | _ => None end
  end.

Definition empty_meta {M} (none : M) : ObjectMetaApplyConfiguration M :=
  {| m_Name := None; m_GenerateName := None; m_Namespace := None; m_UID := None; m_ResourceVersion := None;
     m_Generation := None; m_CreationTimestamp := None; m_DeletionTimestamp := None;
     m_DeletionGracePeriodSeconds := None; m_Labels := none; m_Annotations := none;
     m_OwnerReferences := []; m_Finalizers := [] |}.
Definition empty_config {P} : XStatefulSetApplyConfiguration P :=
  {| a_Kind := None; a_APIVersion := None; a_ObjectMeta := None; a_Spec := None; a_Status := None |}.
Definition empty_spec : XStatefulSetSpecApplyConfiguration :=
  {| s_Replicas := None; s_Selector := None; s_Template := None; s_VolumeClaimTemplates := [];
     s_ServiceName := None; s_PodManagementPolicy := None; s_UpdateStrategy := None;
     s_RevisionHistoryLimit := None; s_MinReadySeconds := None; s_RetentionPolicy := None; s_Ordinals := None |}.
Definition empty_status : XStatefulSetStatusApplyConfiguration :=
  {| t_ObservedGeneration := None; t_Replicas := None; t_ReadyReplicas := None; t_CurrentReplicas := None;
     t_UpdatedReplicas := None; t_CurrentRevision := None; t_UpdateRevision := None; t_CollisionCount := None;
     t_Conditions := []; t_AvailableReplicas := None; t_Selector := None |}.

(** ** [XStatefulSetApplyConfiguration] *)

Definition ensureObjectMetaApplyConfigurationExists (b : loc) : buildM unit :=
  c ← read_config b;
  match a_ObjectMeta c with
  | None => m ← new (CMeta (empty_meta None)); on_config b (set_a_ObjectMeta (Some m))
  | Some _ => mret tt
  end.

(** [b.ObjectMetaApplyConfiguration], which a method that uses it makes sure to exist. *)
Definition meta_of (b : loc) : buildM loc :=
  c ← read_config b;
  match a_ObjectMeta c with Some m => mret m | None => panic end.

(** [b.ensureObjectMetaApplyConfigurationExists()] and one assignment to the metadata. *)
Definition with_meta (f : ObjectMetaApplyConfiguration (option loc) → ObjectMetaApplyConfiguration (option loc))
    (b : loc) : buildM loc :=
  ensureObjectMetaApplyConfigurationExists b;;
  m ← meta_of b;
  on_meta m f;;
  mret b.

Definition WithKind (value : string) (b : loc) : buildM loc := on_config b (set_a_Kind (Some value));; mret b.
Definition WithAPIVersion (value : string) (b : loc) : buildM loc :=
  on_config b (set_a_APIVersion (Some value));; mret b.
Definition WithName (value : string) : loc → buildM loc := with_meta (set_m_Name (Some value)).
Definition WithGenerateName (value : string) : loc → buildM loc := with_meta (set_m_GenerateName (Some value)).
Definition WithNamespace (value : string) : loc → buildM loc := with_meta (set_m_Namespace (Some value)).
Definition WithUID (value : string) : loc → buildM loc := with_meta (set_m_UID (Some value)).
Definition WithResourceVersion (value : string) : loc → buildM loc :=
  with_meta (set_m_ResourceVersion (Some value)).
Definition WithGeneration (value : Z) : loc → buildM loc := with_meta (set_m_Generation (Some value)).
Definition WithCreationTimestamp (value : Time) : loc → buildM loc :=
  with_meta (set_m_CreationTimestamp (Some value)).
Definition WithDeletionTimestamp (value : Time) : loc → buildM loc :=
  with_meta (set_m_DeletionTimestamp (Some value)).
Definition WithDeletionGracePeriodSeconds (value : Z) : loc → buildM loc :=
  with_meta (set_m_DeletionGracePeriodSeconds (Some value)).

(** [for k, v := range entries { target[k] = v }] *)
Fixpoint put_entries (entries : list (string * string)) (target : option loc) : buildM unit :=
  match entries with
  | [] => mret tt
  | (k, v) :: entries => map_set target k v;; put_entries entries target
  end.

(** The two maps of the metadata, which are filled by the same statements. *)
Inductive map_field := LabelsField | AnnotationsField.
Definition get_map {M} (w : map_field) (m : ObjectMetaApplyConfiguration M) : M :=
  match w with LabelsField => m_Labels m | AnnotationsField => m_Annotations m end.
Definition set_map {M} (w : map_field) (v : M) : ObjectMetaApplyConfiguration M → ObjectMetaApplyConfiguration M :=
  match w with LabelsField => set_m_Labels v | AnnotationsField => set_m_Annotations v end.

(** The map is made when it is nil and there are entries; then the entries are put. *)
Definition put_map (w : map_field) (entries : gmap string string) (m : loc) : buildM unit :=
  mv ← read_meta m;
  (if bool_decide (get_map w mv = None) && bool_decide (entries ≠ ∅)
   then l ← new (CMap ∅); on_meta m (set_map w (Some l))
   else mret tt);;
  mv ← read_meta m;
  put_entries (map_range entries) (get_map w mv).

Definition WithLabels (entries : gmap string string) (b : loc) : buildM loc :=
  ensureObjectMetaApplyConfigurationExists b;; m ← meta_of b; put_map LabelsField entries m;; mret b.
Definition WithAnnotations (entries : gmap string string) (b : loc) : buildM loc :=
  ensureObjectMetaApplyConfigurationExists b;; m ← meta_of b; put_map AnnotationsField entries m;; mret b.

(** The loops over variadic pointers: a nil element panics, the others are appended. *)
Fixpoint append_owners (values : list (option OwnerRefAC)) (m : loc) : buildM unit :=
  match values with
  | [] => mret tt
  | None :: _ => panic
  | Some value :: values =>
      on_meta m (λ mv, set_m_OwnerReferences (m_OwnerReferences mv ++ [value]) mv);; append_owners values m
  end.
Definition WithOwnerReferences (values : list (option OwnerRefAC)) (b : loc) : buildM loc :=
  ensureObjectMetaApplyConfigurationExists b;;
  m ← meta_of b;
  append_owners values m;;
  mret b.

Fixpoint append_finalizers (values : list string) (m : loc) : buildM unit :=
  match values with
  | [] => mret tt
  | value :: values =>
      on_meta m (λ mv, set_m_Finalizers (m_Finalizers mv ++ [value]) mv);; append_finalizers values m
  end.
Definition WithFinalizers (values : list string) (b : loc) : buildM loc :=
  ensureObjectMetaApplyConfigurationExists b;;
  m ← meta_of b;
  append_finalizers values m;;
  mret b.

Definition WithSpec (value : option loc) (b : loc) : buildM loc := on_config b (set_a_Spec value);; mret b.
Definition WithStatus (value : option loc) (b : loc) : buildM loc := on_config b (set_a_Status value);; mret b.

Definition GetKind (b : loc) : buildM (option string) := c ← read_config b; mret (a_Kind c).
Definition GetAPIVersion (b : loc) : buildM (option string) := c ← read_config b; mret (a_APIVersion c).
(** The getters of metadata allocate it as well. *)
Definition GetName (b : loc) : buildM (option string) :=
  ensureObjectMetaApplyConfigurationExists b;;
  m ← meta_of b;
  mv ← read_meta m;
  mret (m_Name mv).
Definition GetNamespace (b : loc) : buildM (option string) :=
  ensureObjectMetaApplyConfigurationExists b;;
  m ← meta_of b;
  mv ← read_meta m;
  mret (m_Namespace mv).

(** [XStatefulSet(name, namespace)] *)
Definition NewXStatefulSetConfig (name namespace : string) : buildM loc :=
  b ← new (CConfig empty_config);
  WithName name b;;
  WithNamespace namespace b;;
  WithKind "XStatefulSet" b;;
  WithAPIVersion "apps.x-k8s.io/v1" b;;
  mret b.

(** ** [XStatefulSetSpecApplyConfiguration] *)

Definition XStatefulSetSpec_config : buildM loc := new (CSpecConfig empty_spec).
Definition Spec_WithReplicas (value : Z) (b : loc) : buildM loc := on_spec b (set_s_Replicas (Some value)).
Definition Spec_WithServiceName (value : string) (b : loc) : buildM loc := on_spec b (set_s_ServiceName (Some value)).
Definition Spec_WithPodManagementPolicy (value : string) (b : loc) : buildM loc := on_spec b (set_s_PodManagementPolicy (Some value)).
Definition Spec_WithRevisionHistoryLimit (value : Z) (b : loc) : buildM loc := on_spec b (set_s_RevisionHistoryLimit (Some value)).
Definition Spec_WithMinReadySeconds (value : Z) (b : loc) : buildM loc := on_spec b (set_s_MinReadySeconds (Some value)).
Definition Spec_WithSelector (value : option loc) (b : loc) : buildM loc := on_spec b (set_s_Selector value).
Definition Spec_WithTemplate (value : option loc) (b : loc) : buildM loc := on_spec b (set_s_Template value).
Definition Spec_WithUpdateStrategy (value : option loc) (b : loc) : buildM loc := on_spec b (set_s_UpdateStrategy value).
Definition Spec_WithPersistentVolumeClaimRetentionPolicy (value : option loc) (b : loc) : buildM loc := on_spec b (set_s_RetentionPolicy value).
Definition Spec_WithOrdinals (value : option loc) (b : loc) : buildM loc := on_spec b (set_s_Ordinals value).
Fixpoint Spec_WithVolumeClaimTemplates (values : list (option ClaimAC)) (b : loc) : buildM loc :=
  match values with
  | [] => mret b
  | None :: _ => panic
  | Some value :: values =>
      on_spec b (λ s, set_s_VolumeClaimTemplates (s_VolumeClaimTemplates s ++ [value]) s);;
      Spec_WithVolumeClaimTemplates values b
  end.

(** ** [XStatefulSetStatusApplyConfiguration] *)

Definition XStatefulSetStatus_config : buildM loc := new (CStatusConfig empty_status).
Definition Status_WithObservedGeneration (value : Z) (b : loc) : buildM loc := on_status b (set_t_ObservedGeneration (Some value)).
Definition Status_WithReplicas (value : Z) (b : loc) : buildM loc := on_status b (set_t_Replicas (Some value)).
Definition Status_WithReadyReplicas (value : Z) (b : loc) : buildM loc := on_status b (set_t_ReadyReplicas (Some value)).
Definition Status_WithCurrentReplicas (value : Z) (b : loc) : buildM loc := on_status b (set_t_CurrentReplicas (Some value)).
Definition Status_WithUpdatedReplicas (value : Z) (b : loc) : buildM loc := on_status b (set_t_UpdatedReplicas (Some value)).
Definition Status_WithCurrentRevision (value : string) (b : loc) : buildM loc := on_status b (set_t_CurrentRevision (Some value)).
Definition Status_WithUpdateRevision (value : string) (b : loc) : buildM loc := on_status b (set_t_UpdateRevision (Some value)).
Definition Status_WithCollisionCount (value : Z) (b : loc) : buildM loc := on_status b (set_t_CollisionCount (Some value)).
Definition Status_WithAvailableReplicas (value : Z) (b : loc) : buildM loc := on_status b (set_t_AvailableReplicas (Some value)).
Definition Status_WithSelector (value : string) (b : loc) : buildM loc := on_status b (set_t_Selector (Some value)).
Fixpoint Status_WithConditions (values : list (option ConditionAC)) (b : loc) : buildM loc :=
  match values with
  | [] => mret b
  | None :: _ => panic
  | Some value :: values =>
      on_status b (λ s, set_t_Conditions (t_Conditions s ++ [value]) s);; Status_WithConditions values b
  end.

(** ** [ForKind] *)

#[export] Instance GroupVersionKind_eq_dec : EqDecision GroupVersionKind.
Proof. solve_decision. Defined.

Inductive apply_config_kind := SetConfig | SpecConfig | StatusConfig.

Definition ForKind (kind : GroupVersionKind) : option apply_config_kind :=
  if bool_decide (kind = {| gvk_Group := GroupName; gvk_Version := "v1"; gvk_Kind := "XStatefulSet" |})
  then Some SetConfig
  else if bool_decide (kind = {| gvk_Group := GroupName; gvk_Version := "v1"; gvk_Kind := "XStatefulSetSpec" |})
  then Some SpecConfig
  else if bool_decide (kind = {| gvk_Group := GroupName; gvk_Version := "v1"; gvk_Kind := "XStatefulSetStatus" |})
  then Some StatusConfig
  else None.
End builders.
