(* ===== verification/ApplyConfigProps.v ===== *)
(** * The builders against their documentation

    "If called multiple times, the field is set to the value of the last call",
    "values provided by each call will be appended", "overwriting an existing map
    entries with the same key": an abstract view in which a configuration is a value,
    and the proof that the builders on the heap implement it. *)
From S2P Require Export ApplyConfig.

Section abstract.
Context `{ImportedConfigs}.

(** ** Abstract view *)

Abbreviation meta_val := (ObjectMetaApplyConfiguration (option (gmap string string))) (only parsing).
Abbreviation config_val := (XStatefulSetApplyConfiguration meta_val) (only parsing).

(** The calls of the methods, one constructor per method. *)
Inductive set_op :=
| OpKind (value : string)
| OpAPIVersion (value : string)
| OpName (value : string)
| OpGenerateName (value : string)
| OpNamespace (value : string)
| OpUID (value : string)
| OpResourceVersion (value : string)
| OpGeneration (value : Z)
| OpCreationTimestamp (value : Time)
| OpDeletionTimestamp (value : Time)
| OpDeletionGracePeriodSeconds (value : Z)
| OpLabels (entries : gmap string string)
| OpAnnotations (entries : gmap string string)
| OpOwnerReferences (values : list (option OwnerRefAC))
| OpFinalizers (values : list string)
| OpSpec (value : option loc)
| OpStatus (value : option loc).

Inductive spec_op :=
| OpReplicas (value : Z)
| OpSelector (value : option loc)
| OpTemplate (value : option loc)
| OpVolumeClaimTemplates (values : list (option ClaimAC))
| OpServiceName (value : string)
| OpPodManagementPolicy (value : string)
| OpUpdateStrategy (value : option loc)
| OpRevisionHistoryLimit (value : Z)
| OpMinReadySeconds (value : Z)
| OpRetentionPolicy (value : option loc)
| OpOrdinals (value : option loc).

Inductive status_op :=
| OpObservedGeneration (value : Z)
| OpStatusReplicas (value : Z)
| OpReadyReplicas (value : Z)
| OpCurrentReplicas (value : Z)
| OpUpdatedReplicas (value : Z)
| OpCurrentRevision (value : string)
| OpUpdateRevision (value : string)
| OpCollisionCount (value : Z)
| OpConditions (values : list (option ConditionAC))
| OpAvailableReplicas (value : Z)
| OpStatusSelector (value : string).

(** A nil element is refused with a panic. *)
Definition all_present {A} (values : list (option A)) : option (list A) := mapM id values.

(** Entries overwrite those of the same key; no entries leave a nil map nil. *)
Definition merge_map (entries : gmap string string) (m : option (gmap string string)) : option (gmap string string) :=
  match m with
  | Some m => Some (entries ∪ m)
  | None => if bool_decide (entries = ∅) then None else Some entries
  end.

(** What a method does to the metadata, for those that use it. *)
Definition meta_effect (op : set_op) : option (meta_val → option meta_val) :=
  match op with
  | OpName v => Some (λ m, Some (set_m_Name (Some v) m))
  | OpGenerateName v => Some (λ m, Some (set_m_GenerateName (Some v) m))
  | OpNamespace v => Some (λ m, Some (set_m_Namespace (Some v) m))
  | OpUID v => Some (λ m, Some (set_m_UID (Some v) m))
  | OpResourceVersion v => Some (λ m, Some (set_m_ResourceVersion (Some v) m))
  | OpGeneration v => Some (λ m, Some (set_m_Generation (Some v) m))
  | OpCreationTimestamp v => Some (λ m, Some (set_m_CreationTimestamp (Some v) m))
  | OpDeletionTimestamp v => Some (λ m, Some (set_m_DeletionTimestamp (Some v) m))
  | OpDeletionGracePeriodSeconds v => Some (λ m, Some (set_m_DeletionGracePeriodSeconds (Some v) m))
  | OpLabels es => Some (λ m, Some (set_map LabelsField (merge_map es (m_Labels m)) m))
  | OpAnnotations es => Some (λ m, Some (set_map AnnotationsField (merge_map es (m_Annotations m)) m))
  | OpOwnerReferences vs =>
      Some (λ m, vs ← all_present vs; Some (set_m_OwnerReferences (m_OwnerReferences m ++ vs) m))
  | OpFinalizers vs => Some (λ m, Some (set_m_Finalizers (m_Finalizers m ++ vs) m))
  | _ => None
  end.

Definition set_effect (op : set_op) (v : config_val) : option config_val :=
  match op with
  | OpKind k => Some (set_a_Kind (Some k) v)
  | OpAPIVersion a => Some (set_a_APIVersion (Some a) v)
  | OpSpec s => Some (set_a_Spec s v)
  | OpStatus t => Some (set_a_Status t v)
  | _ =>
      f ← meta_effect op;
      m ← f (default (empty_meta None) (a_ObjectMeta v));
      Some (set_a_ObjectMeta (Some m) v)
  end.

Definition spec_effect (op : spec_op) (s : XStatefulSetSpecApplyConfiguration)
    : option XStatefulSetSpecApplyConfiguration :=
  match op with
  | OpReplicas v => Some (set_s_Replicas (Some v) s)
  | OpSelector v => Some (set_s_Selector v s)
  | OpTemplate v => Some (set_s_Template v s)
  | OpVolumeClaimTemplates vs =>
      vs ← all_present vs; Some (set_s_VolumeClaimTemplates (s_VolumeClaimTemplates s ++ vs) s)
  | OpServiceName v => Some (set_s_ServiceName (Some v) s)
  | OpPodManagementPolicy v => Some (set_s_PodManagementPolicy (Some v) s)
  | OpUpdateStrategy v => Some (set_s_UpdateStrategy v s)
  | OpRevisionHistoryLimit v => Some (set_s_RevisionHistoryLimit (Some v) s)
  | OpMinReadySeconds v => Some (set_s_MinReadySeconds (Some v) s)
  | OpRetentionPolicy v => Some (set_s_RetentionPolicy v s)
  | OpOrdinals v => Some (set_s_Ordinals v s)
  end.

Definition status_effect (op : status_op) (s : XStatefulSetStatusApplyConfiguration)
    : option XStatefulSetStatusApplyConfiguration :=
  match op with
  | OpObservedGeneration v => Some (set_t_ObservedGeneration (Some v) s)
  | OpStatusReplicas v => Some (set_t_Replicas (Some v) s)
  | OpReadyReplicas v => Some (set_t_ReadyReplicas (Some v) s)
  | OpCurrentReplicas v => Some (set_t_CurrentReplicas (Some v) s)
  | OpUpdatedReplicas v => Some (set_t_UpdatedReplicas (Some v) s)
  | OpCurrentRevision v => Some (set_t_CurrentRevision (Some v) s)
  | OpUpdateRevision v => Some (set_t_UpdateRevision (Some v) s)
  | OpCollisionCount v => Some (set_t_CollisionCount (Some v) s)
  | OpConditions vs => vs ← all_present vs; Some (set_t_Conditions (t_Conditions s ++ vs) s)
  | OpAvailableReplicas v => Some (set_t_AvailableReplicas (Some v) s)
  | OpStatusSelector v => Some (set_t_Selector (Some v) s)
  end.

(** Several objects side by side, by their pointers; a configuration keeps the
    pointers to its specification and status, whose later changes it sees. *)
Record configs := {
  the_sets : gmap loc config_val;
  the_specs : gmap loc XStatefulSetSpecApplyConfiguration;
  the_statuses : gmap loc XStatefulSetStatusApplyConfiguration }.

Inductive config_op :=
| OnSet (b : loc) (op : set_op)
| OnSpec (b : loc) (op : spec_op)
| OnStatus (b : loc) (op : status_op).

(** The receiver is one of the objects. *)
Definition known (W : configs) (op : config_op) : Prop :=
  match op with
  | OnSet b _ => is_Some (the_sets W !! b)
  | OnSpec b _ => is_Some (the_specs W !! b)
  | OnStatus b _ => is_Some (the_statuses W !! b)
  end.

Definition effect (op : config_op) (W : configs) : option configs :=
  match op with
  | OnSet b op =>
      v ← the_sets W !! b; v ← set_effect op v;
      Some {| the_sets := <[b := v]> (the_sets W); the_specs := the_specs W; the_statuses := the_statuses W |}
  | OnSpec b op =>
      v ← the_specs W !! b; v ← spec_effect op v;
      Some {| the_sets := the_sets W; the_specs := <[b := v]> (the_specs W); the_statuses := the_statuses W |}
  | OnStatus b op =>
      v ← the_statuses W !! b; v ← status_effect op v;
      Some {| the_sets := the_sets W; the_specs := the_specs W; the_statuses := <[b := v]> (the_statuses W) |}
  end.
End abstract.

(** ** The calls on the heap *)

Section refinement.
Context `{ImportedConfigs} `{GoLaws}.

Abbreviation meta_val := (ObjectMetaApplyConfiguration (option (gmap string string))) (only parsing).
Abbreviation config_val := (XStatefulSetApplyConfiguration meta_val) (only parsing).

Definition call_set (op : set_op) (b : loc) : buildM loc :=
  match op with
  | OpKind v => WithKind v b
  | OpAPIVersion v => WithAPIVersion v b
  | OpName v => WithName v b
  | OpGenerateName v => WithGenerateName v b
  | OpNamespace v => WithNamespace v b
  | OpUID v => WithUID v b
  | OpResourceVersion v => WithResourceVersion v b
  | OpGeneration v => WithGeneration v b
  | OpCreationTimestamp v => WithCreationTimestamp v b
  | OpDeletionTimestamp v => WithDeletionTimestamp v b
  | OpDeletionGracePeriodSeconds v => WithDeletionGracePeriodSeconds v b
  | OpLabels es => WithLabels es b
  | OpAnnotations es => WithAnnotations es b
  | OpOwnerReferences vs => WithOwnerReferences vs b
  | OpFinalizers vs => WithFinalizers vs b
  | OpSpec v => WithSpec v b
  | OpStatus v => WithStatus v b
  end.

Definition call_spec (op : spec_op) (b : loc) : buildM loc :=
  match op with
  | OpReplicas v => Spec_WithReplicas v b
  | OpSelector v => Spec_WithSelector v b
  | OpTemplate v => Spec_WithTemplate v b
  | OpVolumeClaimTemplates vs => Spec_WithVolumeClaimTemplates vs b
  | OpServiceName v => Spec_WithServiceName v b
  | OpPodManagementPolicy v => Spec_WithPodManagementPolicy v b
  | OpUpdateStrategy v => Spec_WithUpdateStrategy v b
  | OpRevisionHistoryLimit v => Spec_WithRevisionHistoryLimit v b
  | OpMinReadySeconds v => Spec_WithMinReadySeconds v b
  | OpRetentionPolicy v => Spec_WithPersistentVolumeClaimRetentionPolicy v b
  | OpOrdinals v => Spec_WithOrdinals v b
  end.

Definition call_status (op : status_op) (b : loc) : buildM loc :=
  match op with
  | OpObservedGeneration v => Status_WithObservedGeneration v b
  | OpStatusReplicas v => Status_WithReplicas v b
  | OpReadyReplicas v => Status_WithReadyReplicas v b
  | OpCurrentReplicas v => Status_WithCurrentReplicas v b
  | OpUpdatedReplicas v => Status_WithUpdatedReplicas v b
  | OpCurrentRevision v => Status_WithCurrentRevision v b
  | OpUpdateRevision v => Status_WithUpdateRevision v b
  | OpCollisionCount v => Status_WithCollisionCount v b
  | OpConditions vs => Status_WithConditions vs b
  | OpAvailableReplicas v => Status_WithAvailableReplicas v b
  | OpStatusSelector v => Status_WithSelector v b
  end.

Definition receiver (op : config_op) : loc := match op with OnSet b _ | OnSpec b _ | OnStatus b _ => b end.
Definition call_config (op : config_op) : buildM loc :=
  match op with OnSet b op => call_set op b | OnSpec b op => call_spec op b | OnStatus b op => call_status op b end.

(** *** What a pointer denotes, and the locations it owns *)

(** The abstract metadata of a struct, given the contents of its maps. *)
Definition with_maps {M M'} (l a : M') (m : ObjectMetaApplyConfiguration M) : ObjectMetaApplyConfiguration M' :=
  {| m_Name := m_Name m; m_GenerateName := m_GenerateName m; m_Namespace := m_Namespace m; m_UID := m_UID m;
     m_ResourceVersion := m_ResourceVersion m; m_Generation := m_Generation m;
     m_CreationTimestamp := m_CreationTimestamp m; m_DeletionTimestamp := m_DeletionTimestamp m;
     m_DeletionGracePeriodSeconds := m_DeletionGracePeriodSeconds m; m_Labels := l; m_Annotations := a;
     m_OwnerReferences := m_OwnerReferences m; m_Finalizers := m_Finalizers m |}.

Definition map_at (h : config_heap) (p : option loc) (v : option (gmap string string)) (D : gset loc) : Prop :=
  match p, v with
  | None, None => D = ∅
  | Some p, Some m => h !! p = Some (CMap m) ∧ D = {[p]}
  | _, _ => False
  end.

Definition meta_at (h : config_heap) (m : loc) (v : meta_val) (D : gset loc) : Prop :=
  ∃ mc Dl Da, h !! m = Some (CMeta mc) ∧ v = with_maps (m_Labels v) (m_Annotations v) mc ∧
    map_at h (m_Labels mc) (m_Labels v) Dl ∧ map_at h (m_Annotations mc) (m_Annotations v) Da ∧
    Dl ## Da ∧ D = {[m]} ∪ Dl ∪ Da.

Definition config_at (h : config_heap) (b : loc) (v : config_val) (D : gset loc) : Prop :=
  ∃ c Dm, h !! b = Some (CConfig c) ∧ a_Kind c = a_Kind v ∧ a_APIVersion c = a_APIVersion v ∧
    a_Spec c = a_Spec v ∧ a_Status c = a_Status v ∧
    match a_ObjectMeta c, a_ObjectMeta v with
    | None, None => Dm = ∅
    | Some m, Some mv => meta_at h m mv Dm
    | _, _ => False
    end ∧ D = {[b]} ∪ Dm.

(** Only owned locations change, and what comes to be owned was not in use. *)
Record frame (h : config_heap) (D : gset loc) (h' : config_heap) (D' : gset loc) : Prop := {
  frame_same l : l ∈ dom h → l ∉ D → h' !! l = h !! l;
  frame_dom : dom h ⊆ dom h';
  frame_owned l : l ∈ D' → l ∈ D ∨ l ∉ dom h;
  frame_grows : D ⊆ D'
}.

Lemma frame_refl h D : frame h D h D.
Proof. split; set_solver. Qed.

Lemma frame_trans h1 D1 h2 D2 h3 D3 : frame h1 D1 h2 D2 → frame h2 D2 h3 D3 → frame h1 D1 h3 D3.
Proof.
  intros [Hs1 Hd1 Ho1 Hg1] [Hs2 Hd2 Ho2 Hg2]. split.
  - intros l Hl Hn. rewrite Hs2; [by apply Hs1|by apply Hd1|]. by intros [?|?]%Ho1.
  - by etrans.
  - intros l [Hl|Hl]%Ho2; [by apply Ho1|]. right. intros ?. by apply Hl, Hd1.
  - by etrans.
Qed.

(** One owned location is overwritten. *)
Lemma frame_write h D l c : l ∈ D → l ∈ dom h → frame h D (<[l := c]> h) D.
Proof.
  intros Hl Hh. split; [|set_solver..].
  intros l' _ Hn. apply lookup_insert_ne. set_solver.
Qed.

Lemma map_at_local h h' p v D : map_at h p v D → (∀ l, l ∈ D → h' !! l = h !! l) → map_at h' p v D.
Proof.
  destruct p, v; try done. intros [Hp ->] Hsame. split; [|done]. rewrite Hsame; [done|]. set_solver.
Qed.

Lemma map_at_dom h p v D : map_at h p v D → D ⊆ dom h.
Proof. destruct p, v; cbn; try done; [intros [? ->]|intros ->]; [|set_solver]. apply singleton_subseteq_l, elem_of_dom. eauto. Qed.

Lemma meta_at_local h h' m v D : meta_at h m v D → (∀ l, l ∈ D → h' !! l = h !! l) → meta_at h' m v D.
Proof.
  intros (mc & Dl & Da & Hm & Hv & Hl & Ha & Hdisj & ->) Hsame. exists mc, Dl, Da.
  split_and!; [rewrite Hsame; [done|set_solver]|done|..|done|done];
    (eapply map_at_local; [done|]; intros l ?; apply Hsame; set_solver).
Qed.

Lemma meta_at_dom h m v D : meta_at h m v D → D ⊆ dom h.
Proof.
  intros (mc & Dl & Da & Hm & Hv & Hl%map_at_dom & Ha%map_at_dom & Hdisj & ->).
  assert (m ∈ dom h) by (apply elem_of_dom; eauto). set_solver.
Qed.

Lemma config_at_local h h' b v D : config_at h b v D → (∀ l, l ∈ D → h' !! l = h !! l) → config_at h' b v D.
Proof.
  intros (c & Dm & Hb & ? & ? & ? & ? & Hm & ->) Hsame. exists c, Dm.
  split_and!; [rewrite Hsame; [done|set_solver]|done..| |done].
  destruct (a_ObjectMeta c), (a_ObjectMeta v); try done.
  eapply meta_at_local; [done|]. intros l ?. apply Hsame. set_solver.
Qed.

Lemma config_at_dom h b v D : config_at h b v D → D ⊆ dom h.
Proof.
  intros (c & Dm & Hb & _ & _ & _ & _ & Hm & ->). assert (b ∈ dom h) by (apply elem_of_dom; eauto).
  assert (Dm ⊆ dom h); [|set_solver].
  destruct (a_ObjectMeta c), (a_ObjectMeta v); try done; [by eapply meta_at_dom|set_solver].
Qed.

Lemma bind_Some {A B} (p : buildM A) (f : A → buildM B) h a h' :
  p h = Some (a, h') → (p ≫= f) h = f a h'.
Proof. intros Hp. unfold mbind, buildM_bind. by rewrite Hp. Qed.
Lemma bind_None {A B} (p : buildM A) (f : A → buildM B) h : p h = None → (p ≫= f) h = None.
Proof. intros Hp. unfold mbind, buildM_bind. by rewrite Hp. Qed.

(** *** Methods on the metadata *)

(** [q] on a pointer does what [g] does to the value: it panics when [g] refuses. *)
Definition meta_refines (q : loc → buildM unit) (g : meta_val → option meta_val) : Prop :=
  ∀ h m v D, meta_at h m v D →
    match g v with
    | Some v' => ∃ h' D', q m h = Some (tt, h') ∧ meta_at h' m v' D' ∧ frame h D h' D'
    | None => q m h = None
    end.

Lemma meta_refines_seq q1 g1 q2 g2 :
  meta_refines q1 g1 → meta_refines q2 g2 →
  meta_refines (λ m, q1 m;; q2 m) (λ v, v' ← g1 v; g2 v').
Proof.
  intros Hq1 Hq2 h m v D Hm. specialize (Hq1 h m v D Hm). unfold mbind, buildM_bind.
  destruct (g1 v) as [v1|]; cbn; [|by rewrite Hq1].
  destruct Hq1 as (h1 & D1 & -> & Hm1 & Hf1). specialize (Hq2 h1 m v1 D1 Hm1). cbn.
  destruct (g2 v1) as [v2|]; [|done]. destruct Hq2 as (h2 & D2 & -> & Hm2 & Hf2).
  exists h2, D2. split_and!; [done..|by eapply frame_trans].
Qed.

Lemma meta_refines_ext q g g' : (∀ v, g v = g' v) → meta_refines q g → meta_refines q g'.
Proof. intros Hg Hq h m v D Hm. rewrite <- Hg. by apply Hq. Qed.

(** An assignment that does not touch the maps. *)
Lemma on_meta_refines f g :
  (∀ l a mc, g (with_maps l a mc) = with_maps l a (f mc)) →
  (∀ mc, m_Labels (f mc) = m_Labels mc ∧ m_Annotations (f mc) = m_Annotations mc) →
  meta_refines (λ m, on_meta m f) (λ v, Some (g v)).
Proof.
  intros Hg Hf h m v D (mc & Dl & Da & Hm & Hv & Hl & Ha & Hdisj & ->).
  destruct (Hf mc) as [HfL HfA]. unfold on_meta. rewrite Hm.
  assert (∀ p w D0, map_at h p w D0 → map_at (<[m := CMeta (f mc)]> h) p w D0) as Hmaps.
  { intros p w D0 Hp. eapply map_at_local; [done|]. intros l Hin. apply lookup_insert_ne. intros <-.
    destruct p as [p|], w; try done; [|by rewrite Hp in Hin]. destruct Hp as [Hp ->].
    apply elem_of_singleton in Hin. congruence. }
  eexists _, _. split; [reflexivity|]. split.
  - exists (f mc), Dl, Da. rewrite Hv, Hg at 1. cbn. rewrite HfL, HfA.
    split_and!; [apply lookup_insert_eq| |..]; try done.
    + rewrite Hv, Hg. done.
    + rewrite Hv, Hg. by apply Hmaps.
    + rewrite Hv, Hg. by apply Hmaps.
  - apply frame_write; [set_solver|]. apply elem_of_dom. eauto.
Qed.

Lemma append_owners_refines vs :
  meta_refines (append_owners vs)
    (λ m, vs ← all_present vs; Some (set_m_OwnerReferences (m_OwnerReferences m ++ vs) m)).
Proof.
  induction vs as [|[v|] vs IH]; cbn [append_owners].
  - intros h m v D Hm. exists h, D. cbn. rewrite app_nil_r. split_and!; [done| |apply frame_refl]. by destruct v.
  - eapply meta_refines_ext; [|apply meta_refines_seq; [|exact IH];
      apply (on_meta_refines _ (λ m, set_m_OwnerReferences (m_OwnerReferences m ++ [v]) m)); by intros].
    intros m. cbn. unfold all_present in *. cbn. destruct (mapM id vs); cbn; [|done]. by rewrite <- (assoc_L (++)).
  - by intros h m v D _.
Qed.

Lemma append_finalizers_refines vs :
  meta_refines (append_finalizers vs) (λ m, Some (set_m_Finalizers (m_Finalizers m ++ vs) m)).
Proof.
  induction vs as [|v vs IH]; cbn [append_finalizers].
  - intros h m v D Hm. exists h, D. rewrite app_nil_r. split_and!; [done| |apply frame_refl]. by destruct v.
  - eapply meta_refines_ext; [|apply meta_refines_seq; [|exact IH];
      apply (on_meta_refines _ (λ m, set_m_Finalizers (m_Finalizers m ++ [v]) m)); by intros].
    intros m. cbn. by rewrite <- (assoc_L (++)).
Qed.

(** *** The maps *)

Lemma put_entries_spec es h p m :
  h !! p = Some (CMap m) → NoDup (fst <$> es) →
  put_entries es (Some p) h = Some (tt, <[p := CMap (list_to_map es ∪ m)]> h).
Proof.
  revert h m. induction es as [|[k v] es IH]; intros h m Hp Hnd; cbn [put_entries].
  - rewrite list_to_map_nil, (left_id_L ∅ (∪)), insert_id by done. done.
  - rewrite fmap_cons, list.NoDup_cons in Hnd. destruct Hnd as [Hk Hnd]. cbn in Hk.
    unfold mbind, buildM_bind, map_set. rewrite Hp. cbn.
    rewrite (IH _ (<[k := v]> m)) by (by try apply lookup_insert_eq).
    rewrite insert_insert_eq. do 4 f_equal. rewrite <- insert_union_r, insert_union_l; [done|].
    by apply not_elem_of_list_to_map_1.
Qed.

Lemma put_range_spec (es : gmap string string) h p m :
  h !! p = Some (CMap m) →
  put_entries (map_range es) (Some p) h = Some (tt, <[p := CMap (es ∪ m)]> h).
Proof.
  intros Hp. rewrite (put_entries_spec _ _ _ m) by (done || rewrite map_range_perm; apply NoDup_fst_map_to_list).
  do 4 f_equal. rewrite <- (list_to_map_to_list es) at 2. f_equal.
  apply list_to_map_proper; [|by rewrite map_range_perm].
  rewrite map_range_perm. apply NoDup_fst_map_to_list.
Qed.

Lemma map_range_nil : map_range (∅ : gmap string string) = [].
Proof. apply Permutation_nil_r. by rewrite map_range_perm, map_to_list_empty. Qed.

(** One of the two maps of the metadata, seen from either side. *)
Lemma meta_at_map w h m v D :
  meta_at h m v D →
  ∃ mc Dw Do, h !! m = Some (CMeta mc) ∧ map_at h (get_map w mc) (get_map w v) Dw ∧
    m ∉ Dw ∧ Dw ## Do ∧ m ∉ Do ∧ D = {[m]} ∪ Dw ∪ Do ∧
    ∀ h' p u D', h' !! m = Some (CMeta (set_map w p mc)) → map_at h' p u D' → D' ## Do → m ∉ D' →
      (∀ l, l ∈ Do → h' !! l = h !! l) → meta_at h' m (set_map w u v) ({[m]} ∪ D' ∪ Do).
Proof.
  intros (mc & Dl & Da & Hm & Hv & Hl & Ha & Hdisj & ->).
  assert (∀ p u D0, map_at h p u D0 → m ∉ D0) as Hno.
  { intros [p|] [u|] D0; cbn; try done; [intros [Hp ->]|intros ->; set_solver].
    intros ->%elem_of_singleton. congruence. }
  destruct w; cbn.
  - exists mc, Dl, Da. split_and!; [done|done|by eapply Hno|done|by eapply Hno|done|].
    intros h' p u D' Hm' Hp Hdisj' _ Hsame. exists (set_m_Labels p mc), D', Da. cbn.
    split_and!; [done|by rewrite Hv|done|by eapply map_at_local|done|done].
  - exists mc, Da, Dl. split_and!; [done|done|by eapply Hno|done|by eapply Hno|set_solver|].
    intros h' p u D' Hm' Hp Hdisj' _ Hsame. exists (set_m_Annotations p mc), Dl, D'. cbn.
    split_and!; [done|by rewrite Hv|by eapply map_at_local|done|done|set_solver].
Qed.

Lemma get_set_map {M} w (p : M) m : get_map w (set_map w p m) = p.
Proof. by destruct w. Qed.
Lemma set_get_map {M} w (m : ObjectMetaApplyConfiguration M) : set_map w (get_map w m) m = m.
Proof. by destruct w, m. Qed.
Lemma set_set_map {M} w (p q : M) m : set_map w p (set_map w q m) = set_map w p m.
Proof. by destruct w. Qed.

Lemma put_map_refines w es :
  meta_refines (put_map w es) (λ v, Some (set_map w (merge_map es (get_map w v)) v)).
Proof.
  intros h m v D Hat. destruct (meta_at_map w _ _ _ _ Hat) as (mc & Dw & Do & Hm & Hw & HmDw & Hdisj & HmDo & -> & Hre).
  unfold put_map, mbind, buildM_bind, read_meta. rewrite Hm. cbn.
  destruct (get_map w mc) as [p|] eqn:Hp, (get_map w v) as [mv|] eqn:Hv; try done; cbn.
  - (* the map is there *)
    destruct Hw as [Hmap ->]. rewrite Hm. cbn. rewrite Hp, (put_range_spec _ _ _ mv) by done. cbn.
    eexists _, ({[m]} ∪ {[p]} ∪ Do). split; [reflexivity|].
    split; [apply (Hre _ (Some p))|apply frame_write; [set_solver|apply elem_of_dom; eauto]].
    + rewrite lookup_insert_ne by set_solver. rewrite <- Hp, set_get_map. done.
    + split; [apply lookup_insert_eq|done].
    + done.
    + done.
    + intros l Hl. apply lookup_insert_ne. set_solver.
  - (* a nil map *)
    cbn in Hw. subst Dw. destruct (decide (es = ∅)) as [->|Hes]; cbn.
    + rewrite bool_decide_eq_false_2 by auto. cbn. rewrite Hm. cbn. rewrite Hp, map_range_nil. cbn.
      exists h, ({[m]} ∪ ∅ ∪ Do). rewrite bool_decide_eq_true_2, <- Hv, set_get_map by done.
      split_and!; [done|done|apply frame_refl].
    + rewrite (bool_decide_eq_true_2 (es ≠ ∅)), (bool_decide_eq_false_2 (es = ∅)) by done. cbn.
      set (l := fresh (dom h)). assert (l ∉ dom h) as Hl by apply is_fresh.
      assert (m ∈ dom h) as Hmd by (apply elem_of_dom; eauto).
      assert (m ≠ l) as Hne by (intros ->; done).
      unfold on_meta. rewrite lookup_insert_ne, Hm by done. cbn.
      rewrite lookup_insert_eq. cbn. rewrite get_set_map, (put_range_spec _ _ _ ∅)
        by (rewrite lookup_insert_ne by done; apply lookup_insert_eq). cbn.
      assert (Do ⊆ dom h) as HDo by (pose proof (meta_at_dom _ _ _ _ Hat); set_solver).
      eexists _, ({[m]} ∪ {[l]} ∪ Do). split; [reflexivity|]. split.
      * apply (Hre _ (Some l)).
        -- rewrite lookup_insert_ne by done. apply lookup_insert_eq.
        -- split; [rewrite lookup_insert_eq; by rewrite (right_id_L ∅ (∪))|done].
        -- set_solver.
        -- set_solver.
        -- intros l' Hl'. rewrite !lookup_insert_ne by (intros ->; set_solver). done.
      * split; [|set_solver..]. intros l' Hl' Hn. rewrite !lookup_insert_ne; [done|..]; intros ->; set_solver.
Qed.

(** *** Methods on a configuration *)

Definition config_refines (p : loc → buildM loc) (g : config_val → option config_val) : Prop :=
  ∀ h b v D, config_at h b v D →
    match g v with
    | Some v' => ∃ h' D', p b h = Some (b, h') ∧ config_at h' b v' D' ∧ frame h D h' D'
    | None => p b h = None
    end.

Lemma on_config_refines f g :
  (∀ c, a_ObjectMeta (f c) = a_ObjectMeta c) → (∀ v, a_ObjectMeta (g v) = a_ObjectMeta v) →
  (∀ c v, a_Kind c = a_Kind v → a_APIVersion c = a_APIVersion v → a_Spec c = a_Spec v → a_Status c = a_Status v →
     a_Kind (f c) = a_Kind (g v) ∧ a_APIVersion (f c) = a_APIVersion (g v) ∧
     a_Spec (f c) = a_Spec (g v) ∧ a_Status (f c) = a_Status (g v)) →
  config_refines (λ b, on_config b f;; mret b) (λ v, Some (g v)).
Proof.
  intros Hf Hg Hfg h b v D (c & Dm & Hb & Hk & Ha & Hs & Ht & Hm & ->).
  unfold mbind, buildM_bind, on_config. rewrite Hb. cbn. eexists _, _. split; [reflexivity|].
  split; [|apply frame_write; [set_solver|apply elem_of_dom; eauto]].
  destruct (Hfg c v Hk Ha Hs Ht) as (? & ? & ? & ?). exists (f c), Dm. rewrite Hf, Hg.
  split_and!; [apply lookup_insert_eq|done..| |done].
  destruct (a_ObjectMeta c) as [m|], (a_ObjectMeta v) as [mv|]; try done.
  eapply meta_at_local; [done|]. intros l Hl. apply lookup_insert_ne. intros <-.
  destruct Hm as (mc & Dl & Da & Hmc & _ & HDl & HDa & _ & ->).
  assert (∀ q u D0, map_at h q u D0 → b ∉ D0) as Hno.
  { intros [q|] [u|] D0; cbn; try done; [intros [Hq ->]|intros ->; set_solver].
    intros ->%elem_of_singleton. congruence. }
  apply Hno in HDl, HDa. assert (b = m) by set_solver. congruence.
Qed.

(** The metadata exists afterwards: what was there, or an empty one. *)
Lemma ensure_at h b v D :
  config_at h b v D →
  ∃ h' m Dm c D', ensureObjectMetaApplyConfigurationExists b h = Some (tt, h') ∧
    h' !! b = Some (CConfig c) ∧ a_ObjectMeta c = Some m ∧
    a_Kind c = a_Kind v ∧ a_APIVersion c = a_APIVersion v ∧ a_Spec c = a_Spec v ∧ a_Status c = a_Status v ∧
    meta_at h' m (default (empty_meta None) (a_ObjectMeta v)) Dm ∧ b ∉ Dm ∧
    D' = {[b]} ∪ Dm ∧ frame h D h' D'.
Proof.
  intros Hat. pose proof (config_at_dom _ _ _ _ Hat) as Hdom.
  destruct Hat as (c & Dm & Hb & Hk & Ha & Hs & Ht & Hm & ->).
  unfold ensureObjectMetaApplyConfigurationExists, mbind, buildM_bind, read_config. rewrite Hb. cbn.
  destruct (a_ObjectMeta c) as [m|] eqn:Hc, (a_ObjectMeta v) as [mv|]; try done; cbn.
  - exists h, m, Dm, c, ({[b]} ∪ Dm). split_and!; try done; [|apply frame_refl].
    destruct Hm as (mc & Dl & Da & Hmc & _ & HDl & HDa & _ & ->).
    assert (∀ q u D0, map_at h q u D0 → b ∉ D0) as Hno.
    { intros [q|] [u|] D0; cbn; try done; [intros [Hq ->]|intros ->; set_solver].
      intros ->%elem_of_singleton. congruence. }
    apply Hno in HDl, HDa. assert (b ≠ m) by congruence. set_solver.
  - subst Dm. set (m := fresh (dom h)). assert (m ∉ dom h) as Hfresh by apply is_fresh.
    assert (b ≠ m) as Hne by (intros ->; apply Hfresh, elem_of_dom; eauto).
    unfold on_config. rewrite lookup_insert_ne, Hb by done. cbn.
    exists (<[b := CConfig (set_a_ObjectMeta (Some m) c)]> (<[m := CMeta (empty_meta None)]> h)), m, {[m]},
      (set_a_ObjectMeta (Some m) c), ({[b]} ∪ {[m]}).
    split_and!; try done; [apply lookup_insert_eq| |set_solver|].
    + exists (empty_meta None), ∅, ∅.
      split_and!; try done; [rewrite lookup_insert_ne by done; apply lookup_insert_eq|set_solver].
    + split; [|set_solver..]. intros l Hl Hn. rewrite !lookup_insert_ne; [done|..]; intros <-; set_solver.
Qed.

Lemma meta_of_at h b c m : h !! b = Some (CConfig c) → a_ObjectMeta c = Some m → meta_of b h = Some (m, h).
Proof. intros Hb Hc. unfold meta_of, mbind, buildM_bind, read_config. rewrite Hb. cbn. by rewrite Hc. Qed.

Lemma meta_method_refines q g :
  meta_refines q g →
  config_refines
    (λ b, ensureObjectMetaApplyConfigurationExists b;; m ← meta_of b; q m;; mret b)
    (λ v, m ← g (default (empty_meta None) (a_ObjectMeta v)); Some (set_a_ObjectMeta (Some m) v)).
Proof.
  intros Hq h b v D Hat.
  destruct (ensure_at _ _ _ _ Hat) as (h1 & m & Dm & c & D1 & Hens & Hb & Hc & Hk & Ha & Hs & Ht & Hm & HbD & -> & Hf1).
  specialize (Hq h1 m _ Dm Hm). rewrite (bind_Some _ _ _ _ _ Hens).
  rewrite (bind_Some _ _ _ _ _ (meta_of_at _ _ _ _ Hb Hc)).
  destruct (g _) as [v'|] eqn:Hg; cbn; [|by apply bind_None].
  destruct Hq as (h2 & D2 & Hq & Hm2 & Hf2). rewrite (bind_Some _ _ _ _ _ Hq).
  assert (b ∈ dom h1) as Hbd by (apply elem_of_dom; eauto).
  assert (b ∉ D2) as HbD2 by (intros [?|?]%(frame_owned _ _ _ _ Hf2); done).
  exists h2, ({[b]} ∪ D2). split; [done|]. split.
  - exists c, D2. cbn. rewrite (frame_same _ _ _ _ Hf2), Hc by done. by split_and!.
  - eapply frame_trans; [exact Hf1|]. destruct Hf2 as [Hsame Hd Ho Hgr]. split; [|done|set_solver..].
    intros l Hl Hn. apply Hsame; [done|set_solver].
Qed.

Lemma config_refines_ext p g g' : (∀ v, g v = g' v) → config_refines p g → config_refines p g'.
Proof. intros Hg Hp h b v D Hat. rewrite <- Hg. by apply Hp. Qed.

(** A method that assigns one field of the metadata other than the maps. *)
Lemma with_meta_refines (f : ∀ M, ObjectMetaApplyConfiguration M → ObjectMetaApplyConfiguration M) :
  (∀ M M' (l a : M') (mc : ObjectMetaApplyConfiguration M), f _ (with_maps l a mc) = with_maps l a (f _ mc)) →
  (∀ M (mc : ObjectMetaApplyConfiguration M),
     m_Labels (f _ mc) = m_Labels mc ∧ m_Annotations (f _ mc) = m_Annotations mc) →
  config_refines (with_meta (f _))
    (λ v, Some (set_a_ObjectMeta (Some (f _ (default (empty_meta None) (a_ObjectMeta v)))) v)).
Proof.
  intros Hmaps Hsame.
  apply (meta_method_refines (λ m, on_meta m (f _)) (λ v, Some (f _ v))), on_meta_refines; auto.
Qed.

Lemma set_op_refines op : config_refines (call_set op) (set_effect op).
Proof.
  destruct op as [v|v|v|v|v|v|v|v|v|v|v|es|es|vs|vs|v|v].
  1,2,16,17: by apply on_config_refines; intros.
  - by apply (with_meta_refines (λ M, set_m_Name (Some v))).
  - by apply (with_meta_refines (λ M, set_m_GenerateName (Some v))).
  - by apply (with_meta_refines (λ M, set_m_Namespace (Some v))).
  - by apply (with_meta_refines (λ M, set_m_UID (Some v))).
  - by apply (with_meta_refines (λ M, set_m_ResourceVersion (Some v))).
  - by apply (with_meta_refines (λ M, set_m_Generation (Some v))).
  - by apply (with_meta_refines (λ M, set_m_CreationTimestamp (Some v))).
  - by apply (with_meta_refines (λ M, set_m_DeletionTimestamp (Some v))).
  - by apply (with_meta_refines (λ M, set_m_DeletionGracePeriodSeconds (Some v))).
  - apply (meta_method_refines _ _ (put_map_refines LabelsField es)).
  - apply (meta_method_refines _ _ (put_map_refines AnnotationsField es)).
  - apply (meta_method_refines _ _ (append_owners_refines vs)).
  - apply (meta_method_refines _ _ (append_finalizers_refines vs)).
Qed.

(** *** Specifications and statuses: one location each *)

Lemma templates_refines vs h b s :
  h !! b = Some (CSpecConfig s) →
  Spec_WithVolumeClaimTemplates vs b h =
  match all_present vs with
  | Some vs => Some (b, <[b := CSpecConfig (set_s_VolumeClaimTemplates (s_VolumeClaimTemplates s ++ vs) s)]> h)
  | None => None
  end.
Proof.
  unfold all_present. revert h s. induction vs as [|[v|] vs IH]; intros h s Hb; cbn.
  - rewrite app_nil_r, insert_id; [done|]. rewrite Hb. by destruct s.
  - unfold mbind at 1, buildM_bind, on_spec. rewrite Hb. cbn.
    rewrite (IH _ _ (lookup_insert_eq _ _ _)). destruct (mapM id vs); cbn; [|done].
    by rewrite insert_insert_eq, <- (assoc_L (++)).
  - done.
Qed.

Lemma conditions_refines vs h b s :
  h !! b = Some (CStatusConfig s) →
  Status_WithConditions vs b h =
  match all_present vs with
  | Some vs => Some (b, <[b := CStatusConfig (set_t_Conditions (t_Conditions s ++ vs) s)]> h)
  | None => None
  end.
Proof.
  unfold all_present. revert h s. induction vs as [|[v|] vs IH]; intros h s Hb; cbn.
  - rewrite app_nil_r, insert_id; [done|]. rewrite Hb. by destruct s.
  - unfold mbind at 1, buildM_bind, on_status. rewrite Hb. cbn.
    rewrite (IH _ _ (lookup_insert_eq _ _ _)). destruct (mapM id vs); cbn; [|done].
    by rewrite insert_insert_eq, <- (assoc_L (++)).
  - done.
Qed.

Lemma spec_op_refines op h b s :
  h !! b = Some (CSpecConfig s) →
  call_spec op b h = (s' ← spec_effect op s; Some (b, <[b := CSpecConfig s']> h)).
Proof.
  intros Hb. destruct op; cbn; try (unfold Spec_WithReplicas, Spec_WithSelector, Spec_WithTemplate,
    Spec_WithServiceName, Spec_WithPodManagementPolicy, Spec_WithUpdateStrategy, Spec_WithRevisionHistoryLimit,
    Spec_WithMinReadySeconds, Spec_WithPersistentVolumeClaimRetentionPolicy, Spec_WithOrdinals, on_spec;
    by rewrite Hb).
  rewrite (templates_refines _ _ _ _ Hb). by destruct (all_present values).
Qed.

Lemma status_op_refines op h b s :
  h !! b = Some (CStatusConfig s) →
  call_status op b h = (s' ← status_effect op s; Some (b, <[b := CStatusConfig s']> h)).
Proof.
  intros Hb. destruct op; cbn; try (unfold Status_WithObservedGeneration, Status_WithReplicas,
    Status_WithReadyReplicas, Status_WithCurrentReplicas, Status_WithUpdatedReplicas, Status_WithCurrentRevision,
    Status_WithUpdateRevision, Status_WithCollisionCount, Status_WithAvailableReplicas, Status_WithSelector,
    on_status; by rewrite Hb).
  rewrite (conditions_refines _ _ _ _ Hb). by destruct (all_present values).
Qed.

(** *** Several objects *)

(** The heap holds these objects, and no two configurations share what they own. *)
Record represents (D : loc → gset loc) (h : config_heap) (W : configs) : Prop := {
  rep_set b v : the_sets W !! b = Some v → config_at h b v (D b);
  rep_apart b1 b2 : is_Some (the_sets W !! b1) → is_Some (the_sets W !! b2) → b1 ≠ b2 → D b1 ## D b2;
  rep_spec b s : the_specs W !! b = Some s → h !! b = Some (CSpecConfig s);
  rep_status b s : the_statuses W !! b = Some s → h !! b = Some (CStatusConfig s)
}.

(** A configuration owns no specification and no status. *)
Lemma config_at_owns h b v D l :
  config_at h b v D → l ∈ D →
  (∃ c, h !! l = Some (CConfig c)) ∨ (∃ m, h !! l = Some (CMeta m)) ∨ (∃ m, h !! l = Some (CMap m)).
Proof.
  intros (c & Dm & Hb & _ & _ & _ & _ & Hm & ->) [->%elem_of_singleton|Hl]%elem_of_union; [left; by exists c|].
  destruct (a_ObjectMeta c) as [m|], (a_ObjectMeta v) as [mv|]; try done; [|set_solver].
  destruct Hm as (mc & Dl & Da & Hmc & _ & HDl & HDa & _ & ->).
  apply elem_of_union in Hl as [[->%elem_of_singleton|Hl]%elem_of_union|Hl]; [right; left; by exists mc|..]; right; right.
  - destruct (m_Labels mc), (m_Labels mv); try done; [|cbn in HDl; set_solver]. destruct HDl as [Hp ->].
    apply elem_of_singleton in Hl as ->. eauto.
  - destruct (m_Annotations mc), (m_Annotations mv); try done; [|cbn in HDa; set_solver]. destruct HDa as [Hp ->].
    apply elem_of_singleton in Hl as ->. eauto.
Qed.

(** A configuration changes within its own locations and fresh ones: the others stay. *)
Lemma represents_set D h W b v v' h' D' :
  represents D h W → the_sets W !! b = Some v → config_at h' b v' D' → frame h (D b) h' D' →
  represents (λ l, if decide (l = b) then D' else D l) h'
    {| the_sets := <[b := v']> (the_sets W); the_specs := the_specs W; the_statuses := the_statuses W |}.
Proof.
  intros [Hset Hapart Hspec Hstatus] Hb Hat [Hsame Hd Ho Hg].
  assert (∀ b2 v2, the_sets W !! b2 = Some v2 → b2 ≠ b → D b2 ## D' ∧ ∀ l, l ∈ D b2 → h' !! l = h !! l) as Hother.
  { intros b2 v2 Hb2 Hne. pose proof (config_at_dom _ _ _ _ (Hset _ _ Hb2)) as Hdom2.
    assert (D b2 ## D b) as Hdis by (apply Hapart; eauto).
    split; [|intros l Hl; apply Hsame; set_solver]. intros l Hl [?|?]%Ho; set_solver. }
  split; cbn.
  - intros b2 v2 [[<- <-]|[Hne Hb2]]%lookup_insert_Some; [by rewrite decide_True|].
    rewrite decide_False by done. eapply config_at_local; [by apply Hset|]. by eapply Hother.
  - intros b1 b2 [v1 Hb1] [v2 Hb2] Hne. apply lookup_insert_Some in Hb1, Hb2.
    destruct (decide (b1 = b)) as [->|?], (decide (b2 = b)) as [->|?]; try done.
    + destruct Hb2 as [[? _]|[_ Hb2]]; [congruence|]. symmetry. by eapply Hother.
    + destruct Hb1 as [[? _]|[_ Hb1]]; [congruence|]. by eapply Hother.
    + destruct Hb1 as [[? _]|[_ Hb1]], Hb2 as [[? _]|[_ Hb2]]; try congruence. apply Hapart; eauto.
  - intros s x Hs. specialize (Hspec _ _ Hs). rewrite Hsame; [done|apply elem_of_dom; eauto|].
    intros Hin. destruct (config_at_owns _ _ _ _ _ (Hset _ _ Hb) Hin) as [[??]|[[??]|[??]]]; congruence.
  - intros s x Hs. specialize (Hstatus _ _ Hs). rewrite Hsame; [done|apply elem_of_dom; eauto|].
    intros Hin. destruct (config_at_owns _ _ _ _ _ (Hset _ _ Hb) Hin) as [[??]|[[??]|[??]]]; congruence.
Qed.

Lemma op_represents D h W op :
  represents D h W → known W op →
  match effect op W with
  | Some W' => ∃ h' D', call_config op h = Some (receiver op, h') ∧ represents D' h' W'
  | None => call_config op h = None
  end.
Proof.
  intros HW Hk. pose proof HW as [Hset Hapart Hspec Hstatus].
  assert (∀ b c, (∀ l v, the_sets W !! l = Some v → b ∉ D l) →
    ∀ l v, the_sets W !! l = Some v → config_at (<[b := c]> h) l v (D l)) as Hwrite.
  { intros b c Hno l v Hl. eapply config_at_local; [by apply Hset|].
    intros l' Hin. apply lookup_insert_ne. intros <-. by eapply Hno. }
  destruct op as [b op|b op|b op]; destruct Hk as [v Hv]; cbn; rewrite Hv; cbn.
  - pose proof (set_op_refines op h b v (D b) (Hset _ _ Hv)) as Hop.
    destruct (set_effect op v) as [v'|]; cbn; [|done]. destruct Hop as (h' & D' & Hcall & Hat & Hf).
    exists h', (λ l, if decide (l = b) then D' else D l). split; [done|]. by eapply represents_set.
  - specialize (Hspec _ _ Hv). rewrite (spec_op_refines _ _ _ _ Hspec).
    destruct (spec_effect op v) as [v'|]; cbn; [|done]. eexists _, D. split; [done|].
    assert (∀ l w, the_sets W !! l = Some w → b ∉ D l) as Hno.
    { intros l w Hl Hin. destruct (config_at_owns _ _ _ _ _ (Hset _ _ Hl) Hin) as [[??]|[[??]|[??]]]; congruence. }
    split; cbn; [by apply Hwrite|done| |].
    + intros l x [[<- <-]|[Hne Hl]]%lookup_insert_Some; [apply lookup_insert_eq|].
      rewrite lookup_insert_ne by done. by apply HW.
    + intros l x Hl. rewrite lookup_insert_ne; [by apply HW|]. intros <-. apply Hstatus in Hl. congruence.
  - specialize (Hstatus _ _ Hv). rewrite (status_op_refines _ _ _ _ Hstatus).
    destruct (status_effect op v) as [v'|]; cbn; [|done]. eexists _, D. split; [done|].
    assert (∀ l w, the_sets W !! l = Some w → b ∉ D l) as Hno.
    { intros l w Hl Hin. destruct (config_at_owns _ _ _ _ _ (Hset _ _ Hl) Hin) as [[??]|[[??]|[??]]]; congruence. }
    split; cbn; [by apply Hwrite|done| |].
    + intros l x Hl. rewrite lookup_insert_ne; [by apply HW|]. intros <-. apply Hspec in Hl. congruence.
    + intros l x [[<- <-]|[Hne Hl]]%lookup_insert_Some; [apply lookup_insert_eq|].
      rewrite lookup_insert_ne by done. by apply HW.
Qed.

(** *** Fresh objects *)

Lemma represents_fresh D h W b :
  represents D h W → b ∉ dom h →
  (∀ l v, the_sets W !! l = Some v → l ≠ b ∧ b ∉ D l) ∧ the_specs W !! b = None ∧ the_statuses W !! b = None.
Proof.
  intros [Hset _ Hspec Hstatus] Hb. split_and!.
  - intros l v Hl%Hset. split.
    + intros ->. destruct Hl as (c & _ & Hl & _). apply Hb, elem_of_dom. eauto.
    + intros Hin%(config_at_dom _ _ _ _ Hl). done.
  - destruct (the_specs W !! b) eqn:Hs; [|done]. destruct Hb. apply Hspec in Hs. apply elem_of_dom. eauto.
  - destruct (the_statuses W !! b) eqn:Hs; [|done]. destruct Hb. apply Hstatus in Hs. apply elem_of_dom. eauto.
Qed.

(** Whatever is put at a fresh location, the objects stay. *)
Lemma represents_alloc D h W b c : represents D h W → b ∉ dom h → represents D (<[b := c]> h) W.
Proof.
  intros HW Hb. destruct (represents_fresh _ _ _ _ HW Hb) as (Hsets & Hspecs & Hstatuses).
  destruct HW as [Hset Hapart Hspec Hstatus]. split; [|done|..].
  - intros l v Hl. eapply config_at_local; [by apply Hset|].
    intros l' Hin. apply lookup_insert_ne. intros <-. by eapply Hsets.
  - intros l s Hl. rewrite lookup_insert_ne by congruence. by apply Hspec.
  - intros l s Hl. rewrite lookup_insert_ne by congruence. by apply Hstatus.
Qed.

Definition add_set (b : loc) (v : config_val) (W : configs) : configs :=
  {| the_sets := <[b := v]> (the_sets W); the_specs := the_specs W; the_statuses := the_statuses W |}.
Definition add_spec (b : loc) s (W : configs) : configs :=
  {| the_sets := the_sets W; the_specs := <[b := s]> (the_specs W); the_statuses := the_statuses W |}.
Definition add_status (b : loc) s (W : configs) : configs :=
  {| the_sets := the_sets W; the_specs := the_specs W; the_statuses := <[b := s]> (the_statuses W) |}.

Lemma represents_add_set D h W b :
  represents D h W → b ∉ dom h →
  represents (λ l, if decide (l = b) then {[b]} else D l) (<[b := CConfig empty_config]> h)
    (add_set b empty_config W).
Proof.
  intros HW Hb. destruct (represents_fresh _ _ _ _ HW Hb) as (Hsets & _ & _).
  destruct (represents_alloc _ _ _ _ (CConfig empty_config) HW Hb) as [Hset Hapart Hspec Hstatus].
  split; cbn; [| |done..].
  - intros l v [[<- <-]|[Hne Hl]]%lookup_insert_Some.
    + rewrite decide_True by done. exists empty_config, ∅. split_and!; [apply lookup_insert_eq|done..|set_solver].
    + rewrite decide_False by done. by apply Hset.
  - intros b1 b2 [v1 [[? _]|[H1' Hb1]]%lookup_insert_Some] [v2 [[? _]|[H2' Hb2]]%lookup_insert_Some] Hne;
      repeat case_decide; try congruence; [..|apply Hapart; eauto].
    + destruct (Hsets _ _ Hb2). set_solver.
    + destruct (Hsets _ _ Hb1). set_solver.
Qed.

Lemma represents_add_spec D h W b s :
  represents D h W → b ∉ dom h → represents D (<[b := CSpecConfig s]> h) (add_spec b s W).
Proof.
  intros HW Hb. destruct (represents_alloc _ _ _ _ (CSpecConfig s) HW Hb) as [Hset Hapart Hspec Hstatus].
  split; cbn; [done|done| |done].
  intros l x [[<- <-]|[Hne Hl]]%lookup_insert_Some; [apply lookup_insert_eq|by apply Hspec].
Qed.

Lemma represents_add_status D h W b s :
  represents D h W → b ∉ dom h → represents D (<[b := CStatusConfig s]> h) (add_status b s W).
Proof.
  intros HW Hb. destruct (represents_alloc _ _ _ _ (CStatusConfig s) HW Hb) as [Hset Hapart Hspec Hstatus].
  split; cbn; [done|done|done|].
  intros l x [[<- <-]|[Hne Hl]]%lookup_insert_Some; [apply lookup_insert_eq|by apply Hstatus].
Qed.

(** The configuration [XStatefulSet(name, namespace)] builds. *)
Definition named_config (name namespace : string) : config_val :=
  {| a_Kind := Some "XStatefulSet"; a_APIVersion := Some "apps.x-k8s.io/v1";
     a_ObjectMeta := Some (set_m_Namespace (Some namespace) (set_m_Name (Some name) (empty_meta None)));
     a_Spec := None; a_Status := None |}.

Lemma new_config_represents D h W name namespace :
  represents D h W →
  ∃ b h' D', NewXStatefulSetConfig name namespace h = Some (b, h') ∧ b ∉ dom h ∧
    represents D' h' (add_set b (named_config name namespace) W).
Proof.
  intros HW. set (b := fresh (dom h)). assert (b ∉ dom h) as Hb by apply is_fresh.
  assert (∀ W0 D0 h0 v op v', represents D0 h0 (add_set b v W0) → set_effect op v = Some v' →
    ∃ h1 D1, call_set op b h0 = Some (b, h1) ∧ represents D1 h1 (add_set b v' W0)) as Hstep.
  { intros W0 D0 h0 v op v' HR Hv. pose proof (op_represents D0 h0 _ (OnSet b op) HR) as Hop.
    cbn in Hop. rewrite lookup_insert_eq in Hop. cbn in Hop. rewrite Hv in Hop. cbn in Hop.
    rewrite insert_insert_eq in Hop. apply Hop. eauto. }
  destruct (Hstep _ _ _ _ (OpName name) _ (represents_add_set _ _ _ _ HW Hb) eq_refl) as (h1 & D1 & E1 & HR1).
  destruct (Hstep _ _ _ _ (OpNamespace namespace) _ HR1 eq_refl) as (h2 & D2 & E2 & HR2).
  destruct (Hstep _ _ _ _ (OpKind "XStatefulSet") _ HR2 eq_refl) as (h3 & D3 & E3 & HR3).
  destruct (Hstep _ _ _ _ (OpAPIVersion "apps.x-k8s.io/v1") _ HR3 eq_refl) as (h4 & D4 & E4 & HR4).
  exists b, h4, D4. split_and!; [|done|exact HR4].
  unfold NewXStatefulSetConfig. rewrite (bind_Some _ _ _ b (<[b := CConfig empty_config]> h)) by done.
  by rewrite (bind_Some _ _ _ _ _ E1), (bind_Some _ _ _ _ _ E2), (bind_Some _ _ _ _ _ E3), (bind_Some _ _ _ _ _ E4).
Qed.

(** *** Getters *)

Lemma read_config_represents D h W b v :
  represents D h W → the_sets W !! b = Some v →
  ∃ c, read_config b h = Some (c, h) ∧ a_Kind c = a_Kind v ∧ a_APIVersion c = a_APIVersion v.
Proof.
  intros [Hset _ _ _] (c & Dm & Hb & Hk & Ha & _)%Hset. exists c. unfold read_config. by rewrite Hb.
Qed.

(** The value with its metadata allocated. *)
Definition with_metadata (v : config_val) : config_val :=
  set_a_ObjectMeta (Some (default (empty_meta None) (a_ObjectMeta v))) v.

Lemma getter_represents {A} (g : ∀ M, ObjectMetaApplyConfiguration M → A) D h W b v :
  (∀ M (l a : option (gmap string string)) (mc : ObjectMetaApplyConfiguration M), g _ (with_maps l a mc) = g _ mc) →
  represents D h W → the_sets W !! b = Some v →
  ∃ h' D', (ensureObjectMetaApplyConfigurationExists b;; m ← meta_of b; mv ← read_meta m; mret (g _ mv)) h =
      Some (g _ (default (empty_meta None) (a_ObjectMeta v)), h') ∧
    represents D' h' (add_set b (with_metadata v) W).
Proof.
  intros Hg HW Hv. destruct (ensure_at _ _ _ _ (rep_set _ _ _ HW _ _ Hv))
    as (h' & m & Dm & c & D' & Hens & Hb & Hc & Hk & Ha & Hs & Ht & Hm & HbD & -> & Hf).
  exists h', (λ l, if decide (l = b) then {[b]} ∪ Dm else D l). split.
  - rewrite (bind_Some _ _ _ _ _ Hens), (bind_Some _ _ _ _ _ (meta_of_at _ _ _ _ Hb Hc)).
    destruct Hm as (mc & ? & ? & Hmc & Hval & _).
    assert (read_meta m h' = Some (mc, h')) as Hread by (unfold read_meta; by rewrite Hmc).
    rewrite (bind_Some _ _ _ _ _ Hread), Hval, Hg. done.
  - eapply represents_set; [done..| |done]. exists c, Dm. cbn. rewrite Hc. by split_and!.
Qed.

(** *** Clients of the package *)

Inductive config_call :=
| CallXStatefulSet (name namespace : string)
| CallXStatefulSetSpec
| CallXStatefulSetStatus
| CallMethod (op : config_op)
| CallGetKind (b : loc)
| CallGetAPIVersion (b : loc)
| CallGetName (b : loc)
| CallGetNamespace (b : loc).

Definition config_reply (e : config_call) : Type :=
  match e with
  | CallXStatefulSet _ _ | CallXStatefulSetSpec | CallXStatefulSetStatus | CallMethod _ => loc
  | _ => option string
  end.

Definition perform (e : config_call) : buildM (config_reply e) :=
  match e with
  | CallXStatefulSet name namespace => NewXStatefulSetConfig name namespace
  | CallXStatefulSetSpec => XStatefulSetSpec_config
  | CallXStatefulSetStatus => XStatefulSetStatus_config
  | CallMethod op => call_config op
  | CallGetKind b => GetKind b
  | CallGetAPIVersion b => GetAPIVersion b
  | CallGetName b => GetName b
  | CallGetNamespace b => GetNamespace b
  end.

(** A client on the heap; [None] is a panic. *)
Fixpoint exec {A} (p : prog config_reply A) : buildM A :=
  match p with
  | Ret a => mret a
  | Panic => panic
  | Vis e k => r ← perform e; exec (k r)
  end.

(** The receivers are objects that were constructed. *)
Definition knows (W : configs) (e : config_call) : Prop :=
  match e with
  | CallMethod op => known W op
  | CallGetKind b | CallGetAPIVersion b | CallGetName b | CallGetNamespace b => is_Some (the_sets W !! b)
  | _ => True
  end.

Definition unused (b : loc) (W : configs) : Prop :=
  the_sets W !! b = None ∧ the_specs W !! b = None ∧ the_statuses W !! b = None.

Definition reads (b : loc) (W : configs) {A} (g : config_val → A) (r : A) : Prop :=
  ∃ v, the_sets W !! b = Some v ∧ r = g v.
Definition meta_field {A} (g : meta_val → option A) (v : config_val) : option A := m ← a_ObjectMeta v; g m.

(** The abstract meaning of a call that returns. *)
Definition answers (W : configs) (e : config_call) : config_reply e → configs → Prop :=
  match e with
  | CallXStatefulSet name namespace => λ b W', unused b W ∧ W' = add_set b (named_config name namespace) W
  | CallXStatefulSetSpec => λ b W', unused b W ∧ W' = add_spec b empty_spec W
  | CallXStatefulSetStatus => λ b W', unused b W ∧ W' = add_status b empty_status W
  | CallMethod op => λ b W', b = receiver op ∧ effect op W = Some W'
  | CallGetKind b => λ r W', reads b W a_Kind r ∧ W' = W
  | CallGetAPIVersion b => λ r W', reads b W a_APIVersion r ∧ W' = W
  | CallGetName b => λ r W', reads b W (meta_field m_Name) r ∧ reads b W (λ v, add_set b (with_metadata v) W) W'
  | CallGetNamespace b =>
      λ r W', reads b W (meta_field m_Namespace) r ∧ reads b W (λ v, add_set b (with_metadata v) W) W'
  end.
(** Calls that panic: those a nil element is passed to. *)
Definition panics (W : configs) (e : config_call) : Prop :=
  match e with CallMethod op => effect op W = None | _ => False end.

Lemma perform_represents D h W e :
  represents D h W → knows W e →
  match perform e h with
  | Some (r, h') => ∃ W' D', answers W e r W' ∧ represents D' h' W'
  | None => panics W e
  end.
Proof.
  intros HW Hk. assert (∀ b, b ∉ dom h → unused b W) as Hun.
  { intros b Hb. destruct (represents_fresh _ _ _ _ HW Hb) as (Hs & ? & ?). split_and!; [|done..].
    destruct (the_sets W !! b) eqn:E; [|done]. by destruct (Hs _ _ E). }
  destruct e as [name namespace| | |op|b|b|b|b].
  - destruct (new_config_represents _ _ _ name namespace HW) as (b & h' & D' & Hnew & Hb & HW').
    cbn [perform]. rewrite Hnew. eexists _, D'. split; [by split; [apply Hun|]|done].
  - exists (add_spec (fresh (dom h)) empty_spec W), D.
    assert (fresh (dom h) ∉ dom h) as Hb by apply is_fresh.
    split; [by split; [apply Hun|]|by apply represents_add_spec].
  - exists (add_status (fresh (dom h)) empty_status W), D.
    assert (fresh (dom h) ∉ dom h) as Hb by apply is_fresh.
    split; [by split; [apply Hun|]|by apply represents_add_status].
  - pose proof (op_represents _ _ _ _ HW Hk) as Hop. cbn [perform answers panics].
    destruct (effect op W) as [W'|]; [|by rewrite Hop].
    destruct Hop as (h' & D' & -> & HW'). by exists W', D'.
  - destruct Hk as [v Hv]. destruct (read_config_represents _ _ _ _ _ HW Hv) as (c & Hc & Hkind & _).
    cbn [perform]. unfold GetKind. rewrite (bind_Some _ _ _ _ _ Hc). cbn. 
    exists W, D. rewrite Hkind. split; [|done]. split; [by exists v|done].
  - destruct Hk as [v Hv]. destruct (read_config_represents _ _ _ _ _ HW Hv) as (c & Hc & _ & Hversion).
    cbn [perform]. unfold GetAPIVersion. rewrite (bind_Some _ _ _ _ _ Hc). cbn. 
    exists W, D. rewrite Hversion. split; [|done]. split; [by exists v|done].
  - destruct Hk as [v Hv]. destruct (getter_represents (λ M, @m_Name _ M) _ _ _ _ _ (λ _ _ _ _, eq_refl) HW Hv) as (h' & D' & Hget & HW').
    cbn [perform]. unfold GetName. rewrite Hget. exists (add_set b (with_metadata v) W), D'. split; [|done].
    cbn [answers]. split; exists v; [|done]. split; [done|]. unfold meta_field. by destruct (a_ObjectMeta v).
  - destruct Hk as [v Hv]. destruct (getter_represents (λ M, @m_Namespace _ M) _ _ _ _ _ (λ _ _ _ _, eq_refl) HW Hv) as (h' & D' & Hget & HW').
    cbn [perform]. unfold GetNamespace. rewrite Hget. exists (add_set b (with_metadata v) W), D'. split; [|done].
    cbn [answers]. split; exists v; [|done]. split; [done|]. unfold meta_field. by destruct (a_ObjectMeta v).
Qed.

(** A client only calls methods of objects it constructed, whatever addresses they get. *)
Fixpoint client_ok {A} (W : configs) (p : prog config_reply A) : Prop :=
  match p with
  | Ret _ | Panic => True
  | Vis e k => knows W e ∧ ∀ r W', answers W e r W' → client_ok W' (k r)
  end.

(** The client on abstract values: its result ([None] for a panic) and the values at the end. *)
Inductive abstractly {A} : configs → prog config_reply A → option A → configs → Prop :=
| abs_ret W a : abstractly W (Ret a) (Some a) W
| abs_panic W : abstractly W Panic None W
| abs_call W e k r W' o W'' : answers W e r W' → abstractly W' (k r) o W'' → abstractly W (Vis e k) o W''
| abs_refused W e k : panics W e → abstractly W (Vis e k) None W.

(** C35: Whatever a client does with configurations, specifications and statuses (construct,
    chain [With...] methods, share a specification between configurations, read the
    getters), the heap behaves as the documentation says: the last value of a field
    holds, list values accumulate, map entries are merged with the newest winning,
    [WithSpec] shares the specification, no configuration changes another, and the
    only panic is a nil element in a variadic list. *)
Theorem builders_refine {A} (p : prog config_reply A) D h W :
  represents D h W → client_ok W p →
  match exec p h with
  | Some (a, h') => ∃ W' D', abstractly W p (Some a) W' ∧ represents D' h' W'
  | None => ∃ W', abstractly W p None W'
  end.
Proof.
  revert D h W. induction p as [a| |e k IH]; intros D h W HW Hok; cbn.
  - exists W, D. by split; [constructor|].
  - exists W. constructor.
  - destruct Hok as [Hk Hok]. pose proof (perform_represents _ _ _ _ HW Hk) as Hp.
    unfold mbind, buildM_bind. destruct (perform e h) as [[r h1]|]; cbn; [|exists W; by constructor].
    destruct Hp as (W1 & D1 & Hans & HW1). specialize (IH r D1 h1 W1 HW1 (Hok _ _ Hans)).
    destruct (exec (k r) h1) as [[a h2]|].
    + destruct IH as (W2 & D2 & Habs & HW2). exists W2, D2. split; [|done]. exact (abs_call _ _ _ _ _ _ _ Hans Habs).
    + destruct IH as (W2 & Habs). exists W2. exact (abs_call _ _ _ _ _ _ _ Hans Habs).
Qed.
End refinement.
