(* ===== verification/Pool.v ===== *)
(** * The worker pool ([Run] of [pkg/controller/xstatefulset/xstateful_set.go])

    [Run], the workers it starts, the informers' handlers and the work queue they
    share, as a step relation: any number of goroutines, interleaved call by call.
    The queue is [k8s.io/client-go/util/workqueue]; its documented behaviour is the
    interface [WorkQueueLaws]. *)
From Stdlib Require Import Eqdep.
From S2P Require Export ControllerProps Total.

(** ** The work queue *)

(** [workqueue.TypedRateLimitingInterface[string]].  A key that was added and not
    taken since is [waiting], also while it is being processed; a key put back with
    a delay is [delayed] until the delay is over. *)
Class WorkQueue := {
  WQ : Type;
  NewQueue : WQ;
  waiting : WQ → gset string;
  processing : WQ → gset string;
  delayed : WQ → gset string;
  is_down : WQ → bool;
  wq_Add : string → WQ → WQ;
  wq_AddAfter : string → Z → WQ → WQ;
  wq_AddRateLimited : string → WQ → WQ;
  wq_Forget : string → WQ → WQ;
  (** [None] blocks; [Some (None, q)] says that the queue was shut down. *)
  wq_Get : WQ → option (option string * WQ);
  wq_Done : string → WQ → WQ;
  wq_ShutDown : WQ → WQ;
  (** time passes: delays may end *)
  wq_Tick : WQ → WQ
}.

Definition pending `{WorkQueue} (q : WQ) : gset string := waiting q ∪ delayed q.

(** [q'] differs from [q] in what waits only, and keeps what [q] has to process;
    after a shutdown nothing is added. *)
Record keeps `{WorkQueue} (q q' : WQ) : Prop := {
  keeps_processing : processing q' = processing q;
  keeps_down : is_down q' = is_down q;
  keeps_pending : pending q ⊆ pending q';
  keeps_drain : is_down q = true → waiting q' = waiting q
}.

(** "Stingy: a single item will not be processed multiple times concurrently, and if
    an item is added multiple times before it can be processed, it will only be
    processed once"; an item added while it is processed waits until it is done;
    after a shutdown additions are ignored and what waits is still handed out. *)
Class WorkQueueLaws `{WorkQueue} : Prop := {
  NewQueue_empty : pending NewQueue = ∅ ∧ processing NewQueue = ∅ ∧ is_down NewQueue = false;
  Add_law k q : keeps q (wq_Add k q) ∧ (is_down q = false → k ∈ waiting (wq_Add k q));
  AddAfter_law k d q :
    keeps q (wq_AddAfter k d q) ∧ (is_down q = false → k ∈ pending (wq_AddAfter k d q));
  AddRateLimited_law k q :
    keeps q (wq_AddRateLimited k q) ∧ (is_down q = false → k ∈ pending (wq_AddRateLimited k q));
  Forget_law k q : keeps q (wq_Forget k q);
  Tick_law q : keeps q (wq_Tick q);
  Done_law k q :
    processing (wq_Done k q) = processing q ∖ {[k]} ∧ waiting (wq_Done k q) = waiting q ∧
    delayed (wq_Done k q) = delayed q ∧ is_down (wq_Done k q) = is_down q;
  ShutDown_law q :
    processing (wq_ShutDown q) = processing q ∧ waiting (wq_ShutDown q) = waiting q ∧
    is_down (wq_ShutDown q) = true;
  Get_item_law q k q' :
    wq_Get q = Some (Some k, q') →
    k ∈ waiting q ∧ k ∉ processing q ∧ waiting q' = waiting q ∖ {[k]} ∧
    processing q' = {[k]} ∪ processing q ∧ delayed q' = delayed q ∧ is_down q' = is_down q;
  Get_quit_law q q' : wq_Get q = Some (None, q') → q' = q ∧ is_down q = true;
  Get_blocks_law q : wq_Get q = None → is_down q = false ∧ waiting q ⊆ processing q
}.

(** ** [Run] *)

Inductive run_call :=
| StartStructuredLogging (verbosity : Z)
| StartRecordingToSink
| WaitForNamedCacheSync (synced : list string)
| GoUntil                       (** [wg.Go] of [wait.UntilWithContext(ctx, ssc.worker, time.Second)] *)
| CtxDone                       (** [<-ctx.Done()] *)
| QueueShutDown
| WgWait
| BroadcasterShutdown.

Definition run_reply (c : run_call) : Type :=
  match c with WaitForNamedCacheSync _ => bool | _ => unit end.

Definition informers_awaited : list string :=
  ["podListerSynced"; "setListerSynced"; "pvcListerSynced"; "revListerSynced"].

Fixpoint go_workers (n : nat) : prog run_reply unit :=
  match n with O => mret tt | S n => call GoUntil;; go_workers n end.

(** The deferred functions run in reverse order, also after the early return. *)
Definition run_deferred : prog run_reply unit :=
  call QueueShutDown;; call WgWait;; call BroadcasterShutdown.

Definition Run (workers : Z) : prog run_reply unit :=
  call (StartStructuredLogging 3);;
  call StartRecordingToSink;;
  synced ← call (WaitForNamedCacheSync informers_awaited);
  (if synced : bool then go_workers (Z.to_nat workers);; call CtxDone else mret tt);;
  run_deferred.

(** ** The pool *)

Section pool.
Context `{K8s} `{GoRuntime} `{!ClientGo} `{WorkQueue}.
#[local] Existing Instance realHistory.

(** What the queue answers to a call; the answers to the others are arbitrary. *)
Definition answers (q : WQ) (c : api_call) : reply c → WQ → Prop :=
  match c with
  | QueueGet => λ r q', wq_Get q = Some (r, q')
  | QueueAdd k => λ _ q', q' = wq_Add k q
  | QueueAddAfter k d => λ _ q', q' = wq_AddAfter k d q
  | QueueAddRateLimited k => λ _ q', q' = wq_AddRateLimited k q
  | QueueForget k => λ _ q', q' = wq_Forget k q
  | QueueDone k => λ _ q', q' = wq_Done k q
  | _ => λ _ q', q' = q
  end.

(** Where a worker is: inside [processNextWorkItem], with what it has observed and
    what is left to do, at the loop of [UntilWithContext], or ended. *)
Inductive routine :=
| Working (log : list (obs reply)) (rest : go (option bool))
| Pausing
| Finished.

(** A handler of an informer that was called with an event. *)
Record handler := { h_event : event; h_log : list (obs reply); h_rest : go unit }.

Record pool := {
  queue : WQ;
  main : prog run_reply unit;
  workers : list routine;
  handlers : list handler;
  cancelled : bool;                  (** the context *)
  recording : bool;                  (** the event broadcaster is up *)
  history : list (obs reply)         (** the calls of all workers and handlers *)
}.

Definition with_worker (i : nat) (w : routine) (s : pool) : pool :=
  {| queue := queue s; main := main s; workers := <[i := w]> (workers s); handlers := handlers s;
     cancelled := cancelled s; recording := recording s; history := history s |}.

(** A call was made: the state of the queue and the history after it. *)
Definition after_call (q : WQ) (o : obs reply) (s : pool) : pool :=
  {| queue := q; main := main s; workers := workers s; handlers := handlers s;
     cancelled := cancelled s; recording := recording s; history := history s ++ [o] |}.

Definition with_handlers (hs : list handler) (s : pool) : pool :=
  {| queue := queue s; main := main s; workers := workers s; handlers := hs;
     cancelled := cancelled s; recording := recording s; history := history s |}.

Definition with_queue (q : WQ) (s : pool) : pool :=
  {| queue := q; main := main s; workers := workers s; handlers := handlers s;
     cancelled := cancelled s; recording := recording s; history := history s |}.

(** What a call of [Run] does to the pool, and when it can proceed. *)
Definition main_call (c : run_call) : run_reply c → pool → pool → Prop :=
  match c with
  | StartStructuredLogging _ => λ _ s s', s' = s
  | StartRecordingToSink => λ _ s s',
      s' = {| queue := queue s; main := main s; workers := workers s; handlers := handlers s;
              cancelled := cancelled s; recording := true; history := history s |}
  | WaitForNamedCacheSync _ => λ _ s s', s' = s
  | GoUntil => λ _ s s',
      s' = {| queue := queue s; main := main s; workers := workers s ++ [Pausing];
              handlers := handlers s; cancelled := cancelled s; recording := recording s;
              history := history s |}
  | CtxDone => λ _ s s', cancelled s = true ∧ s' = s
  | QueueShutDown => λ _ s s', s' = with_queue (wq_ShutDown (queue s)) s
  | WgWait => λ _ s s', Forall (λ w, w = Finished) (workers s) ∧ s' = s
  | BroadcasterShutdown => λ _ s s',
      s' = {| queue := queue s; main := main s; workers := workers s; handlers := handlers s;
              cancelled := cancelled s; recording := false; history := history s |}
  end.

Definition with_main (p : prog run_reply unit) (s : pool) : pool :=
  {| queue := queue s; main := p; workers := workers s; handlers := handlers s;
     cancelled := cancelled s; recording := recording s; history := history s |}.

(** The steps of the workers, whose loop of [worker] and [UntilWithContext] is here. *)
Inductive worker_step (fuel : nat) : pool → pool → Prop :=
| step_call s i log c (k : reply c → go (option bool)) r q :
    workers s !! i = Some (Working log (Vis c k)) → answers (queue s) c r q →
    worker_step fuel s
      (after_call q (existT c r) (with_worker i (Working (log ++ [existT c r]) (k r)) s))
| step_next s i log :                        (** [for ssc.processNextWorkItem(ctx) {}] *)
    workers s !! i = Some (Working log (Ret (Some true))) →
    worker_step fuel s (with_worker i (Working [] (processNextWorkItem fuel)) s)
| step_quit s i log :
    workers s !! i = Some (Working log (Ret (Some false))) →
    worker_step fuel s (with_worker i Pausing s)
| step_again s i :
    workers s !! i = Some Pausing → cancelled s = false →
    worker_step fuel s (with_worker i (Working [] (processNextWorkItem fuel)) s)
| step_finish s i :
    workers s !! i = Some Pausing → cancelled s = true →
    worker_step fuel s (with_worker i Finished s).

Inductive main_step : pool → pool → Prop :=
| step_main s c (k : run_reply c → prog run_reply unit) r s' :
    main s = Vis c k → main_call c r s s' → main_step s (with_main (k r) s').

(** The world around: events, their handlers, time, cancellation. *)
Inductive world_step : pool → pool → Prop :=
| step_event s e :
    world_step s (with_handlers (handlers s ++ [{| h_event := e; h_log := []; h_rest := handle e |}]) s)
| step_handler s j e log c (k : reply c → go unit) r q :
    handlers s !! j = Some {| h_event := e; h_log := log; h_rest := Vis c k |} →
    answers (queue s) c r q →
    world_step s (after_call q (existT c r)
      (with_handlers (<[j := {| h_event := e; h_log := log ++ [existT c r]; h_rest := k r |}]> (handlers s)) s))
| step_tick s : world_step s (with_queue (wq_Tick (queue s)) s)
| step_cancel s :
    world_step s {| queue := queue s; main := main s; workers := workers s; handlers := handlers s;
                    cancelled := true; recording := recording s; history := history s |}.

Inductive pool_step (fuel : nat) (s s' : pool) : Prop :=
| by_worker : worker_step fuel s s' → pool_step fuel s s'
| by_main : main_step s s' → pool_step fuel s s'
| by_world : world_step s s' → pool_step fuel s s'.

(** [NewStatefulSetController] has made the queue; [Run] is about to start. *)
Definition start (n : Z) : pool :=
  {| queue := NewQueue; main := Run n; workers := []; handlers := []; cancelled := false;
     recording := false; history := [] |}.

Definition reachable (fuel : nat) (n : Z) : pool → Prop := rtc (pool_step fuel) (start n).

(** ** Who processes which key *)

Definition hold (h : option string) (o : obs reply) : option string :=
  match o with
  | existT c r =>
      match c return reply c → option string with
      | QueueGet => λ r, r
      | QueueDone _ => λ _, None
      | _ => λ _, h
      end r
  end.
(** The key taken and not marked done yet. *)
Definition holds (log : list (obs reply)) : option string := foldl hold None log.
Definition holding (w : routine) : option string :=
  match w with Working log _ => holds log | _ => None end.

Lemma holds_snoc log o : holds (log ++ [o]) = hold (holds log) o.
Proof. unfold holds. by rewrite foldl_snoc. Qed.

Lemma holds_app log tr :
  Forall (λ o, no_settling (projT1 o)) tr → holds (log ++ tr) = holds log.
Proof.
  intros Htr. unfold holds. rewrite foldl_app. induction Htr as [|[c r] tr Hc _ IH]; [done|].
  cbn [foldl]. by destruct c.
Qed.

(** A key is taken with empty hands and marked done by who holds it. *)
Definition may_settle (tr : list (obs reply)) (c : api_call) : Prop :=
  match c with
  | QueueGet => holds tr = None
  | QueueDone k => holds tr = Some k
  | _ => True
  end.

Lemma no_settling_wp {A} (p : go A) tr :
  calls no_settling p →
  wp (λ _, True) may_settle p (λ tr' _, holds tr' = holds tr) tr.
Proof.
  intros Hp. pose proof (wp_trace _ _ _ _ _ (Hp tr)) as Hw.
  eapply (wp_weaken _ _ _ may_settle) in Hw; [|done|by intros ? []].
  eapply wp_mono; [|exact Hw]. intros tr' o (_ & new & -> & Hnew). apply holds_app.
  eapply List.Forall_impl; [|exact Hnew]. by intros ? [].
Qed.

Lemma processNextWorkItem_discipline fuel :
  wp (λ _, True) may_settle (processNextWorkItem fuel)
    (λ tr o, ∀ b, o = Some (Some b) → holds tr = None) [].
Proof.
  unfold processNextWorkItem. refine (wp_call_bind _ _ QueueGet _ _ _ _ _); [done|].
  intros [key|] _; [|by apply wp_ret]. apply wp_bind.
  eapply wp_mono; [|apply no_settling_wp, sync_calls].
  intros tr [[err|]|] Htr; [|by apply wp_ret|done].
  apply wp_bind. assert (∀ c : api_call, (c = QueueAddRateLimited key ∨ c = QueueForget key) →
    ∀ (Φ : list (obs reply) → option (reply c) → Prop),
      (∀ r, Φ (tr ++ [existT c r]) (Some r)) → wp (λ _, True) may_settle (call c) Φ tr) as Hc.
  { intros c Hc Φ HΦ. apply wp_call; [by destruct Hc as [-> | ->]|auto]. }
  destruct err; [apply (Hc (QueueAddRateLimited key))|apply (Hc (QueueForget key))]; auto.
  all: intros []; refine (wp_call_bind _ _ (QueueDone key) _ _ _ _ _);
    [cbn; rewrite holds_snoc; by rewrite Htr|intros [] _; apply wp_ret; intros b _; by rewrite holds_snoc].
Qed.

(** The keys held, worker by worker, and the keys being processed. *)
Record owned (hs : list (option string)) (P : gset string) : Prop := {
  owned_in k : k ∈ P ↔ ∃ i, hs !! i = Some (Some k);
  owned_once i j k : hs !! i = Some (Some k) → hs !! j = Some (Some k) → i = j
}.

Lemma owned_take hs P i k :
  owned hs P → hs !! i = Some None → k ∉ P → owned (<[i:=Some k]> hs) ({[k]} ∪ P).
Proof.
  intros [Hin Honce] Hi Hk. assert (i < length hs)%nat as Hlt by by eapply lookup_lt_Some.
  assert (∀ j k', <[i:=Some k]> hs !! j = Some (Some k') ↔ (j = i ∧ k' = k) ∨ hs !! j = Some (Some k')) as Hl.
  { intros j k'. destruct (decide (j = i)) as [->|Hne].
    - rewrite list_lookup_insert_eq by done. rewrite Hi. naive_solver.
    - rewrite list_lookup_insert_ne by done. naive_solver. }
  split.
  - intros k'. rewrite elem_of_union, elem_of_singleton, Hin. setoid_rewrite Hl. naive_solver.
  - intros j j' k' [[-> ->]|Hj]%Hl [[-> ?]|Hj']%Hl; subst; [done|exfalso; apply Hk, Hin; eauto..|eauto].
Qed.

Lemma owned_put hs P i k :
  owned hs P → hs !! i = Some (Some k) → owned (<[i:=None]> hs) (P ∖ {[k]}).
Proof.
  intros [Hin Honce] Hi. assert (i < length hs)%nat as Hlt by by eapply lookup_lt_Some.
  assert (∀ j k', <[i:=None]> hs !! j = Some (Some k') ↔ j ≠ i ∧ hs !! j = Some (Some k')) as Hl.
  { intros j k'. destruct (decide (j = i)) as [->|Hne].
    - rewrite list_lookup_insert_eq by done. naive_solver.
    - rewrite list_lookup_insert_ne by done. naive_solver. }
  split.
  - intros k'. rewrite elem_of_difference, elem_of_singleton, Hin. setoid_rewrite Hl. split.
    + intros [[j Hj] Hne]. exists j. split; [|done]. intros ->. congruence.
    + intros [j [Hne Hj]]. split; [eauto|]. intros ->. by apply Hne, (Honce j i k).
  - intros j j' k' [_ Hj]%Hl [_ Hj']%Hl. eauto.
Qed.

Lemma owned_snoc hs P : owned hs P → owned (hs ++ [None]) P.
Proof.
  intros [Hin Honce].
  assert (∀ j k, (hs ++ [None]) !! j = Some (Some k) ↔ hs !! j = Some (Some k)) as Hl.
  { intros j k. rewrite lookup_app. destruct (hs !! j); [done|].
    by destruct (j - length hs)%nat as [|[]]. }
  split; [intros k; rewrite Hin; by setoid_rewrite Hl|].
  intros i j k ?%Hl ?%Hl. eauto.
Qed.

Lemma holding_insert i w (ws : list routine) : holding <$> <[i:=w]> ws = <[i:=holding w]> (holding <$> ws).
Proof. apply list_fmap_insert. Qed.

Context `{!WorkQueueLaws}.

(** The call asks for [k] to be processed; the call hands [k] to a worker. *)
Definition puts (k : string) (o : obs reply) : Prop :=
  match projT1 o with
  | QueueAdd k' | QueueAddAfter k' _ | QueueAddRateLimited k' => k' = k
  | _ => False
  end.
Definition takes (k : string) (o : obs reply) : Prop :=
  match o with
  | existT c r => match c return reply c → Prop with QueueGet => λ r, r = Some k | _ => λ _, False end r
  end.

Lemma keeps_refl q : keeps q q.
Proof. by split. Qed.

Definition plain (c : api_call) : Prop := match c with QueueGet | QueueDone _ => False | _ => True end.

(** A call takes a key, learns that the queue is down, marks a key done, or only
    adds to what waits. *)
Inductive queue_move (q : WQ) : obs reply → WQ → Prop :=
| move_take k q' :
    wq_Get q = Some (Some k, q') → queue_move q (existT QueueGet (Some k : reply QueueGet)) q'
| move_quit : is_down q = true → queue_move q (existT QueueGet (None : reply QueueGet)) q
| move_done k r : queue_move q (existT (QueueDone k) r) (wq_Done k q)
| move_keep c r q' :
    plain c → keeps q q' → (∀ k, is_down q = false → puts k (existT c r) → k ∈ pending q') →
    queue_move q (existT c r) q'.

Lemma answers_move q c r q' : answers q c r q' → queue_move q (existT c r) q'.
Proof.
  intros Ha. destruct c; cbn in Ha;
    try (subst q'; apply move_keep; [done|apply keeps_refl|intros ? _ []]; fail).
  - destruct r as [k|]; [by apply move_take|]. apply Get_quit_law in Ha as [-> ?]. by apply move_quit.
  - subst q'. destruct (Add_law key q) as [Hk Hp]. apply move_keep; [done..|].
    intros k Hd <-. unfold pending. set_solver.
  - subst q'. destruct (AddAfter_law key nanoseconds q) as [Hk Hp]. apply move_keep; [done..|].
    intros k Hd <-. auto.
  - subst q'. destruct (AddRateLimited_law key q) as [Hk Hp]. apply move_keep; [done..|].
    intros k Hd <-. auto.
  - subst q'. apply move_keep; [done|apply Forget_law|intros ? _ []].
  - subst q'. apply move_done.
Qed.

Lemma move_down q o q' : queue_move q o q' → is_down q' = is_down q.
Proof.
  intros [k q1 Hg|Hd|k r|c r q1 _ Hq _]; [|done|apply Done_law|apply Hq].
  by apply Get_item_law in Hg as (_ & _ & _ & _ & _ & ?).
Qed.

(** What was pending is pending still, or was taken by this call. *)
Lemma move_pending q o q' k : queue_move q o q' → k ∈ pending q → k ∈ pending q' ∨ takes k o.
Proof.
  unfold pending. intros [k' q1 Hg|Hd|k' r|c r q1 _ Hq _] Hk; [|by left| |by left; apply (keeps_pending _ _ Hq)].
  - apply Get_item_law in Hg as (_ & _ & -> & _ & -> & _).
    destruct (decide (k = k')) as [->|Hne]; [by right|left]. set_solver.
  - left. destruct (Done_law k' q) as (_ & -> & -> & _). done.
Qed.

Lemma move_puts q o q' k : queue_move q o q' → is_down q = false → puts k o → k ∈ pending q'.
Proof. intros [k' q1 Hg|Hd|k' r|c r q1 _ Hq Hp] Hdown Hput; try done. by apply Hp. Qed.

(** What is put on the queue is not lost: it is pending until it is taken. *)
Definition kept (q : WQ) (h : list (obs reply)) : Prop :=
  is_down q = false → ∀ k h1 o h2, h = h1 ++ o :: h2 → puts k o → k ∈ pending q ∨ Exists (takes k) h2.

Lemma kept_move q o q' h : queue_move q o q' → kept q h → kept q' (h ++ [o]).
Proof.
  intros Hm Hkept Hd k h1 o' h2 Heq Hput. rewrite (move_down _ _ _ Hm) in Hd.
  destruct h2 as [|o2 h2 _] using rev_ind.
  - apply app_inj_tail in Heq as [<- <-]. left. by eapply move_puts.
  - rewrite app_comm_cons, (assoc_L (++)) in Heq. apply app_inj_tail in Heq as [-> ->].
    rewrite Exists_app. destruct (Hkept Hd k _ _ _ eq_refl Hput) as [Hk|Hk]; [|tauto].
    destruct (move_pending _ _ _ _ Hm Hk) as [|Ht]; [by left|right; right]. by left.
Qed.

Lemma kept_keeps q q' h : keeps q q' → kept q h → kept q' h.
Proof.
  intros Hq Hkept Hd k h1 o h2 Heq Hput. rewrite (keeps_down _ _ Hq) in Hd.
  destruct (Hkept Hd k h1 o h2 Heq Hput) as [Hk|]; [left|by right]. by apply (keeps_pending _ _ Hq).
Qed.

(** *** The invariant *)

(** How far [Run] is: starting, before its workers, with workers, told to stop, queue
    shut down, workers gone, done; and the calls it may make there. *)
Inductive stage := Starting | Syncing | Running | Told | ShutDown | Joined | Ended.

#[local] Instance stage_eq_dec : EqDecision stage.
Proof. solve_decision. Defined.

Definition next_stage (st : stage) (c : run_call) : option stage :=
  match c, st with
  | StartStructuredLogging _, Starting => Some Starting
  | StartRecordingToSink, Starting => Some Syncing
  | WaitForNamedCacheSync _, Syncing => Some Syncing
  | GoUntil, (Syncing | Running) => Some Running
  | CtxDone, (Syncing | Running) => Some Told
  | QueueShutDown, (Syncing | Told) => Some ShutDown
  | WgWait, ShutDown => Some Joined
  | BroadcasterShutdown, Joined => Some Ended
  | _, _ => None
  end.

Fixpoint follows (st : stage) (p : prog run_reply unit) : Prop :=
  match p with
  | Ret _ => st = Ended
  | Panic => False
  | Vis c k => ∃ st', next_stage st c = Some st' ∧ ∀ r, follows st' (k r)
  end.

Lemma Run_follows n : follows Starting (Run n).
Proof.
  exists Starting. split; [done|]. intros []. exists Syncing. split; [done|]. intros [].
  exists Syncing. split; [done|].
  assert (∀ st, st = Syncing ∨ st = Told → follows st run_deferred) as Hd.
  { intros st Hst. exists ShutDown. split; [by destruct Hst as [-> | ->]|]. intros []. exists Joined. split; [done|].
    intros []. exists Ended. by split. }
  intros [|]; [|apply Hd; by left].
  cut (∀ m st, st = Syncing ∨ st = Running → follows st ((go_workers m;; call CtxDone);; run_deferred));
    [intros Hgo; apply Hgo; by left|].
  induction m as [|m IH]; intros st Hst.
  - exists Told. split; [by destruct Hst as [-> | ->]|]. intros []. apply Hd. by right.
  - exists Running. split; [by destruct Hst as [-> | ->]|]. intros []. apply IH. by right.
Qed.

(** The queue is shut down. *)
Definition shut (st : stage) : Prop := st = ShutDown ∨ st = Joined ∨ st = Ended.
#[local] Instance shut_dec st : Decision (shut st).
Proof. unfold shut. solve_decision. Defined.

Record staged (st : stage) (s : pool) : Prop := {
  staged_down : is_down (queue s) = bool_decide (shut st);
  staged_recording : recording s = bool_decide (st ≠ Starting ∧ st ≠ Ended);
  staged_idle : st = Starting ∨ st = Syncing → workers s = [];
  staged_told : st = Told → cancelled s = true;
  staged_shut : shut st → cancelled s = true ∨ workers s = [];
  staged_joined : st = Joined ∨ st = Ended → Forall (λ w, w = Finished) (workers s)
}.

Record pool_inv (fuel : nat) (s : pool) : Prop := {
  inv_worker i log rest :
    workers s !! i = Some (Working log rest) →
    leads (processNextWorkItem fuel) log rest ∧ log `sublist_of` history s;
  inv_owned : owned (holding <$> workers s) (processing (queue s));
  inv_handler h :
    h ∈ handlers s → leads (handle (h_event h)) (h_log h) (h_rest h) ∧ h_log h `sublist_of` history s;
  inv_kept : kept (queue s) (history s);
  inv_finished : Finished ∈ workers s → cancelled s = true;
  inv_main : ∃ st, follows st (main s) ∧ staged st s
}.

Lemma start_inv fuel n : pool_inv fuel (start n).
Proof.
  destruct NewQueue_empty as (_ & Hp & Hd). split; cbn.
  - done.
  - rewrite Hp. split; [|done]. intros k. split; [set_solver|]. by intros [i Hi].
  - by intros h ?%not_elem_of_nil.
  - intros _ k h1 o h2 Heq. by destruct h1.
  - by intros ?%not_elem_of_nil.
  - exists Starting. split; [apply Run_follows|]. split; cbn; try done; unfold shut; naive_solver.
Qed.

(** While a worker has not ended, [Run] waits for it. *)
Lemma staged_worker st s s' i w :
  staged st s → workers s !! i = Some w → w ≠ Finished → recording s' = recording s →
  cancelled s' = cancelled s → is_down (queue s') = is_down (queue s) → staged st s'.
Proof.
  intros [Hd Hr Hs Ht Hsh Hj] Hi Hw Hrec Hcan Hdown. split; [congruence|congruence|..].
  - intros Hst. by rewrite Hs in Hi.
  - rewrite Hcan. done.
  - rewrite Hcan. intros [Hst|Hst]%Hsh; [by left|by rewrite Hst in Hi].
  - intros Hst. specialize (Hj Hst). rewrite Forall_lookup in Hj. by destruct Hw; eapply Hj.
Qed.

Lemma staged_world st s s' :
  staged st s → workers s' = workers s → recording s' = recording s →
  (cancelled s = true → cancelled s' = true) → is_down (queue s') = is_down (queue s) → staged st s'.
Proof. intros [Hd Hr Hs Ht Hsh Hj] Hw Hrec Hcan Hdown. split; rewrite ?Hw; try congruence; naive_solver. Qed.

(** A worker moves on with the same key in its hands, or none. *)
Lemma with_worker_inv fuel s i w w' :
  workers s !! i = Some w → w ≠ Finished → holding w' = holding w →
  (∀ log rest, w' = Working log rest → log = [] ∧ rest = processNextWorkItem fuel) →
  (w' = Finished → cancelled s = true) →
  pool_inv fuel s → pool_inv fuel (with_worker i w' s).
Proof.
  intros Hi Hw Hh Hl Hfin [Hwk Hown Hha Hkept Hf0 (st & Hf & Hst)]. split; cbn; try done.
  - intros j log rest. rewrite list_lookup_insert. destruct (decide _) as [[<- _]|]; [|by apply Hwk].
    intros [= Heq]. destruct (Hl _ _ Heq) as [-> ->]. split; [constructor|apply sublist_nil_l].
  - rewrite holding_insert, Hh, list_insert_id; [done|]. by rewrite list_lookup_fmap, Hi.
  - intros [j Hj]%list_elem_of_lookup. rewrite list_lookup_insert in Hj. destruct (decide _) as [_|_].
    + by injection Hj as ->; apply Hfin.
    + by eapply Hf0, list_elem_of_lookup_2.
  - exists st. split; [done|]. by eapply staged_worker.
Qed.

(** The worker [i] makes a call. *)
Lemma owned_move hs q o q' i log :
  owned hs (processing q) → hs !! i = Some (holds log) → queue_move q o q' →
  may_settle log (projT1 o) → owned (<[i:=holds (log ++ [o])]> hs) (processing q').
Proof.
  intros Hown Hi Hm Hmay. rewrite holds_snoc. destruct Hm as [k q1 Hg|Hd|k r|c r q1 Hc Hq _]; cbn in *.
  - apply Get_item_law in Hg as (_ & Hk & _ & -> & _). rewrite Hmay in Hi. by apply owned_take.
  - rewrite list_insert_id; [done|]. congruence.
  - destruct (Done_law k q) as [-> _]. rewrite Hmay in Hi. by apply owned_put.
  - rewrite (keeps_processing _ _ Hq), list_insert_id; [done|]. by destruct c.
Qed.

Lemma worker_call_inv fuel s i log c (k : reply c → go (option bool)) r q :
  workers s !! i = Some (Working log (Vis c k)) → answers (queue s) c r q →
  pool_inv fuel s →
  pool_inv fuel (after_call q (existT c r) (with_worker i (Working (log ++ [existT c r]) (k r)) s)).
Proof.
  intros Hi Ha%answers_move [Hwk Hown Hha Hkept Hf0 (st & Hf & Hst)]. destruct (Hwk _ _ _ Hi) as [Hl Hsub].
  pose proof (leads_wp _ _ _ _ _ _ Hl (processNextWorkItem_discipline fuel)
    ltac:(by apply Forall_true)) as [Hmay _].
  split; cbn.
  - intros j log' rest. rewrite list_lookup_insert. destruct (decide _) as [[<- _]|].
    + intros [= <- <-]. split; [by apply leads_snoc|by apply sublist_app].
    + intros [? ?]%Hwk. split; [done|]. by apply sublist_inserts_r.
  - rewrite holding_insert. eapply owned_move; try done. by rewrite list_lookup_fmap, Hi.
  - intros h Hh. destruct (Hha h Hh) as [? Hs]. split; [done|]. by apply sublist_inserts_r.
  - by eapply kept_move.
  - intros [j Hj]%list_elem_of_lookup. rewrite list_lookup_insert in Hj. destruct (decide _) as [_|_]; [done|].
    by eapply Hf0, list_elem_of_lookup_2.
  - exists st. split; [done|]. eapply staged_worker; try done. cbn. by eapply move_down.
Qed.

Lemma holds_idle fuel s i log b :
  pool_inv fuel s → workers s !! i = Some (Working log (Ret (Some b))) → holds log = None.
Proof.
  intros [Hwk _ _ _ _ _] Hi. destruct (Hwk _ _ _ Hi) as [Hl _].
  apply (leads_wp _ _ _ _ _ _ Hl (processNextWorkItem_discipline fuel)
    ltac:(by apply Forall_true) b eq_refl).
Qed.

Lemma worker_step_inv fuel s s' : worker_step fuel s s' → pool_inv fuel s → pool_inv fuel s'.
Proof.
  intros Hstep Hinv. destruct Hstep as [s i log c k r q Hi Ha|s i log Hi|s i log Hi|s i Hi _|s i Hi Hcan].
  1: by apply worker_call_inv.
  1,2: pose proof (holds_idle _ _ _ _ _ Hinv Hi) as Hh.
  all: eapply with_worker_inv; try done; by intros ? ? [= <- <-].
Qed.

(** Handlers neither take nor settle keys. *)
Lemma enqueueStatefulSet_calls obj : calls handler_call (enqueueStatefulSet obj).
Proof. unfold enqueueStatefulSet. by calls. Qed.
Lemma enqueue_all_calls sets : calls handler_call (enqueue_all sets).
Proof. induction sets; cbn [enqueue_all]; calls; [apply enqueueStatefulSet_calls|done]. Qed.
Lemma resolveControllerRef_calls ns ref : calls handler_call (resolveControllerRef ns ref).
Proof. unfold resolveControllerRef. by calls. Qed.
Lemma deletePod_calls obj : calls handler_call (deletePod obj).
Proof.
  unfold deletePod. calls; [apply resolveControllerRef_calls|apply enqueueStatefulSet_calls].
Qed.
Lemma getStatefulSetsForPod_calls pod : calls handler_call (getStatefulSetsForPod pod).
Proof. unfold getStatefulSetsForPod, GetPodStatefulSets. by calls. Qed.

Lemma handle_calls e : calls handler_call (handle e).
Proof.
  destruct e; cbn [handle]; unfold addPod, updatePod, enqueueSSAfter; calls; try exact I.
  all: first [apply deletePod_calls|apply resolveControllerRef_calls|apply enqueueStatefulSet_calls
             |apply getStatefulSetsForPod_calls|apply enqueue_all_calls].
Qed.

Lemma handler_step_inv fuel s j e log c (k : reply c → go unit) r q :
  handlers s !! j = Some {| h_event := e; h_log := log; h_rest := Vis c k |} → answers (queue s) c r q →
  pool_inv fuel s →
  pool_inv fuel (after_call q (existT c r) (with_handlers
    (<[j := {| h_event := e; h_log := log ++ [existT c r]; h_rest := k r |}]> (handlers s)) s)).
Proof.
  intros Hj Ha%answers_move [Hwk Hown Hha Hkept Hf0 (st & Hf & Hst)].
  assert (plain c) as Hc.
  { destruct (Hha _ (list_elem_of_lookup_2 _ _ _ Hj)) as [Hl _]. cbn in Hl.
    destruct (leads_wp _ _ _ _ _ _ Hl (handle_calls e []) ltac:(by apply Forall_true)) as [Hc _].
    by destruct c. }
  split; cbn.
  - intros i log' rest [? ?]%Hwk. split; [done|]. by apply sublist_inserts_r.
  - inversion Ha; subst; try done. by rewrite (keeps_processing _ _ ltac:(eassumption)).
  - intros h [j' Hh]%list_elem_of_lookup. rewrite list_lookup_insert in Hh. destruct (decide _) as [[<- _]|].
    + injection Hh as <-. cbn. destruct (Hha _ (list_elem_of_lookup_2 _ _ _ Hj)) as [Hl Hs].
      split; [by apply leads_snoc|]. by apply sublist_app.
    + destruct (Hha h (list_elem_of_lookup_2 _ _ _ Hh)) as [? Hs]. split; [done|]. by apply sublist_inserts_r.
  - by eapply kept_move.
  - done.
  - exists st. split; [done|]. eapply staged_world; try done. cbn. by eapply move_down.
Qed.

Lemma keeps_inv fuel s q : keeps (queue s) q → pool_inv fuel s → pool_inv fuel (with_queue q s).
Proof.
  intros Hq [Hwk Hown Hha Hkept Hf0 (st & Hf & Hst)]. split; cbn; try done.
  - by rewrite (keeps_processing _ _ Hq).
  - by eapply kept_keeps.
  - exists st. split; [done|]. eapply staged_world; try done. apply Hq.
Qed.

Lemma world_step_inv fuel s s' : world_step s s' → pool_inv fuel s → pool_inv fuel s'.
Proof.
  intros [s0 e|s0 j e log c k r q Hj Ha|s0|s0] Hinv.
  - destruct Hinv as [Hwk Hown Hha Hkept Hf0 (st & Hf & Hst)]. split; cbn; try done.
    + intros h [Hh|Hh]%elem_of_app; [by apply Hha|]. apply list_elem_of_singleton in Hh as ->.
      split; [apply leads_nil|apply sublist_nil_l].
    + exists st. split; [done|]. by eapply staged_world.
  - by apply handler_step_inv.
  - by apply keeps_inv; [apply Tick_law|].
  - destruct Hinv as [Hwk Hown Hha Hkept Hf0 (st & Hf & Hst)]. split; cbn; try done.
    exists st. split; [done|]. by eapply staged_world.
Qed.

Lemma main_step_inv fuel s s' : main_step s s' → pool_inv fuel s → pool_inv fuel s'.
Proof.
  intros [s0 c k r s1 Hm Hcall] [Hwk Hown Hha Hkept Hf0 (st & Hf & Hst)].
  rewrite Hm in Hf. destruct Hf as (st' & Hnext & Hk). specialize (Hk r).
  assert (∀ s2, workers s2 = workers s0 → handlers s2 = handlers s0 → history s2 = history s0 →
    cancelled s2 = cancelled s0 →
    processing (queue s2) = processing (queue s0) → kept (queue s2) (history s0) → staged st' s2 →
    pool_inv fuel (with_main (k r) s2)) as Hsame.
  { intros s2 Hw Hh Hhist Hcan Hp Hkept2 Hst2. split; cbn; rewrite ?Hw, ?Hh, ?Hhist, ?Hcan, ?Hp; try done.
    exists st'. split; [done|]. by eapply staged_world. }
  destruct Hst as [Hd Hr Hs Ht Hsh Hj]. destruct c; destruct st; try done; injection Hnext as <-; cbn in Hcall.
  - subst s1. by apply Hsame.
  - subst s1. apply Hsame; try done. split; cbn; try done; unfold shut in *; naive_solver.
  - subst s1. by apply Hsame.
  - subst s1. split; cbn; try done.
    + intros i log rest. rewrite lookup_app. destruct (workers s0 !! i) eqn:Hi; [intros [= ->]; by eapply Hwk|].
      by destruct (i - length (workers s0))%nat as [|[]].
    + rewrite fmap_app. by apply owned_snoc.
    + intros [?|[=]%list_elem_of_singleton]%elem_of_app. auto.
    + exists Running. split; [done|]. split; cbn; try done; unfold shut; naive_solver.
  - subst s1. split; cbn; try done.
    + intros i log rest. rewrite lookup_app. destruct (workers s0 !! i) eqn:Hi; [intros [= ->]; by eapply Hwk|].
      by destruct (i - length (workers s0))%nat as [|[]].
    + rewrite fmap_app. by apply owned_snoc.
    + intros [?|[=]%list_elem_of_singleton]%elem_of_app. auto.
    + exists Running. split; [done|]. split; cbn; try done; unfold shut; naive_solver.
  - destruct Hcall as [Hcan ->]. apply Hsame; try done. split; try done; unfold shut; naive_solver.
  - destruct Hcall as [Hcan ->]. apply Hsame; try done. split; try done; unfold shut; naive_solver.
  - subst s1. destruct (ShutDown_law (queue s0)) as (Hp & Hw & Hdown). apply Hsame; try done; cbn.
    + intros Hd'. congruence.
    + split; cbn; rewrite ?Hdown; try done; unfold shut; naive_solver.
  - subst s1. destruct (ShutDown_law (queue s0)) as (Hp & Hw & Hdown). apply Hsame; try done; cbn.
    + intros Hd'. congruence.
    + split; cbn; rewrite ?Hdown; try done; unfold shut; naive_solver.
  - destruct Hcall as [Hall ->]. apply Hsame; try done. split; try done; unfold shut in *; naive_solver.
  - subst s1. apply Hsame; try done. split; cbn; try done; unfold shut in *; naive_solver.
Qed.

Lemma reachable_inv fuel n s : reachable fuel n s → pool_inv fuel s.
Proof.
  assert (∀ s1, rtc (pool_step fuel) s1 s → pool_inv fuel s1 → pool_inv fuel s) as Hrtc.
  { induction 1 as [|s1 s2 s3 Hstep _ IH]; [done|]. intros Hinv. apply IH.
    destruct Hstep; [by eapply worker_step_inv|by eapply main_step_inv|by eapply world_step_inv]. }
  intros Hr. by apply (Hrtc _ Hr), start_inv.
Qed.

(** The worker [i] has taken [k] and is not done with it. *)
Definition busy (s : pool) (i : nat) (k : string) : Prop :=
  ∃ log rest, workers s !! i = Some (Working log rest) ∧ holds log = Some k.

Lemma busy_holding s i k : busy s i k ↔ (holding <$> workers s) !! i = Some (Some k).
Proof.
  rewrite list_lookup_fmap. split.
  - intros (log & rest & -> & Hk). cbn. by rewrite Hk.
  - destruct (workers s !! i) as [[log rest| |]|] eqn:Hi; try done. cbn. intros [= Hk]. by exists log, rest.
Qed.

(** The worker [i] took [k], has taken nothing since, and is inside the [sync] of [k]: its
    last calls are those of a partial execution of it (none, if it has just taken [k]). *)
Definition inside (fuel : nat) (s : pool) (i : nat) (k : string) : Prop :=
  ∃ pre mid log p rest, workers s !! i =
      Some (Working (pre ++ existT QueueGet (Some k : reply QueueGet) :: mid ++ log) rest) ∧
    Forall (λ o, projT1 o ≠ QueueGet) mid ∧ (log = [] → mid = []) ∧ leads (sync fuel k) log p.

(** Marking a key done is the last call for it. *)
Definition not_done (c : api_call) : Prop := match c with QueueDone _ => False | _ => True end.
Definition undone (tr : list (obs reply)) (_ : api_call) : Prop := Forall (λ o, not_done (projT1 o)) tr.

Lemma undone_snoc tr o e e' : undone tr e → not_done (projT1 o) → undone (tr ++ [o]) e'.
Proof. intros Htr Ho. apply Forall_app. split; [exact Htr|]. by constructor. Qed.

Lemma processNextWorkItem_undone fuel :
  wp (λ _, True) undone (processNextWorkItem fuel) (λ _ _, True) [].
Proof.
  unfold processNextWorkItem. refine (wp_call_bind _ _ QueueGet _ _ _ _ _); [by constructor|].
  intros [key|] _; [|by apply wp_ret]. apply wp_bind.
  set (taken := [] ++ [_]).
  assert (undone taken QueueGet) as Htaken by (subst taken; by repeat constructor).
  assert (wp (λ _, True) undone (sync fuel key) (λ tr _, undone tr QueueGet) taken) as Hsync.
  { pose proof (sync_calls fuel key) as Hc. revert Hc Htaken. generalize taken. generalize (sync fuel key) as p.
    intros p. induction p as [a| |e k IH]; intros tr Hc Htr; [done..|]. destruct (calls_vis _ _ _ Hc) as [He Hk].
    split; [done|]. intros r _. apply IH; [done|]. apply (undone_snoc tr (existT e r) QueueGet); [done|by destruct e]. }
  eapply wp_mono; [|exact Hsync]. intros tr [[err|]|] Htr; [|done..].
  assert (∀ o, not_done (projT1 o) →
    wp (λ _, True) undone (call (QueueDone key);; mret (Some true)) (λ _ _, True) (tr ++ [o])) as Hdone.
  { intros o Ho. apply wp_call_bind; [by apply (undone_snoc tr o QueueGet)|].
    intros [] _. by apply wp_ret. }
  apply wp_bind. destruct err as [e|].
  - refine (wp_call _ _ (QueueAddRateLimited key) _ _ _ _); [exact Htr|]. intros [] _. by apply Hdone.
  - refine (wp_call _ _ (QueueForget key) _ _ _ _); [exact Htr|]. intros [] _. by apply Hdone.
Qed.

Lemma holds_unsettled log tr :
  Forall (λ o, projT1 o ≠ QueueGet) tr → Forall (λ o, not_done (projT1 o)) tr →
  holds (log ++ tr) = holds log.
Proof.
  intros Hg Hd. unfold holds. rewrite foldl_app. revert Hd.
  induction Hg as [|[c r] tr Hc _ IH]; [done|]. intros [Hn Hd]%list.Forall_cons. specialize (IH Hd). cbn [foldl]. by destruct c.
Qed.

Lemma inside_busy fuel s i k : pool_inv fuel s → inside fuel s i k → busy s i k.
Proof.
  intros Hinv (pre & mid & log & p & rest & Hi & Hmid & Hnil & Hl). eexists _, _. split; [exact Hi|].
  destruct (inv_worker _ _ Hinv _ _ _ Hi) as [Hw _].
  assert (holds (pre ++ [existT QueueGet (Some k : reply QueueGet)]) = Some k) as Hk by by rewrite holds_snoc.
  destruct log as [|o log _] using rev_ind; [by rewrite Hnil|].
  pose proof (leads_calls (λ _, True) _ _ _ _ Hl (sync_calls fuel k []) ltac:(by apply Forall_true)) as Hsync.
  pose proof (leads_ok _ _ _ _ _ _ Hw (processNextWorkItem_undone fuel) ltac:(by apply Forall_true)) as Hok.
  assert (pre ++ existT QueueGet (Some k : reply QueueGet) :: mid ++ log ++ [o] =
    ((pre ++ [existT QueueGet (Some k : reply QueueGet)]) ++ mid) ++ log ++ [o]) as Heq
    by (rewrite <- !(assoc_L (++)); done).
  rewrite Heq, holds_app by done. rewrite holds_unsettled; [done|done|].
  destruct o as [e r]. specialize (Hok (((pre ++ [existT QueueGet (Some k : reply QueueGet)]) ++ mid) ++ log) e r []).
  assert (undone (((pre ++ [existT QueueGet (Some k : reply QueueGet)]) ++ mid) ++ log) e) as Hun.
  { apply Hok. rewrite Heq. by rewrite <- !(assoc_L (++)). }
  apply Forall_app in Hun as [Hun _]. by apply Forall_app in Hun as [_ ?].
Qed.

(** C9: [processNextWorkItem] "enforces that the syncHandler is never invoked
    concurrently with the same key": at every moment of any execution, with any
    number of workers interleaved call by call with each other, with the handlers,
    with delays that end and with the shutdown, at most one worker is inside the
    synchronisation of a key, whatever it called between taking the key and the
    synchronisation, and the queue knows that this key is being processed. *)
Theorem sync_never_concurrent fuel n s i j k :
  reachable fuel n s → inside fuel s i k → inside fuel s j k →
  i = j ∧ k ∈ processing (queue s).
Proof.
  intros Hr Hi Hj. pose proof (reachable_inv _ _ _ Hr) as Hinv.
  apply (inside_busy _ _ _ _ Hinv), busy_holding in Hi. apply (inside_busy _ _ _ _ Hinv), busy_holding in Hj.
  destruct (inv_owned _ _ Hinv) as [Hin Honce]. split; [eauto|]. apply Hin. eauto.
Qed.

(** What a worker calls after a synchronisation. *)
Lemma after_sync fuel k tr err o post rest :
  leads (processNextWorkItem fuel) (existT QueueGet (Some k : reply QueueGet) :: tr ++ o :: post) rest →
  runs (sync fuel k) tr (Some (Some err)) →
  o = match err with Some _ => existT (QueueAddRateLimited k) tt | None => existT (QueueForget k) tt end.
Proof.
  intros Hl Hruns. unfold processNextWorkItem in Hl.
  apply (leads_cons QueueGet) in Hl as (r & Heq & Hl). apply inj_pair2 in Heq. subst r.
  apply (leads_after _ _ _ _ _ _ Hruns) in Hl. destruct err as [e|].
  - apply (leads_cons (QueueAddRateLimited k)) in Hl as ([] & -> & _). done.
  - apply (leads_cons (QueueForget k)) in Hl as ([] & -> & _). done.
Qed.

(** C10: no key is lost, as long as the controller is not shut down.  A key that was put on
    the queue at any time, by an event, by the end of a delay or because its
    synchronisation failed, is still pending or was taken by a worker after that.  A
    worker whose synchronisation of a key ended with an error next puts the key back,
    with the back-off, so that it is retried; one whose synchronisation succeeded resets
    the back-off.  And a worker that asks for a key while one is waiting gets one, unless
    every waiting key is being processed by another worker, which will find it again. *)
Theorem no_key_lost fuel n s k :
  reachable fuel n s → is_down (queue s) = false →
  (∀ h1 o h2, history s = h1 ++ o :: h2 → puts k o → k ∈ pending (queue s) ∨ Exists (takes k) h2) ∧
  (∀ i tr err o post rest,
     workers s !! i = Some (Working (existT QueueGet (Some k : reply QueueGet) :: tr ++ o :: post) rest) →
     runs (sync fuel k) tr (Some (Some err)) →
     match err with
     | Some _ => o = existT (QueueAddRateLimited k) tt ∧
         ∃ h1 h2, history s = h1 ++ o :: h2 ∧ (k ∈ pending (queue s) ∨ Exists (takes k) h2)
     | None => o = existT (QueueForget k) tt
     end) ∧
  (∀ i log f, workers s !! i = Some (Working log (Vis QueueGet f)) → k ∈ waiting (queue s) →
     (∃ k' q, wq_Get (queue s) = Some (Some k', q) ∧ k' ∈ waiting (queue s) ∧
        worker_step fuel s (after_call q (existT QueueGet (Some k' : reply QueueGet))
          (with_worker i (Working (log ++ [existT QueueGet (Some k' : reply QueueGet)]) (f (Some k'))) s))) ∨
     ∃ j, j ≠ i ∧ busy s j k).
Proof.
  intros Hr Hd. pose proof (reachable_inv _ _ _ Hr) as [Hwk [Hin _] _ Hkept _ _].
  split_and!; [intros h1 o h2; by apply Hkept| |].
  - intros i tr err o post rest Hi Hruns. destruct (Hwk _ _ _ Hi) as [Hl Hsub].
    pose proof (after_sync _ _ _ _ _ _ _ Hl Hruns) as Ho. destruct err as [e|]; [|done]. split; [done|].
    assert (o ∈ history s) as Hin_o by (eapply elem_of_sublist; [|exact Hsub]; set_solver).
    apply list_elem_of_split in Hin_o as (h1 & h2 & Heq). exists h1, h2. split; [done|].
    eapply Hkept; [done|done|]. by rewrite Ho.
  - intros i log f Hi Hk. destruct (wq_Get (queue s)) as [[[k'|] q]|] eqn:Hg.
    + left. exists k', q. split; [done|]. split; [by apply Get_item_law in Hg as [? _]|]. by apply step_call.
    + apply Get_quit_law in Hg as [_ Hdown]. congruence.
    + right. apply Get_blocks_law in Hg as [_ Hsub]. destruct (proj1 (Hin k) (Hsub k Hk)) as [j Hj].
      exists j. split; [|by apply busy_holding]. intros ->. destruct (Hwk _ _ _ Hi) as [Hl _].
      pose proof (leads_wp _ _ _ _ _ _ Hl (processNextWorkItem_discipline fuel)
        ltac:(by apply Forall_true)) as [Hnone _]. cbn in Hnone.
      rewrite list_lookup_fmap, Hi in Hj. cbn in Hj. congruence.
Qed.

(** *** Shutdown *)

(** The context is cancelled, and [Run] has shut the queue down. *)
Definition closing (s : pool) : Prop := cancelled s = true ∧ is_down (queue s) = true.

(** [Run] is past its shutdown of the queue. *)
Lemma closing_stage fuel s :
  pool_inv fuel s → closing s → ∃ st, follows st (main s) ∧ staged st s ∧ shut st.
Proof.
  intros [_ _ _ _ _ (st & Hf & Hst)] [_ Hd]. exists st. split_and!; [done..|].
  pose proof (staged_down _ _ Hst) as Hdown. rewrite Hd in Hdown. by apply eq_sym, bool_decide_eq_true in Hdown.
Qed.

Lemma answered q c : is_down q = true → ∃ r q', answers q c r q'.
Proof.
  intros Hd.
  destruct c; cbn; try (by eexists (inr (Errorf "" None)), _); try (by eexists None, _);
    try (by eexists tt, _); try (by eexists true, _); try (by eexists (None, None), _); try (by eexists 0, _).
  destruct (wq_Get q) as [[r q']|] eqn:Hg; [by exists r, q'|].
  apply Get_blocks_law in Hg as [? _]. congruence.
Qed.

(** A worker that has panicked, or that is still creating a revision after as many names
    as there was fuel were taken. *)
Definition stuck (fuel : nat) (w : routine) : Prop :=
  ∃ log, w = Working log Panic ∨ w = Working log (Ret None) ∧ (fuel ≤ collided log)%nat.

Lemma processNextWorkItem_spent fuel log :
  leads (processNextWorkItem fuel) log (Ret None) → (fuel ≤ collided log)%nat.
Proof.
  intros Hl. assert (wp (λ _, True) (λ _ _, True) (processNextWorkItem fuel)
    (λ tr o, o = Some None → (fuel ≤ collided tr)%nat) []) as Hw.
  { unfold processNextWorkItem. refine (wp_call_bind _ _ QueueGet _ _ _ _ _); [done|].
    intros [key|] _; [|by apply wp_ret]. apply wp_bind.
    eapply wp_mono; [|exact (wp_relocate _ _ _ _ [] _ (sync_spent fuel key))].
    intros tr [[err|]|] (new & -> & Hnew); [| |done].
    - apply wp_bind. destruct err as [e|].
      + refine (wp_call _ _ (QueueAddRateLimited key) _ _ _ _); [done|]. intros [] _.
        apply wp_call_bind; [done|]. intros [] _. by apply wp_ret.
      + refine (wp_call _ _ (QueueForget key) _ _ _ _); [done|]. intros [] _.
        apply wp_call_bind; [done|]. intros [] _. by apply wp_ret.
    - apply wp_ret. intros _. specialize (Hnew eq_refl). rewrite collided_app. change ([] ++ new) with new in Hnew. lia. }
  apply (leads_wp _ _ _ _ _ _ Hl Hw ltac:(by apply Forall_true)). done.
Qed.

Lemma worker_can_step fuel s i w :
  pool_inv fuel s → closing s → workers s !! i = Some w → w ≠ Finished →
  stuck fuel w ∨ ∃ s', worker_step fuel s s'.
Proof.
  intros Hinv [Hc Hd] Hi Hw. destruct w as [log rest| |]; [|right; by eexists; eapply step_finish|done].
  destruct rest as [[[|]|]| |c k].
  - right. eexists. by eapply step_next.
  - right. eexists. by eapply step_quit.
  - left. exists log. right. split; [done|]. apply processNextWorkItem_spent, (inv_worker _ _ Hinv _ _ _ Hi).
  - left. exists log. by left.
  - right. destruct (answered (queue s) c Hd) as (r & q & Ha). eexists. by eapply step_call.
Qed.

End pool.

(** ** From an event to a worker *)

Section events.
Context `{K8sLaws} `{GoRuntime} `{!ClientGo} `{WorkQueueLaws}.
Context (cached : string → string → XStatefulSet + error) (listed : string → list XStatefulSet).

(** The event is about a pod that [set] controls, or about an orphan it selects. *)
Definition concerns (e : event) (set : XStatefulSet) : Prop :=
  (∃ pod, about e pod ∧ controls cached set pod) ∨ (∃ pod, orphan_news e pod ∧ may_adopt listed set pod).

(** C11: an event is never lost.  When the handler of an event has ended, for each set
    in the caches it consulted that controls the pod of the event (a new pod, both
    versions of an updated one, a deleted one and tombstones included), or that could
    adopt it (a pod without controller that appears, changes its labels or has lost
    its controller), the key of the set was put on the queue, and is pending there
    unless a worker has taken it after that, and so synchronises the set with caches
    that know the event. *)
Theorem event_reaches_worker fuel n s h set :
  reachable fuel n s → is_down (queue s) = false →
  h ∈ handlers s → h_rest h = Ret tt → Forall (from_cache cached listed) (h_log h) →
  concerns (h_event h) set →
  ∃ h1 h2, history s = h1 ++ existT (QueueAdd (meta_key (set_meta set))) tt :: h2 ∧
    (meta_key (set_meta set) ∈ pending (queue s) ∨ Exists (takes (meta_key (set_meta set))) h2).
Proof.
  intros Hr Hd Hh Hret Hlog Hcon. destruct (reachable_inv _ _ _ Hr) as [_ _ Hha Hkept _ _].
  destruct (Hha h Hh) as [Hl Hsub]. rewrite Hret in Hl.
  assert (enqueued set (h_log h)) as Henq.
  { assert (wp (from_cache cached listed) (λ _, handler_call) (handle (h_event h))
      (returns (λ tr _, enqueued set tr)) []) as Hwp.
    { destruct Hcon as [(pod & Hab & Hctl)|(pod & Hnews & Hmay)].
      - by eapply handle_enqueues_controller.
      - by eapply handle_enqueues_candidates. }
    by destruct (leads_wp _ _ _ _ _ _ Hl Hwp Hlog) as (? & _ & ?). }
  eapply elem_of_sublist in Henq; [|exact Hsub]. apply list_elem_of_split in Henq as (h1 & h2 & Heq).
  exists h1, h2. split; [exact Heq|]. by eapply Hkept.
Qed.
End events.
