(* ===== verification/Wiring.v ===== *)
(** * Wiring of the process ([cmd/main.go], [NewStatefulSetController], [controller.go])

    How the process is put together: flags, clients, informer factories, the
    controller with its listers and handlers, leader election.  The components are
    handles here; what they do is in the other files. *)
From S2P Require Export Pool Startup PodOps.

(** ** Handles *)

(** The four kinds of objects that are watched, and the factories of their informers. *)
Inductive resource := Pods | XStatefulSets | PersistentVolumeClaims | ControllerRevisions.
Inductive factory_name := KubeInformerFactory | XStatefulsetInformerFactory.
Definition factory_of (r : resource) : factory_name :=
  match r with XStatefulSets => XStatefulsetInformerFactory | _ => KubeInformerFactory end.

Inductive client := KubeClient | XStatefulSetClient.
Inductive lister := ListerOf (r : resource).
Inductive has_synced := HasSyncedOf (r : resource).
Inductive indexer := IndexerOf (r : resource).
Inductive event_recorder := RecorderFor (component : string).

Record realStatefulPodControlObjectManager := {
  om_client : client; om_podLister : lister; om_claimLister : lister }.
Record StatefulPodControl (M : Type) := { objectMgr : M; spc_recorder : event_recorder }.
Arguments objectMgr {M}.
Arguments spc_recorder {M}.
Record realStatefulSetStatusUpdater := { su_client : client; su_setLister : lister }.
Record history_handle := { hist_client : client; hist_lister : lister }.
Record defaultStatefulSetControl := {
  dc_podControl : StatefulPodControl realStatefulPodControlObjectManager;
  dc_statusUpdater : realStatefulSetStatusUpdater;
  dc_controllerHistory : history_handle;
  dc_cacheEntries : Z }.
Record RealPodControl := { rpc_KubeClient : client; rpc_Recorder : event_recorder }.

(** [StatefulSetController] *)
Record StatefulSetController := {
  ssc_kubeClient : client;
  ssc_kthenaClientset : client;
  ssc_control : defaultStatefulSetControl;
  ssc_podControl : RealPodControl;
  ssc_podIndexer : indexer;
  ssc_podLister : lister;
  ssc_podListerSynced : has_synced;
  ssc_setLister : lister;
  ssc_setListerSynced : has_synced;
  ssc_pvcListerSynced : has_synced;
  ssc_revListerSynced : has_synced;
  ssc_queue : string
}.

(** [NewStatefulPodControl], [NewStatefulPodControlFromManager],
    [NewRealStatefulSetStatusUpdater], [history.NewHistory] *)
Definition NewStatefulPodControl (c : client) (podLister claimLister : lister) (recorder : event_recorder) :=
  {| objectMgr := {| om_client := c; om_podLister := podLister; om_claimLister := claimLister |};
     spc_recorder := recorder |}.
Definition NewStatefulPodControlFromManager {M} (om : M) (recorder : event_recorder) : StatefulPodControl M :=
  {| objectMgr := om; spc_recorder := recorder |}.
Definition NewRealStatefulSetStatusUpdater (c : client) (setLister : lister) : realStatefulSetStatusUpdater :=
  {| su_client := c; su_setLister := setLister |}.
Definition NewHistory_handle (c : client) (l : lister) : history_handle := {| hist_client := c; hist_lister := l |}.

Definition maxRevisionEqualityCacheEntries : Z := 10000.
Definition NewDefaultStatefulSetControl (podControl : StatefulPodControl realStatefulPodControlObjectManager)
    (statusUpdater : realStatefulSetStatusUpdater) (controllerHistory : history_handle) : defaultStatefulSetControl :=
  {| dc_podControl := podControl; dc_statusUpdater := statusUpdater;
     dc_controllerHistory := controllerHistory; dc_cacheEntries := maxRevisionEqualityCacheEntries |}.

(** [config.Config]; a [float32] is only compared with zero and copied. *)
Record Config (Float32 : Type) := {
  EnableLeaderElection : bool; Workers : Z; Kubeconfig : string; MasterURL : string;
  KubeAPIQPS : Float32; KubeAPIBurst : Z }.
Arguments EnableLeaderElection {_}.
Arguments Workers {_}.
Arguments Kubeconfig {_}.
Arguments MasterURL {_}.
Arguments KubeAPIQPS {_}.
Arguments KubeAPIBurst {_}.
Arguments Build_Config {_}.

(** [rest.Config]: the two fields that are set, and the others. *)
Record rest_Config (Float32 Rest : Type) := { QPS : Float32; Burst : Z; rest_of : Rest }.
Arguments QPS {_ _}.
Arguments Burst {_ _}.
Arguments rest_of {_ _}.

Section wiring.
Context `{Crypto} `{GoRuntime} {Float32 Rest : Type} (zero_f32 : Float32) (positive : Float32 → bool).

(** [cache.ResourceEventHandlerFuncs] *)
Record ResourceEventHandlerFuncs := {
  AddFunc : event_object → go unit;
  UpdateFunc : event_object → event_object → go unit;
  DeleteFunc : event_object → go unit
}.

Record LeaderElectionConfig := {
  Lock : LeaseLock; LeaseDuration : Z; RenewDeadline : Z; RetryPeriod : Z;
  ReleaseOnCancel : bool; le_Name : string }.

(** The two components [main] runs in its error group. *)
Inductive component :=
| WebhookComponent (cfg : rest_Config Float32 Rest) (cc : Config Float32) (wc : WebhookConfig)
| ControllerComponent (cc : Config Float32).

(** ** Calls to the libraries *)

Inductive boot_call :=
| Sys (c : cert_call)                                  (** those of [Startup] *)
| ParseFlags (enableWebhook : bool) (cc : Config Float32) (wc : WebhookConfig)  (** defaults *)
| NotifySignals                                        (** cancel the context on a signal *)
| BuildConfigFromFlags (masterURL kubeconfig : string)
| GroupGo (c : component)
| GroupWait
| Fatal (msg : string)                                 (** the process exits *)
| NewClientForConfig (c : client) (cfg : rest_Config Float32 Rest)
| NewInformerFactory (f : factory_name) (c : client) (resync : Z)
| NewBroadcaster
| NewRecorder (component : string)
| OnceDo                                               (** [sync.Once]: is this the first time? *)
| MustRegister (metric : string)
| NewQueue_call (name : string)
| InformerFor (r : resource)                           (** of the factory of [r] *)
| AddEventHandler (r : resource) (h : ResourceEventHandlerFuncs)
| GetIndexers (r : resource)
| AddIndexers (r : resource) (name : string) (f : event_object → list string)
| StartFactory (f : factory_name)
| CloseInformersStarted
| GoRun (ssc : StatefulSetController) (workers : Z)
| NewLeaderElector (config : LeaderElectionConfig)
| AcquireLease
| RenewLease                                           (** until the lease is lost or the context done *)
| AwaitDone.                                           (** [<-ctx.Done()] *)

Definition boot_reply (c : boot_call) : Type :=
  match c with
  | Sys c => cert_reply c
  | ParseFlags _ _ _ => bool * Config Float32 * WebhookConfig
  | BuildConfigFromFlags _ _ => rest_Config Float32 Rest + error
  | GroupWait | NewClientForConfig _ _ | AddIndexers _ _ _ | NewLeaderElector _ => option error
  | OnceDo | AcquireLease => bool
  | GetIndexers _ => list string
  | _ => unit
  end%type.

Notation bootM := (prog boot_reply).

(** A program of [Startup] as part of this one. *)
Fixpoint sys {A} (p : certM A) : bootM A :=
  match p with
  | Ret a => Ret a
  | Panic => Panic
  | Vis c k => Vis (Sys c) (λ r, sys (k r))
  end.

(** ** The controller *)

(** [metrics.Register] *)
Definition Register : bootM unit :=
  first ← call OnceDo;
  if first : bool
  then call (MustRegister "statefulset_max_unavailable");;
       call (MustRegister "statefulset_unavailable_replicas")
  else mret tt.

(** [Lister()] and [Informer()] of a generated informer both ask the factory for it. *)
Definition Lister (r : resource) : bootM lister := call (InformerFor r);; mret (ListerOf r).
Definition Informer (r : resource) : bootM resource := call (InformerFor r);; mret r.
Definition HasSynced (r : resource) : bootM has_synced := i ← Informer r; mret (HasSyncedOf i).

(** [AddPodControllerIndexer], on an informer of the process. *)
Definition AddPodControllerIndexer_call (podInformer : resource) : bootM (option error) :=
  indexers ← call (GetIndexers podInformer);
  if bool_decide ("podController" ∈ indexers) then mret None
  else call (AddIndexers podInformer "podController" PodControllerIndex).

Definition pod_handlers : ResourceEventHandlerFuncs :=
  {| AddFunc := addPod; UpdateFunc := updatePod; DeleteFunc := deletePod |}.

(** The assertions of the update handler panic on other objects. *)
Definition set_handlers : ResourceEventHandlerFuncs :=
  {| AddFunc obj := enqueueStatefulSet obj;
     UpdateFunc old cur := _ ← deref (as_set old); _ ← deref (as_set cur); enqueueStatefulSet cur;
     DeleteFunc obj := enqueueStatefulSet obj |}.

Definition NewStatefulSetController (kubeClient kthenaClientSet : client) : bootM StatefulSetController :=
  call NewBroadcaster;;
  call (NewRecorder "xstatefulset");;
  let recorder := RecorderFor "xstatefulset" in
  Register;;
  podLister ← Lister Pods;
  claimLister ← Lister PersistentVolumeClaims;
  let podControl := NewStatefulPodControl kubeClient podLister claimLister recorder in
  setLister ← Lister XStatefulSets;
  let statusUpdater := NewRealStatefulSetStatusUpdater kthenaClientSet setLister in
  revLister ← Lister ControllerRevisions;
  let control := NewDefaultStatefulSetControl podControl statusUpdater (NewHistory_handle kubeClient revLister) in
  pvcListerSynced ← HasSynced PersistentVolumeClaims;
  revListerSynced ← HasSynced ControllerRevisions;
  call (NewQueue_call "xstatefulset");;
  podInformer ← Informer Pods;
  call (AddEventHandler podInformer pod_handlers);;
  podLister ← Lister Pods;
  podListerSynced ← HasSynced Pods;
  podInformer ← Informer Pods;
  AddPodControllerIndexer_call podInformer;;
  podInformer ← Informer Pods;
  let podIndexer := IndexerOf podInformer in
  setInformer ← Informer XStatefulSets;
  call (AddEventHandler setInformer set_handlers);;
  setLister ← Lister XStatefulSets;
  setListerSynced ← HasSynced XStatefulSets;
  mret {| ssc_kubeClient := kubeClient; ssc_kthenaClientset := kthenaClientSet; ssc_control := control;
          ssc_podControl := {| rpc_KubeClient := kubeClient; rpc_Recorder := recorder |};
          ssc_podIndexer := podIndexer; ssc_podLister := podLister; ssc_podListerSynced := podListerSynced;
          ssc_setLister := setLister; ssc_setListerSynced := setListerSynced;
          ssc_pvcListerSynced := pvcListerSynced; ssc_revListerSynced := revListerSynced;
          ssc_queue := "xstatefulset" |}.

(** The caches [Run] waits for. *)
Definition awaited (ssc : StatefulSetController) : list has_synced :=
  [ssc_podListerSynced ssc; ssc_setListerSynced ssc; ssc_pvcListerSynced ssc; ssc_revListerSynced ssc].

(** ** Start *)

(** Both factories are made without resync, and with a transform that trims the
    managed fields, which the model's objects do not have. *)
Definition NewControllerContext (versionedClient xStatefulSetClient : client) : bootM unit :=
  call (NewInformerFactory KubeInformerFactory versionedClient 0);;
  call (NewInformerFactory XStatefulsetInformerFactory xStatefulSetClient 0).

(** The closure of [setupController]. *)
Definition startControllers (cc : Config Float32) : bootM unit :=
  NewControllerContext KubeClient XStatefulSetClient;;
  ssc ← NewStatefulSetController KubeClient XStatefulSetClient;
  call (StartFactory KubeInformerFactory);;
  call (StartFactory XStatefulsetInformerFactory);;
  call CloseInformersStarted;;
  (call (GoRun ssc (Workers cc)) : bootM unit).

(** [NewForConfigOrDie]: a panic when the client cannot be made. *)
Definition NewForConfigOrDie (c : client) (cfg : rest_Config Float32 Rest) : bootM unit :=
  err ← call (NewClientForConfig c cfg);
  match err with Some _ => Panic | None => mret tt end.

(** "Set QPS and Burst if provided" *)
Definition with_limits (cc : Config Float32) (cfg : rest_Config Float32 Rest) : rest_Config Float32 Rest :=
  {| QPS := if positive (KubeAPIQPS cc) then KubeAPIQPS cc else QPS cfg;
     Burst := if 0 <? KubeAPIBurst cc then KubeAPIBurst cc else Burst cfg;
     rest_of := rest_of cfg |}.

Definition defaultLeaseDuration : Z := 15 * second.
Definition defaultRenewDeadline : Z := 10 * second.
Definition defaultRetryPeriod : Z := 2 * second.
Definition leaderElectionId : string := "xstatefulset.controller-manager".

(** The elector is made of a lock; [None] is success. *)
Definition initLeaderElector : bootM (option error) :=
  resourceLock ← sys newResourceLock;
  match resourceLock with
  | inr err => mret (Some err)
  | inl resourceLock =>
      call (NewLeaderElector
        {| Lock := resourceLock; LeaseDuration := defaultLeaseDuration;
           RenewDeadline := defaultRenewDeadline; RetryPeriod := defaultRetryPeriod;
           ReleaseOnCancel := false; le_Name := leaderElectionId |})
  end.

(** [leaderelection.LeaderElector.Run]: "Run will not return before leader election
    loop is stopped by ctx or it has stopped holding the leader lease"; it calls
    [OnStartedLeading] when it has acquired the lease and [OnStoppedLeading] when it
    returns.  [OnStartedLeading] runs in a goroutine while the lease is renewed; here
    it returns at once, because it only starts the controllers. *)
Class LeaderElection := {
  RunElector : bootM unit → bootM unit → bootM unit;
  RunElector_spec started stopped :
    RunElector started stopped =
      (acquired ← call AcquireLease;
       (if acquired : bool then started;; call RenewLease else mret tt);;
       stopped)
}.

Section leader.
Context `{LeaderElection}.

(** [OnStoppedLeading] only logs. *)
Definition lead_or_start (cc : Config Float32) : bootM (option error) :=
  if EnableLeaderElection cc then
    err ← initLeaderElector;
    match err with
    | Some err => mret (Some (wrap_error "init leader elector" err))
    | None => RunElector (startControllers cc) (mret tt);; mret None
    end
  else startControllers cc;; mret None.

Definition setupController (cc : Config Float32) : bootM (option error) :=
  r ← call (BuildConfigFromFlags (MasterURL cc) (Kubeconfig cc));
  match r with
  | inr err => mret (Some (Errorf ("build client config: " +:+ Error err) None))
  | inl cfg =>
      let cfg := with_limits cc cfg in
      NewForConfigOrDie KubeClient cfg;;
      NewForConfigOrDie XStatefulSetClient cfg;;
      err ← lead_or_start cc;
      match err with
      | Some err => mret (Some err)
      | None => call AwaitDone;; mret None
      end
  end.
End leader.

(** ** [main] *)

Definition default_Config : Config Float32 :=
  {| EnableLeaderElection := false; Workers := 5; Kubeconfig := ""; MasterURL := "";
     KubeAPIQPS := zero_f32; KubeAPIBurst := 0 |}.

Definition default_WebhookConfig : WebhookConfig :=
  {| Port := 8443; CertDir := "/etc/tls"; CertSecretName := "xstatefulset-webhook-server-cert";
     wc_ServiceName := "xstatefulset-controller-manager-webhook"; TlsPrivateKey := "/etc/tls/tls.key";
     TlsCert := "/etc/tls/tls.crt"; MutatingWebhookConfigurationName := "xstatefulset-mutating-webhook" |}.

(** [log.Fatal] ends the process. *)
Definition main : bootM unit :=
  '(enableWebhook, cc, wc) ← call (ParseFlags true default_Config default_WebhookConfig);
  call NotifySignals;;
  r ← call (BuildConfigFromFlags (MasterURL cc) (Kubeconfig cc));
  match r with
  | inr err => call (Fatal ("build client config: " +:+ Error err))
  | inl cfg =>
      let cfg := with_limits cc cfg in
      (if enableWebhook : bool then call (GroupGo (WebhookComponent cfg cc wc)) else mret tt);;
      call (GroupGo (ControllerComponent cc));;
      err ← call GroupWait;
      match err with
      | Some err => (call (Fatal ("Error running components: " +:+ Error err)) : bootM unit)
      | None => mret tt
      end
  end.

(** ** Properties *)

Notation trace := (list (obs boot_reply)).

(** The call was made. *)
Definition made (tr : trace) (e : boot_call) : Prop := ∃ r, existT e r ∈ tr.

Definition starting (o : obs boot_reply) : bool :=
  match projT1 o with StartFactory _ | GoRun _ _ => true | _ => false end.
Definition wiring (o : obs boot_reply) : bool :=
  match projT1 o with
  | NewInformerFactory _ _ _ | InformerFor _ | AddEventHandler _ _ | AddIndexers _ _ _
  | StartFactory _ | GoRun _ _ => true
  | _ => false
  end.

(** The pods have the index by controller: the informer had it, or it was added. *)
Definition pods_indexed (tr : trace) : Prop :=
  (∃ indexers, existT (GetIndexers Pods) indexers ∈ tr ∧ "podController" ∈ indexers) ∨
  made tr (AddIndexers Pods "podController" PodControllerIndex).

(** What must hold when a call of the wiring is made: informers are requested and get
    their handlers, once, and indexers before any factory is started; a factory is
    started when every informer of it whose cache the controller reads has been
    requested; and the controller runs, once, after both. *)
Definition wired (cc : Config Float32) (tr : trace) (e : boot_call) : Prop :=
  match e with
  | InformerFor _ | AddIndexers _ _ _ => Forall (λ o, starting o = false) tr
  | AddEventHandler r h =>
      Forall (λ o, starting o = false) tr ∧ Forall (λ o, ∀ h', projT1 o ≠ AddEventHandler r h') tr ∧
      (r = Pods ∧ h = pod_handlers ∨ r = XStatefulSets ∧ h = set_handlers)
  | StartFactory f =>
      (∀ r, factory_of r = f → made tr (InformerFor r)) ∧
      match f with
      | KubeInformerFactory => made tr (AddEventHandler Pods pod_handlers) ∧ pods_indexed tr
      | XStatefulsetInformerFactory => made tr (AddEventHandler XStatefulSets set_handlers)
      end
  | GoRun ssc n =>
      (∀ r, made tr (InformerFor r) ∧ made tr (StartFactory (factory_of r)) ∧ HasSyncedOf r ∈ awaited ssc) ∧
      n = Workers cc ∧ Forall (λ o, ∀ ssc' n', projT1 o ≠ GoRun ssc' n') tr
  | RenewLease | AwaitDone => False
  | _ => True
  end.

Lemma wiring_starting (tr : trace) :
  Forall (λ o, wiring o = false) tr → Forall (λ o, starting o = false) tr.
Proof. intros Htr. eapply List.Forall_impl; [|exact Htr]. by intros [[] ?]. Qed.

Lemma made_app tr tr' e : made tr' e → made (tr ++ tr') e.
Proof. intros [r Hr]. exists r. apply elem_of_app. by right. Qed.

(** Calls made before the wiring do not disturb it. *)
Lemma wired_app cc tr tr' e :
  Forall (λ o, wiring o = false) tr → wired cc tr' e → wired cc (tr ++ tr') e.
Proof.
  intros Htr. pose proof (wiring_starting _ Htr) as Hst.
  assert (∀ r, Forall (λ o, ∀ h', projT1 o ≠ AddEventHandler r h') tr) as Hadd.
  { intros r. eapply List.Forall_impl; [|exact Htr]. intros [c x] Hc h' Heq. simpl in Heq. by subst c. }
  assert (Forall (λ o, ∀ ssc n, projT1 o ≠ GoRun ssc n) tr) as Hrun.
  { eapply List.Forall_impl; [|exact Htr]. intros [c x] Hc ssc n Heq. simpl in Heq. by subst c. }
  destruct e; simpl; try done; rewrite ?Forall_app; try (intros He; by split).
  - intros (? & ? & ?). by split_and!.
  - intros [Hmade Hf]. split; [intros r Hr; by apply made_app, Hmade|]. destruct f; [|by apply made_app].
    destruct Hf as [Hh [(l & Hl & Hin)|Hi]]; (split; [by apply made_app|]); [left|right; by apply made_app].
    exists l. split; [|done]. apply elem_of_app. by right.
  - intros (Hall & ? & ?). split_and!; try done. intros r. destruct (Hall r) as (? & ? & ?).
    split_and!; [by apply made_app..|done].
Qed.

Ltac in_trace := repeat first [apply list_elem_of_here | apply list_elem_of_further].
Ltac find_call := eexists; in_trace.
Ltac solve_wired :=
  cbn -[pod_handlers set_handlers made addPod]; try exact I;
  repeat match goal with
         | |- _ ∧ _ => split
         | |- ∀ r : resource, _ → made _ _ => intros []; try discriminate; intros _
         | |- ∀ r : resource, _ ∧ _ => intros []
         | |- made _ _ => find_call
         | |- pods_indexed _ =>
             first [match goal with H : bool_decide _ = true |- _ =>
                      left; eexists; split; [in_trace|exact (bool_decide_eq_true_1 _ H)] end
                   |right; find_call]
         | |- _ ∨ _ => first [left; split; reflexivity|right; split; reflexivity]
         | |- Forall _ _ => repeat (constructor; try done)
         | |- _ ∈ _ => repeat first [left | right]
         | |- _ = _ => reflexivity
         end.

Lemma startControllers_wp cc :
  wp (λ _, True) (wired cc) (startControllers cc)
    (λ tr o, o = Some tt ∧ ∃ ssc, made tr (GoRun ssc (Workers cc))) [].
Proof.
  unfold startControllers, NewControllerContext, NewStatefulSetController, Register, Lister, HasSynced,
    Informer, AddPodControllerIndexer_call.
  repeat (cbv beta iota;
    lazymatch goal with
    | |- wp _ _ (if bool_decide ?P then _ else _) _ _ => destruct (bool_decide P) eqn:?
    | |- wp _ _ (if ?b then _ else _) _ _ => destruct b
    | |- wp _ _ (call ?e) _ _ => refine (wp_call _ _ e _ _ _ _); [|intros ? ?]
    | |- wp _ _ _ _ _ => wp_step
    end); try solve_wired.
  all: first [match goal with |- Some ?r = _ => by destruct r end|eexists; find_call].
Qed.

(** A program of [Startup] makes the calls of the system only. *)
Lemma wp_sys {A} (I : trace → boot_call → Prop) (p : certM A) (Q : option A → Prop) tr :
  (∀ tr c, I tr (Sys c)) → wp (λ _, True) (λ _ _, True) p (λ _, Q) [] →
  Forall (λ o, wiring o = false) tr →
  wp (λ _, True) I (sys p) (λ tr' o, Q o ∧ Forall (λ o, wiring o = false) tr') tr.
Proof.
  intros HI. generalize (@nil (obs cert_reply)). revert tr.
  induction p as [a| |c k IH]; intros tr tr0; [by split..|]. intros [_ Hk] Htr.
  split; [apply HI|]. intros r _. eapply IH; [by apply Hk|]. apply Forall_app. split; [done|by repeat constructor].
Qed.

Lemma newResourceLock_returns :
  wp (λ _, True) (λ _ _, True) newResourceLock (λ _ o, o ≠ None) [].
Proof.
  unfold newResourceLock, GetInClusterNameSpace.
  repeat (cbv beta iota;
    lazymatch goal with
    | |- wp _ _ (match ?r with _ => _ end) _ _ => destruct r
    | |- wp _ _ _ _ _ => wp_step
    end); done.
Qed.

Context `{LeaderElection}.

(** The calls of [setupController]: the wiring of the controller, which starts only as
    the leader when leader election is on, and the wait for the end. *)
Definition led (cc : Config Float32) (tr : trace) (e : boot_call) : Prop :=
  match e with
  | NewInformerFactory _ _ _ | InformerFor _ | AddEventHandler _ _ | AddIndexers _ _ _
  | StartFactory _ | GoRun _ _ =>
      wired cc tr e ∧ (EnableLeaderElection cc = true → existT AcquireLease true ∈ tr)
  | RenewLease => ∃ ssc, made tr (GoRun ssc (Workers cc))
  | AwaitDone => EnableLeaderElection cc = false → ∃ ssc, made tr (GoRun ssc (Workers cc))
  | _ => True
  end.

Lemma startControllers_led cc tr :
  Forall (λ o, wiring o = false) tr →
  (EnableLeaderElection cc = true → existT AcquireLease true ∈ tr) →
  wp (λ _, True) (led cc) (startControllers cc)
    (λ tr' o, o = Some tt ∧ ∃ ssc, made tr' (GoRun ssc (Workers cc))) tr.
Proof.
  intros Htr Hlead. pose proof (wp_shift _ _ _ _ tr [] (startControllers_wp cc)) as Hwp. rewrite app_nil_r in Hwp.
  eapply wp_mono; [|eapply wp_weaken; [| |exact Hwp]]; [|done|].
  - intros tr' o (tr1 & -> & -> & ssc & Hin). split; [done|]. exists ssc. by apply made_app.
  - intros tr' e (tr1 & -> & He). pose proof (wired_app cc tr tr1 e Htr He) as Hw.
    destruct e; try done; (split; [exact Hw|]); intros Hel; apply elem_of_app; left; auto.
Qed.

Lemma NewForConfigOrDie_wp c cfg tr (I : trace → boot_call → Prop) (Φ : trace → option unit → Prop) :
  I tr (NewClientForConfig c cfg) →
  (∀ err, Φ (tr ++ [existT (NewClientForConfig c cfg) err])
     (match err with Some _ => None | None => Some tt end)) →
  wp (λ _, True) I (NewForConfigOrDie c cfg) Φ tr.
Proof.
  intros HI HΦ. unfold NewForConfigOrDie. split; [done|].
  intros [err|] _; [exact (HΦ (Some err))|exact (HΦ None)].
Qed.

Lemma initLeaderElector_wp cc tr :
  Forall (λ o, wiring o = false) tr →
  wp (λ _, True) (led cc) initLeaderElector
    (λ tr' o, ∃ err, o = Some err ∧ Forall (λ o, wiring o = false) tr') tr.
Proof.
  intros Htr. unfold initLeaderElector. apply wp_bind_2.
  eapply wp_mono; [|by apply wp_sys; [|apply newResourceLock_returns|]].
  intros tr' [[lock|err]|] [Ho Htr']; [|by apply wp_ret; exists (Some err)|done].
  refine (wp_call _ _ (NewLeaderElector _) _ _ _ _); [done|]. intros r _. exists r. split; [done|].
  apply Forall_app. split; [done|by repeat constructor].
Qed.

Lemma RunElector_wp cc (Φ : trace → option unit → Prop) tr :
  Forall (λ o, wiring o = false) tr → (∀ tr', Φ tr' (Some tt)) →
  wp (λ _, True) (led cc) (RunElector (startControllers cc) (mret tt)) Φ tr.
Proof.
  intros Htr HΦ. rewrite RunElector_spec. refine (wp_call_bind _ _ AcquireLease _ _ _ _ _); [done|].
  intros [|] _; apply wp_bind_2; [|by apply wp_ret, wp_ret].
  apply wp_bind_2. eapply wp_mono; [|apply startControllers_led].
  - intros tr' o [-> Hrun]. refine (wp_call _ _ RenewLease _ _ _ _); [done|]. intros [] _. by apply wp_ret.
  - apply Forall_app. split; [done|by repeat constructor].
  - intros _. apply elem_of_app. right. left.
Qed.


End wiring.
