(* ===== verification/Clientset.v ===== *)
(** * The generated clients ([client-go/clientset/versioned], [client-go/listers], the informers' accessors)

    How the clients of the sets are made from a configuration, the requests they send
    for the scale of a set, their test doubles, and the ways to the shared informer and
    its lister.  What the clients send through [gentype] is library code. *)
From S2P Require Export Wiring Informers Scheme.

(** ** The ways to the informer *)

Section accessors.
Context {Client ListOptions ListResult WatchResult Chan Transform Inf : Type}.
Context (List : Client → string → ListOptions → ListResult).
Context (Watch : Client → string → ListOptions → WatchResult).
Context (NewSharedIndexInformer :
  ListWatch (ListOptions := ListOptions) (ListResult := ListResult) (WatchResult := WatchResult) →
  string → Z → list string → Inf).
Context (SetTransform : option Transform → Inf → Inf).
(** [GetIndexer], [listers.New], [listers.NewNamespaced] and [cache.NewGenericLister]. *)
Context {Indexer ResourceIndexer GenericLister : Type} (GetIndexer : Inf → Indexer).
Context (listers_New : Indexer → GroupResource → ResourceIndexer).
Context (NewNamespaced : ResourceIndexer → string → ResourceIndexer).
Context (NewGenericLister : Indexer → GroupResource → GenericLister).

Notation factory := (sharedInformerFactory (Client := Client) (ListOptions := ListOptions) (Chan := Chan)
  (Transform := Transform) (Inf := Inf)).

(** [group], [version] and [xStatefulSetInformer]: the factory they point to is the
    state of the methods. *)
Record group := { grp_namespace : string; grp_tweak : option (TweakListOptionsFunc (ListOptions := ListOptions)) }.
Record version := { ver_namespace : string; ver_tweak : option (TweakListOptionsFunc (ListOptions := ListOptions)) }.
Record xStatefulSetInformer := {
  xi_tweak : option (TweakListOptionsFunc (ListOptions := ListOptions)); xi_namespace : string }.

Definition group_New (ns : string) (t : option TweakListOptionsFunc) : group :=
  {| grp_namespace := ns; grp_tweak := t |}.
Definition version_New (ns : string) (t : option TweakListOptionsFunc) : version :=
  {| ver_namespace := ns; ver_tweak := t |}.
Definition Apps (f : factory) : group := group_New (namespace f) (tweakListOptions f).
Definition V1 (g : group) : version := version_New (grp_namespace g) (grp_tweak g).
Definition version_XStatefulSets (v : version) : xStatefulSetInformer :=
  {| xi_tweak := ver_tweak v; xi_namespace := ver_namespace v |}.

Definition xi_Informer (i : xStatefulSetInformer) (f : factory) : Inf * factory :=
  InformerFor SetTransform XStatefulSetType
    (defaultInformer List Watch NewSharedIndexInformer (xi_namespace i) (xi_tweak i)) f.

(** [xStatefulSetLister] *)
Record xStatefulSetLister := { sl_indexer : ResourceIndexer }.
Definition NewXStatefulSetLister (indexer : Indexer) : xStatefulSetLister :=
  {| sl_indexer := listers_New indexer (Resource "xstatefulset") |}.
Record xStatefulSetNamespaceLister := { snl_indexer : ResourceIndexer }.
Definition lister_XStatefulSets (s : xStatefulSetLister) (ns : string) : xStatefulSetNamespaceLister :=
  {| snl_indexer := NewNamespaced (sl_indexer s) ns |}.

Definition xi_Lister (i : xStatefulSetInformer) (f : factory) : xStatefulSetLister * factory :=
  let '(informer, f) := xi_Informer i f in (NewXStatefulSetLister (GetIndexer informer), f).

(** What [ForResource] returns for the informer it finds. *)
Record genericInformer := { gi_informer : Inf; gi_resource : GroupResource }.
Definition gi_Informer (g : genericInformer) : Inf := gi_informer g.
Definition gi_Lister (g : genericInformer) : GenericLister :=
  NewGenericLister (GetIndexer (gi_Informer g)) (gi_resource g).
Definition generic_of (resource : GroupVersionResource) (informer : Inf) : genericInformer :=
  {| gi_informer := informer;
     gi_resource := {| gr_Group := gvr_Group resource; gr_Resource := gvr_Resource resource |} |}.

(** Whichever way comes first, they all lead to one informer and its indexer. *)
Lemma accessors_agree (f : factory) :
  let way := version_XStatefulSets (V1 (Apps f)) in
  let '(informer, f1) := xi_Informer way f in
  informers f1 !! XStatefulSetType = Some informer ∧
  xi_Informer way f1 = (informer, f1) ∧ xi_Lister way f1 = (NewXStatefulSetLister (GetIndexer informer), f1) ∧
  xi_Lister way f = (NewXStatefulSetLister (GetIndexer informer), f1) ∧
  ForResource List Watch NewSharedIndexInformer SetTransform
    {| gvr_Group := GroupName; gvr_Version := "v1"; gvr_Resource := "xstatefulsets" |} f = (inl informer, f1).
Proof.
  cbv zeta. unfold xi_Lister, ForResource, XStatefulSets_Informer, xi_Informer, InformerFor. cbn.
  destruct (informers f !! XStatefulSetType) as [i|] eqn:Hi; cbn; [by rewrite ?Hi|].
  by rewrite ?lookup_insert_eq.
Qed.
End accessors.

(** ** Clients from a configuration *)

(** What the clients use of [client-go]: types, the codec
    [rest.CodecFactoryForGeneratedClient(scheme.Scheme, scheme.Codecs).WithoutConversion()],
    and [json.Marshal] of a scale. *)
Class RestLibrary `{K8s} (Float32 : Type) := {
  Limiter : Type;
  HttpClient : Type;
  RESTClient_handle : Type;                              (** a non-nil [rest.Interface] *)
  Discovery_handle : Type;
  Serializer : Type;
  Transport : Type;                                      (** the other fields of [rest.Config] *)
  ScaleObject : Type;
  zero_Scale : ScaleObject;                              (** [&autoscalingv1.Scale{}] *)
  ScaleApplyConfiguration : Type;
  GetOptions : Type;
  UpdateOptions : Type;
  ApplyOptions : Type;
  PatchOptions : Type;
  Payload : Type;
  ToPatchOptions : ApplyOptions → PatchOptions;
  DefaultKubernetesUserAgent : string;
  generated_codec : Serializer;
  json_Marshal : ScaleApplyConfiguration → Payload + error;
  zero_f32 : Float32;
  positive : Float32 → bool                              (** [> 0] *)
}.

Section clients.
Context `{RestLibrary}.

(** The fields of [rest.Config] the clients read or set, besides [QPS] and [Burst]. *)
Record rest_fields := {
  UserAgent : string;
  RateLimiter : option Limiter;
  rest_GroupVersion : option GroupVersion;
  APIPath : string;
  NegotiatedSerializer : option Serializer;
  transport_of : Transport }.
Abbreviation Config := (rest_Config Float32 rest_fields) (only parsing).

Definition set_UserAgent (u : string) (c : Config) : Config :=
  {| QPS := QPS c; Burst := Burst c;
     rest_of := {| UserAgent := u; RateLimiter := RateLimiter (rest_of c);
                   rest_GroupVersion := rest_GroupVersion (rest_of c); APIPath := APIPath (rest_of c);
                   NegotiatedSerializer := NegotiatedSerializer (rest_of c); transport_of := transport_of (rest_of c) |} |}.
Definition set_RateLimiter (l : Limiter) (c : Config) : Config :=
  {| QPS := QPS c; Burst := Burst c;
     rest_of := {| UserAgent := UserAgent (rest_of c); RateLimiter := Some l;
                   rest_GroupVersion := rest_GroupVersion (rest_of c); APIPath := APIPath (rest_of c);
                   NegotiatedSerializer := NegotiatedSerializer (rest_of c); transport_of := transport_of (rest_of c) |} |}.

(** A request of the scale of a set, as the chain of methods of [rest.Request] builds it. *)
Inductive request_params :=
| GetParams (o : GetOptions)
| PutParams (o : UpdateOptions) (body : option ScaleObject)
| PatchParams (o : PatchOptions) (body : Payload).
Record request := {
  rq_client : RESTClient_handle; rq_params : request_params; rq_namespace : string;
  rq_resource : string; rq_name : string; rq_subresource : string }.

Inductive rest_call :=
| HTTPClientFor (c : Config)
| NewTokenBucketRateLimiter (qps : Float32) (burst : Z)
| RESTClientForConfigAndClient (c : Config) (h : HttpClient)
| NewDiscoveryClientForConfigAndClient (c : Config) (h : HttpClient)
| NewDiscoveryClient (c : option RESTClient_handle)
| NewApplyRequest (c : option RESTClient_handle) (scale : ScaleApplyConfiguration)  (** the encoded body *)
| Do (rq : request).                      (** [Do(ctx).Into(result)]: what [result] holds then *)

Definition rest_reply (c : rest_call) : Type :=
  match c with
  | HTTPClientFor _ => HttpClient + error
  | NewTokenBucketRateLimiter _ _ => Limiter
  | RESTClientForConfigAndClient _ _ => RESTClient_handle + error
  | NewDiscoveryClientForConfigAndClient _ _ => Discovery_handle + error
  | NewDiscoveryClient _ => Discovery_handle
  | NewApplyRequest _ _ => Payload + error
  | Do _ => ScaleObject * option error
  end%type.

Notation restM := (prog rest_reply).

(** *** [typed/apps/v1] *)

(** The receivers are pointers: [None] is nil. *)
Record AppsV1Client := { restClient : option RESTClient_handle }.

Definition setConfigDefaults (config : Config) : Config :=
  {| QPS := QPS config; Burst := Burst config;
     rest_of := {| UserAgent := if bool_decide (UserAgent (rest_of config) = "") then DefaultKubernetesUserAgent
                                else UserAgent (rest_of config);
                   RateLimiter := RateLimiter (rest_of config);
                   rest_GroupVersion := Some SchemeGroupVersion; APIPath := "/apis";
                   NegotiatedSerializer := Some generated_codec;
                   transport_of := transport_of (rest_of config) |} |}.

Definition apps_NewForConfigAndClient (c : Config) (h : HttpClient) : restM (AppsV1Client + error) :=
  r ← call (RESTClientForConfigAndClient (setConfigDefaults c) h);
  match r with
  | inr err => mret (inr err)
  | inl client => mret (inl {| restClient := Some client |})
  end.

Definition apps_NewForConfig (c : Config) : restM (AppsV1Client + error) :=
  let config := setConfigDefaults c in
  r ← call (HTTPClientFor config);
  match r with
  | inr err => mret (inr err)
  | inl httpClient => apps_NewForConfigAndClient config httpClient
  end.

Definition apps_NewForConfigOrDie (c : Config) : restM AppsV1Client :=
  r ← apps_NewForConfig c;
  match r with inr _ => Panic | inl client => mret client end.

Definition apps_New (c : option RESTClient_handle) : AppsV1Client := {| restClient := c |}.

Definition apps_RESTClient (c : option AppsV1Client) : option RESTClient_handle :=
  match c with None => None | Some c => restClient c end.

(** *** [Clientset] *)

Record Clientset := { cs_DiscoveryClient : option Discovery_handle; cs_appsV1 : option AppsV1Client }.

(** A nil receiver panics. *)
Definition cs_AppsV1 (c : option Clientset) : option (option AppsV1Client) := cs_appsV1 <$> c.
Definition cs_Discovery (c : option Clientset) : option Discovery_handle :=
  match c with None => None | Some c => cs_DiscoveryClient c end.

Definition burst_required : error :=
  Errorf "burst is required to be greater than 0 when RateLimiter is not set and QPS is set to greater than 0" None.

(** The configuration with a rate limiter, or the error. *)
Definition rate_limited (c : Config) : restM (Config + error) :=
  if negb (not_nil (RateLimiter (rest_of c))) && positive (QPS c) then
    if Burst c <=? 0 then mret (inr burst_required)
    else
      limiter ← call (NewTokenBucketRateLimiter (QPS c) (Burst c));
      mret (inl (set_RateLimiter limiter c))
  else mret (inl c).

Definition NewForConfigAndClient (c : Config) (httpClient : HttpClient) : restM (Clientset + error) :=
  r ← rate_limited c;
  match r with
  | inr err => mret (inr err)
  | inl configShallowCopy =>
      r ← apps_NewForConfigAndClient configShallowCopy httpClient;
      match r with
      | inr err => mret (inr err)
      | inl appsV1 =>
          r ← call (NewDiscoveryClientForConfigAndClient configShallowCopy httpClient);
          match r with
          | inr err => mret (inr err)
          | inl discovery => mret (inl {| cs_DiscoveryClient := Some discovery; cs_appsV1 := Some appsV1 |})
          end
      end
  end.

Definition NewForConfig (c : Config) : restM (Clientset + error) :=
  let configShallowCopy :=
    if bool_decide (UserAgent (rest_of c) = "") then set_UserAgent DefaultKubernetesUserAgent c else c in
  r ← call (HTTPClientFor configShallowCopy);
  match r with
  | inr err => mret (inr err)
  | inl httpClient => NewForConfigAndClient configShallowCopy httpClient
  end.

Definition versioned_NewForConfigOrDie (c : Config) : restM Clientset :=
  r ← NewForConfig c;
  match r with inr _ => Panic | inl cs => mret cs end.

Definition versioned_New (c : option RESTClient_handle) : restM Clientset :=
  discovery ← call (NewDiscoveryClient c);
  mret {| cs_DiscoveryClient := Some discovery; cs_appsV1 := Some (apps_New c) |}.

(** *** The client of the sets *)

(** [gentype.ClientWithListAndApply], as it is constructed. *)
Record xStatefulSets := {
  gen_resource : string; gen_client : option RESTClient_handle; gen_namespace : string }.

Definition newXStatefulSets (c : option AppsV1Client) (ns : string) : xStatefulSets :=
  {| gen_resource := "xstatefulsets"; gen_client := apps_RESTClient c; gen_namespace := ns |}.
Definition apps_XStatefulSets (c : option AppsV1Client) (ns : string) : xStatefulSets := newXStatefulSets c ns.

(** [Namespace(..).Resource(..).Name(..).SubResource(..)] *)
Definition scale_request (c : xStatefulSets) (client : RESTClient_handle) (name : string) (params : request_params)
    : request :=
  {| rq_client := client; rq_params := params; rq_namespace := gen_namespace c;
     rq_resource := "xstatefulsets"; rq_name := name; rq_subresource := "scale" |}.

(** Without a client, the first method call panics. *)
Definition GetScale (c : xStatefulSets) (name : string) (options : GetOptions)
    : restM (option ScaleObject * option error) :=
  client ← deref (gen_client c);
  '(result, err) ← call (Do (scale_request c client name (GetParams options)));
  mret (Some result, err).

Definition UpdateScale (c : xStatefulSets) (name : string) (scale : option ScaleObject) (opts : UpdateOptions)
    : restM (option ScaleObject * option error) :=
  client ← deref (gen_client c);
  '(result, err) ← call (Do (scale_request c client name (PutParams opts scale)));
  mret (Some result, err).

Definition nil_scale : error := Errorf "scale provided to ApplyScale must not be nil" None.

Definition ApplyScale (c : xStatefulSets) (name : string) (scale : option ScaleApplyConfiguration) (opts : ApplyOptions)
    : restM (option ScaleObject * option error) :=
  match scale with
  | None => mret (None, Some nil_scale)
  | Some scale =>
      let patchOpts := ToPatchOptions opts in
      r ← call (NewApplyRequest (gen_client c) scale);
      match r with
      | inr err => mret (None, Some err)
      | inl body =>
          client ← deref (gen_client c);
          '(result, err) ← call (Do (scale_request c client name (PatchParams patchOpts body)));
          mret (Some result, err)
      end
  end.
End clients.

(** ** The test doubles ([versioned/fake]) *)

Section fakes.
Context `{RestLibrary} {Tracker RuntimeObject ListOptions WatchInterface : Type} (zero_ListOptions : ListOptions).

Definition sets_resource : GroupVersionResource :=
  {| gvr_Group := GroupName; gvr_Version := "v1"; gvr_Resource := "xstatefulsets" |}.

(** The actions of [k8s.io/client-go/testing] the doubles record. *)
Inductive action :=
| GetSubresourceAction (r : GroupVersionResource) (ns subresource name : string) (o : GetOptions)
| UpdateSubresourceAction (r : GroupVersionResource) (subresource ns : string) (object : option ScaleObject) (o : UpdateOptions)
| PatchSubresourceAction (r : GroupVersionResource) (ns name patchType : string) (data : Payload) (o : PatchOptions)
    (subresource : string).

(** What the reactors return: nothing, a scale, or an object of another type. *)
Inductive reaction := NilObject | AScale (s : ScaleObject) | OtherObject.

Record watch_action := {
  wa_resource : GroupVersionResource; wa_namespace : string;
  wa_options : option ListOptions }.              (** [None]: not a [WatchActionImpl] *)

Inductive fake_call :=
| Invokes (a : action) (default : ScaleObject)
| NewObjectTracker (fieldManaged : bool)
| TrackerAdd (o : Tracker) (obj : RuntimeObject)
| TrackerWatch (o : Tracker) (r : GroupVersionResource) (ns : string) (opts : ListOptions).

Definition fake_reply (c : fake_call) : Type :=
  match c with
  | Invokes _ _ => reaction * option error
  | NewObjectTracker _ => Tracker
  | TrackerAdd _ _ => option error
  | TrackerWatch _ _ _ _ => WatchInterface + error
  end%type.

Notation fakeM := (prog fake_reply).

(** *** The clientset *)

(** The chain of reactors is that of the embedded [testing.Fake]. *)
Inductive reactor :=
| ObjectReaction (verb resource : string) (o : Tracker)
| WatchReaction (resource : string) (reaction : watch_action → fakeM (bool * option WatchInterface * option error)).
Record FakeClientset := { fc_tracker : Tracker; fc_reactors : list reactor }.

(** The closure given to [AddWatchReactor]. *)
Definition watch_reaction (o : Tracker) (a : watch_action) : fakeM (bool * option WatchInterface * option error) :=
  let opts := default zero_ListOptions (wa_options a) in
  r ← call (TrackerWatch o (wa_resource a) (wa_namespace a) opts);
  match r with
  | inr err => mret (false, None, Some err)
  | inl watch => mret (true, Some watch, None)
  end.

(** An object the tracker refuses is a panic. *)
Fixpoint add_objects (o : Tracker) (objects : list RuntimeObject) : fakeM unit :=
  match objects with
  | [] => mret tt
  | obj :: objects =>
      err ← call (TrackerAdd o obj);
      match err with Some _ => Panic | None => add_objects o objects end
  end.

Definition fake_over (fieldManaged : bool) (objects : list RuntimeObject) : fakeM FakeClientset :=
  o ← call (NewObjectTracker fieldManaged);
  add_objects o objects;;
  mret {| fc_tracker := o; fc_reactors := [ObjectReaction "*" "*" o; WatchReaction "*" (watch_reaction o)] |}.

Definition NewSimpleClientset (objects : list RuntimeObject) : fakeM FakeClientset := fake_over false objects.
Definition NewClientset (objects : list RuntimeObject) : fakeM FakeClientset := fake_over true objects.

Definition fake_Tracker (c : FakeClientset) : Tracker := fc_tracker c.

(** *** The client of the sets *)

(** [gentype.FakeClientWithListAndApply], as it is constructed. *)
Record fakeXStatefulSets := { fx_namespace : string; fx_resource : GroupVersionResource }.
Definition newFakeXStatefulSets (ns : string) : fakeXStatefulSets :=
  {| fx_namespace := ns; fx_resource := sets_resource |}.
Definition FakeAppsV1_XStatefulSets (ns : string) : fakeXStatefulSets := newFakeXStatefulSets ns.

(** [if obj == nil { return emptyResult, err }; return obj.( *Scale), err] *)
Definition invoke (a : action) : fakeM (option ScaleObject * option error) :=
  '(obj, err) ← call (Invokes a zero_Scale);
  match obj with
  | NilObject => mret (Some zero_Scale, err)
  | AScale s => mret (Some s, err)
  | OtherObject => Panic
  end.

Definition fake_GetScale (c : fakeXStatefulSets) (name : string) (options : GetOptions) :=
  invoke (GetSubresourceAction (fx_resource c) (fx_namespace c) "scale" name options).

Definition fake_UpdateScale (c : fakeXStatefulSets) (name : string) (scale : option ScaleObject) (opts : UpdateOptions) :=
  invoke (UpdateSubresourceAction (fx_resource c) "scale" (fx_namespace c) scale opts).

Definition fake_ApplyScale (c : fakeXStatefulSets) (name : string) (scale : option ScaleApplyConfiguration)
    (opts : ApplyOptions) : fakeM (option ScaleObject * option error) :=
  match scale with
  | None => mret (None, Some nil_scale)
  | Some scale =>
      match json_Marshal scale with
      | inr err => mret (None, Some err)
      | inl data =>
          invoke (PatchSubresourceAction (fx_resource c) (fx_namespace c) name "application/apply-patch+yaml" data
                    (ToPatchOptions opts) "scale")
      end
  end.

(** *** The double and the client *)

(** The action of a request, as a reactor would see it: the name of an update is the
    one in its object. *)
Definition request_action (rq : request) : action :=
  let gvr := {| gvr_Group := GroupName; gvr_Version := "v1"; gvr_Resource := rq_resource rq |} in
  match rq_params rq with
  | GetParams o => GetSubresourceAction gvr (rq_namespace rq) (rq_subresource rq) (rq_name rq) o
  | PutParams o body => UpdateSubresourceAction gvr (rq_subresource rq) (rq_namespace rq) body o
  | PatchParams o data =>
      PatchSubresourceAction gvr (rq_namespace rq) (rq_name rq) "application/apply-patch+yaml" data o (rq_subresource rq)
  end.

(** The double answers as the API server does: the same scale, or nothing and an error. *)
Definition same_answer (x : ScaleObject * option error) (y : reaction * option error) : Prop :=
  x.2 = y.2 ∧ match y.1 with NilObject => x.1 = zero_Scale | AScale s => x.1 = s | OtherObject => False end.

(** The double of a call invokes the action of the request the client sends, and the two
    return the same when they are answered the same. *)
Definition doubled (p : prog rest_reply (option ScaleObject * option error))
    (q : fakeM (option ScaleObject * option error)) : Prop :=
  ∃ rq k k', p = Vis (Do rq) k ∧ q = Vis (Invokes (request_action rq) zero_Scale) k' ∧
    ∀ x y, same_answer x y → ∃ res, k x = Ret res ∧ k' y = Ret res.

Lemma request_doubled rq :
  doubled ('(result, err) ← call (Do rq); mret (Some result, err)) (invoke (request_action rq)).
Proof.
  eexists rq, _, _. split; [reflexivity|]. split; [reflexivity|].
  intros [s err] [[|s'|] err'] [Heq Hs]; cbn in *; try done; subst; by eexists.
Qed.

(** The double of each operation on a scale, in the same namespace; neither asks anything
    for a missing configuration. *)
Lemma scales_doubled a client ns name :
  restClient a = Some client →
  let c := apps_XStatefulSets (Some a) ns in let f := FakeAppsV1_XStatefulSets ns in
  (∀ o, doubled (GetScale c name o) (fake_GetScale f name o)) ∧
  (∀ s o, doubled (UpdateScale c name s o) (fake_UpdateScale f name s o)) ∧
  (∀ o, ApplyScale c name None o = mret (None, Some nil_scale) ∧
        fake_ApplyScale f name None o = mret (None, Some nil_scale)) ∧
  (∀ s o data, json_Marshal s = inl data →
     ∃ k, ApplyScale c name (Some s) o = Vis (NewApplyRequest (Some client) s) k ∧
       doubled (k (inl data)) (fake_ApplyScale f name (Some s) o)).
Proof.
  intros Hc c f. unfold GetScale, UpdateScale, ApplyScale, c, apps_XStatefulSets, newXStatefulSets, apps_RESTClient.
  cbn [gen_client]. rewrite Hc. split_and!.
  - intros o. exact (request_doubled (scale_request _ client name (GetParams o))).
  - intros s o. exact (request_doubled (scale_request _ client name (PutParams o s))).
  - done.
  - intros s o data Hs. eexists. split; [reflexivity|]. unfold fake_ApplyScale. rewrite Hs.
    exact (request_doubled (scale_request _ client name (PatchParams (ToPatchOptions o) data))).
Qed.
End fakes.

(** ** What the configuration decides *)

Section outcome.
Context `{RestLibrary}.
Implicit Types c : rest_Config Float32 rest_fields.

(** The configuration the clients of [c] are made of, but for the rate limiter. *)
Definition with_agent c : rest_Config Float32 rest_fields :=
  if bool_decide (UserAgent (rest_of c) = "") then set_UserAgent DefaultKubernetesUserAgent c else c.

(** A rate limiter has to be made, and cannot. *)
Definition unlimited c : Prop :=
  RateLimiter (rest_of c) = None ∧ positive (QPS c) = true ∧ Burst c ≤ 0.

Lemma with_agent_fields c :
  QPS (with_agent c) = QPS c ∧ Burst (with_agent c) = Burst c ∧
  RateLimiter (rest_of (with_agent c)) = RateLimiter (rest_of c).
Proof. unfold with_agent. by destruct (bool_decide _). Qed.

(** The clients that are made share one configuration and one HTTP client; the limiter of
    the caller is kept, and one is made only for a configuration that has a rate. *)
Lemma NewForConfig_outcome c :
  wp (λ _, True) (λ _ _, True) (NewForConfig c)
    (λ tr o, match o with
     | Some (inl cs) => ∃ h rc d cfg, ¬ unlimited c ∧
         existT (HTTPClientFor (with_agent c)) (inl h : rest_reply (HTTPClientFor _)) ∈ tr ∧
         existT (RESTClientForConfigAndClient (setConfigDefaults cfg) h)
           (inl rc : rest_reply (RESTClientForConfigAndClient _ _)) ∈ tr ∧
         existT (NewDiscoveryClientForConfigAndClient cfg h)
           (inl d : rest_reply (NewDiscoveryClientForConfigAndClient _ _)) ∈ tr ∧
         (cfg = with_agent c ∨ ∃ l, RateLimiter (rest_of c) = None ∧ cfg = set_RateLimiter l (with_agent c) ∧
            existT (NewTokenBucketRateLimiter (QPS c) (Burst c)) (l : rest_reply (NewTokenBucketRateLimiter _ _)) ∈ tr) ∧
         cs = {| cs_DiscoveryClient := Some d; cs_appsV1 := Some {| restClient := Some rc |} |}
     | Some (inr err) => unlimited c ∧ err = burst_required ∨ Exists (λ x, match x with
         | existT (HTTPClientFor _) r => r = inr err
         | existT (RESTClientForConfigAndClient _ _) r => r = inr err
         | existT (NewDiscoveryClientForConfigAndClient _ _) r => r = inr err
         | _ => False end) tr
     | None => False
     end) [].
Proof.
  destruct (with_agent_fields c) as (Hq & Hb & Hr). unfold NewForConfig. fold (with_agent c).
  refine (wp_call_bind _ _ (HTTPClientFor _) _ _ _ _ _); [done|].
  intros [h|err] _; [|apply wp_ret; right; by constructor].
  unfold NewForConfigAndClient. apply (wp_seq _ _ _ _ (λ tr r, ∃ new,
    tr = existT (HTTPClientFor (with_agent c)) (inl h : rest_reply (HTTPClientFor _)) :: new ∧
    match r with
    | inr err => unlimited c ∧ err = burst_required
    | inl cfg => ¬ unlimited c ∧
        (cfg = with_agent c ∨ ∃ l, RateLimiter (rest_of c) = None ∧ cfg = set_RateLimiter l (with_agent c) ∧
          existT (NewTokenBucketRateLimiter (QPS c) (Burst c)) (l : rest_reply (NewTokenBucketRateLimiter _ _)) ∈ new)
    end)).
  - unfold rate_limited, unlimited. rewrite Hq, Hb, Hr.
    destruct (RateLimiter (rest_of c)) as [l|] eqn:Hl; cbn [not_nil negb andb].
    { apply wp_ret. eexists. split; [done|]. exists []. split; [done|]. split; [|by left]. by intros []. }
    destruct (positive (QPS c)) eqn:Hpos.
    2:{ apply wp_ret. eexists. split; [done|]. exists []. split; [done|]. split; [|by left]. by intros (_ & ? & _). }
    destruct (Burst c <=? 0) eqn:Hburst.
    { apply wp_ret. eexists. split; [done|]. exists []. split; [done|]. split; [|done]. split_and!; [done|done|lia]. }
    refine (wp_call_bind _ _ (NewTokenBucketRateLimiter _ _) _ _ _ _ _); [done|]. intros l _. apply wp_ret.
    eexists. split; [done|]. eexists. split; [reflexivity|]. split; [intros (_ & _ & ?); lia|].
    right. exists l. split_and!; [done|done|left].
  - intros tr [cfg|err] (new & -> & Hcfg); [|apply wp_ret; by left]. destruct Hcfg as [Hok Hcfg].
    unfold apps_NewForConfigAndClient. apply wp_bind_2.
    refine (wp_call_bind _ _ (RESTClientForConfigAndClient _ _) _ _ _ _ _); [done|].
    intros [rc|err] _; apply wp_ret; [|apply wp_ret; right; apply Exists_app; right; by constructor].
    refine (wp_call_bind _ _ (NewDiscoveryClientForConfigAndClient _ _) _ _ _ _ _); [done|].
    intros [d|err] _; apply wp_ret; [|right; apply Exists_app; right; by constructor].
    exists h, rc, d, cfg. split; [done|]. split; [left|].
    split; [apply elem_of_app; left; apply elem_of_app; right; left|].
    split; [apply elem_of_app; right; left|]. split; [|done].
    destruct Hcfg as [?|(l & ? & ? & Hl)]; [by left|right]. exists l. split_and!; [done|done|].
    apply elem_of_app. left. apply elem_of_app. left. by right.
Qed.

(** A rate without a burst is refused. *)
Lemma NewForConfig_unlimited c tr o :
  unlimited c → runs (NewForConfig c) tr o → ∃ err, o = Some (inr err).
Proof.
  intros Hu Hr. destruct (wp_runs _ _ _ _ [] tr o (NewForConfig_outcome c) Hr) as [_ Ho]; [by apply Forall_true|].
  destruct o as [[cs|err]|]; [|by eexists|done]. by destruct Ho as (h & rc & d & cfg & Hn & _).
Qed.
End outcome.

(** ** A rate without a burst stops the process *)

Section composed.
Context `{Crypto} `{GoRuntime} {Float32 : Type} `{!RestLibrary Float32}
  `{!LeaderElection (Float32 := Float32) (Rest := rest_fields)}.

Notation boot_obs := (obs (boot_reply (Float32 := Float32) (Rest := rest_fields))).

(** The client of the sets is the one of this package, and the configuration of the
    cluster has neither a burst nor a rate limiter. *)
Definition own_clientset (o : boot_obs) : Prop :=
  match o with
  | existT (NewClientForConfig XStatefulSetClient cfg) r =>
      ∃ tr res, runs (NewForConfig cfg) tr (Some res) ∧ r = err_of res
  | existT (BuildConfigFromFlags _ _) r =>
      match r with inl cfg => Burst cfg ≤ 0 ∧ RateLimiter (rest_of cfg) = None | inr _ => True end
  | _ => True
  end.

(** Reading the configuration and making the clients. *)
Definition before_start (e : boot_call (Float32 := Float32) (Rest := rest_fields)) : Prop :=
  match e with BuildConfigFromFlags _ _ | NewClientForConfig _ _ => True | _ => False end.

(** C37: the flag [--kube-api-qps] without [--kube-api-burst] stops the process.  The help
    says that a burst of 0 means the default one; but the burst is left at 0, the
    clientset refuses a rate without a burst, and [setupController] panics before any
    informer, controller or leader election is started, whatever the libraries answer
    otherwise. *)
Theorem rate_needs_burst (cc : Config Float32) :
  positive (KubeAPIQPS cc) = true → KubeAPIBurst cc ≤ 0 →
  wp own_clientset (λ _, before_start) (setupController positive cc)
    (λ _ o, o = None ∨ ∃ err, o = Some (Some err)) [].
Proof.
  intros Hqps Hburst. unfold setupController.
  refine (wp_call_bind _ _ (BuildConfigFromFlags _ _) _ _ _ _ _); [done|].
  intros [cfg|err] Hcfg; [|apply wp_ret; right; by eexists]. destruct Hcfg as [Hb Hl].
  assert (unlimited (with_limits positive cc cfg)) as Hu.
  { unfold unlimited, with_limits. cbn. rewrite Hqps. replace (0 <? KubeAPIBurst cc) with false by lia. done. }
  unfold NewForConfigOrDie. apply wp_bind_2.
  refine (wp_call_bind _ _ (NewClientForConfig KubeClient _) _ _ _ _ _); [done|].
  intros [err|] _; [by left|]. apply wp_ret, wp_bind_2.
  refine (wp_call_bind _ _ (NewClientForConfig XStatefulSetClient _) _ _ _ _ _); [done|].
  intros err (tr & res & Hr & ->). destruct (NewForConfig_unlimited _ _ _ Hu Hr) as [e [= ->]]. by left.
Qed.
End composed.
