(* ===== verification/Witnesses.v ===== *)
(** * Concrete instances of the main theorems

    A set of two replicas with its pods and revisions, and for every theorem with
    hypotheses one input on which they hold.  The boundary is the one of
    [Instances]. *)
From S2P Require Export Instances ControllerProps Quiescence Progress Convergence Expectations PodRank.

(** ** The data *)

Definition demo_meta (name uid : string) : ObjectMeta :=
  {| Name := name; GenerateName := ""; Namespace := "ns"; UID := uid; ResourceVersion := "1";
     Generation := 1; CreationTimestamp := 5; DeletionTimestamp := None;
     Labels := Some {["app" := "web"]}; Annotations := None; OwnerReferences := []; Finalizers := [] |}.

Definition deleting (m : ObjectMeta) : ObjectMeta :=
  {| Name := Name m; GenerateName := GenerateName m; Namespace := Namespace m; UID := UID m;
     ResourceVersion := ResourceVersion m; Generation := Generation m;
     CreationTimestamp := CreationTimestamp m; DeletionTimestamp := Some 9; Labels := Labels m;
     Annotations := Annotations m; OwnerReferences := OwnerReferences m; Finalizers := Finalizers m |}.

Definition demo_PodSpec : PodSpec :=
  {| Volumes := []; Hostname := ""; Subdomain := ""; NodeName := ""; pod_RestartPolicy := "Always";
     InitContainers := []; Containers := []; EphemeralContainers := [] |}.

Definition demo_claim : PersistentVolumeClaim := {| pvc_meta := demo_meta "data" ""; pvc_Spec := "1Gi" |}.

Definition demo_Spec : XStatefulSetSpec :=
  {| Replicas := Some 2;
     Selector := Some {| MatchLabels := Some {["app" := "web"]}; MatchExpressions := [] |};
     Template := {| tmpl_meta := demo_meta "" ""; tmpl_Spec := demo_PodSpec |};
     VolumeClaimTemplates := [demo_claim]; ServiceName := "svc";
     PodManagementPolicy := OrderedReadyPodManagement;
     UpdateStrategy := {| us_Type := RollingUpdateStrategyType;
                          RollingUpdate := Some {| Partition := Some 0; MaxUnavailable := None |} |};
     RevisionHistoryLimit := Some 1; MinReadySeconds := 0;
     RetentionPolicy := Some {| WhenDeleted := DeletePolicyType; WhenScaled := DeletePolicyType |};
     Ordinals := None |}.

Definition demo_set : XStatefulSet :=
  {| set_meta := demo_meta "web" "uid-web"; Spec := demo_Spec; Status := zero_Status |}.
Definition demo_deleting : XStatefulSet :=
  {| set_meta := deleting (demo_meta "web" "uid-web"); Spec := demo_Spec; Status := zero_Status |}.

#[local] Instance the_K8s : K8s := demo_K8s demo_set.
#[local] Instance the_laws : K8sLaws := demo_K8sLaws demo_set.
#[local] Instance the_runtime : GoRuntime := demo_runtime.
#[local] Instance the_GoLaws : GoLaws := demo_GoLaws.
#[local] Instance the_ClientGo : ClientGo := demo_ClientGo demo_set.
#[local] Existing Instance realHistory.
#[local] Existing Instance gmap_store.

Definition demo_ready : PodCondition :=
  {| cond_Type := PodReady; cond_Status := ConditionTrue; cond_LastProbeTime := 0;
     cond_LastTransitionTime := 10; cond_Reason := ""; cond_Message := "" |}.

Definition demo_owner : OwnerReference := NewControllerRef (set_meta demo_set) controllerKind.

Definition demo_pod (name uid : string) (owners : list OwnerReference) : Pod :=
  {| pod_meta := with_OwnerReferences owners (demo_meta name uid); pod_Spec := demo_PodSpec;
     pod_Status := {| Phase := PodRunning; pod_Conditions := [demo_ready]; ContainerStatuses := [];
                      InitContainerStatuses := [] |} |}.
Definition demo_pod0 : Pod := demo_pod "web-0" "uid-0" [demo_owner].
Definition demo_pod1 : Pod := demo_pod "web-1" "uid-1" [demo_owner].
Definition demo_orphan : Pod := demo_pod "web-1" "uid-1" [].

Definition demo_rev (name data : string) (n : Z) : Rev :=
  {| cr_meta := demo_meta name ("uid-" +:+ name);
     Data := {| Raw := data; RObject := None |}; Revision := n |}.

Lemma demo_plain : plain_name demo_set.
Proof. unfold plain_name. vm_compute. set_solver. Qed.
Lemma demo_well_formed : well_formed demo_set.
Proof. split; by eexists. Qed.
Lemma demo_valid : valid demo_set.
Proof.
  split; [exact demo_plain|]. split; [exact demo_well_formed|].
  intros ru [= <-]. by exists 0.
Qed.
(** The set with the older template. *)
Definition demo_before : XStatefulSet := old_template demo_set.
Lemma demo_before_valid : valid demo_before.
Proof.
  split; [unfold plain_name; vm_compute; set_solver|]. split; [split; by eexists|].
  intros ru [= <-]. by exists 0.
Qed.

(** Which revisions restore to a valid set depends on their data. *)
Lemma demo_restorable_new name n : restorable demo_set (demo_rev name "new" n).
Proof. eexists. split; [reflexivity|]. intros s [= <-]. exact demo_valid. Qed.
Lemma demo_restorable_old name n : restorable demo_set (demo_rev name "old" n).
Proof. eexists. split; [reflexivity|]. intros s [= <-]. exact demo_before_valid. Qed.
Lemma demo_not_restorable name n : ¬ restorable demo_set (demo_rev name "null" n).
Proof.
  intros (x & Hx & Hv). injection Hx as <-. destruct (Hv _ eq_refl) as (_ & [_ [r Hr]] & _). discriminate.
Qed.

Lemma demo_syncable : syncable demo_set (demo_rev "a" "old" 1) (demo_rev "b" "new" 2).
Proof.
  split; [exact demo_valid|]. split; [vm_compute; congruence|].
  split; [|split; [apply demo_restorable_old|apply demo_restorable_new]].
  intros r [= <-]. vm_compute. split; congruence.
Qed.

(** ** Synchronisation *)

Lemma monotonic_order_witness :
  wp honest_lister (in_order demo_set [demo_pod0] (demo_rev "b" "new" 2))
    (updateStatefulSet demo_set (demo_rev "a" "old" 1) (demo_rev "b" "new" 2) 0 [demo_pod0])
    (returns (λ _ _, True)) [].
Proof. apply monotonic_order; [exact demo_syncable|reflexivity]. Defined.

Lemma sync_scope_witness :
  wp honest_lister (λ _, in_scope demo_set [demo_pod0] (demo_rev "b" "new" 2))
    (updateStatefulSet demo_set (demo_rev "a" "old" 1) (demo_rev "b" "new" 2) 0 [demo_pod0])
    (returns (λ _ _, True)) [].
Proof. apply sync_scope. exact demo_syncable. Defined.

(** Four replicas, a partition and half of the pods as the budget. *)
Definition demo_half : XStatefulSet :=
  {| set_meta := demo_meta "web" "uid-web"; Status := zero_Status;
     Spec := {| Replicas := Some 4; Selector := Selector demo_Spec; Template := Template demo_Spec;
                VolumeClaimTemplates := VolumeClaimTemplates demo_Spec; ServiceName := ServiceName demo_Spec;
                PodManagementPolicy := PodManagementPolicy demo_Spec;
                UpdateStrategy := {| us_Type := RollingUpdateStrategyType;
                  RollingUpdate := Some {| Partition := Some 1; MaxUnavailable := Some (StrVal "50%") |} |};
                RevisionHistoryLimit := RevisionHistoryLimit demo_Spec; MinReadySeconds := 0;
                RetentionPolicy := RetentionPolicy demo_Spec; Ordinals := None |} |}.
Definition demo_four : list Pod := [demo_pod0; demo_pod1; demo_pod "web-2" "uid-2" [demo_owner]; demo_pod "web-3" "uid-3" [demo_owner]].

Lemma rolling_update_budget_witness :
  wp (clock_until 100) (within_budget 100 demo_half demo_four (demo_rev "b" "new" 2) 1 2)
    (updateStatefulSetAfterInvariantEstablished demo_half demo_four (demo_rev "b" "new" 2) zero_Status)
    (returns (λ _ _, True)) [].
Proof.
  apply (rolling_update_budget 100 _ _ _ _ 1 2 4); [reflexivity|lia|].
  split; [reflexivity|]. exists 2. split; reflexivity.
Defined.

Lemma rolling_update_one_at_a_time_witness :
  wp (λ _, True) (one_at_a_time demo_set [demo_pod0; demo_pod1] (demo_rev "b" "new" 2) 1)
    (update_one demo_set [demo_pod0; demo_pod1] (demo_rev "b" "new" 2) zero_Status
       (targets [demo_pod0; demo_pod1] 1))
    (returns (λ _ _, True)) [].
Proof. apply rolling_update_one_at_a_time. lia. Defined.

Lemma deleting_set_untouched_witness :
  calls not_pods (UpdateStatefulSet 3 demo_deleting [demo_pod0]).
Proof. apply deleting_set_untouched. discriminate. Defined.

Lemma sync_adopts_after_recheck_witness :
  wp (λ _, True) adopts_rechecked (sync 3 "ns/web") (λ _ _, True) [].
Proof. apply sync_adopts_after_recheck. Defined.

Lemma CreateStatefulPod_after_claims_witness :
  wp (λ _, True) (creates_only demo_set demo_pod0) (CreateStatefulPod demo_set demo_pod0)
    (returns (λ _ _, True)) [].
Proof. apply CreateStatefulPod_after_claims. exact demo_well_formed. Defined.

Lemma UpdateStatefulPod_writes_witness :
  wp honest_lister (λ _, writes_conforming demo_set) (UpdateStatefulPod demo_set demo_pod1)
    (returns (λ _ _, True)) [].
Proof.
  apply UpdateStatefulPod_writes; [exact demo_plain|exact demo_well_formed|vm_compute; congruence].
Defined.

(** ** Progress *)

Lemma scale_up_progress_witness :
  wp (accepting 100) (λ _, any_call)
    (updateStatefulSet demo_set (demo_rev "a" "old" 1) (demo_rev "b" "new" 2) 0 [demo_pod0])
    (returns (λ tr r, (∃ st, r = (Some st, None)) ∧
       ∃ pod, getOrdinal pod = 1 ∧ created_in pod tr)) [].
Proof.
  apply scale_up_progress; [exact demo_syncable|reflexivity|reflexivity|by eexists|by eexists|].
  split; [exists 2; split; [reflexivity|vm_compute; split; congruence]|]. split.
  - intros q ->%list_elem_of_singleton. vm_compute. congruence.
  - intros o' Ho. assert (o' = 0) as ->.
    { change (getStartOrdinal demo_set) with 0 in Ho. lia. }
    split; [exists demo_pod0; split; [left|reflexivity]|].
    intros q ->%list_elem_of_singleton _. split_and!; reflexivity.
Defined.

(** The pods of the set at revision ["b"], running and ready. *)
Definition demo_full (ordinal : Z) : Pod :=
  let pod := default demo_pod0 (newVersionedStatefulSetPod demo_set demo_set "b" "b" ordinal) in
  {| pod_meta := pod_meta pod; pod_Spec := pod_Spec pod; pod_Status := pod_Status demo_pod0 |}.

Lemma demo_converged : converged 100 demo_set (demo_rev "b" "new" 2) [demo_full 0; demo_full 1].
Proof.
  assert (as_specified 100 demo_set (demo_rev "b" "new" 2) (demo_full 0)) as H0.
  { split_and!; [split_and!; vm_compute; reflexivity|vm_compute; reflexivity..|].
    exists 2. split; [reflexivity|vm_compute; split; congruence]. }
  assert (as_specified 100 demo_set (demo_rev "b" "new" 2) (demo_full 1)) as H1.
  { split_and!; [split_and!; vm_compute; reflexivity|vm_compute; reflexivity..|].
    exists 2. split; [reflexivity|vm_compute; split; congruence]. }
  split.
  - intros q [Hq|Hq%list_elem_of_singleton]%elem_of_cons; by subst q.
  - intros o (r & [= <-] & Ho). change (getStartOrdinal demo_set) with 0 in Ho.
    destruct (decide (o = 0)) as [->|]; [exists (demo_full 0); split; [left|vm_compute; reflexivity]|].
    assert (o = 1) as -> by lia. exists (demo_full 1). split; [right; left|vm_compute; reflexivity].
Qed.

(** ** The rollout *)

Lemma demo_selects decoded s s' :
  Selector (Spec s) = Selector demo_Spec → Labels (tmpl_meta (Template (Spec s'))) = Some {["app" := "web"]} →
  @selects_template (demo_K8s decoded) s s'.
Proof.
  unfold selects_template. intros -> Ht sel l [= <-] Hl. apply bool_decide_eq_true.
  change (default ∅ (Some l)) with l. apply map_subseteq_spec. intros k v [<- <-]%lookup_singleton_Some.
  rewrite Hl by (apply (bool_decide_unpack _); vm_compute; exact I).
  unfold getPodsLabelSet. rewrite Ht. vm_compute. reflexivity.
Qed.

Lemma demo_rolling :
  rolling_set demo_set demo_before (demo_rev "a" "old" 1) (demo_rev "b" "new" 2) 2 0 1.
Proof.
  split; try reflexivity; try exact demo_syncable; try done; [by eexists|split; [reflexivity|by exists 1]|by split; apply demo_selects].
Qed.

(** The set controls and selects the pod. *)
Lemma demo_claimed decoded s q :
  Selector (Spec s) = Selector demo_Spec →
  OwnerReferences (pod_meta q) = [@NewControllerRef (demo_K8s decoded) (set_meta s) controllerKind] →
  default ∅ (Labels (pod_meta q)) !! "app" = Some "web" → @claimed (demo_K8s decoded) s q.
Proof.
  intros Hsel Href Hl. split; [eexists; rewrite Href; by split_and!|].
  rewrite Hsel. intros sel [= <-]. apply bool_decide_eq_true, map_singleton_subseteq_l. exact Hl.
Qed.

Lemma demo_healthy : healthy demo_set 100 [demo_full 0].
Proof.
  split; [split|].
  - apply NoDup_singleton.
  - intros q ->%list_elem_of_singleton.
    split_and!; [vm_compute; reflexivity..|apply demo_claimed; vm_compute; reflexivity].
  - intros q ->%list_elem_of_singleton. split_and!; vm_compute; reflexivity.
Qed.

Lemma updateStatefulSet_refines_rollout_witness :
  wp (accepting 100) (λ _, any_call)
    (updateStatefulSet demo_set (demo_rev "a" "old" 1) (demo_rev "b" "new" 2) 0 [demo_full 0])
    (returns (λ tr x, (∃ st, x = (Some st, None)) ∧ sound demo_set (effects tr [demo_full 0]) ∧
       rollout_step 0 2 0 1 "a" "b" {[0 := "b"]} (view (effects tr [demo_full 0])))) [].
Proof.
  assert (view [demo_full 0] = {[0 := "b"]}) as Hview by (vm_compute; reflexivity).
  pose proof (updateStatefulSet_refines_rollout demo_set demo_before (demo_rev "a" "old" 1)
    (demo_rev "b" "new" 2) 2 0 1 100 0 [demo_full 0] demo_rolling eq_refl demo_healthy) as Hstep.
  rewrite Hview in Hstep. exact Hstep.
Defined.

(** One missing pod: after one round the set is rolled out. *)
Lemma rollout_converges_witness :
  ∃ w, nsteps (round demo_set (demo_rev "a" "old" 1) (demo_rev "b" "new" 2) 0) 1 (100, [demo_full 0]) w ∧
    rolled_out 0 2 0 "b" (view w.2).
Proof.
  assert (∃ err, IsNotFound err = true) as Herr by (exists (ErrApi (Reason "NotFound")); reflexivity).
  destruct (rollout_converges demo_set demo_before (demo_rev "a" "old" 1) (demo_rev "b" "new" 2) 2 0 1 0 100
    [demo_full 0] 0 (100, [demo_full 0]) demo_rolling eq_refl demo_healthy Herr (nsteps_O _ _)) as (_ & [w Hw] & _).
  exists w. assert (nsteps (round demo_set (demo_rev "a" "old" 1) (demo_rev "b" "new" 2) 0) 1
    (100, [demo_full 0]) w) as Hsteps by (by apply nsteps_once). split; [exact Hsteps|].
  destruct (rollout_converges demo_set demo_before (demo_rev "a" "old" 1) (demo_rev "b" "new" 2) 2 0 1 0 100
    [demo_full 0] 1 w demo_rolling eq_refl demo_healthy Herr Hsteps) as (_ & _ & Hdone).
  apply Hdone. vm_compute. lia.
Defined.

(** ** The controller *)

Definition demo_cached (ns name : string) : XStatefulSet + goerror api_error :=
  if bool_decide (ns = "ns" ∧ name = "web") then inl demo_set else inr (ErrApi (Reason "NotFound")).
Definition demo_listed (ns : string) : list XStatefulSet := [demo_set].

Lemma FilterPodsByOwner_exact_witness :
  wp (indexed [demo_pod0; demo_orphan]) (λ _ e, ∃ key, e = PodIndexerByIndex key)
    (FilterPodsByOwner (set_meta demo_set) "XStatefulSet" true)
    (returns (λ _ r, r = inl (List.filter (is_owned (set_meta demo_set) "XStatefulSet") [demo_pod0; demo_orphan] ++
                              List.filter (is_orphan (set_meta demo_set)) [demo_pod0; demo_orphan]))) [].
Proof.
  apply FilterPodsByOwner_exact; try discriminate; try (vm_compute; set_solver).
  constructor; [|constructor; [|constructor]]; (split; [vm_compute; set_solver|]).
  - intros ref [= <-]. split; vm_compute; set_solver.
  - intros ref [=].
Defined.

Lemma sync_of_enqueued_key_witness :
  ∃ k, sync 3 "ns/web" = Vis (SetListerGet "ns" "web") k ∧
    ∀ err, IsNotFound err = true → k (inr err) = Ret (Some None).
Proof.
  apply (sync_of_enqueued_key 3 demo_set [existT (QueueAdd "ns/web") (tt : reply (QueueAdd _))] "ns/web");
    [discriminate|vm_compute; set_solver|vm_compute; set_solver| |reflexivity].
  exists tt, []. split; [reflexivity|]. split; reflexivity.
Defined.

(** ** Revisions and history *)

(** The revision proposed for the demo set after the newest of [revisions]. *)
Definition demo_proposed (revisions : list Rev) : Rev :=
  match newRevision demo_set (nextRevision (SortControllerRevisions revisions)) (Some 0) with
  | Some (inl r) => r
  | _ => demo_rev "" "" 0
  end.

(** The encoding of a template is ["patch"] here. *)
Definition same_history : list Rev := [demo_rev "b" "patch" 2; demo_rev "a" "old" 1].
Definition rollback_history : list Rev := [demo_rev "b" "new" 2; demo_rev "a" "patch" 1].

Lemma getStatefulSetRevisions_unchanged_witness :
  getStatefulSetRevisions 3 demo_set same_history =
    mret (Some (inl (demo_rev "b" "patch" 2, demo_rev "b" "patch" 2, 0))).
Proof.
  apply (getStatefulSetRevisions_unchanged 3 demo_set same_history (demo_proposed same_history)
    (demo_rev "b" "patch" 2)); vm_compute; reflexivity.
Defined.

(** The set once it runs the revision "b" and has recorded so. *)
Definition demo_settled : XStatefulSet :=
  set_Status
    {| ObservedGeneration := 1; st_Replicas := 2; ReadyReplicas := 2; CurrentReplicas := 2;
       UpdatedReplicas := 2; CurrentRevision := "b"; UpdateRevision := "b"; CollisionCount := Some 0;
       st_Conditions := []; AvailableReplicas := 2; st_Selector := "" |} demo_set.

Lemma UpdateStatefulSet_quiescent_witness :
  wp (unchanging 100 demo_set [demo_full 0; demo_full 1] same_history) (λ _, reads)
    (UpdateStatefulSet 3 demo_settled [demo_full 0; demo_full 1])
    (returns (λ _ x, ∃ st, x = Some (Some st, None) ∧ inconsistentStatus demo_settled st = false)) [].
Proof.
  apply (UpdateStatefulSet_quiescent 100 demo_settled demo_set (demo_rev "b" "patch" 2) [demo_full 0; demo_full 1]
    same_history 3 2 1 (default ∅ (MatchLabels (default {| MatchLabels := None; MatchExpressions := [] |} (Selector (Spec demo_set)))))).
  - split; [exact demo_valid|]. split; [vm_compute; congruence|].
    assert (restorable demo_settled (demo_rev "b" "patch" 2)) as Hr.
    { eexists. split; [reflexivity|]. intros s [= <-]. exact demo_valid. }
    split; [|by split]. intros r [= <-]. vm_compute. split; congruence.
  - intros ru r [= <-]. by exists 1.
  - reflexivity.
  - reflexivity.
  - reflexivity.
  - lia.
  - reflexivity.
  - vm_compute. repeat constructor; set_solver.
  - exact demo_converged.
  - exists (demo_proposed same_history). split_and!; vm_compute; reflexivity.
  - vm_compute. split_and!; congruence.
  - split; [reflexivity|right; vm_compute; congruence].
Defined.

Lemma getStatefulSetRevisions_rollback_witness :
  let old := demo_rev "a" "patch" 1 in
  wp (answers_about old) (λ _, renumbers_only old 3) (getStatefulSetRevisions 3 demo_set rollback_history)
    (returns (λ _ r, ∃ x, r = Some x ∧
       ∀ cur upd c, x = inl (cur, upd, c) →
         carries old upd ∧ Forall (λ r, Revision r < Revision upd) rollback_history ∧ c = 0 ∧
         cur = current_of demo_set (SortControllerRevisions rollback_history) upd)) [].
Proof.
  apply (getStatefulSetRevisions_rollback 3 demo_set rollback_history (demo_proposed rollback_history) []
    (demo_rev "a" "patch" 1) [demo_rev "b" "new" 2] (demo_rev "b" "new" 2)).
  - repeat (constructor; [vm_compute; split; congruence|]). constructor.
  - vm_compute; reflexivity.
  - vm_compute; reflexivity.
  - reflexivity.
  - split; vm_compute; reflexivity.
  - constructor; [|constructor]. intros [Hraw _]. vm_compute in Hraw. discriminate.
  - intros [Hraw _]. vm_compute in Hraw. discriminate.
Defined.

(** The first name is taken by a revision with other data, the second is free. *)
Definition demo_new : Rev := demo_rev "" "new" 2.
Definition demo_store : gmap string Rev :=
  {[probe_name (set_meta demo_set) demo_new 0 := demo_rev "x" "old" 1]}.

Lemma CreateControllerRevision_store_witness :
  let n := probe_name (set_meta demo_set) demo_new (probe_count 1 0) in
  wp (store_obs demo_store) (λ _, creates_probe (set_meta demo_set) demo_new)
    (real_CreateControllerRevision 2 (set_meta demo_set) demo_new (Some 0))
    (λ _ o, ∃ v, o = Some (Some (inl v), Some 1) ∧
       match demo_store !! n with
       | Some old => v = old
       | None => stores "ns" (probe (set_meta demo_set) demo_new 1) v
       end) [].
Proof.
  apply (CreateControllerRevision_store demo_store 2 1 (set_meta demo_set) demo_new 0); [lia| |].
  - intros [|j] Hj; [|lia]. exists (demo_rev "x" "old" 1). split; [vm_compute; reflexivity|discriminate].
  - intros r Hr. exfalso. vm_compute in Hr. discriminate Hr.
Defined.

Lemma UpdateControllerRevision_revision_witness :
  wp (λ _, True) (λ _, renumbers 7) (real_UpdateControllerRevision (demo_rev "a" "old" 1) 7)
    (λ _ o, ∃ r err, o = Some (r, err) ∧ (err = None → Revision r = 7)) [].
Proof. apply UpdateControllerRevision_revision. Defined.

Lemma nextRevision_newest_witness : 2 < nextRevision (SortControllerRevisions same_history).
Proof.
  apply (nextRevision_newest same_history (demo_rev "b" "patch" 2)); [|left].
  intros x [->|[->|[]%not_elem_of_nil]%elem_of_cons]%elem_of_cons; simpl; lia.
Defined.

Lemma truncateHistory_safe_witness :
  let cur := Some (demo_rev "b" "patch" 2) in
  wp (λ _, True)
    (λ _ e, ∃ r, r ∈ same_history ∧ ¬ in_use [demo_pod0] cur None (Name (cr_meta r)) ∧
                 e = RevisionsDelete (Namespace (cr_meta r)) (Name (cr_meta r)))
    (truncateHistory demo_set [demo_pod0] (SortControllerRevisions same_history) cur None)
    (returns (λ tr err, ∃ used gone kept,
       used ++ gone ++ kept ≡ₚ same_history ∧
       Forall (λ r : Rev, in_use [demo_pod0] cur None (Name (cr_meta r))) used ∧
       Forall (λ r : Rev, ¬ in_use [demo_pod0] cur None (Name (cr_meta r))) (gone ++ kept) ∧
       deleted tr = (λ r : Rev, Name (cr_meta r)) <$> gone ∧
       StronglySorted (λ x y : Rev, Revision x ≤ Revision y) (gone ++ kept) ∧
       (gone = [] ∨ 1 ≤ Z.of_nat (length kept)) ∧
       (err = None → Z.of_nat (length kept) ≤ 1))) [].
Proof. apply (truncateHistory_safe demo_set [demo_pod0] same_history _ _ 1); [reflexivity|lia]. Defined.

(** ** The parts of the control loop *)

Lemma computeReplicaStatus_exact_witness :
  wp (frozen 100) (λ _ e, e = Now)
    (computeReplicaStatus [demo_pod0; demo_pod1] 5 (demo_rev "a" "old" 1) (demo_rev "b" "new" 2))
    (returns (λ _ r, r = tallies 100 5 (demo_rev "a" "old" 1) (demo_rev "b" "new" 2) [demo_pod0; demo_pod1] ∧
       0 ≤ availableReplicas r ≤ readyReplicas r ∧ readyReplicas r ≤ replicas r ∧ replicas r ≤ 2)) [].
Proof. apply computeReplicaStatus_exact. simpl. lia. Defined.

(** Three items, each of which deletes a pod. *)
Definition demo_item (k : Z) : go (bool * option error) :=
  err ← call (PodsDelete "ns" (Itoa k)); mret (false, err).
Definition demo_done (k : Z) (tr : list (obs reply)) : Prop :=
  existT (PodsDelete "ns" (Itoa k)) (None : reply (PodsDelete "ns" (Itoa k))) ∈ tr.

Lemma slowStartBatch_complete_witness :
  wp (λ _, True) (λ _ _, True) (slowStartBatch 1 3 demo_item)
    (returns (λ tr r, 0 ≤ r.1 ≤ 3 ∧ (r.2 = None → r.1 = 3 ∧ ∀ k, 0 ≤ k < 3 → demo_done k tr))) [].
Proof.
  apply (slowStartBatch_complete (λ _, True) (λ _, True) I demo_item 3 demo_done); [| |lia|lia].
  - intros k tr tr' _ Hsub. unfold demo_done. intros Hin. by eapply elem_of_sublist.
  - intros k tr _. apply wp_call_bind; [done|]. intros err _. apply wp_ret. eexists. split; [reflexivity|].
    simpl. intros ->. apply elem_of_app. right. left.
Defined.

Lemma newVersionedStatefulSetPod_spec_witness :
  ∃ pod, newVersionedStatefulSetPod demo_set demo_set "a" "b" 1 = Some pod ∧
  ∃ current : bool,
    let set := if current then demo_set else demo_set in
    getPodRevision pod = (if current then "a" else "b") ∧
    identityMatches set pod = true ∧ storageMatches set pod = true ∧
    getOrdinal pod = 1 ∧ isCreated pod = false ∧ isTerminating pod = false ∧
    GetOwnerReferences pod = [NewControllerRef (set_meta set) controllerKind] ∧
    (∀ ru p, RollingUpdate (UpdateStrategy (Spec demo_set)) = Some ru → Partition ru = Some p →
       current = (1 <? getStartOrdinal demo_set + p)).
Proof.
  eexists. split; [reflexivity|].
  apply (newVersionedStatefulSetPod_spec demo_set demo_set "a" "b" 1); [exact demo_plain|exact demo_plain|lia|].
  reflexivity.
Defined.

Lemma UpdateStatefulSetStatus_writes_witness :
  wp (λ _, True) (λ _, writes_status zero_Status) (UpdateStatefulSetStatus demo_set zero_Status)
    (returns (λ tr err, err = None → accepted zero_Status tr)) [].
Proof. apply UpdateStatefulSetStatus_writes. Defined.

(** ** Adoption, claims, identities *)

Definition demo_manager (set : XStatefulSet) : BaseControllerRefManager :=
  {| Controller := set_meta set; m_Selector := {["app" := "web"]}; CanAdoptFunc := Some (canAdoptFunc set) |}.

Lemma ClaimPods_safe_witness :
  wp (λ _, True) (λ _, claim_call (demo_manager demo_set) controllerKind [] [demo_pod0; demo_orphan] [isMemberOf demo_set])
    (ClaimPods (demo_manager demo_set) controllerKind [] [demo_pod0; demo_orphan] [isMemberOf demo_set])
    (λ _ o, ∃ claimed err, o = Some (claimed, err) ∧ claimed `sublist_of` [demo_pod0; demo_orphan] ∧
       Forall (λ p, wanted (demo_manager demo_set) [isMemberOf demo_set] p ∧
                    (own_pod (demo_manager demo_set) p ∨ live_orphan (demo_manager demo_set) p)) claimed ∧
       (∀ p, p ∈ [demo_pod0; demo_orphan] → own_pod (demo_manager demo_set) p →
             wanted (demo_manager demo_set) [isMemberOf demo_set] p → p ∈ claimed)) [].
Proof.
  apply ClaimPods_safe. intros f tr [= <-]. unfold canAdoptFunc, RecheckDeletionTimestamp.
  apply wp_bind_2, wp_call_bind; [by intros []|]. intros [fresh|e] _.
  - destruct (bool_decide _); apply wp_ret; [apply wp_ret; by eexists|].
    destruct (bool_decide _); apply wp_ret; by eexists.
  - apply wp_ret, wp_ret. by eexists.
Defined.

Lemma ClaimPods_deleted_witness :
  ClaimPods (demo_manager demo_deleting) controllerKind [] [demo_pod0; demo_orphan] [isMemberOf demo_set] =
    Ret ([demo_pod0], None).
Proof.
  assert (List.filter (λ p, owned (demo_manager demo_deleting) p &&
            pod_match (demo_manager demo_deleting) [isMemberOf demo_set] p) [demo_pod0; demo_orphan] = [demo_pod0])
    as <- by reflexivity.
  apply ClaimPods_deleted. discriminate.
Defined.

Lemma getPodName_roundtrip_witness :
  getParentName demo_pod1 = "web" ∧ getOrdinal demo_pod1 = 1 ∧ isMemberOf demo_set demo_pod1 = true.
Proof. apply (getPodName_roundtrip demo_set demo_pod1 1); [exact demo_plain|lia|reflexivity]. Defined.

(** ** Pods, expectations *)

Lemma IsPodAvailable_spec_witness :
  IsPodAvailable demo_pod0 5 100 = true ↔
  ∃ c, GetPodReadyCondition (pod_Status demo_pod0) = Some c ∧ cond_Status c = ConditionTrue ∧
       (5 = 0 ∨ cond_LastTransitionTime c ≠ 0 ∧ cond_LastTransitionTime c + 5 * 1000000000 ≤ 100).
Proof. apply IsPodAvailable_spec. unfold in_int32. lia. Defined.

Definition demo_not_ready : PodCondition :=
  {| cond_Type := PodReady; cond_Status := "False"; cond_LastProbeTime := 0;
     cond_LastTransitionTime := 0; cond_Reason := ""; cond_Message := "" |}.

Lemma UpdatePodCondition_lookup_witness :
  let status' := set_Conditions [set_LastTransitionTime 50 demo_not_ready] (pod_Status demo_pod0) in
  (∀ ty, (GetPodCondition (Some status') ty).2 =
         if bool_decide (ty = PodReady) then Some (set_LastTransitionTime 50 demo_not_ready)
         else (GetPodCondition (Some (pod_Status demo_pod0)) ty).2) ∧
  "False" = "False" ∧ 50 = 50.
Proof.
  exact (UpdatePodCondition_lookup 50 (pod_Status demo_pod0) demo_not_ready
    (set_Conditions [set_LastTransitionTime 50 demo_not_ready] (pod_Status demo_pod0))
    (set_LastTransitionTime 50 demo_not_ready) true eq_refl).
Defined.

Lemma deletions_counted_once_witness :
  let u' := foldl (λ u '(rcKey, deleteKey), UID_DeletionObserved rcKey deleteKey u)
              (UID_ExpectDeletions 7 "rc" ["a"; "b"; "a"] (NewUIDTrackingControllerExpectations NewControllerExpectations))
              [("rc", "a"); ("rc", "a"); ("other", "b")] in
  let left : gset string := list_to_set ["a"; "b"; "a"] ∖
    list_to_set (snd <$> filter (λ r, r.1 = "rc") [("rc", "a"); ("rc", "a"); ("other", "b")]) in
  tracks 7 u' "rc" left ∧
  (∀ now', Sub now' 7 ≤ ExpectationsTimeout →
     (SatisfiedExpectations now' (expectations u') "rc" = true ↔ left = ∅)).
Proof. apply deletions_counted_once. simpl. lia. Defined.

Lemma SatisfiedExpectations_spec_witness :
  SatisfiedExpectations 9 (foldl observe (SetExpectations 7 "rc" 2 1 NewControllerExpectations)
                             [Created "rc"; Deleted "rc"; Created "other"; Created "rc"]) "rc" = true.
Proof.
  etrans; [apply (SatisfiedExpectations_spec 7 9 "rc" 2 1); unfold in_int64; vm_compute; split; congruence|].
  vm_compute. reflexivity.
Defined.

Lemma nextPodAvailabilityCheck_exact_witness :
  nextPodAvailabilityCheck demo_pod0 5 100 = Some 4999999910 ∧
  0 < 4999999910 ∧ ∀ t, 100 ≤ t → IsPodAvailable demo_pod0 5 t = (100 + 4999999910 <=? t).
Proof.
  split; [vm_compute; reflexivity|].
  apply (nextPodAvailabilityCheck_exact demo_pod0 5 100 demo_ready);
    [unfold in_int32; lia|lia|reflexivity|simpl; lia].
Defined.

Lemma ActivePods_sort_spec_witness :
  sort_Sort ActivePods_Less [demo_pod0; demo_pod1] ≡ₚ [demo_pod0; demo_pod1] ∧
  StronglySorted (λ x y, lex_lt (ActivePods_key y) (ActivePods_key x) = false)
    (sort_Sort ActivePods_Less [demo_pod0; demo_pod1]).
Proof. apply ActivePods_sort_spec. Defined.
