(* ===== verification/WitnessesAround.v ===== *)
(** * Concrete instances: the components around the controller

    Inputs on which the theorems on generic pod operations, the fake history, the
    certificates, the start-up and the informer factory hold. *)
From S2P Require Export Witnesses Valid NodeOps DeepCopy PodOps FakeHistory CertProps Informers.

#[local] Instance the_K8s : K8s := demo_K8s demo_set.
#[local] Instance the_laws : K8sLaws := demo_K8sLaws demo_set.
#[local] Instance the_runtime : GoRuntime := demo_runtime.
#[local] Instance the_GoLaws : GoLaws := demo_GoLaws.

(** ** Generic pod operations: objects are their metadata *)

Definition demo_Accessor (m : ObjectMeta) : ObjectMeta + goerror api_error := inl m.
Definition demo_HasStatusCause (err : goerror api_error) (cause : string) : bool := false.
Definition demo_template : PodTemplateSpec := Template (Spec demo_set).
Definition demo_empty : FakePodControl :=
  {| Templates := []; ControllerRefs := []; DeletePodName := []; Patches := []; Err := None;
     CreateLimit := 0; CreateCallCount := 0 |}.

Definition demo_new_pod : Pod := new_pod demo_template (set_meta demo_set) (Some demo_owner) "web-x-".

Lemma demo_creatable : creatable demo_Accessor demo_template (set_meta demo_set) (Some demo_owner).
Proof. split_and!; [reflexivity|by eexists|vm_compute; discriminate]. Qed.

Lemma CreatePods_outcome_witness :
  let tr := [existT (PodCreate "ns" demo_new_pod) (inl demo_pod0);
             existT (Eventf (set_meta demo_set) "Normal" "SuccessfulCreate" "Created pod: web-0") tt] in
  ∃ ref pod, Some demo_owner = Some ref ∧ pod_of_request demo_template ref "web-x-" pod ∧
    ∃ r events, tr = existT (PodCreate "ns" pod) r :: events ∧
      answered demo_HasStatusCause (set_meta demo_set) r events None.
Proof.
  intros tr.
  destruct (CreatePods_outcome demo_Accessor demo_HasStatusCause "ns" demo_template (set_meta demo_set)
    (Some demo_owner) "web-x-" tr (Some None)) as [(Hno & _)|(_ & ref & pod & r & events & err & Href & Hpod & Htr & Herr & Hans)].
  - exists (inl demo_pod0). eexists. split; [reflexivity|]. exists tt. eexists. split; [reflexivity|]. by split.
  - destruct Hno. exact demo_creatable.
  - exists ref, pod. split; [exact Href|]. split; [exact Hpod|]. exists r, events. split; [exact Htr|].
    injection Herr as <-. exact Hans.
Defined.

Definition demo_requests : list request :=
  [ReqCreate "ns" demo_template (set_meta demo_set) (Some demo_owner) "web-x-";
   ReqDelete "ns" "web-0" (set_meta demo_set); ReqPatch "ns" "web-1" "{}"].

Lemma FakePodControl_faithful_witness :
  (∃ f', fake_serve_all demo_requests demo_empty = Some ([None; None; None], f') ∧
     recorded demo_requests demo_empty f') ∧
  wp accepts (λ _ _, True) (real_serve_all demo_Accessor demo_HasStatusCause demo_requests)
    (λ tr' o, o = Some [None; None; None] ∧
       ∃ new, tr' = [] ++ new ∧ Forall2 (asks demo_Accessor) demo_requests (writes new)) [].
Proof.
  apply (FakePodControl_faithful demo_Accessor demo_HasStatusCause demo_requests demo_empty []).
  - repeat apply List.Forall_cons; [exact demo_creatable|by eexists|exact I|constructor].
  - by split.
Defined.

(** ** The fake history *)

#[local] Instance demo_RevisionStore : RevisionStore := {|
  RevisionKey r := inl (meta_key (cr_meta r));
  NewAlreadyExists _ _ := ErrApi (Reason "AlreadyExists");
  NewNotFound _ _ := ErrApi (Reason "NotFound")
|}.
#[local] Instance demo_RevisionStoreLaws : RevisionStoreLaws.
Proof. by split. Qed.

(** The first name is taken by a revision with other data. *)
Definition demo_new_rev : Rev := demo_rev "x" "new" 2.
Definition demo_taken : Rev := created_as (set_meta demo_set) (demo_rev "y" "old" 1) 0.
Definition demo_store : gmap string Rev :=
  {[candidate_key (set_meta demo_set) demo_new_rev 0 := demo_taken]}.
Definition demo_other (e : api_call) : reply e :=
  match e as e return reply e with
  | Now => 0
  | PodListerGet _ _ | ClaimListerGet _ _ | RevisionsCreate _ _ | RevisionsGet _ _ | RevisionListerGet _ _
  | RevisionsPatch _ _ _ | SetsGet _ _ | SetListerGet _ _ => inr (ErrApi (Reason "NotFound"))
  | PodIndexerByIndex _ | RevisionListerList _ _ | SetListerList _ => inl []
  | RevisionIndexerGetByKey _ => inl None
  | RevisionsUpdate _ _ => (None, None)
  | PodsCreate _ _ | PodsUpdate _ _ | PodsDelete _ _ | PodsPatch _ _ _ | ClaimsCreate _ _ | ClaimsUpdate _ _
  | RevisionsDelete _ _ | ReplicaSetsPatch _ _ _ | SetsUpdateStatus _ _ | RevisionIndexerUpdate _
  | RevisionIndexerDelete _ => None
  | LruGet _ | Choose => false
  | QueueGet => None
  | RecordEvent _ _ _ _ | LruAdd _ | MetricSet _ _ _ | QueueAdd _ | QueueAddAfter _ _
  | QueueAddRateLimited _ | QueueForget _ | QueueDone _ => tt
  end.

(** An API server that numbers what it creates. *)
Definition demo_fill (s : gmap string Rev) (ns : string) (v : Rev) : Rev :=
  set_cr_meta (λ m, with_ResourceVersion (Itoa (Z.of_nat (size s))) (with_Namespace ns m)) v.

Lemma demo_fill_stores s ns v : stores ns v (demo_fill s ns v).
Proof. by repeat split. Qed.

Lemma demo_first_free : first_free demo_store (set_meta demo_set) demo_new_rev 1 0.
Proof.
  split.
  - intros i Hi. assert (i = 0%nat) as -> by lia. exists demo_taken. vm_compute. reflexivity.
  - vm_compute. reflexivity.
Qed.

Lemma fake_CreateControllerRevision_first_free_witness :
  run (store_handler demo_other demo_fill)
    (fake_CreateControllerRevision 2 (set_meta demo_set) demo_new_rev (Some 0)) demo_store =
    (Some (Some (inl (created_as (set_meta demo_set) demo_new_rev 1)), Some 1),
     <[candidate_key (set_meta demo_set) demo_new_rev 1 := created_as (set_meta demo_set) demo_new_rev 1]>
       demo_store).
Proof.
  apply (fake_CreateControllerRevision_first_free demo_other demo_fill 1); [exact demo_first_free|lia].
Defined.

Lemma histories_agree_witness :
  ∃ x y s1 s1',
    run (store_handler demo_other demo_fill)
      (real_CreateControllerRevision 2 (set_meta demo_set) demo_new_rev (Some 0)) demo_store =
      (Some (Some (inl x), Some 1), s1) ∧
    run (store_handler demo_other demo_fill)
      (fake_CreateControllerRevision 2 (set_meta demo_set) demo_new_rev (Some 0)) demo_store =
      (Some (Some (inl y), Some 1), s1') ∧
    alike x y ∧ same_revisions s1 s1' ∧ Name (cr_meta x) = candidate (set_meta demo_set) demo_new_rev 1.
Proof.
  apply (histories_agree demo_other demo_fill demo_fill_stores 1); [|exact demo_first_free| |lia].
  - intros k. destruct (demo_store !! k); constructor. by repeat split.
  - intros i r Hi. assert (i = 0%nat) as -> by lia. unfold demo_store. change (bumped 0 0) with 0.
    rewrite lookup_singleton_eq. intros [= <-]. vm_compute. discriminate.
Defined.

Lemma fake_adopt_release_witness :
  ∃ adopted s1,
    run (store_handler demo_other demo_fill)
      (fake_AdoptControllerRevision (set_meta demo_set) controllerKind demo_new_rev)
      {[meta_key (cr_meta demo_new_rev) := demo_new_rev]} = (Some (inl adopted), s1) ∧
    (∃ ref, GetControllerOf (OwnerReferences (cr_meta adopted)) = Some ref ∧ or_UID ref = "uid-web") ∧
    run (store_handler demo_other demo_fill) (fake_ReleaseControllerRevision (set_meta demo_set) adopted) s1 =
      (Some (inl (Some demo_new_rev)), {[meta_key (cr_meta demo_new_rev) := demo_new_rev]}).
Proof.
  apply (fake_adopt_release demo_other demo_fill (set_meta demo_set) controllerKind demo_new_rev).
  - apply lookup_singleton_eq.
  - reflexivity.
  - intros ref Hin. by apply not_elem_of_nil in Hin.
Defined.

(** ** Certificates *)

#[local] Instance demo_Crypto : Crypto := {|
  PrivateKey := nat; PublicKey := nat; Public k := k; MarshalPKCS1PrivateKey k := "key";
  PemEncode ty b := inl (ty +:+ b); AddDate t y m d := t + y
|}.

(** Two replicas, the first of which finds the secret. *)
Definition demo_secret : Secret :=
  {| sec_Namespace := "ns"; sec_Name := "certs"; sec_Type := "kubernetes.io/tls";
     sec_Data := Some {[CAKey := Some "ca"]} |}.

Lemma EnsureCertificate_agreement_witness :
  ∃ secret, Some demo_secret = Some secret ∧ data_get secret CAKey = Some (Some "ca").
Proof.
  refine (proj1 (EnsureCertificate_agreement "ns" "certs" [["a"]; ["b"]] (Some demo_secret) (Some demo_secret)
    [Ret (inl (Some "ca")); EnsureCertificate "ns" "certs" ["b"]] _) 0%nat (Some "ca") _); [|reflexivity].
  apply rtc_once.
  refine (replica_call (Some demo_secret) (Some demo_secret) _ 0%nat
    (SecretsGet "ns" "certs") _ (inl demo_secret) _ _); [reflexivity|]. by split.
Defined.

(** ** The informer factory *)

Definition demo_factory : sharedInformerFactory (Client := unit) (ListOptions := unit) (Chan := unit)
    (Transform := unit) (Inf := string) :=
  NewSharedInformerFactory tt 30.

Lemma factory_life_witness :
  let s := {| factory := Shutdown demo_factory; waiting := 0; returned := 1; log := [] |} in
  NoDup (log s) ∧ running (factory s) = [].
Proof.
  intros s.
  destruct (factory_life (λ _ i, i) demo_factory s s) as (Hnd & _ & _ & _ & _ & Hret).
  - repeat split.
  - eapply rtc_l; [apply step_shutdown|]. apply rtc_once. apply step_shutdown_returns; reflexivity.
  - apply rtc_refl.
  - split; [exact Hnd|]. apply Hret. simpl. lia.
Defined.

(** ** Validity *)

#[local] Instance the_ClientGo : ClientGo := demo_ClientGo demo_set.

Lemma written_objects_valid_witness :
  ∃ new, newVersionedStatefulSetPod demo_set demo_set "a" "b" 1 = Some new ∧ valid_pod new ∧
    safe valid_caches writes_valid (CreateStatefulPod demo_set new) (λ _, True) ∧
    safe valid_caches writes_valid (UpdateStatefulPod demo_set demo_pod1) (λ _, True) ∧
    safe valid_caches writes_valid (createMissingPersistentVolumeClaims demo_set demo_pod1) (λ _, True).
Proof.
  assert (valid_set demo_set) as Hset.
  { split; [constructor|]. repeat constructor. }
  eexists. split; [reflexivity|].
  apply (written_objects_valid demo_set demo_set "a" "b" 1).
  - exact demo_well_formed.
  - exact Hset.
  - exact Hset.
  - reflexivity.
  - split; [vm_compute; lia|constructor].
Defined.

(** ** Deep copies: the imported structs hold no pointers here *)

#[local] Instance demo_layouts : K8sLayouts := {|
  MetaRep := ObjectMeta; ListMetaRep := unit; SelectorRep := LabelSelector;
  TemplateRep := PodTemplateSpec; ClaimRep := PersistentVolumeClaim;
  StrategyRep := StatefulSetUpdateStrategy; ConditionRep := StatefulSetCondition; OtherRep := Empty_set |}.
#[local] Instance demo_copies : K8sCopies := {|
  ObjectMeta_DeepCopyInto := assign; ListMeta_DeepCopyInto := assign; LabelSelector_DeepCopyInto := assign;
  PodTemplateSpec_DeepCopyInto := assign; PersistentVolumeClaim_DeepCopyInto := assign;
  StatefulSetUpdateStrategy_DeepCopyInto := assign; StatefulSetCondition_DeepCopyInto := assign |}.
Definition plain_imported {A} : Imported A A assign := {|
  imported_repr := plain_repr; imported_laws := plain_laws; imported_copies := assign_copies |}.
#[local] Instance imported_meta : Imported MetaRep ObjectMeta ObjectMeta_DeepCopyInto := plain_imported.
#[local] Instance imported_selector : Imported SelectorRep LabelSelector LabelSelector_DeepCopyInto := plain_imported.
#[local] Instance imported_template :
  Imported TemplateRep PodTemplateSpec PodTemplateSpec_DeepCopyInto := plain_imported.
#[local] Instance imported_claim :
  Imported ClaimRep PersistentVolumeClaim PersistentVolumeClaim_DeepCopyInto := plain_imported.
#[local] Instance imported_strategy :
  Imported StrategyRep StatefulSetUpdateStrategy StatefulSetUpdateStrategy_DeepCopyInto := plain_imported.
#[local] Instance imported_condition :
  Imported ConditionRep StatefulSetCondition StatefulSetCondition_DeepCopyInto := plain_imported.

(** The set of [Witnesses] in memory; its two [int32] pointers are the same. *)
Definition demo_SpecRep : SpecRep :=
  {| p_Replicas := Ptr (Some 2%positive); p_Selector := Ptr (Some 3%positive);
     p_Template := Template (Spec demo_set); p_VolumeClaimTemplates := Slice (Some 4%positive);
     p_ServiceName := ServiceName (Spec demo_set); p_PodManagementPolicy := PodManagementPolicy (Spec demo_set);
     p_UpdateStrategy := UpdateStrategy (Spec demo_set); p_RevisionHistoryLimit := Ptr (Some 2%positive);
     p_MinReadySeconds := MinReadySeconds (Spec demo_set); p_RetentionPolicy := Ptr None; p_Ordinals := Ptr None |}.
Definition demo_StatusRep : StatusRep :=
  {| p_ObservedGeneration := 0; p_StatusReplicas := 0; p_ReadyReplicas := 0; p_CurrentReplicas := 0;
     p_UpdatedReplicas := 0; p_CurrentRevision := ""; p_UpdateRevision := ""; p_CollisionCount := Ptr None;
     p_Conditions := Slice None; p_AvailableReplicas := 0; p_StatusSelector := "" |}.
Definition demo_SetRep : SetRep :=
  {| p_TypeMeta := {| tm_Kind := "XStatefulSet"; tm_APIVersion := "apps.x-k8s.io/v1" |};
     p_ObjectMeta := set_meta demo_set; p_Spec := demo_SpecRep; p_Status := demo_StatusRep |}.
Definition demo_selector : LabelSelector := {| MatchLabels := None; MatchExpressions := [] |}.
Definition demo_heap : gmap positive cell :=
  list_to_map [(1%positive, CSet demo_SetRep); (2%positive, CInt32 2); (3%positive, CSelector demo_selector);
               (4%positive, CClaims (VolumeClaimTemplates (Spec demo_set)))].
Definition demo_value : TypeMeta * XStatefulSet :=
  (p_TypeMeta demo_SetRep,
   {| set_meta := set_meta demo_set;
      Spec := {| Replicas := Some 2; Selector := Some demo_selector; Template := Template (Spec demo_set);
                 VolumeClaimTemplates := VolumeClaimTemplates (Spec demo_set);
                 ServiceName := ServiceName (Spec demo_set);
                 PodManagementPolicy := PodManagementPolicy (Spec demo_set);
                 UpdateStrategy := UpdateStrategy (Spec demo_set); RevisionHistoryLimit := Some 2;
                 MinReadySeconds := MinReadySeconds (Spec demo_set); RetentionPolicy := None; Ordinals := None |};
      Status := zero_Status |}).

Lemma XStatefulSet_DeepCopy_independent_witness :
  ∃ d, repr demo_heap (@Ptr SetRep (Some 1%positive)) (Some demo_value) d ∧
  ∃ p' h' d',
    XStatefulSet_DeepCopy (Ptr (Some 1%positive)) demo_heap = Some (p', h') ∧
    XStatefulSet_DeepCopyObject (Ptr (Some 1%positive)) demo_heap = Some (Some p', h') ∧
    repr h' (@Ptr SetRep (Some 1%positive)) (Some demo_value) d ∧ repr h' p' (Some demo_value) d' ∧ d ## d' ∧
    (∀ l c, l ∈ d' → repr (<[l := c]> h') (@Ptr SetRep (Some 1%positive)) (Some demo_value) d) ∧
    (∀ l c, l ∈ d → repr (<[l := c]> h') p' (Some demo_value) d').
Proof.
  eexists. match goal with |- ?P ∧ _ => assert (Hr : P) end.
  { exists demo_SetRep. eexists. split; [reflexivity|]. split; [|reflexivity].
    exists ∅. eexists _, _. split_and!; [by split| | |reflexivity|reflexivity].
    - eexists _, _, _, _, _, _, _, _. split_and!; try reflexivity; try (by split).
      + exists 2. eexists. split_and!; [reflexivity|by split|reflexivity].
      + exists demo_selector. eexists. split_and!; [reflexivity|by split|reflexivity].
      + exists (VolumeClaimTemplates (Spec demo_set)). eexists. split_and!; [reflexivity| |reflexivity].
        exists ∅, ∅. split_and!; [by split|reflexivity|reflexivity].
      + exists 2. eexists. split_and!; [reflexivity|by split|reflexivity].
    - eexists _, _. split_and!; try reflexivity. by split. }
  split; [exact Hr|].
  exact (XStatefulSet_DeepCopy_independent demo_heap (Ptr (Some 1%positive)) (Some demo_value) _ Hr).
Defined.
