(* ===== verification/WitnessesParallel.v ===== *)
(** * The parallel policy at work

    A set of three replicas under the parallel policy with one outdated pod, two
    missing ones and a surplus one, and the theorems of [Parallel] applied to it. *)
From S2P Require Export Witnesses Parallel.

Definition demo_parallel : XStatefulSet :=
  {| set_meta := demo_meta "web" "uid-web"; Status := zero_Status;
     Spec := {| Replicas := Some 3; Selector := Selector demo_Spec; Template := Template demo_Spec;
                VolumeClaimTemplates := VolumeClaimTemplates demo_Spec; ServiceName := ServiceName demo_Spec;
                PodManagementPolicy := ParallelPodManagement; UpdateStrategy := UpdateStrategy demo_Spec;
                RevisionHistoryLimit := RevisionHistoryLimit demo_Spec; MinReadySeconds := 0;
                RetentionPolicy := RetentionPolicy demo_Spec; Ordinals := None |} |}.

#[local] Instance par_K8s : K8s := demo_K8s demo_parallel.
#[local] Instance par_laws : K8sLaws := demo_K8sLaws demo_parallel.
#[local] Instance par_runtime : GoRuntime := demo_runtime.
#[local] Instance par_GoLaws : GoLaws := demo_GoLaws.
#[local] Instance par_ClientGo : ClientGo := demo_ClientGo demo_parallel.

Lemma parallel_valid : valid demo_parallel.
Proof.
  split; [unfold plain_name; vm_compute; set_solver|]. split; [split; by eexists|].
  intros ru [= <-]. by exists 0.
Qed.
(** The set with the older template. *)
Definition parallel_before : XStatefulSet := old_template demo_parallel.
Lemma parallel_before_valid : valid parallel_before.
Proof.
  split; [unfold plain_name; vm_compute; set_solver|]. split; [split; by eexists|].
  intros ru [= <-]. by exists 0.
Qed.

Definition parallel_rev (name data : string) (n : Z) : Rev :=
  {| cr_meta := demo_meta name ("uid-" +:+ name);
     Data := {| Raw := data; RObject := None |}; Revision := n |}.
Abbreviation rev_a := (parallel_rev "a" "old" 1).
Abbreviation rev_b := (parallel_rev "b" "new" 2).

Lemma parallel_syncable : syncable demo_parallel rev_a rev_b.
Proof.
  split; [exact parallel_valid|]. split; [vm_compute; congruence|]. split.
  - intros r [= <-]. vm_compute. split; congruence.
  - split; (eexists; split; [reflexivity|]; intros s [= <-]); [exact parallel_before_valid|exact parallel_valid].
Qed.

Lemma parallel_rolling : rolling_set demo_parallel parallel_before rev_a rev_b 3 0 1.
Proof. split; try reflexivity; try exact parallel_syncable; try done; [by eexists|split; [reflexivity|by exists 1]|by split; apply demo_selects]. Qed.

(** The running pod of an ordinal at revision ["a"]. *)
Definition parallel_pod (ordinal : Z) : Pod :=
  let pod := default demo_pod0 (newVersionedStatefulSetPod demo_parallel demo_parallel "a" "a" ordinal) in
  {| pod_meta := pod_meta pod; pod_Spec := pod_Spec pod; pod_Status := pod_Status demo_pod0 |}.
Definition parallel_pods : list Pod := [parallel_pod 1; parallel_pod 5].

Lemma parallel_healthy : healthy demo_parallel 100 parallel_pods.
Proof.
  assert (∀ q, q ∈ parallel_pods → member demo_parallel q ∧ settled_at 100 demo_parallel q) as Hall.
  { unfold member, settled_at. intros q Hq.
    assert (claimed demo_parallel q) as Hc.
    { apply elem_of_cons in Hq as [->| ->%list_elem_of_singleton]; apply demo_claimed; vm_compute; reflexivity. }
    apply elem_of_cons in Hq as [->| ->%list_elem_of_singleton]; split_and!; done || vm_compute; reflexivity. }
  split; [split|]; [|by intros q Hq; apply Hall..].
  unfold distinct. replace (getOrdinal <$> parallel_pods) with [1; 5] by (vm_compute; reflexivity).
  apply (bool_decide_unpack _). vm_compute. exact I.
Qed.

Lemma updateStatefulSet_refines_parallel_witness :
  wp (accepting 100) (λ _, any_call) (updateStatefulSet demo_parallel rev_a rev_b 0 parallel_pods)
    (returns (λ tr x, (∃ st, x = (Some st, None)) ∧ sound demo_parallel (effects tr parallel_pods) ∧
       parallel_step 0 3 0 1 "a" "b" {[1 := "a"; 5 := "a"]} (view (effects tr parallel_pods)))) [].
Proof.
  assert (view parallel_pods = {[1 := "a"; 5 := "a"]}) as Hview by (vm_compute; reflexivity).
  pose proof (updateStatefulSet_refines_parallel demo_parallel parallel_before rev_a rev_b 3 0 1 100 0
    parallel_pods parallel_rolling eq_refl parallel_healthy) as Hstep.
  rewrite Hview in Hstep. exact Hstep.
Defined.

(** Rounds go on. *)
Lemma parallel_rounds n : ∃ w, nsteps (round demo_parallel rev_a rev_b 0) n (100, parallel_pods) w.
Proof.
  assert (∃ err, IsNotFound err = true) as Herr by (exists (ErrApi (Reason "NotFound")); reflexivity).
  pose proof (updateStatefulSet_parallel _ _ _ _ _ _ _ parallel_rolling eq_refl) as Himp.
  induction n as [|n (w & Hw)]; [eexists; constructor|].
  destruct (rounds_steps _ _ _ _ _ _ (100, parallel_pods) _ Himp parallel_healthy Hw) as [Hh _].
  destruct (round_exists _ _ _ _ 0 _ Himp Hh Herr) as [w' Hw']. exists w'. by eapply nsteps_r.
Qed.

(** Two missing pods and a surplus one take one round, the outdated one two more. *)
Lemma parallel_converges_witness :
  ∃ w, nsteps (round demo_parallel rev_a rev_b 0) 3 (100, parallel_pods) w ∧
    rolled_out 0 3 0 "b" (view w.2).
Proof.
  assert (∃ err, IsNotFound err = true) as Herr by (exists (ErrApi (Reason "NotFound")); reflexivity).
  destruct (parallel_rounds 3) as (w & Hw). exists w. split; [exact Hw|].
  destruct (parallel_converges demo_parallel parallel_before rev_a rev_b 3 0 1 0 100 parallel_pods 3 w
    parallel_rolling eq_refl parallel_healthy Herr Hw) as (_ & _ & Hdone).
  apply Hdone. vm_compute. lia.
Defined.
