(* ===== verification/WitnessesSystem.v ===== *)
(** * Whole synchronisations at work

    A set with an outdated and a surplus pod, and the theorems of [System] applied to
    it.  The status of a set takes part in the decoding of its revisions, so the
    boundary of [Instances] gets codecs that keep the status. *)
From S2P Require Export Witnesses Total Rest.

(** ** Codecs *)

#[local] Instance StatefulSetCondition_countable : Countable StatefulSetCondition.
Proof.
  refine (inj_countable'
    (λ c, (sc_Type c, sc_Status c, sc_LastTransitionTime c, sc_Reason c, sc_Message c))
    (λ '(a, b, c, d, e), {| sc_Type := a; sc_Status := b; sc_LastTransitionTime := c;
                            sc_Reason := d; sc_Message := e |}) _).
  by intros [].
Defined.

#[local] Instance XStatefulSetStatus_countable : Countable XStatefulSetStatus.
Proof.
  refine (inj_countable'
    (λ s, (ObservedGeneration s, st_Replicas s, ReadyReplicas s, CurrentReplicas s, UpdatedReplicas s,
           CurrentRevision s, UpdateRevision s, CollisionCount s, st_Conditions s, AvailableReplicas s, st_Selector s))
    (λ '(a, b, c, d, e, f, g, h, i, j, k),
      {| ObservedGeneration := a; st_Replicas := b; ReadyReplicas := c; CurrentReplicas := d;
         UpdatedReplicas := e; CurrentRevision := f; UpdateRevision := g; CollisionCount := h;
         st_Conditions := i; AvailableReplicas := j; st_Selector := k |}) _).
  by intros [].
Defined.

(** A number as a text of binary digits, and back. *)
Fixpoint digits (n : positive) : string :=
  match n with
  | xH => ""
  | xO n => String.String "0" (digits n)
  | xI n => String.String "1" (digits n)
  end.
Fixpoint number (s : string) : positive :=
  match s with
  | String.EmptyString => xH
  | String.String c s => if bool_decide (c = "0"%char) then xO (number s) else xI (number s)
  end.
Lemma number_digits n : number (digits n) = n.
Proof. induction n as [n IH|n IH|]; cbn; [by rewrite IH..|done]. Qed.

Definition read (s : string) : string * XStatefulSetStatus := default ("", zero_Status) (decode (number s)).
Lemma read_digits (x : string * XStatefulSetStatus) : read (digits (encode x)) = x.
Proof. unfold read. by rewrite number_digits, decode_encode. Qed.

(** ** The set *)

Definition sys_set : XStatefulSet := @Scheme_Default (demo_K8s demo_set) demo_set.

(** [demo_K8s] with a text of a set that carries its status and its resource version, and
    revisions compared by their data. *)
#[local] Instance sys_K8s : K8s :=
  let k := demo_K8s sys_set in {|
  api_error := @api_error k; IsNotFound := @IsNotFound k; IsAlreadyExists := @IsAlreadyExists k;
  IsConflict := @IsConflict k; IsInvalid := @IsInvalid k; Error := @Error k;
  NewAggregate := @NewAggregate k; Aggregate_Errors := @Aggregate_Errors k;
  selector := @selector k; LabelSelectorAsSelector := @LabelSelectorAsSelector k;
  Matches := @Matches k; SelectorEmpty := @SelectorEmpty k; SelectorString := @SelectorString k;
  GetControllerOf := @GetControllerOf k; IsControlledBy := @IsControlledBy k;
  NewControllerRef := @NewControllerRef k; GroupVersionString := @GroupVersionString k;
  OwnerReferenceString := @OwnerReferenceString k; KeyFunc := @KeyFunc k;
  SplitMetaNamespaceKey := @SplitMetaNamespaceKey k;
  GetScaledValueFromIntOrPercent := @GetScaledValueFromIntOrPercent k;
  NameIsDNSSubdomain := @NameIsDNSSubdomain k; SafeEncodeString := @SafeEncodeString k;
  object := @object k; ForHash := @ForHash k; TemplateObject := @TemplateObject k;
  SemanticDeepEqual := @SemanticDeepEqual k; TitleEnglish := @TitleEnglish k;
  FeatureEnabled g := @FeatureEnabled k g && negb (bool_decide (g = StatefulSetSemanticRevisionComparison));
  EncodeSet s := inl (digits (encode (ResourceVersion (set_meta s), Status s)));
  UnmarshalMap := @UnmarshalMap k;
  UnmarshalSet s :=
    let '(patch, original) := demo_unmerge s in
    let '(rv, st) := read original in demo_patched patch (restamp rv st sys_set);
  Marshal := @Marshal k;
  StrategicMergePatch original p := inl (demo_merge original p)
|}.
#[local] Instance sys_laws : K8sLaws.
Proof. destruct (demo_K8sLaws sys_set). by split. Qed.
#[local] Instance sys_runtime : GoRuntime := demo_runtime.
#[local] Instance sys_GoLaws : GoLaws := demo_GoLaws.
#[local] Instance sys_ClientGo : ClientGo := {|
  RetryOnConflict E R T b fn s := retry_loop 4 fn s;
  retries _ := 4%nat;
  RetryOnConflict_spec E R T b fn s := eq_refl
|}.
#[local] Existing Instance realHistory.

Definition sys_rev (name data : string) (n : Z) : Rev :=
  {| cr_meta := with_OwnerReferences [NewControllerRef (set_meta sys_set) controllerKind]
                  (demo_meta name ("uid-" +:+ name));
     Data := {| Raw := data; RObject := None |}; Revision := n |}.
Definition sys_old : Rev := sys_rev "a" "old" 1.
Definition sys_latest : Rev := sys_rev "b" "patch" 2.

Abbreviation sys_now rv st := (restamp rv st sys_set).

Lemma sys_valid rv st : valid (sys_now rv st).
Proof.
  split; [unfold plain_name; vm_compute; set_solver|]. split; [split; by eexists|].
  intros ru [= <-]. by exists 0.
Qed.
Lemma sys_valid_old rv st : valid (old_template (sys_now rv st)).
Proof.
  split; [unfold plain_name; vm_compute; set_solver|]. split; [split; by eexists|].
  intros ru [= <-]. by exists 0.
Qed.

(** Revisions are decoded by their data. *)
Lemma sys_apply rv st rev :
  slash_free (Raw (Data rev)) → ApplyRevision (sys_now rv st) rev = Some (demo_patched (Raw (Data rev)) (sys_now rv st)).
Proof. intros Hr. unfold ApplyRevision. cbn. by rewrite demo_unmerge_merge, read_digits. Qed.
Lemma sys_apply_patch rv st rev :
  Raw (Data rev) = "patch" → ApplyRevision (sys_now rv st) rev = Some (inl (sys_now rv st)).
Proof. intros Hr. rewrite sys_apply, Hr; [done|rewrite Hr; unfold slash_free; by vm_compute; set_solver]. Qed.
Lemma sys_apply_old rv st rev :
  Raw (Data rev) = "old" → ApplyRevision (sys_now rv st) rev = Some (inl (old_template (sys_now rv st))).
Proof. intros Hr. rewrite sys_apply, Hr; [done|rewrite Hr; unfold slash_free; by vm_compute; set_solver]. Qed.

Lemma sys_restorable rv st rev : Raw (Data rev) ∈ ["patch"; "old"] → restorable (sys_now rv st) rev.
Proof.
  intros [Hr|Hr%list_elem_of_singleton]%elem_of_cons; eexists.
  - split; [by apply sys_apply_patch|]. intros s [= <-]. apply sys_valid.
  - split; [by apply sys_apply_old|]. intros s [= <-]. apply sys_valid_old.
Qed.

(** A patch that deletes the replicas is applied, but the set it gives is not valid. *)
Lemma sys_not_restorable rv st name n : ¬ restorable (sys_now rv st) (sys_rev name "null" n).
Proof.
  intros (x & Hx & Hv). rewrite sys_apply in Hx by (unfold slash_free; by vm_compute; set_solver).
  injection Hx as <-. destruct (Hv _ eq_refl) as (_ & [_ [r Hr]] & _). discriminate.
Qed.

Lemma sys_selects rv st : selects_template (sys_now rv st) (sys_now rv st).
Proof. exact (demo_selects sys_set sys_set sys_set eq_refl eq_refl). Qed.
Lemma sys_selects_old rv st : selects_template (sys_now rv st) (old_template (sys_now rv st)).
Proof. exact (demo_selects sys_set sys_set (old_template sys_set) eq_refl eq_refl). Qed.

Lemma sys_deployment_of revs latest :
  latest ∈ revs → Data latest = {| Raw := "patch"; RObject := None |} →
  (∀ v, v ∈ revs → Raw (Data v) ∈ ["patch"; "old"]) →
  (∀ v, v ∈ revs → OwnerReferences (cr_meta v) = [NewControllerRef (set_meta sys_set) controllerKind]) →
  deployment demo_set revs latest 2 0 1.
Proof.
  intros Hin Hdata Hraw Howned. split.
  - split; [done|]. unfold slash_free. by vm_compute; set_solver.
  - split; [done|]. unfold slash_free. by vm_compute; set_solver.
  - done.
  - by eexists.
  - done.
  - intros rv st v Hv. change (Scheme_Default demo_set) with sys_set.
    assert (syncable (sys_now rv st) v latest) as Hsync.
    { split; [apply sys_valid|]. split; [vm_compute; congruence|]. split; [intros r [= <-]; vm_compute; split; congruence|].
      split; by apply sys_restorable, Hraw. }
    assert (ApplyRevision (sys_now rv st) latest = Some (inl (sys_now rv st))) as Hupd
      by (apply sys_apply_patch; by rewrite Hdata).
    assert (∃ s, ApplyRevision (sys_now rv st) v = Some (inl s) ∧ same_but_template s (sys_now rv st) ∧
      selects_template (sys_now rv st) s) as (s & Hs & Hsame & Hsel).
    { pose proof (Hraw v Hv) as [Hr|Hr%list_elem_of_singleton]%elem_of_cons; eexists.
      - split; [by apply sys_apply_patch|]. split; [done|apply sys_selects].
      - split; [by apply sys_apply_old|]. split; [done|apply sys_selects_old]. }
    exists s. split; try done; [by eexists|split; [reflexivity|by exists 1]|split; [apply sys_selects|done]].
  - intros rv st. eexists. split; [reflexivity|]. by rewrite Hdata.
  - intros v Hv. rewrite (Howned v Hv). eexists. split; reflexivity.
Qed.

Lemma sys_deployment : deployment demo_set [sys_old; sys_latest] sys_latest 2 0 1.
Proof.
  apply sys_deployment_of; [by right; left|done|..]; intros v [->| ->%list_elem_of_singleton]%elem_of_cons;
    try done; [right; left|left].
Qed.

(** ** The world: the outdated pod 0, no pod 1, and the pod 4 *)

Definition sys_pod (rev : string) (ordinal : Z) : Pod :=
  let pod := default demo_pod0 (newVersionedStatefulSetPod sys_set sys_set rev rev ordinal) in
  {| pod_meta := pod_meta pod; pod_Spec := pod_Spec pod; pod_Status := pod_Status demo_pod0 |}.

Definition sys_world : world :=
  {| w_time := 100; w_set := demo_set; w_revisions := [sys_old; sys_latest];
     w_pods := [sys_pod "a" 0; sys_pod "b" 4] |}.

Lemma sys_settled : settled_world demo_set [sys_old; sys_latest] sys_latest sys_world.
Proof.
  assert (∀ q, q ∈ w_pods sys_world → member sys_set q ∧ settled_at 100 sys_set q) as Hall.
  { intros q Hq. assert (claimed sys_set q) as Hc.
    { apply elem_of_cons in Hq as [->| ->%list_elem_of_singleton];
        apply (demo_claimed sys_set sys_set); vm_compute; reflexivity. }
    apply elem_of_cons in Hq as [->| ->%list_elem_of_singleton]; split_and!; done || vm_compute; reflexivity. }
  split; [|intros q Hq; by apply Hall]. split; [split|vm_compute; reflexivity].
  - by exists "1", zero_Status.
  - done.
  - apply (bool_decide_unpack _). vm_compute. exact I.
  - split; [|intros q Hq; by apply Hall]. unfold distinct.
    replace (getOrdinal <$> w_pods sys_world) with [0; 4] by (vm_compute; reflexivity).
    apply (bool_decide_unpack _). vm_compute. exact I.
Qed.

Lemma sync_refines_rollout_witness :
  wp (serving sys_world) (λ _, round_io) (sync 0 "ns/web")
    (returns (λ tr x, x = Some None ∧ standing demo_set [sys_old; sys_latest] sys_latest (after tr sys_world) ∧
       ∃ cur, cur ∈ [sys_old; sys_latest] ∧
         rollout_step 0 2 0 1 (Name (cr_meta cur)) "b" {[0 := "a"; 4 := "b"]} (view (w_pods (after tr sys_world))))) [].
Proof.
  assert (view (w_pods sys_world) = {[0 := "a"; 4 := "b"]}) as Hview by (vm_compute; reflexivity).
  pose proof (sync_refines_rollout demo_set [sys_old; sys_latest] sys_latest 2 0 1 sys_deployment sys_world 0
    sys_settled) as Hstep.
  rewrite Hview in Hstep. exact Hstep.
Defined.

Lemma sys_error : ∃ err : error, IsNotFound err = true.
Proof. by exists (ErrApi (Reason "NotFound")). Qed.

(** Rounds go on. *)
Lemma sys_rounds n : ∃ w, nsteps (turn demo_set 0) n sys_world w.
Proof.
  assert (∃ w, nsteps (turn demo_set 0) n sys_world w ∧ settled_world demo_set [sys_old; sys_latest] sys_latest w)
    as (w & Hw & _); [|by exists w].
  induction n as [|n (w & Hw & Hin)]; [exists sys_world; split; [constructor|exact sys_settled]|].
  destruct (turn_exists demo_set [sys_old; sys_latest] sys_latest 2 0 1 sys_deployment 0 w sys_error Hin) as [w' Hw'].
  exists w'. split; [by eapply nsteps_r|].
  by destruct (turn_step demo_set [sys_old; sys_latest] sys_latest 2 0 1 sys_deployment 0 w w' Hin Hw').
Qed.

(** One missing pod, one surplus pod and an outdated one: four rounds. *)
Lemma sys_rolls_out : ∃ w, nsteps (turn demo_set 0) 4 sys_world w ∧ rolled_out 0 2 0 "b" (view (w_pods w)).
Proof.
  destruct (sys_rounds 4) as (w & Hw). exists w. split; [exact Hw|].
  destruct (sync_rolls_out demo_set [sys_old; sys_latest] sys_latest 2 0 1 sys_deployment 0 4 sys_world w
    sys_error sys_settled Hw) as (_ & _ & Hdone).
  apply Hdone. vm_compute. lia.
Qed.

(** ** A new template: the same pods, and only the old revision *)

Definition new_world : world :=
  {| w_time := 100; w_set := demo_set; w_revisions := [sys_old]; w_pods := w_pods sys_world |}.
Definition new_store : gmap string Rev := {[ "a" := sys_old ]}.
Definition new_proposal : Rev :=
  match proposal new_world with Some (inl v) => v | _ => sys_old end.

(** The API server of the example gives what it stores its own metadata. *)
Definition sys_stamp (ns : string) (v : Rev) : Rev :=
  let m := cr_meta v in
  {| cr_meta := {| Name := Name m; GenerateName := GenerateName m; Namespace := ns; UID := "uid-7";
                   ResourceVersion := "12"; Generation := 1; CreationTimestamp := 60;
                   DeletionTimestamp := DeletionTimestamp m; Labels := Labels m; Annotations := Annotations m;
                   OwnerReferences := OwnerReferences m; Finalizers := Finalizers m |};
     Data := Data v; Revision := Revision v |}.
Lemma sys_stamp_stores ns v : stores ns v (sys_stamp ns v).
Proof. split; [by split_and!|done]. Qed.

Definition new_rev : Rev := sys_stamp "ns" (probe (set_meta sys_set) new_proposal 0).

Definition new_revs : list Rev := [sys_old; new_rev].

Lemma new_deployment : deployment demo_set new_revs new_rev 2 0 1.
Proof.
  apply sys_deployment_of; [by right; left|vm_compute; reflexivity|..].
  - intros v [->| ->%list_elem_of_singleton]%elem_of_cons; [right; left|].
    replace (Raw (Data new_rev)) with "patch" by (vm_compute; reflexivity). left.
  - intros v [->| ->%list_elem_of_singleton]%elem_of_cons; vm_compute; reflexivity.
Qed.

Lemma new_waiting : waiting demo_set new_revs new_rev new_store sys_stamp 1 new_proposal (λ l, l ++ [new_rev]) new_world.
Proof.
  destruct sys_settled as [[[Hset _ _ Hpods] _] Hrest]. split.
  - split; [done| | |done].
    + intros v ->%list_elem_of_singleton. left.
    + apply (bool_decide_unpack _). vm_compute. exact I.
  - exact Hrest.
  - split; intros v ->%list_elem_of_singleton; [reflexivity|vm_compute; split; congruence].
  - vm_compute. reflexivity.
  - apply (pub_new _ _ _ _ _ _ 0); [vm_compute; reflexivity| |lia|lia|reflexivity|vm_compute; reflexivity].
    intros v _. by left.
Qed.

(** The revision is created, one pod is missing, one is surplus and one is outdated: four
    rounds. *)
Lemma template_rolls_out_witness :
  Name (cr_meta new_rev) = "web-3411466803" ∧
  ∃ w1 w, turn_in demo_set (publishing new_store sys_stamp) 1 new_world w1 ∧ nsteps (turn demo_set 1) 3 w1 w ∧
    rolled_out 0 2 0 "web-3411466803" (view (w_pods w)).
Proof.
  assert (Name (cr_meta new_rev) = "web-3411466803") as Hname by (vm_compute; reflexivity). split; [exact Hname|].
  destruct (template_rolls_out demo_set new_revs new_rev 2 0 1 new_store sys_stamp sys_stamp_stores new_deployment 1 new_proposal _ new_world
    sys_error (ex_intro _ (ErrApi (Reason "AlreadyExists")) eq_refl) new_waiting) as [[w1 Hfirst] Hrounds].
  assert (∀ n, ∃ w, nsteps (turn demo_set 1) n w1 w) as Hgo.
  { induction n as [|n [w Hw]]; [exists w1; constructor|].
    destruct (Hrounds w1 n w Hfirst Hw) as (_ & [w' Hw'] & _). exists w'. by eapply nsteps_r. }
  destruct (Hgo 3%nat) as [w Hw]. exists w1, w. split; [exact Hfirst|]. split; [exact Hw|].
  destruct (Hrounds w1 3%nat w Hfirst Hw) as (_ & _ & Hdone). rewrite Hname in Hdone. apply Hdone.
  vm_compute. lia.
Defined.

(** ** After the rollout: both pods run "b", the status is still empty *)

Definition rest_world : world :=
  {| w_time := 100; w_set := demo_set; w_revisions := [sys_old; sys_latest];
     w_pods := [sys_pod "b" 0; sys_pod "b" 1] |}.

Lemma rest_arrived : arrived demo_set [sys_old; sys_latest] sys_latest 2 rest_world.
Proof.
  assert (∀ q, q ∈ w_pods rest_world → member sys_set q ∧ settled_at 100 sys_set q) as Hall.
  { intros q Hq. assert (claimed sys_set q) as Hc.
    { apply elem_of_cons in Hq as [->| ->%list_elem_of_singleton];
        apply (demo_claimed sys_set sys_set); vm_compute; reflexivity. }
    apply elem_of_cons in Hq as [->| ->%list_elem_of_singleton]; split_and!; done || vm_compute; reflexivity. }
  split; [split; [|intros q Hq; by apply Hall]|].
  - destruct sys_settled as [[[Hset Hrevs Hnames _] Hnew] _]. split; [split; [done..|]|done].
    split; [|intros q Hq; by apply Hall]. unfold distinct.
    replace (getOrdinal <$> w_pods rest_world) with [0; 1] by (vm_compute; reflexivity).
    apply (bool_decide_unpack _). vm_compute. exact I.
  - unfold uniform. replace (view (w_pods rest_world)) with ({[0 := "b"; 1 := "b"]} : gmap Z string)
      by (vm_compute; reflexivity).
    change (rolled_out 0 2 0 "b" {[0 := "b"; 1 := "b"]}).
    assert (∀ o, within 0 2 o → ({[0 := "b"; 1 := "b"]} : gmap Z string) !! o = Some "b") as Hb.
    { intros o [? ?]. assert (o = 0 ∨ o = 1) as [-> | ->] by lia; reflexivity. }
    split_and!; [intros o Ho; by rewrite Hb| |by intros o Ho _; apply Hb].
    intros o [Ho|[_ Ho]]%lookup_insert_is_Some; [|apply lookup_singleton_is_Some in Ho]; unfold within; lia.
Qed.

Lemma sys_budgeted : budgeted (Scheme_Default demo_set).
Proof. intros ru r [= <-]. by exists 1. Qed.

Lemma sync_comes_to_rest_witness :
  ∃ w, nsteps (turn_in demo_set resting 0) 2 rest_world w ∧ settled_status (w_set w) sys_latest 2 ∧
    trimmed sys_latest 1 w ∧
    wp (resting w) (λ _, round_io) (sync 0 "ns/web") (returns (λ tr x, x = Some None ∧ silent tr ∧ after tr w = w)) [].
Proof.
  assert (∀ n w, nsteps (turn_in demo_set resting 0) n rest_world w →
    arrived demo_set [sys_old; sys_latest] sys_latest 2 w ∧ (∃ w', turn_in demo_set resting 0 w w') ∧
    ((1 ≤ n)%nat → settled_status (w_set w) sys_latest 2) ∧
    ((2 ≤ n)%nat → trimmed sys_latest 1 w ∧ wp (resting w) (λ _, round_io) (sync 0 "ns/web")
      (returns (λ tr x, x = Some None ∧ silent tr ∧ after tr w = w)) [])) as Hrest.
  { intros n w Hw. apply (sync_comes_to_rest demo_set [sys_old; sys_latest] sys_latest 2 0 1 1 sys_deployment
      eq_refl sys_budgeted eq_refl eq_refl 0 n rest_world w sys_error rest_arrived Hw). }
  assert (∀ n, ∃ w, nsteps (turn_in demo_set resting 0) n rest_world w) as Hgo.
  { induction n as [|n [w Hw]]; [exists rest_world; constructor|].
    destruct (Hrest n w Hw) as (_ & [w' Hw'] & _). exists w'. by eapply nsteps_r. }
  destruct (Hgo 2%nat) as [w Hw]. exists w. split; [exact Hw|]. destruct (Hrest 2%nat w Hw) as (_ & _ & H1' & H2').
  split; [apply H1'; lia|apply H2'; lia].
Defined.

(** ** What the caches may have *)

(** The set with its resource version and its status, and the revisions of its two templates. *)
Definition sys_sets (s : XStatefulSet) : Prop := ∃ rv st, s = restamp rv st demo_set.
Definition sys_revisions (v : Rev) : Prop := Raw (Data v) ∈ ["patch"; "old"].

Lemma sync_never_panics_witness :
  sys_sets demo_set ∧ sys_revisions sys_old ∧ ¬ replayable sys_set (sys_rev "c" "null" 3) ∧
  wp (admitted sys_sets sys_revisions) (λ _, any_call) (sync 3 "ns/web")
    (returns (λ tr x, x = None → (3 ≤ collided tr)%nat)) [].
Proof.
  split; [by exists "1", zero_Status|]. split; [right; left|]. split.
  { intros [Hr _]. exact (sys_not_restorable "1" zero_Status "c" 3 Hr). }
  apply sync_never_panics.
  - intros s (rv & st & ->). split; [exact (sys_valid rv st)|]. split; [vm_compute; congruence|].
    split; [intros r [= <-]; vm_compute; split; congruence|by eexists].
  - intros s v (rv & st & ->) Hv. change (Scheme_Default (restamp rv st demo_set)) with (sys_now rv st).
    split; [by apply sys_restorable|]. intros s Hs. by eexists.
Defined.
