(* ===== verification/WitnessesPool.v ===== *)
(** * The worker pool at work

    A concrete work queue that satisfies the laws of [Pool], one execution of the
    pool with one worker, and the theorems of [Pool] applied to it. *)
From S2P Require Export Witnesses Pool.

#[local] Existing Instance the_K8s.
#[local] Existing Instance the_laws.
#[local] Existing Instance the_runtime.
#[local] Existing Instance the_ClientGo.
#[local] Existing Instance realHistory.

(** ** A queue *)

Record demo_WQ := {
  dq_waiting : gset string; dq_processing : gset string; dq_delayed : gset string; dq_down : bool }.

(** A key that waits and is not being processed. *)
Definition demo_ready_key (q : demo_WQ) : option string :=
  List.find (λ k, bool_decide (k ∉ dq_processing q)) (elements (dq_waiting q)).

Definition demo_Get (q : demo_WQ) : option (option string * demo_WQ) :=
  match demo_ready_key q with
  | Some k =>
      Some (Some k, {| dq_waiting := dq_waiting q ∖ {[k]}; dq_processing := {[k]} ∪ dq_processing q;
                       dq_delayed := dq_delayed q; dq_down := dq_down q |})
  | None => if dq_down q then Some (None, q) else None
  end.

Definition demo_delay (k : string) (q : demo_WQ) : demo_WQ :=
  if dq_down q then q
  else {| dq_waiting := dq_waiting q; dq_processing := dq_processing q;
          dq_delayed := {[k]} ∪ dq_delayed q; dq_down := false |}.

#[local] Instance demo_queue : WorkQueue := {|
  WQ := demo_WQ;
  NewQueue := {| dq_waiting := ∅; dq_processing := ∅; dq_delayed := ∅; dq_down := false |};
  waiting := dq_waiting; processing := dq_processing; delayed := dq_delayed; is_down := dq_down;
  wq_Add k q :=
    if dq_down q then q
    else {| dq_waiting := {[k]} ∪ dq_waiting q; dq_processing := dq_processing q;
            dq_delayed := dq_delayed q; dq_down := false |};
  wq_AddAfter k _ q := demo_delay k q;
  wq_AddRateLimited k q := demo_delay k q;
  wq_Forget k q := q;
  wq_Get := demo_Get;
  wq_Done k q :=
    {| dq_waiting := dq_waiting q; dq_processing := dq_processing q ∖ {[k]};
       dq_delayed := dq_delayed q; dq_down := dq_down q |};
  wq_ShutDown q :=
    {| dq_waiting := dq_waiting q; dq_processing := dq_processing q;
       dq_delayed := dq_delayed q; dq_down := true |};
  wq_Tick q :=
    if dq_down q then q
    else {| dq_waiting := dq_waiting q ∪ dq_delayed q; dq_processing := dq_processing q;
            dq_delayed := ∅; dq_down := false |}
|}.

Lemma demo_delay_law k q :
  keeps q (demo_delay k q) ∧ (is_down q = false → k ∈ pending (demo_delay k q)).
Proof.
  destruct q as [w p d [|]]; (split; [split|]); unfold pending; cbn; try done; set_solver.
Qed.

#[local] Instance demo_queue_laws : WorkQueueLaws.
Proof.
  split.
  - split_and!; [unfold pending; cbn; set_solver|done..].
  - intros k [w p d [|]]; (split; [split|]); unfold pending; cbn; try done; set_solver.
  - intros. apply demo_delay_law.
  - intros. apply demo_delay_law.
  - by split.
  - intros [w p d [|]]; split; unfold pending; cbn; try done; set_solver.
  - done.
  - done.
  - intros q k q'. cbn. unfold demo_Get, demo_ready_key. destruct (List.find _ _) as [k'|] eqn:Hf.
    + intros [= -> <-]. apply find_some in Hf as [Hin Hp%bool_decide_eq_true].
      apply list_elem_of_In, elem_of_elements in Hin. done.
    + by destruct (dq_down q).
  - intros q q'. cbn. unfold demo_Get. destruct (demo_ready_key q); [done|].
    destruct (dq_down q) eqn:Hd; [|done]. by intros [= <-].
  - intros q. cbn. unfold demo_Get, demo_ready_key. destruct (List.find _ _) eqn:Hf; [done|].
    destruct (dq_down q) eqn:Hd; [done|]. intros _. split; [done|]. intros k Hk.
    apply elem_of_elements, list_elem_of_In in Hk. apply (find_none _ _ Hf) in Hk.
    apply bool_decide_eq_false in Hk. by destruct (decide (k ∈ dq_processing q)).
Qed.

(** ** An execution *)

Ltac main_now c r :=
  eapply rtc_l; [apply by_main; eapply (step_main _ c _ r); [reflexivity|try split; reflexivity]|].

(** [Run] has started one worker, the set was added to the cache and its handler has
    put the key on the queue. *)
Lemma demo_queued : ∃ s,
  reachable 3 1 s ∧ workers s = [Pausing] ∧ handlers s = [{| h_event := PodDeleted (Tombstone "ns/web-0" (ObjPod demo_pod0));
    h_log := [existT (SetListerGet "ns" "web") (inl demo_set : reply (SetListerGet _ _));
              existT (QueueAdd "ns/web") (tt : reply (QueueAdd _))]; h_rest := Ret tt |}] ∧
  queue s = wq_Add "ns/web" NewQueue ∧ cancelled s = false ∧
  main s = (call CtxDone;; run_deferred) ∧
  history s = [existT (SetListerGet "ns" "web") (inl demo_set : reply (SetListerGet _ _));
               existT (QueueAdd "ns/web") (tt : reply (QueueAdd _))].
Proof.
  eexists. split; [unfold reachable|].
  - main_now (StartStructuredLogging 3) tt. main_now StartRecordingToSink tt.
    main_now (WaitForNamedCacheSync informers_awaited) true. main_now GoUntil tt.
    eapply rtc_l; [apply by_world, (step_event _ (PodDeleted (Tombstone "ns/web-0" (ObjPod demo_pod0))))|].
    eapply rtc_l.
    { apply by_world. eapply (step_handler _ 0 _ _ (SetListerGet "ns" "web") _ (inl demo_set)); reflexivity. }
    eapply rtc_l.
    { apply by_world. eapply (step_handler _ 0 _ _ (QueueAdd "ns/web") _ tt); reflexivity. }
    apply rtc_refl.
  - split_and!; reflexivity.
Qed.

(** The worker has taken the key and has asked for the set. *)
Definition demo_found : obs reply := existT (SetListerGet "ns" "web") (inl demo_set : reply (SetListerGet _ _)).

Lemma demo_inside : ∃ s rest, reachable 3 1 s ∧ inside 3 s 0 "ns/web" ∧
  workers s = [Working [existT QueueGet (Some "ns/web" : reply QueueGet); demo_found] rest].
Proof.
  destruct demo_queued as (s & Hr & Hw & _ & Hq & Hc & _). eexists _, _. split; [|split].
  - eapply rtc_r; [eapply rtc_r; [eapply rtc_r; [exact Hr|]|]|].
    + apply by_worker, (step_again _ _ 0); [by rewrite Hw|done].
    + apply by_worker. eapply (step_call _ _ 0 _ QueueGet _ (Some "ns/web")).
      * cbn. rewrite Hw. reflexivity.
      * cbn. rewrite Hq. reflexivity.
    + apply by_worker. eapply (step_call _ _ 0 _ (SetListerGet "ns" "web") _ (inl demo_set)).
      * cbn. rewrite Hw. reflexivity.
      * reflexivity.
  - eexists [], [], [demo_found], _, _. split; [cbn; rewrite Hw; reflexivity|]. split; [constructor|]. split; [done|].
    eapply (leads_snoc _ [] (SetListerGet "ns" "web") _ (inl demo_set)). apply leads_nil.
  - cbn. rewrite Hw. reflexivity.
Qed.

Lemma sync_never_concurrent_witness :
  ∃ s, reachable 3 1 s ∧ inside 3 s 0 "ns/web" ∧ 0%nat = 0%nat ∧ "ns/web" ∈ processing (queue s).
Proof.
  destruct demo_inside as (s & rest & Hr & Hi & _). exists s. split; [exact Hr|]. split; [exact Hi|].
  exact (sync_never_concurrent 3 1 s 0 0 "ns/web" Hr Hi Hi).
Defined.

(** The lister fails, and the worker has made its next call. *)
Definition demo_refusal : reply (SetListerGet "ns" "web") := inr (ErrApi (Reason "Conflict")).
Definition demo_failed : list (obs reply) :=
  [existT (SetListerGet "ns" "web") demo_refusal].
Definition demo_retry : obs reply := existT (QueueAddRateLimited "ns/web") (tt : reply (QueueAddRateLimited _)).

Lemma demo_retried : ∃ s rest, reachable 3 1 s ∧ is_down (queue s) = false ∧
  workers s !! 0%nat = Some (Working (existT QueueGet (Some "ns/web" : reply QueueGet) :: demo_failed ++ demo_retry :: []) rest).
Proof.
  destruct demo_queued as (s & Hr & Hw & _ & Hq & Hc & _). eexists _, _. split; [|split].
  - eapply rtc_r; [eapply rtc_r; [eapply rtc_r; [eapply rtc_r; [exact Hr|]|]|]|].
    + apply by_worker, (step_again _ _ 0); [by rewrite Hw|done].
    + apply by_worker. eapply (step_call _ _ 0 _ QueueGet _ (Some "ns/web")).
      * cbn. rewrite Hw. reflexivity.
      * cbn. rewrite Hq. reflexivity.
    + apply by_worker. eapply (step_call _ _ 0 _ (SetListerGet "ns" "web") _ demo_refusal).
      * cbn. rewrite Hw. reflexivity.
      * reflexivity.
    + apply by_worker. eapply (step_call _ _ 0 _ (QueueAddRateLimited "ns/web") _ tt).
      * cbn. rewrite Hw. reflexivity.
      * reflexivity.
  - reflexivity.
  - cbn. rewrite Hw. reflexivity.
Qed.

(** A worker is about to ask for a key while one waits: it gets it. *)
Lemma demo_asking : ∃ s f, reachable 3 1 s ∧ is_down (queue s) = false ∧
  workers s !! 0%nat = Some (Working [] (Vis QueueGet f)) ∧ "ns/web" ∈ waiting (queue s).
Proof.
  destruct demo_queued as (s & Hr & Hw & _ & Hq & Hc & _). eexists _, _. split_and!.
  - eapply rtc_r; [exact Hr|]. apply by_worker, (step_again _ _ 0); [by rewrite Hw|done].
  - cbn. by rewrite Hq.
  - cbn. rewrite Hw. reflexivity.
  - cbn. rewrite Hq. vm_compute. reflexivity.
Qed.

Lemma no_key_lost_witness :
  (∃ s h1 h2, history s = h1 ++ demo_retry :: h2 ∧ ("ns/web" ∈ pending (queue s) ∨ Exists (takes "ns/web") h2)) ∧
  ∃ s f, (∃ k' q, wq_Get (queue s) = Some (Some k', q) ∧ k' ∈ waiting (queue s) ∧
      worker_step 3 s (after_call q (existT QueueGet (Some k' : reply QueueGet))
        (with_worker 0 (Working ([] ++ [existT QueueGet (Some k' : reply QueueGet)]) (f (Some k'))) s))) ∨
    ∃ j, j ≠ 0%nat ∧ busy s j "ns/web".
Proof.
  split.
  - destruct demo_retried as (s & rest & Hr & Hd & Hi). exists s.
    apply (proj1 (proj2 (no_key_lost 3 1 s "ns/web" Hr Hd)) 0%nat demo_failed (Some (ErrApi (Reason "Conflict"))) _ _ _ Hi).
    eexists _, _. split; [reflexivity|]. split; reflexivity.
  - destruct demo_asking as (s & f & Hr & Hd & Hi & Hk). exists s, f.
    exact (proj2 (proj2 (no_key_lost 3 1 s "ns/web" Hr Hd)) 0%nat [] f Hi Hk).
Defined.

Lemma event_reaches_worker_witness :
  ∃ s h1 h2, history s = h1 ++ existT (QueueAdd "ns/web") tt :: h2 ∧
    ("ns/web" ∈ pending (queue s) ∨ Exists (takes "ns/web") h2).
Proof.
  destruct demo_queued as (s & Hr & _ & Hh & Hq & _). exists s.
  eapply (event_reaches_worker demo_cached demo_listed 3 1 s _ demo_set Hr).
  - rewrite Hq. reflexivity.
  - rewrite Hh. left.
  - reflexivity.
  - repeat constructor.
  - left. exists demo_pod0. split; [constructor|]. exists demo_owner. split_and!; reflexivity.
Defined.

(** The context is cancelled and the queue shut down while the key still waits. *)
Lemma demo_closing : ∃ s, reachable 3 1 s ∧ closing s ∧ workers s = [Pausing] ∧ main s = (call WgWait;; call BroadcasterShutdown).
Proof.
  destruct demo_queued as (s & Hr & Hw & _ & Hq & Hc & Hm & _). eexists. split.
  - eapply rtc_r; [eapply rtc_r; [eapply rtc_r; [exact Hr|]|]|].
    + apply by_world, step_cancel.
    + apply by_main. eapply (step_main _ CtxDone _ tt); [exact Hm|split; reflexivity].
    + apply by_main. eapply (step_main _ QueueShutDown _ tt); reflexivity.
  - split; [split; reflexivity|]. split; [exact Hw|reflexivity].
Qed.

