(* ===== verification/WitnessesApi.v ===== *)
(** * The API packages and the start of the process

    A concrete [runtime.Scheme] that satisfies the laws of [Scheme], a client of the
    apply configurations, and libraries that let [setupController] succeed; the
    theorems of [Scheme], [ApplyConfigProps], [Wiring] and [Clientset] applied to them. *)
From S2P Require Export WitnessesAround Scheme ApplyConfigProps Wiring Clientset.

#[local] Existing Instance the_K8s.
#[local] Existing Instance the_laws.
#[local] Existing Instance the_runtime.
#[local] Existing Instance demo_GoLaws.
#[local] Existing Instance demo_Crypto.

(** ** A scheme: the types it knows and its defaulting functions, newest first *)

Record demo_Scheme := {
  ds_types : list (GroupVersion * string);
  ds_funcs : list (string * (api_object → option api_object)) }.

Fixpoint demo_default (fs : list (string * (api_object → option api_object))) (obj : api_object)
    : option api_object :=
  match fs with
  | [] => Some obj
  | (t, f) :: fs => if bool_decide (go_type obj = t) then f obj else demo_default fs obj
  end.

#[local] Instance demo_scheme : RuntimeScheme := {|
  Scheme := demo_Scheme;
  NewScheme := {| ds_types := []; ds_funcs := [] |};
  AddKnownTypes gv ts s := {| ds_types := ((λ t, (gv, t)) <$> ts) ++ ds_types s; ds_funcs := ds_funcs s |};
  AddToGroupVersion gv s := {| ds_types := (gv, "*v1.WatchEvent") :: ds_types s; ds_funcs := ds_funcs s |};
  AddTypeDefaultingFunc t f s := {| ds_types := ds_types s; ds_funcs := (t, f) :: ds_funcs s |};
  SchemeDefault s := demo_default (ds_funcs s);
  Recognizes s gv t := bool_decide ((gv, t) ∈ ds_types s)
|}.

#[local] Instance demo_scheme_laws : RuntimeSchemeLaws.
Proof.
  split; try done.
  - intros gv ts s gv' t. cbn. apply eq_bool_prop_intro. rewrite orb_True, !bool_decide_spec, elem_of_app.
    rewrite list_elem_of_fmap. split.
    + intros [(t' & [= -> ->] & Ht)|Hs]; auto.
    + intros [[-> Ht]|Hs]; [left; eauto|by right].
  - intros gv s gv' t Hs%bool_decide_eq_true. cbn. apply bool_decide_eq_true. by right.
Qed.

Definition demo_kube : registration := λ s, (None, AddKnownTypes {| gv_Group := ""; gv_Version := "v1" |} ["*v1.Pod"] s).

Lemma legacyscheme_defaults_witness :
  demo_kube NewScheme = (None, (demo_kube NewScheme).2) ∧
  (∃ s, legacyscheme_init demo_kube = Some s ∧ main_init demo_kube = s ∧ knows_group s ∧
     (∀ t, t ≠ "*v1.XStatefulSet" → t ≠ "*v1.XStatefulSetList" →
        SchemeDefault s (OForeign t) = SchemeDefault (demo_kube NewScheme).2 (OForeign t))) ∧
  ∃ s, clientset_init = Some s ∧ knows_group s.
Proof.
  split; [reflexivity|].
  exact ((legacyscheme_defaults demo_kube (demo_kube NewScheme).2 eq_refl)).
Defined.

(** ** A client that shares a specification *)

#[local] Instance demo_configs : ImportedConfigs := {| OwnerRefAC := string; ClaimAC := string; ConditionAC := string |}.

Definition no_configs : configs := {| the_sets := ∅; the_specs := ∅; the_statuses := ∅ |}.

Lemma nothing_represented : represents (λ _, ∅) ∅ no_configs.
Proof. split; cbn; [done|intros ? ? []|done|done]; set_solver. Qed.

(** Two configurations with the same specification, which is changed afterwards. *)
Definition then_do (e : config_call) (k : config_reply e → prog config_reply (loc * option string))
    : prog config_reply (loc * option string) := Vis e k.
Definition demo_client : prog config_reply (loc * option string) :=
  then_do (CallXStatefulSet "web" "ns") (λ c : loc,
  then_do CallXStatefulSetSpec (λ s : loc,
  then_do (CallMethod (OnSet c (OpLabels {["app" := "a"]}))) (λ _,
  then_do (CallMethod (OnSet c (OpLabels {["app" := "b"]}))) (λ _,
  then_do (CallMethod (OnSet c (OpSpec (Some s)))) (λ _,
  then_do (CallMethod (OnSpec s (OpReplicas 3))) (λ _,
  then_do (CallMethod (OnSpec s (OpReplicas 5))) (λ _,
  then_do (CallGetName c) (λ n : option string, Ret (s, n))))))))).

Lemma demo_client_ok : client_ok no_configs demo_client.
Proof.
  split; [done|]. intros c W1 [_ ->]. split; [done|]. intros s W2 [_ ->].
  repeat (split; [by eexists; apply lookup_insert_eq|]; intros ? ?; cbn;
    rewrite ?lookup_insert_eq; cbn; intros [-> [= <-]]).
  split; [by eexists; apply lookup_insert_eq|done].
Qed.

Lemma builders_refine_witness :
  represents (λ _, ∅) ∅ no_configs ∧ client_ok no_configs demo_client ∧
  ∃ s h, exec demo_client ∅ = Some ((s, Some "web"), h) ∧
    h !! s = Some (CSpecConfig (set_s_Replicas (Some 5) empty_spec)) ∧
    ∃ W D, abstractly no_configs demo_client (Some (s, Some "web")) W ∧ represents D h W.
Proof.
  pose proof (builders_refine demo_client (λ _, ∅) ∅ no_configs nothing_represented demo_client_ok) as HW.
  split; [exact nothing_represented|]. split; [exact demo_client_ok|].
  eexists _, _. split; [vm_compute; reflexivity|]. split; [vm_compute; reflexivity|exact HW].
Defined.

(** ** The process starts *)

#[local] Instance demo_election : LeaderElection (Float32 := unit) (Rest := unit) := {|
  RunElector started stopped :=
    acquired ← call AcquireLease;
    (if acquired : bool then started;; call RenewLease else mret tt);;
    stopped;
  RunElector_spec _ _ := eq_refl
|}.

Definition demo_Config : Config unit :=
  {| EnableLeaderElection := true; Workers := 2; Kubeconfig := ""; MasterURL := "";
     KubeAPIQPS := tt; KubeAPIBurst := 0 |}.

(** Libraries that succeed, and a lease that is acquired. *)
Definition demo_boot (e : boot_call (Float32 := unit) (Rest := unit)) : boot_reply e :=
  match e as e return boot_reply e with
  | Sys c =>
      match c as c return cert_reply c with
      | GenerateKey _ => inl 0%nat | CreateCertificate _ _ _ _ => inl ""
      | SecretsGet _ _ => inl demo_secret | SecretsCreate _ _ => None
      | ValidatingGet n | MutatingGet n => inl {| whc_Name := n; Webhooks := [] |}
      | ValidatingUpdate _ | MutatingUpdate _ => None
      | TimeNow => 0 | Sleep _ => tt | Stat _ => None | ReadFile _ | OsHostname => inl ""
      | Getenv _ | NewUUID => "" | KubeClientForConfig | NewManager | SetupDefaulter
      | AddHealthzCheck _ | AddReadyzCheck _ | StartManager => None
      end
  | ParseFlags b cc wc => (b, cc, wc)
  | BuildConfigFromFlags _ _ => inl {| QPS := tt; Burst := 0; rest_of := tt |}
  | GroupWait | NewClientForConfig _ _ | AddIndexers _ _ _ | NewLeaderElector _ => None
  | OnceDo | AcquireLease => true
  | GetIndexers _ => []
  | _ => tt
  end.

(** The execution with these answers. *)
Fixpoint answered {E} {R : E → Type} {A} (h : ∀ e, R e) (p : prog R A) : list (obs R) * option A :=
  match p with
  | Ret a => ([], Some a)
  | Panic => ([], None)
  | Vis e k => let '(tr, o) := answered h (k (h e)) in (existT e (h e) :: tr, o)
  end.
Lemma answered_runs {E} {R : E → Type} {A} (h : ∀ e, R e) (p : prog R A) :
  runs p (answered h p).1 (answered h p).2.
Proof.
  induction p as [a| |e k IH]; [done..|]. cbn. specialize (IH (h e)).
  destruct (answered h (k (h e))) as [tr o]. by exists (h e), tr.
Qed.


(** ** The process does not start: a rate of 50 and no burst *)

#[local] Instance demo_rest : RestLibrary Z := {|
  Limiter := unit; HttpClient := unit; RESTClient_handle := unit; Discovery_handle := unit; Serializer := unit;
  Transport := unit; ScaleObject := unit; zero_Scale := tt; ScaleApplyConfiguration := unit; GetOptions := unit;
  UpdateOptions := unit; ApplyOptions := unit; PatchOptions := unit; Payload := unit; ToPatchOptions _ := tt;
  DefaultKubernetesUserAgent := "agent"; generated_codec := tt; json_Marshal _ := inl tt; zero_f32 := 0;
  positive := Z.ltb 0
|}.

#[local] Instance rated_election : LeaderElection (Float32 := Z) (Rest := rest_fields) := {|
  RunElector started stopped :=
    acquired ← call AcquireLease;
    (if acquired : bool then started;; call RenewLease else mret tt);;
    stopped;
  RunElector_spec _ _ := eq_refl
|}.

Definition rated_Config : Config Z :=
  {| EnableLeaderElection := true; Workers := 2; Kubeconfig := ""; MasterURL := "";
     KubeAPIQPS := 50; KubeAPIBurst := 0 |}.
Definition plain_rest : rest_Config Z rest_fields :=
  {| QPS := 0; Burst := 0;
     rest_of := {| UserAgent := ""; RateLimiter := None; rest_GroupVersion := None; APIPath := "";
                   NegotiatedSerializer := None; transport_of := tt |} |}.

Lemma rate_needs_burst_witness :
  ∃ tr, runs (setupController positive rated_Config) tr None ∧ Forall own_clientset tr ∧
    trace_ok (λ _, before_start) [] tr.
Proof.
  set (cfg := with_limits positive rated_Config plain_rest).
  exists [existT (BuildConfigFromFlags "" "") (inl plain_rest : boot_reply (BuildConfigFromFlags _ _));
          existT (NewClientForConfig KubeClient cfg) (None : boot_reply (NewClientForConfig _ _));
          existT (NewClientForConfig XStatefulSetClient cfg) (Some burst_required : boot_reply (NewClientForConfig _ _))].
  match goal with |- runs ?p ?tr ?o ∧ Forall ?Adm ?tr ∧ _ => assert (runs p tr o) as Hruns; [|assert (Forall Adm tr) as Hadm] end.
  - repeat (eexists _, _; split; [reflexivity|]). by split.
  - constructor; [by split|]. constructor; [done|]. constructor; [|constructor].
    exists [existT (HTTPClientFor (with_agent cfg)) (inl tt : rest_reply (HTTPClientFor (with_agent cfg)))], (inr burst_required).
    split; [|done]. eexists _, _. split; [reflexivity|]. by split.
  - split; [exact Hruns|]. split; [exact Hadm|].
    refine (proj1 (wp_runs _ _ _ _ [] _ _ (rate_needs_burst rated_Config _ _) Hruns Hadm)); [reflexivity|].
    vm_compute. congruence.
Defined.
